(* ===== verification/_CoqProject ===== *)
-Q . S2P
Prelude.v
RustStr.v
RustNet.v
FakeDns.v
ProxyConfig.v
Rule.v
Publish.v
BindMount.v
Config.v
Stream.v
Socks5.v
Http.v
Connect.v
Tun.v
Smoltcp.v
Dns.v
Relay.v
Outbound.v
OutboundSteps.v
Published.v
PublishedSteps.v
Progress.v
EventLoop.v
EndToEnd.v
Lifecycle.v
Relaying.v
Os.v
Namespace.v
Mounts.v
Process.v
Reaper.v
Main.v
Startup.v
StartupProof.v
Shutdown.v
Tests.v
