(* ===== verification/Prelude.v ===== *)
(** * nsproxy-rs: verification development

    nsproxy runs a command in a network namespace whose only way out is a TUN
    device.  A user-space TCP/IP stack (smoltcp) in the parent process answers
    the namespace; every TCP connection the command opens is relayed through a
    SOCKS5 or HTTP proxy, or directly, as a routing rule says, and DNS is
    answered with addresses of a private pool so that names reach the proxy.

    ** The parts and their models

    Configuration (before [fork]):
    - [ProxyConfig.v]: src/src/proxy/mod.rs, [ProxyConfig::parse], [ProxyTarget].
    - [Rule.v]: src/src/rule.rs.  [Module Trie] is [PrefixTrie]; the regex
      engine is the class [RegexEngine] with [RegexLaws].
    - [Publish.v]: src/src/publish.rs, arguments and host listeners.
    - [BindMount.v]: src/src/namespace.rs, [parse_bind_mounts].
    - [Config.v]: src/src/config.rs, [proxy_for] and the network constants.

    Tunnels (tasks of the parent):
    - [Stream.v]: the TCP stream the connectors use, as a class of operations
      ([TcpStreamOps]) with its laws, and [ProxyStream] of src/src/proxy/mod.rs.
    - [Socks5.v], [Http.v], [Connect.v]: src/src/proxy/socks5.rs, http.rs,
      direct.rs and [ProxyConfig::connect].

    The event loop (one task that owns all the state below):
    - [FakeDns.v]: src/src/fake_dns.rs.  [Module Pool] is the address pool,
      [Module Wire] the DNS messages.
    - [Tun.v]: src/src/tun.rs, the packet queue and [parse_tcp_syn].
    - [Smoltcp.v]: the interfaces of smoltcp's sockets, socket set and
      interface and of tokio's tasks, as classes with their documented laws,
      and the loop lemmas that both TCP components use.
    - [Dns.v], [Relay.v], [Outbound.v] ([Module Out]), [Published.v]
      ([Module Ports], [Module Pub]): src/src/event_loop/dns.rs, outbound.rs and
      published.rs, one definition per method.  [OutboundSteps.v] and
      [PublishedSteps.v] tell what each operation makes of a single connection.
    - [EventLoop.v]: src/src/event_loop.rs; [EventLoop_new] sets up the
      interface, [tick] composes the components in the order of the source,
      [run] turns the loop over whatever the outside world does ([turn]), and
      [event_loop_run] is the whole life of the task.
    - [Progress.v]: rounds of the relay against a peer that has closed and a
      stack that takes what it is given, until the connection is done.
    - [EndToEnd.v]: bounds and shutdown over any number of turns.
    - [Lifecycle.v]: one connection followed through whole ticks and waits of
      the loop, among all the others; [tick_front], [process_dns] and
      [tick_back] are [tick] cut at the round of the interceptor.
    - [Relaying.v]: the histories of connections and of names over a whole run.

    Processes:
    - [Os.v]: system calls as a history answered by an arbitrary kernel, the
      descriptors and temporary files a history leaves, and [write_all] with its
      partial writes.
    - [Namespace.v]: src/src/namespace.rs, the setup of the namespace.
    - [Mounts.v]: the files that the mounts of a history put behind each path,
      symbolic links included.
    - [Process.v]: src/src/process.rs, the reaper of the command tree;
      [Reaper.v] places its turns on a clock.
    - [Main.v]: src/src/main.rs: the configuration, and the handshake of parent
      and child as an abstract transition system, its specification.
    - [Startup.v]: [child_main], [parent_main] and their branches of [main], and
      [send_fd] and [recv_fd] of fd_passing.rs, as programs over system calls on
      the two ends of a socket that the processes inherit; [wstep] interleaves
      the two processes.  [StartupProof.v] proves that they implement the
      handshake.
    - [Shutdown.v]: src/src/main.rs, the parent's supervision of the child, the
      shutdown of the event loop and the exit code.

    [Tests.v] translates the unit tests of the pure code assertion by assertion
    and proves that they pass on the model.

    This file, [RustStr.v] and [RustNet.v] hold what the sources use of Rust:
    bytes and big-endian integers, [Result], loops that fail or panic, strings,
    UTF-8, number and address parsing.

    ** How code is modelled

    A method is a function from the state (and the sockets or tasks it borrows)
    to the new state; a [Result] is [result], and a method that can panic
    returns [option] (or [popt], which tells a panic from a Rust [None]), so
    that a theorem of the form [exists w', f w = Some w'] says it does not.
    Machine integers are [Z] with their width in the invariants, and where
    arithmetic could overflow the check is part of the definition.  Hash maps
    are [gmap]; the order in which one is traversed is a parameter
    ([IterOrder]).  A task is the future it was spawned with ([job]) and
    completes when the environment says so, with what [connect] makes of the
    network as this task finds it ([Network]); an accept task delivers what
    [accept] returned to it ([arrival]) between the steps of the loop.  Bytes
    are accounted for with histories: what a socket of the stack has delivered
    and accepted, what a host stream was sent and will still bring.  Code outside
    this repository is a class of operations and a class of laws; every law
    class has an instance (a simulated socket, stream, kernel or engine), used by
    the witnesses.

    ** What the theorems show

    - Routes: the grammar of a route, longest-prefix matching for addresses and
      first match for names, and the route chosen for every target.
    - DNS: the pool refines an abstract ring of allocations; queries are parsed
      exactly and responses decode; an answered address later names its domain.
    - Tunnels: which server answers the handshakes accept, exactly (SOCKS5: those
      of RFC 1928 and 1929, but for the version of the authentication reply
      and the reserved byte, which the code does not look at), messages
      decode, credentials go only to a server that asked,
      a proxied route contacts no host but its proxy, and no byte after the
      handshake is lost.
    - Relaying: no operation of either TCP component or of the loop panics,
      their tables stay consistent with the socket set, source ports and
      sockets are released, and each round of the relay conserves both byte
      streams; what each operation makes of a connection is known branch by
      branch.  The invariant of a connection is its whole life ([lifetime]): no
      byte before the tunnel is up, then the tunnel of the target's route with
      both directions complete.  When the other side has closed and no read or
      write on its stream fails ([reliable]), everything it sent is handed over
      and the connection closes ([Progress.v]).
    - One connection in the loop ([Lifecycle.v]): once its handshake is over, its
      task is started for what its address stands for; once the task succeeds
      with a reliable tunnel that ends, everything the tunnel brings reaches
      the application and the connection is removed; a connection that cannot be made is reset and removed by the
      next tick; a handshake that takes 32 seconds does not survive the tick.
    - The loop as a whole ([Relaying.v], [EndToEnd.v]): after any run every
      relayed connection was promoted in some turn to the name or address that
      its destination stood for then, and has been served by that turn's task
      and its tunnel ever since; a query is answered with an address, and a
      later connection to this address goes to the name; buffers, queue, ports and timers keep their bounds, and the shutdown flag
      ends the loop in the turn that sees it, with no task left.
    - Startup: an accepted command line is a well-typed configuration, setup
      leaves no descriptor behind and no temporary file whose removal the kernel
      does not refuse, a TUN device is handed out exactly when every call that
      configures it has succeeded, and the command finds nsproxy's DNS
      configuration.
      The programs of the two processes refine the handshake, however they are
      interleaved and whatever fails; they cannot wait for each other forever;
      the command starts only when the parent holds the TUN device and the
      listeners, and it inherits none of nsproxy's descriptors.
    - Processes: the command runs under the mask nsproxy was given while the
      reaper misses no signal, a signal is sent to every descendant unless a
      call fails, a tree that
      outlives its termination signal is killed within the grace period, and
      nsproxy exits with the command's status once the tree is gone and the
      event loop is down.

    ** Fuel

    [tun_drain] and [dns_loop] take one more than the packets or datagrams waiting
    (the laws make each read remove one), [allocate_loop] the size of the port
    pool as the source does, [read_labels] one more than the length of the datagram,
    [collect] the number of process ids; the theorems prove that these are
    enough.  [drain_headers] takes one more than the number of unread bytes and
    [write_loop] the length of the data (each write takes at least one byte, or
    fails).  Startup has no fuel: its steps are a relation, and a run of it has
    at most 25 that are not interrupted reads.

    [run] and [wait_loop] follow the turns and rounds they are given: a longer
    list is a longer run, and a run that the list does not finish says so.  A
    connection is served within as many turns in which everything is
    acknowledged and there is something to hand on as its tunnel brings bytes,
    and one more ([ready_turns] counts them).

    ** Not modelled

    Log messages and the installation of the logger, clap's command-line
    parsing (the arguments it returns are [Cli]), the interrupted writes that
    [write_all] repeats (they leave no trace in a history), and the passing of
    time outside [Reaper.v]: each operation reads the clock once through an
    argument, and a timer is a branch that the environment completes.  Threads
    of the runtime appear only as tasks that run between the steps of the event
    loop.  The wakers that readiness checks register are not state.  The unit
    tests that need sockets, clap or a guard page are adapted or left out, and
    the integration tests (src/tests/) run the binary.  The number of the
    TUNSETIFF request, which depends on the architecture, is symbolic. *)

From stdpp Require Export base tactics list gmap sets strings numbers relations.
From Stdlib Require Export ZArith Lia.
From Stdlib Require Strings.Byte.
Export Byte.ByteSyntaxNotations.
#[global] Delimit Scope byte_scope with byte.

(** ** Bytes *)

Abbreviation byte := Byte.byte.
Abbreviation bytes := (list byte).

Declare Scope rust_scope.
Delimit Scope rust_scope with rust.
#[global] Open Scope rust_scope.
#[global] Open Scope Z_scope.

#[global] Instance byte_eq_dec : EqDecision byte := Byte.byte_eq_dec.

#[global] Program Instance byte_countable : Countable byte :=
  inj_countable Byte.to_N Byte.of_N _.
Next Obligation. intros b. apply Byte.of_to_N. Qed.

(** A string literal as the bytes of a Rust [str]. *)
Definition str (s : string) : bytes := String.list_byte_of_string s.

(** [u8] as a number, and the truncating cast [n as u8]. *)
Definition u8 (b : byte) : Z := Z.of_N (Byte.to_N b).

Definition as_u8 (z : Z) : byte :=
  match Byte.of_N (Z.to_N (z mod 256)) with Some b => b | None => Byte.x00 end.

(** The length of a slice as a number ([usize] values of the code). *)
Definition blen {A} (l : list A) : Z := Z.of_nat (length l).

Definition u16_max : Z := 65535.
Definition u32_max : Z := 4294967295.

Definition is_u16 (z : Z) : Prop := 0 <= z < 65536.
Definition is_u32 (z : Z) : Prop := 0 <= z < 4294967296.

(** [u16::from_be_bytes], [u16::to_be_bytes] and the 32-bit versions. *)
Definition from_be16 (b0 b1 : byte) : Z := Z.lor (Z.shiftl (u8 b0) 8) (u8 b1).

Definition be16 (z : Z) : bytes := [as_u8 (Z.shiftr z 8); as_u8 z].

Definition from_be32 (b0 b1 b2 b3 : byte) : Z :=
  Z.lor (Z.shiftl (from_be16 b0 b1) 16) (from_be16 b2 b3).

Definition be32 (z : Z) : bytes := be16 (Z.shiftr z 16) ++ be16 z.

(** ** Results

    [Result<A, E>] of the code; the monad instances give the [?] operator the
    reading [x ← r; k]. *)

Inductive result (E A : Type) : Type :=
| Ok (a : A)
| Err (e : E).
Arguments Ok {E A} a.
Arguments Err {E A} e.

#[global] Instance result_ret E : MRet (result E) := fun A => Ok.
#[global] Instance result_bind E : MBind (result E) := fun A B f r =>
  match r with Ok a => f a | Err e => Err e end.

(** [.context(c)] / [.with_context(..)] on a [Result]: the error is wrapped. *)
Definition map_err {E F A} (f : E -> F) (r : result E A) : result F A :=
  match r with Ok a => Ok a | Err e => Err (f e) end.

(** [option.context(e)]. *)
Definition ok_or {E A} (o : option A) (e : E) : result E A :=
  match o with Some a => Ok a | None => Err e end.

Definition is_ok {E A} (r : result E A) : bool :=
  match r with Ok _ => true | Err _ => false end.

Definition is_err {E A} (r : result E A) : bool := negb (is_ok r).

(** ** Indexing that can panic

    Code that returns an [Option] and indexes slices has three outcomes: a
    value, [None], or a panic (an index or a range out of bounds). *)

Inductive popt (A : Type) : Type :=
| PSome (a : A)
| PNone
| PPanic.
Arguments PSome {A} a.
Arguments PNone {A}.
Arguments PPanic {A}.

#[global] Instance popt_ret : MRet popt := fun A => PSome.
#[global] Instance popt_bind : MBind popt := fun A B f r =>
  match r with PSome a => f a | PNone => PNone | PPanic => PPanic end.

(** [data[i]] *)
Definition idx (data : bytes) (i : nat) : popt byte :=
  match data !! i with Some b => PSome b | None => PPanic end.

(** [&data[i..j]] *)
Definition slice (data : bytes) (i j : nat) : popt bytes :=
  if decide (i <= j /\ j <= length data)%nat
  then PSome (take (j - i) (drop i data)) else PPanic.

(** ** Loops that thread state through a list *)

Fixpoint foldM {E A S} (f : S -> A -> result E S) (s : S) (l : list A) : result E S :=
  match l with
  | [] => Ok s
  | x :: l => s' ← f s x; foldM f s' l
  end.

Fixpoint mapM_result {E A B} (f : A -> result E B) (l : list A) : result E (list B) :=
  match l with
  | [] => Ok []
  | x :: l => y ← f x; ys ← mapM_result f l; Ok (y :: ys)
  end.

(** A loop whose body may panic ([None]). *)
Fixpoint foldO {A S} (f : S -> A -> option S) (s : S) (l : list A) : option S :=
  match l with
  | [] => Some s
  | x :: l => s' ← f s x; foldO f s' l
  end.

(** ** Automation *)

Create HintDb rust discriminated.
Create Rewrite HintDb rust_len.

(** Case analysis on the conditions of a definition, keeping the equations. *)
Ltac case_if :=
  match goal with
  | |- context [if ?b then _ else _] => destruct b eqn:?
  | H : context [if ?b then _ else _] |- _ => destruct b eqn:?
  end.

(** A closed decidable proposition, by computation. *)
Ltac by_decide := apply (bool_decide_unpack _); vm_compute; exact I.

(** Turn boolean comparisons into propositions. *)
Ltac bool_prop :=
  repeat match goal with
  | H : (_ && _) = true |- _ => apply andb_true_iff in H as [? ?]
  | H : (_ || _) = false |- _ => apply orb_false_iff in H as [? ?]
  | H : negb _ = true |- _ => apply negb_true_iff in H
  | H : negb _ = false |- _ => apply negb_false_iff in H
  | H : (_ <? _) = true |- _ => apply Z.ltb_lt in H
  | H : (_ <? _) = false |- _ => apply Z.ltb_ge in H
  | H : (_ <=? _) = true |- _ => apply Z.leb_le in H
  | H : (_ <=? _) = false |- _ => apply Z.leb_gt in H
  | H : (_ =? _) = true |- _ => apply Z.eqb_eq in H
  | H : (_ =? _) = false |- _ => apply Z.eqb_neq in H
  | H : bool_decide _ = true |- _ => apply bool_decide_eq_true in H
  | H : bool_decide _ = false |- _ => apply bool_decide_eq_false in H
  end.

(** Read a successful monadic computation step by step; the intermediate
    results keep their equations. *)
Ltac bind_inv_step :=
  match goal with
  | H : mbind _ ?r = Ok _ |- _ =>
      let E := fresh "E" in destruct r eqn:E; cbn [mbind result_bind] in H; [|discriminate H]
  | H : mbind _ ?r = PSome _ |- _ =>
      let E := fresh "E" in destruct r eqn:E; cbn [mbind popt_bind] in H; [|discriminate H..]
  | H : mbind _ ?r = Some _ |- _ =>
      let E := fresh "E" in destruct r eqn:E; cbn [mbind option_bind] in H; [|discriminate H]
  | H : (match ?p with pair _ _ => _ end) = _ |- _ => destruct p
  end.

Ltac bind_inv := repeat (bind_inv_step; simplify_eq).

(** ** Lemmas on bytes *)

Lemma u8_range b : 0 <= u8 b < 256.
Proof. unfold u8. pose proof (Byte.to_N_bounded b). lia. Qed.
#[export] Hint Resolve u8_range : rust.

Lemma u8_as_u8 z : u8 (as_u8 z) = z mod 256.
Proof.
  unfold u8, as_u8. pose proof (Z.mod_pos_bound z 256 ltac:(lia)).
  destruct (Byte.of_N _) eqn:E.
  - apply Byte.to_of_N in E. rewrite E. lia.
  - apply Byte.of_N_None_iff in E. lia.
Qed.

Lemma u8_inj b1 b2 : u8 b1 = u8 b2 -> b1 = b2.
Proof.
  unfold u8. intros H%N2Z.inj.
  pose proof (Byte.of_to_N b1). pose proof (Byte.of_to_N b2). congruence.
Qed.
#[global] Instance u8_Inj : Inj (=) (=) u8 := u8_inj.

Lemma as_u8_u8 b : as_u8 (u8 b) = b.
Proof. apply u8_inj. rewrite u8_as_u8. apply Z.mod_small, u8_range. Qed.

Lemma as_u8_small z : 0 <= z < 256 -> u8 (as_u8 z) = z.
Proof. intros. rewrite u8_as_u8. by apply Z.mod_small. Qed.

(** [lor] of disjoint bit fields is addition. *)
Lemma lor_shiftl_add a b n : 0 <= n -> 0 <= b < 2 ^ n ->
  Z.lor (Z.shiftl a n) b = a * 2 ^ n + b.
Proof.
  intros Hn Hb. rewrite <- Z.shiftl_mul_pow2 by done.
  symmetry.
  rewrite Z.add_nocarry_lxor; [apply Z.lxor_lor|]; apply Z.bits_inj'; intros i Hi;
    rewrite Z.land_spec, Z.bits_0, Z.shiftl_spec by done;
    (destruct (decide (i < n)) as [Hlt|Hge];
     [rewrite Z.testbit_neg_r by lia; done|]);
    rewrite <- (Z.mod_small b (2 ^ n)) by done;
    rewrite Z.mod_pow2_bits_high by lia; apply andb_false_r.
Qed.

(** Exclusive or stays within the width. *)
Lemma lxor_bounds n a b : 0 < n -> 0 <= a < 2 ^ n -> 0 <= b < 2 ^ n -> 0 <= Z.lxor a b < 2 ^ n.
Proof.
  intros Hn Ha Hb. assert (0 <= Z.lxor a b) as Hnn by (apply Z.lxor_nonneg; lia). split; [done|].
  destruct (decide (Z.lxor a b = 0)) as [->|Hne]; [lia|].
  assert (forall x, 0 <= x < 2 ^ n -> Z.log2 x < n) as Hlog.
  { intros x Hx. destruct (decide (x = 0)) as [->|]; [done|]. apply Z.log2_lt_pow2; lia. }
  apply Z.log2_lt_pow2; [lia|]. pose proof (Z.log2_lxor a b). pose proof (Hlog a Ha). pose proof (Hlog b Hb). lia.
Qed.

Lemma from_be16_eq b0 b1 : from_be16 b0 b1 = u8 b0 * 256 + u8 b1.
Proof.
  unfold from_be16. rewrite lor_shiftl_add; [done|lia|].
  pose proof (u8_range b1). change (2 ^ 8) with 256. lia.
Qed.

Lemma from_be16_range b0 b1 : is_u16 (from_be16 b0 b1).
Proof.
  rewrite from_be16_eq. pose proof (u8_range b0). pose proof (u8_range b1).
  unfold is_u16. lia.
Qed.
#[export] Hint Resolve from_be16_range : rust.

Lemma from_be32_eq b0 b1 b2 b3 :
  from_be32 b0 b1 b2 b3 = u8 b0 * 16777216 + u8 b1 * 65536 + u8 b2 * 256 + u8 b3.
Proof.
  unfold from_be32. rewrite lor_shiftl_add; [|lia|apply (from_be16_range b2 b3)].
  rewrite !from_be16_eq. lia.
Qed.

Lemma from_be32_range b0 b1 b2 b3 : is_u32 (from_be32 b0 b1 b2 b3).
Proof.
  rewrite from_be32_eq. pose proof (u8_range b0). pose proof (u8_range b1).
  pose proof (u8_range b2). pose proof (u8_range b3). unfold is_u32. lia.
Qed.
#[export] Hint Resolve from_be32_range : rust.

Lemma from_be16_be16 z : is_u16 z ->
  from_be16 (as_u8 (Z.shiftr z 8)) (as_u8 z) = z.
Proof.
  intros Hz. unfold is_u16 in Hz. rewrite from_be16_eq, !u8_as_u8, Z.shiftr_div_pow2 by lia.
  change (2 ^ 8) with 256. rewrite (Z.mod_small (z / 256)).
  - pose proof (Z.div_mod z 256). lia.
  - split; [apply Z.div_pos; lia|apply Z.div_lt_upper_bound; lia].
Qed.

Lemma be16_from_be16 b0 b1 : be16 (from_be16 b0 b1) = [b0; b1].
Proof.
  unfold be16. rewrite Z.shiftr_div_pow2 by lia. change (2 ^ 8) with 256.
  pose proof (u8_range b0). pose proof (u8_range b1).
  f_equal; [|f_equal]; apply u8_inj; rewrite u8_as_u8, from_be16_eq.
  - rewrite Z.div_add_l, (Z.div_small (u8 b1)), Z.add_0_r by lia. by apply Z.mod_small.
  - rewrite Z.add_comm, Z.mod_add by lia. by apply Z.mod_small.
Qed.

Lemma length_be16 z : length (be16 z) = 2%nat.
Proof. done. Qed.

Lemma length_be32 z : length (be32 z) = 4%nat.
Proof. done. Qed.
#[export] Hint Rewrite length_be16 length_be32 : rust_len.

Lemma be32_octets z : is_u32 z -> exists b0 b1 b2 b3,
  be32 z = [b0; b1; b2; b3] /\ from_be32 b0 b1 b2 b3 = z.
Proof.
  intros Hz. unfold is_u32 in Hz. unfold be32, be16. simpl. do 4 eexists. split; [done|].
  rewrite Z.shiftr_shiftr by lia.
  rewrite from_be32_eq, !u8_as_u8, !Z.shiftr_div_pow2 by lia. simpl.
  change (2 ^ (16 + 8)) with 16777216. change (2 ^ 16) with 65536. change (2 ^ 8) with 256.
  rewrite (Z.mod_small (z / 16777216)).
  2: split; [apply Z.div_pos; lia|apply Z.div_lt_upper_bound; lia].
  Z.to_euclidean_division_equations. lia.
Qed.

Lemma from_be32_inj a b c d a' b' c' d' : from_be32 a b c d = from_be32 a' b' c' d' ->
  a = a' /\ b = b' /\ c = c' /\ d = d'.
Proof.
  rewrite !from_be32_eq. intros E.
  pose proof (u8_range a). pose proof (u8_range b). pose proof (u8_range c). pose proof (u8_range d).
  pose proof (u8_range a'). pose proof (u8_range b'). pose proof (u8_range c'). pose proof (u8_range d').
  split_and!; apply u8_inj; lia.
Qed.

Lemma be32_from_be32 a b c d : be32 (from_be32 a b c d) = [a; b; c; d].
Proof.
  destruct (be32_octets _ (from_be32_range a b c d)) as (x & y & z & w & -> & E).
  by apply from_be32_inj in E as (-> & -> & -> & ->).
Qed.

Lemma be16_bytes z : is_u16 z -> exists a b, be16 z = [a; b] /\ from_be16 a b = z.
Proof. intros Hz. do 2 eexists. split; [done|]. by apply from_be16_be16. Qed.

Lemma be32_inj x y : is_u32 x -> is_u32 y -> be32 x = be32 y -> x = y.
Proof.
  intros Hx Hy. destruct (be32_octets x Hx) as (?&?&?&?&->&<-).
  destruct (be32_octets y Hy) as (?&?&?&?&->&<-). congruence.
Qed.

(** ** Lemmas on slices *)

Lemma idx_Some data i b : data !! i = Some b -> idx data i = PSome b.
Proof. unfold idx. by intros ->. Qed.

Lemma idx_lt data i : (i < length data)%nat -> exists b, idx data i = PSome b /\ data !! i = Some b.
Proof.
  intros [b Hb]%lookup_lt_is_Some. exists b. split; [by apply idx_Some|done].
Qed.

Lemma slice_ok data i j : (i <= j <= length data)%nat ->
  slice data i j = PSome (take (j - i) (drop i data)).
Proof. intros. unfold slice. rewrite decide_True by done. done. Qed.

Lemma blen_nonneg {A} (l : list A) : 0 <= blen l.
Proof. unfold blen. lia. Qed.
#[export] Hint Resolve blen_nonneg : rust.

Lemma blen_app {A} (l k : list A) : blen (l ++ k) = blen l + blen k.
Proof. unfold blen. rewrite length_app. lia. Qed.

Lemma blen_cons {A} (x : A) l : blen (x :: l) = 1 + blen l.
Proof. unfold blen. simpl. lia. Qed.

Lemma blen_nil {A} : blen (@nil A) = 0.
Proof. done. Qed.
#[export] Hint Rewrite @blen_app @blen_cons @blen_nil : rust_len.

(** ** Lemmas on monadic loops *)

Lemma foldM_app {E A S} (f : S -> A -> result E S) s l k :
  foldM f s (l ++ k) = (s' ← foldM f s l; foldM f s' k).
Proof.
  revert s. induction l as [|x l IH]; intros s; simpl; [done|].
  destruct (f s x); simpl; [apply IH|done].
Qed.

Lemma foldM_ext {E A S} (f g : S -> A -> result E S) s l :
  (forall s x, f s x = g s x) -> foldM f s l = foldM g s l.
Proof.
  intros Hfg. revert s. induction l as [|x l IH]; intros s; simpl; [done|].
  rewrite Hfg. destruct (g s x); cbn; auto.
Qed.

(** An invariant of the loop body is an invariant of the loop. *)
(** A loop fails in one of its steps, and succeeds when all of them do. *)
Lemma foldM_err {E A S} (f : S -> A -> result E S) s l e :
  foldM f s l = Err e -> exists x s', x ∈ l /\ f s' x = Err e.
Proof.
  revert s. induction l as [|x l IH]; intros s; simpl; [done|].
  destruct (f s x) as [s'|e'] eqn:Ef; cbn [mbind result_bind].
  - intros (y & s'' & Hy & G)%IH. exists y, s''. split; [by right|done].
  - intros [= <-]. exists x, s. split; [by left|done].
Qed.

Lemma foldM_all {E A S} (f : S -> A -> result E S) s l s' :
  foldM f s l = Ok s' -> forall x, x ∈ l -> exists s1 s2, f s1 x = Ok s2.
Proof.
  revert s. induction l as [|y l IH]; intros s; simpl; [set_solver|].
  destruct (f s y) as [s1|e'] eqn:Ef; cbn [mbind result_bind]; [|done].
  intros G x [->|Hx]%elem_of_cons; eauto.
Qed.

Lemma foldM_inv {E A S} (P : S -> Prop) (f : S -> A -> result E S) s l s' :
  (forall s x s', P s -> f s x = Ok s' -> P s') ->
  P s -> foldM f s l = Ok s' -> P s'.
Proof.
  intros Hf. revert s. induction l as [|x l IH]; intros s Hs; simpl.
  - by intros [= <-].
  - destruct (f s x) eqn:E'; simpl; [|done]. eauto.
Qed.

(** A loop runs to its end when its body keeps an assertion that may mention
    the elements still to come. *)
Lemma foldO_inv {A S} (f : S -> A -> option S) (P : list A -> S -> Prop) l s :
  (forall x l s, P (x :: l) s -> exists s', f s x = Some s' /\ P l s') ->
  P l s -> exists s', foldO f s l = Some s' /\ P [] s'.
Proof.
  intros Hf. revert s. induction l as [|x l IH]; intros s HP; simpl; [by eauto|].
  destruct (Hf x l s HP) as (s' & -> & HP'). simpl. by apply IH.
Qed.

(** A loop over distinct keys whose body, run for a key, leaves what the others
    see alone: each key is served once. *)
Lemma foldO_local {A S V} (view : S -> V) (f : S -> A -> option S) k l s s' :
  (forall s x s', x <> k -> f s x = Some s' -> view s' = view s) -> NoDup l -> foldO f s l = Some s' ->
  (k ∉ l -> view s' = view s) /\
  (k ∈ l -> exists s1 s2, view s1 = view s /\ f s1 k = Some s2 /\ view s' = view s2).
Proof.
  intros Hf Hn. revert s. induction Hn as [|x l Hx Hn IH]; intros s E; simpl in E.
  { injection E as <-. split; [done|]. by intros ?%elem_of_nil. }
  destruct (f s x) as [s1|] eqn:Ex; [|done]. cbn [mbind option_bind] in E. destruct (IH s1 E) as [I1 I2]. split.
  - intros [Hne Hk]%not_elem_of_cons. rewrite I1 by done. by eapply Hf.
  - intros [->|Hk]%elem_of_cons; [by exists s, s1; rewrite I1|].
    destruct (I2 Hk) as (s2 & s3 & Hv & E3 & Hv'). exists s2, s3. split_and!; [|done..].
    rewrite Hv. eapply Hf; [|done]. by intros ->.
Qed.

(** A fact that the step for [k] turns into another one, and that the others keep. *)
Lemma foldO_turns {A S} (P Q : S -> Prop) (f : S -> A -> option S) k l s s' :
  (forall s x s', x <> k -> f s x = Some s' -> (P s -> P s') /\ (Q s -> Q s')) ->
  (forall s s', P s -> f s k = Some s' -> Q s') -> NoDup l -> k ∈ l -> P s -> foldO f s l = Some s' -> Q s'.
Proof.
  intros Hf Hk Hn. revert s. induction Hn as [|x l Hx Hn IH]; intros s Hin Hs E; [by apply elem_of_nil in Hin|].
  simpl in E. destruct (f s x) as [s1|] eqn:Ex; [|done]. cbn [mbind option_bind] in E.
  apply elem_of_cons in Hin as [<-|Hin].
  - assert (Q s1) as Hq by eauto. clear IH Hs Ex Hn. revert s1 E Hq. induction l as [|y l IH]; intros s1 E Hq; simpl in E.
    { by injection E as <-. }
    apply not_elem_of_cons in Hx as [Hne Hx]. destruct (f s1 y) as [s2|] eqn:Ey; [|done].
    eapply (IH Hx s2); [exact E|]. by eapply Hf.
  - eapply IH; [done| |exact E]. eapply Hf; [|done|done]. by intros ->.
Qed.

Lemma mapM_result_Ok {E A B} (f : A -> result E B) l ys :
  mapM_result f l = Ok ys <-> Forall2 (fun x y => f x = Ok y) l ys.
Proof.
  revert ys. induction l as [|x l IH]; intros ys; simpl.
  - split; [intros [= <-]; constructor|by intros ->%Forall2_nil_inv_l].
  - split.
    + intros H. destruct (f x) eqn:Hx; simpl in H; [|done].
      destruct (mapM_result f l) eqn:Hl; simpl in H; [|done].
      injection H as <-. constructor; [done|]. by apply IH.
    + inversion 1 as [|? ? ? ? Hx Hl]; subst. rewrite Hx. simpl.
      apply IH in Hl. by rewrite Hl.
Qed.

(** ** Loops that reject duplicates

    A loop that parses each element, rejects one whose key was seen before,
    and pushes the result. *)
Section Dedup.
Context {E X A B K : Type} `{Countable K}.
Variables (parse : X -> result E A) (key : A -> K) (dup : A -> E) (out : A -> B).

Definition dedup_step (st : gset K * list B) (x : X) : result E (gset K * list B) :=
  a ← parse x;
  if bool_decide (key a ∈ st.1) then Err (dup a)
  else Ok ({[key a]} ∪ st.1, st.2 ++ [out a]).

Lemma dedup_fold xs seen acc seen' acc' :
  foldM dedup_step (seen, acc) xs = Ok (seen', acc') <->
  exists l, acc' = acc ++ map out l /\ seen' = list_to_set (map key l) ∪ seen /\
    Forall2 (fun x a => parse x = Ok a) xs l /\
    NoDup (map key l) /\ Forall (fun a => key a ∉ seen) l.
Proof.
  revert seen acc. induction xs as [|x xs IH]; intros seen acc; cbn [foldM].
  - split.
    + intros [= <- <-]. exists []. simpl. rewrite app_nil_r.
      split_and!; [done|set_solver|constructor|apply NoDup_nil_2|constructor].
    + intros (l & -> & -> & Hf & _). apply Forall2_nil_inv_l in Hf as ->.
      simpl. rewrite app_nil_r. do 2 f_equal. set_solver.
  - change (dedup_step (seen, acc) x) with
      (a ← parse x;
       if bool_decide (key a ∈ seen) then Err (dup a)
       else Ok ({[key a]} ∪ seen, acc ++ [out a])).
    destruct (parse x) as [a|] eqn:Ea; cbn [mbind result_bind].
    2: { split; [done|]. intros (l & _ & _ & Hf & _). inversion Hf; congruence. }
    case_bool_decide as Hin; cbn [mbind result_bind].
    + split; [done|]. intros (l & _ & _ & Hf & _ & Hd).
      inversion Hf as [|? a' ? l' Ha']; subst. inversion Hd; subst. congruence.
    + rewrite IH. split.
      * intros (l & -> & -> & Hf & Hn & Hd). exists (a :: l). simpl. rewrite <- app_assoc.
        rewrite Forall_forall in Hd. split_and!; [done|set_solver|by constructor| |].
        -- constructor; [|done]. intros (a' & Hk & Ha')%list_elem_of_fmap. set_solver.
        -- rewrite Forall_forall. set_solver.
      * intros (l & -> & -> & Hf & Hn & Hd). inversion Hf as [|? a' ? l' Ha' Hf']; subst.
        assert (a' = a) as -> by congruence. simpl in Hn. apply NoDup_cons in Hn as [Hn1 Hn2].
        apply Forall_cons in Hd as [Hd1 Hd2]. exists l'. simpl. rewrite <- app_assoc.
        split_and!; [done|set_solver|done|done|]. rewrite Forall_forall in Hd2 |- *.
        intros b Hb. rewrite elem_of_union, elem_of_singleton. intros [Hk|Hk]; [|set_solver].
        apply Hn1. rewrite <- Hk. by apply list_elem_of_fmap_2.
Qed.
End Dedup.
