(* ===== verification/RustStr.v ===== *)
(** * The parts of Rust's [str] and integer parsing the program uses

    A [str] is its UTF-8 bytes.  The patterns the program splits on are ASCII
    characters, for which splitting the bytes and splitting the characters is
    the same.  [parse_uint] is [str::parse::<uN>] in base 10, [dec] the
    [Display] of an unsigned integer. *)

From S2P Require Import Prelude.

(** ** Splitting *)

(** [s.split_once(c)] *)
Fixpoint split_once (c : byte) (s : bytes) : option (bytes * bytes) :=
  match s with
  | [] => None
  | x :: s =>
      if decide (x = c) then Some ([], s)
      else '(l, r) ← split_once c s; Some (x :: l, r)
  end.

(** [s.rsplit_once(c)] *)
Fixpoint rsplit_once (c : byte) (s : bytes) : option (bytes * bytes) :=
  match s with
  | [] => None
  | x :: s =>
      match rsplit_once c s with
      | Some (l, r) => Some (x :: l, r)
      | None => if decide (x = c) then Some ([], s) else None
      end
  end.

(** [s.rfind(c)]: the byte offset of the last occurrence. *)
Definition rfind (c : byte) (s : bytes) : option nat :=
  '(l, _) ← rsplit_once c s; Some (length l).

(** [s.split(c).collect()]: never empty. *)
Fixpoint split (c : byte) (s : bytes) : list bytes :=
  match s with
  | [] => [[]]
  | x :: s =>
      if decide (x = c) then [] :: split c s
      else match split c s with
           | [] => [[x]]
           | p :: ps => (x :: p) :: ps
           end
  end.

(** [s.splitn(n, c).collect()]: at most [n] pieces, the last one unsplit. *)
Fixpoint splitn (n : nat) (c : byte) (s : bytes) : list bytes :=
  match n with
  | O => []
  | S O => [s]
  | S n => match split_once c s with
           | Some (l, r) => l :: splitn n c r
           | None => [s]
           end
  end.

(** [pieces.join(sep)] *)
Fixpoint join (sep : bytes) (ps : list bytes) : bytes :=
  match ps with
  | [] => []
  | [p] => p
  | p :: ps => p ++ sep ++ join sep ps
  end.

(** [s.strip_prefix(p)] *)
Fixpoint strip_prefix (p s : bytes) : option bytes :=
  match p, s with
  | [], s => Some s
  | x :: p, y :: s => if decide (x = y) then strip_prefix p s else None
  | _ :: _, [] => None
  end.

(** [s.starts_with(p)] *)
Definition starts_with (p s : bytes) : bool := bool_decide (is_Some (strip_prefix p s)).

(** [s.contains([c1, ..])] *)
Definition contains_any (cs : list byte) (s : bytes) : bool :=
  existsb (fun b => bool_decide (b ∈ cs)) s.

(** [s.trim_end_matches([c1, ..])] *)
Fixpoint trim_end_matches (cs : list byte) (s : bytes) : bytes :=
  match s with
  | [] => []
  | x :: s =>
      match trim_end_matches cs s with
      | [] => if decide (x ∈ cs) then [] else [x]
      | r => x :: r
      end
  end.

(** ** UTF-8 *)

Definition cont (b : byte) : bool := (128 <=? u8 b) && (u8 b <? 192).
Definition in_range (lo hi : Z) (b : byte) : bool := (lo <=? u8 b) && (u8 b <=? hi).
Definition low6 (b : byte) : Z := Z.land (u8 b) 63.

Definition two_bytes (b0 b1 : byte) : bool := in_range 194 223 b0 && cont b1.

Definition three_bytes (b0 b1 b2 : byte) : bool :=
  ((u8 b0 =? 224) && in_range 160 191 b1
   || in_range 225 236 b0 && cont b1
   || (u8 b0 =? 237) && in_range 128 159 b1
   || in_range 238 239 b0 && cont b1) && cont b2.

Definition four_bytes (b0 b1 b2 b3 : byte) : bool :=
  ((u8 b0 =? 240) && in_range 144 191 b1
   || in_range 241 243 b0 && cont b1
   || (u8 b0 =? 244) && in_range 128 143 b1) && cont b2 && cont b3.

(** [std::str::from_utf8(s)] and the [chars()] of the result: the code points,
    or [None] when the bytes are not well-formed UTF-8. *)
Fixpoint utf8_chars (s : bytes) : option (list Z) :=
  match s with
  | [] => Some []
  | b0 :: s =>
      if u8 b0 <? 128 then cons (u8 b0) <$> utf8_chars s else
      match s with
      | [] => None
      | b1 :: s =>
          if two_bytes b0 b1 then
            cons (Z.land (u8 b0) 31 * 64 + low6 b1) <$> utf8_chars s else
          match s with
          | [] => None
          | b2 :: s =>
              if three_bytes b0 b1 b2 then
                cons (Z.land (u8 b0) 15 * 4096 + low6 b1 * 64 + low6 b2) <$> utf8_chars s else
              match s with
              | [] => None
              | b3 :: s =>
                  if four_bytes b0 b1 b2 b3 then
                    cons (Z.land (u8 b0) 7 * 262144 + low6 b1 * 4096 + low6 b2 * 64 + low6 b3)
                      <$> utf8_chars s
                  else None
              end
          end
      end
  end.

Definition utf8_valid (s : bytes) : bool := bool_decide (is_Some (utf8_chars s)).

(** [char::is_whitespace]: the White_Space property of Unicode. *)
Definition char_is_whitespace (c : Z) : bool :=
  ((9 <=? c) && (c <=? 13)) || (c =? 32) || (c =? 133) || (c =? 160) || (c =? 5760)
  || ((8192 <=? c) && (c <=? 8202)) || (c =? 8232) || (c =? 8233) || (c =? 8239)
  || (c =? 8287) || (c =? 12288).

(** [s.chars().any(char::is_whitespace)] *)
Definition any_whitespace (s : bytes) : bool :=
  match utf8_chars s with
  | Some cs => existsb char_is_whitespace cs
  | None => false
  end.

(** ** Decimal numbers *)

(** [c.to_digit(radix)] for [radix <= 16]. *)
Definition to_digit (radix : Z) (b : byte) : option Z :=
  let c := u8 b in
  let d := if (48 <=? c) && (c <=? 57) then c - 48
           else if (97 <=? c) && (c <=? 102) then c - 87
           else if (65 <=? c) && (c <=? 70) then c - 55
           else 16 in
  if d <? radix then Some d else None.

(** The digits of [from_str_radix], with checked arithmetic up to [max]. *)
Fixpoint digits_val (max acc : Z) (s : bytes) : option Z :=
  match s with
  | [] => Some acc
  | b :: s =>
      d ← to_digit 10 b;
      if acc * 10 + d <=? max then digits_val max (acc * 10 + d) s else None
  end.

(** [s.parse::<uN>()] with [max = uN::MAX]: an optional [+], then at least one
    digit; overflow is an error. *)
Definition parse_uint (max : Z) (s : bytes) : option Z :=
  match s with
  | [] => None
  | b :: r =>
      if decide (b = "+"%byte) then
        match r with [] => None | _ => digits_val max 0 r end
      else digits_val max 0 s
  end.

Definition parse_u8 : bytes -> option Z := parse_uint 255.
Definition parse_u16 : bytes -> option Z := parse_uint 65535.

(** [s.parse::<i32>()] *)
Definition parse_i32 (s : bytes) : option Z :=
  match s with
  | b :: r =>
      if decide (b = "-"%byte) then
        match r with [] => None | _ => Z.opp <$> digits_val 2147483648 0 r end
      else parse_uint 2147483647 s
  | [] => None
  end.

(** [s.split_whitespace()] on the code points of [s]: the maximal runs that
    hold no white space. *)
Fixpoint split_whitespace (cs : list Z) : list (list Z) :=
  match cs with
  | [] => []
  | c :: cs =>
      if char_is_whitespace c then split_whitespace cs
      else match cs with
           | [] => [[c]]
           | c' :: _ =>
               if char_is_whitespace c' then [c] :: split_whitespace cs
               else match split_whitespace cs with w :: ws => (c :: w) :: ws | [] => [[c]] end
           end
  end.

(** [w.parse::<i32>()] for a word given by its code points. *)
Definition parse_i32_chars (w : list Z) : option Z :=
  if forallb (fun c => c <? 128) w then parse_i32 (map as_u8 w) else None.

Definition digit_byte (d : Z) : byte := as_u8 (48 + d).

Fixpoint dec_aux (fuel : nat) (n : Z) (acc : bytes) : bytes :=
  match fuel with
  | O => acc
  | S fuel =>
      let acc := digit_byte (n mod 10) :: acc in
      if n / 10 =? 0 then acc else dec_aux fuel (n / 10) acc
  end.

(** [Display] of an unsigned integer; ten digits are enough for a [u32]. *)
Definition dec (n : Z) : bytes := dec_aux 10 n [].

(** ** Splitting: lemmas *)

Lemma split_once_Some c s l r :
  split_once c s = Some (l, r) <-> s = l ++ c :: r /\ c ∉ l.
Proof.
  revert l. induction s as [|x s IH]; intros l; simpl.
  - split; [done|]. intros [H _]. by destruct l.
  - destruct (decide (x = c)) as [->|Hne].
    + split.
      * intros [= <- <-]. split; [done|]. apply not_elem_of_nil.
      * intros [H Hl]. destruct l as [|y l]; simplify_eq/=; [done|]. set_solver.
    + split.
      * intros H. destruct (split_once c s) as [[l' r']|] eqn:E; simplify_eq/=.
        destruct (proj1 (IH l') eq_refl) as [-> Hl]. split; [done|]. set_solver.
      * intros [H Hl]. destruct l as [|y l]; simplify_eq/=.
        rewrite (proj2 (IH l)); [done|]. set_solver.
Qed.

Lemma split_once_None c s : split_once c s = None <-> c ∉ s.
Proof.
  induction s as [|x s IH]; simpl.
  - split; [intros _; apply not_elem_of_nil|done].
  - destruct (decide (x = c)) as [->|Hne]; [set_solver|].
    destruct (split_once c s) as [[]|]; set_solver.
Qed.

Lemma split_once_app c l r : c ∉ l -> split_once c (l ++ c :: r) = Some (l, r).
Proof. intros. by apply split_once_Some. Qed.

Lemma rsplit_once_None c s : rsplit_once c s = None <-> c ∉ s.
Proof.
  induction s as [|x s IH]; simpl.
  - split; [intros _; apply not_elem_of_nil|done].
  - destruct (rsplit_once c s) as [[]|]; [set_solver|].
    destruct (decide (x = c)) as [->|Hne]; set_solver.
Qed.

Lemma rsplit_once_Some c s l r :
  rsplit_once c s = Some (l, r) <-> s = l ++ c :: r /\ c ∉ r.
Proof.
  revert l r. induction s as [|x s IH]; intros l r; simpl.
  - split; [done|]. intros [H _]. by destruct l.
  - destruct (rsplit_once c s) as [[l' r']|] eqn:E.
    + destruct (proj1 (IH l' r') eq_refl) as [-> Hr']. split.
      * intros [= <- <-]. done.
      * intros [H Hr]. destruct l as [|y l]; simplify_eq/=; [set_solver|].
        assert (Some (l', r') = Some (l, r)) as [= <- <-]; [by apply IH|done].
    + destruct (decide (x = c)) as [->|Hne].
      * apply rsplit_once_None in E. split; [by intros [= <- <-]|].
        intros [H Hr]. destruct l as [|y l]; simplify_eq/=; [done|]. set_solver.
      * apply rsplit_once_None in E. split; [done|].
        intros [H Hr]. destruct l as [|y l]; simplify_eq/=. set_solver.
Qed.

Lemma rsplit_once_app c l r : c ∉ r -> rsplit_once c (l ++ c :: r) = Some (l, r).
Proof. intros. by apply rsplit_once_Some. Qed.

Lemma split_not_nil c s : split c s <> [].
Proof.
  destruct s as [|x s]; simpl; [done|].
  destruct (decide _); [done|]. by destruct (split c s).
Qed.

Lemma split_notin c s : c ∉ s -> split c s = [s].
Proof.
  induction s as [|x s IH]; intros H; simpl; [done|].
  rewrite decide_False by set_solver. rewrite IH by set_solver. done.
Qed.

Lemma split_app c l r : c ∉ l -> split c (l ++ c :: r) = l :: split c r.
Proof.
  induction l as [|x l IH]; intros H; simpl.
  - by rewrite decide_True.
  - rewrite decide_False by set_solver. rewrite IH by set_solver. done.
Qed.

(** Splitting what was joined from separator-free pieces gives the pieces. *)
Lemma split_join c ps : ps <> [] -> Forall (fun p => c ∉ p) ps -> split c (join [c] ps) = ps.
Proof.
  induction ps as [|p [|q ps] IH]; intros Hne Hps; [done| |].
  - inversion Hps; subst. simpl. by apply split_notin.
  - inversion Hps as [|? ? Hp Hqs]; subst.
    change (join [c] (p :: q :: ps)) with (p ++ c :: join [c] (q :: ps)).
    rewrite split_app by done. by rewrite IH.
Qed.

(** The pieces of a split are separator-free and join back to the string. *)
Lemma split_spec c s : join [c] (split c s) = s /\ Forall (fun p => c ∉ p) (split c s).
Proof.
  induction s as [|x s [IHj IHf]]; simpl.
  - split; [done|]. constructor; [apply not_elem_of_nil|done].
  - destruct (decide (x = c)) as [->|Hne].
    + split; [|constructor; [apply not_elem_of_nil|done]].
      destruct (split c s) eqn:E; [by apply split_not_nil in E|].
      simpl in IHj |- *. by rewrite IHj.
    + destruct (split c s) as [|p ps] eqn:E; [by apply split_not_nil in E|].
      inversion IHf; subst. split; [|constructor; [set_solver|done]].
      destruct ps; simpl in *; congruence.
Qed.

Lemma strip_prefix_Some p s r : strip_prefix p s = Some r <-> s = p ++ r.
Proof.
  revert s. induction p as [|x p IH]; intros [|y s]; simpl; try naive_solver.
  destruct (decide (x = y)) as [->|Hne]; [rewrite IH|]; naive_solver.
Qed.

Lemma strip_prefix_app p r : strip_prefix p (p ++ r) = Some r.
Proof. by apply strip_prefix_Some. Qed.

Lemma starts_with_true p s : starts_with p s = true <-> exists r, s = p ++ r.
Proof.
  unfold starts_with. rewrite bool_decide_eq_true. unfold is_Some.
  by setoid_rewrite strip_prefix_Some.
Qed.

Lemma trim_end_matches_notin cs s x : x ∉ cs -> trim_end_matches cs (s ++ [x]) = s ++ [x].
Proof.
  intros Hx. induction s as [|y s IH]; simpl.
  - by rewrite decide_False.
  - rewrite IH. by destruct s.
Qed.

Lemma trim_end_matches_all cs s : Forall (.∈ cs) s -> trim_end_matches cs s = [].
Proof.
  induction 1 as [|x s Hx _ IH]; simpl; [done|]. rewrite IH. by rewrite decide_True.
Qed.

Lemma trim_end_matches_nil cs s : trim_end_matches cs s = [] <-> Forall (.∈ cs) s.
Proof.
  split; [|apply trim_end_matches_all].
  induction s as [|x s IH]; simpl; [done|].
  destruct (trim_end_matches cs s); [|done].
  destruct (decide (x ∈ cs)); [|done]. intros _. constructor; auto.
Qed.

Lemma trim_end_matches_app cs s t : Forall (.∈ cs) t ->
  trim_end_matches cs (s ++ t) = trim_end_matches cs s.
Proof.
  intros Ht. induction s as [|x s IH]; simpl.
  - by apply trim_end_matches_all.
  - by rewrite IH.
Qed.

(** ** UTF-8: lemmas *)

Lemma utf8_chars_app s t cs : utf8_chars s = Some cs ->
  utf8_chars (s ++ t) = app cs <$> utf8_chars t.
Proof.
  remember (length s) as n eqn:Hn. revert s Hn cs.
  induction (lt_wf n) as [n _ IH]; intros s -> cs Hcs.
  destruct s as [|b0 s]; simpl in Hcs |- *; [simplify_eq; by destruct (utf8_chars t)|].
  repeat (case_if; [
      match goal with H : _ <$> utf8_chars ?s' = Some _ |- _ =>
        destruct (utf8_chars s') as [cs'|] eqn:E; simplify_eq/=;
        rewrite (fun H => IH (length s') H _ eq_refl _ E) by (simpl; lia);
        by destruct (utf8_chars t)
      end
    | try discriminate Hcs;
      match goal with H : match ?s' with [] => _ | _ => _ end = Some _ |- _ =>
        destruct s' as [|? ?]; simpl in H |- *; [discriminate H|]
      end]).
Qed.

Lemma utf8_valid_app s t : utf8_valid s = true -> utf8_valid t = true -> utf8_valid (s ++ t) = true.
Proof.
  unfold utf8_valid. rewrite !bool_decide_eq_true. intros [x Hx] [y Hy].
  rewrite (utf8_chars_app s t x Hx), Hy. eauto.
Qed.
#[export] Hint Resolve utf8_valid_app : rust.

Lemma utf8_valid_ascii s : Forall (fun b => u8 b < 128) s -> utf8_valid s = true.
Proof.
  unfold utf8_valid. rewrite bool_decide_eq_true.
  induction 1 as [|b s Hb _ [cs IH]]; simpl; [eauto|].
  rewrite (proj2 (Z.ltb_lt _ _) Hb), IH. eauto.
Qed.

Lemma utf8_valid_join sep ps : utf8_valid sep = true ->
  Forall (fun p => utf8_valid p = true) ps -> utf8_valid (join sep ps) = true.
Proof.
  intros Hsep. induction 1 as [|p ps Hp Hps IH]; [done|].
  destruct ps as [|q ps]; [done|].
  change (join sep (p :: q :: ps)) with (p ++ sep ++ join sep (q :: ps)). auto with rust.
Qed.

(** ** Decimal numbers: lemmas *)

Lemma digit_byte_u8 d : 0 <= d < 10 -> u8 (digit_byte d) = 48 + d.
Proof. intros. unfold digit_byte. apply as_u8_small. lia. Qed.

Lemma to_digit_byte d : 0 <= d < 10 -> to_digit 10 (digit_byte d) = Some d.
Proof.
  intros Hd. unfold to_digit. rewrite digit_byte_u8 by done.
  rewrite (proj2 (Z.leb_le 48 _)), (proj2 (Z.leb_le _ 57)) by lia. simpl.
  replace (48 + d - 48) with d by lia. by rewrite (proj2 (Z.ltb_lt d 10)) by lia.
Qed.

Lemma to_digit_range r b d : to_digit r b = Some d -> 0 <= d < r.
Proof.
  unfold to_digit. pose proof (u8_range b). intros Hd.
  repeat case_if; bool_prop; simplify_eq; lia.
Qed.

Lemma digits_val_range max acc s v : 0 <= acc <= max -> digits_val max acc s = Some v -> 0 <= v <= max.
Proof.
  revert acc. induction s as [|b s IH]; intros acc Hacc; simpl; [naive_solver|].
  destruct (to_digit 10 b) eqn:E; simpl; [|done]. apply to_digit_range in E.
  case_if; [|done]. bool_prop. apply IH. lia.
Qed.

Lemma parse_uint_range max s v : 0 <= max -> parse_uint max s = Some v -> 0 <= v <= max.
Proof.
  unfold parse_uint. intros Hmax H. destruct s as [|b r]; [done|].
  destruct (decide _); [destruct r; [done|]|]; by eapply digits_val_range in H; [|lia].
Qed.

Lemma parse_i32_range s v : parse_i32 s = Some v -> -2147483648 <= v <= 2147483647.
Proof.
  unfold parse_i32. destruct s as [|b r]; [done|]. case_decide.
  - destruct r as [|c r]; [done|]. intros (z & G & ->)%fmap_Some.
    apply digits_val_range in G; lia.
  - intros G. apply (parse_uint_range 2147483647 (b :: r)) in G; lia.
Qed.

Lemma parse_u16_range s v : parse_u16 s = Some v -> is_u16 v.
Proof. intros H. apply parse_uint_range in H; [unfold is_u16|]; lia. Qed.

Lemma digits_val_app max acc s t v :
  digits_val max acc s = Some v -> digits_val max acc (s ++ t) = digits_val max v t.
Proof.
  revert acc. induction s as [|b s IH]; intros acc; simpl; [naive_solver|].
  destruct (to_digit 10 b); simpl; [|done]. case_if; [apply IH|done].
Qed.

(** The digits [dec_aux] puts in front of [acc]. *)
Lemma dec_aux_spec fuel n acc max : 0 <= n <= max -> n < 10 ^ Z.of_nat fuel -> (0 < fuel)%nat ->
  exists ds, dec_aux fuel n acc = ds ++ acc /\ ds <> [] /\
    Forall (fun b => 48 <= u8 b <= 57) ds /\ digits_val max 0 ds = Some n.
Proof.
  revert n acc. induction fuel as [|fuel IH]; intros n acc Hn Hlt Hf; [lia|].
  simpl. pose proof (Z.mod_pos_bound n 10 ltac:(lia)).
  pose proof (Z.div_mod n 10 ltac:(lia)) as Hdm.
  assert (0 <= n / 10) by (apply Z.div_pos; lia).
  case_if; bool_prop.
  - exists [digit_byte (n mod 10)]. split_and!; [done|done| |].
    + constructor; [|done]. rewrite digit_byte_u8; lia.
    + simpl. rewrite to_digit_byte by done. simpl.
      rewrite (proj2 (Z.leb_le _ _)) by lia. f_equal. lia.
  - destruct fuel as [|fuel]; [change (Z.of_nat 1) with 1 in Hlt; lia|].
    destruct (IH (n / 10) (digit_byte (n mod 10) :: acc)) as (ds&->&Hne&Hds&Hv); [lia| |lia|].
    { apply Z.div_lt_upper_bound; [lia|]. rewrite <- Z.pow_succ_r by lia.
      by rewrite <- Nat2Z.inj_succ. }
    exists (ds ++ [digit_byte (n mod 10)]). split_and!.
    + by rewrite <- app_assoc.
    + by destruct ds.
    + apply Forall_app. split; [done|]. constructor; [|done]. rewrite digit_byte_u8; lia.
    + rewrite (digits_val_app _ _ _ _ _ Hv). simpl. rewrite to_digit_byte by done. simpl.
      rewrite (proj2 (Z.leb_le _ _)) by lia. f_equal. lia.
Qed.

Lemma dec_digits n : is_u32 n -> dec n <> [] /\ Forall (fun b => 48 <= u8 b <= 57) (dec n).
Proof.
  unfold is_u32. intros Hn. unfold dec.
  destruct (dec_aux_spec 10 n [] n) as (ds&->&Hne&Hds&_); [lia|simpl; lia|lia|].
  by rewrite app_nil_r.
Qed.

Lemma dec_notin n b : is_u32 n -> ~ (48 <= u8 b <= 57) -> b ∉ dec n.
Proof.
  intros Hn Hb Hin. destruct (dec_digits n Hn) as [_ Hds].
  rewrite Forall_forall in Hds. by apply Hb, Hds.
Qed.

(** Printing then parsing an unsigned integer is the identity. *)
Lemma parse_uint_dec max n : is_u32 n -> n <= max -> parse_uint max (dec n) = Some n.
Proof.
  intros Hn Hmax. unfold is_u32 in Hn.
  destruct (dec_aux_spec 10 n [] max) as (ds&Hds&Hne&Hdig&Hv); [lia|simpl; lia|lia|].
  unfold dec. rewrite Hds, app_nil_r. destruct ds as [|b ds]; [done|]. unfold parse_uint.
  rewrite decide_False; [done|]. intros ->. inversion Hdig as [|? ? Hb]. by vm_compute in Hb.
Qed.
