(* ===== verification/RustNet.v ===== *)
(** * The parts of [std::net] the program uses

    An [Ipv4Addr] is its [u32] value, an [Ipv6Addr] its eight 16-bit segments.
    The text parsers follow the standard library's address parser: a reader
    consumes a prefix of the bytes, and restores its input when it fails. *)

From S2P Require Import Prelude RustStr.

Abbreviation ipv4 := Z.

(** [Ipv4Addr::new(a, b, c, d)] *)
Definition ipv4_new (a b c d : Z) : ipv4 :=
  from_be32 (as_u8 a) (as_u8 b) (as_u8 c) (as_u8 d).

(** [ip.octets()] *)
Definition ipv4_octets (ip : ipv4) : bytes := be32 ip.

Definition ipv4_unspecified : ipv4 := 0.

Inductive ip_addr : Type :=
| V4 (ip : ipv4)
| V6 (segments : list Z).

#[global] Instance ip_addr_eq_dec : EqDecision ip_addr.
Proof. solve_decision. Defined.

(** [Ipv6Addr::octets()] *)
Definition ipv6_octets (segments : list Z) : bytes := flat_map be16 segments.

Inductive socket_addr : Type :=
| SockV4 (ip : ipv4) (port : Z)
| SockV6 (segments : list Z) (scope_id port : Z).

(** ** Readers *)

Definition reader (A : Type) : Type := bytes -> option (A * bytes).

(** [read_given_char] *)
Definition read_given_char (c : byte) : reader unit := fun s =>
  match s with
  | b :: s => if decide (b = c) then Some ((), s) else None
  | [] => None
  end.

(** The digit loop of [read_number]: with [max_digits] one digit too many is a
    failure, without it the arithmetic is checked against [max]. *)
Fixpoint read_digits (radix : Z) (max_digits : option nat) (max acc : Z) (count : nat)
    (s : bytes) : option (Z * nat * bytes) :=
  match s with
  | [] => Some (acc, count, [])
  | b :: s' =>
      match to_digit radix b with
      | None => Some (acc, count, s)
      | Some d =>
          let acc := acc * radix + d in
          let count := S count in
          match max_digits with
          | Some m => if (m <? count)%nat then None
                      else read_digits radix max_digits max acc count s'
          | None => if acc <=? max then read_digits radix max_digits max acc count s'
                    else None
          end
      end
  end.

Definition read_number (radix : Z) (max_digits : option nat) (allow_zero_prefix : bool)
    (max : Z) : reader Z := fun s =>
  let has_leading_zero := bool_decide (head s = Some "0"%byte) in
  '(v, count, rest) ← read_digits radix max_digits max 0 0 s;
  if (count =? 0)%nat then None
  else if negb allow_zero_prefix && has_leading_zero && (1 <? count)%nat then None
  else if v <=? max then Some (v, rest) else None.

(** [read_separator]: the separator is read before every part but the first. *)
Definition read_separator {A} (sep : byte) (index : nat) (inner : reader A) : reader A := fun s =>
  match index with
  | O => inner s
  | S _ => '(_, s) ← read_given_char sep s; inner s
  end.

Definition read_octet (i : nat) : reader Z :=
  read_separator "."%byte i (read_number 10 (Some 3%nat) false 255).

Definition read_ipv4_addr : reader ipv4 := fun s =>
  '(a, s) ← read_octet 0 s;
  '(b, s) ← read_octet 1 s;
  '(c, s) ← read_octet 2 s;
  '(d, s) ← read_octet 3 s;
  Some (ipv4_new a b c d, s).

(** [read_groups]: up to [limit] groups of an IPv6 address; the groups read,
    whether the last two came from an embedded IPv4 address, and the rest. *)
Fixpoint read_groups (fuel i limit : nat) (s : bytes) : list Z * bool * bytes :=
  match fuel with
  | O => ([], false, s)
  | S fuel =>
      let v4 := if (i <? limit - 1)%nat then read_separator ":"%byte i read_ipv4_addr s else None in
      match v4 with
      | Some (ip, s) => ([Z.shiftr ip 16; Z.land ip 65535], true, s)
      | None =>
          match read_separator ":"%byte i (read_number 16 (Some 4%nat) true 65535) s with
          | None => ([], false, s)
          | Some (g, s) =>
              let '(gs, e, s) := read_groups fuel (S i) limit s in (g :: gs, e, s)
          end
      end
  end.

Definition read_ipv6_addr : reader (list Z) := fun s =>
  let '(hd, hd_ipv4, s) := read_groups 8 0 8 s in
  if (length hd =? 8)%nat then Some (hd, s)
  else if hd_ipv4 : bool then None
  else
    '(_, s) ← read_given_char ":"%byte s;
    '(_, s) ← read_given_char ":"%byte s;
    let limit := (8 - (length hd + 1))%nat in
    let '(tl, _, s) := read_groups limit 0 limit s in
    Some (hd ++ replicate (8 - length hd - length tl) 0 ++ tl, s).

Definition read_port : reader Z := fun s =>
  '(_, s) ← read_given_char ":"%byte s;
  read_number 10 None true u16_max s.

Definition read_scope_id : reader Z := fun s =>
  '(_, s) ← read_given_char "%"%byte s;
  read_number 10 None true u32_max s.

Definition read_socket_addr_v4 : reader socket_addr := fun s =>
  '(ip, s) ← read_ipv4_addr s;
  '(port, s) ← read_port s;
  Some (SockV4 ip port, s).

Definition read_socket_addr_v6 : reader socket_addr := fun s =>
  '(_, s) ← read_given_char "["%byte s;
  '(ip, s) ← read_ipv6_addr s;
  let '(scope, s) := default (0, s) (read_scope_id s) in
  '(_, s) ← read_given_char "]"%byte s;
  '(port, s) ← read_port s;
  Some (SockV6 ip scope port, s).

Definition read_socket_addr : reader socket_addr := fun s =>
  match read_socket_addr_v4 s with
  | Some r => Some r
  | None => read_socket_addr_v6 s
  end.

(** [parse_with]: the reader must consume the whole input. *)
Definition parse_with {A} (r : reader A) (s : bytes) : option A :=
  match r s with
  | Some (a, []) => Some a
  | _ => None
  end.

(** [s.parse::<Ipv4Addr>()], which rejects inputs of more than 15 bytes. *)
Definition parse_ipv4 (s : bytes) : option ipv4 :=
  if 15 <? blen s then None else parse_with read_ipv4_addr s.

(** [s.parse::<SocketAddr>()] *)
Definition parse_socket_addr (s : bytes) : option socket_addr := parse_with read_socket_addr s.

(** ** Display *)

(** [Display] of an [Ipv4Addr]. *)
Definition display_ipv4 (ip : ipv4) : bytes := join (str ".") (map (fun b => dec (u8 b)) (ipv4_octets ip)).

Definition hex_digit (d : Z) : byte := if d <? 10 then as_u8 (48 + d) else as_u8 (87 + d).

Fixpoint hex_aux (fuel : nat) (n : Z) (acc : bytes) : bytes :=
  match fuel with
  | O => acc
  | S fuel =>
      let acc := hex_digit (n mod 16) :: acc in
      if n / 16 =? 0 then acc else hex_aux fuel (n / 16) acc
  end.

(** [{:x}] of a [u16]. *)
Definition hex16 (n : Z) : bytes := hex_aux 4 n [].

(** The first longest run of zero segments: [(start, len)]. *)
Fixpoint longest_zeroes (i : nat) (cur best : nat * nat) (segs : list Z) : nat * nat :=
  match segs with
  | [] => best
  | g :: segs =>
      if g =? 0 then
        let cur := (if (cur.2 =? 0)%nat then i else cur.1, S cur.2) in
        longest_zeroes (S i) cur (if (best.2 <? cur.2)%nat then cur else best) segs
      else longest_zeroes (S i) (O, O) best segs
  end.

(** [Display] of an [Ipv6Addr]. *)
Definition display_ipv6 (segs : list Z) : bytes :=
  match segs with
  | [0; 0; 0; 0; 0; 65535; hi; lo] => str "::ffff:" ++ display_ipv4 (Z.shiftl hi 16 + lo)
  | _ =>
      let '(start, len) := longest_zeroes 0 (O, O) (O, O) segs in
      let groups gs := join (str ":") (map hex16 gs) in
      if (1 <? len)%nat
      then groups (take start segs) ++ str "::" ++ groups (drop (start + len) segs)
      else groups segs
  end.

Definition display_ip (ip : ip_addr) : bytes :=
  match ip with V4 ip => display_ipv4 ip | V6 segs => display_ipv6 segs end.

(** ** Lemmas *)

Lemma ipv4_new_range a b c d : is_u32 (ipv4_new a b c d).
Proof. apply from_be32_range. Qed.
#[export] Hint Resolve ipv4_new_range : rust.

(** An address is determined by its octets. *)
Lemma ipv4_octets_new ip : is_u32 ip -> exists b0 b1 b2 b3,
  ipv4_octets ip = [b0; b1; b2; b3] /\ ip = ipv4_new (u8 b0) (u8 b1) (u8 b2) (u8 b3).
Proof.
  intros H. destruct (be32_octets ip H) as (b0&b1&b2&b3&Ho&<-).
  exists b0, b1, b2, b3. split; [done|]. unfold ipv4_new. by rewrite !as_u8_u8.
Qed.

(** A decidable fact of every byte value, by enumeration. *)
Lemma byte_values (P : Z -> bool) : forallb P (seqZ 0 256) = true -> forall n, 0 <= n < 256 -> P n = true.
Proof.
  rewrite forallb_forall. intros H n Hn. apply H, list_elem_of_In, elem_of_seqZ. lia.
Qed.

(** Reading stops at the first byte that is not a digit. *)
Lemma read_digits_app radix m max acc k s v n t :
  (forall b t', t = b :: t' -> to_digit radix b = None) ->
  read_digits radix m max acc k s = Some (v, n, []) ->
  read_digits radix m max acc k (s ++ t) = Some (v, n, t).
Proof.
  intros Ht. revert acc k. induction s as [|b s IH]; intros acc k; simpl.
  - intros [= <- <-]. destruct t as [|b t]; [done|]. simpl. by rewrite (Ht b t).
  - destruct (to_digit radix b) as [d|]; [|done].
    destruct m as [m|]; case_if; auto; done.
Qed.

Lemma read_octet_dec n t : 0 <= n < 256 ->
  (forall b t', t = b :: t' -> to_digit 10 b = None) ->
  read_number 10 (Some 3%nat) false 255 (dec n ++ t) = Some (n, t).
Proof.
  intros Hn Ht.
  set (P n := match read_digits 10 (Some 3%nat) 255 0 0 (dec n) with
    | Some (v, k, []) => (v =? n) && negb (k =? 0)%nat
        && (negb (bool_decide (head (dec n) = Some "0"%byte)) || (k =? 1)%nat)
    | _ => false end).
  assert (P n = true) as HP by (apply (byte_values P); [vm_compute; reflexivity|done]).
  unfold P in HP. destruct (read_digits 10 _ _ 0 0 (dec n)) as [[[v k] [|]]|] eqn:E; [|done..].
  apply andb_true_iff in HP as [HP Hz]. apply andb_true_iff in HP as [Hv Hk].
  apply Z.eqb_eq in Hv as ->. apply negb_true_iff in Hk.
  unfold read_number. rewrite (read_digits_app _ _ _ _ _ _ _ _ _ Ht E). simpl. rewrite Hk.
  assert (head (dec n ++ t) = head (dec n)) as ->.
  { destruct (dec_digits n) as [Hne _]; [unfold is_u32; lia|]. by destruct (dec n). }
  destruct (bool_decide _); simpl in Hz |- *; [apply Nat.eqb_eq in Hz as ->; simpl|];
    by rewrite (proj2 (Z.leb_le n 255)) by lia.
Qed.

Lemma length_dec_u8 n : 0 <= n < 256 -> (length (dec n) <= 3)%nat.
Proof.
  intros Hn. apply Nat.leb_le.
  apply (byte_values (fun n => (length (dec n) <=? 3)%nat)); [vm_compute; reflexivity|done].
Qed.

Lemma display_ipv4_eq a b c d : display_ipv4 (from_be32 a b c d) =
  dec (u8 a) ++ str "." ++ dec (u8 b) ++ str "." ++ dec (u8 c) ++ str "." ++ dec (u8 d).
Proof.
  unfold display_ipv4, ipv4_octets. destruct (be32_octets _ (from_be32_range a b c d))
    as (b0&b1&b2&b3&->&H). rewrite !from_be32_eq in H.
  assert (b0 = a /\ b1 = b /\ b2 = c /\ b3 = d) as (->&->&->&->).
  { pose proof (u8_range a). pose proof (u8_range b). pose proof (u8_range c).
    pose proof (u8_range d). pose proof (u8_range b0). pose proof (u8_range b1).
    pose proof (u8_range b2). pose proof (u8_range b3).
    split_and!; apply u8_inj; lia. }
  done.
Qed.

Lemma read_ipv4_display ip t : is_u32 ip ->
  (forall b t', t = b :: t' -> to_digit 10 b = None) ->
  read_ipv4_addr (display_ipv4 ip ++ t) = Some (ip, t).
Proof.
  intros Hip Ht. destruct (ipv4_octets_new ip Hip) as (a&b&c&d&_&->).
  unfold ipv4_new at 1. rewrite !as_u8_u8, display_ipv4_eq, <- !app_assoc.
  assert (forall x r b' t', (str "." ++ dec (u8 x) ++ r) = b' :: t' -> to_digit 10 b' = None)
    as Hdot by (intros ? ? ? ? [= <- _]; done).
  unfold read_ipv4_addr, read_octet, read_separator.
  rewrite read_octet_dec by (apply u8_range || apply Hdot). simpl.
  rewrite read_octet_dec by (apply u8_range || apply Hdot). simpl.
  rewrite read_octet_dec by (apply u8_range || apply Hdot). simpl.
  rewrite read_octet_dec by (apply u8_range || apply Ht). done.
Qed.

(** Printing then parsing an IPv4 address is the identity. *)
Lemma parse_ipv4_display ip : is_u32 ip -> parse_ipv4 (display_ipv4 ip) = Some ip.
Proof.
  intros Hip. unfold parse_ipv4. rewrite (proj2 (Z.ltb_ge _ _)).
  - unfold parse_with. rewrite <- (app_nil_r (display_ipv4 ip)).
    by rewrite read_ipv4_display.
  - destruct (ipv4_octets_new ip Hip) as (a&b&c&d&_&->). unfold ipv4_new.
    rewrite !as_u8_u8, display_ipv4_eq. unfold blen. rewrite !length_app.
    pose proof (length_dec_u8 _ (u8_range a)). pose proof (length_dec_u8 _ (u8_range b)).
    pose proof (length_dec_u8 _ (u8_range c)). pose proof (length_dec_u8 _ (u8_range d)).
    simpl. lia.
Qed.

Lemma read_ipv4_range s ip t : read_ipv4_addr s = Some (ip, t) -> is_u32 ip.
Proof.
  unfold read_ipv4_addr. intros H. bind_inv. apply ipv4_new_range.
Qed.

Lemma parse_ipv4_range s ip : parse_ipv4 s = Some ip -> is_u32 ip.
Proof.
  unfold parse_ipv4, parse_with. intros H. case_if; [done|].
  destruct (read_ipv4_addr s) as [[ip' []]|] eqn:E; simplify_eq. by eapply read_ipv4_range.
Qed.
#[export] Hint Resolve parse_ipv4_range : rust.

Lemma display_ipv4_notin ip b : is_u32 ip -> ~ (48 <= u8 b <= 57) -> b <> "."%byte ->
  b ∉ display_ipv4 ip.
Proof.
  intros Hip Hb Hdot. destruct (ipv4_octets_new ip Hip) as (x&y&z&w&_&->).
  unfold ipv4_new. rewrite !as_u8_u8, display_ipv4_eq.
  assert (forall x, b ∉ dec (u8 x)) as Hd.
  { intros x'. apply dec_notin; [|done]. pose proof (u8_range x'). unfold is_u32. lia. }
  assert (b ∉ str ".") as Hs by (intros ->%list_elem_of_singleton; done).
  rewrite !not_elem_of_app. naive_solver.
Qed.

Example parse_socket_addr_v6 :
  parse_socket_addr (str "[2001:db8::1%7]:443")
  = Some (SockV6 [8193; 3512; 0; 0; 0; 0; 0; 1] 7 443)
  /\ parse_socket_addr (str "::1:80") = None
  /\ display_ipv6 [8193; 3512; 0; 0; 0; 0; 0; 1] = str "2001:db8::1".
Proof. split_and!; vm_compute; reflexivity. Qed.
