(* ===== verification/FakeDns.v ===== *)
(** * Fake DNS: the address pool and the DNS wire format (src/src/fake_dns.rs)

    [Pool] is the [FakeDns] struct, the bounded domain/fake-IP mapping, with
    an abstract specification (the history of allocations, of which the last
    [POOL_SIZE] are live) that [resolve] and [lookup] refine.  [Wire] is the
    query parser and the two response builders, with a reference decoder for
    the responses. *)

From S2P Require Import Prelude RustStr RustNet.

Module Pool.

Definition POOL_START : Z := from_be32 (as_u8 198) (as_u8 18) (as_u8 0) (as_u8 1).
Definition POOL_END : Z := from_be32 (as_u8 198) (as_u8 19) (as_u8 255) (as_u8 254).
Definition POOL_SIZE : Z := POOL_END - POOL_START + 1.

Record FakeDns : Type := mkFakeDns {
  domain_to_ip : gmap bytes ipv4;
  ip_to_domain : gmap ipv4 bytes;
  next_offset : Z;
}.

Definition new : FakeDns :=
  {| domain_to_ip := ∅; ip_to_domain := ∅; next_offset := 0 |}.

(** [u32] addition, at its width. *)
Definition u32_add (a b : Z) : Z := (a + b) mod 4294967296.

Definition resolve (self : FakeDns) (domain : bytes) : FakeDns * ipv4 :=
  match domain_to_ip self !! domain with
  | Some ip => (self, ip)
  | None =>
      let ip := u32_add POOL_START (next_offset self) in
      let next := u32_add (next_offset self) 1 mod POOL_SIZE in
      let d2i := match ip_to_domain self !! ip with
                 | Some old_domain => delete old_domain (domain_to_ip self)
                 | None => domain_to_ip self
                 end in
      let i2d := delete ip (ip_to_domain self) in
      ({| domain_to_ip := <[domain := ip]> d2i;
          ip_to_domain := <[ip := domain]> i2d;
          next_offset := next |}, ip)
  end.

Definition lookup (self : FakeDns) (ip : ipv4) : option bytes := ip_to_domain self !! ip.

Definition is_fake_ip (self : FakeDns) (ip : ipv4) : bool :=
  (POOL_START <=? ip) && (ip <=? POOL_END).

(** Resolving a sequence of domains. *)
Definition resolve_all (self : FakeDns) (ds : list bytes) : FakeDns :=
  fold_left (fun s d => fst (resolve s d)) ds self.

(** The states the program can reach. *)
Inductive reachable : FakeDns -> Prop :=
| reach_new : reachable new
| reach_resolve s d : reachable s -> reachable (fst (resolve s d)).

(** ** Abstract specification

    The history of allocations: the [i]-th allocated domain has the address
    [slot_ip i], and an allocation is live while fewer than [POOL_SIZE]
    allocations have followed it. *)

Definition slot_ip (i : nat) : ipv4 := POOL_START + Z.of_nat i mod POOL_SIZE.

Definition live (h : list bytes) (i : nat) (d : bytes) : Prop :=
  blen h - POOL_SIZE <= Z.of_nat i /\ h !! i = Some d.

(** [spec_resolve h d h' ip]: a live domain keeps its address, any other is
    allocated the next slot. *)
Inductive spec_resolve (h : list bytes) (d : bytes) : list bytes -> ipv4 -> Prop :=
| spec_hit i : live h i d -> spec_resolve h d h (slot_ip i)
| spec_alloc : (forall i, ~ live h i d) -> spec_resolve h d (h ++ [d]) (slot_ip (length h)).

Record refines (h : list bytes) (s : FakeDns) : Prop := {
  ref_next : next_offset s = blen h mod POOL_SIZE;
  ref_lookup ip d : ip_to_domain s !! ip = Some d <-> exists i, live h i d /\ ip = slot_ip i;
  ref_bij ip d : domain_to_ip s !! d = Some ip <-> ip_to_domain s !! ip = Some d;
}.

(** ** Lemmas *)

Lemma pool_size_eq : POOL_SIZE = 131070.
Proof. reflexivity. Qed.

Lemma pool_start_eq : POOL_START = 3323068417.
Proof. reflexivity. Qed.

Lemma pool_end_eq : POOL_END = 3323199486.
Proof. reflexivity. Qed.

Lemma slot_ip_range i : POOL_START <= slot_ip i <= POOL_END.
Proof.
  unfold slot_ip. pose proof (Z.mod_pos_bound (Z.of_nat i) POOL_SIZE).
  rewrite pool_size_eq, pool_start_eq, pool_end_eq in *. lia.
Qed.

Lemma slot_ip_inj i j : slot_ip i = slot_ip j ->
  Z.abs (Z.of_nat i - Z.of_nat j) < POOL_SIZE -> i = j.
Proof.
  unfold slot_ip. rewrite pool_size_eq, pool_start_eq. intros H Hd.
  assert (Z.of_nat i mod 131070 = Z.of_nat j mod 131070) as Hm by lia. clear H.
  pose proof (Z.div_mod (Z.of_nat i) 131070). pose proof (Z.div_mod (Z.of_nat j) 131070). lia.
Qed.

Lemma live_lt h i d : live h i d -> (i < length h)%nat.
Proof. intros [_ H]. by eapply lookup_lt_Some. Qed.

Lemma live_inj h i j d e : live h i d -> live h j e -> slot_ip i = slot_ip j -> i = j.
Proof.
  intros Hi Hj Hs. pose proof (live_lt _ _ _ Hi). pose proof (live_lt _ _ _ Hj).
  destruct Hi as [Hi _], Hj as [Hj _]. unfold blen in *.
  apply slot_ip_inj; [done|]. rewrite pool_size_eq in *. lia.
Qed.

(** Liveness after one more allocation. *)
Lemma live_snoc h d i e : live (h ++ [d]) i e <->
  (i = length h /\ e = d) \/
  (live h i e /\ slot_ip i <> slot_ip (length h)).
Proof.
  unfold live. rewrite blen_app, blen_cons, blen_nil. unfold blen. split.
  - intros [Hi He]. apply lookup_app_Some in He as [He|[Hge He]].
    + right. pose proof (lookup_lt_Some _ _ _ He). split; [split; [lia|done]|].
      intros Hs%slot_ip_inj; lia.
    + left. destruct (i - length h)%nat eqn:E; simpl in He; [|done].
      simplify_eq. split; [lia|done].
  - intros [[-> ->]|[[Hi He] Hs]].
    + split; [rewrite pool_size_eq; lia|]. by apply list_lookup_middle.
    + split; [|by apply lookup_app_l_Some].
      destruct (decide (Z.of_nat (length h) - POOL_SIZE = Z.of_nat i)) as [E|]; [|lia].
      exfalso. apply Hs. unfold slot_ip.
      replace (Z.of_nat (length h)) with (Z.of_nat i + 1 * POOL_SIZE) by lia.
      by rewrite Z.mod_add by (rewrite pool_size_eq; lia).
Qed.

Lemma refines_new : refines [] new.
Proof.
  split; simpl; [done| |].
  - intros ip d. rewrite lookup_empty. split; [done|].
    intros (i & [_ Hi] & _). by rewrite lookup_nil in Hi.
  - intros ip d. by rewrite !lookup_empty.
Qed.

Lemma refines_hit h s d ip : refines h s -> domain_to_ip s !! d = Some ip ->
  spec_resolve h d h ip.
Proof.
  intros R [i [Hi ->]]%(ref_bij _ _ R)%(ref_lookup _ _ R). by constructor.
Qed.

Lemma refines_miss h s d : refines h s -> domain_to_ip s !! d = None -> forall i, ~ live h i d.
Proof.
  intros R Hd i Hi.
  assert (domain_to_ip s !! d = Some (slot_ip i)); [|congruence].
  apply R, R. eauto.
Qed.

(** The address computed by the code is the next slot: no wrap of [u32]. *)
Lemma refines_next_ip h s : refines h s ->
  u32_add POOL_START (next_offset s) = slot_ip (length h) /\
  u32_add (next_offset s) 1 mod POOL_SIZE = blen (h ++ [[]]) mod POOL_SIZE.
Proof.
  intros R. rewrite (ref_next _ _ R). unfold u32_add, slot_ip, blen.
  pose proof (Z.mod_pos_bound (Z.of_nat (length h)) POOL_SIZE) as Hb.
  rewrite pool_size_eq, pool_start_eq in *. split.
  - rewrite Z.mod_small by lia. done.
  - rewrite (Z.mod_small _ 4294967296) by lia. rewrite length_app. simpl.
    rewrite Nat2Z.inj_add, Zplus_mod_idemp_l. done.
Qed.

Lemma evict_lookup h s d ip : refines h s -> domain_to_ip s !! d = None ->
  forall e, e <> d ->
  (match ip_to_domain s !! ip with
   | Some old => delete old (domain_to_ip s)
   | None => domain_to_ip s end) !! e =
  (match domain_to_ip s !! e with
   | Some x => if decide (x = ip) then None else Some x | None => None end).
Proof.
  intros R Hd e He. destruct (ip_to_domain s !! ip) as [old|] eqn:Hold.
  - apply (ref_bij _ _ R) in Hold. destruct (decide (e = old)) as [->|Hne].
    + rewrite lookup_delete_eq, Hold. by rewrite decide_True.
    + rewrite lookup_delete_ne by done. destruct (domain_to_ip s !! e) as [x|] eqn:Hx; [|done].
      rewrite decide_False; [done|]. intros ->.
      apply (ref_bij _ _ R) in Hx, Hold. congruence.
  - destruct (domain_to_ip s !! e) as [x|] eqn:Hx; [|done].
    rewrite decide_False; [done|]. intros ->. apply (ref_bij _ _ R) in Hx. congruence.
Qed.

Lemma refines_alloc h s d : refines h s -> domain_to_ip s !! d = None ->
  refines (h ++ [d]) (fst (resolve s d)).
Proof.
  intros R Hd. unfold resolve. rewrite Hd.
  destruct (refines_next_ip h s R) as [-> Hnext]. set (ip := slot_ip (length h)).
  pose proof (refines_miss h s d R Hd) as Hmiss. split; simpl.
  - rewrite Hnext. unfold blen. by rewrite !length_app.
  - intros ip' e. setoid_rewrite live_snoc. rewrite insert_delete_eq. destruct (decide (ip' = ip)) as [->|Hne].
    + rewrite lookup_insert_eq. split.
      * intros [= <-]. exists (length h). auto.
      * intros (i & [[-> ->]|[_ Hs]] & Hip); [done|]. by destruct Hs.
    + rewrite lookup_insert_ne by done. rewrite (ref_lookup _ _ R). split.
      * intros (i & Hi & ->). exists i. split; [|done]. right. done.
      * intros (i & [[-> ->]|[Hi _]] & ->); [done|]. eauto.
  - intros ip' e. rewrite insert_delete_eq. destruct (decide (e = d)) as [->|Hed].
    + rewrite lookup_insert_eq. destruct (decide (ip' = ip)) as [->|Hne].
      * by rewrite lookup_insert_eq.
      * rewrite lookup_insert_ne by done. split; [congruence|].
        intros H%(ref_bij _ _ R). congruence.
    + rewrite lookup_insert_ne by done. rewrite (evict_lookup h s d) by done.
      destruct (decide (ip' = ip)) as [->|Hne].
      * rewrite lookup_insert_eq. split; [|congruence]. repeat case_match; congruence.
      * rewrite lookup_insert_ne by done. rewrite <- (ref_bij _ _ R).
        destruct (domain_to_ip s !! e) as [x|]; [|done]. destruct (decide (x = ip)); naive_solver.
Qed.

Lemma resolve_refines_lemma h s d : refines h s ->
  exists h', refines h' (fst (resolve s d)) /\ spec_resolve h d h' (snd (resolve s d)) .
Proof.
  intros R. destruct (domain_to_ip s !! d) as [ip|] eqn:Hd.
  - exists h. unfold resolve. rewrite Hd. simpl. split; [done|]. by eapply refines_hit.
  - exists (h ++ [d]). split; [by apply refines_alloc|].
    unfold resolve. rewrite Hd. simpl. destruct (refines_next_ip h s R) as [-> _].
    constructor. by eapply refines_miss.
Qed.

Lemma reachable_refines s : reachable s -> exists h, refines h s.
Proof.
  induction 1 as [|s d _ [h R]]; [exists []; apply refines_new|].
  destruct (resolve_refines_lemma h s d R) as (h' & R' & _). eauto.
Qed.

(** A history only grows, by at most one entry per resolution. *)
Lemma spec_resolve_grows h d h' ip : spec_resolve h d h' ip ->
  (exists k, h' = h ++ k) /\ (length h' <= S (length h))%nat.
Proof.
  destruct 1 as [i _|_].
  - split; [by exists []; rewrite app_nil_r|lia].
  - split; [eauto|]. rewrite length_app. simpl. lia.
Qed.

Lemma spec_resolve_live h d h' ip : spec_resolve h d h' ip -> exists i, live h' i d /\ ip = slot_ip i.
Proof.
  destruct 1 as [i Hi|_]; [eauto|]. exists (length h). split; [|done]. apply live_snoc. auto.
Qed.

Lemma resolve_all_app s ds ds' : resolve_all s (ds ++ ds') = resolve_all (resolve_all s ds) ds'.
Proof. apply fold_left_app. Qed.

Lemma resolve_all_reachable s ds : reachable s -> reachable (resolve_all s ds).
Proof. revert s. induction ds as [|d ds IH]; intros s Hs; [done|]. apply IH. by constructor. Qed.

Lemma resolve_all_refines h s ds : refines h s ->
  exists k, refines (h ++ k) (resolve_all s ds) /\ (length k <= length ds)%nat.
Proof.
  revert h s. induction ds as [|d ds IH]; intros h s R; simpl.
  - exists []. by rewrite app_nil_r.
  - destruct (resolve_refines_lemma h s d R) as (h' & R' & Hs).
    destruct (spec_resolve_grows _ _ _ _ Hs) as [[k1 ->] Hl].
    destruct (IH _ _ R') as (k2 & R2 & Hk2). exists (k1 ++ k2).
    rewrite app_assoc. split; [done|]. rewrite !length_app in *. lia.
Qed.

Lemma live_app h k i d : live h i d -> blen h + blen k - POOL_SIZE <= Z.of_nat i -> live (h ++ k) i d.
Proof.
  intros [_ Hi] Hle. split; [by rewrite blen_app|]. by apply lookup_app_l_Some.
Qed.

Lemma refines_live_lookup h s i d : refines h s -> live h i d ->
  lookup s (slot_ip i) = Some d /\ resolve s d = (s, slot_ip i).
Proof.
  intros R Hi. assert (ip_to_domain s !! slot_ip i = Some d) as H by (apply R; eauto).
  split; [done|]. unfold resolve. apply (ref_bij _ _ R) in H. by rewrite H.
Qed.

Lemma refines_fresh h s d : refines h s -> d ∉ h -> domain_to_ip s !! d = None.
Proof.
  intros R Hd. destruct (domain_to_ip s !! d) as [ip|] eqn:E; [|done].
  apply (ref_bij _ _ R), (ref_lookup _ _ R) in E as (i & [_ Hi] & _). destruct Hd. by eapply list_elem_of_lookup_2.
Qed.

(** Resolving new domains allocates them in order. *)
Lemma resolve_all_fresh h s ds : refines h s -> NoDup (h ++ ds) -> refines (h ++ ds) (resolve_all s ds).
Proof.
  revert h s. induction ds as [|d ds IH]; intros h s R Hn; simpl; [by rewrite app_nil_r|].
  pose proof (proj1 (proj2 (proj1 (NoDup_app _ _) Hn))) as Hd.
  rewrite cons_middle, (assoc_L (++)) in Hn |- *. apply IH; [|done].
  apply refines_alloc; [done|]. apply (refines_fresh h); [done|]. intros Hin. apply (Hd d Hin). by constructor.
Qed.

(** Once the pool is full the next new domain takes the place of the oldest. *)
Lemma pool_wraps d0 ds d : NoDup ((d0 :: ds) ++ [d]) -> blen (d0 :: ds) = POOL_SIZE ->
  exists s', resolve (resolve_all new (d0 :: ds)) d = (s', POOL_START) /\
    lookup s' POOL_START = Some d /\ domain_to_ip s' !! d0 = None.
Proof.
  set (h := d0 :: ds). intros Hn Hl. apply NoDup_app in Hn as (Hh & Hd & _).
  assert (d ∉ h) as Hfresh by (intros Hin; apply (Hd d Hin); by constructor).
  pose proof (resolve_all_fresh [] new h refines_new Hh) as R. cbn [app] in R.
  pose proof (refines_fresh _ _ _ R Hfresh) as Hnone. pose proof (refines_alloc _ _ _ R Hnone) as R'.
  assert (slot_ip (length h) = POOL_START) as Hslot.
  { unfold slot_ip. fold (blen h). rewrite Hl, Z.mod_same by done. lia. }
  eexists. split; [|split].
  - unfold resolve. rewrite Hnone, (proj1 (refines_next_ip _ _ R)), Hslot. reflexivity.
  - assert (live (h ++ [d]) (length h) d) as Hlive by (apply live_snoc; auto).
    destruct (refines_live_lookup _ _ _ _ R' Hlive) as [Hd' _]. unfold resolve in Hd'.
    by rewrite Hnone, (proj1 (refines_next_ip _ _ R)), Hslot in Hd'.
  - destruct (domain_to_ip (resolve (resolve_all new h) d).1 !! d0) as [ip|] eqn:E; revert E.
    + intros (i & Hi & _)%(ref_bij _ _ R')%(ref_lookup _ _ R'). apply live_snoc in Hi as [[-> ->]|[[_ Hi] Hne]].
      * destruct Hfresh. by left.
      * apply (NoDup_lookup _ i 0 d0) in Hi as ->; [|done|done]. by rewrite Hslot in Hne.
    + unfold resolve. by rewrite Hnone, (proj1 (refines_next_ip _ _ R)), Hslot.
Qed.

Lemma resolve_lookup_reachable s d s' ip : reachable s -> resolve s d = (s', ip) ->
  lookup s' ip = Some d /\ resolve s' d = (s', ip) /\ is_fake_ip s' ip = true.
Proof.
  intros [h R]%reachable_refines Hr.
  destruct (resolve_refines_lemma h s d R) as (h' & R' & Hs). rewrite Hr in R', Hs.
  simpl in R', Hs. destruct (spec_resolve_live _ _ _ _ Hs) as (i & Hi & ->).
  destruct (refines_live_lookup _ _ _ _ R' Hi) as [Hl Hr']. split_and!; [done|done|].
  unfold is_fake_ip. pose proof (slot_ip_range i).
  by rewrite (proj2 (Z.leb_le _ _)), (proj2 (Z.leb_le _ _)) by lia.
Qed.

Lemma lookup_fake s ip d : reachable s -> lookup s ip = Some d -> is_fake_ip s ip = true.
Proof.
  intros [h R]%reachable_refines (i & _ & ->)%(ref_lookup _ _ R). unfold is_fake_ip.
  pose proof (slot_ip_range i). by rewrite (proj2 (Z.leb_le _ _)), (proj2 (Z.leb_le _ _)) by lia.
Qed.

(** C7. The pool refines its specification: starting from the empty history,
    every [resolve] is a step of [spec_resolve] with the same address (a live
    domain keeps its address; another one takes the next slot, in ring order,
    evicting exactly the allocation [POOL_SIZE] steps older), and [lookup]
    answers the domain of the live allocation of that slot, and nothing else. *)
Theorem fake_dns_refines :
  refines [] new /\
  (forall h s d, refines h s ->
     exists h', refines h' (fst (resolve s d)) /\ spec_resolve h d h' (snd (resolve s d))) /\
  (forall h s ip d, refines h s ->
     lookup s ip = Some d <-> exists i, live h i d /\ ip = slot_ip i).
Proof.
  split_and!; [exact refines_new|exact resolve_refines_lemma|].
  intros h s ip d R. apply (ref_lookup _ _ R).
Qed.

(** Round trip: in every reachable state the address [resolve] returns is a
    fake address whose reverse lookup is the domain that was resolved, and
    resolving the domain again returns the same address and changes nothing. *)
Theorem resolve_lookup s d s' ip : reachable s -> resolve s d = (s', ip) ->
  lookup s' ip = Some d /\ resolve s' d = (s', ip) /\ is_fake_ip s' ip = true.
Proof. apply resolve_lookup_reachable. Qed.

Lemma resolve_lookup_witness :
  lookup (fst (resolve new (str "example.com"))) POOL_START = Some (str "example.com").
Proof.
  apply (resolve_lookup new (str "example.com") (fst (resolve new (str "example.com"))) POOL_START);
    [constructor|vm_compute; reflexivity].
Defined.

(** A freshly allocated address stays bound to its domain while fewer than
    [POOL_SIZE] further domains are resolved, whatever they are. *)
Lemma resolve_stable s d ds ip : reachable s -> domain_to_ip s !! d = None ->
  snd (resolve s d) = ip -> blen ds < POOL_SIZE ->
  let s' := resolve_all (fst (resolve s d)) ds in
  lookup s' ip = Some d /\ resolve s' d = (s', ip).
Proof.
  intros [h R]%reachable_refines Hd <- Hlen. pose proof (refines_alloc h s d R Hd) as R1.
  destruct (resolve_all_refines _ _ ds R1) as (k & R2 & Hk).
  unfold resolve at 2 4. rewrite Hd. simpl. destruct (refines_next_ip h s R) as [-> _].
  apply (refines_live_lookup _ _ _ _ R2). apply live_app; [apply live_snoc; auto|].
  rewrite blen_app, blen_cons, blen_nil. unfold blen in *. lia.
Qed.

(** Invariant of every reachable state: the two maps are inverse to each
    other, every address in them lies in the pool, at most [POOL_SIZE] domains
    are mapped, and the next offset is an index of the pool, so that the [u32]
    additions of [resolve] never overflow. *)
Lemma fake_dns_invariant s : reachable s ->
  (forall ip d, domain_to_ip s !! d = Some ip <-> ip_to_domain s !! ip = Some d) /\
  (forall ip d, ip_to_domain s !! ip = Some d -> is_fake_ip s ip = true) /\
  Z.of_nat (size (ip_to_domain s)) <= POOL_SIZE /\
  0 <= next_offset s < POOL_SIZE /\
  POOL_START + next_offset s <= u32_max /\ next_offset s + 1 <= u32_max.
Proof.
  intros [h R]%reachable_refines.
  assert (forall ip d, ip_to_domain s !! ip = Some d -> POOL_START <= ip <= POOL_END) as Hin.
  { intros ip d (i & _ & ->)%(ref_lookup _ _ R). apply slot_ip_range. }
  assert (0 <= next_offset s < POOL_SIZE) as Hnext.
  { rewrite (ref_next _ _ R). apply Z.mod_pos_bound. rewrite pool_size_eq. lia. }
  split_and!; try (rewrite ?pool_size_eq, ?pool_start_eq in *; unfold u32_max; lia).
  - apply R.
  - intros ip d H%Hin. unfold is_fake_ip.
    by rewrite (proj2 (Z.leb_le _ _)), (proj2 (Z.leb_le _ _)) by lia.
  - rewrite <- size_dom.
    assert (dom (ip_to_domain s) ⊆ (list_to_set (seqZ POOL_START POOL_SIZE) : gset Z)) as Hsub.
    { intros ip [d H]%elem_of_dom. apply elem_of_list_to_set, elem_of_seqZ.
      apply Hin in H. rewrite pool_size_eq, pool_start_eq, pool_end_eq in *. lia. }
    apply subseteq_size in Hsub. rewrite size_list_to_set in Hsub by apply NoDup_seqZ.
    rewrite length_seqZ in Hsub. rewrite pool_size_eq in *. lia.
Qed.

End Pool.

Module Wire.

(** The QNAME loop of [parse_query]: the labels and the position after the
    terminating zero.  [fuel] bounds the number of labels; running out of it
    is reported as a panic, so a proof of the absence of panics is also a proof
    that [length data + 1] iterations are enough. *)
Fixpoint read_labels (fuel : nat) (data : bytes) (pos : nat) (labels : list bytes)
    : popt (list bytes * nat) :=
  match fuel with
  | O => PPanic
  | S fuel =>
      if (length data <=? pos)%nat then PNone else
      b ← idx data pos;
      let label_len := u8 b in
      if label_len =? 0 then PSome (labels, pos + 1)%nat else
      if negb (Z.land label_len 0xC0 =? 0) then PNone else
      let pos := (pos + 1)%nat in
      let end_ := (pos + Z.to_nat label_len)%nat in
      if (length data <? end_)%nat then PNone else
      label ← slice data pos end_;
      if utf8_valid label then read_labels fuel data end_ (labels ++ [label]) else PNone
  end.

Definition parse_query (data : bytes) : popt (Z * bytes * Z) :=
  if (length data <? 12)%nat then PNone else
  d0 ← idx data 0; d1 ← idx data 1;
  let id := from_be16 d0 d1 in
  d2 ← idx data 2; d3 ← idx data 3;
  let flags := from_be16 d2 d3 in
  if negb (Z.land flags 0x8000 =? 0) then PNone else
  d4 ← idx data 4; d5 ← idx data 5;
  let qdcount := from_be16 d4 d5 in
  if qdcount =? 0 then PNone else
  '(labels, pos) ← read_labels (S (length data)) data 12 [];
  if (length data <? pos + 4)%nat then PNone else
  q0 ← idx data pos; q1 ← idx data (pos + 1);
  let qtype := from_be16 q0 q1 in
  let domain := join (str ".") labels in
  PSome (id, domain, qtype).

(** [encode_name(&mut buf, domain)]: the new contents of the buffer. *)
Definition encode_name (buf domain : bytes) : bytes :=
  let buf :=
    if bool_decide (domain = []) then buf
    else fold_left (fun buf label => (buf ++ [as_u8 (blen label)]) ++ label)
           (split "."%byte domain) buf in
  buf ++ [Byte.x00].

Definition build_a_response (id : Z) (domain : bytes) (ip : ipv4) : bytes :=
  let pkt := [] in
  let pkt := pkt ++ be16 id in
  let pkt := pkt ++ be16 0x8180 in
  let pkt := pkt ++ be16 1 in
  let pkt := pkt ++ be16 1 in
  let pkt := pkt ++ be16 0 in
  let pkt := pkt ++ be16 0 in
  let pkt := encode_name pkt domain in
  let pkt := pkt ++ be16 1 in
  let pkt := pkt ++ be16 1 in
  let pkt := pkt ++ be16 0xC00C in
  let pkt := pkt ++ be16 1 in
  let pkt := pkt ++ be16 1 in
  let pkt := pkt ++ be32 300 in
  let pkt := pkt ++ be16 4 in
  pkt ++ ipv4_octets ip.

Definition build_empty_response (id : Z) (domain : bytes) (qtype : Z) : bytes :=
  let pkt := [] in
  let pkt := pkt ++ be16 id in
  let pkt := pkt ++ be16 0x8180 in
  let pkt := pkt ++ be16 1 in
  let pkt := pkt ++ be16 0 in
  let pkt := pkt ++ be16 0 in
  let pkt := pkt ++ be16 0 in
  let pkt := encode_name pkt domain in
  let pkt := pkt ++ be16 qtype in
  pkt ++ be16 1.

(** ** Reference definitions *)

(** A name on the wire (RFC 1035): length-prefixed labels and the root. *)
Definition wire_labels (labels : list bytes) : bytes :=
  flat_map (fun l => as_u8 (blen l) :: l) labels.

Definition wire_name (labels : list bytes) : bytes := wire_labels labels ++ [Byte.x00].

(** A label the parser accepts: 1 to 63 bytes of UTF-8. *)
Definition valid_label (l : bytes) : Prop := 1 <= blen l <= 63 /\ utf8_valid l = true.

Definition dot_free (l : bytes) : Prop := "."%byte ∉ l.

(** A question on the wire, without its class. *)
Definition wire_query (id flags qdcount : Z) (counts : bytes) (labels : list bytes)
    (qtype : Z) (rest : bytes) : bytes :=
  be16 id ++ be16 flags ++ be16 qdcount ++ counts ++ wire_name labels ++ be16 qtype ++ rest.

(** What a stub resolver reads from a response with one question and at most
    one answer: transaction id, flags, the question, and the answer's name
    (following one compression pointer), type, class, TTL and data. *)
Record answer : Type := mkAnswer {
  a_name : list bytes; a_type : Z; a_class : Z; a_ttl : Z; a_data : bytes;
}.

Record response : Type := mkResponse {
  r_id : Z; r_flags : Z; r_question : list bytes; r_qtype : Z; r_qclass : Z;
  r_answers : list answer;
}.

Definition read_u16 (data : bytes) (pos : nat) : popt Z :=
  b0 ← idx data pos; b1 ← idx data (pos + 1); PSome (from_be16 b0 b1).

Definition read_answer (data : bytes) (pos : nat) : popt answer :=
  ptr ← read_u16 data pos;
  if negb (Z.land ptr 0xC000 =? 0xC000) then PNone else
  '(labels, _) ← read_labels (S (length data)) data (Z.to_nat (Z.land ptr 0x3FFF)) [];
  ty ← read_u16 data (pos + 2);
  class ← read_u16 data (pos + 4);
  hi ← read_u16 data (pos + 6);
  lo ← read_u16 data (pos + 8);
  len ← read_u16 data (pos + 10);
  rdata ← slice data (pos + 12) (pos + 12 + Z.to_nat len);
  PSome (mkAnswer labels ty class (hi * 65536 + lo) rdata).

Definition decode_response (data : bytes) : popt response :=
  id ← read_u16 data 0;
  flags ← read_u16 data 2;
  qd ← read_u16 data 4;
  an ← read_u16 data 6;
  if negb (qd =? 1) then PNone else
  '(labels, pos) ← read_labels (S (length data)) data 12 [];
  qtype ← read_u16 data pos;
  qclass ← read_u16 data (pos + 2);
  if an =? 0 then PSome (mkResponse id flags labels qtype qclass []) else
  a ← read_answer data (pos + 4);
  PSome (mkResponse id flags labels qtype qclass [a]).

(** ** Lemmas: the label loop *)

Lemma land_C0 n : 0 <= n < 64 -> Z.land n 0xC0 = 0.
Proof.
  intros Hn. apply Z.eqb_eq.
  assert (forallb (fun n => negb (n <? 64) || (Z.land n 0xC0 =? 0)) (seqZ 0 256) = true) as H
    by (vm_compute; reflexivity).
  pose proof (byte_values _ H n ltac:(lia)) as Hb. simpl in Hb.
  by rewrite (proj2 (Z.ltb_lt n 64)) in Hb by lia.
Qed.

Lemma land_C0_zero n : 0 <= n < 256 -> Z.land n 0xC0 = 0 -> n < 64.
Proof.
  intros Hn H0. apply Z.ltb_lt.
  assert (forallb (fun n => (n <? 64) || negb (Z.land n 0xC0 =? 0)) (seqZ 0 256) = true) as H
    by (vm_compute; reflexivity).
  pose proof (byte_values _ H n Hn) as Hb. simpl in Hb. rewrite H0 in Hb.
  by destruct (n <? 64).
Qed.

Lemma wire_labels_length labels : Forall valid_label labels ->
  (length labels <= length (wire_labels labels))%nat.
Proof.
  induction 1 as [|l ls _ _ IH]; simpl; [lia|]. unfold wire_labels in *.
  simpl. rewrite length_app. lia.
Qed.

(** The loop reads back the labels of a name on the wire. *)
Lemma read_labels_wire fuel pre labels rest acc : Forall valid_label labels ->
  (length labels < fuel)%nat ->
  read_labels fuel (pre ++ wire_name labels ++ rest) (length pre) acc
  = PSome (acc ++ labels, length pre + length (wire_name labels))%nat.
Proof.
  intros Hl. revert fuel pre acc. induction Hl as [|l ls [Hlen Hutf] _ IH]; intros fuel pre acc Hf;
    (destruct fuel as [|fuel]; [simpl in Hf; lia|]); cbn [read_labels].
  - rewrite (proj2 (Nat.leb_gt _ _)) by (rewrite length_app; simpl; lia).
    rewrite (idx_Some _ _ Byte.x00) by by rewrite lookup_app_r, Nat.sub_diag by lia.
    cbn [mbind popt_bind]. change (u8 Byte.x00 =? 0) with true. cbn beta iota.
    by rewrite app_nil_r.
  - replace (wire_name (l :: ls)) with (as_u8 (blen l) :: l ++ wire_name ls)
      by (unfold wire_name, wire_labels; simpl; by rewrite <- app_assoc).
    set (data := pre ++ _). assert (length data = length pre + 1 + length l
      + length (wire_name ls) + length rest)%nat as Hd.
    { unfold data. rewrite !length_app. simpl. rewrite !length_app. lia. }
    rewrite (proj2 (Nat.leb_gt _ _)) by lia.
    rewrite (idx_Some _ _ (as_u8 (blen l)))
      by (unfold data; by rewrite lookup_app_r, Nat.sub_diag by lia).
    cbn [mbind popt_bind]. rewrite as_u8_small by lia.
    rewrite (proj2 (Z.eqb_neq (blen l) 0)), land_C0, Z.eqb_refl by lia. cbn [negb].
    replace (Z.to_nat (blen l)) with (length l) by (unfold blen; lia).
    rewrite (proj2 (Nat.ltb_ge _ _)) by lia. rewrite slice_ok by lia.
    cbn [mbind popt_bind].
    replace (take (length pre + 1 + length l - (length pre + 1)) (drop (length pre + 1) data)) with l.
    2: { unfold data. rewrite drop_app_ge by lia.
         replace (length pre + 1 - length pre)%nat with 1%nat by lia.
         replace (length pre + 1 + length l - (length pre + 1))%nat with (length l) by lia.
         simpl. rewrite <- app_assoc. by rewrite drop_0, take_app_length. }
    rewrite Hutf. simpl in Hf.
    replace data with ((pre ++ as_u8 (blen l) :: l) ++ wire_name ls ++ rest)
      by (unfold data; rewrite <- !app_assoc; simpl; by rewrite <- app_assoc).
    replace (length pre + 1 + length l)%nat with (length (pre ++ as_u8 (blen l) :: l))
      by (rewrite length_app; simpl; lia).
    rewrite IH by lia. rewrite <- app_assoc. simpl. f_equal. f_equal.
    simpl. rewrite !length_app. simpl. lia.
Qed.

(** Conversely, what the loop accepts is a name on the wire. *)
Lemma read_labels_inv fuel data pos acc labels pos' :
  read_labels fuel data pos acc = PSome (labels, pos') ->
  exists ls, labels = acc ++ ls /\ Forall valid_label ls /\
    drop pos data = wire_name ls ++ drop pos' data /\ (pos' <= length data)%nat /\
    (pos' = pos + length (wire_name ls))%nat.
Proof.
  revert pos acc. induction fuel as [|fuel IH]; intros pos acc; cbn [read_labels]; [done|].
  destruct (length data <=? pos)%nat eqn:Hpos; [done|]. apply Nat.leb_gt in Hpos.
  destruct (idx_lt data pos Hpos) as (b & -> & Hb). cbn [mbind popt_bind].
  assert (drop pos data = b :: drop (S pos) data) as Hdrop by by apply drop_S.
  pose proof (u8_range b) as Hrange.
  destruct (u8 b =? 0) eqn:H0; bool_prop.
  - intros [= <- <-]. exists []. rewrite app_nil_r, Hdrop. split_and!; [done|constructor| |lia|].
    + rewrite <- (as_u8_u8 b), H0. by replace (pos + 1)%nat with (S pos) by lia.
    + simpl. lia.
  - destruct (negb _) eqn:Hc; [done|]. bool_prop. apply land_C0_zero in Hc; [|done].
    destruct (length data <? _)%nat eqn:Hend; [done|]. apply Nat.ltb_ge in Hend.
    rewrite slice_ok by lia. cbn [mbind popt_bind].
    replace (pos + 1 + Z.to_nat (u8 b) - (pos + 1))%nat with (Z.to_nat (u8 b)) by lia.
    set (l := take _ _). destruct (utf8_valid l) eqn:Hutf; [|done].
    assert (length l = Z.to_nat (u8 b)) as Hl.
    { unfold l. rewrite length_take, length_drop. lia. }
    assert (blen l = u8 b) as Hbl by (unfold blen; lia).
    intros (ls & -> & Hls & Hd & Hle & Hp)%IH. exists (l :: ls).
    rewrite <- app_assoc. split_and!; [done| | |done|].
    + constructor; [|done]. split; [lia|done].
    + rewrite Hdrop. replace (wire_name (l :: ls)) with (b :: l ++ wire_name ls)
        by (unfold wire_name, wire_labels; simpl; rewrite <- app_assoc, Hbl; by rewrite as_u8_u8).
      simpl. f_equal. rewrite <- app_assoc, <- Hd.
      rewrite <- (take_drop (Z.to_nat (u8 b)) (drop (S pos) data)), drop_drop. f_equal.
      * unfold l. by replace (pos + 1)%nat with (S pos) by lia.
      * f_equal. lia.
    + rewrite Hp. unfold wire_name, wire_labels. simpl. rewrite !length_app. simpl. lia.
Qed.

Lemma read_labels_no_panic fuel data pos acc : (length data < pos + fuel)%nat -> (0 < fuel)%nat ->
  read_labels fuel data pos acc <> PPanic.
Proof.
  revert pos acc. induction fuel as [|fuel IH]; intros pos acc Hf H0; cbn [read_labels].
  - lia.
  - destruct (length data <=? pos)%nat eqn:Hpos; [done|]. apply Nat.leb_gt in Hpos.
    destruct (idx_lt data pos Hpos) as (b & -> & Hb). cbn [mbind popt_bind].
    repeat (case_if; [done|]).
    match goal with H : (length data <? _)%nat = false |- _ => apply Nat.ltb_ge in H end.
    rewrite slice_ok by lia. cbn [mbind popt_bind]. case_if; [|done]. apply IH; lia.
Qed.

(** ** Lemmas: encoding names *)

Lemma encode_fold buf labels :
  fold_left (fun buf label => (buf ++ [as_u8 (blen label)]) ++ label) labels buf
  = buf ++ wire_labels labels.
Proof.
  revert buf. induction labels as [|l ls IH]; intros buf; simpl; [by rewrite app_nil_r|].
  rewrite IH. unfold wire_labels. simpl. by rewrite <- !app_assoc.
Qed.

Lemma join_nil_iff labels : Forall valid_label labels ->
  join (str ".") labels = [] <-> labels = [].
Proof.
  intros H. split; [|by intros ->]. intros Hj. destruct labels as [|l ls]; [done|].
  inversion H as [|? ? [Hl _]]; subst. destruct l as [|b l]; [by rewrite blen_nil in Hl; lia|].
  by destruct ls.
Qed.

(** [encode_name] is the wire format of the labels. *)
Lemma encode_name_wire buf labels : Forall valid_label labels -> Forall dot_free labels ->
  encode_name buf (join (str ".") labels) = buf ++ wire_name labels.
Proof.
  intros Hv Hd. unfold encode_name, wire_name. case_bool_decide as Hj.
  - apply join_nil_iff in Hj as ->; done.
  - rewrite encode_fold. change (str ".") with ["."%byte]. rewrite split_join; [|by intros ->|done].
    by rewrite <- app_assoc.
Qed.

Lemma build_empty_wire id labels qtype : Forall valid_label labels -> Forall dot_free labels ->
  build_empty_response id (join (str ".") labels) qtype =
  be16 id ++ be16 0x8180 ++ be16 1 ++ be16 0 ++ be16 0 ++ be16 0
    ++ wire_name labels ++ be16 qtype ++ be16 1.
Proof.
  intros Hv Hd. unfold build_empty_response. rewrite encode_name_wire by done.
  simpl. by rewrite <- !app_assoc.
Qed.

Lemma build_a_wire id labels ip : Forall valid_label labels -> Forall dot_free labels ->
  build_a_response id (join (str ".") labels) ip =
  be16 id ++ be16 0x8180 ++ be16 1 ++ be16 1 ++ be16 0 ++ be16 0
    ++ wire_name labels ++ (be16 1 ++ be16 1
    ++ be16 0xC00C ++ be16 1 ++ be16 1 ++ be32 300 ++ be16 4 ++ ipv4_octets ip).
Proof.
  intros Hv Hd. unfold build_a_response. rewrite encode_name_wire by done.
  simpl. by rewrite <- !app_assoc.
Qed.

(** Reading a 16-bit field at the end of a known prefix. *)
Lemma read_u16_at data pos pre z rest : data = pre ++ be16 z ++ rest -> pos = length pre ->
  is_u16 z -> read_u16 data pos = PSome z.
Proof.
  intros -> -> Hz. unfold read_u16.
  rewrite (idx_Some _ (length pre) (as_u8 (Z.shiftr z 8))) by by apply list_lookup_middle.
  rewrite (idx_Some _ (length pre + 1) (as_u8 z)).
  2: { rewrite lookup_app_r by lia. by replace (length pre + 1 - length pre)%nat with 1%nat by lia. }
  cbn [mbind popt_bind]. by rewrite from_be16_be16.
Qed.

Lemma wire_fuel (pre : bytes) labels (rest : bytes) : Forall valid_label labels ->
  (length labels < S (length (pre ++ wire_name labels ++ rest)))%nat.
Proof.
  intros H%wire_labels_length. unfold wire_name. rewrite !length_app. lia.
Qed.

(** The name of a message that starts at offset 12. *)
Lemma read_labels_12 (hdr : bytes) labels rest : length hdr = 12%nat -> Forall valid_label labels ->
  let data := hdr ++ wire_name labels ++ rest in
  read_labels (S (length data)) data 12 [] = PSome (labels, 12 + length (wire_name labels))%nat.
Proof.
  intros Hh Hl data.
  pose proof (read_labels_wire _ hdr labels rest [] Hl (wire_fuel hdr labels rest Hl)) as H.
  by rewrite Hh in H.
Qed.

Lemma decode_common hdr labels q c : length hdr = 12%nat -> Forall valid_label labels ->
  is_u16 q -> is_u16 c -> forall rest,
  let data := hdr ++ wire_name labels ++ (be16 q ++ be16 c ++ rest) in
  let pos := (12 + length (wire_name labels))%nat in
  read_labels (S (length data)) data 12 [] = PSome (labels, pos) /\
  read_u16 data pos = PSome q /\ read_u16 data (pos + 2) = PSome c.
Proof.
  intros Hh Hl Hq Hc rest. split_and!.
  - by apply read_labels_12.
  - eapply (read_u16_at _ _ (hdr ++ wire_name labels)); [by rewrite <- app_assoc| |done].
    rewrite length_app. lia.
  - eapply (read_u16_at _ _ (hdr ++ wire_name labels ++ be16 q)); [by rewrite <- !app_assoc| |done].
    rewrite !length_app, length_be16. lia.
Qed.

Ltac u16_const := unfold is_u16; lia.

Lemma parse_query_accepts id flags qd counts labels qtype rest :
  is_u16 id -> is_u16 flags -> is_u16 qd -> is_u16 qtype ->
  Z.land flags 0x8000 = 0 -> qd <> 0 -> length counts = 6%nat ->
  Forall valid_label labels -> (2 <= length rest)%nat ->
  parse_query (wire_query id flags qd counts labels qtype rest)
  = PSome (id, join (str ".") labels, qtype).
Proof.
  intros Hid Hfl Hqd Hqt Hqr Hne Hc Hl Hr. unfold wire_query.
  do 6 (destruct counts as [|? counts]; [done|]). destruct counts; [|done].
  set (hdr := be16 id ++ be16 flags ++ be16 qd ++ [b; b0; b1; b2; b3; b4]).
  replace (be16 id ++ _) with (hdr ++ wire_name labels ++ be16 qtype ++ rest)
    by (unfold hdr; by rewrite <- !app_assoc).
  assert (length hdr = 12%nat) as Hh by done.
  set (data := hdr ++ _). assert (length data = 12 + length (wire_name labels) + 2 + length rest)%nat as Hd.
  { unfold data. rewrite !length_app, Hh. simpl. lia. }
  assert (read_u16 data (12 + length (wire_name labels)) = PSome qtype) as Hq.
  { apply (read_u16_at _ _ (hdr ++ wire_name labels) _ rest);
      [by rewrite <- app_assoc|rewrite length_app; lia|done]. }
  unfold read_u16 in Hq. unfold parse_query.
  rewrite (proj2 (Nat.ltb_ge _ _)) by lia.
  change (idx data 0) with (PSome (as_u8 (Z.shiftr id 8))). change (idx data 1) with (PSome (as_u8 id)).
  change (idx data 2) with (PSome (as_u8 (Z.shiftr flags 8))).
  change (idx data 3) with (PSome (as_u8 flags)).
  change (idx data 4) with (PSome (as_u8 (Z.shiftr qd 8))). change (idx data 5) with (PSome (as_u8 qd)).
  cbn [mbind popt_bind]. rewrite !from_be16_be16, Hqr, Z.eqb_refl by done. cbn [negb].
  rewrite (proj2 (Z.eqb_neq qd 0)) by done.
  pose proof (read_labels_12 hdr labels (be16 qtype ++ rest) Hh Hl) as Hrl.
  change (hdr ++ wire_name labels ++ be16 qtype ++ rest) with data in Hrl.
  cbv zeta in Hrl. rewrite Hrl. cbn [mbind popt_bind].
  rewrite (proj2 (Nat.ltb_ge _ _)) by lia.
  destruct (idx data (12 + _)) as [q0| |]; [|done..].
  destruct (idx data (12 + _ + 1)) as [q1| |]; [|done..]. simpl in Hq |- *. congruence.
Qed.

Lemma parse_query_inv data id domain qtype : parse_query data = PSome (id, domain, qtype) ->
  exists flags qd counts labels rest,
    data = wire_query id flags qd counts labels qtype rest /\
    (is_u16 id /\ is_u16 flags /\ is_u16 qd /\ is_u16 qtype) /\
    Z.land flags 0x8000 = 0 /\ qd <> 0 /\ length counts = 6%nat /\
    Forall valid_label labels /\ (2 <= length rest)%nat /\ domain = join (str ".") labels.
Proof.
  unfold parse_query. destruct (length data <? 12)%nat eqn:H12; [done|]. apply Nat.ltb_ge in H12.
  do 12 (destruct data as [|? data]; [simpl in H12; lia|]). clear H12.
  cbn [idx lookup list_lookup mbind popt_bind]. set (all := b :: _).
  case_if; [done|]. case_if; [done|]. bool_prop.
  destruct (read_labels _ _ _ _) as [[labels pos]| |] eqn:Hr; [|done..].
  apply read_labels_inv in Hr as (ls & -> & Hls & Hdrop & Hle & Hpos).
  cbn [mbind popt_bind]. destruct (length all <? pos + 4)%nat eqn:Hlen; [done|].
  apply Nat.ltb_ge in Hlen.
  destruct (idx_lt all pos ltac:(lia)) as (q0 & -> & Hq0).
  destruct (idx_lt all (pos + 1) ltac:(lia)) as (q1 & -> & Hq1).
  cbn [mbind popt_bind]. intros [= <- <- <-].
  exists (from_be16 b1 b2), (from_be16 b3 b4), [b5; b6; b7; b8; b9; b10], ls, (drop (pos + 2) all).
  split_and!; auto with rust.
  - unfold wire_query. rewrite !be16_from_be16.
    change (drop 12 all) with data in Hdrop. unfold all at 1. simpl. do 12 f_equal.
    rewrite Hdrop. f_equal. rewrite (drop_S _ _ _ Hq0).
    replace (pos + 1)%nat with (S pos) in Hq1 by lia. rewrite (drop_S _ _ _ Hq1).
    by replace (pos + 2)%nat with (S (S pos)) by lia.
  - rewrite length_drop. lia.
Qed.

Lemma parse_query_no_panic data : parse_query data <> PPanic.
Proof.
  intros E. unfold parse_query in E. destruct (length data <? 12)%nat eqn:H12; [done|].
  apply Nat.ltb_ge in H12.
  destruct (idx_lt data 0) as (?&H0&_); [lia|]. destruct (idx_lt data 1) as (?&H1&_); [lia|].
  destruct (idx_lt data 2) as (?&H2&_); [lia|]. destruct (idx_lt data 3) as (?&H3&_); [lia|].
  destruct (idx_lt data 4) as (?&H4&_); [lia|]. destruct (idx_lt data 5) as (?&H5&_); [lia|].
  rewrite H0, H1, H2, H3, H4, H5 in E. cbn [mbind popt_bind] in E.
  case_if; [done|]. case_if; [done|].
  destruct (read_labels _ _ _ _) as [[labels pos]| |] eqn:Hr; [|done|].
  + apply read_labels_inv in Hr as (ls & -> & _ & _ & Hle & _). cbn [mbind popt_bind] in E.
    destruct (length data <? pos + 4)%nat eqn:Hlen; [done|]. apply Nat.ltb_ge in Hlen.
    destruct (idx_lt data pos) as (?&H6&_); [lia|].
    destruct (idx_lt data (pos + 1)) as (?&H7&_); [lia|].
    rewrite H6, H7 in E. done.
  + by apply read_labels_no_panic in Hr; [| |]; lia.
Qed.

(** [parse_query] is total on every datagram: no index or range is out of
    bounds and the label loop ends; what it returns are 16-bit fields and a
    domain that is well-formed UTF-8 (so it is a [String]). *)
Theorem parse_query_total data :
  match parse_query data with
  | PPanic => False
  | PNone => True
  | PSome (id, domain, qtype) => is_u16 id /\ is_u16 qtype /\ utf8_valid domain = true
  end.
Proof.
  destruct (parse_query data) as [[[id domain] qtype]| |] eqn:E; [|done|].
  - apply parse_query_inv in E as (?&?&?&labels&?&_&(?&_&_&?)&_&_&_&Hl&_&->).
    split_and!; [done..|]. apply utf8_valid_join; [done|].
    eapply Forall_impl; [done|]. by intros l [_ ?].
  - by apply parse_query_no_panic in E.
Qed.

(** C24. [parse_query] never panics, and accepts exactly the queries on the wire:
    a header with QR clear and at least one question, a name of 1- to 63-byte
    UTF-8 labels, a type and two more bytes; it returns the id, the dotted name
    and the type. *)
Theorem parse_query_spec data :
  parse_query data <> PPanic /\
  forall id domain qtype,
    parse_query data = PSome (id, domain, qtype) <->
    exists flags qd counts labels rest,
      data = wire_query id flags qd counts labels qtype rest /\
      (is_u16 id /\ is_u16 flags /\ is_u16 qd /\ is_u16 qtype) /\
      Z.land flags 0x8000 = 0 /\ qd <> 0 /\ length counts = 6%nat /\
      Forall valid_label labels /\ (2 <= length rest)%nat /\ domain = join (str ".") labels.
Proof.
  split; [intros E; by apply parse_query_no_panic in E|]. intros id domain qtype.
  split; [apply parse_query_inv|].
  intros (?&?&?&?&?&->&(?&?&?&?)&?&?&?&?&?&->). by apply parse_query_accepts.
Qed.

(** The header fields of a response. *)
Lemma read_header id fl qd an rest : is_u16 id -> is_u16 fl -> is_u16 qd -> is_u16 an ->
  let data := be16 id ++ be16 fl ++ be16 qd ++ be16 an ++ rest in
  read_u16 data 0 = PSome id /\ read_u16 data 2 = PSome fl /\
  read_u16 data 4 = PSome qd /\ read_u16 data 6 = PSome an.
Proof.
  intros ???? data. split_and!.
  - by apply (read_u16_at _ _ [] _ (drop 2 data)).
  - by apply (read_u16_at _ _ (be16 id) _ (drop 4 data)).
  - by apply (read_u16_at _ _ (be16 id ++ be16 fl) _ (drop 6 data)).
  - by apply (read_u16_at _ _ (be16 id ++ be16 fl ++ be16 qd) _ rest).
Qed.

(** The fields of the answer section that [build_a_response] writes. *)
Lemma read_answer_a (pre : bytes) labels ip (n : nat) : length pre = n ->
  let ans := be16 0xC00C ++ be16 1 ++ be16 1 ++ be32 300 ++ be16 4 ++ ipv4_octets ip in
  let data := pre ++ ans in
  (exists pos, read_labels (S (length data)) data 12 [] = PSome (labels, pos)) ->
  read_answer data n = PSome (mkAnswer labels 1 1 300 (ipv4_octets ip)).
Proof.
  intros Hn ans data [pos Hl].
  assert (forall k p z rest, length p = k -> is_u16 z -> ans = p ++ be16 z ++ rest ->
    read_u16 data (n + k) = PSome z) as Hans.
  { intros k p z rest Hk Hz Ha. apply (read_u16_at _ _ (pre ++ p) _ rest);
      [|rewrite length_app; lia|done]. unfold data. rewrite Ha. by rewrite <- app_assoc. }
  unfold read_answer. pose proof (Hans 0%nat [] 0xC00C _ eq_refl ltac:(u16_const) eq_refl) as H0.
  rewrite Nat.add_0_r in H0. rewrite H0. cbn [mbind popt_bind].
  change (negb (Z.land 0xC00C 0xC000 =? 0xC000)) with false. cbn beta iota.
  change (Z.to_nat (Z.land 0xC00C 0x3FFF)) with 12%nat. rewrite Hl. cbn [mbind popt_bind].
  rewrite (Hans 2%nat (take 2 ans) 1 (drop 4 ans) eq_refl ltac:(u16_const) eq_refl).
  rewrite (Hans 4%nat (take 4 ans) 1 (drop 6 ans) eq_refl ltac:(u16_const) eq_refl).
  rewrite (Hans 6%nat (take 6 ans) 0 (drop 8 ans) eq_refl ltac:(u16_const) eq_refl).
  rewrite (Hans 8%nat (take 8 ans) 300 (drop 10 ans) eq_refl ltac:(u16_const) eq_refl).
  rewrite (Hans 10%nat (take 10 ans) 4 (drop 12 ans) eq_refl ltac:(u16_const) eq_refl).
  cbn [mbind popt_bind]. change (Z.to_nat 4) with 4%nat.
  assert (length data = n + 16)%nat as Hlen by (unfold data; rewrite length_app; simpl; lia).
  rewrite slice_ok by lia. cbn [mbind popt_bind]. do 2 f_equal. unfold data.
  rewrite drop_app_ge by lia. replace (n + 12 - length pre)%nat with 12%nat by lia.
  by replace (n + 12 + 4 - (n + 12))%nat with 4%nat by lia.
Qed.

Lemma decode_a_response id labels ip : is_u16 id ->
  Forall valid_label labels -> Forall dot_free labels ->
  decode_response (build_a_response id (join (str ".") labels) ip)
  = PSome (mkResponse id 0x8180 labels 1 1 [mkAnswer labels 1 1 300 (ipv4_octets ip)]).
Proof.
  intros Hid Hv Hd. rewrite build_a_wire by done.
  set (hdr := be16 id ++ be16 0x8180 ++ be16 1 ++ be16 1 ++ be16 0 ++ be16 0).
  set (ans := be16 0xC00C ++ _).
  destruct (read_header id 0x8180 1 1 (be16 0 ++ be16 0 ++ wire_name labels ++ be16 1 ++ be16 1 ++ ans))
    as (H0 & H2 & H4 & H6); [done|u16_const..|].
  destruct (decode_common hdr labels 1 1 eq_refl Hv ltac:(u16_const) ltac:(u16_const) ans)
    as (Hl & Hq & Hc).
  change (hdr ++ ?x) with (be16 id ++ be16 0x8180 ++ be16 1 ++ be16 1 ++ be16 0 ++ be16 0 ++ x)
    in Hl, Hq, Hc.
  set (data := be16 id ++ _ ++ _ ++ _ ++ _ ++ _ ++ wire_name labels ++ _) in *.
  unfold decode_response. rewrite H0, H2, H4, H6. cbn [mbind popt_bind].
  change (negb (1 =? 1)) with false. cbn beta iota.
  rewrite Hl. cbn [mbind popt_bind]. rewrite Hq, Hc. cbn [mbind popt_bind].
  change (1 =? 0) with false. cbn beta iota.
  set (pre := hdr ++ wire_name labels ++ be16 1 ++ be16 1).
  assert (data = pre ++ ans) as Hdata by (unfold pre; rewrite <- !app_assoc; reflexivity).
  rewrite Hdata in Hl |- *. rewrite (read_answer_a pre labels ip); [done| |eauto].
  unfold pre. rewrite !length_app. simpl. lia.
Qed.

Lemma decode_empty_response id labels qtype : is_u16 id -> is_u16 qtype ->
  Forall valid_label labels -> Forall dot_free labels ->
  decode_response (build_empty_response id (join (str ".") labels) qtype)
  = PSome (mkResponse id 0x8180 labels qtype 1 []).
Proof.
  intros Hid Hqt Hv Hd. rewrite build_empty_wire by done.
  set (hdr := be16 id ++ be16 0x8180 ++ be16 1 ++ be16 0 ++ be16 0 ++ be16 0).
  destruct (read_header id 0x8180 1 0 (be16 0 ++ be16 0 ++ wire_name labels ++ be16 qtype ++ be16 1))
    as (H0 & H2 & H4 & H6); [done|u16_const..|].
  destruct (decode_common hdr labels qtype 1 eq_refl Hv Hqt ltac:(u16_const) []) as (Hl & Hq & Hc).
  rewrite app_nil_r in Hl, Hq, Hc.
  change (hdr ++ ?x) with (be16 id ++ be16 0x8180 ++ be16 1 ++ be16 0 ++ be16 0 ++ be16 0 ++ x)
    in Hl, Hq, Hc.
  set (data := be16 id ++ _ ++ _ ++ _ ++ _ ++ _ ++ wire_name labels ++ _) in *.
  unfold decode_response. rewrite H0, H2, H4, H6. cbn [mbind popt_bind].
  change (negb (1 =? 1)) with false. cbn beta iota.
  rewrite Hl. cbn [mbind popt_bind]. by rewrite Hq, Hc.
Qed.

(** C25. Round trip of the responses: a resolver that decodes [build_a_response]
    reads the id, the question and one A/IN record for the same name (through
    the compression pointer) with TTL 300 and the address; [build_empty_response]
    decodes to the question with its type and no answer. *)
Theorem build_response_decodes id labels ip qtype : is_u16 id -> is_u16 qtype ->
  Forall valid_label labels -> Forall dot_free labels ->
  decode_response (build_a_response id (join (str ".") labels) ip)
  = PSome (mkResponse id 0x8180 labels 1 1 [mkAnswer labels 1 1 300 (ipv4_octets ip)]) /\
  decode_response (build_empty_response id (join (str ".") labels) qtype)
  = PSome (mkResponse id 0x8180 labels qtype 1 []).
Proof.
  intros. split; [by apply decode_a_response|by apply decode_empty_response].
Qed.

Lemma valid_label_ascii s : Forall (fun b => u8 b < 128) (str s) -> 1 <= blen (str s) <= 63 ->
  valid_label (str s).
Proof. intros Hs Hl. split; [done|]. by apply utf8_valid_ascii. Qed.

Lemma build_response_decodes_witness :
  decode_response (build_a_response 0xCAFE (join (str ".") [str "roundtrip"; str "test"]) Pool.POOL_START)
  = PSome (mkResponse 0xCAFE 0x8180 [str "roundtrip"; str "test"] 1 1
      [mkAnswer [str "roundtrip"; str "test"] 1 1 300 (ipv4_octets Pool.POOL_START)]).
Proof.
  apply (build_response_decodes 0xCAFE [str "roundtrip"; str "test"] Pool.POOL_START 1);
    [u16_const|u16_const| |].
  - repeat constructor; try (vm_compute; done).
  - repeat constructor; by_decide.
Defined.

End Wire.
