(* ===== verification/ProxyConfig.v ===== *)
(** * Routes and connection targets (src/src/proxy/mod.rs, the configuration half)

    [ProxyConfig::parse] with its error cases, the two [Display]
    implementations, and the grammar of route specifications that [parse] is
    proved to accept exactly. *)

From S2P Require Import Prelude RustStr RustNet.

Inductive ProxyConfig : Type :=
| Direct
| Socks5 (addr : bytes) (auth : option (bytes * bytes))
| Http (addr : bytes) (auth : option (bytes * bytes)).

#[global] Instance ProxyConfig_eq_dec : EqDecision ProxyConfig.
Proof. solve_decision. Defined.

Inductive proxy_error : Type :=
| UnsupportedProxy (value : bytes)
| EmptyUsername
| InvalidAddress (host_port : bytes)
| InvalidHostname (host : bytes)
| InvalidPort (port : bytes).

Inductive Kind : Type := KSocks5 | KHttp.

(** The scheme of a proxy URL and what follows it. *)
Definition parse_scheme (value : bytes) : result proxy_error (Kind * bytes) :=
  match strip_prefix (str "socks5://") value with
  | Some rest => Ok (KSocks5, rest)
  | None =>
  match strip_prefix (str "socks://") value with
  | Some rest => Ok (KSocks5, rest)
  | None =>
  match strip_prefix (str "http://") value with
  | Some rest => Ok (KHttp, rest)
  | None => Err (UnsupportedProxy value)
  end end end.

(** The credentials and the address: everything up to the last [@]. *)
Definition parse_auth (rest : bytes) : result proxy_error (option (bytes * bytes) * bytes) :=
  match rfind "@"%byte rest with
  | Some at_pos =>
      let auth_str := take at_pos rest in
      let host_port := drop (at_pos + 1) rest in
      let parts := splitn 2 ":"%byte auth_str in
      let user := default [] (parts !! 0%nat) in
      let pass := default [] (parts !! 1%nat) in
      if bool_decide (user = []) then Err EmptyUsername
      else Ok (Some (user, pass), host_port)
  | None => Ok (None, rest)
  end.

(** The check of [host_port]: a socket address, or a host name and a port. *)
Definition check_host_port (host_port : bytes) : result proxy_error unit :=
  match parse_socket_addr host_port with
  | Some _ => Ok ()
  | None =>
      '(host, port) ← ok_or (rsplit_once ":"%byte host_port) (InvalidAddress host_port);
      if bool_decide (host = []) || contains_any (str ":/?#[]") host || any_whitespace host
      then Err (InvalidHostname host)
      else _ ← ok_or (parse_u16 port) (InvalidPort port); Ok ()
  end.

(** [ProxyConfig::parse] *)
Definition parse (value : bytes) : result proxy_error ProxyConfig :=
  if bool_decide (value = str "direct") then Ok Direct else
  '(kind, rest) ← parse_scheme value;
  '(auth, host_port) ← parse_auth rest;
  _ ← check_host_port host_port;
  let addr := host_port in
  Ok (match kind with
      | KSocks5 => Socks5 addr auth
      | KHttp => Http addr auth
      end).

(** [impl Display for ProxyConfig]: the credentials are not shown. *)
Definition display_config (c : ProxyConfig) : bytes :=
  match c with
  | Direct => str "direct"
  | Socks5 addr _ => str "socks5://" ++ addr
  | Http addr _ => str "http://" ++ addr
  end.

Inductive ProxyTarget : Type :=
| Domain (host : bytes) (port : Z)
| Ip (addr : ip_addr) (port : Z).

#[global] Instance ProxyTarget_eq_dec : EqDecision ProxyTarget.
Proof. solve_decision. Defined.

(** [impl Display for ProxyTarget] *)
Definition display_target (t : ProxyTarget) : bytes :=
  match t with
  | Domain host port => host ++ str ":" ++ dec port
  | Ip addr port => display_ip addr ++ str ":" ++ dec port
  end.

(** ** The grammar of route specifications *)

(** An address [parse] accepts: a literal socket address, or a non-empty host
    without URL delimiters and white space, followed by a 16-bit port. *)
Definition valid_addr (addr : bytes) : Prop :=
  is_Some (parse_socket_addr addr) \/
  exists host port n, addr = host ++ ":"%byte :: port /\ ":"%byte ∉ port /\
    host <> [] /\ contains_any (str ":/?#[]") host = false /\ any_whitespace host = false /\
    parse_u16 port = Some n.

(** The text before the address: nothing, or the credentials and [@]. *)
Inductive auth_text : option (bytes * bytes) -> bytes -> Prop :=
| auth_none : auth_text None []
| auth_user user : user <> [] -> ":"%byte ∉ user -> auth_text (Some (user, [])) (user ++ str "@")
| auth_pass user pass : user <> [] -> ":"%byte ∉ user ->
    auth_text (Some (user, pass)) (user ++ ":"%byte :: pass ++ str "@").

Inductive route_text : ProxyConfig -> bytes -> Prop :=
| rt_direct : route_text Direct (str "direct")
| rt_socks5 scheme auth a addr : scheme ∈ [str "socks5://"; str "socks://"] ->
    auth_text auth a -> "@"%byte ∉ addr -> valid_addr addr ->
    route_text (Socks5 addr auth) (scheme ++ a ++ addr)
| rt_http auth a addr : auth_text auth a -> "@"%byte ∉ addr -> valid_addr addr ->
    route_text (Http addr auth) (str "http://" ++ a ++ addr).

(** ** Lemmas *)

Lemma check_host_port_ok addr : check_host_port addr = Ok () <-> valid_addr addr.
Proof.
  unfold check_host_port, valid_addr. destruct (parse_socket_addr addr) as [sa|].
  { split; [intros _; left; eauto|done]. }
  destruct (rsplit_once ":"%byte addr) as [[host port]|] eqn:E; cbn [ok_or mbind result_bind].
  - apply rsplit_once_Some in E as [-> Hport]. split.
    + intros H. case_if; [done|]. destruct (parse_u16 port) as [n|] eqn:Hn; [|done].
      bool_prop. right. exists host, port, n. done.
    + intros [[? [=]]|(h&p&n&Heq&Hp&Hne&Hc&Hw&Hn)].
      assert (Some (h, p) = Some (host, port)) as [= -> ->].
      { rewrite <- (rsplit_once_app ":"%byte h p) by done. rewrite <- Heq.
        by apply rsplit_once_app. }
      rewrite bool_decide_eq_false_2 by done. rewrite Hc, Hw. simpl. by rewrite Hn.
  - apply rsplit_once_None in E. split; [done|].
    intros [[? [=]]|(h&p&n&->&_)]. set_solver.
Qed.

Lemma rfind_at l r : "@"%byte ∉ r ->
  rfind "@"%byte (l ++ str "@" ++ r) = Some (length l) /\
  take (length l) (l ++ str "@" ++ r) = l /\ drop (length l + 1) (l ++ str "@" ++ r) = r.
Proof.
  intros Hr. unfold rfind. change (str "@" ++ r) with ("@"%byte :: r).
  rewrite rsplit_once_app by done. split_and!; [done|by rewrite take_app_length|].
  rewrite drop_app_ge by lia. by replace (length l + 1 - length l)%nat with 1%nat by lia.
Qed.

Lemma parse_auth_ok rest auth addr : parse_auth rest = Ok (auth, addr) <->
  exists a, auth_text auth a /\ "@"%byte ∉ addr /\ rest = a ++ addr.
Proof.
  unfold parse_auth. destruct (rfind "@"%byte rest) as [n|] eqn:E.
  - unfold rfind in E. destruct (rsplit_once "@"%byte rest) as [[l r]|] eqn:E2; [|done].
    injection E as <-. apply rsplit_once_Some in E2 as [-> Hr].
    destruct (rfind_at l r Hr) as (_ & Ht & Hd). change ("@"%byte :: r) with (str "@" ++ r).
    rewrite Ht, Hd. cbn [splitn]. split.
    + intros H. case_if; [done|]. bool_prop. injection H as <- <-.
      destruct (split_once ":"%byte l) as [[u p]|] eqn:Eu; simpl in *.
      * apply split_once_Some in Eu as [-> Hu]. exists (u ++ ":"%byte :: p ++ str "@").
        split_and!; [by constructor|done|]. by rewrite <- !app_assoc; simpl; rewrite <- app_assoc.
      * apply split_once_None in Eu. exists (l ++ str "@").
        split_and!; [by constructor|done|]. by rewrite <- app_assoc.
    + intros (a & Ha & Haddr & Heq).
      inversion Ha as [|u Hu Hc|u p Hu Hc]; subst.
      * simpl in Heq. exfalso. apply Haddr. rewrite <- Heq. change (str "@") with ["@"%byte]. set_solver.
      * rewrite <- app_assoc in Heq.
        assert (Some (l, r) = Some (u, addr)) as [= -> ->].
        { rewrite <- (rsplit_once_app "@"%byte u addr) by done.
          rewrite <- (rsplit_once_app "@"%byte l r) by done. by simpl in Heq |- *; rewrite Heq. }
        apply split_once_None in Hc. rewrite Hc. simpl. by rewrite bool_decide_eq_false_2.
      * assert (l ++ str "@" ++ r = (u ++ ":"%byte :: p) ++ str "@" ++ addr) as Heq'
          by (rewrite Heq, <- !app_assoc; simpl; by rewrite <- app_assoc).
        assert (Some (l, r) = Some (u ++ ":"%byte :: p, addr)) as [= -> ->].
        { rewrite <- (rsplit_once_app "@"%byte (u ++ _) addr) by done.
          rewrite <- (rsplit_once_app "@"%byte l r) by done. by simpl in Heq' |- *; rewrite Heq'. }
        rewrite split_once_app by done. simpl. by rewrite bool_decide_eq_false_2.
  - unfold rfind in E. destruct (rsplit_once "@"%byte rest) as [[l r]|] eqn:E2; [done|].
    apply rsplit_once_None in E2. split.
    + intros [= <- <-]. exists []. split_and!; [constructor|done|done].
    + intros (a & Ha & Haddr & ->). inversion Ha; subst; change (str "@") with ["@"%byte] in *; [done|set_solver..].
Qed.

(** The schemes exclude each other. *)
Lemma parse_scheme_ok value kind rest : parse_scheme value = Ok (kind, rest) <->
  match kind with
  | KSocks5 => value = str "socks5://" ++ rest \/ value = str "socks://" ++ rest
  | KHttp => value = str "http://" ++ rest
  end.
Proof.
  unfold parse_scheme.
  destruct (strip_prefix (str "socks5://") value) as [r|] eqn:E1.
  { apply strip_prefix_Some in E1 as ->. destruct kind; simpl; naive_solver. }
  destruct (strip_prefix (str "socks://") value) as [r|] eqn:E2.
  { apply strip_prefix_Some in E2 as ->. destruct kind; simpl; naive_solver. }
  assert (forall r, value <> str "socks5://" ++ r) by (intros r ->; by rewrite strip_prefix_app in E1).
  assert (forall r, value <> str "socks://" ++ r) by (intros r ->; by rewrite strip_prefix_app in E2).
  destruct (strip_prefix (str "http://") value) as [r|] eqn:E3.
  { apply strip_prefix_Some in E3 as ->. destruct kind; simpl; naive_solver. }
  assert (forall r, value <> str "http://" ++ r) by (intros r ->; by rewrite strip_prefix_app in E3).
  destruct kind; naive_solver.
Qed.

Lemma parse_ok_route v c : parse v = Ok c -> route_text c v.
Proof.
  unfold parse. case_bool_decide as Hd; [intros [= <-]; subst; constructor|].
  destruct (parse_scheme v) as [[k rest]|] eqn:E1; cbn [mbind result_bind]; [|done].
  destruct (parse_auth rest) as [[auth addr]|] eqn:E2; cbn [mbind result_bind]; [|done].
  destruct (check_host_port addr) as [[]|] eqn:E3; cbn [mbind result_bind]; [|done].
  intros [= <-]. apply parse_auth_ok in E2 as (a & Ha & Haddr & ->).
  apply check_host_port_ok in E3. apply parse_scheme_ok in E1. destruct k.
  - destruct E1 as [-> | ->]; apply rt_socks5; set_solver.
  - subst. by apply rt_http.
Qed.

Lemma route_parse_ok v c : route_text c v -> parse v = Ok c.
Proof.
  assert (forall kind rest v auth addr, parse_scheme v = Ok (kind, rest) ->
    parse_auth rest = Ok (auth, addr) -> valid_addr addr -> v <> str "direct" ->
    parse v = Ok (match kind with KSocks5 => Socks5 addr auth | KHttp => Http addr auth end)) as H.
  { intros kind rest v' auth addr H1 H2 H3%check_host_port_ok Hne. unfold parse.
    rewrite bool_decide_eq_false_2 by done. rewrite H1. cbn [mbind result_bind].
    rewrite H2. cbn [mbind result_bind]. by rewrite H3. }
  destruct 1 as [|scheme auth a addr Hs Ha Hat Hv|auth a addr Ha Hat Hv]; [done| |].
  - eapply (H KSocks5 (a ++ addr)); [|apply parse_auth_ok; eauto|done|].
    + apply parse_scheme_ok. set_solver.
    + intros Heq. apply list_elem_of_In in Hs. destruct Hs as [<-|[<-|[]]]; done.
  - by eapply (H KHttp (a ++ addr)); [apply parse_scheme_ok|apply parse_auth_ok; eauto|..].
Qed.

(** C39. [ProxyConfig::parse] accepts exactly the route grammar: [direct], or a
    [socks5://], [socks://] or [http://] URL whose credentials end at the last
    [@] and whose address is a socket address or a host name with a 16-bit
    port; and it returns the parts of that text. *)
Theorem parse_route_spec v c : parse v = Ok c <-> route_text c v.
Proof. split; [apply parse_ok_route|apply route_parse_ok]. Qed.

Example parse_examples :
  parse (str "http://us:er:p@ss@[::1]:8080")
    = Ok (Http (str "[::1]:8080") (Some (str "us", str "er:p@ss")))
  /\ parse (str "socks://localhost:1080") = Ok (Socks5 (str "localhost:1080") None)
  /\ parse (str "http://:80") = Err (InvalidHostname [])
  /\ parse (str "http://host:65536") = Err (InvalidPort (str "65536"))
  /\ parse (str "http://::1:80") = Err (InvalidHostname (str "::1"))
  /\ parse (str "socks5://not-an-address") = Err (InvalidAddress (str "not-an-address"))
  /\ parse (str "ftp://127.0.0.1:21") = Err (UnsupportedProxy (str "ftp://127.0.0.1:21"))
  /\ parse (str "http://:pw@h:1") = Err EmptyUsername.
Proof. split_and!; vm_compute; reflexivity. Qed.
