(* ===== verification/Rule.v ===== *)
(** * Routing rules (src/src/rule.rs)

    [Trie] is the [PrefixTrie] with its longest-prefix specification, the rest
    of the file [RuleMatch::parse], [RuleMatcher::from_specs] and the two
    queries.  The [regex] crate is the interface [RegexEngine]; what the rules
    rely on of it is [RegexLaws]. *)

From S2P Require Import Prelude RustStr RustNet ProxyConfig.

Record MatchAction : Type := mkAction { proxy : ProxyConfig }.

Module Trie.

Inductive PrefixTrie : Type :=
| Node (child0 child1 : option PrefixTrie) (action : option MatchAction).

(** [PrefixTrie::default()] *)
Definition empty : PrefixTrie := Node None None None.

Definition action (t : PrefixTrie) : option MatchAction := let '(Node _ _ a) := t in a.

(** [node.children[bit]] *)
Definition child (bit : Z) (t : PrefixTrie) : option PrefixTrie :=
  let '(Node c0 c1 _) := t in if bit =? 0 then c0 else c1.

Definition set_child (bit : Z) (c : PrefixTrie) (t : PrefixTrie) : PrefixTrie :=
  let '(Node c0 c1 a) := t in
  if bit =? 0 then Node (Some c) c1 a else Node c0 (Some c) a.

Definition set_action (act : MatchAction) (t : PrefixTrie) : PrefixTrie :=
  let '(Node c0 c1 a) := t in
  match a with None => Node c0 c1 (Some act) | Some _ => t end.

(** [((value >> (31 - i)) & 1) as usize] *)
Definition bit_at (value i : Z) : Z := Z.land (Z.shiftr value (31 - i)) 1.

(** The descent of [insert] from bit [i], with [k] bits of the prefix left. *)
Fixpoint insert_loop (k : nat) (i value : Z) (act : MatchAction) (node : PrefixTrie) : PrefixTrie :=
  match k with
  | O => set_action act node
  | S k =>
      let bit := bit_at value i in
      let next := default empty (child bit node) in
      set_child bit (insert_loop k (i + 1) value act next) node
  end.

Definition insert (self : PrefixTrie) (value prefix : Z) (act : MatchAction) : PrefixTrie :=
  insert_loop (Z.to_nat prefix) 0 value act self.

(** The descent of [get] from bit [i], with [k] iterations left. *)
Fixpoint get_loop (k : nat) (i value : Z) (node : PrefixTrie) (best : option MatchAction)
    : option MatchAction :=
  match k with
  | O => best
  | S k =>
      match child (bit_at value i) node with
      | None => best
      | Some node =>
          get_loop k (i + 1) value node
            (match action node with Some _ => action node | None => best end)
      end
  end.

Definition get (self : PrefixTrie) (value : Z) : option MatchAction :=
  get_loop 32 0 value self (action self).

(** ** Specification: longest prefix, first rule on a tie *)

Record ip_rule : Type := mkIpRule { r_value : Z; r_prefix : Z; r_action : MatchAction }.

Definition wf_rule (r : ip_rule) : Prop := is_u32 (r_value r) /\ 0 <= r_prefix r <= 32.

(** The address and the rule's network agree on the first [prefix] bits. *)
Definition rule_matches (r : ip_rule) (v : Z) : Prop :=
  Z.shiftr v (32 - r_prefix r) = Z.shiftr (r_value r) (32 - r_prefix r).

Definition is_lpm (rules : list ip_rule) (v : Z) (res : option MatchAction) : Prop :=
  match res with
  | None => forall r, r ∈ rules -> ~ rule_matches r v
  | Some a => exists i r, rules !! i = Some r /\ r_action r = a /\ rule_matches r v /\
      forall j r', rules !! j = Some r' -> rule_matches r' v ->
        r_prefix r' < r_prefix r \/ (r_prefix r' = r_prefix r /\ (i <= j)%nat)
  end.

Definition insert_all (t : PrefixTrie) (rules : list ip_rule) : PrefixTrie :=
  fold_left (fun t r => insert t (r_value r) (r_prefix r) (r_action r)) rules t.

(** ** Lemmas: the node at a path *)

(** The first [k] bits of a value from bit [i] on. *)
Fixpoint path (k : nat) (i v : Z) : list bool :=
  match k with
  | O => []
  | S k => Z.testbit v (31 - i) :: path k (i + 1) v
  end.

Fixpoint node_action (bits : list bool) (t : PrefixTrie) : option MatchAction :=
  match bits with
  | [] => action t
  | b :: bits => c ← child (Z.b2z b) t; node_action bits c
  end.

Definition rule_path (r : ip_rule) : list bool := path (Z.to_nat (r_prefix r)) 0 (r_value r).

Lemma bit_at_testbit v i : i <= 31 -> bit_at v i = Z.b2z (Z.testbit v (31 - i)).
Proof.
  intros Hi. unfold bit_at. change 1 with (Z.ones 1). rewrite Z.land_ones by lia.
  rewrite Z.shiftr_div_pow2 by lia. change (2 ^ 1) with 2. symmetry. apply Z.testbit_spec'. lia.
Qed.

Lemma child_set_child b b' c t :
  child (Z.b2z b) (set_child (Z.b2z b') c t) = if decide (b = b') then Some c else child (Z.b2z b) t.
Proof. destruct t as [c0 c1 a], b, b'; reflexivity. Qed.

Lemma action_set_child b c t : action (set_child b c t) = action t.
Proof. destruct t. unfold set_child. by destruct (b =? 0). Qed.

Lemma node_action_empty bits : node_action bits empty = None.
Proof. by destruct bits as [|[]]. Qed.

Lemma node_action_default bits b t :
  node_action bits (default empty (child b t)) = (c ← child b t; node_action bits c).
Proof. destruct (child b t); simpl; [done|apply node_action_empty]. Qed.

(** [insert] changes only the node of its prefix, and only when that node had
    no action. *)
Lemma node_action_insert k i v act t bits : i + Z.of_nat k <= 32 ->
  node_action bits (insert_loop k i v act t) =
  if decide (bits = path k i v)
  then Some (default act (node_action bits t)) else node_action bits t.
Proof.
  revert i t bits. induction k as [|k IH]; intros i t bits Hk; simpl.
  - destruct t as [c0 c1 a], bits as [|b bits]; simpl; by destruct a.
  - rewrite bit_at_testbit by lia. destruct bits as [|b bits]; simpl; [by rewrite action_set_child|].
    rewrite child_set_child. destruct (decide (b = Z.testbit v (31 - i))) as [->|Hb].
    + simpl. rewrite IH by lia. rewrite node_action_default.
      destruct (decide (bits = path k (i + 1) v)) as [->|Hne].
      * by rewrite decide_True.
      * rewrite decide_False; [done|congruence].
    + rewrite decide_False; [done|congruence].
Qed.

(** [get] finds the deepest node with an action on the path of the value. *)
Lemma get_loop_spec k i v t best : i + Z.of_nat k <= 32 ->
  let res := get_loop k i v t best in
  (exists j, (1 <= j <= k)%nat /\ is_Some res /\ node_action (path j i v) t = res /\
     forall j', (j < j' <= k)%nat -> node_action (path j' i v) t = None) \/
  (res = best /\ forall j, (1 <= j <= k)%nat -> node_action (path j i v) t = None).
Proof.
  revert i t best. induction k as [|k IH]; intros i t best Hk; cbn zeta.
  - right. split; [done|lia].
  - simpl. rewrite bit_at_testbit by lia. destruct (child _ t) as [c|] eqn:Hc.
    2: { right. split; [done|]. intros [|j] Hj; [lia|]. simpl. by rewrite Hc. }
    destruct (IH (i + 1) c (match action c with Some _ => action c | None => best end))
      as [(j & Hj & Hs & Hn & Hd)|[Hr Hd]]; [lia| |].
    + left. exists (S j). split_and!; [lia|lia|done| |].
      * simpl. by rewrite Hc.
      * intros [|j'] Hj'; [lia|]. simpl. rewrite Hc. apply Hd. lia.
    + rewrite Hr. destruct (action c) as [a|] eqn:Ha.
      * left. exists 1%nat. split_and!; [lia|lia|done|simpl; by rewrite Hc|].
        intros [|j'] Hj'; [lia|]. simpl. rewrite Hc. apply Hd. lia.
      * right. split; [done|]. intros [|[|j]] Hj; [lia|simpl; by rewrite Hc|].
        simpl. rewrite Hc. exact (Hd (S j) ltac:(lia)).
Qed.

Lemma get_spec t v :
  (exists j, (j <= 32)%nat /\ is_Some (get t v) /\ node_action (path j 0 v) t = get t v /\
     forall j', (j < j' <= 32)%nat -> node_action (path j' 0 v) t = None) \/
  (get t v = None /\ forall j, (j <= 32)%nat -> node_action (path j 0 v) t = None).
Proof.
  unfold get. destruct (get_loop_spec 32 0 v t (action t)) as [(j & Hj & Hs & Hn & Hd)|[Hr Hd]];
    [lia| |].
  - left. exists j. split_and!; [lia|done..].
  - rewrite Hr. destruct (action t) as [a|] eqn:Ha.
    + left. exists 0%nat. split_and!; [lia|done|done|]. intros j Hj. apply Hd. lia.
    + right. split; [done|]. intros [|j] Hj; [done|]. apply Hd. lia.
Qed.

(** The node of a path holds the action of the first rule inserted there. *)
Lemma node_action_insert_all rules bits : Forall wf_rule rules ->
  node_action bits (insert_all empty rules) =
  (fun p => r_action p.2) <$> list_find (fun r => rule_path r = bits) rules.
Proof.
  unfold insert_all. induction rules as [|r rules IH] using rev_ind; intros Hwf.
  - apply node_action_empty.
  - apply Forall_app in Hwf as [Hwf [[_ Hp] _]%Forall_cons].
    rewrite fold_left_app. cbn [fold_left]. specialize (IH Hwf).
    set (t := fold_left _ rules empty) in *. unfold insert. rewrite node_action_insert by lia.
    rewrite IH. fold (rule_path r).
    destruct (list_find (fun r => rule_path r = bits) rules) as [[i r']|] eqn:E.
    + rewrite (list_find_app_l _ _ _ _ _ E). simpl. by destruct (decide _).
    + rewrite list_find_app_r by done. simpl. unfold list_find. simpl.
      destruct (decide (bits = rule_path r)) as [->|Hne]; simpl.
      * by rewrite decide_True.
      * by rewrite decide_False by congruence.
Qed.

(** ** Lemmas: paths and prefixes *)

Lemma length_path k i v : length (path k i v) = k.
Proof. revert i. induction k; intros; simpl; auto. Qed.

Lemma path_eq k i v w : path k i v = path k i w <->
  forall j, i <= j < i + Z.of_nat k -> Z.testbit v (31 - j) = Z.testbit w (31 - j).
Proof.
  revert i. induction k as [|k IH]; intros i; simpl; [split; [lia|done]|]. split.
  - intros [= H0 H]. intros j Hj. destruct (decide (j = i)) as [->|]; [done|].
    apply (proj1 (IH (i + 1)) H). lia.
  - intros H. f_equal; [apply H; lia|]. apply IH. intros j Hj. apply H. lia.
Qed.

Lemma u32_high_bits v n : is_u32 v -> 32 <= n -> Z.testbit v n = false.
Proof.
  intros Hv Hn. unfold is_u32 in Hv. rewrite <- (Z.mod_small v (2 ^ 32)) by lia.
  by apply Z.mod_pow2_bits_high.
Qed.

(** Agreement on a prefix, by bits and by the shifted values. *)
Lemma rule_matches_path r v : wf_rule r -> is_u32 v ->
  rule_matches r v <-> path (Z.to_nat (r_prefix r)) 0 v = rule_path r.
Proof.
  intros [Hr Hp] Hv. unfold rule_path, rule_matches. rewrite path_eq. split.
  - intros H j Hj. apply (f_equal (fun z => Z.testbit z (r_prefix r - 1 - j))) in H.
    rewrite !Z.shiftr_spec in H by lia.
    by replace (r_prefix r - 1 - j + (32 - r_prefix r)) with (31 - j) in H by lia.
  - intros H. apply Z.bits_inj'. intros n Hn. rewrite !Z.shiftr_spec by lia.
    destruct (decide (n < r_prefix r)) as [Hlt|Hge].
    + replace (n + (32 - r_prefix r)) with (31 - (r_prefix r - 1 - n)) by lia. apply H. lia.
    + rewrite !u32_high_bits by (done || lia). done.
Qed.

Lemma get_insert_all rules v : Forall wf_rule rules -> is_u32 v ->
  is_lpm rules v (get (insert_all empty rules) v).
Proof.
  intros Hwf Hv. set (t := insert_all empty rules).
  assert (forall r, r ∈ rules -> rule_matches r v ->
    rule_path r = path (Z.to_nat (r_prefix r)) 0 v) as Hm.
  { intros r Hr H. rewrite Forall_forall in Hwf. symmetry. by apply rule_matches_path; auto. }
  assert (forall r, r ∈ rules -> rule_matches r v ->
    node_action (path (Z.to_nat (r_prefix r)) 0 v) t <> None) as Hsome.
  { intros r Hr H Hnone. unfold t in Hnone. rewrite node_action_insert_all in Hnone by done.
    apply fmap_None, list_find_None in Hnone. rewrite Forall_forall in Hnone.
    by apply (Hnone r Hr), Hm. }
  assert (forall r, r ∈ rules -> (Z.to_nat (r_prefix r) <= 32)%nat) as H32.
  { rewrite Forall_forall in Hwf. intros r Hr. destruct (Hwf r Hr) as [_ ?]. lia. }
  destruct (get_spec t v) as [(j & Hj & [a Ha] & Hn & Hd)|[Hr Hd]].
  - rewrite Ha in Hn |- *. unfold t in Hn. rewrite node_action_insert_all in Hn by done.
    apply fmap_Some in Hn as ([i r] & Hf & ->). apply list_find_Some in Hf as (Hi & Hpath & Hfirst).
    assert (r ∈ rules) as Hin by by eapply list_elem_of_lookup_2.
    assert (Z.to_nat (r_prefix r) = j) as Hrj.
    { apply (f_equal length) in Hpath. unfold rule_path in Hpath. by rewrite !length_path in Hpath. }
    assert (wf_rule r) as Hwr by (rewrite Forall_forall in Hwf; auto).
    exists i, r. split_and!; [done|done| |].
    { apply rule_matches_path; [done..|]. by rewrite Hrj. }
    intros k r' Hk Hr'. assert (r' ∈ rules) as Hin' by by eapply list_elem_of_lookup_2.
    assert (wf_rule r') as [_ Hp'] by (rewrite Forall_forall in Hwf; auto). destruct Hwr as [_ Hp].
    destruct (decide (r_prefix r' < r_prefix r)) as [|Hge]; [by left|right].
    destruct (decide (r_prefix r' = r_prefix r)) as [Heq|Hne].
    + split; [done|]. destruct (decide (i <= k)%nat); [done|]. exfalso.
      apply (Hfirst k r' Hk); [lia|]. rewrite (Hm r') by done. by rewrite Heq, Hrj.
    + exfalso. apply (Hsome r' Hin' Hr'). apply Hd. split; [lia|auto].
  - rewrite Hr. intros r Hin H. apply (Hsome r Hin H). apply Hd. auto.
Qed.

(** C31. Longest-prefix matching: after the rules are inserted in order, a
    lookup returns the action of a matching rule whose prefix no other matching
    rule exceeds, the earliest one when prefixes tie, and nothing when no rule
    matches. *)
Theorem trie_longest_prefix rules v : Forall wf_rule rules -> is_u32 v ->
  is_lpm rules v (get (insert_all empty rules) v).
Proof. apply get_insert_all. Qed.

Lemma trie_longest_prefix_witness :
  is_lpm [mkIpRule (ipv4_new 10 0 0 0) 8 (mkAction Direct);
          mkIpRule (ipv4_new 10 1 0 0) 16 (mkAction (Http (str "h:1") None))]
    (ipv4_new 10 1 2 3) (Some (mkAction (Http (str "h:1") None))).
Proof.
  apply (trie_longest_prefix
    [mkIpRule (ipv4_new 10 0 0 0) 8 (mkAction Direct);
     mkIpRule (ipv4_new 10 1 0 0) 16 (mkAction (Http (str "h:1") None))] (ipv4_new 10 1 2 3)).
  - repeat constructor; vm_compute; congruence.
  - apply ipv4_new_range.
Defined.

End Trie.

(** ** The regex crate *)

Class RegexEngine : Type := {
  (** [Regex::new(p).is_ok()] *)
  Regex_ok : bytes -> bool;
  (** [Regex::new(p).unwrap().is_match(h)] *)
  Regex_is_match : bytes -> bytes -> bool;
  (** [regex::escape] *)
  regex_escape : bytes -> bytes;
  RegexSet : Type;
  (** [RegexSet::new(patterns)] *)
  RegexSet_new : list bytes -> option RegexSet;
  (** [set.matches(h).iter()] *)
  RegexSet_matches : RegexSet -> bytes -> list nat;
}.

(** The indices of the patterns that match, in ascending order. *)
Fixpoint matching_indices (f : bytes -> bool) (n : nat) (ps : list bytes) : list nat :=
  match ps with
  | [] => []
  | p :: ps => if f p then n :: matching_indices f (S n) ps else matching_indices f (S n) ps
  end.

(** [str::to_ascii_lowercase], byte by byte. *)
Definition ascii_lower (b : byte) : byte :=
  if (65 <=? u8 b) && (u8 b <=? 90) then as_u8 (u8 b + 32) else b.

Definition is_ascii (s : bytes) : Prop := Forall (fun b => u8 b < 128) s.

(** [format!("(?i)^{}$", regex::escape(&domain))] *)
Definition literal_pattern `{RegexEngine} (domain : bytes) : bytes :=
  str "(?i)^" ++ regex_escape domain ++ str "$".

(** The documented behaviour the rules rely on: a set yields the matching
    patterns in order, and an anchored, escaped, case-insensitive pattern is
    case-insensitive equality (on ASCII, where no other case folding occurs). *)
Class RegexLaws `{RegexEngine} : Prop := {
  set_matches ps s h : RegexSet_new ps = Some s ->
    RegexSet_matches s h = matching_indices (fun p => Regex_is_match p h) 0 ps;
  literal_match d h : is_ascii d -> is_ascii h ->
    Regex_is_match (literal_pattern d) h = bool_decide (map ascii_lower d = map ascii_lower h);
}.

(** ** Rules *)

Inductive RuleMatch : Type :=
| RIp (addr : ipv4)
| RCidr (network : ipv4) (prefix : Z)
| RDomain (domain : bytes)
| RDomainRegex (pattern : bytes).

Inductive rule_error : Type :=
| MissingKind (spec : bytes)
| InvalidIp (value : bytes)
| CidrSyntax (value : bytes)
| InvalidNetwork (network : bytes)
| InvalidPrefix (prefix : bytes)
| PrefixOutOfRange (prefix : Z)
| EmptyDomain
| InvalidRegex (value : bytes)
| UnknownKind (kind : bytes)
| MissingProxy (spec : bytes)
| EmptyMatch
| EmptyProxy
| InvalidProxy (e : proxy_error)
| CompileSet.

Section Rules.
Context `{RegexEngine}.

(** [RuleMatch::parse] *)
Definition RuleMatch_parse (spec : bytes) : result rule_error RuleMatch :=
  '(kind, value) ← ok_or (split_once ":"%byte spec) (MissingKind spec);
  if bool_decide (kind = str "ip") then
    addr ← ok_or (parse_ipv4 value) (InvalidIp value);
    Ok (RIp addr)
  else if bool_decide (kind = str "cidr") then
    '(network, prefix) ← ok_or (split_once "/"%byte value) (CidrSyntax value);
    network ← ok_or (parse_ipv4 network) (InvalidNetwork network);
    prefix ← ok_or (parse_u8 prefix) (InvalidPrefix prefix);
    if 32 <? prefix then Err (PrefixOutOfRange prefix)
    else Ok (RCidr network prefix)
  else if bool_decide (kind = str "domain") then
    if bool_decide (value = []) then Err EmptyDomain else Ok (RDomain value)
  else if bool_decide (kind = str "domain-regex") then
    if Regex_ok value then Ok (RDomainRegex value) else Err (InvalidRegex value)
  else Err (UnknownKind kind).

Record RuleMatcher : Type := mkMatcher {
  domains : option RegexSet;
  domain_actions : list MatchAction;
  cidr : Trie.PrefixTrie;
}.

(** One [--rule] argument: its match and its action. *)
Definition parse_spec (full_spec : bytes) : result rule_error (RuleMatch * MatchAction) :=
  '(match_spec, proxy_spec) ← ok_or (split_once "="%byte full_spec) (MissingProxy full_spec);
  if bool_decide (match_spec = []) then Err EmptyMatch else
  if bool_decide (proxy_spec = []) then Err EmptyProxy else
  proxy ← map_err InvalidProxy (parse proxy_spec);
  m ← RuleMatch_parse match_spec;
  Ok (m, mkAction proxy).

(** The variables of the loop of [from_specs]. *)
Record builder : Type := mkBuilder {
  b_patterns : list bytes;
  b_actions : list MatchAction;
  b_cidr : Trie.PrefixTrie;
}.

Definition add_rule (b : builder) (m : RuleMatch) (action : MatchAction) : builder :=
  match m with
  | RIp addr => mkBuilder (b_patterns b) (b_actions b) (Trie.insert (b_cidr b) addr 32 action)
  | RCidr network prefix =>
      mkBuilder (b_patterns b) (b_actions b) (Trie.insert (b_cidr b) network prefix action)
  | RDomain domain =>
      mkBuilder (b_patterns b ++ [literal_pattern domain]) (b_actions b ++ [action]) (b_cidr b)
  | RDomainRegex pattern =>
      mkBuilder (b_patterns b ++ [pattern]) (b_actions b ++ [action]) (b_cidr b)
  end.

(** [RuleMatcher::from_specs] *)
Definition from_specs (specs : list bytes) : result rule_error RuleMatcher :=
  b ← foldM (fun b full_spec =>
               '(m, action) ← parse_spec full_spec; Ok (add_rule b m action))
        (mkBuilder [] [] Trie.empty) specs;
  domains ← (match b_patterns b with
             | [] => Ok None
             | ps => s ← ok_or (RegexSet_new ps) CompileSet; Ok (Some s)
             end);
  Ok (mkMatcher domains (b_actions b) (b_cidr b)).

(** [match_domain]; indexing [domain_actions] could panic. *)
Definition match_domain (self : RuleMatcher) (host : bytes) : popt ProxyConfig :=
  match domains self with
  | None => PNone
  | Some s =>
      match head (RegexSet_matches s host) with
      | None => PNone
      | Some index =>
          match domain_actions self !! index with
          | Some a => PSome (proxy a)
          | None => PPanic
          end
      end
  end.

Definition match_ip (self : RuleMatcher) (ip : ipv4) : option ProxyConfig :=
  proxy <$> Trie.get (cidr self) ip.

(** ** Specification: the rules as written *)

Definition ip_rules (rules : list (RuleMatch * MatchAction)) : list Trie.ip_rule :=
  omap (fun '(m, a) =>
    match m with
    | RIp addr => Some (Trie.mkIpRule addr 32 a)
    | RCidr network prefix => Some (Trie.mkIpRule network prefix a)
    | _ => None
    end) rules.

Definition domain_rules (rules : list (RuleMatch * MatchAction)) : list (bytes * MatchAction) :=
  omap (fun '(m, a) =>
    match m with
    | RDomain d => Some (literal_pattern d, a)
    | RDomainRegex p => Some (p, a)
    | _ => None
    end) rules.

(** The first rule, in order, whose pattern matches the host. *)
Fixpoint first_match (host : bytes) (rules : list (bytes * MatchAction)) : option ProxyConfig :=
  match rules with
  | [] => None
  | (p, a) :: rules => if Regex_is_match p host then Some (proxy a) else first_match host rules
  end.

(** ** Lemmas *)

Lemma RuleMatch_parse_wf spec m a : RuleMatch_parse spec = Ok m ->
  Forall Trie.wf_rule (ip_rules [(m, a)]).
Proof.
  unfold RuleMatch_parse.
  destruct (split_once _ spec) as [[kind value]|]; cbn [ok_or mbind result_bind]; [|done].
  case_if; [|case_if; [|case_if; [|case_if; [|done]]]]; intros Hm.
  - destruct (parse_ipv4 value) eqn:E; cbn in Hm; simplify_eq.
    repeat constructor; simpl; try lia; by apply parse_ipv4_range in E as [? ?].
  - destruct (split_once _ value) as [[n p]|]; cbn in Hm; [|done].
    destruct (parse_ipv4 n) eqn:En; cbn in Hm; [|done].
    destruct (parse_u8 p) eqn:Ep; cbn in Hm; [|done].
    case_if; [done|]. simplify_eq. bool_prop. apply parse_uint_range in Ep; [|lia].
    repeat constructor; simpl; try lia; by apply parse_ipv4_range in En as [? ?].
  - case_if; simplify_eq. constructor.
  - case_if; simplify_eq. constructor.
Qed.

Lemma parse_spec_wf s r : parse_spec s = Ok r -> Forall Trie.wf_rule (ip_rules [r]).
Proof.
  unfold parse_spec. intros Hs. bind_inv. repeat (case_if; [done|]). bind_inv.
  by eapply RuleMatch_parse_wf.
Qed.

(** The loop parses every specification and adds the rules in order. *)
Lemma from_specs_loop specs b :
  foldM (fun b s => '(m, action) ← parse_spec s; Ok (add_rule b m action)) b specs =
  (rules ← mapM_result parse_spec specs;
   Ok (fold_left (fun b '(m, a) => add_rule b m a) rules b)).
Proof.
  revert b. induction specs as [|s specs IH]; intros b; simpl; [done|].
  destruct (parse_spec s) as [[m a]|]; cbn [mbind result_bind]; [|done].
  rewrite IH. by destruct (mapM_result parse_spec specs).
Qed.

Lemma ip_rules_cons r rules : ip_rules (r :: rules) = ip_rules [r] ++ ip_rules rules.
Proof. unfold ip_rules. simpl. destruct r as [[] a]; done. Qed.

Lemma domain_rules_cons r rules : domain_rules (r :: rules) = domain_rules [r] ++ domain_rules rules.
Proof. unfold domain_rules. simpl. destruct r as [[] a]; done. Qed.

Lemma add_rule_fold rules b :
  fold_left (fun b '(m, a) => add_rule b m a) rules b =
  mkBuilder (b_patterns b ++ map fst (domain_rules rules))
            (b_actions b ++ map snd (domain_rules rules))
            (Trie.insert_all (b_cidr b) (ip_rules rules)).
Proof.
  revert b. induction rules as [|[m a] rules IH]; intros [ps acts t]; cbn [fold_left].
  - simpl. by rewrite !app_nil_r.
  - rewrite IH. rewrite (ip_rules_cons (m, a)), (domain_rules_cons (m, a)).
    destruct m; simpl; by rewrite <- ?app_assoc.
Qed.

Lemma from_specs_eq specs : from_specs specs =
  (rules ← mapM_result parse_spec specs;
   domains ← (match map fst (domain_rules rules) with
              | [] => Ok None
              | ps => s ← ok_or (RegexSet_new ps) CompileSet; Ok (Some s)
              end);
   Ok (mkMatcher domains (map snd (domain_rules rules))
         (Trie.insert_all Trie.empty (ip_rules rules)))).
Proof.
  unfold from_specs. rewrite from_specs_loop.
  destruct (mapM_result parse_spec specs) as [rules|]; cbn [mbind result_bind]; [|done].
  by rewrite add_rule_fold.
Qed.

Lemma from_specs_ok specs m : from_specs specs = Ok m -> exists rules,
  mapM_result parse_spec specs = Ok rules /\
  domain_actions m = map snd (domain_rules rules) /\
  cidr m = Trie.insert_all Trie.empty (ip_rules rules) /\
  (map fst (domain_rules rules) = [] /\ domains m = None \/
   exists s, RegexSet_new (map fst (domain_rules rules)) = Some s /\ domains m = Some s).
Proof.
  rewrite from_specs_eq. destruct (mapM_result parse_spec specs) as [rules|] eqn:E;
    cbn [mbind result_bind]; [|done]. intros Hm. exists rules. split; [done|].
  destruct (map fst (domain_rules rules)) as [|p ps]; cbn [mbind result_bind] in Hm; simplify_eq/=.
  - eauto.
  - destruct (RegexSet_new (p :: ps)) as [s|]; cbn in Hm; simplify_eq/=. eauto 10.
Qed.

Lemma rules_wf specs rules : mapM_result parse_spec specs = Ok rules ->
  Forall Trie.wf_rule (ip_rules rules).
Proof.
  rewrite mapM_result_Ok. induction 1 as [|s r specs rules Hr _ IH]; [constructor|].
  rewrite ip_rules_cons. apply Forall_app. split; [by eapply parse_spec_wf|done].
Qed.

(** The first matching index selects the first matching rule. *)
Lemma matching_indices_head f n (rules : list (bytes * MatchAction)) :
  match head (matching_indices f n (map fst rules)) with
  | Some i => exists j r, i = (n + j)%nat /\ rules !! j = Some r /\ f r.1 = true /\
      forall k r', (k < j)%nat -> rules !! k = Some r' -> f r'.1 = false
  | None => Forall (fun r => f r.1 = false) rules
  end.
Proof.
  revert n. induction rules as [|[p a] rules IH]; intros n; simpl; [constructor|].
  destruct (f p) eqn:Hp; simpl.
  - exists 0%nat, (p, a). split_and!; [lia|done|done|lia].
  - specialize (IH (S n)). destruct (head _) as [i|].
    + destruct IH as (j & r & -> & Hj & Hr & Hk). exists (S j), r.
      split_and!; [lia|done|done|]. intros [|k] r' Hlt H'; simplify_eq/=; [done|].
      eapply Hk; [|done]. lia.
    + by constructor.
Qed.

Lemma first_match_spec host rules :
  match head (matching_indices (fun p => Regex_is_match p host) 0 (map fst rules)) with
  | Some i => exists r, rules !! i = Some r /\ first_match host rules = Some (proxy r.2)
  | None => first_match host rules = None
  end.
Proof.
  pose proof (matching_indices_head (fun p => Regex_is_match p host) 0 rules) as Hh.
  destruct (head _) as [i|].
  - destruct Hh as (j & r & -> & Hj & Hr & Hk). exists r. split; [done|].
    revert j Hj Hk. induction rules as [|[p a] rules IH]; intros [|j] Hj Hk; simplify_eq/=.
    + by rewrite Hr.
    + pose proof (Hk 0%nat (p, a) ltac:(lia) eq_refl) as Hp. simpl in Hp. rewrite Hp.
      apply (IH j); [done|].
      intros k r' Hlt. apply (Hk (S k)). lia.
  - induction Hh as [|[p a] rules Hp _ IH]; simpl in *; [done|]. by rewrite Hp.
Qed.

(** When the rules parse, the route of an address is the one of its longest
    matching prefix, the first such rule if several are equal. *)
Lemma match_ip_lemma specs m ip : from_specs specs = Ok m -> is_u32 ip ->
  exists rules res, mapM_result parse_spec specs = Ok rules /\
    match_ip m ip = proxy <$> res /\ Trie.is_lpm (ip_rules rules) ip res.
Proof.
  intros (rules & Hr & _ & Hc & _)%from_specs_ok Hip.
  exists rules, (Trie.get (cidr m) ip). split_and!; [done|done|].
  rewrite Hc. apply Trie.get_insert_all; [by eapply rules_wf|done].
Qed.

(** The route of a host is the one of the first [domain]/[domain-regex] rule, in
    command-line order, that matches it; the index into the actions never goes
    out of bounds. *)
Lemma match_domain_lemma `{!RegexLaws} specs m host : from_specs specs = Ok m ->
  exists rules, mapM_result parse_spec specs = Ok rules /\
    match_domain m host = match first_match host (domain_rules rules) with
                          | Some p => PSome p | None => PNone end.
Proof.
  intros (rules & Hr & Ha & _ & Hd)%from_specs_ok. exists rules. split; [done|].
  pose proof (first_match_spec host (domain_rules rules)) as Hf. unfold match_domain.
  destruct Hd as [[Hnil ->]|(s & Hs & ->)].
  - destruct (domain_rules rules) as [|[]]; [done|discriminate Hnil].
  - rewrite (set_matches _ _ _ Hs), Ha. destruct (head _) as [i|].
    + destruct Hf as (r & Hi & ->). by rewrite list_lookup_fmap, Hi.
    + by rewrite Hf.
Qed.

End Rules.

(** A [domain] rule matches exactly its domain, ignoring ASCII case. *)
Lemma domain_rule_exact `{RegexEngine} `{!RegexLaws} d p c s host :
  is_ascii d -> is_ascii host -> d <> [] -> "="%byte ∉ d -> parse p = Ok c ->
  RegexSet_new [literal_pattern d] = Some s ->
  exists m, from_specs [str "domain:" ++ d ++ str "=" ++ p] = Ok m /\
    match_domain m host = if bool_decide (map ascii_lower d = map ascii_lower host)
                          then PSome c else PNone.
Proof.
  intros Hd Hh Hne Heq Hp Hs. set (spec := str "domain:" ++ d ++ str "=" ++ p).
  assert (p <> []) as Hpne by by intros ->.
  assert (split_once "="%byte spec = Some (str "domain:" ++ d, p)) as H1.
  { apply split_once_Some. split; [by unfold spec; rewrite <- app_assoc|].
    rewrite not_elem_of_app. split; [by_decide|done]. }
  assert (split_once ":"%byte (str "domain:" ++ d) = Some (str "domain", d)) as H2.
  { apply split_once_Some. split; [done|]. by_decide. }
  assert (parse_spec spec = Ok (RDomain d, mkAction c)) as Hspec.
  { unfold parse_spec. rewrite H1. cbn [ok_or mbind result_bind].
    rewrite !bool_decide_eq_false_2 by done. rewrite Hp.
    cbn [map_err mbind result_bind]. unfold RuleMatch_parse. rewrite H2.
    cbn [ok_or mbind result_bind]. rewrite (bool_decide_eq_false_2 (d = [])) by done. done. }
  assert (mapM_result parse_spec [spec] = Ok [(RDomain d, mkAction c)]) as Hrules
    by (simpl; by rewrite Hspec).
  exists (mkMatcher (Some s) [mkAction c] Trie.empty). split.
  - rewrite from_specs_eq, Hrules. cbn -[literal_pattern]. by rewrite Hs.
  - unfold match_domain. simpl. rewrite (set_matches _ _ _ Hs). simpl.
    rewrite literal_match by done. by case_bool_decide.
Qed.

(** ** An engine that knows the literal patterns only

    It satisfies the laws, so the theorems above are not vacuous. *)
Definition literal_engine : RegexEngine := {|
  Regex_ok p := negb (bool_decide (p = []));
  Regex_is_match p h :=
    bool_decide (map ascii_lower p = map ascii_lower (str "(?i)^" ++ h ++ str "$"));
  regex_escape p := p;
  RegexSet := list bytes;
  RegexSet_new ps := Some ps;
  RegexSet_matches ps h := matching_indices (fun p =>
    bool_decide (map ascii_lower p = map ascii_lower (str "(?i)^" ++ h ++ str "$"))) 0 ps;
|}.

#[global] Instance is_ascii_dec s : Decision (is_ascii s).
Proof. unfold is_ascii. apply _. Defined.

Lemma literal_engine_laws : @RegexLaws literal_engine.
Proof.
  split; simpl.
  - by intros ps s h [= <-].
  - intros d h _ _. apply bool_decide_ext. unfold literal_pattern. simpl.
    rewrite !map_app. simpl. split; [|by intros ->].
    intros [= Heq]. by apply app_inj_2 in Heq as [? _].
Qed.
