(* ===== verification/Publish.v ===== *)
(** * Port publications (src/src/publish.rs)

    Parsing of [--publish] specifications, with the grammar it accepts, and
    the binding and registration of the host listeners.  The operating
    system's [bind] and the runtime's registration are parameters. *)

From S2P Require Import Prelude RustStr RustNet.

Record PublishSpec : Type := mkSpec {
  host_ip : ipv4;
  host_port : Z;
  namespace_port : Z;
}.

#[global] Instance PublishSpec_eq_dec : EqDecision PublishSpec.
Proof. solve_decision. Defined.

(** [PublishSpec::host_addr] *)
Definition host_addr (s : PublishSpec) : ipv4 * Z := (host_ip s, host_port s).

Inductive side : Type := HostSide | NamespaceSide.

Inductive publish_error : Type :=
| UnsupportedProtocol (protocol : bytes)
| BadPort (s : side) (value : bytes)
| ZeroPort (s : side)
| BadHostIp (value : bytes)
| PublishSyntax (raw : bytes)
| DuplicateEndpoint (addr : ipv4 * Z).

Definition parse_port (value : bytes) (s : side) : result publish_error Z :=
  port ← ok_or (parse_u16 value) (BadPort s value);
  if port =? 0 then Err (ZeroPort s) else Ok port.

(** The address part of a publication, [[HOST_IP:]HOST_PORT:NS_PORT]. *)
Definition parse_address (address raw : bytes) : result publish_error PublishSpec :=
  match split ":"%byte address with
  | [hp; np] =>
      host_port ← parse_port hp HostSide;
      namespace_port ← parse_port np NamespaceSide;
      Ok (mkSpec ipv4_unspecified host_port namespace_port)
  | [ip; hp; np] =>
      host_ip ← ok_or (parse_ipv4 ip) (BadHostIp ip);
      host_port ← parse_port hp HostSide;
      namespace_port ← parse_port np NamespaceSide;
      Ok (mkSpec host_ip host_port namespace_port)
  | _ => Err (PublishSyntax raw)
  end.

Definition parse_publish_spec (raw : bytes) : result publish_error PublishSpec :=
  let '(address, protocol) :=
    match split_once "/"%byte raw with
    | Some (address, protocol) => (address, protocol)
    | None => (raw, str "tcp")
    end in
  if negb (bool_decide (protocol = str "tcp")) then Err (UnsupportedProtocol protocol) else
  parse_address address raw.

(** One iteration of [parse_publish_specs]: the endpoints seen and the
    specifications parsed so far. *)
Definition publish_step (st : gset (ipv4 * Z) * list PublishSpec) (raw : bytes)
    : result publish_error (gset (ipv4 * Z) * list PublishSpec) :=
  let '(host_endpoints, parsed) := st in
  spec ← parse_publish_spec raw;
  if bool_decide (host_addr spec ∈ host_endpoints) then Err (DuplicateEndpoint (host_addr spec))
  else Ok ({[host_addr spec]} ∪ host_endpoints, parsed ++ [spec]).

Definition parse_publish_specs (specs : list bytes) : result publish_error (list PublishSpec) :=
  '(_, parsed) ← foldM publish_step (∅, []) specs;
  Ok parsed.

(** ** Listeners *)

Record BoundPublish (L : Type) : Type := mkBound { bound_spec : PublishSpec; bound_listener : L }.
Arguments mkBound {L}.
Arguments bound_spec {L}.
Arguments bound_listener {L}.

Section Listeners.
Context {IoError StdListener TokioListener : Type}.
(** [TcpListener::bind], [set_nonblocking(true)] and [tokio::net::TcpListener::from_std]. *)
Variable tcp_bind : ipv4 * Z -> result IoError StdListener.
Variable set_nonblocking : StdListener -> result IoError StdListener.
Variable from_std : StdListener -> result IoError TokioListener.

Inductive listen_error : Type :=
| BindError (addr : ipv4 * Z) (e : IoError)
| NonblockingError (addr : ipv4 * Z) (e : IoError)
| RegisterError (addr : ipv4 * Z) (e : IoError).

Definition bind_publish_specs (specs : list PublishSpec)
    : result listen_error (list (BoundPublish StdListener)) :=
  mapM_result (fun spec =>
    let addr := host_addr spec in
    listener ← map_err (BindError addr) (tcp_bind addr);
    listener ← map_err (NonblockingError addr) (set_nonblocking listener);
    Ok (mkBound spec listener)) specs.

Definition register_publish_specs (bound : list (BoundPublish StdListener))
    : result listen_error (list (BoundPublish TokioListener)) :=
  mapM_result (fun published =>
    let addr := host_addr (bound_spec published) in
    listener ← map_err (RegisterError addr) (from_std (bound_listener published));
    Ok (mkBound (bound_spec published) listener)) bound.
End Listeners.
Arguments listen_error : clear implicits.

(** ** The grammar of publications *)

(** [text] denotes the non-zero port [n]. *)
Definition port_text (text : bytes) (n : Z) : Prop :=
  parse_u16 text = Some n /\ n <> 0.

(** [[HOST_IP:]HOST_PORT:NS_PORT[/tcp]] *)
Inductive address_text : PublishSpec -> bytes -> Prop :=
| addr_default hp np p q : port_text hp p -> port_text np q ->
    address_text (mkSpec ipv4_unspecified p q) (hp ++ str ":" ++ np)
| addr_ip ip hp np i p q : parse_ipv4 ip = Some i -> port_text hp p -> port_text np q ->
    address_text (mkSpec i p q) (ip ++ str ":" ++ hp ++ str ":" ++ np).

Definition publish_text (s : PublishSpec) (raw : bytes) : Prop :=
  exists a, address_text s a /\ (raw = a \/ raw = a ++ str "/tcp").

(** ** Lemmas *)

Lemma to_digit_10_digit b d : to_digit 10 b = Some d -> 48 <= u8 b <= 57.
Proof.
  unfold to_digit. intros H. repeat case_if; bool_prop; simplify_eq; try lia.
Qed.

Lemma digits_val_digits max acc s v : digits_val max acc s = Some v ->
  Forall (fun b => 48 <= u8 b <= 57) s.
Proof.
  revert acc. induction s as [|b s IH]; intros acc; simpl; [constructor|].
  destruct (to_digit 10 b) as [d|] eqn:E; simpl; [|done]. apply to_digit_10_digit in E.
  case_if; [|done]. constructor; [done|eauto].
Qed.

(** The text of a number contains digits and at most a leading plus. *)
Lemma parse_uint_notin max s v b : parse_uint max s = Some v ->
  ~ (48 <= u8 b <= 57) -> b <> "+"%byte -> b ∉ s.
Proof.
  unfold parse_uint. intros Hs Hb Hp Hin. destruct s as [|x r]; [done|].
  destruct (decide (x = "+"%byte)) as [->|Hx].
  - destruct r as [|y r']; [done|]. apply digits_val_digits in Hs. rewrite Forall_forall in Hs.
    apply elem_of_cons in Hin as [?|Hin]; [done|]. by apply Hb, Hs.
  - apply digits_val_digits in Hs. rewrite Forall_forall in Hs. by apply Hb, Hs.
Qed.

Lemma read_digits_digits m max acc k s v n t : read_digits 10 m max acc k s = Some (v, n, t) ->
  exists ds, s = ds ++ t /\ Forall (fun b => 48 <= u8 b <= 57) ds.
Proof.
  revert acc k. induction s as [|b s IH]; intros acc k; simpl.
  - intros [= <- <- <-]. by exists [].
  - destruct (to_digit 10 b) as [d|] eqn:E.
    + intros H. destruct m as [m|]; case_if; try done;
        apply IH in H as (ds & -> & Hds); exists (b :: ds); split; auto;
        constructor; auto; by eapply to_digit_10_digit.
    + intros [= <- <- <-]. by exists [].
Qed.

Lemma read_octet_digits i s v t : read_octet i s = Some (v, t) ->
  exists ds, s = ds ++ t /\ Forall (fun b => 48 <= u8 b <= 57 \/ b = "."%byte) ds.
Proof.
  assert (forall s v t, read_number 10 (Some 3%nat) false 255 s = Some (v, t) ->
    exists ds, s = ds ++ t /\ Forall (fun b => 48 <= u8 b <= 57 \/ b = "."%byte) ds) as Hn.
  { intros s' v' t'. unfold read_number.
    destruct (read_digits _ _ _ _ _ s') as [[[w k] r]|] eqn:E; cbn; [|done].
    apply read_digits_digits in E as (ds & -> & Hds). repeat case_if; intros; simplify_eq.
    exists ds. split; [done|]. eapply Forall_impl; [done|]. auto. }
  unfold read_octet, read_separator. destruct i; [apply Hn|].
  unfold read_given_char. destruct s as [|b s]; cbn; [done|].
  destruct (decide (b = "."%byte)) as [->|]; cbn; [|done].
  intros (ds & -> & Hds)%Hn. exists ("."%byte :: ds). split; [done|]. constructor; auto.
Qed.

(** The text of an IPv4 address contains digits and dots only. *)
Lemma parse_ipv4_notin s ip b : parse_ipv4 s = Some ip ->
  ~ (48 <= u8 b <= 57) -> b <> "."%byte -> b ∉ s.
Proof.
  unfold parse_ipv4, parse_with. intros H Hb Hd Hin. case_if; [done|].
  destruct (read_ipv4_addr s) as [[ip' t]|] eqn:E; [|done].
  destruct t as [|? ?]; [|done]. unfold read_ipv4_addr in E. bind_inv.
  repeat match goal with H : read_octet _ _ = Some _ |- _ =>
    apply read_octet_digits in H as (? & ? & ?) end. subst.
  assert (forall l : bytes, Forall (fun b => 48 <= u8 b <= 57 \/ b = "."%byte) l -> b ∉ l) as Hl.
  { intros l Hl Hin'. rewrite Forall_forall in Hl. naive_solver. }
  rewrite !elem_of_app in Hin. naive_solver.
Qed.

Lemma parse_port_ok t s n : parse_port t s = Ok n <-> port_text t n.
Proof.
  unfold parse_port, port_text. destruct (parse_u16 t) as [p|]; cbn [ok_or mbind result_bind].
  - case_if; bool_prop; split; intros; destruct_and?; simplify_eq; auto.
  - naive_solver.
Qed.

Lemma port_text_notin t n b : port_text t n -> b ∈ [":"%byte; "/"%byte] -> b ∉ t.
Proof.
  intros [Ht _] Hb. apply list_elem_of_In in Hb. destruct Hb as [<-|[<-|[]]];
    (eapply parse_uint_notin; [done|by vm_compute; intros []|done]).
Qed.

Lemma parse_address_ok address raw s : parse_address address raw = Ok s -> address_text s address.
Proof.
  unfold parse_address. intros Hs. destruct (split_spec ":"%byte address) as [Hj _].
  destruct (split ":"%byte address) as [|x [|y [|z [|]]]]; try done; bind_inv;
    repeat match goal with
    | H : parse_port _ _ = Ok _ |- _ => apply parse_port_ok in H
    | H : ok_or ?o _ = Ok _ |- _ => destruct o eqn:?; cbn in H; simplify_eq
    end; cbn [join app]; by constructor.
Qed.

Lemma address_parse_ok address raw s : address_text s address -> parse_address address raw = Ok s.
Proof.
  unfold parse_address. change (str ":") with [":"%byte] in *. destruct 1 as [hp np p q Hp Hq|ip hp np i p q Hi Hp Hq].
  - change (hp ++ str ":" ++ np) with (join [":"%byte] [hp; np]). rewrite split_join; [|done|].
    + apply (parse_port_ok _ HostSide) in Hp. apply (parse_port_ok _ NamespaceSide) in Hq.
      rewrite Hp. cbn [mbind result_bind]. by rewrite Hq.
    + repeat constructor; eapply port_text_notin; eauto; by_decide.
  - change (ip ++ str ":" ++ hp ++ str ":" ++ np) with (join [":"%byte] [ip; hp; np]).
    rewrite split_join; [|done|].
    + apply (parse_port_ok _ HostSide) in Hp. apply (parse_port_ok _ NamespaceSide) in Hq.
      rewrite Hi, Hp. cbn [ok_or mbind result_bind]. by rewrite Hq.
    + constructor; [|repeat constructor; eapply port_text_notin; eauto; by_decide].
      eapply parse_ipv4_notin; [done|by vm_compute; intros []|done].
Qed.

Lemma address_text_notin s a : address_text s a -> "/"%byte ∉ a.
Proof.
  destruct 1 as [hp np p q Hp Hq|ip hp np i p q Hi Hp Hq];
    change (str ":") with [":"%byte]; rewrite !not_elem_of_app; split_and!;
    try (eapply port_text_notin; eauto; by_decide); try by_decide.
  eapply parse_ipv4_notin; [done|by vm_compute; intros []|done].
Qed.

Lemma parse_publish_spec_iff raw s : parse_publish_spec raw = Ok s <-> publish_text s raw.
Proof.
  unfold parse_publish_spec.
  destruct (split_once "/"%byte raw) as [[a proto]|] eqn:E.
  - apply split_once_Some in E as [-> Ha]. split.
    + intros H. case_if; [done|]. bool_prop. subst. exists a.
      split; [by eapply parse_address_ok|]. by right.
    + intros (a' & Ht & [Heq|Heq]).
      * apply address_text_notin in Ht. rewrite <- Heq in Ht. set_solver.
      * assert (Some (a, proto) = Some (a', str "tcp")) as [= -> ->].
        { rewrite <- (split_once_app "/"%byte a' (str "tcp")) by by eapply address_text_notin.
          rewrite <- (split_once_app "/"%byte a proto) by done. by rewrite Heq. }
        rewrite bool_decide_eq_true_2 by done. simpl. by apply address_parse_ok.
  - apply split_once_None in E. rewrite bool_decide_eq_true_2 by done. simpl. split.
    + intros H. exists raw. split; [by eapply parse_address_ok|auto].
    + intros (a & Ht & [-> | ->]); [by apply address_parse_ok|].
      exfalso. apply E. apply elem_of_app. right. by_decide.
Qed.

Lemma publish_fold raws specs :
  parse_publish_specs raws = Ok specs <->
  Forall2 (fun raw s => parse_publish_spec raw = Ok s) raws specs /\ NoDup (map host_addr specs).
Proof.
  pose proof (fun seen => dedup_fold parse_publish_spec host_addr
    (fun s => DuplicateEndpoint (host_addr s)) id raws ∅ [] seen specs) as Hf.
  assert (forall st raw, publish_step st raw = dedup_step parse_publish_spec host_addr
    (fun s => DuplicateEndpoint (host_addr s)) id st raw) as Hstep by by intros [].
  unfold parse_publish_specs.
  rewrite (foldM_ext _ _ _ _ Hstep).
  split.
  - intros H. bind_inv. destruct (proj1 (Hf g) eq_refl) as (l & -> & _ & Hl & Hn & _).
    simpl. by rewrite map_id.
  - intros [H1 H2]. rewrite (proj2 (Hf (list_to_set (map host_addr specs) ∪ ∅))); [done|].
    exists specs. simpl. rewrite map_id. split_and!; [done..|]. rewrite Forall_forall. set_solver.
Qed.

(** Listeners are kept in the order of their publications. *)
Lemma mapM_specs {E A L} (f : A -> result E (BoundPublish L)) (spec : A -> PublishSpec) l bound :
  (forall x b, f x = Ok b -> bound_spec b = spec x) -> mapM_result f l = Ok bound -> map bound_spec bound = map spec l.
Proof.
  intros Hf G. apply mapM_result_Ok in G. induction G as [|x b l bound E0 _ IH]; simpl; [done|]. by rewrite IH, (Hf _ _ E0).
Qed.

Lemma bind_publish_order {E S} (tcp_bind : ipv4 * Z -> result E S) set_nonblocking specs bound :
  bind_publish_specs tcp_bind set_nonblocking specs = Ok bound -> map bound_spec bound = specs.
Proof.
  intros G. apply (mapM_specs _ (fun s => s)) in G; [by rewrite G, map_id|].
  intros s b. cbn. destruct (tcp_bind _); cbn; [|done]. destruct (set_nonblocking _); cbn; [|done]. by intros [= <-].
Qed.

Lemma register_publish_order {E S L} (from_std : S -> result E L) bound registered :
  register_publish_specs from_std bound = Ok registered -> map bound_spec registered = map bound_spec bound.
Proof.
  apply mapM_specs. intros s b. cbn. destruct (from_std _); cbn; [|done]. by intros [= <-].
Qed.

(** [parse_publish_specs] succeeds exactly when every argument is
    [[HOST_IP:]HOST_PORT:NS_PORT[/tcp]] with non-zero 16-bit ports and no two
    publications share a host endpoint; it returns the publications in order. *)
Lemma parse_publish_specs_spec raws specs :
  parse_publish_specs raws = Ok specs <->
  Forall2 (fun raw s => publish_text s raw) raws specs /\ NoDup (map host_addr specs).
Proof.
  assert (Forall2 (fun raw s => publish_text s raw) raws specs <->
    Forall2 (fun raw s => parse_publish_spec raw = Ok s) raws specs) as ->.
  { split; (intros H; eapply Forall2_impl; [exact H|]; intros; by apply parse_publish_spec_iff). }
  apply publish_fold.
Qed.

(** C40. Binding is all or nothing: [bind_publish_specs] returns a listener for
    every publication, in order, each bound to the publication's host endpoint
    and made non-blocking, or an error. *)
Theorem bind_publish_specs_spec {E L} (tcp_bind : ipv4 * Z -> result E L) set_nonblocking specs bound :
  bind_publish_specs tcp_bind set_nonblocking specs = Ok bound <->
  map bound_spec bound = specs /\
  Forall (fun b => exists l, tcp_bind (host_addr (bound_spec b)) = Ok l /\
                     set_nonblocking l = Ok (bound_listener b)) bound.
Proof.
  unfold bind_publish_specs. rewrite mapM_result_Ok. split.
  - induction 1 as [|s b specs bound Hb _ [IH1 IH2]]; simpl; [done|].
    destruct (tcp_bind (host_addr s)) as [l|] eqn:El; cbn in Hb; [|done].
    destruct (set_nonblocking l) as [l'|] eqn:El'; cbn in Hb; simplify_eq/=.
    split; [done|]. constructor; eauto.
  - intros [<- Hall]. induction Hall as [|[s l'] bound (l & Hl & Hl') _ IH]; simpl; constructor; auto.
    simpl in *. rewrite Hl. cbn. by rewrite Hl'.
Qed.
