(* ===== verification/BindMount.v ===== *)
(** * Bind-mount specifications (src/src/namespace.rs, [parse_bind_mounts])

    The validation of [--bind] arguments before the fork.  The file system is
    a parameter: [lstat] is [std::fs::symlink_metadata].  [Path] is modelled on
    the bytes of the path, as on Unix. *)

From S2P Require Import Prelude RustStr.

(** ** Paths *)

(** [path.is_absolute()] *)
Definition is_absolute (p : bytes) : bool := starts_with (str "/") p.

(** [PathBuf::push] of a relative component. *)
Definition push (buf c : bytes) : bytes :=
  if bool_decide (buf = [] \/ last buf = Some "/"%byte) then buf ++ c else buf ++ str "/" ++ c.

(** [cwd.join(path)] *)
Definition path_join (cwd p : bytes) : bytes := if is_absolute p then p else push cwd p.

(** The normal and parent components of a path: empty and [.] ones vanish. *)
Definition components (p : bytes) : list bytes :=
  filter (fun c => c <> [] /\ c <> str ".") (split "/"%byte p).

(** [std::path::absolute(path)] with the given current directory; an empty
    path is an error. *)
Definition path_absolute (current_dir p : bytes) : option bytes :=
  if bool_decide (p = []) then None else
  let base :=
    if is_absolute p then
      if starts_with (str "//") p && negb (starts_with (str "///") p) then str "//" else str "/"
    else current_dir in
  let normalized := fold_left push (components p) base in
  Some (if bool_decide (last p = Some "/"%byte) then push normalized [] else normalized).

(** ** Validation *)

Inductive file_type : Type := RegularFile | Symlink | OtherFile.

Record metadata : Type := mkMeta { ftype : file_type; dev : Z; ino : Z }.

Record BindMount : Type := mkBind { source : bytes; target : bytes }.

Inductive bind_error : Type :=
| InspectInternal
| BindSyntax (spec : bytes)
| MakeAbsolute (path : bytes)
| InspectPath (path : bytes)
| NotFileOrSymlink (path : bytes)
| InternalTarget (target : bytes)
| DuplicateTarget (target : bytes).

Definition INTERNAL_BIND_TARGETS : list bytes := [str "/etc/resolv.conf"; str "/etc/nsswitch.conf"].

Section Validate.
(** [symlink_metadata], and the process's current directory. *)
Variable lstat : bytes -> option metadata.
Variable current_dir : bytes.

Definition inspect_bind_path (path cwd : bytes) : result bind_error (bytes * (Z * Z)) :=
  let path := if is_absolute path then path else path_join cwd path in
  path ← ok_or (path_absolute current_dir path) (MakeAbsolute path);
  metadata ← ok_or (lstat path) (InspectPath path);
  match ftype metadata with
  | OtherFile => Err (NotFileOrSymlink path)
  | _ => Ok (path, (dev metadata, ino metadata))
  end.

(** The fields of a specification: exactly two, both non-empty. *)
Definition split_bind_spec (spec : bytes) : result bind_error (bytes * bytes) :=
  let fields := split ":"%byte spec in
  let source := default [] (fields !! 0%nat) in
  let target := default [] (fields !! 1%nat) in
  if bool_decide (source = []) || bool_decide (target = []) || bool_decide (is_Some (fields !! 2%nat))
  then Err (BindSyntax spec) else Ok (source, target).

(** One iteration of the loop up to the check of the internal targets. *)
Definition parse_bind_spec (internal_targets : gset (Z * Z)) (cwd spec : bytes)
    : result bind_error (BindMount * (Z * Z)) :=
  '(source, target) ← split_bind_spec spec;
  '(source, _) ← inspect_bind_path source cwd;
  '(target, target_id) ← inspect_bind_path target cwd;
  if bool_decide (target_id ∈ internal_targets) then Err (InternalTarget target)
  else Ok (mkBind source target, target_id).

Definition bind_step (internal_targets : gset (Z * Z)) (cwd : bytes)
    (st : gset (Z * Z) * list BindMount) (spec : bytes)
    : result bind_error (gset (Z * Z) * list BindMount) :=
  let '(targets, mounts) := st in
  '(mount, target_id) ← parse_bind_spec internal_targets cwd spec;
  if bool_decide (target_id ∈ targets) then Err (DuplicateTarget (target mount))
  else Ok ({[target_id]} ∪ targets, mounts ++ [mount]).

(** The identities of the internal DNS mount targets. *)
Definition internal_ids : result bind_error (gset (Z * Z)) :=
  ids ← mapM_result (fun p => m ← ok_or (lstat p) InspectInternal; Ok (dev m, ino m))
          INTERNAL_BIND_TARGETS;
  Ok (list_to_set ids).

Definition parse_bind_mounts (specs : list bytes) (cwd : bytes) : result bind_error (list BindMount) :=
  match specs with
  | [] => Ok []
  | _ =>
      internal_targets ← internal_ids;
      '(_, mounts) ← foldM (bind_step internal_targets cwd) (∅, []) specs;
      Ok mounts
  end.

(** The identity of the file a validated mount covers. *)
Definition target_id (m : BindMount) : option (Z * Z) :=
  meta ← lstat (target m); Some (dev meta, ino meta).

(** A path that names, directly, a regular file or a symbolic link. *)
Definition mountable (p : bytes) : Prop :=
  exists meta, lstat p = Some meta /\ ftype meta <> OtherFile.

(** ** Lemmas *)

Lemma is_absolute_app p q : is_absolute p = true -> is_absolute (p ++ q) = true.
Proof.
  unfold is_absolute. rewrite !starts_with_true. intros [r ->]. exists (r ++ q). by rewrite app_assoc.
Qed.

Lemma push_absolute buf c : is_absolute buf = true -> is_absolute (push buf c) = true.
Proof. intros H. unfold push. case_bool_decide; by apply is_absolute_app. Qed.

Lemma path_join_absolute cwd p : is_absolute cwd = true -> is_absolute (path_join cwd p) = true.
Proof. intros H. unfold path_join. case_if; [done|]. by apply push_absolute. Qed.

Lemma path_absolute_absolute p q : is_absolute p = true -> path_absolute current_dir p = Some q ->
  is_absolute q = true.
Proof.
  intros Hp. unfold path_absolute. case_if; [done|]. rewrite Hp. intros [= <-].
  assert (forall cs b, is_absolute b = true -> is_absolute (fold_left push cs b) = true) as Hf.
  { induction cs as [|c cs IH]; intros b Hb; simpl; [done|]. by apply IH, push_absolute. }
  assert (forall b : bool, is_absolute (fold_left push (components p)
    (if b then str "//" else str "/")) = true) as Hb by (intros []; by apply Hf).
  case_if; [apply push_absolute|]; apply Hb.
Qed.

Lemma inspect_bind_path_ok path cwd p id : is_absolute cwd = true ->
  inspect_bind_path path cwd = Ok (p, id) ->
  is_absolute p = true /\ mountable p /\ exists meta, lstat p = Some meta /\ id = (dev meta, ino meta).
Proof.
  intros Hcwd. unfold inspect_bind_path. set (path' := if is_absolute path then _ else _).
  assert (is_absolute path' = true) as Hp'.
  { unfold path'. case_if; [done|]. by apply path_join_absolute. }
  destruct (path_absolute current_dir path') as [q|] eqn:Eq; cbn [ok_or mbind result_bind]; [|done].
  destruct (lstat q) as [meta|] eqn:Em; cbn [ok_or mbind result_bind]; [|done].
  apply path_absolute_absolute in Eq; [|done].
  destruct (ftype meta) eqn:Et; intros; simplify_eq; (split_and!; [done|exists meta; by rewrite Et|eauto]).
Qed.

(** What a successfully parsed specification gives. *)
Definition valid_mount (internal : gset (Z * Z)) (m : BindMount) : Prop :=
  is_absolute (source m) = true /\ is_absolute (target m) = true /\
  mountable (source m) /\ mountable (target m) /\
  exists id, target_id m = Some id /\ id ∉ internal.

Lemma parse_bind_spec_ok internal cwd spec m id : is_absolute cwd = true ->
  parse_bind_spec internal cwd spec = Ok (m, id) ->
  valid_mount internal m /\ target_id m = Some id.
Proof.
  intros Hcwd. unfold parse_bind_spec.
  destruct (split_bind_spec spec) as [[s t]|]; cbn [mbind result_bind]; [|done].
  destruct (inspect_bind_path s cwd) as [[s' sid]|] eqn:Es; cbn [mbind result_bind]; [|done].
  destruct (inspect_bind_path t cwd) as [[t' tid]|] eqn:Et; cbn [mbind result_bind]; [|done].
  case_bool_decide as Hin; [done|]. intros [= <- <-].
  apply (inspect_bind_path_ok _ _ _ _ Hcwd) in Es as (Ha & Hm & _).
  apply (inspect_bind_path_ok _ _ _ _ Hcwd) in Et as (Ha' & Hm' & meta & Hl & ->).
  assert (target_id (mkBind s' t') = Some (dev meta, ino meta)) as Hid.
  { unfold target_id. simpl. by rewrite Hl. }
  split; [|done]. split_and!; [done..|]. eauto.
Qed.

Lemma bind_fold internal cwd specs mounts g :
  foldM (bind_step internal cwd) (∅, []) specs = Ok (g, mounts) ->
  exists l, mounts = map fst l /\ NoDup (map snd l) /\
    Forall2 (fun spec a => parse_bind_spec internal cwd spec = Ok a) specs l.
Proof.
  rewrite (foldM_ext _ (dedup_step (parse_bind_spec internal cwd) snd
    (fun a => DuplicateTarget (target a.1)) fst)).
  - intros (l & -> & _ & Hf & Hn & _)%dedup_fold. exists l. done.
  - intros [seen acc] spec. unfold bind_step, dedup_step.
    by destruct (parse_bind_spec internal cwd spec) as [[]|].
Qed.

(** When [parse_bind_mounts] succeeds (from an absolute working directory),
    every specification gave one mount; its source and target are absolute
    paths that name a regular file or a symbolic link; no target is one of the
    internal DNS files, and no two targets are the same file. *)
Lemma parse_bind_mounts_lemma specs cwd mounts : is_absolute cwd = true -> specs <> [] ->
  parse_bind_mounts specs cwd = Ok mounts ->
  length mounts = length specs /\
  exists internal, internal_ids = Ok internal /\
    Forall (valid_mount internal) mounts /\ NoDup (map target_id mounts).
Proof.
  intros Hcwd Hne. unfold parse_bind_mounts. destruct specs as [|s specs]; [done|].
  intros H. destruct internal_ids as [internal|]; cbn [mbind result_bind] in H; [|done].
  destruct (foldM _ _ _) as [[g ms]|] eqn:E; cbn [mbind result_bind] in H; [|done].
  injection H as <-. apply bind_fold in E as (l & -> & Hn & Hf). split.
  - rewrite length_map. symmetry. by eapply Forall2_length.
  - exists internal. split; [done|].
    assert (Forall (fun a => valid_mount internal a.1 /\ target_id a.1 = Some a.2) l) as Hall.
    { apply Forall_forall. intros [m id] [i Hi]%list_elem_of_lookup.
      destruct (Forall2_lookup_r _ _ _ _ _ Hf Hi) as (spec & _ & Hs).
      by eapply parse_bind_spec_ok. }
    split.
    + apply Forall_fmap. eapply Forall_impl; [done|]. by intros ? [].
    + assert (map target_id (map fst l) = map Some (map snd l)) as ->.
      { clear Hn Hf. induction Hall as [|a l [_ Ha] _ IH]; simpl; [done|]. by rewrite Ha, IH. }
      by apply NoDup_fmap_2; [apply _|].
Qed.

End Validate.

(** A file system with four files. *)
Definition demo_lstat (p : bytes) : option metadata :=
  if bool_decide (p = str "/etc/resolv.conf") then Some (mkMeta Symlink 1 1) else
  if bool_decide (p = str "/etc/nsswitch.conf") then Some (mkMeta RegularFile 1 2) else
  if bool_decide (p = str "/home/a") then Some (mkMeta RegularFile 1 3) else
  if bool_decide (p = str "/home/b") then Some (mkMeta Symlink 1 4) else None.

Example parse_bind_errors :
  parse_bind_mounts demo_lstat (str "/home") [str "a:b"; str "b:/home//b"] (str "/home")
    = Err (DuplicateTarget (str "/home/b"))
  /\ parse_bind_mounts demo_lstat (str "/home") [str "a:/etc/resolv.conf"] (str "/home")
    = Err (InternalTarget (str "/etc/resolv.conf"))
  /\ parse_bind_mounts demo_lstat (str "/home") [str "a:b:c"] (str "/home")
    = Err (BindSyntax (str "a:b:c"))
  /\ parse_bind_mounts demo_lstat (str "/home") [str "a:missing"] (str "/home")
    = Err (InspectPath (str "/home/missing")).
Proof. split_and!; vm_compute; reflexivity. Qed.
