(* ===== verification/Config.v ===== *)
(** * Configuration (src/src/config.rs)

    The [Config] record, the selection of a route for a target, and the
    addressing plan of the namespace. *)

From S2P Require Import Prelude RustStr RustNet ProxyConfig Rule Publish BindMount.

Section Config.
Context `{RegexEngine}.

Record Config : Type := mkConfig {
  default_proxy : ProxyConfig;
  bind_mounts : list BindMount;
  publishes : list PublishSpec;
  command : list bytes;
  rules : RuleMatcher;
}.

(** [Config::proxy_for] *)
Definition proxy_for (self : Config) (target : ProxyTarget) : popt ProxyConfig :=
  let matched :=
    match target with
    | Domain host _ => match_domain (rules self) host
    | Ip (V4 v4) _ => match match_ip (rules self) v4 with Some p => PSome p | None => PNone end
    | Ip (V6 _) _ => PNone
    end in
  match matched with
  | PSome p => PSome p
  | PNone => PSome (default_proxy self)
  | PPanic => PPanic
  end.
End Config.

(** ** The [net] module *)

Definition TUN_NAME : bytes := str "eth0".
Definition TUN_ADDR : ipv4 := ipv4_new 172 23 255 255.
Definition TUN_GW : ipv4 := ipv4_new 172 23 255 254.
Definition TUN_PREFIX : Z := 31.
Definition DNS_ADDR : ipv4 := TUN_GW.
Definition DNS_PORT : Z := 53.
Definition TUN_MTU : Z := 65000.

(** Every target has a route: [proxy_for] does not panic. *)
Definition routes_all `{RegexEngine} (cfg : Config) : Prop :=
  forall target, exists route, proxy_for cfg target = PSome route.

Lemma routes_all_from_specs `{RegexEngine} `{!RegexLaws} cfg specs :
  from_specs specs = Ok (rules cfg) -> routes_all cfg.
Proof.
  intros Hr target. unfold proxy_for. destruct target as [host port|[ip|segs] port].
  - destruct (match_domain_lemma specs (rules cfg) host Hr) as (parsed & Hp & ->).
    destruct (first_match _ _); by eexists.
  - destruct (match_ip (rules cfg) ip); by eexists.
  - by eexists.
Qed.

(** C23. Route selection: with rules built by [from_specs], every target has a
    route (no panic); a domain takes the first matching domain rule, an IPv4
    address the longest matching prefix rule, and anything unmatched the
    default. *)
Theorem proxy_for_spec `{RegexEngine} `{!RegexLaws} cfg specs target :
  from_specs specs = Ok (rules cfg) ->
  (forall ip port, target = Ip (V4 ip) port -> is_u32 ip) ->
  exists parsed, mapM_result parse_spec specs = Ok parsed /\
  match target with
  | Domain host _ =>
      proxy_for cfg target = PSome (default (default_proxy cfg) (first_match host (domain_rules parsed)))
  | Ip (V4 ip) _ => exists res, Trie.is_lpm (ip_rules parsed) ip res /\
      proxy_for cfg target = PSome (default (default_proxy cfg) (proxy <$> res))
  | Ip (V6 _) _ => proxy_for cfg target = PSome (default_proxy cfg)
  end.
Proof.
  intros Hr Hip. destruct target as [host port|[ip|segs] port].
  - destruct (match_domain_lemma specs (rules cfg) host Hr) as (parsed & Hp & Hm).
    exists parsed. split; [done|]. unfold proxy_for. rewrite Hm. by destruct (first_match _ _).
  - destruct (match_ip_lemma specs (rules cfg) ip Hr (Hip ip port eq_refl)) as (parsed & res & Hp & Hm & Hl).
    exists parsed. split; [done|]. exists res. split; [done|]. unfold proxy_for. rewrite Hm.
    by destruct (proxy <$> res).
  - destruct (from_specs_ok specs (rules cfg) Hr) as (parsed & Hp & _). by exists parsed.
Qed.

Definition demo_specs : list bytes := [str "domain:a.test=http://h:1"; str "cidr:10.0.0.0/8=direct"].

Lemma demo_rules_ok : is_ok (@from_specs literal_engine demo_specs) = true.
Proof. vm_compute. reflexivity. Qed.

Definition demo_config : @Config literal_engine :=
  mkConfig (Socks5 (str "p:1") None) [] [] []
    (match @from_specs literal_engine demo_specs with
     | Ok r => r | Err _ => mkMatcher None [] Trie.empty end).

Lemma demo_specs_ok : @from_specs literal_engine demo_specs = Ok (@rules literal_engine demo_config).
Proof.
  pose proof demo_rules_ok as Hok. unfold demo_config. cbn [rules].
  by destruct (@from_specs literal_engine demo_specs).
Qed.

Lemma proxy_for_spec_witness : exists parsed,
  mapM_result (@parse_spec literal_engine) demo_specs = Ok parsed /\
  @proxy_for literal_engine demo_config (Domain (str "A.test") 80) =
  PSome (default (Socks5 (str "p:1") None) (@first_match literal_engine (str "A.test")
    (@domain_rules literal_engine parsed))).
Proof.
  exact (@proxy_for_spec literal_engine literal_engine_laws demo_config demo_specs
    (Domain (str "A.test") 80) demo_specs_ok ltac:(discriminate)).
Defined.
