(* ===== verification/Stream.v ===== *)
(** * Byte streams (src/src/proxy/mod.rs, [ProxyStream]; tokio's [TcpStream])

    The runtime's sockets are an interface: [TcpStreamOps] are the operations
    the program calls, [TcpStreamLaws] their documented behaviour.  Three
    observers describe a stream: the bytes its peer will still deliver
    ([incoming], in order, independent of how they are split into reads), how
    that sequence ends, and the bytes written so far ([sent]).

    An [async] operation either completes with a [Result] or, when the peer
    stalls, never does.  [ProxyStream] is the tunnel handed to the event loop:
    a socket and the bytes already prefetched from it. *)

From S2P Require Import Prelude RustStr RustNet ProxyConfig.

(** ** Asynchronous results *)

Inductive async (E A : Type) : Type :=
| Ready (r : result E A)
| Never.
Arguments Ready {E A} r.
Arguments Never {E A}.

#[global] Instance async_ret E : MRet (async E) := fun A a => Ready (Ok a).
#[global] Instance async_bind E : MBind (async E) := fun A B f m =>
  match m with
  | Ready (Ok a) => f a
  | Ready (Err e) => Ready (Err e)
  | Never => Never
  end.

(** [bail!(e)] *)
Definition fail {E A} (e : E) : async E A := Ready (Err e).

Definition async_map_err {E F A} (f : E -> F) (m : async E A) : async F A :=
  match m with Ready r => Ready (map_err f r) | Never => Never end.

Inductive io_error : Type :=
| WouldBlock
| UnexpectedEof
| InvalidData
| OtherIo (code : Z).

(** How the bytes of a peer end: orderly close, an error, or silence. *)
Inductive ending : Type := EEof | EReset (e : io_error) | EStall.

(** ** The interface of the runtime *)

Class TcpStreamOps (T : Type) : Type := {
  incoming : T -> bytes;
  ending_of : T -> ending;
  sent : T -> bytes;
  read_exact : T -> Z -> async io_error (bytes * T);
  write_all : T -> bytes -> async io_error T;
  try_read : T -> Z -> result io_error bytes * T;
  try_write : T -> bytes -> result io_error Z * T;
  poll_read_ready : T -> bool;
  poll_write_ready : T -> bool;
  (** [tokio::io::BufReader] *)
  BufReader : Type;
  buf_new : T -> BufReader;
  buf_inner : BufReader -> T;
  buf_set_inner : BufReader -> T -> BufReader;
  buf_buffer : BufReader -> bytes;
  read_line : BufReader -> async io_error (bytes * BufReader);
}.

(** What [TcpStream::connect] accepts: a [host:port] string, an address with a
    port, or a host name (resolved on the host) with a port. *)
Inductive connect_addr : Type :=
| ToString (addr : bytes)
| ToIp (addr : ip_addr) (port : Z)
| ToHost (host : bytes) (port : Z).

Class TcpConnect (T : Type) : Type := tcp_connect : connect_addr -> async io_error T.

(** What a reader will still deliver: its buffer, then the socket. *)
Definition buf_remaining `{TcpStreamOps T} (b : BufReader) : bytes :=
  buf_buffer b ++ incoming (buf_inner b).

(** Two states of a stream that differ in nothing a reader or the peer sees. *)
Record same_stream `{TcpStreamOps T} (t t' : T) : Prop := {
  same_incoming : incoming t' = incoming t;
  same_ending : ending_of t' = ending_of t;
  same_sent : sent t' = sent t;
}.

Definition LF : byte := "010"%byte.
Definition CR : byte := "013"%byte.

Class TcpStreamLaws (T : Type) `{TcpStreamOps T} : Prop := {
  read_exact_ok t n : 0 <= n <= blen (incoming t) -> exists t',
    read_exact t n = Ready (Ok (take (Z.to_nat n) (incoming t), t')) /\
    incoming t' = drop (Z.to_nat n) (incoming t) /\ ending_of t' = ending_of t /\ sent t' = sent t;
  read_exact_short t n : blen (incoming t) < n ->
    read_exact t n = match ending_of t with
                     | EEof => Ready (Err UnexpectedEof)
                     | EReset e => Ready (Err e)
                     | EStall => Never
                     end;
  write_all_ok t d t' : write_all t d = Ready (Ok t') ->
    sent t' = sent t ++ d /\ incoming t' = incoming t /\ ending_of t' = ending_of t;
  try_read_ok t n d t' : 0 < n -> try_read t n = (Ok d, t') ->
    incoming t = d ++ incoming t' /\ blen d <= n /\ ending_of t' = ending_of t /\ sent t' = sent t /\
    (d = [] -> incoming t = [] /\ ending_of t = EEof);
  try_read_err t n e t' : try_read t n = (Err e, t') -> same_stream t t';
  try_write_ok t d n t' : try_write t d = (Ok n, t') ->
    0 <= n <= blen d /\ sent t' = sent t ++ take (Z.to_nat n) d /\
    incoming t' = incoming t /\ ending_of t' = ending_of t;
  try_write_err t d e t' : try_write t d = (Err e, t') -> same_stream t t';
  buf_new_ok t : buf_inner (buf_new t) = t /\ buf_buffer (buf_new t) = [];
  buf_set_inner_ok b t : buf_inner (buf_set_inner b t) = t /\ buf_buffer (buf_set_inner b t) = buf_buffer b;
  (** [read_line] delivers up to and including the next newline, or what is
      left at the end of the stream; the bytes must be UTF-8. *)
  read_line_newline b l r : buf_remaining b = l ++ LF :: r -> LF ∉ l ->
    if utf8_valid (l ++ [LF]) then exists b',
      read_line b = Ready (Ok (l ++ [LF], b')) /\ buf_remaining b' = r /\
      ending_of (buf_inner b') = ending_of (buf_inner b) /\ sent (buf_inner b') = sent (buf_inner b)
    else read_line b = Ready (Err InvalidData);
  read_line_end b : LF ∉ buf_remaining b ->
    match ending_of (buf_inner b) with
    | EEof =>
        if utf8_valid (buf_remaining b) then exists b',
          read_line b = Ready (Ok (buf_remaining b, b')) /\ buf_remaining b' = [] /\
          ending_of (buf_inner b') = EEof /\ sent (buf_inner b') = sent (buf_inner b)
        else read_line b = Ready (Err InvalidData)
    | EReset e => read_line b = Ready (Err e)
    | EStall => read_line b = Never
    end;
}.

(** The peer accepts everything it is sent. *)
Definition writes_accepted (T : Type) `{TcpStreamOps T} : Prop :=
  forall (t : T) d, exists t', write_all t d = Ready (Ok t').

(** ** Consequences of the laws *)

(** Reading a successful asynchronous computation step by step. *)
Ltac async_inv_step :=
  match goal with
  | H : mbind _ ?m = Ready (Ok _) |- _ =>
      let E := fresh "E" in
      destruct m as [[?|?]|] eqn:E; cbn [mbind async_bind] in H; [|discriminate H..]
  | H : async_map_err _ ?m = Ready (Ok _) |- _ =>
      let E := fresh "E" in
      destruct m as [[?|?]|] eqn:E; cbn [async_map_err map_err] in H; [|discriminate H..]
  | H : (match ?p with pair _ _ => _ end) = Ready _ |- _ => destruct p
  | H : fail _ = Ready (Ok _) |- _ => discriminate H
  | H : mret _ = Ready (Ok _) |- _ => injection H as ?; subst
  | H : Ready (Ok _) = Ready (Ok _) |- _ => injection H as ?; subst
  end.
Ltac async_inv := repeat (async_inv_step; simplify_eq).

Lemma read_exact_inv `{TcpStreamLaws T} t n d t' : 0 <= n ->
  read_exact t n = Ready (Ok (d, t')) ->
  incoming t = d ++ incoming t' /\ blen d = n /\ ending_of t' = ending_of t /\ sent t' = sent t.
Proof.
  intros Hn Hr. destruct (decide (n <= blen (incoming t))) as [Hle|Hgt].
  - destruct (read_exact_ok t n) as (t1 & E & Hi & He & Hs); [lia|].
    rewrite E in Hr. simplify_eq. rewrite Hi, take_drop. split_and!; [done| |done|done].
    unfold blen in *. rewrite length_take. lia.
  - rewrite read_exact_short in Hr by lia. by destruct (ending_of t).
Qed.

Lemma read_exact_app `{TcpStreamLaws T} t n d r : incoming t = d ++ r -> blen d = n -> exists t',
  read_exact t n = Ready (Ok (d, t')) /\ incoming t' = r /\ ending_of t' = ending_of t /\ sent t' = sent t.
Proof.
  intros Hi <-. destruct (read_exact_ok t (blen d)) as (t1 & E & Hi' & He & Hs).
  { rewrite Hi. autorewrite with rust_len. pose proof (blen_nonneg d). pose proof (blen_nonneg r). lia. }
  exists t1. rewrite E, Hi', Hi. unfold blen. rewrite Nat2Z.id.
  rewrite take_app_length, drop_app_length. done.
Qed.

(** Turn the completed reads and writes of the context into equations on what
    was sent and received. *)
Ltac stream_facts :=
  repeat match goal with
  | E : write_all _ _ = Ready (Ok _) |- _ => apply write_all_ok in E as (? & ? & ?)
  | E : read_exact _ _ = Ready (Ok _) |- _ => apply read_exact_inv in E as (? & ? & ? & ?); [|first [lia|pose proof u8_range; auto with rust zarith]]
  end.

(** ** [ProxyStream] *)

Record ProxyStream (T : Type) : Type := mkProxyStream {
  inner : T;
  (** [Cursor<Vec<u8>>]: the prefetched bytes and the read position. *)
  buffered : bytes;
  position : Z;
}.
Arguments mkProxyStream {T}.
Arguments inner {T}.
Arguments buffered {T}.
Arguments position {T}.

(** The trait [ProxyConnector]: connectors of type [C] over sockets [T]. *)
Class ProxyConnector (C E T : Type) : Type :=
  proxy_connect : C -> ProxyTarget -> async E (ProxyStream T).

Definition ProxyStream_new {T} (t : T) (buf : bytes) : ProxyStream T := mkProxyStream t buf 0.

Definition has_buffered_data {T} (s : ProxyStream T) : bool := position s <? blen (buffered s).

(** [Cursor::read] into a buffer of [n] bytes. *)
Definition cursor_read {T} (s : ProxyStream T) (n : Z) : bytes * ProxyStream T :=
  let d := take (Z.to_nat n) (drop (Z.to_nat (position s)) (buffered s)) in
  (d, mkProxyStream (inner s) (buffered s) (position s + blen d)).

Section ProxyStream.
Context {T : Type} `{TcpStreamOps T}.

(** [ProxyStream::try_read] *)
Definition ps_try_read (s : ProxyStream T) (n : Z) : result io_error bytes * ProxyStream T :=
  if has_buffered_data s then let '(d, s) := cursor_read s n in (Ok d, s)
  else let '(r, t) := try_read (inner s) n in (r, mkProxyStream t (buffered s) (position s)).

(** [ProxyStream::poll_read_ready] *)
Definition ps_poll_read_ready (s : ProxyStream T) : bool :=
  if has_buffered_data s then true else poll_read_ready (inner s).

(** [AsyncRead::poll_read] with [n] bytes unfilled: [None] is [Poll::Pending]. *)
Definition ps_poll_read (poll_read : T -> Z -> option (result io_error bytes) * T)
    (s : ProxyStream T) (n : Z) : option (result io_error bytes) * ProxyStream T :=
  if has_buffered_data s then let '(d, s) := cursor_read s n in (Some (Ok d), s)
  else let '(r, t) := poll_read (inner s) n in (r, mkProxyStream t (buffered s) (position s)).

(** [AsyncWrite]: the three operations are those of the socket, [None] being
    [Poll::Pending]; the prefetched bytes are not concerned. *)
Definition ps_delegate {R} (op : T -> option (result io_error R) * T) (s : ProxyStream T)
    : option (result io_error R) * ProxyStream T :=
  let '(r, t) := op (inner s) in (r, mkProxyStream t (buffered s) (position s)).

Definition ps_poll_write (poll_write : T -> bytes -> option (result io_error Z) * T) (s : ProxyStream T) (buf : bytes)
    : option (result io_error Z) * ProxyStream T :=
  ps_delegate (fun t => poll_write t buf) s.

Definition ps_poll_flush (poll_flush : T -> option (result io_error unit) * T) (s : ProxyStream T)
    : option (result io_error unit) * ProxyStream T :=
  ps_delegate poll_flush s.

Definition ps_poll_shutdown (poll_shutdown : T -> option (result io_error unit) * T) (s : ProxyStream T)
    : option (result io_error unit) * ProxyStream T :=
  ps_delegate poll_shutdown s.

(** What the tunnel will still deliver: the unread prefetched bytes first. *)
Definition unread (s : ProxyStream T) : bytes := drop (Z.to_nat (position s)) (buffered s).

Definition remaining (s : ProxyStream T) : bytes := unread s ++ incoming (inner s).

Definition wf_stream (s : ProxyStream T) : Prop := 0 <= position s <= blen (buffered s).

(** ** Lemmas *)

(** A write that leaves the socket's incoming bytes alone leaves the tunnel's
    alone, those that were prefetched included. *)
Lemma ps_delegate_remaining {R} (op : T -> option (result io_error R) * T) s r s' :
  (forall t, incoming (op t).2 = incoming t) -> ps_delegate op s = (r, s') ->
  remaining s' = remaining s /\ (wf_stream s -> wf_stream s').
Proof.
  intros Hop. unfold ps_delegate. specialize (Hop (inner s)). destruct (op (inner s)) as [r1 t1].
  intros [= <- <-]. unfold remaining, unread. simpl in *. by rewrite Hop.
Qed.

Lemma wf_stream_new t buf : wf_stream (ProxyStream_new t buf).
Proof. unfold wf_stream, blen. simpl. lia. Qed.

Lemma remaining_new t buf : remaining (ProxyStream_new t buf) = buf ++ incoming t.
Proof. done. Qed.

Lemma has_buffered_unread s : wf_stream s -> has_buffered_data s = true <-> unread s <> [].
Proof.
  unfold wf_stream, has_buffered_data, unread, blen. intros Hwf. rewrite Z.ltb_lt. split.
  - intros Hlt Hnil. apply (f_equal length) in Hnil. rewrite length_drop in Hnil. simpl in Hnil. lia.
  - intros Hne. destruct (decide (position s < Z.of_nat (length (buffered s)))); [done|].
    destruct Hne. apply drop_ge. lia.
Qed.

Lemma cursor_read_spec s n d s' : wf_stream s -> 0 < n -> cursor_read s n = (d, s') ->
  unread s = d ++ unread s' /\ blen d <= n /\ wf_stream s' /\ inner s' = inner s /\
  (unread s <> [] -> d <> []).
Proof.
  unfold cursor_read, wf_stream, unread. intros Hwf Hn [= <- <-]. simpl.
  set (u := drop _ (buffered s)). set (d := take (Z.to_nat n) u).
  assert (length d = Nat.min (Z.to_nat n) (length u)) as Hd by apply length_take.
  assert (length u = length (buffered s) - Z.to_nat (position s))%nat as Hu by apply length_drop.
  unfold blen in *. split_and!; [|lia|lia|lia|done|].
  - rewrite <- (take_drop (Z.to_nat n) u) at 1. fold d. f_equal.
    unfold u at 1. rewrite drop_drop.
    destruct (decide (Z.to_nat n <= length u)%nat).
    + f_equal. lia.
    + rewrite !drop_ge by lia. done.
  - intros Hne Hnil. rewrite Hnil in Hd. simpl in Hd. destruct u; [done|]. simpl in Hd. lia.
Qed.

Lemma ps_try_read_lemma `{!TcpStreamLaws T} s n r s' : wf_stream s -> 0 < n ->
  ps_try_read s n = (r, s') ->
  wf_stream s' /\ sent (inner s') = sent (inner s) /\ ending_of (inner s') = ending_of (inner s) /\
  match r with
  | Ok d => remaining s = d ++ remaining s' /\ blen d <= n /\
            (d = [] -> remaining s = [] /\ ending_of (inner s) = EEof)
  | Err _ => remaining s' = remaining s
  end.
Proof.
  intros Hwf Hn. unfold ps_try_read, remaining.
  pose proof (has_buffered_unread s Hwf) as Hb. destruct (has_buffered_data s).
  - destruct (cursor_read s n) as [d s1] eqn:E. intros [= <- <-].
    apply cursor_read_spec in E as (Hu & Hd & Hwf' & Hi & Hne); [|done..].
    rewrite Hi. split_and!; [done..| |done|].
    + by rewrite Hu, app_assoc.
    + intros ->. destruct Hne; [|done]. by apply Hb.
  - assert (unread s = []) as Hnil.
    { destruct (unread s) eqn:E; [done|]. by assert (false = true) as [=] by by apply Hb. }
    destruct (try_read (inner s) n) as [r' t'] eqn:E. intros [= <- <-]. simpl.
    change (unread (mkProxyStream t' (buffered s) (position s))) with (unread s). rewrite Hnil. simpl.
    destruct r' as [d|e].
    + apply try_read_ok in E as (Hi & Hd & He & Hs & H0); [|done]. split_and!; done.
    + apply try_read_err in E as [Hi He Hs]. split_and!; [done|done|done|done].
Qed.

End ProxyStream.

(** A tunnel loses, duplicates and reorders nothing: every [try_read]
    delivers the next bytes of the prefetched data followed by the socket's
    data, at most as many as asked; it reports end of stream only when both are
    exhausted and the peer closed; an error changes nothing. *)
Lemma try_read_in_order {T} `{TcpStreamLaws T} (s : ProxyStream T) n r s' : wf_stream s -> 0 < n ->
  ps_try_read s n = (r, s') ->
  wf_stream s' /\ sent (inner s') = sent (inner s) /\ ending_of (inner s') = ending_of (inner s) /\
  match r with
  | Ok d => remaining s = d ++ remaining s' /\ blen d <= n /\
            (d = [] -> remaining s = [] /\ ending_of (inner s) = EEof)
  | Err _ => remaining s' = remaining s
  end.
Proof. apply ps_try_read_lemma. Qed.

(** ** A simulated network

    A peer that delivers a fixed sequence of bytes and accepts every write; its
    buffered reader prefetches everything.  It satisfies the laws. *)

Record sim : Type := mkSim { sim_in : bytes; sim_end : ending; sim_sent : bytes }.

Definition sim_ended {A} (e : ending) (a : A) : async io_error A :=
  match e with EEof => Ready (Ok a) | EReset err => Ready (Err err) | EStall => Never end.

Definition sim_read_line (b : bytes * sim) : async io_error (bytes * (bytes * sim)) :=
  let all := b.1 ++ sim_in b.2 in
  let t := mkSim [] (sim_end b.2) (sim_sent b.2) in
  match split_once LF all with
  | Some (l, r) =>
      if utf8_valid (l ++ [LF]) then Ready (Ok (l ++ [LF], (r, t))) else Ready (Err InvalidData)
  | None =>
      match sim_end b.2 with
      | EEof => if utf8_valid all then Ready (Ok (all, ([], t))) else Ready (Err InvalidData)
      | EReset e => Ready (Err e)
      | EStall => Never
      end
  end.

#[global] Instance sim_ops : TcpStreamOps sim := {|
  incoming := sim_in;
  ending_of := sim_end;
  sent := sim_sent;
  read_exact t n :=
    if blen (sim_in t) <? n then
      match sim_end t with
      | EEof => Ready (Err UnexpectedEof) | EReset e => Ready (Err e) | EStall => Never end
    else Ready (Ok (take (Z.to_nat n) (sim_in t),
                    mkSim (drop (Z.to_nat n) (sim_in t)) (sim_end t) (sim_sent t)));
  write_all t d := Ready (Ok (mkSim (sim_in t) (sim_end t) (sim_sent t ++ d)));
  try_read t n :=
    match sim_in t, sim_end t with
    | [], EReset e => (Err e, t)
    | [], EStall => (Err WouldBlock, t)
    | _, _ => (Ok (take (Z.to_nat n) (sim_in t)),
               mkSim (drop (Z.to_nat n) (sim_in t)) (sim_end t) (sim_sent t))
    end;
  try_write t d := (Ok (blen d), mkSim (sim_in t) (sim_end t) (sim_sent t ++ d));
  poll_read_ready t := match sim_in t, sim_end t with [], EStall => false | _, _ => true end;
  poll_write_ready t := true;
  BufReader := bytes * sim;
  buf_new t := ([], t);
  buf_inner := snd;
  buf_set_inner b t := (b.1, t);
  buf_buffer := fst;
  read_line := sim_read_line;
|}.

#[global] Instance sim_laws : TcpStreamLaws sim.
Proof.
  split.
  - intros t n Hn. eexists. simpl. rewrite (proj2 (Z.ltb_ge _ _)) by (simpl in Hn; lia). by split.
  - intros t n Hn. simpl in *. by rewrite (proj2 (Z.ltb_lt _ _)).
  - intros t d t' [= <-]. done.
  - intros t n d t' Hn H. simpl in *. destruct (sim_in t) as [|b s] eqn:E.
    + destruct (sim_end t) eqn:Ee; simplify_eq/=. rewrite take_nil, drop_nil in *.
      split_and!; [done|rewrite blen_nil; lia|done..].
    + simplify_eq/=. rewrite take_drop. split_and!; [done| |done|done|].
      * unfold blen. rewrite length_take. lia.
      * destruct (Z.to_nat n) eqn:En; [lia|done].
  - intros t n e t' H. simpl in *. destruct (sim_in t), (sim_end t); simplify_eq; done.
  - intros t d n t' [= <- <-]. simpl. unfold blen. split_and!; [lia|lia| |done|done].
    by rewrite Nat2Z.id, firstn_all.
  - intros t d e t' H. simpl in H. discriminate H.
  - done.
  - done.
  - intros [buf t] l r Hrem Hl. simpl in *. unfold sim_read_line. simpl.
    change (buf ++ sim_in t = l ++ LF :: r) in Hrem. rewrite Hrem, split_once_app by done.
    case_if; [|done]. eexists. split; [done|]. unfold buf_remaining. simpl. by rewrite app_nil_r.
  - intros [buf t] Hl. unfold buf_remaining in *. simpl in *. unfold sim_read_line. simpl.
    apply split_once_None in Hl. rewrite Hl. destruct (sim_end t); [|done|done].
    case_if; [|done]. eexists. split; [done|]. done.
Qed.

Lemma sim_writes_accepted : writes_accepted sim.
Proof. intros t d. by eexists. Qed.

