(* ===== verification/Socks5.v ===== *)
(** * The SOCKS5 connector (src/src/proxy/socks5.rs)

    Method negotiation, username/password authentication and the CONNECT
    request, over the sockets of [Stream].  The functions take the stream as
    state: a successful step returns the stream it leaves behind, a failing one
    drops it, as the code does. *)

From S2P Require Import Prelude RustStr RustNet ProxyConfig Stream.

(** ** Constants *)

Definition SOCKS5_VERSION : byte := "005"%byte.
Definition METHOD_NO_AUTH : byte := "000"%byte.
Definition METHOD_USER_PASS : byte := "002"%byte.
Definition METHOD_NO_ACCEPTABLE : byte := "255"%byte.
Definition CMD_CONNECT : byte := "001"%byte.
Definition RSV : byte := "000"%byte.
Definition ATYP_IPV4 : byte := "001"%byte.
Definition ATYP_DOMAIN : byte := "003"%byte.
Definition ATYP_IPV6 : byte := "004"%byte.
Definition REP_SUCCESS : byte := "000"%byte.
Definition AUTH_VERSION : byte := "001"%byte.
Definition AUTH_SUCCESS : byte := "000"%byte.

(** ** Errors, one constructor per [bail!] or [context] *)

Inductive skip_error : Type :=
| SkipIo (e : io_error)
| UnknownAtyp (atyp : byte).

Inductive socks5_error : Type :=
| TcpConnectServer (server : bytes) (e : io_error)
| WriteGreeting (e : io_error)
| ReadMethod (e : io_error)
| UnexpectedVersion (v : byte)
| AuthRequired
| NoAcceptableMethod
| UnknownMethod (m : byte)
| MissingCredentials
| UsernameTooLong
| PasswordTooLong
| WriteAuth (e : io_error)
| ReadAuth (e : io_error)
| AuthFailed (status : byte)
| HostnameTooLong
| WriteRequest (e : io_error)
| ReadReply (e : io_error)
| UnexpectedReplyVersion (v : byte)
| ConnectFailed (target : ProxyTarget) (msg : bytes) (rep : byte)
| SkipBndAddress (e : skip_error).

(** [buf[i]] of a fixed-size array, in range by its type. *)
Definition arr (buf : bytes) (i : nat) : byte := default "000"%byte (buf !! i).

(** ** Messages *)

Definition methods (has_auth : bool) : bytes :=
  if has_auth then [METHOD_NO_AUTH; METHOD_USER_PASS] else [METHOD_NO_AUTH].

Definition greeting (has_auth : bool) : bytes :=
  [SOCKS5_VERSION; as_u8 (blen (methods has_auth))] ++ methods has_auth.

Definition auth_request (user pass : bytes) : bytes :=
  [AUTH_VERSION; as_u8 (blen user)] ++ user ++ [as_u8 (blen pass)] ++ pass.

Definition connect_request (target : ProxyTarget) : result socks5_error bytes :=
  let req := [SOCKS5_VERSION; CMD_CONNECT; RSV] in
  match target with
  | Ip (V4 v4) port => Ok (req ++ [ATYP_IPV4] ++ ipv4_octets v4 ++ be16 port)
  | Ip (V6 v6) port => Ok (req ++ [ATYP_IPV6] ++ ipv6_octets v6 ++ be16 port)
  | Domain host port =>
      if 255 <? blen host then Err HostnameTooLong
      else Ok (req ++ [ATYP_DOMAIN] ++ [as_u8 (blen host)] ++ host ++ be16 port)
  end.

Definition socks5_reply_message (rep : byte) : bytes :=
  match u8 rep with
  | 1 => str "general SOCKS server failure"
  | 2 => str "connection not allowed by ruleset"
  | 3 => str "network unreachable"
  | 4 => str "host unreachable"
  | 5 => str "connection refused"
  | 6 => str "TTL expired"
  | 7 => str "command not supported"
  | 8 => str "address type not supported"
  | _ => str "unknown error"
  end.

(** ** The connector *)

Record Socks5Connector : Type := mkSocks5Connector {
  server : bytes;
  auth : option (bytes * bytes);
}.

Section Socks5.
Context {T : Type} `{TcpStreamOps T}.

Definition negotiate_method (stream : T) (has_auth : bool) : async socks5_error (byte * T) :=
  stream ← async_map_err WriteGreeting (write_all stream (greeting has_auth));
  '(resp, stream) ← async_map_err ReadMethod (read_exact stream 2);
  if decide (arr resp 0 <> SOCKS5_VERSION) then fail (UnexpectedVersion (arr resp 0))
  else if decide (arr resp 1 = METHOD_NO_AUTH) then mret (arr resp 1, stream)
  else if decide (arr resp 1 = METHOD_USER_PASS) then
    if negb has_auth then fail AuthRequired else mret (arr resp 1, stream)
  else if decide (arr resp 1 = METHOD_NO_ACCEPTABLE) then fail NoAcceptableMethod
  else fail (UnknownMethod (arr resp 1)).

Definition authenticate (stream : T) (user pass : bytes) : async socks5_error T :=
  if 255 <? blen user then fail UsernameTooLong
  else if 255 <? blen pass then fail PasswordTooLong
  else
    stream ← async_map_err WriteAuth (write_all stream (auth_request user pass));
    '(resp, stream) ← async_map_err ReadAuth (read_exact stream 2);
    if decide (arr resp 1 <> AUTH_SUCCESS) then fail (AuthFailed (arr resp 1))
    else mret stream.

Definition skip_addr (stream : T) (atyp : byte) : async skip_error T :=
  if decide (atyp = ATYP_IPV4) then
    '(_, stream) ← async_map_err SkipIo (read_exact stream 6); mret stream
  else if decide (atyp = ATYP_IPV6) then
    '(_, stream) ← async_map_err SkipIo (read_exact stream 18); mret stream
  else if decide (atyp = ATYP_DOMAIN) then
    '(len_buf, stream) ← async_map_err SkipIo (read_exact stream 1);
    let total := u8 (arr len_buf 0) + 2 in
    '(_, stream) ← async_map_err SkipIo (read_exact stream total); mret stream
  else fail (UnknownAtyp atyp).

Definition send_connect_request (stream : T) (target : ProxyTarget) : async socks5_error T :=
  req ← Ready (connect_request target);
  stream ← async_map_err WriteRequest (write_all stream req);
  '(hdr, stream) ← async_map_err ReadReply (read_exact stream 4);
  if decide (arr hdr 0 <> SOCKS5_VERSION) then fail (UnexpectedReplyVersion (arr hdr 0))
  else if decide (arr hdr 1 <> REP_SUCCESS) then
    fail (ConnectFailed target (socks5_reply_message (arr hdr 1)) (arr hdr 1))
  else async_map_err SkipBndAddress (skip_addr stream (arr hdr 3)).

(** The handshake on an open connection: steps 1 to 3 of [connect]. *)
Definition socks5_handshake (stream : T) (auth : option (bytes * bytes)) (target : ProxyTarget)
    : async socks5_error (ProxyStream T) :=
  '(method, stream) ← negotiate_method stream (bool_decide (is_Some auth));
  stream ← (if decide (method = METHOD_USER_PASS) then
              match auth with
              | Some (user, pass) => authenticate stream user pass
              | None => fail MissingCredentials
              end
            else mret stream);
  stream ← send_connect_request stream target;
  mret (ProxyStream_new stream []).

#[global] Instance socks5_connect `{TcpConnect T} : ProxyConnector Socks5Connector socks5_error T :=
  fun self target =>
    stream ← async_map_err (TcpConnectServer (server self)) (tcp_connect (ToString (server self)));
    socks5_handshake stream (auth self) target.

End Socks5.

(** ** Specification

    The conversations of RFC 1928 and RFC 1929, as the bytes of the server and of
    the client.  The RFCs fix two bytes of the server that the code does not
    examine, the version of the authentication reply and the reserved byte of
    the CONNECT reply: they are the parameters [ver] and [rsv], and the RFCs'
    own conversations are [rfc_conversation]. *)

(** [BND.ADDR BND.PORT] for an address type. *)
Inductive bnd_address : byte -> bytes -> Prop :=
| bnd_ipv4 b : blen b = 6 -> bnd_address ATYP_IPV4 b
| bnd_ipv6 b : blen b = 18 -> bnd_address ATYP_IPV6 b
| bnd_domain len b : blen b = u8 len + 2 -> bnd_address ATYP_DOMAIN (len :: b).

Inductive connect_reply (rsv : byte) : bytes -> Prop :=
| reply_success atyp b : bnd_address atyp b ->
    connect_reply rsv ([SOCKS5_VERSION; REP_SUCCESS; rsv; atyp] ++ b).

(** [conversation ver rsv auth target s c]: the server says [s] while the client
    says [c], and the tunnel is established. *)
Inductive conversation (ver rsv : byte) (auth : option (bytes * bytes)) (target : ProxyTarget) : bytes -> bytes -> Prop :=
| conv_no_auth req reply :
    connect_request target = Ok req -> connect_reply rsv reply ->
    conversation ver rsv auth target ([SOCKS5_VERSION; METHOD_NO_AUTH] ++ reply)
      (greeting (bool_decide (is_Some auth)) ++ req)
| conv_user_pass user pass req reply :
    auth = Some (user, pass) -> blen user <= 255 -> blen pass <= 255 ->
    connect_request target = Ok req -> connect_reply rsv reply ->
    conversation ver rsv auth target
      ([SOCKS5_VERSION; METHOD_USER_PASS] ++ [ver; AUTH_SUCCESS] ++ reply)
      (greeting true ++ auth_request user pass ++ req).

Definition rfc_conversation : option (bytes * bytes) -> ProxyTarget -> bytes -> bytes -> Prop :=
  conversation AUTH_VERSION RSV.

(** The server's side: parsers written from the RFCs. *)
Definition decode_addr (atyp : byte) (s : bytes) : option (Z -> ProxyTarget) * bytes :=
  match u8 atyp, s with
  | 1, a :: b :: c :: d :: s => (Some (fun port => Ip (V4 (from_be32 a b c d)) port), s)
  | 3, len :: s =>
      let n := Z.to_nat (u8 len) in
      if decide (n <= length s)%nat then (Some (fun port => Domain (take n s) port), drop n s) else (None, s)
  | 4, a :: a' :: b :: b' :: c :: c' :: d :: d' :: e :: e' :: f :: f' :: g :: g' :: h :: h' :: s =>
      (Some (fun port => Ip (V6 [from_be16 a a'; from_be16 b b'; from_be16 c c'; from_be16 d d';
                                 from_be16 e e'; from_be16 f f'; from_be16 g g'; from_be16 h h']) port), s)
  | _, _ => (None, s)
  end.

Definition decode_request (s : bytes) : option (ProxyTarget * bytes) :=
  match s with
  | ver :: cmd :: rsv :: atyp :: s =>
      if decide (u8 ver = 5 /\ u8 cmd = 1 /\ u8 rsv = 0) then
        match decode_addr atyp s with
        | (Some target, p :: p' :: s) => Some (target (from_be16 p p'), s)
        | _ => None
        end
      else None
  | _ => None
  end.

(** A length-prefixed field. *)
Definition decode_field (s : bytes) : option (bytes * bytes) :=
  match s with
  | len :: s => let n := Z.to_nat (u8 len) in
                if decide (n <= length s)%nat then Some (take n s, drop n s) else None
  | [] => None
  end.

Definition decode_auth (s : bytes) : option (bytes * bytes * bytes) :=
  match s with
  | ver :: s =>
      if decide (u8 ver = 1) then
        '(user, s) ← decode_field s; '(pass, s) ← decode_field s; Some (user, pass, s)
      else None
  | [] => None
  end.

(** Targets whose numbers are in range of their Rust types. *)
Definition wf_target (target : ProxyTarget) : Prop :=
  match target with
  | Ip (V4 ip) port => is_u32 ip /\ is_u16 port
  | Ip (V6 segs) port => length segs = 8%nat /\ Forall is_u16 segs /\ is_u16 port
  | Domain host port => is_u16 port
  end.

(** ** Lemmas *)

Lemma bnd_address_inv atyp b : bnd_address atyp b ->
  (atyp = ATYP_IPV4 /\ blen b = 6) \/ (atyp = ATYP_IPV6 /\ blen b = 18) \/
  (atyp = ATYP_DOMAIN /\ exists len b', b = len :: b' /\ blen b' = u8 len + 2).
Proof. destruct 1; eauto 10. Qed.

Lemma conversation_det ver rsv ver' rsv' auth target s c c' :
  conversation ver rsv auth target s c -> conversation ver' rsv' auth target s c' -> c = c'.
Proof.
  destruct 1; inversion 1; simplify_eq/=; congruence.
Qed.

Lemma u8_as_u8_len {A} (l : list A) : blen l <= 255 -> Z.to_nat (u8 (as_u8 (blen l))) = length l.
Proof. intros Hl. rewrite as_u8_small; unfold blen in *; lia. Qed.

Lemma decode_field_app d rest : blen d <= 255 ->
  decode_field (as_u8 (blen d) :: d ++ rest) = Some (d, rest).
Proof.
  intros Hd. unfold decode_field. rewrite u8_as_u8_len by done.
  rewrite decide_True by (rewrite length_app; lia). by rewrite take_app_length, drop_app_length.
Qed.

Lemma decode_auth_request user pass rest : blen user <= 255 -> blen pass <= 255 ->
  decode_auth (auth_request user pass ++ rest) = Some (user, pass, rest).
Proof.
  intros Hu Hp. unfold auth_request, decode_auth. rewrite <- !app_assoc.
  cbn [app]. rewrite decide_True by done. rewrite decode_field_app by done. cbn [mbind option_bind].
  by rewrite decode_field_app.
Qed.

Lemma decode_addr_ipv6 segs rest : length segs = 8%nat -> Forall is_u16 segs ->
  decode_addr ATYP_IPV6 (ipv6_octets segs ++ rest) = (Some (fun port => Ip (V6 segs) port), rest).
Proof.
  intros Hl Hf. do 8 (destruct segs as [|? segs]; [done|]). destruct segs; [|done].
  repeat match goal with H : Forall is_u16 (_ :: _) |- _ => apply Forall_cons in H as [(? & ? & ? & <-)%be16_bytes H] end.
  unfold ipv6_octets. cbn [flat_map]. by rewrite !be16_from_be16.
Qed.

Lemma decode_request_app target req rest : wf_target target -> connect_request target = Ok req ->
  decode_request (req ++ rest) = Some (target, rest).
Proof.
  destruct target as [host port|[ip|segs] port]; cbn [connect_request wf_target]; intros Hwf Hreq.
  - destruct (be16_bytes port Hwf) as (p & q & Ep & <-). rewrite Ep in Hreq.
    case_if; simplify_eq. bool_prop. unfold decode_request. cbn [app]. rewrite <- app_assoc.
    rewrite decide_True by done. cbv [decode_addr]. change (u8 ATYP_DOMAIN) with 3. cbv iota beta.
    rewrite u8_as_u8_len by done. rewrite decide_True by (rewrite length_app; simpl; lia).
    by rewrite take_app_length, drop_app_length.
  - destruct Hwf as [Hip (p & q & Ep & <-)%be16_bytes]. unfold ipv4_octets in Hreq.
    destruct (be32_octets ip Hip) as (a & b & c & d & Eo & <-). rewrite Ep, Eo in Hreq. by injection Hreq as <-.
  - destruct Hwf as (Hl & Hf & (p & q & Ep & <-)%be16_bytes). rewrite Ep in Hreq. injection Hreq as <-.
    unfold decode_request. cbn [app]. rewrite decide_True by done.
    rewrite <- app_assoc. by rewrite decode_addr_ipv6.
Qed.

Section Proofs.
Context {T : Type} `{TcpStreamLaws T}.

Lemma write_all_accepted t d : writes_accepted T -> exists t',
  write_all t d = Ready (Ok t') /\ sent t' = sent t ++ d /\ incoming t' = incoming t.
Proof. intros Hw. destruct (Hw t d) as [t' E]. exists t'.
  pose proof (write_all_ok _ _ _ E); naive_solver. Qed.

Lemma two_bytes_eq (d : bytes) : blen d = 2 -> exists a b, d = [a; b].
Proof. unfold blen. destruct d as [|? [|? []]]; simpl; [lia..|eauto|lia]. Qed.

Lemma four_bytes_eq (d : bytes) : blen d = 4 -> exists a b c e, d = [a; b; c; e].
Proof. unfold blen. destruct d as [|? [|? [|? [|? []]]]]; simpl; [lia..|eauto 10|lia]. Qed.

Lemma one_byte_eq (d : bytes) : blen d = 1 -> exists a, d = [a].
Proof. unfold blen. destruct d as [|? []]; simpl; [lia|eauto|lia]. Qed.

(** Name the bytes of the fixed-size arrays that were read. *)
Ltac array_facts :=
  repeat match goal with
  | H : blen _ = 1 |- _ => apply one_byte_eq in H as (? & ->)
  | H : blen _ = 2 |- _ => apply two_bytes_eq in H as (? & ? & ->)
  | H : blen _ = 4 |- _ => apply four_bytes_eq in H as (? & ? & ? & ? & ->)
  end; unfold arr in *; simpl in *.

Lemma negotiate_sound t has_auth m t' : negotiate_method t has_auth = Ready (Ok (m, t')) ->
  incoming t = [SOCKS5_VERSION; m] ++ incoming t' /\ sent t' = sent t ++ greeting has_auth /\
  (m = METHOD_NO_AUTH \/ m = METHOD_USER_PASS /\ has_auth = true).
Proof.
  unfold negotiate_method. intros Hn. async_inv. stream_facts.
  array_facts.
  repeat case_decide; destruct has_auth; simpl in *; async_inv; split_and!; try congruence; auto.
Qed.

Lemma authenticate_sound t user pass t' : authenticate t user pass = Ready (Ok t') ->
  (exists v, incoming t = [v; AUTH_SUCCESS] ++ incoming t') /\ sent t' = sent t ++ auth_request user pass /\
  blen user <= 255 /\ blen pass <= 255.
Proof.
  unfold authenticate. intros Ha. repeat case_if; [done..|]. bool_prop. async_inv. stream_facts.
  array_facts.
  case_decide; async_inv. split_and!; [exists x; congruence|congruence|done..].
Qed.

Lemma skip_addr_sound t atyp t' : skip_addr t atyp = Ready (Ok t') ->
  exists b, bnd_address atyp b /\ incoming t = b ++ incoming t' /\ sent t' = sent t.
Proof.
  unfold skip_addr. intros Ha. repeat case_decide; async_inv; subst.
  - stream_facts. eexists. split; [by constructor|done].
  - stream_facts. eexists. split; [by constructor|done].
  - pose proof (u8_range (arr l 0)). stream_facts.
    array_facts.
    eexists (_ :: _). split; [by constructor|]. simpl. split; congruence.
Qed.

Lemma request_sound t target t' : send_connect_request t target = Ready (Ok t') ->
  exists req rsv reply, connect_request target = Ok req /\ connect_reply rsv reply /\
    incoming t = reply ++ incoming t' /\ sent t' = sent t ++ req.
Proof.
  unfold send_connect_request. intros Hr.
  destruct (connect_request target) as [req|]; [|done]. cbn [mbind async_bind] in Hr.
  async_inv. stream_facts.
  array_facts.
  repeat case_decide; async_inv; try done. 
  apply skip_addr_sound in E as (b & Hb & Hi & Hs).
  exists req, x1. eexists. split_and!; [done|by constructor| |congruence].
  simpl. congruence.
Qed.

Lemma handshake_sound t auth target ps : socks5_handshake t auth target = Ready (Ok ps) ->
  exists ver rsv s c, conversation ver rsv auth target s c /\ incoming t = s ++ incoming (inner ps) /\
    sent (inner ps) = sent t ++ c /\ buffered ps = [] /\ position ps = 0.
Proof.
  unfold socks5_handshake. intros Hh. async_inv.
  apply negotiate_sound in E as (Hi & Hs & Hm). apply request_sound in E1 as (req & rsv & reply & Hreq & Hrep & Hi' & Hs').
  case_decide as Hd; [subst b|].
  - destruct auth as [[user pass]|]; [|done].
    apply authenticate_sound in E0 as ([v Hv] & Hs2 & Hu & Hp).
    exists v, rsv. eexists _, _. split; [by eapply conv_user_pass|].
    cbn [inner buffered position ProxyStream_new]. rewrite Hs', Hs2, Hs, Hi, Hv, Hi', <- !app_assoc. done.
  - async_inv. destruct Hm as [-> | [-> _]]; [|done].
    exists AUTH_VERSION, rsv. eexists _, _. split; [by eapply conv_no_auth|].
    cbn [inner buffered position ProxyStream_new]. rewrite Hs', Hs, Hi, Hi', <- !app_assoc. done.
Qed.

(** Run one exchange: a write the peer accepts, then a read of bytes it sent. *)
Ltac exchange Hw Hi t' :=
  let Ew := fresh "Ew" in let Hws := fresh "Hws" in let Hwi := fresh "Hwi" in
  let Er := fresh "Er" in let Hri := fresh "Hri" in let Hrs := fresh "Hrs" in
  match goal with |- context [write_all ?t ?d] =>
    destruct (write_all_accepted t d Hw) as (?t & Ew & Hws & Hwi);
    rewrite Ew; cbn [mbind async_bind async_map_err map_err]
  end;
  match goal with |- context [read_exact ?t ?n] =>
    rewrite Hi in Hwi;
    destruct (read_exact_app t n _ _ Hwi) as (t' & Er & Hri & _ & Hrs); [done|];
    rewrite Er; cbn [mbind async_bind async_map_err map_err]
  end.

Lemma negotiate_complete t has_auth m r : writes_accepted T ->
  incoming t = [SOCKS5_VERSION; m] ++ r ->
  (m = METHOD_NO_AUTH \/ m = METHOD_USER_PASS /\ has_auth = true) ->
  exists t', negotiate_method t has_auth = Ready (Ok (m, t')) /\ incoming t' = r.
Proof.
  intros Hw Hi Hm. unfold negotiate_method. exchange Hw Hi t'. exists t'. split; [|done].
  by destruct Hm as [-> | [-> ->]].
Qed.

Lemma authenticate_complete t user pass v r : writes_accepted T ->
  incoming t = [v; AUTH_SUCCESS] ++ r -> blen user <= 255 -> blen pass <= 255 ->
  exists t', authenticate t user pass = Ready (Ok t') /\ incoming t' = r.
Proof.
  intros Hw Hi Hu Hp. unfold authenticate. rewrite !(proj2 (Z.ltb_ge _ _)) by done.
  exchange Hw Hi t'. by exists t'.
Qed.

Lemma skip_addr_complete t atyp b r : bnd_address atyp b -> incoming t = b ++ r ->
  exists t', skip_addr t atyp = Ready (Ok t') /\ incoming t' = r.
Proof.
  destruct 1 as [b Hb|b Hb|len b Hb]; intros Hi; cbv [skip_addr decide].
  - destruct (read_exact_app t 6 b r) as (t' & -> & ? & _); eauto.
  - destruct (read_exact_app t 18 b r) as (t' & -> & ? & _); eauto.
  - destruct (read_exact_app t 1 [len] (b ++ r)) as (t1 & E & Hi1 & _); [done..|].
    rewrite E. cbn [mbind async_bind async_map_err map_err]. change (arr [len] 0) with len.
    destruct (read_exact_app t1 (u8 len + 2) b r) as (t' & -> & ? & _); eauto.
Qed.

Lemma request_complete t target req rsv reply r : writes_accepted T ->
  connect_request target = Ok req -> connect_reply rsv reply -> incoming t = reply ++ r ->
  exists t', send_connect_request t target = Ready (Ok t') /\ incoming t' = r.
Proof.
  intros Hw Hreq Hrep Hi. destruct Hrep as [atyp b Hb]. rewrite <- app_assoc in Hi.
  unfold send_connect_request. rewrite Hreq. cbn [mbind async_bind]. exchange Hw Hi t1.
  destruct (skip_addr_complete t1 atyp b r) as (t' & E & ?); [done..|].
  exists t'. split; [|done].
  transitivity (async_map_err SkipBndAddress (skip_addr t1 atyp)); [done|by rewrite E].
Qed.

Lemma handshake_complete t ver rsv auth target s c r : writes_accepted T ->
  conversation ver rsv auth target s c -> incoming t = s ++ r ->
  exists ps, socks5_handshake t auth target = Ready (Ok ps) /\ incoming (inner ps) = r.
Proof.
  intros Hw Hc Hi. unfold socks5_handshake.
  destruct Hc as [req reply Hreq Hrep|user pass req reply -> Hu Hp Hreq Hrep]; rewrite <- !app_assoc in Hi.
  - destruct (negotiate_complete t (bool_decide (is_Some auth)) METHOD_NO_AUTH (reply ++ r))
      as (t1 & -> & Hi1); [by auto..|]. simpl.
    destruct (request_complete t1 target req rsv reply r) as (t' & -> & Hi'); [done..|]. by eexists.
  - destruct (negotiate_complete t true METHOD_USER_PASS ([ver; AUTH_SUCCESS] ++ reply ++ r))
      as (t1 & E1 & Hi1); [by auto..|].
    rewrite bool_decide_true, E1 by eauto. simpl.
    destruct (authenticate_complete t1 user pass ver (reply ++ r)) as (t2 & -> & Hi2); [done..|]. simpl.
    destruct (request_complete t2 target req rsv reply r) as (t' & -> & Hi'); [done..|]. by eexists.
Qed.

End Proofs.

(** ** Properties *)

(** C21. The handshake: with a peer that accepts what it is sent, the tunnel is
    established if and only if the server's bytes start with a successful
    conversation of RFC 1928/1929, except that two bytes of the server are not
    examined and may have any value, the version of the RFC 1929 reply and the
    reserved byte of the CONNECT reply.  Then the client has sent exactly its
    part of the conversation (credentials only when the server chose
    USERNAME/PASSWORD), and the tunnel delivers exactly the bytes that
    follow. *)
Theorem socks5_handshake_spec {T} `{TcpStreamLaws T} (t : T) auth target c r : writes_accepted T ->
  (exists ps, socks5_handshake t auth target = Ready (Ok ps) /\
    sent (inner ps) = sent t ++ c /\ remaining ps = r /\ has_buffered_data ps = false) <->
  (exists ver rsv s, conversation ver rsv auth target s c /\ incoming t = s ++ r).
Proof.
  intros Hw. split.
  - intros (ps & Hps & Hc & Hr & _). apply handshake_sound in Hps as (ver & rsv & s & c' & Hconv & Hi & Hs & Hb & Hp).
    rewrite Hs in Hc. apply app_inv_head in Hc as ->. unfold remaining, unread in Hr. rewrite Hb, Hp in Hr.
    exists ver, rsv, s. split; [done|]. by rewrite Hi, <- Hr.
  - intros (ver & rsv & s & Hconv & Hi).
    destruct (handshake_complete t ver rsv auth target s c r) as (ps & Hps & Hr); [done..|].
    exists ps. split; [done|]. apply handshake_sound in Hps as (ver' & rsv' & s' & c' & Hconv' & Hi' & Hs & Hb & Hp).
    unfold remaining, unread, has_buffered_data. rewrite Hb, Hp, Hr, Hs. split_and!; [|done|done].
    rewrite Hi, Hr in Hi'. apply app_inv_tail in Hi' as <-. f_equal. by eapply conversation_det.
Qed.

(** What the client sends decodes, by parsers written from the RFCs, to
    exactly what it means: the CONNECT request to the target (a domain name is
    forwarded verbatim, for every name up to 255 bytes; longer ones, and only
    they, are refused), the authentication request to the credentials. *)
Lemma socks5_messages_decode target user pass rest :
  wf_target target -> blen user <= 255 -> blen pass <= 255 ->
  match connect_request target with
  | Ok req => decode_request (req ++ rest) = Some (target, rest)
  | Err e => e = HostnameTooLong /\ exists host port, target = Domain host port /\ 255 < blen host
  end /\
  decode_auth (auth_request user pass ++ rest) = Some (user, pass, rest).
Proof.
  intros Hwf Hu Hp. split; [|by apply decode_auth_request].
  destruct (connect_request target) eqn:E; [by apply decode_request_app|].
  destruct target as [host port|[ip|segs] port]; cbn [connect_request] in E; [|done..].
  case_if; simplify_eq. bool_prop. eauto.
Qed.

(** C36. Credentials go only to a server that asked for them: unless its first
    two bytes select USERNAME/PASSWORD, the whole outcome (every byte sent,
    every error) is the same for any other credentials. *)
Theorem socks5_credentials_private {T} `{TcpStreamLaws T} (t : T) cred cred' target :
  take 2 (incoming t) <> [SOCKS5_VERSION; METHOD_USER_PASS] ->
  socks5_handshake t (Some cred) target = socks5_handshake t (Some cred') target.
Proof.
  intros Hne. unfold socks5_handshake. rewrite !bool_decide_true by eauto.
  destruct (negotiate_method t true) as [[[m t']|]|] eqn:E; [|done..]. cbn [mbind async_bind].
  case_decide as Hm; [|done]. subst m. apply negotiate_sound in E as (Hi & _). by rewrite Hi in Hne.
Qed.

(** ** Witnesses *)

Definition demo_server : sim :=
  mkSim (["005"; "002"; "001"; "000"; "005"; "000"; "000"; "001"; "010"; "000"; "000"; "001"; "031"; "144"]%byte
         ++ str "HELLO") EStall [].

Lemma socks5_handshake_spec_witness :
  exists ps, socks5_handshake demo_server (Some (str "u", str "p")) (Domain (str "a.b") 443) = Ready (Ok ps) /\
    sent (inner ps) = sent demo_server ++
      (["005"; "002"; "000"; "002"]%byte ++ ["001"; "001"; "u"; "001"; "p"]%byte ++
       ["005"; "001"; "000"; "003"; "003"; "a"; "."; "b"; "001"; "187"]%byte) /\
    remaining ps = str "HELLO" /\ has_buffered_data ps = false.
Proof.
  apply (socks5_handshake_spec demo_server (Some (str "u", str "p")) (Domain (str "a.b") 443)).
  - exact sim_writes_accepted.
  - exists "001"%byte, "000"%byte, (["005"; "002"]%byte ++ ["001"; "000"]%byte ++
      (["005"; "000"; "000"; "001"] ++ ["010"; "000"; "000"; "001"; "031"; "144"])%byte).
    split; [|done].
    apply (conv_user_pass _ _ _ _ (str "u") (str "p")); [done|by vm_compute|by vm_compute|done|].
    apply (reply_success _ "001"%byte). by constructor.
Defined.

(** A server that answers the authentication request with version 5: the RFCs
    allow no such conversation, and the tunnel is established. *)
Definition wrong_version : bytes :=
  ["005"; "002"; "005"; "000"; "005"; "000"; "000"; "001"; "010"; "000"; "000"; "001"; "031"; "144"]%byte.

Lemma auth_version_unchecked :
  (exists ps, socks5_handshake (mkSim wrong_version EStall []) (Some (str "u", str "p")) (Domain (str "a.b") 443)
     = Ready (Ok ps)) /\
  forall s c r, rfc_conversation (Some (str "u", str "p")) (Domain (str "a.b") 443) s c -> wrong_version <> s ++ r.
Proof. split; [eexists; vm_compute; reflexivity|]. intros s c r Hc. by destruct Hc. Qed.

Lemma socks5_credentials_private_witness :
  socks5_handshake (mkSim ["005"; "000"; "005"; "004"; "000"; "001"]%byte EStall [])
    (Some (str "alice", str "secret")) (Domain (str "a.b") 1)
  = socks5_handshake (mkSim ["005"; "000"; "005"; "004"; "000"; "001"]%byte EStall [])
    (Some (str "bob", str "other")) (Domain (str "a.b") 1).
Proof.
  apply (socks5_credentials_private (mkSim ["005"; "000"; "005"; "004"; "000"; "001"]%byte EStall [])).
  discriminate.
Defined.
