(* ===== verification/Http.v ===== *)
(** * The HTTP CONNECT connector (src/src/proxy/http.rs)

    The request, the status line, the header-draining loop, and the inlined
    base64 encoder, over the buffered reader of [Stream]. *)

From S2P Require Import Prelude RustStr RustNet ProxyConfig Stream.

(** ** Base64 *)

Definition B64_ALPHABET : bytes :=
  str "ABCDEFGHIJKLMNOPQRSTUVWXYZabcdefghijklmnopqrstuvwxyz0123456789+/".

(** [B64_ALPHABET[i]]: the index is masked to 6 bits, so it is in range. *)
Definition b64_char (i : Z) : byte := default "="%byte (B64_ALPHABET !! Z.to_nat i).

(** [input.chunks(3)] *)
Fixpoint chunks3 (input : bytes) : list bytes :=
  match input with
  | b0 :: b1 :: b2 :: rest => [b0; b1; b2] :: chunks3 rest
  | [] => []
  | last => [last]
  end.

(** The loop body of [base64_encode]. *)
Definition encode_chunk (chunk : bytes) : bytes :=
  let at_ i := u8 (default "000"%byte (chunk !! i)) in
  let b0 := at_ 0%nat in
  let b1 := if 1 <? blen chunk then at_ 1%nat else 0 in
  let b2 := if 2 <? blen chunk then at_ 2%nat else 0 in
  let combined := Z.lor (Z.lor (Z.shiftl b0 16) (Z.shiftl b1 8)) b2 in
  [b64_char (Z.land (Z.shiftr combined 18) 63);
   b64_char (Z.land (Z.shiftr combined 12) 63);
   if 1 <? blen chunk then b64_char (Z.land (Z.shiftr combined 6) 63) else "="%byte;
   if 2 <? blen chunk then b64_char (Z.land combined 63) else "="%byte].

Definition base64_encode (input : bytes) : bytes := flat_map encode_chunk (chunks3 input).

(** ** Errors *)

Inductive http_error : Type :=
| HttpTcpConnect (server : bytes) (e : io_error)
| HttpWriteRequest (e : io_error)
| ReadStatusLine (e : io_error)
| ExpectedHttpResponse (line : bytes)
| MalformedStatusLine (line : bytes)
| InvalidStatusCode (code : bytes)
| ConnectStatus (target : bytes) (code : Z)
| ReadHeaderLine (e : io_error).

(** ** The status line *)

Definition parse_status_code (status_line : bytes) : result http_error Z :=
  let parts := splitn 3 " "%byte status_line in
  let version := default [] (head parts) in
  if negb (starts_with (str "HTTP/") version) then Err (ExpectedHttpResponse status_line)
  else
    code_str ← ok_or (head (tail parts)) (MalformedStatusLine status_line);
    ok_or (parse_u16 code_str) (InvalidStatusCode code_str).

(** ** The request *)

Definition CRLF : bytes := [CR; LF].

Definition connect_text (target_str : bytes) (auth : option (bytes * bytes)) : bytes :=
  let request := str "CONNECT " ++ target_str ++ str " HTTP/1.1" ++ CRLF ++
                 str "Host: " ++ target_str ++ CRLF in
  let request :=
    match auth with
    | Some (user, pass) =>
        let credentials := base64_encode (user ++ str ":" ++ pass) in
        request ++ str "Proxy-Authorization: Basic " ++ credentials ++ CRLF
    | None => request
    end in
  request ++ CRLF.

(** ** The connector *)

Record HttpConnector : Type := mkHttpConnector {
  http_server : bytes;
  http_auth : option (bytes * bytes);
}.

Section Http.
Context {T : Type} `{TcpStreamOps T}.

Definition trim_line (line : bytes) : bytes := trim_end_matches [CR; LF] line.

(** The loop that drains the response headers.  Every iteration that goes on
    has read a non-empty line, so one more than the bytes the peer will deliver
    is enough fuel ([drain_fuel]). *)
Fixpoint drain_headers (fuel : nat) (buf_stream : BufReader) : async http_error BufReader :=
  match fuel with
  | O => Never
  | S fuel =>
      '(line, buf_stream) ← async_map_err ReadHeaderLine (read_line buf_stream);
      if decide (trim_line line = []) then mret buf_stream
      else drain_headers fuel buf_stream
  end.

Definition do_connect (stream : T) (target : ProxyTarget) (auth : option (bytes * bytes))
    : async http_error (ProxyStream T) :=
  let target_str := display_target target in
  let buf_stream := buf_new stream in
  stream ← async_map_err HttpWriteRequest (write_all (buf_inner buf_stream) (connect_text target_str auth));
  let buf_stream := buf_set_inner buf_stream stream in
  '(status_line, buf_stream) ← async_map_err ReadStatusLine (read_line buf_stream);
  status_code ← Ready (parse_status_code (trim_line status_line));
  if negb (status_code =? 200) then fail (ConnectStatus target_str status_code)
  else
    buf_stream ← drain_headers (S (length (buf_remaining buf_stream))) buf_stream;
    mret (ProxyStream_new (buf_inner buf_stream) (buf_buffer buf_stream)).

#[global] Instance http_connect `{TcpConnect T} : ProxyConnector HttpConnector http_error T :=
  fun self target =>
    stream ← async_map_err (HttpTcpConnect (http_server self)) (tcp_connect (ToString (http_server self)));
    do_connect stream target (http_auth self).

End Http.

(** ** Specification *)

(** A standard base64 decoder. *)
Definition b64_value (b : byte) : option Z :=
  (fun p => Z.of_nat p.1) <$> list_find (fun c => c = b) B64_ALPHABET.

Definition decode_quad (q0 q1 q2 q3 : byte) : option bytes :=
  v0 ← b64_value q0; v1 ← b64_value q1;
  if decide (q2 = "="%byte) then
    if decide (q3 = "="%byte) then Some [as_u8 (v0 * 4 + v1 / 16)] else None
  else
    v2 ← b64_value q2;
    if decide (q3 = "="%byte) then
      Some [as_u8 (v0 * 4 + v1 / 16); as_u8 (v1 mod 16 * 16 + v2 / 4)]
    else
      v3 ← b64_value q3;
      Some [as_u8 (v0 * 4 + v1 / 16); as_u8 (v1 mod 16 * 16 + v2 / 4); as_u8 (v2 mod 4 * 64 + v3)].

Fixpoint base64_decode (s : bytes) : option bytes :=
  match s with
  | [] => Some []
  | q0 :: q1 :: q2 :: q3 :: s =>
      d ← decode_quad q0 q1 q2 q3; r ← base64_decode s; Some (d ++ r)
  | _ => None
  end.

(** The server's reading of the request: its lines, the target, the
    credentials. *)
Definition strip_suffix (p s : bytes) : option bytes :=
  reverse <$> strip_prefix (reverse p) (reverse s).

Definition strip_around (p q s : bytes) : option bytes := strip_prefix p s ≫= strip_suffix q.

Definition decode_connect (s : bytes) : option (bytes * option bytes) :=
  match split LF s with
  | [l1; l2; [c]; []] =>
      target ← strip_around (str "CONNECT ") (str " HTTP/1.1" ++ [CR]) l1;
      host ← strip_around (str "Host: ") [CR] l2;
      if decide (host = target /\ c = CR) then Some (target, None) else None
  | [l1; l2; l3; [c]; []] =>
      target ← strip_around (str "CONNECT ") (str " HTTP/1.1" ++ [CR]) l1;
      host ← strip_around (str "Host: ") [CR] l2;
      cred ← strip_around (str "Proxy-Authorization: Basic ") [CR] l3 ≫= base64_decode;
      if decide (host = target /\ c = CR) then Some (target, Some cred) else None
  | _ => None
  end.

(** [header_block eof s r]: [s] is header lines and a blank line, followed by
    [r]; at the end of the stream the blank line may be missing. *)
Inductive header_block (eof : Prop) : bytes -> bytes -> Prop :=
| hb_blank l r : LF ∉ l -> trim_line l = [] -> header_block eof (l ++ LF :: r) r
| hb_line l s r : LF ∉ l -> trim_line l <> [] -> utf8_valid (l ++ [LF]) = true ->
    header_block eof s r -> header_block eof (l ++ LF :: s) r
| hb_eof s : eof -> LF ∉ s -> utf8_valid s = true -> header_block eof s [].

(** A response with status 200, followed by the bytes of the tunnel. *)
Inductive success_response (eof : Prop) : bytes -> bytes -> Prop :=
| resp_lines l s r : LF ∉ l -> utf8_valid (l ++ [LF]) = true ->
    parse_status_code (trim_line l) = Ok 200 -> header_block eof s r ->
    success_response eof (l ++ LF :: s) r
| resp_eof l : eof -> LF ∉ l -> utf8_valid l = true ->
    parse_status_code (trim_line l) = Ok 200 -> success_response eof l [].

(** ** Lemmas on base64 *)

Lemma b64_check i : 0 <= i < 64 ->
  b64_value (b64_char i) = Some i /\ b64_char i <> "="%byte /\ b64_char i <> LF.
Proof.
  intros Hi. assert (i ∈ seqZ 0 64) as Hin by (rewrite elem_of_seqZ; lia). revert i Hin Hi.
  apply (Forall_forall (fun i => 0 <= i < 64 -> b64_value (b64_char i) = Some i /\ b64_char i <> "="%byte /\ b64_char i <> LF)).
  apply (Forall_impl (fun i => b64_value (b64_char i) = Some i /\ b64_char i <> "="%byte /\ b64_char i <> LF)); [|done].
  by_decide.
Qed.

Lemma land_63 x : Z.land x 63 = x mod 64.
Proof. change 63 with (Z.ones 6). by rewrite Z.land_ones. Qed.

Lemma b64_mod x : 0 <= x mod 64 < 64.
Proof. apply Z.mod_pos_bound. lia. Qed.

Lemma combined_eq b0 b1 b2 : 0 <= b1 < 256 -> 0 <= b2 < 256 ->
  Z.lor (Z.lor (Z.shiftl b0 16) (Z.shiftl b1 8)) b2 = b0 * 65536 + b1 * 256 + b2.
Proof.
  intros H1 H2. replace (Z.shiftl b0 16) with (Z.shiftl (Z.shiftl b0 8) 8) by (rewrite Z.shiftl_shiftl; done || lia).
  rewrite <- Z.shiftl_lor, lor_shiftl_add by (change (2 ^ 8) with 256; lia).
  rewrite lor_shiftl_add by (change (2 ^ 8) with 256; lia). change (2 ^ 8) with 256. lia.
Qed.

(** Undo the encoder's bit operations and look up its characters. *)
Ltac b64_solve :=
  rewrite ?land_63, ?Z.shiftr_div_pow2 by lia;
  change (2 ^ 18) with 262144; change (2 ^ 12) with 4096; change (2 ^ 6) with 64;
  repeat match goal with |- context [b64_value (b64_char ?i)] => rewrite (proj1 (b64_check i (b64_mod _))) end;
  cbn [mbind option_bind];
  repeat match goal with
  | |- context [decide (b64_char ?i = "="%byte)] =>
      rewrite (decide_False (P := b64_char i = "="%byte)) by apply (b64_check i (b64_mod _))
  | |- context [b64_value (b64_char ?i)] => rewrite (proj1 (b64_check i (b64_mod _)))
  | _ => progress cbn [mbind option_bind]
  end;
  repeat (f_equal; []); repeat f_equal; apply u8_inj; rewrite u8_as_u8;
  Z.to_euclidean_division_equations; lia.

Lemma decode_encode_chunk chunk : (0 < length chunk <= 3)%nat ->
  match encode_chunk chunk with
  | [q0; q1; q2; q3] => decode_quad q0 q1 q2 q3 = Some chunk
  | _ => False
  end.
Proof.
  destruct chunk as [|b0 [|b1 [|b2 [|]]]]; simpl length; intros Hl; [lia| | | |lia];
    unfold encode_chunk; cbn [blen length lookup list_lookup default]; unfold blen, id;
    repeat match goal with |- context [?a <? Z.of_nat ?n] =>
      let v := eval vm_compute in (a <? Z.of_nat n) in change (a <? Z.of_nat n) with v end; cbv iota;
    pose proof (u8_range b0); try pose proof (u8_range b1); try pose proof (u8_range b2);
    rewrite combined_eq by lia; unfold decode_quad.
  - b64_solve.
  - b64_solve.
  - b64_solve.
Qed.

Lemma bytes_ind3 (P : bytes -> Prop) :
  P [] -> (forall b0, P [b0]) -> (forall b0 b1, P [b0; b1]) ->
  (forall b0 b1 b2 s, P s -> P (b0 :: b1 :: b2 :: s)) -> forall s, P s.
Proof.
  intros H0 H1 H2 H3. fix IH 1. intros [|b0 [|b1 [|b2 s]]]; [done|apply H1|apply H2|apply H3, IH].
Qed.

Lemma base64_decode_chunk chunk rest : (0 < length chunk <= 3)%nat ->
  base64_decode (encode_chunk chunk ++ rest) = (r ← base64_decode rest; Some (chunk ++ r)).
Proof.
  intros Hl. pose proof (decode_encode_chunk chunk Hl) as Hd.
  destruct (encode_chunk chunk) as [|q0 [|q1 [|q2 [|q3 [|]]]]]; try done. simpl. by rewrite Hd.
Qed.

Lemma base64_decode_encode s : base64_decode (base64_encode s) = Some s.
Proof.
  induction s as [|b0|b0 b1|b0 b1 b2 s IH] using bytes_ind3; [done|..];
    unfold base64_encode in *; cbn [chunks3 flat_map];
    rewrite base64_decode_chunk by (simpl; lia); [done|done|by rewrite IH].
Qed.

Lemma encode_chunk_no_LF chunk : LF ∉ encode_chunk chunk.
Proof.
  unfold encode_chunk. rewrite !land_63. rewrite !not_elem_of_cons.
  split_and!; [|..|apply not_elem_of_nil]; repeat case_if; try discriminate;
    intros E; by eapply b64_check; [apply b64_mod|].
Qed.

Lemma base64_encode_no_LF s : LF ∉ base64_encode s.
Proof.
  unfold base64_encode. induction (chunks3 s) as [|c cs IH]; cbn [flat_map]; [apply not_elem_of_nil|].
  rewrite not_elem_of_app. split; [apply encode_chunk_no_LF|done].
Qed.

(** ** Lemmas on the request *)

Lemma strip_around_app p s q : strip_around p q (p ++ s ++ q) = Some s.
Proof.
  unfold strip_around, strip_suffix. rewrite strip_prefix_app. simpl.
  rewrite reverse_app, strip_prefix_app. simpl. by rewrite reverse_involutive.
Qed.

Lemma LF_not_in_str s : forallb (fun b => negb (bool_decide (b = LF))) (str s) = true -> LF ∉ str s.
Proof.
  rewrite forallb_forall. intros Hf Hin. apply list_elem_of_In, Hf in Hin.
  by rewrite bool_decide_true in Hin.
Qed.

Lemma split_line l s : LF ∉ l -> split LF (l ++ CRLF ++ s) = (l ++ [CR]) :: split LF s.
Proof.
  intros Hl. change (l ++ CRLF ++ s) with (l ++ [CR] ++ LF :: s). rewrite app_assoc. apply split_app.
  rewrite not_elem_of_app, not_elem_of_cons. split_and!; [done|done|apply not_elem_of_nil].
Qed.

Lemma decode_connect_text target_str auth : LF ∉ target_str ->
  decode_connect (connect_text target_str auth)
  = Some (target_str, (fun '(user, pass) => user ++ str ":" ++ pass) <$> auth).
Proof.
  intros Ht. unfold decode_connect, connect_text.
  assert (forall rest, split LF ((str "CONNECT " ++ target_str ++ str " HTTP/1.1" ++ CRLF ++
    str "Host: " ++ target_str ++ CRLF) ++ rest) =
    (str "CONNECT " ++ target_str ++ str " HTTP/1.1" ++ [CR]) ::
    (str "Host: " ++ target_str ++ [CR]) :: split LF rest) as Hsplit.
  { intros rest. rewrite <- !app_assoc.
    rewrite (app_assoc (str "CONNECT ")), (app_assoc _ (str " HTTP/1.1")), split_line.
    - rewrite (app_assoc (str "Host: ")), split_line.
      + by rewrite <- !app_assoc.
      + rewrite not_elem_of_app. split; [by apply LF_not_in_str|done].
    - rewrite !not_elem_of_app. split_and!; [by apply LF_not_in_str|done|by apply LF_not_in_str]. }
  destruct auth as [[user pass]|].
  - rewrite <- (app_assoc _ _ CRLF), Hsplit, <- !app_assoc, (app_assoc (str "Proxy-Authorization: Basic ")), split_line.
    2: { rewrite not_elem_of_app. split; [by apply LF_not_in_str|apply base64_encode_no_LF]. }
    rewrite <- app_assoc. change (split LF CRLF) with [[CR]; []]. cbv iota beta.
    rewrite !strip_around_app. cbn [mbind option_bind].
    rewrite base64_decode_encode. cbn [mbind option_bind]. by rewrite decide_True.
  - rewrite Hsplit. change (split LF CRLF) with [[CR]; []]. cbv iota beta.
    rewrite !strip_around_app. cbn [mbind option_bind]. by rewrite decide_True.
Qed.

(** ** Lemmas on the response *)

Lemma trim_line_LF l : trim_line (l ++ [LF]) = trim_line l.
Proof. apply trim_end_matches_app. by_decide. Qed.

Lemma blank_utf8 l : trim_line l = [] -> utf8_valid (l ++ [LF]) = true.
Proof.
  intros Hl%trim_end_matches_nil. apply utf8_valid_ascii, Forall_app. split; [|by_decide].
  eapply Forall_impl; [exact Hl|]. intros b [-> | [-> | []%not_elem_of_nil]%elem_of_cons]%elem_of_cons; done.
Qed.

Lemma header_block_nil eof r : header_block eof [] r -> r = [].
Proof. inversion 1 as [l ? ? ? E|l ? ? ? ? ? ? E|]; [by destruct l..|done]. Qed.

Lemma header_block_mono (eof eof' : Prop) s r : (eof -> eof') -> header_block eof s r -> header_block eof' s r.
Proof. intros Hi. induction 1; constructor; auto. Qed.

Section Response.
Context {T : Type} `{TcpStreamLaws T}.

Definition at_eof (b : BufReader) : Prop := ending_of (buf_inner b) = EEof.

(** What a successful [read_line] has read. *)
Lemma read_line_inv b line b' : read_line b = Ready (Ok (line, b')) ->
  utf8_valid line = true /\ sent (buf_inner b') = sent (buf_inner b) /\
  ending_of (buf_inner b') = ending_of (buf_inner b) /\
  ((exists l, buf_remaining b = l ++ LF :: buf_remaining b' /\ LF ∉ l /\ line = l ++ [LF]) \/
   (at_eof b /\ LF ∉ buf_remaining b /\ line = buf_remaining b /\ buf_remaining b' = [])).
Proof.
  intros Hr. unfold at_eof. destruct (split_once LF (buf_remaining b)) as [[l r]|] eqn:E.
  - apply split_once_Some in E as [Hi Hl]. pose proof (read_line_newline b l r Hi Hl) as Hn.
    case_if; [|congruence]. destruct Hn as (b1 & E1 & Hr1 & He & Hs). rewrite E1 in Hr. simplify_eq. split_and!; eauto.
  - apply split_once_None in E. pose proof (read_line_end b E) as Hn.
    destruct (ending_of (buf_inner b)); [|congruence..].
    case_if; [|congruence]. destruct Hn as (b1 & E1 & Hr1 & He & Hs). rewrite E1 in Hr. simplify_eq. split_and!; eauto 10.
Qed.

Lemma read_line_LF b l r : buf_remaining b = l ++ LF :: r -> LF ∉ l -> utf8_valid (l ++ [LF]) = true ->
  exists b', read_line b = Ready (Ok (l ++ [LF], b')) /\ buf_remaining b' = r /\ (at_eof b -> at_eof b').
Proof.
  intros Hi Hl Hu. pose proof (read_line_newline b l r Hi Hl) as Hn. rewrite Hu in Hn.
  destruct Hn as (b' & ? & ? & ? & _). unfold at_eof. naive_solver congruence.
Qed.

Lemma read_line_eof b : at_eof b -> LF ∉ buf_remaining b -> utf8_valid (buf_remaining b) = true ->
  exists b', read_line b = Ready (Ok (buf_remaining b, b')) /\ buf_remaining b' = [] /\ at_eof b'.
Proof.
  unfold at_eof. intros He Hl Hu. pose proof (read_line_end b Hl) as Hn. rewrite He, Hu in Hn.
  destruct Hn as (b' & ? & ? & ? & _). eauto.
Qed.

Lemma drain_sound fuel b b' : drain_headers fuel b = Ready (Ok b') ->
  header_block (at_eof b) (buf_remaining b) (buf_remaining b') /\
  sent (buf_inner b') = sent (buf_inner b).
Proof.
  revert b. induction fuel as [|fuel IH]; intros b Hd; cbn [drain_headers] in Hd; [done|]. async_inv.
  apply read_line_inv in E0 as (Hu & Hs & He & Hcase).
  case_decide as Hb; async_inv.
  - split; [|done]. destruct Hcase as [(l' & -> & Hl & ->)|(Heof & Hl & -> & ->)].
    + apply hb_blank; [done|]. by rewrite trim_line_LF in Hb.
    + by apply hb_eof.
  - apply IH in Hd as [Hblk Hs']. split; [|congruence].
    assert (at_eof b <-> at_eof b0) as Hiff by (unfold at_eof; by rewrite He).
    destruct Hcase as [(l' & -> & Hl & ->)|(Heof & Hl & -> & Hnil)].
    + apply hb_line; [done|by rewrite trim_line_LF in Hb|done|].
      unfold at_eof in *. by rewrite He in Hblk.
    + rewrite Hnil in Hblk. apply header_block_nil in Hblk as ->. by apply hb_eof.
Qed.

Lemma drain_complete fuel b s r : header_block (at_eof b) s r -> buf_remaining b = s ->
  (length s < fuel)%nat ->
  exists b', drain_headers fuel b = Ready (Ok b') /\ buf_remaining b' = r.
Proof.
  revert b s r. induction fuel as [|fuel IH]; intros b s r Hblk Hs Hf; [lia|]. cbn [drain_headers].
  destruct Hblk as [l r Hl Hb|l s r Hl Hb Hu Hblk|s He Hl Hu].
  - destruct (read_line_LF b l r) as (b' & -> & Hr & _); [done|done|by apply blank_utf8|].
    exists b'. simpl. by rewrite trim_line_LF, decide_True.
  - destruct (read_line_LF b l s) as (b1 & -> & Hr & Heof); [done..|]. simpl.
    rewrite trim_line_LF, decide_False by done. rewrite length_app in Hf. simpl in Hf.
    apply (IH b1 s r); [|done|lia]. by eapply header_block_mono.
  - subst s. destruct (read_line_eof b) as (b1 & -> & Hr & He1); [done..|]. simpl.
    case_decide as Hb; [by eexists|]. destruct (buf_remaining b) eqn:Hbr; [done|].
    apply (IH b1 [] []); [apply hb_eof; [done|apply not_elem_of_nil|done]|done|simpl in Hf |- *; lia].
Qed.

(** The fuel of the loop is not a bound on it: any larger fuel gives the same
    result. *)
Lemma drain_fuel fuel fuel' b : (length (buf_remaining b) < fuel)%nat -> (length (buf_remaining b) < fuel')%nat ->
  drain_headers fuel b = drain_headers fuel' b.
Proof.
  revert fuel' b. induction fuel as [|fuel IH]; intros [|fuel'] b Hf Hf'; [lia..|]. cbn [drain_headers].
  destruct (read_line b) as [[[line b1]|]|] eqn:E; [|done..]. cbn [mbind async_bind async_map_err map_err].
  case_decide as Hb; [done|]. apply read_line_inv in E as (_ & _ & _ & Hcase).
  assert (length (buf_remaining b1) < length (buf_remaining b))%nat; [|apply IH; lia].
  destruct Hcase as [(l & -> & _ & ->)|(_ & _ & -> & ->)].
  - rewrite length_app. simpl. lia.
  - destruct (buf_remaining b); [done|simpl; lia].
Qed.

Lemma buf_start t d t1 : write_all (buf_inner (buf_new t)) d = Ready (Ok t1) ->
  let b := buf_set_inner (buf_new t) t1 in
  buf_remaining b = incoming t /\ sent (buf_inner b) = sent t ++ d /\
  ending_of (buf_inner b) = ending_of t.
Proof.
  intros Hw. destruct (buf_new_ok t) as [Hi Hb]. rewrite Hi in Hw. apply write_all_ok in Hw as (Hs & Hin & He).
  destruct (buf_set_inner_ok (buf_new t) t1) as [Hi' Hb']. simpl. unfold buf_remaining.
  by rewrite Hi', Hb', Hb, Hin.
Qed.

Lemma do_connect_sound t target auth ps : do_connect t target auth = Ready (Ok ps) ->
  wf_stream ps /\ sent (inner ps) = sent t ++ connect_text (display_target target) auth /\
  success_response (ending_of t = EEof) (incoming t) (remaining ps).
Proof.
  unfold do_connect. intros Hc. async_inv. apply buf_start in E0 as (Hrem & Hs & He).
  set (b0 := buf_set_inner _ _) in *.
  apply read_line_inv in E1 as (Hu & Hs1 & He1 & Hcase).
  destruct (parse_status_code _) as [code|] eqn:E1; [|done]. case_if; [done|]. bool_prop. subst. async_inv.
  apply drain_sound in E as [Hblk Hs2].
  split; [apply wf_stream_new|]. rewrite remaining_new. cbn [inner ProxyStream_new].
  split; [congruence|]. unfold at_eof in Hblk, Hcase. rewrite He1, He in Hblk. rewrite He in Hcase.
  fold (buf_remaining a0). rewrite <- Hrem.
  destruct Hcase as [(l' & -> & Hl & ->)|(Heof & Hl & -> & Hnil)].
  - rewrite trim_line_LF in E1. by apply resp_lines.
  - rewrite Hnil in Hblk. apply header_block_nil in Hblk as ->. by apply resp_eof.
Qed.

Lemma do_connect_complete t target auth r : writes_accepted T ->
  success_response (ending_of t = EEof) (incoming t) r ->
  exists ps, do_connect t target auth = Ready (Ok ps) /\ remaining ps = r.
Proof.
  intros Hw Hresp. unfold do_connect.
  destruct (Hw (buf_inner (buf_new t)) (connect_text (display_target target) auth)) as [t1 Ew].
  rewrite Ew. apply buf_start in Ew as (Hrem & Hs & He). cbn [mbind async_bind async_map_err map_err].
  set (b0 := buf_set_inner _ _) in *.
  assert (exists line b1 s, read_line b0 = Ready (Ok (line, b1)) /\
    parse_status_code (trim_line line) = Ok 200 /\ buf_remaining b1 = s /\ header_block (at_eof b1) s r)
    as (line & b1 & s & -> & Hst & Hr1 & Hblk).
  { rewrite <- Hrem in Hresp. inversion Hresp as [l s r' Hl Hu Hst Hblk E|l Heof Hl Hu Hst E]; subst.
    - destruct (read_line_LF b0 l s) as (b1 & -> & Hr & Hm); [done..|].
      eexists _, _, _. rewrite trim_line_LF. split_and!; [done..|].
      eapply header_block_mono; [|exact Hblk]. unfold at_eof in *. rewrite He in Hm. exact Hm.
    - destruct (read_line_eof b0) as (b1 & E & Hr & Hm); [by unfold at_eof; rewrite He|done..|].
      eexists _, _, []. split_and!; [done..|]. by apply hb_eof; [|apply not_elem_of_nil|]. }
  cbn [mbind async_bind async_map_err map_err]. rewrite Hst. cbn [mbind async_bind]. simpl (negb _).
  destruct (drain_complete (S (length (buf_remaining b1))) b1 s r) as (b2 & -> & Hr2); [done..|subst; lia|].
  cbn [mbind async_bind]. eexists. split; [done|]. by rewrite remaining_new.
Qed.

End Response.

(** ** Properties *)

(** C22. With a peer that accepts what it is sent, a CONNECT succeeds if and
    only if the response is a status line with code 200 and a header block
    (ended by a blank line, or cut off by the end of the stream); the client
    has then sent exactly its request, and the tunnel delivers every byte after
    the blank line and nothing before it, however the reader prefetched. *)
Theorem http_connect_spec {T} `{TcpStreamLaws T} (t : T) target auth r : writes_accepted T ->
  (exists ps, do_connect t target auth = Ready (Ok ps) /\ wf_stream ps /\
    sent (inner ps) = sent t ++ connect_text (display_target target) auth /\ remaining ps = r) <->
  success_response (ending_of t = EEof) (incoming t) r.
Proof.
  intros Hw. split.
  - intros (ps & Hps & _ & _ & <-). by apply do_connect_sound in Hps as (_ & _ & ?).
  - intros Hresp. destruct (do_connect_complete t target auth r) as (ps & Hps & Hr); [done..|].
    exists ps. pose proof (do_connect_sound _ _ _ _ Hps) as (Hwf & Hs & _). done.
Qed.

(** C37. The proxy reads the request as it is meant: for a target whose text
    has no line break, the request has exactly the lines of a CONNECT, names
    the target twice, and its credentials decode to [user:pass]. *)
Theorem http_request_decodes target auth : LF ∉ display_target target ->
  decode_connect (connect_text (display_target target) auth)
  = Some (display_target target, (fun '(user, pass) => user ++ str ":" ++ pass) <$> auth).
Proof. apply decode_connect_text. Qed.

(** The inlined base64 encoder is correct: a standard decoder recovers
    every input, of any length and padding. *)
Lemma base64_roundtrip input : base64_decode (base64_encode input) = Some input.
Proof. apply base64_decode_encode. Qed.

(** ** Observations *)

(** A response cut off before the blank line counts as success. *)
Lemma http_truncated_response_accepted :
  exists ps, do_connect (mkSim (str "HTTP/1.1 200 OK" ++ CRLF ++ str "Via: x") EEof []) (Domain (str "a.b") 80) None
    = Ready (Ok ps) /\ remaining ps = [].
Proof. eexists. split; [vm_compute; reflexivity|done]. Qed.

(** The status code is any text that parses as a [u16], not three digits. *)
Lemma http_status_not_three_digits :
  parse_status_code (str "HTTP/1.1 +00200 OK") = Ok 200 /\ parse_status_code (str "HTTP/ 200") = Ok 200.
Proof. split; vm_compute; reflexivity. Qed.

(** A host name with a line break adds header lines to the request. *)
Lemma http_request_injection :
  LF ∈ connect_text (display_target (Domain (str "a" ++ CRLF ++ str "X-Injected: 1" ++ CRLF ++ str "Y: b") 80)) None /\
  (str "X-Injected: 1" ++ [CR]) ∈
    split LF (connect_text (display_target (Domain (str "a" ++ CRLF ++ str "X-Injected: 1" ++ CRLF ++ str "Y: b") 80)) None).
Proof. split; by_decide. Qed.

(** ** Witnesses *)

Definition demo_http_proxy : sim :=
  mkSim (str "HTTP/1.1 200 Connection established" ++ CRLF ++ str "Via: x" ++ CRLF ++ CRLF ++ str "HELLO") EStall [].

Lemma http_connect_spec_witness :
  exists ps, do_connect demo_http_proxy (Domain (str "a.b") 80) None = Ready (Ok ps) /\ wf_stream ps /\
    sent (inner ps) = sent demo_http_proxy ++ connect_text (display_target (Domain (str "a.b") 80)) None /\
    remaining ps = str "HELLO".
Proof.
  apply (http_connect_spec demo_http_proxy (Domain (str "a.b") 80) None (str "HELLO")).
  - exact sim_writes_accepted.
  - apply (resp_lines _ (str "HTTP/1.1 200 Connection established" ++ [CR])
      (str "Via: x" ++ CRLF ++ CRLF ++ str "HELLO")); [by_decide|done|done|].
    apply (hb_line _ (str "Via: x" ++ [CR]) (CRLF ++ str "HELLO")); [by_decide|by_decide|done|].
    apply (hb_blank _ [CR] (str "HELLO")); [by_decide|done].
Defined.

Lemma http_request_decodes_witness :
  decode_connect (connect_text (str "a.b:80") (Some (str "u", str "p"))) = Some (str "a.b:80", Some (str "u:p")).
Proof. apply (http_request_decodes (Domain (str "a.b") 80) (Some (str "u", str "p"))). by_decide. Defined.
