(* ===== verification/Connect.v ===== *)
(** * Connecting through a route (src/src/proxy/mod.rs, src/src/proxy/direct.rs)

    The direct connector and [ProxyConfig::connect]: the connector the route
    selects, under a time limit. *)

From S2P Require Import Prelude RustStr RustNet ProxyConfig Stream Socks5 Http.

Definition CONNECT_TIMEOUT : Z := 32.

(** ** The direct connector *)

Record DirectConnector : Type := mkDirectConnector {}.

Inductive direct_error : Type :=
| DirectIp (addr : ip_addr) (port : Z) (e : io_error)
| DirectHost (host : bytes) (port : Z) (e : io_error).

Section Connect.
Context {T : Type} `{TcpStreamOps T} `{!TcpConnect T}.

#[global] Instance direct_connect : ProxyConnector DirectConnector direct_error T :=
  fun _ target =>
    stream ← match target with
             | Ip addr port => async_map_err (DirectIp addr port) (tcp_connect (ToIp addr port))
             | Domain host port => async_map_err (DirectHost host port) (tcp_connect (ToHost host port))
             end;
    mret (ProxyStream_new stream []).

(** ** [ProxyConfig::connect] *)

Inductive connect_error : Type :=
| ConnDirect (e : direct_error)
| ConnSocks5 (e : socks5_error)
| ConnHttp (e : http_error)
| ConnTimedOut.

Definition connect_inner (self : ProxyConfig) (target : ProxyTarget) : async connect_error (ProxyStream T) :=
  match self with
  | Direct => async_map_err ConnDirect (proxy_connect (mkDirectConnector) target)
  | Socks5 addr auth => async_map_err ConnSocks5 (proxy_connect (mkSocks5Connector addr auth) target)
  | Http addr auth => async_map_err ConnHttp (proxy_connect (mkHttpConnector addr auth) target)
  end.

(** [tokio::time::timeout]: [expired] says whether the limit passes before the
    future completes; a future that never completes always expires. *)
Definition timeout {E A} (elapsed : E) (expired : bool) (m : async E A) : result E A :=
  match m with
  | Ready r => if expired then Err elapsed else r
  | Never => Err elapsed
  end.

Definition connect (expired : bool) (self : ProxyConfig) (target : ProxyTarget)
    : result connect_error (ProxyStream T) :=
  timeout ConnTimedOut expired (connect_inner self target).

End Connect.

(** The network as the task with a number finds it: two tasks that connect to one
    address get two streams, and one may fail where the other does not. *)
Class Network (T : Type) : Type := network : nat -> TcpConnect T.

(** ** Specification *)

(** What an established tunnel [ps] for a route and a target means. *)
Definition tunnel {T} `{TcpStreamOps T} `{!TcpConnect T} (route : ProxyConfig) (target : ProxyTarget)
    (ps : ProxyStream T) : Prop :=
  match route with
  | Direct =>
      tcp_connect (match target with Ip addr port => ToIp addr port | Domain host port => ToHost host port end)
        = Ready (Ok (inner ps)) /\ remaining ps = incoming (inner ps)
  | Socks5 addr auth => exists t ver rsv s c,
      tcp_connect (ToString addr) = Ready (Ok t) /\ conversation ver rsv auth target s c /\
      incoming t = s ++ remaining ps /\ sent (inner ps) = sent t ++ c
  | Http addr auth => exists t,
      tcp_connect (ToString addr) = Ready (Ok t) /\
      success_response (ending_of t = EEof) (incoming t) (remaining ps) /\
      sent (inner ps) = sent t ++ connect_text (display_target target) auth
  end.

Lemma socks5_tunnel {T} `{TcpStreamLaws T} `{!TcpConnect T} addr auth target (ps : ProxyStream T) :
  proxy_connect (mkSocks5Connector addr auth) target = Ready (Ok ps) ->
  tunnel (Socks5 addr auth) target ps /\ wf_stream ps.
Proof.
  unfold proxy_connect, socks5_connect. simpl. intros Hc. async_inv.
  apply handshake_sound in Hc as (ver & rsv & s & c & Hconv & Hi & Hs & Hb & Hp).
  split; [|unfold wf_stream; rewrite Hb, Hp; done].
  exists a, ver, rsv, s, c. split_and!; [done..| |done]. rewrite Hi. unfold remaining, unread. by rewrite Hb, Hp.
Qed.

Lemma http_tunnel {T} `{TcpStreamLaws T} `{!TcpConnect T} addr auth target (ps : ProxyStream T) :
  proxy_connect (mkHttpConnector addr auth) target = Ready (Ok ps) ->
  tunnel (Http addr auth) target ps /\ wf_stream ps.
Proof.
  unfold proxy_connect, http_connect. simpl. intros Hc. async_inv.
  apply do_connect_sound in Hc as (Hwf & Hs & Hr). split; [|done]. by exists a.
Qed.

Lemma direct_tunnel {T} `{TcpStreamLaws T} `{!TcpConnect T} target (ps : ProxyStream T) :
  proxy_connect mkDirectConnector target = Ready (Ok ps) -> tunnel Direct target ps /\ wf_stream ps.
Proof.
  unfold proxy_connect, direct_connect. destruct target; intros Hc; async_inv;
    (split; [|apply wf_stream_new]); done.
Qed.

(** [connect] always returns, and when it returns a tunnel it is the one the
    route stands for: the target's own address for [direct], otherwise the
    proxy's, after a complete handshake for exactly this target; its bytes are
    those that follow the handshake. *)
Lemma connect_establishes {T} `{TcpStreamLaws T} `{!TcpConnect T} expired route target (ps : ProxyStream T) :
  connect expired route target = Ok ps -> expired = false /\ tunnel route target ps /\ wf_stream ps.
Proof.
  unfold connect, timeout. destruct (connect_inner route target) as [r|] eqn:E; [|done].
  destruct expired; [done|]. intros ->. split; [done|].
  destruct route; cbn [connect_inner] in E; async_inv.
  - by apply direct_tunnel.
  - by apply socks5_tunnel.
  - by apply http_tunnel.
Qed.

(** C5. A proxied route leaks nothing to the host's network: the only address
    it opens is the proxy's, so its outcome does not depend on what any other
    connection or name lookup would do; in particular the target's domain is
    never resolved on the host. *)
Theorem connect_no_leak {T} `{TcpStreamOps T} (net net' : TcpConnect T) expired addr auth target :
  net (ToString addr) = net' (ToString addr) ->
  @connect T _ net expired (Socks5 addr auth) target = @connect T _ net' expired (Socks5 addr auth) target /\
  @connect T _ net expired (Http addr auth) target = @connect T _ net' expired (Http addr auth) target.
Proof.
  intros Hnet. unfold connect, connect_inner, proxy_connect, socks5_connect, http_connect, tcp_connect.
  simpl. by rewrite Hnet.
Qed.

(** ** Witnesses *)

(** A network with one HTTP proxy. *)
Definition demo_net : TcpConnect sim := fun addr =>
  match addr with
  | ToString a => if decide (a = str "proxy:8080") then Ready (Ok demo_http_proxy) else Ready (Err (OtherIo 111))
  | _ => Ready (Err (OtherIo 111))
  end.

(** A network that also resolves every host name. *)
Definition leaky_net : TcpConnect sim := fun addr =>
  match addr with
  | ToHost _ _ => Ready (Ok (mkSim [] EStall []))
  | _ => demo_net addr
  end.

Lemma connect_no_leak_witness :
  @connect sim _ demo_net false (Http (str "proxy:8080") None) (Domain (str "a.b") 80)
  = @connect sim _ leaky_net false (Http (str "proxy:8080") None) (Domain (str "a.b") 80).
Proof. apply (connect_no_leak demo_net leaky_net). reflexivity. Defined.
