(* ===== verification/Tun.v ===== *)
(** * The TUN device (src/src/tun.rs)

    The packet queue between the TUN file descriptor and the network stack,
    and the packet inspection that detects TCP connection attempts.  The file
    descriptor is an interface: [read] and [write] on it, and the packets the
    kernel has queued for it. *)

From S2P Require Import Prelude RustStr RustNet Config.

Definition MTU : Z := TUN_MTU.

(** ** The file descriptor *)

Class TunFd (F : Type) : Type := {
  (** [libc::read(fd, buf, cap)]: the result and the bytes stored in [buf]. *)
  fd_read : F -> Z -> Z * bytes * F;
  (** [libc::write(fd, buf)] *)
  fd_write : F -> bytes -> Z * F;
  (** [fcntl(F_GETFL)] and [fcntl(F_SETFL, flags)]; [None] is an error *)
  fd_getfl : F -> option Z;
  fd_setfl : F -> Z -> option F;
  (** The number of packets the kernel holds for the descriptor. *)
  fd_pending : F -> nat;
}.

Class TunFdLaws (F : Type) `{TunFd F} : Prop := {
  fd_setfl_getfl f flags f' : fd_setfl f flags = Some f' -> fd_getfl f' = Some flags;
  fd_read_some f cap n d f' : fd_read f cap = (n, d, f') -> 0 < n ->
    blen d = n /\ n <= cap /\ (fd_pending f' < fd_pending f)%nat;
}.

(** ** [TunDevice] *)

Definition O_NONBLOCK : Z := 2048.

Record TunDevice (F : Type) : Type := mkTunDevice {
  fd : F;
  rx_queue : list bytes;
}.
Arguments mkTunDevice {F}.
Arguments fd {F}.
Arguments rx_queue {F}.

Section TunDevice.
Context {F : Type} `{TunFd F}.

Definition TunDevice_new (f : F) : option (TunDevice F) :=
  flags ← fd_getfl f;
  f ← fd_setfl f (Z.lor flags O_NONBLOCK);
  Some (mkTunDevice f []).

Definition tun_poll_read (self : TunDevice F) : bool * TunDevice F :=
  let '(n, buf, f) := fd_read (fd self) (MTU + 100) in
  if n <=? 0 then (false, mkTunDevice f (rx_queue self))
  else (true, mkTunDevice f (rx_queue self ++ [buf])).

(** [while self.device.poll_read() {}]: the kernel's queue is finite, one more
    than its length is enough fuel ([tun_drain_stops]). *)
Fixpoint tun_drain (fuel : nat) (self : TunDevice F) : bool * TunDevice F :=
  match fuel with
  | O => (true, self)
  | S fuel => let '(more, self) := tun_poll_read self in
              if more then tun_drain fuel self else (false, self)
  end.

Definition tun_drain_all (self : TunDevice F) : TunDevice F :=
  (tun_drain (S (fd_pending (fd self))) self).2.

(** [Device::capabilities] *)
Inductive Medium : Type := MediumIp | MediumEthernet.

Record DeviceCapabilities : Type := mkCapabilities {
  medium : Medium;
  max_transmission_unit : Z;
}.

Definition tun_capabilities (_ : TunDevice F) : DeviceCapabilities := mkCapabilities MediumIp MTU.

(** [RxToken::consume] *)
Definition tun_rx_consume {R} (token : bytes) (f : bytes -> R) : R := f token.

(** [Device::receive]: the front packet as the receive token. *)
Definition tun_receive (self : TunDevice F) : option bytes * TunDevice F :=
  match rx_queue self with
  | [] => (None, self)
  | buf :: q => (Some buf, mkTunDevice (fd self) q)
  end.

(** [TxToken::consume]: [f] fills a buffer of [len] zero bytes, which is then
    written; a failed write is only logged. *)
Definition tun_transmit {R} (self : TunDevice F) (len : nat) (f : bytes -> R * bytes) : R * TunDevice F :=
  let '(result, buf) := f (replicate len "000"%byte) in
  let '(_, f') := fd_write (fd self) buf in
  (result, mkTunDevice f' (rx_queue self)).

End TunDevice.

(** ** Packet inspection *)

Definition EndpointKey : Type := Z * Z * Z * Z.

Definition parse_tcp_syn (packet : bytes) : popt EndpointKey :=
  if (length packet <? 40)%nat then PNone
  else
    b0 ← idx packet 0;
    if negb (Z.shiftr (u8 b0) 4 =? 4) then PNone
    else
      let ihl := Z.to_nat (Z.land (u8 b0) 15 * 4) in
      protocol ← idx packet 9;
      if negb (u8 protocol =? 6) then PNone
      else if (length packet <? ihl + 20)%nat then PNone
      else
        flags ← idx packet (ihl + 13);
        if negb (negb (Z.land (u8 flags) 2 =? 0) && (Z.land (u8 flags) 16 =? 0)) then PNone
        else
          s0 ← idx packet 12; s1 ← idx packet 13; s2 ← idx packet 14; s3 ← idx packet 15;
          p0 ← idx packet ihl; p1 ← idx packet (ihl + 1);
          d0 ← idx packet 16; d1 ← idx packet 17; d2 ← idx packet 18; d3 ← idx packet 19;
          q0 ← idx packet (ihl + 2); q1 ← idx packet (ihl + 3);
          mret (ipv4_new (u8 s0) (u8 s1) (u8 s2) (u8 s3), from_be16 p0 p1,
                ipv4_new (u8 d0) (u8 d1) (u8 d2) (u8 d3), from_be16 q0 q1).

(** ** Specification *)

(** The layout of an IPv4 packet (RFC 791) with a TCP header (RFC 793) whose
    SYN flag is set and ACK flag is clear. *)
Inductive syn_packet : EndpointKey -> bytes -> Prop :=
| syn_packet_intro vihl words tos_to_ttl checksum src sport dst dport options seq_ack offset flags rest :
    u8 vihl = 64 + words -> 5 <= words <= 15 ->
    length tos_to_ttl = 8%nat -> length checksum = 2%nat ->
    is_u32 src -> is_u32 dst -> is_u16 sport -> is_u16 dport ->
    Z.of_nat (length options) = 4 * (words - 5) ->
    length seq_ack = 8%nat -> (6 <= length rest)%nat ->
    Z.testbit (u8 flags) 1 = true -> Z.testbit (u8 flags) 4 = false ->
    syn_packet (src, sport, dst, dport)
      (([vihl] ++ tos_to_ttl ++ ["006"%byte] ++ checksum ++ be32 src ++ be32 dst ++ options) ++
       (be16 sport ++ be16 dport ++ seq_ack ++ [offset; flags] ++ rest)).

(** The IHL field, in 32-bit words. *)
Definition ihl_words (packet : bytes) : Z :=
  match packet with b0 :: _ => Z.land (u8 b0) 15 | [] => 0 end.

(** ** Lemmas *)

Lemma byte_check (P : Z -> bool) (b : byte) : forallb P (seqZ 0 256) = true -> P (u8 b) = true.
Proof. intros HP. apply byte_values; [done|apply u8_range]. Qed.

Lemma syn_bit b : negb (Z.land (u8 b) 2 =? 0) = Z.testbit (u8 b) 1.
Proof.
  apply Bool.eqb_prop, (byte_check (fun n => Bool.eqb (negb (Z.land n 2 =? 0)) (Z.testbit n 1))). by vm_compute.
Qed.

Lemma ack_bit b : (Z.land (u8 b) 16 =? 0) = negb (Z.testbit (u8 b) 4).
Proof.
  apply Bool.eqb_prop, (byte_check (fun n => Bool.eqb (Z.land n 16 =? 0) (negb (Z.testbit n 4)))). by vm_compute.
Qed.

Lemma version_ihl b : Z.shiftr (u8 b) 4 = 4 <-> u8 b = 64 + Z.land (u8 b) 15.
Proof.
  rewrite <- !Z.eqb_eq. apply Bool.eq_iff_eq_true, Bool.eqb_prop,
    (byte_check (fun n => Bool.eqb (Z.shiftr n 4 =? 4) (n =? 64 + Z.land n 15))). by vm_compute.
Qed.

Lemma land_15_range b : 0 <= Z.land (u8 b) 15 <= 15.
Proof.
  rewrite <- !Z.leb_le, <- andb_true_iff.
  apply (byte_check (fun n => (0 <=? Z.land n 15) && (Z.land n 15 <=? 15))). by vm_compute.
Qed.

Lemma low_nibble words b : u8 b = 64 + words -> 0 <= words <= 15 -> Z.land (u8 b) 15 = words.
Proof.
  intros -> Hw. change 15 with (Z.ones 4). rewrite Z.land_ones by lia. change (2 ^ 4) with 16.
  replace (64 + words) with (words + 4 * 16) by lia. rewrite Z.mod_add by lia. apply Z.mod_small. lia.
Qed.

Lemma idx_app h t k : idx (h ++ t) (length h + k) = idx t k.
Proof. unfold idx. rewrite lookup_app_r by lia. by replace (length h + k - length h)%nat with k by lia. Qed.

(** [parse_tcp_syn] on a packet split at its IP header length: the network
    header [h], the transport header and payload [t]. *)
Lemma parse_tcp_syn_split h t : (20 <= length h)%nat -> (20 <= length t)%nat ->
  Z.of_nat (length h) = 4 * ihl_words h ->
  parse_tcp_syn (h ++ t) =
    match h, t with
    | b0 :: _ :: _ :: _ :: _ :: _ :: _ :: _ :: _ :: proto :: _ :: _ ::
      s0 :: s1 :: s2 :: s3 :: d0 :: d1 :: d2 :: d3 :: _,
      p0 :: p1 :: q0 :: q1 :: _ :: _ :: _ :: _ :: _ :: _ :: _ :: _ :: _ :: flags :: _ =>
        if (Z.shiftr (u8 b0) 4 =? 4) && (u8 proto =? 6) &&
           (Z.testbit (u8 flags) 1 && negb (Z.testbit (u8 flags) 4))
        then PSome (from_be32 s0 s1 s2 s3, from_be16 p0 p1, from_be32 d0 d1 d2 d3, from_be16 q0 q1)
        else PNone
    | _, _ => PNone
    end.
Proof.
  intros Hh Ht Hw. do 20 (destruct h as [|? h]; [simpl in Hh; lia|]).
  do 14 (destruct t as [|? t]; [simpl in Ht; lia|]).
  set (hd := _ :: _) in *. set (tl := b19 :: _) in *.
  assert (forall k x, hd !! k = Some x -> idx (hd ++ tl) k = PSome x) as Hhd
    by (intros k x Hk; apply idx_Some; by apply lookup_app_l_Some).
  pose proof (idx_app hd tl 0) as Hp0. rewrite Nat.add_0_r in Hp0.
  unfold parse_tcp_syn. rewrite (proj2 (Nat.ltb_ge _ _)) by (rewrite length_app; lia).
  rewrite (Hhd 0%nat b eq_refl). cbn [mbind popt_bind].
  assert (Z.to_nat (Z.land (u8 b) 15 * 4) = length hd) as ->
    by (change (ihl_words hd) with (Z.land (u8 b) 15) in Hw; lia).
  destruct (Z.shiftr (u8 b) 4 =? 4); [|done]. cbn [negb andb].
  rewrite (Hhd 9%nat b8 eq_refl). cbn [mbind popt_bind].
  destruct (u8 b8 =? 6); [|done]. cbn [negb andb].
  rewrite (proj2 (Nat.ltb_ge _ _)) by (rewrite length_app; lia).
  rewrite !idx_app, Hp0. change (idx tl 13) with (PSome b32). cbn [mbind popt_bind].
  rewrite syn_bit, ack_bit. destruct (_ && _); [|done]. cbn [negb].
  rewrite (Hhd 12%nat b11 eq_refl), (Hhd 13%nat b12 eq_refl), (Hhd 14%nat b13 eq_refl), (Hhd 15%nat b14 eq_refl),
    (Hhd 16%nat b15 eq_refl), (Hhd 17%nat b16 eq_refl), (Hhd 18%nat b17 eq_refl), (Hhd 19%nat b18 eq_refl).
  cbn [mbind popt_bind]. unfold ipv4_new. by rewrite !as_u8_u8.
Qed.

Lemma parse_tcp_syn_no_panic packet : parse_tcp_syn packet <> PPanic.
Proof.
  unfold parse_tcp_syn. case_if; [done|]. apply Nat.ltb_ge in Heqb.
  destruct (idx_lt packet 0) as (b0 & -> & _); [lia|]. cbn [mbind popt_bind]. case_if; [done|].
  destruct (idx_lt packet 9) as (b9 & -> & _); [lia|]. cbn [mbind popt_bind]. case_if; [done|].
  case_if; [done|]. apply Nat.ltb_ge in Heqb2. set (ihl := Z.to_nat _) in *.
  destruct (idx_lt packet (ihl + 13)) as (fl & -> & _); [lia|]. cbn [mbind popt_bind]. case_if; [done|].
  repeat match goal with |- context [idx packet ?k] =>
    let H := fresh in destruct (idx_lt packet k) as (? & H & _); [lia|]; rewrite H; clear H; cbn [mbind popt_bind] end.
  done.
Qed.

(** Split a packet with a full IP header at its header length. *)
Lemma packet_split packet k : parse_tcp_syn packet = PSome k -> 5 <= ihl_words packet ->
  exists h t, packet = h ++ t /\ (20 <= length h)%nat /\ (20 <= length t)%nat /\
    Z.of_nat (length h) = 4 * ihl_words h.
Proof.
  intros Hp Hw. unfold parse_tcp_syn in Hp. case_if; [done|]. apply Nat.ltb_ge in Heqb.
  destruct packet as [|b0 packet]; [simpl in Heqb; lia|]. cbn [idx lookup list_lookup mbind popt_bind] in Hp.
  case_if; [done|]. destruct (idx _ 9) as [b9| |]; cbn [mbind popt_bind] in Hp; [|done..]. case_if; [done|].
  case_if; [done|]. apply Nat.ltb_ge in Heqb2. set (ihl := Z.to_nat _) in *.
  cbn [ihl_words] in Hw. set (p := b0 :: packet) in *.
  exists (take ihl p), (drop ihl p). rewrite take_drop, length_take, length_drop.
  assert (ihl_words (take ihl p) = ihl_words p) as ->.
  { destruct ihl eqn:E; [lia|done]. }
  change (ihl_words p) with (Z.land (u8 b0) 15). split_and!; [done|lia|lia|lia].
Qed.

Lemma syn_packet_parse k packet : syn_packet k packet ->
  parse_tcp_syn packet = PSome k /\ 5 <= ihl_words packet.
Proof.
  destruct 1 as [vihl words ttl chk src sport dst dport options sa off flags rest
    Hv Hw Hl1 Hl2 Hsrc Hdst (p0 & p1 & Ep & <-)%be16_bytes (q0 & q1 & Eq & <-)%be16_bytes Ho Hl3 Hr Hsyn Hack].
  destruct (be32_octets src Hsrc) as (s0 & s1 & s2 & s3 & -> & <-).
  destruct (be32_octets dst Hdst) as (d0 & d1 & d2 & d3 & -> & <-). rewrite Ep, Eq.
  assert (Z.land (u8 vihl) 15 = words) as Hn by (apply low_nibble; lia).
  do 8 (destruct ttl as [|? ttl]; [done|]). destruct ttl; [|done].
  do 2 (destruct chk as [|? chk]; [done|]). destruct chk; [|done].
  do 8 (destruct sa as [|? sa]; [done|]). destruct sa; [|done]. cbn [app].
  split; [|cbn [ihl_words]; lia].
  match goal with |- parse_tcp_syn ?l = _ => match l with ?b0 :: ?b1 :: ?b2 :: ?b3 :: ?b4 :: ?b5 :: ?b6 :: ?b7 :: ?b8 :: ?b9
    :: ?b10 :: ?b11 :: ?b12 :: ?b13 :: ?b14 :: ?b15 :: ?b16 :: ?b17 :: ?b18 :: ?b19 :: options ++ ?t =>
    change l with ((b0 :: b1 :: b2 :: b3 :: b4 :: b5 :: b6 :: b7 :: b8 :: b9 :: b10 :: b11 :: b12 :: b13 :: b14
      :: b15 :: b16 :: b17 :: b18 :: b19 :: options) ++ t) end end.
  rewrite parse_tcp_syn_split by (cbn [length ihl_words]; lia).
  rewrite (proj2 (Z.eqb_eq _ _)) by (apply version_ihl; lia). by rewrite Hsyn, Hack.
Qed.

Lemma parse_syn_packet k packet : parse_tcp_syn packet = PSome k -> 5 <= ihl_words packet ->
  syn_packet k packet.
Proof.
  intros Hp Hw. destruct (packet_split packet k Hp Hw) as (h & t & -> & Hh & Ht & Hl).
  rewrite parse_tcp_syn_split in Hp by done.
  do 20 (destruct h as [|? h]; [simpl in Hh; lia|]). do 14 (destruct t as [|? t]; [simpl in Ht; lia|]).
  case_if; [|done]. bool_prop. injection Hp as <-. apply version_ihl in H. cbn [ihl_words] in Hl.
  assert (b8 = "006"%byte) as -> by by apply u8_inj.
  pose proof (syn_packet_intro b (Z.land (u8 b) 15) [b0; b1; b2; b3; b4; b5; b6; b7] [b9; b10]
    (from_be32 b11 b12 b13 b14) (from_be16 b19 b20) (from_be32 b15 b16 b17 b18) (from_be16 b21 b22)
    h [b23; b24; b25; b26; b27; b28; b29; b30] b31 b32 t) as Hs.
  rewrite !be32_from_be32, !be16_from_be16 in Hs. pose proof (land_15_range b). simpl in Hh, Ht, Hl.
  apply Hs; auto using from_be32_range, from_be16_range; try lia; by apply negb_true_iff.
Qed.

(** C38. SYN detection: no packet makes it panic, and on packets with a legal
    header length it finds exactly the IPv4 TCP segments with SYN set and ACK
    clear, with their addresses and ports, options of any length included. *)
Theorem parse_tcp_syn_spec packet k :
  parse_tcp_syn packet <> PPanic /\
  (parse_tcp_syn packet = PSome k /\ 5 <= ihl_words packet <-> syn_packet k packet).
Proof.
  split; [apply parse_tcp_syn_no_panic|]. split.
  - intros [Hp Hw]. by apply parse_syn_packet.
  - apply syn_packet_parse.
Qed.

(** A header length below the minimum is not rejected: the "ports" and "flags"
    are then read from the IP header itself. *)
Lemma parse_tcp_syn_short_ihl :
  parse_tcp_syn (["064"; "000"; "001"; "187"; "000"; "000"; "000"; "000"; "064"; "006"; "000"; "000";
                  "010"; "002"; "000"; "001"; "010"; "000"; "000"; "002"]%byte ++ replicate 20 "000"%byte)
  = PSome (ipv4_new 10 2 0 1, 16384, ipv4_new 10 0 0 2, 443).
Proof. vm_compute. reflexivity. Qed.

(** ** The queue *)

(** The device never blocks the loop. *)
Lemma TunDevice_new_nonblocking {F} `{TunFdLaws F} (f : F) dev : TunDevice_new f = Some dev ->
  rx_queue dev = [] /\ exists flags, fd_getfl (fd dev) = Some flags /\ Z.land flags O_NONBLOCK = O_NONBLOCK.
Proof.
  unfold TunDevice_new. destruct (fd_getfl f) as [flags|]; [|done]. cbn [mbind option_bind].
  destruct (fd_setfl f (Z.lor flags O_NONBLOCK)) as [f'|] eqn:E; [|done]. cbn [mbind option_bind].
  intros [= <-]. split; [done|]. exists (Z.lor flags O_NONBLOCK). split; [by apply fd_setfl_getfl in E|].
  apply Z.bits_inj'. intros i _. rewrite Z.land_spec, Z.lor_spec.
  by destruct (Z.testbit flags i), (Z.testbit O_NONBLOCK i).
Qed.

Lemma tun_drain_spec {F} `{TunFdLaws F} fuel (dev : TunDevice F) : (fd_pending (fd dev) < fuel)%nat ->
  exists new dev', tun_drain fuel dev = (false, dev') /\ rx_queue dev' = rx_queue dev ++ new /\
    Forall (fun p => 0 < blen p <= MTU + 100) new.
Proof.
  revert dev. induction fuel as [|fuel IH]; intros dev Hf; [lia|]. cbn [tun_drain]. unfold tun_poll_read.
  destruct (fd_read (fd dev) (MTU + 100)) as [[n buf] f] eqn:E.
  destruct (n <=? 0) eqn:Hn; bool_prop; cbv beta iota.
  - eexists [], _. split_and!; [done|by rewrite app_nil_r|done].
  - apply fd_read_some in E as (Hb & Hcap & Hp); [|done].
    destruct (IH (mkTunDevice f (rx_queue dev ++ [buf]))) as (new & dev' & -> & Hq & Hall); [simpl; lia|].
    exists (buf :: new), dev'. split_and!; [done| |].
    + rewrite Hq. simpl. by rewrite <- app_assoc.
    + constructor; [lia|done].
Qed.

(** Draining the TUN device ends by itself, whatever the kernel holds; it
    appends the packets in the order read behind those already queued, each of
    1 to MTU + 100 bytes, and [receive] hands them out front first. *)
Theorem tun_queue_fifo {F} `{TunFdLaws F} (dev : TunDevice F) :
  exists new, (tun_drain (S (fd_pending (fd dev))) dev).1 = false /\
    rx_queue (tun_drain_all dev) = rx_queue dev ++ new /\
    Forall (fun p => 0 < blen p <= MTU + 100) new /\
    (forall p dev', tun_receive (tun_drain_all dev) = (Some p, dev') ->
       rx_queue dev ++ new = p :: rx_queue dev').
Proof.
  destruct (tun_drain_spec (S (fd_pending (fd dev))) dev) as (new & dev' & E & Hq & Hall); [lia|].
  exists new. unfold tun_drain_all. rewrite E. cbn [fst snd]. split_and!; [done..|].
  intros p dev''. unfold tun_receive. rewrite Hq. by destruct (rx_queue dev ++ new); intros [= <- <-].
Qed.

(** A descriptor with a queue of packets, truncated to the reader's buffer. *)
#[global] Instance queue_fd : TunFd (list bytes) := {|
  fd_read f cap := match f with
                   | [] => (-1, [], [])
                   | p :: f => let d := take (Z.to_nat cap) p in (blen d, d, f)
                   end;
  fd_write f d := (blen d, f);
  fd_getfl _ := Some O_NONBLOCK;
  fd_setfl f flags := if flags =? O_NONBLOCK then Some f else None;
  fd_pending := length;
|}.

#[global] Instance queue_fd_laws : TunFdLaws (list bytes).
Proof.
  split.
  { intros f flags f'. simpl. case_if; [|done]. by bool_prop; subst. }
  intros [|p f] cap n d f' E Hn; simpl in E; simplify_eq; [lia|].
  split_and!; [done| |simpl; lia]. unfold blen in *. rewrite length_take in *. lia.
Qed.

Lemma tun_queue_fifo_witness :
  exists new, rx_queue (tun_drain_all (mkTunDevice [str "a"; str "b"] [str "z"])) = [str "z"] ++ new.
Proof.
  destruct (tun_queue_fifo (mkTunDevice [str "a"; str "b"] [str "z"])) as (new & _ & Hq & _). by exists new.
Defined.
