(* ===== verification/Smoltcp.v ===== *)
(** * The network stack and the runtime (smoltcp, tokio)

    The third-party code the event loop drives, as interfaces: TCP and UDP
    sockets, the socket set, the interface, spawned tasks, and the order in
    which a hash map is traversed.  Each class of operations comes with a class
    of laws that states documented behaviour; the histories ([delivered],
    [accepted], [udp_received], [udp_sent]) record what crossed the interface.

    Handlers that index a socket set or a map return an [option]: [None] is a
    panic. *)

From S2P Require Import Prelude RustStr RustNet Stream ProxyConfig Tun.

(** ** TCP sockets ([smoltcp::socket::tcp]) *)

Module tcp.
Inductive State : Type :=
| Closed | Listen | SynSent | SynReceived | Established | FinWait1 | FinWait2
| CloseWait | Closing | LastAck | TimeWait.
End tcp.

#[global] Instance tcp_State_eq_dec : EqDecision tcp.State.
Proof. solve_decision. Defined.

Definition endpoint : Type := ipv4 * Z.

Class TcpSocketOps (S Cx : Type) : Type := {
  (** [tcp::Socket::new] with receive and transmit buffers of these sizes *)
  sock_new : Z -> Z -> S;
  set_nagle_enabled : S -> bool -> S;
  state : S -> tcp.State;
  local_endpoint : S -> option endpoint;
  may_recv : S -> bool;
  may_send : S -> bool;
  can_recv : S -> bool;
  can_send : S -> bool;
  send_queue : S -> Z;
  recv_queue : S -> Z;
  abort : S -> S;
  (** [listen] on any address and a port; [None] is an error *)
  listen : S -> Z -> option S;
  (** [connect(cx, remote, local)] *)
  sock_connect : S -> Cx -> endpoint -> endpoint -> result Z S * Cx;
  (** [recv(f)] offers [f] a slice of received data, then drops what [f]
      consumed; [None] is an error, reported before [f] runs. *)
  recv_slice_of : S -> option bytes;
  recv_consume : S -> Z -> S;
  send_slice : S -> bytes -> result Z Z * S;
  (** Histories: every byte handed out by [recv], every byte accepted by
      [send_slice]. *)
  delivered : S -> bytes;
  accepted : S -> bytes;
}.

(** The three-way handshake is over. *)
Definition past_handshake (st : tcp.State) : bool :=
  match st with tcp.Listen | tcp.SynSent | tcp.SynReceived => false | _ => true end.

(** A connection keeps its local endpoint, or loses it when it is gone. *)
Definition endpoint_kept {S Cx} `{TcpSocketOps S Cx} (s s' : S) : Prop :=
  past_handshake (state s) = true ->
  past_handshake (state s') = true /\ (local_endpoint s' = local_endpoint s \/ local_endpoint s' = None).

Class TcpSocketLaws (S Cx : Type) `{TcpSocketOps S Cx} : Prop := {
  sock_new_fresh rx tx : delivered (sock_new rx tx) = [] /\ accepted (sock_new rx tx) = [];
  set_nagle_history s b : delivered (set_nagle_enabled s b) = delivered s /\
    accepted (set_nagle_enabled s b) = accepted s;
  abort_closed s : state (abort s) = tcp.Closed /\ may_send (abort s) = false;
  abort_history s : delivered (abort s) = delivered s /\ accepted (abort s) = accepted s;
  listen_history s p s' : listen s p = Some s' -> delivered s' = delivered s /\ accepted s' = accepted s;
  sock_connect_history s cx r l s' cx' : sock_connect s cx r l = (Ok s', cx') ->
    delivered s' = delivered s /\ accepted s' = accepted s;
  recv_consume_history s d n : recv_slice_of s = Some d -> 0 <= n <= blen d ->
    delivered (recv_consume s n) = delivered s ++ take (Z.to_nat n) d /\
    accepted (recv_consume s n) = accepted s;
  send_slice_ok s d n s' : send_slice s d = (Ok n, s') ->
    0 <= n <= blen d /\ accepted s' = accepted s ++ take (Z.to_nat n) d /\ delivered s' = delivered s;
  send_slice_err s d e s' : send_slice s d = (Err e, s') ->
    accepted s' = accepted s /\ delivered s' = delivered s;
  send_queue_nonneg s : 0 <= send_queue s;
  (** A connected socket has a local endpoint. *)
  connected_endpoint s : state s = tcp.Established \/ state s = tcp.CloseWait -> is_Some (local_endpoint s);
  (** Only the stack moves a socket to another connection. *)
  abort_endpoint s : endpoint_kept s (abort s);
  recv_consume_endpoint s n : endpoint_kept s (recv_consume s n);
  send_slice_endpoint s d : endpoint_kept s (send_slice s d).2;
}.

(** ** UDP sockets ([smoltcp::socket::udp]) *)

Class UdpSocketOps (U : Type) : Type := {
  (** metadata slots and payload bytes of the receive and transmit buffers *)
  udp_new : Z * Z -> Z * Z -> U;
  (** [None] is an error *)
  udp_bind : U -> endpoint -> option U;
  udp_can_recv : U -> bool;
  udp_can_send : U -> bool;
  (** [recv_slice] into a buffer of this size: the datagram and its sender *)
  udp_recv_slice : U -> Z -> option (bytes * endpoint) * U;
  (** [send_slice]: whether the datagram was queued *)
  udp_send_slice : U -> bytes -> endpoint -> bool * U;
  (** The datagrams waiting to be received, and those queued for sending. *)
  udp_received : U -> list (bytes * endpoint);
  udp_sent : U -> list (bytes * endpoint);
}.

Class UdpSocketLaws (U : Type) `{UdpSocketOps U} : Prop := {
  udp_bind_new rx tx ip port : 0 < port -> exists u, udp_bind (udp_new rx tx) (ip, port) = Some u /\
    udp_received u = [] /\ udp_sent u = [];
  udp_can_recv_spec u : udp_can_recv u = true <-> udp_received u <> [];
  udp_recv_ok u cap d m u' : udp_recv_slice u cap = (Some (d, m), u') ->
    udp_received u = (d, m) :: udp_received u' /\ udp_sent u' = udp_sent u /\ blen d <= cap;
  udp_recv_err u cap u' : udp_recv_slice u cap = (None, u') -> udp_sent u' = udp_sent u /\
    (udp_received u = [] /\ udp_received u' = [] \/
     exists d m, udp_received u = (d, m) :: udp_received u' /\ cap < blen d);
  udp_send_spec u d m b u' : udp_send_slice u d m = (b, u') ->
    udp_received u' = udp_received u /\ udp_sent u' = udp_sent u ++ (if b then [(d, m)] else []);
}.

(** ** The socket set ([smoltcp::iface::SocketSet]) *)

Abbreviation SocketHandle := nat (only parsing).

Inductive socket (S U : Type) : Type := Tcp (s : S) | Udp (u : U).
Arguments Tcp {S U} s.
Arguments Udp {S U} u.

Abbreviation SocketSet S U := (gmap nat (socket S U)).

(** [add] picks a handle; which one is the stack's business, but it is free. *)
Class SocketAlloc (S U : Type) : Type := {
  alloc_handle : SocketSet S U -> SocketHandle;
  alloc_handle_fresh ss : ss !! alloc_handle ss = None;
}.

Section SocketSet.
Context {S U : Type}.
Implicit Types (ss : gmap nat (socket S U)).

Definition socket_add `{SocketAlloc S U} (ss : SocketSet S U) (s : socket S U) : SocketHandle * SocketSet S U :=
  let h := alloc_handle ss in (h, <[h := s]> ss).

(** [get::<tcp::Socket>(h)]; panics for a handle that is not a TCP socket. *)
Definition get_tcp (ss : SocketSet S U) (h : SocketHandle) : option S :=
  match ss !! h with Some (Tcp s) => Some s | _ => None end.

Definition get_udp (ss : SocketSet S U) (h : SocketHandle) : option U :=
  match ss !! h with Some (Udp u) => Some u | _ => None end.

(** Writing back a socket changed through [get_mut]. *)
Definition put (ss : SocketSet S U) (h : SocketHandle) (s : socket S U) : SocketSet S U := <[h := s]> ss.

(** [remove(h)]; panics for an unknown handle. *)
Definition socket_remove (ss : SocketSet S U) (h : SocketHandle) : option (SocketSet S U) :=
  match ss !! h with Some _ => Some (delete h ss) | None => None end.

End SocketSet.

(** ** The interface ([smoltcp::iface::Interface]) *)

Class InterfaceOps (I F S U : Type) : Type := {
  (** [Interface::new] for a stack without link layer, with this random seed *)
  iface_new : Z -> I;
  (** [update_ip_addrs(|addrs| addrs.push(cidr))]; [None] when the list is full *)
  push_addr : I -> ipv4 * Z -> option I;
  (** [routes_mut().add_default_ipv4_route(gateway)]; [None] when the table is full *)
  add_default_ipv4_route : I -> ipv4 -> option I;
  set_any_ip : I -> bool -> I;
  (** What is configured. *)
  iface_addrs : I -> list (ipv4 * Z);
  iface_gateway : I -> option ipv4;
  iface_any_ip : I -> bool;
  (** [poll(now, device, sockets)] *)
  iface_poll : I -> Z -> TunDevice F -> SocketSet S U -> I * TunDevice F * SocketSet S U;
  (** [poll_delay(now, sockets)] in milliseconds *)
  poll_delay : I -> Z -> SocketSet S U -> option Z;
}.

(** Two socket sets with the same handles, each of the same kind. *)
Definition same_kind {S U} (a b : option (socket S U)) : Prop :=
  match a, b with
  | None, None | Some (Tcp _), Some (Tcp _) | Some (Udp _), Some (Udp _) => True
  | _, _ => False
  end.

Definition same_handles {S U} (ss ss' : SocketSet S U) : Prop := forall h, same_kind (ss !! h) (ss' !! h).

(** What crossed the interface of the TCP sockets is unchanged, and their
    connections are the same. *)
Definition same_histories {S Cx U} `{TcpSocketOps S Cx} (ss ss' : SocketSet S U) : Prop :=
  forall h s s', get_tcp ss h = Some s -> get_tcp ss' h = Some s' ->
    delivered s' = delivered s /\ accepted s' = accepted s /\ endpoint_kept s s'.

Class InterfaceLaws (I F S U : Type) `{TcpSocketOps S I} `{InterfaceOps I F S U} : Prop := {
  (** A new interface has room for an address and a route. *)
  iface_new_fresh seed : iface_addrs (iface_new seed) = [] /\ iface_gateway (iface_new seed) = None;
  push_addr_room i a : iface_addrs i = [] -> exists i', push_addr i a = Some i' /\
    iface_addrs i' = [a] /\ iface_gateway i' = iface_gateway i;
  add_route_room i gw : iface_gateway i = None -> exists i', add_default_ipv4_route i gw = Some i' /\
    iface_gateway i' = Some gw /\ iface_addrs i' = iface_addrs i;
  set_any_ip_spec i b : iface_any_ip (set_any_ip i b) = b /\
    iface_addrs (set_any_ip i b) = iface_addrs i /\ iface_gateway (set_any_ip i b) = iface_gateway i;
  (** Polling drives sockets, it neither adds nor removes them. *)
  iface_poll_handles i now d ss i' d' ss' :
    iface_poll i now d ss = (i', d', ss') -> same_handles ss ss';
  (** It exchanges packets with the device; the sockets' users still take
      received data only with [recv] and hand over data only with [send_slice],
      and a closed socket is not used for another connection. *)
  iface_poll_histories i now d ss i' d' ss' :
    iface_poll i now d ss = (i', d', ss') -> same_histories ss ss';
}.

(** ** Hash maps

    A [HashMap] or [HashSet] is traversed in an unspecified order: some
    duplicate-free listing of its keys. *)
Class IterOrder : Type := {
  iter_order : gset nat -> list nat;
  iter_order_spec X : NoDup (iter_order X) /\ forall h, h ∈ iter_order X <-> h ∈ X;
}.

Lemma elements_order_spec (X : gset nat) : NoDup (elements X) /\ forall h, h ∈ elements X <-> h ∈ X.
Proof. split; [apply NoDup_elements|]. intros h. apply elem_of_elements. Qed.

Definition elements_order : IterOrder :=
  {| iter_order := elements; iter_order_spec := elements_order_spec |}.

(** The keys of a map whose value satisfies [p], in traversal order. *)
Definition handles_where `{IterOrder} {St} (m : gmap nat St) (p : St -> bool) : list nat :=
  iter_order (dom (filter (fun x => p x.2 = true) m)).

Section Traversal.
Context `{IterOrder} {St : Type}.
Implicit Types m : gmap nat St.

Lemma handles_where_spec m p h : h ∈ handles_where m p <-> exists st, m !! h = Some st /\ p st = true.
Proof.
  unfold handles_where. rewrite (proj2 (iter_order_spec _)), elem_of_dom. unfold is_Some.
  setoid_rewrite map_lookup_filter_Some. done.
Qed.

Lemma handles_where_nodup m p : NoDup (handles_where m p).
Proof. apply iter_order_spec. Qed.

Lemma all_handles_spec m h : h ∈ iter_order (dom m) -> exists st, m !! h = Some st /\ true = true.
Proof. rewrite (proj2 (iter_order_spec _)), elem_of_dom. intros [st ?]. eauto. Qed.

(** A loop whose body serves one entry of a map at a time and leaves the others
    alone: [wof] is the component in the loop's state [A], [inv] its invariant,
    [step] what a step promises. *)
Lemma connections_loop {W A} (states_of : W -> gmap nat St) (inv : W -> Prop) (step : W -> W -> Prop)
    `{!PreOrder step} (wof : A -> W) (f : A -> nat -> option A) (p : St -> bool) a hs :
  (forall a h st, inv (wof a) -> states_of (wof a) !! h = Some st -> p st = true ->
     exists a', f a h = Some a' /\ inv (wof a') /\ step (wof a) (wof a') /\
       forall h', h' <> h -> states_of (wof a') !! h' = states_of (wof a) !! h') ->
  inv (wof a) -> NoDup hs ->
  (forall h, h ∈ hs -> exists st, states_of (wof a) !! h = Some st /\ p st = true) ->
  exists a', foldO f a hs = Some a' /\ inv (wof a') /\ step (wof a) (wof a').
Proof.
  intros Hf Hinv Hnd Hin.
  destruct (foldO_inv f (fun l a' => NoDup l /\ inv (wof a') /\ step (wof a) (wof a') /\
    forall h, h ∈ l -> exists st, states_of (wof a') !! h = Some st /\ p st = true) hs a) as (a' & E & _ & ? & ? & _).
  - intros h l a1 (Hnd1 & Hinv1 & Hst1 & Hin1). apply NoDup_cons in Hnd1 as [Hh Hnd1].
    destruct (Hin1 h) as (st & Hst & Hp); [left|].
    destruct (Hf a1 h st Hinv1 Hst Hp) as (a2 & E & Hinv2 & Hstep & Hother).
    exists a2. split_and!; [done..|by etrans|].
    intros h' Hh'. rewrite Hother by (by intros ->). apply Hin1. by right.
  - split_and!; [done..|reflexivity|done].
  - eauto.
Qed.

(** The same for a loop that removes its entries: exactly those it visits are
    gone afterwards. *)
Lemma removal_loop {W} (states_of : W -> gmap nat St) (inv : W -> Prop) (step : W -> W -> Prop)
    `{!PreOrder step} (f : W -> nat -> option W) (p : St -> bool) w :
  (forall w h st, inv w -> states_of w !! h = Some st -> p st = true ->
     exists w', f w h = Some w' /\ inv w' /\ step w w' /\ states_of w' = delete h (states_of w)) ->
  inv w -> exists w', foldO f w (handles_where (states_of w) p) = Some w' /\ inv w' /\ step w w' /\
    forall h st, states_of w' !! h = Some st <-> states_of w !! h = Some st /\ p st = false.
Proof.
  intros Hf Hinv. set (hs := handles_where (states_of w) p).
  destruct (foldO_inv f (fun l w' => NoDup l /\ (forall h, h ∈ l -> h ∈ hs) /\ inv w' /\ step w w' /\
    (forall h st, states_of w' !! h = Some st <-> states_of w !! h = Some st /\ (h ∈ hs -> h ∈ l))) hs w)
    as (w' & E & _ & _ & Hi & Hs & Hst).
  - intros h l w1 (Hnd & Hin & Hi & Hs & Hst). apply NoDup_cons in Hnd as [Hn Hnd].
    assert (h ∈ hs) as (st & Hh & Hp)%handles_where_spec by (apply Hin; left).
    destruct (Hf w1 h st Hi) as (w2 & E & Hi2 & Hs2 & Hdel); [|done|].
    { apply Hst. split; [done|]. intros _. left. }
    exists w2. split_and!; [done|done|intros; apply Hin; by right|done|by etrans|].
    intros h' st'. rewrite Hdel, lookup_delete_Some, Hst. setoid_rewrite elem_of_cons.
    assert (h ∈ hs) by (apply Hin; left). split; [intros (? & ? & Hl)|intros [? Hl]].
    + split; [done|]. intros Hh'. destruct (Hl Hh'); [by subst|done].
    + split_and!; [|done|by auto]. intros <-. by apply Hn, Hl.
  - split_and!; [apply handles_where_nodup|done|done|reflexivity|naive_solver].
  - exists w'. split_and!; [done..|]. intros h st. rewrite Hst. split; intros [Hh Hl]; (split; [done|]).
    + destruct (p st) eqn:Hp; [|done]. exfalso. apply (not_elem_of_nil h), Hl, handles_where_spec. eauto.
    + intros (st' & Hh' & Hp)%handles_where_spec. congruence.
Qed.
End Traversal.

(** ** Tasks ([tokio::spawn]) *)

Section Runtime.
Context {J : Type}.

(** The tasks that run: [J] describes what a task computes. *)
Record Runtime : Type := mkRuntime {
  tasks : gmap nat J;
  next_task : nat;
}.

(** [JoinHandle]: the task and what it computes. *)
Definition JoinHandle : Type := nat * J.

Definition spawn (rt : Runtime) (j : J) : JoinHandle * Runtime :=
  ((next_task rt, j), mkRuntime (<[next_task rt := j]> (tasks rt)) (S (next_task rt))).

(** A task that was aborted, or whose result was taken, is gone. *)
Definition task_end (rt : Runtime) (task : JoinHandle) : Runtime :=
  mkRuntime (delete task.1 (tasks rt)) (next_task rt).

Definition wf_runtime (rt : Runtime) : Prop := forall id, (next_task rt <= id)%nat -> tasks rt !! id = None.

Lemma spawn_fresh rt j task rt' : wf_runtime rt -> spawn rt j = (task, rt') ->
  task.2 = j /\ tasks rt !! task.1 = None /\ tasks rt' = <[task.1 := j]> (tasks rt) /\ wf_runtime rt'.
Proof.
  intros Hwf [= <- <-]. split_and!; [done|by apply Hwf|done|]. intros id Hid. simpl in *.
  rewrite lookup_insert_ne by lia. apply Hwf. lia.
Qed.

Lemma task_end_wf rt id : wf_runtime rt -> wf_runtime (task_end rt id).
Proof. intros Hwf id' Hid. simpl. apply lookup_delete_None. right. by apply Hwf. Qed.
End Runtime.
Arguments Runtime : clear implicits.
Arguments JoinHandle : clear implicits.

(** ** Lemmas on socket sets *)

Section SocketSetLemmas.
Context {S U : Type}.
Implicit Types (ss : SocketSet S U).

Lemma get_tcp_Some ss h s : get_tcp ss h = Some s <-> ss !! h = Some (Tcp s).
Proof. unfold get_tcp. destruct (ss !! h) as [[]|]; naive_solver. Qed.

Lemma get_udp_Some ss h u : get_udp ss h = Some u <-> ss !! h = Some (Udp u).
Proof. unfold get_udp. destruct (ss !! h) as [[]|]; naive_solver. Qed.

Lemma get_tcp_put ss h s : get_tcp (put ss h (Tcp s)) h = Some s.
Proof. apply get_tcp_Some. by apply lookup_insert_eq. Qed.

Lemma get_tcp_put_ne ss h h' s : h <> h' -> get_tcp (put ss h s) h' = get_tcp ss h'.
Proof. intros Hne. unfold get_tcp, put. by rewrite lookup_insert_ne. Qed.

Lemma put_same ss h s : get_tcp ss h = Some s -> put ss h (Tcp s) = ss.
Proof. intros Hs%get_tcp_Some. by apply insert_id. Qed.

#[global] Instance same_handles_refl : Reflexive (@same_handles S U).
Proof. intros ss h. by destruct (ss !! h) as [[]|]. Qed.

#[global] Instance same_handles_trans : Transitive (@same_handles S U).
Proof.
  intros a b c Hab Hbc h. specialize (Hab h). specialize (Hbc h). unfold same_kind in *.
  by destruct (a !! h) as [[]|], (b !! h) as [[]|], (c !! h) as [[]|].
Qed.

Lemma same_handles_tcp ss ss' h : same_handles ss ss' -> is_Some (get_tcp ss h) -> is_Some (get_tcp ss' h).
Proof.
  intros Hs. specialize (Hs h). unfold get_tcp, same_kind in *.
  destruct (ss !! h) as [[]|], (ss' !! h) as [[]|]; intros [? [=]]; by eauto.
Qed.

#[global] Instance endpoint_kept_preorder {Cx} `{TcpSocketOps S Cx} : PreOrder endpoint_kept.
Proof.
  split; [by intros s; split; [|left]|]. intros s1 s2 s3 K1 K2 P1. destruct (K1 P1) as [P2 E2].
  destruct (K2 P2) as [P3 E3]. split; [done|]. destruct E3 as [->| ->]; [done|by right].
Qed.

(** A TCP socket lives on with the same histories and connection. *)
Definition same_history {Cx} `{TcpSocketOps S Cx} (o o' : option S) : Prop :=
  forall s, o = Some s ->
  exists s', o' = Some s' /\ delivered s' = delivered s /\ accepted s' = accepted s /\ endpoint_kept s s'.

Lemma same_handles_history {Cx} `{TcpSocketOps S Cx} ss ss' h :
  same_handles ss ss' -> same_histories ss ss' -> same_history (get_tcp ss h) (get_tcp ss' h).
Proof.
  intros Hs Hh s E. destruct (same_handles_tcp ss ss' h Hs) as [s' E']; [by rewrite E|].
  exists s'. split; [done|]. by eapply Hh.
Qed.

Lemma same_lookup_history {Cx} `{TcpSocketOps S Cx} ss ss' h :
  ss' !! h = ss !! h -> same_history (get_tcp ss h) (get_tcp ss' h).
Proof.
  intros E s Hs. exists s. split_and!; [|done|done|reflexivity]. unfold get_tcp in *. by rewrite E.
Qed.

Lemma same_handles_udp ss ss' h : same_handles ss ss' -> is_Some (get_udp ss h) -> is_Some (get_udp ss' h).
Proof.
  intros Hs. specialize (Hs h). unfold get_udp, same_kind in *.
  destruct (ss !! h) as [[]|], (ss' !! h) as [[]|]; intros [? [=]]; by eauto.
Qed.

Lemma same_handles_dom ss ss' : same_handles ss ss' -> dom ss' = dom ss.
Proof.
  intros Hs. apply set_eq. intros h. rewrite !elem_of_dom. specialize (Hs h). unfold same_kind in *.
  split; intros [x Hx]; rewrite Hx in Hs; destruct x, (ss !! h) as [[]|], (ss' !! h) as [[]|]; by eauto.
Qed.

End SocketSetLemmas.

(** ** Ownership

    A component owns a set of handles.  [owned_step X X' ss ss'] is what others
    may rely on when the component runs: sockets it never owned are untouched,
    handles it gains were free, and sockets it gives up are gone. *)
Record owned_step {S U} (X X' : gset nat) (ss ss' : SocketSet S U) : Prop := {
  os_frame h : h ∉ X -> h ∉ X' -> ss' !! h = ss !! h;
  os_new h : h ∉ X -> h ∈ X' -> ss !! h = None;
  os_gone h : h ∈ X -> h ∉ X' -> ss' !! h = None;
}.

Lemma owned_step_refl {S U} X (ss : SocketSet S U) : owned_step X X ss ss.
Proof. by split. Qed.

Lemma owned_step_trans {S U} X X' X'' (ss ss' ss'' : SocketSet S U) :
  owned_step X X' ss ss' -> owned_step X' X'' ss' ss'' -> owned_step X X'' ss ss''.
Proof.
  intros [F1 N1 G1] [F2 N2 G2]. split; intros h H1 H2; destruct (decide (h ∈ X')) as [Hm|Hm].
  - rewrite (G2 h), (N1 h) by done. done.
  - rewrite (F2 h), (F1 h) by done. done.
  - by apply N1.
  - rewrite <- (F1 h) by done. by apply N2.
  - by apply G2.
  - rewrite (F2 h) by done. by apply G1.
Qed.

Lemma owned_step_put {S U} X (ss : SocketSet S U) h s : h ∈ X -> owned_step X X ss (put ss h s).
Proof.
  intros Hh. split; [|done|done]. intros h' Hn _. unfold put. rewrite lookup_insert_ne; [done|]. by intros <-.
Qed.

(** What a step of one component means for another that owns [Y]. *)
Lemma owned_step_other {S U} X X' (Y : gset nat) (ss ss' : SocketSet S U) :
  owned_step X X' ss ss' -> X ## Y -> Y ⊆ dom ss ->
  X' ## Y /\ forall h, h ∈ Y -> ss' !! h = ss !! h.
Proof.
  intros [F N G] Hd Hy. assert (X' ## Y) as Hd'.
  { intros h Hx Hh. assert (h ∉ X) as Hn by set_solver. specialize (N h Hn Hx).
    apply Hy, elem_of_dom in Hh as [? ?]. congruence. }
  split; [done|]. intros h Hh. apply F; set_solver.
Qed.

Lemma owned_step_dom {S U} X X' (ss ss' : SocketSet S U) : owned_step X X' ss ss' -> X' ⊆ dom ss' ->
  dom ss' = (dom ss ∖ X) ∪ X'.
Proof.
  intros [F N G] Hx. apply set_eq. intros h. rewrite elem_of_union, elem_of_difference, !elem_of_dom.
  destruct (decide (h ∈ X')) as [H'|H']; [pose proof (proj1 (elem_of_dom _ _) (Hx _ H')); tauto|].
  destruct (decide (h ∈ X)) as [H|H].
  - rewrite (G h) by done. split; [by intros [? [=]]|tauto].
  - rewrite (F h) by done. tauto.
Qed.

(** ** Simulated sockets

    Executable instances that satisfy the laws. *)

Record sim_udp : Type := mkSimUdp { su_rx : list (bytes * endpoint); su_tx : list (bytes * endpoint) }.

#[global] Instance sim_udp_ops : UdpSocketOps sim_udp := {|
  udp_new _ _ := mkSimUdp [] [];
  udp_bind u _ := Some u;
  udp_can_recv u := match su_rx u with [] => false | _ => true end;
  udp_can_send _ := true;
  udp_recv_slice u cap :=
    match su_rx u with
    | (d, m) :: rx => if blen d <=? cap then (Some (d, m), mkSimUdp rx (su_tx u))
                      else (None, mkSimUdp rx (su_tx u))
    | [] => (None, u)
    end;
  udp_send_slice u d m := (true, mkSimUdp (su_rx u) (su_tx u ++ [(d, m)]));
  udp_received := su_rx;
  udp_sent := su_tx;
|}.

#[global] Instance sim_udp_laws : UdpSocketLaws sim_udp.
Proof.
  split; simpl.
  - intros. by eexists.
  - intros [[|]]; simpl; naive_solver.
  - intros [[|[d' m'] rx] tx] cap d m u' E; simpl in *; [done|]. case_if; simplify_eq. by bool_prop.
  - intros [[|[d' m'] rx] tx] cap u' E; simpl in *; simplify_eq; [by auto|]. case_if; simplify_eq. bool_prop.
    split; [done|]. right. by exists d', m'.
  - intros u d m b u' E. by simplify_eq.
Qed.

Record sim_tcp : Type := mkSimTcp {
  sk_state : tcp.State; sk_local : option endpoint; sk_rx : bytes; sk_tx : bytes;
  sk_delivered : bytes; sk_accepted : bytes; sk_cap : Z;
}.

Definition sim_may_recv (s : sim_tcp) : bool :=
  match sk_state s with
  | tcp.Established | tcp.FinWait1 | tcp.FinWait2 => true
  | _ => negb (bool_decide (sk_rx s = []))
  end.

Definition sim_may_send (s : sim_tcp) : bool :=
  match sk_state s with tcp.Established | tcp.CloseWait => true | _ => false end.

(** The endpoint of a connected socket is known. *)
Definition sim_endpoint (s : sim_tcp) : option endpoint :=
  match sk_local s, sk_state s with
  | None, (tcp.Established | tcp.CloseWait) => Some (0, 0)
  | l, _ => l
  end.

Definition sim_set_state (s : sim_tcp) (st : tcp.State) (l : option endpoint) : sim_tcp :=
  mkSimTcp st l (sk_rx s) (sk_tx s) (sk_delivered s) (sk_accepted s) (sk_cap s).

(** For any interface: connecting needs nothing of it. *)
Definition sim_tcp_on (Cx : Type) : TcpSocketOps sim_tcp Cx := {|
  sock_new _ tx := mkSimTcp tcp.Closed None [] [] [] [] tx;
  set_nagle_enabled s _ := s;
  state := sk_state;
  local_endpoint := sim_endpoint;
  may_recv := sim_may_recv;
  may_send := sim_may_send;
  can_recv s := sim_may_recv s && negb (bool_decide (sk_rx s = []));
  can_send s := sim_may_send s && (blen (sk_tx s) <? sk_cap s);
  send_queue s := blen (sk_tx s);
  recv_queue s := blen (sk_rx s);
  abort s := sim_set_state s tcp.Closed (sk_local s);
  listen s port := if port =? 0 then None else Some (sim_set_state s tcp.Listen None);
  sock_connect s cx remote local := (Ok (sim_set_state s tcp.SynSent (Some local)), cx);
  recv_slice_of s := if sim_may_recv s then Some (sk_rx s) else None;
  recv_consume s n := mkSimTcp (sk_state s) (sk_local s) (drop (Z.to_nat n) (sk_rx s)) (sk_tx s)
    (sk_delivered s ++ take (Z.to_nat n) (sk_rx s)) (sk_accepted s) (sk_cap s);
  send_slice s d :=
    if sim_may_send s then
      let d := take (Z.to_nat (sk_cap s - blen (sk_tx s))) d in
      (Ok (blen d), mkSimTcp (sk_state s) (sk_local s) (sk_rx s) (sk_tx s ++ d)
                     (sk_delivered s) (sk_accepted s ++ d) (sk_cap s))
    else (Err 0, s);
  delivered := sk_delivered;
  accepted := sk_accepted;
|}.

Lemma sim_tcp_on_laws Cx : @TcpSocketLaws sim_tcp Cx (sim_tcp_on Cx).
Proof.
  split; simpl; try done.
  - intros s p s' E. case_if; by simplify_eq.
  - intros s cx r l s' cx' E. by simplify_eq.
  - intros s d n E Hn. case_if; by simplify_eq.
  - intros s d n s' E. case_if; simplify_eq. simpl. unfold blen. rewrite length_take. split_and!; [lia|lia| |done].
    f_equal. rewrite Nat2Z.id. set (k := Z.to_nat _).
    destruct (decide (k <= length d)%nat); [by rewrite Nat.min_l|by rewrite Nat.min_r, !take_ge by lia].
  - intros s d e s' E. case_if; by simplify_eq.
  - intros s. apply blen_nonneg.
  - intros s [E|E]; unfold sim_endpoint; rewrite E; destruct (sk_local s); by eexists.
  - intros [st [e|]] _; (split; [done|]); [by left|by right].
  - intros s n Hp. split; [exact Hp|by left].
  - intros s d Hp. case_if; (split; [exact Hp|by left]).
Qed.

#[global] Instance sim_tcp_ops : TcpSocketOps sim_tcp unit := sim_tcp_on unit.

#[global] Instance sim_tcp_laws : TcpSocketLaws sim_tcp unit := sim_tcp_on_laws unit.

(** An interface that remembers its configuration. *)
Record sim_iface : Type := mkSimIface {
  si_addrs : list (ipv4 * Z); si_gateway : option ipv4; si_any_ip : bool;
}.

(** Its operations, given what polling does to the device and the sockets. *)
Definition sim_iface_ops {F S U} (poll : TunDevice F -> SocketSet S U -> TunDevice F * SocketSet S U)
    : InterfaceOps sim_iface F S U := {|
  iface_new _ := mkSimIface [] None false;
  push_addr i a := if bool_decide (si_addrs i = []) then Some (mkSimIface [a] (si_gateway i) (si_any_ip i)) else None;
  add_default_ipv4_route i gw :=
    match si_gateway i with None => Some (mkSimIface (si_addrs i) (Some gw) (si_any_ip i)) | Some _ => None end;
  set_any_ip i b := mkSimIface (si_addrs i) (si_gateway i) b;
  iface_addrs := si_addrs;
  iface_gateway := si_gateway;
  iface_any_ip := si_any_ip;
  iface_poll i _ d ss := let '(d, ss) := poll d ss in (i, d, ss);
  poll_delay _ _ _ := None;
|}.

Lemma sim_iface_laws {F U} poll :
  (forall d (ss : SocketSet sim_tcp U), same_handles ss (poll d ss).2 /\
     @same_histories sim_tcp sim_iface U (sim_tcp_on sim_iface) ss (poll d ss).2) ->
  @InterfaceLaws sim_iface F sim_tcp U (sim_tcp_on sim_iface) (sim_iface_ops poll).
Proof.
  intros Hp. split; simpl; try done.
  - intros [] a Ha. simpl in *. subst. by eexists.
  - intros [] gw Hg. simpl in *. subst. by eexists.
  - intros i now d ss i' d' ss'. specialize (Hp d ss). destruct (poll d ss). intros [= <- <- <-]. apply Hp.
  - intros i now d ss i' d' ss'. specialize (Hp d ss). destruct (poll d ss). intros [= <- <- <-]. apply Hp.
Qed.

Definition idle_iface F U : InterfaceOps sim_iface F sim_tcp U := sim_iface_ops pair.

Lemma idle_iface_laws F U : @InterfaceLaws sim_iface F sim_tcp U (sim_tcp_on sim_iface) (idle_iface F U).
Proof.
  apply sim_iface_laws. intros d ss. split; [apply same_handles_refl|]. intros h s s' E E'. simpl in E'.
  simplify_eq. split_and!; [done|done|]. intros Hp. split; [done|by left].
Qed.

(** One that completes every handshake, as if at the endpoint [at_], with [data]
    already received. *)
Definition sim_answer (at_ : endpoint) (data : bytes) {U} (s : socket sim_tcp U) : socket sim_tcp U :=
  match s with
  | Tcp s => if bool_decide (sk_state s = tcp.Listen \/ sk_state s = tcp.SynSent)
             then Tcp (mkSimTcp tcp.Established (Some at_) data (sk_tx s) (sk_delivered s) (sk_accepted s) (sk_cap s))
             else Tcp s
  | Udp u => Udp u
  end.

Definition answering_iface (at_ : endpoint) (data : bytes) F U : InterfaceOps sim_iface F sim_tcp U :=
  sim_iface_ops (fun d ss => (mkTunDevice (fd d) [], sim_answer at_ data <$> ss)).

Lemma answering_iface_laws at_ data F U :
  @InterfaceLaws sim_iface F sim_tcp U (sim_tcp_on sim_iface) (answering_iface at_ data F U).
Proof.
  apply sim_iface_laws. intros d ss. cbn [snd]. split.
  - intros h. rewrite lookup_fmap. destruct (ss !! h) as [[s|u]|]; simpl; [|done|done]. by case_bool_decide.
  - intros h s s'. unfold get_tcp. rewrite lookup_fmap. destruct (ss !! h) as [[s0|u]|]; simpl; try done.
    intros [= ->]. case_bool_decide as Hst; intros [= <-]; (split_and!; [done|done|]).
    + intros Hp. simpl in Hp. by destruct Hst as [E|E]; rewrite E in Hp.
    + intros Hp. split; [done|by left].
Qed.

(** Handles allocated in order. *)
Definition fresh_alloc S U : SocketAlloc S U :=
  {| alloc_handle ss := fresh (dom ss : gset nat);
     alloc_handle_fresh ss := proj1 (not_elem_of_dom _ _) (is_fresh _) |}.
