(* ===== verification/Dns.v ===== *)
(** * The DNS interceptor (src/src/event_loop/dns.rs)

    The intercepted DNS socket and its fake-IP pool: [process] answers every
    query that waits, [target_for] turns the destination of a connection back
    into the domain the application asked for. *)

From S2P Require Import Prelude RustStr RustNet FakeDns ProxyConfig Config Stream Tun Smoltcp.

Definition UDP_META_COUNT : Z := 16.
Definition UDP_BUF_SIZE : Z := 4096.

Record DnsInterceptor : Type := mkDnsInterceptor {
  dns_handle : SocketHandle;
  fake_dns : Pool.FakeDns;
}.

Section Dns.
Context {S U : Type} `{UdpSocketOps U}.

Definition DnsInterceptor_new `{SocketAlloc S U} (sockets : SocketSet S U)
    : option (DnsInterceptor * SocketSet S U) :=
  let rx_buf := (UDP_META_COUNT, UDP_BUF_SIZE) in
  let tx_buf := (UDP_META_COUNT, UDP_BUF_SIZE) in
  socket ← udp_bind (udp_new rx_buf tx_buf) (DNS_ADDR, DNS_PORT);
  let '(h, sockets) := socket_add sockets (Udp socket) in
  Some (mkDnsInterceptor h Pool.new, sockets).

(** The response to one datagram and the pool after it; no response for what
    is not a query.  [None] is a panic. *)
Definition respond (fake_dns : Pool.FakeDns) (data : bytes) : option (Pool.FakeDns * option bytes) :=
  match Wire.parse_query data with
  | PPanic => None
  | PNone => Some (fake_dns, None)
  | PSome (id, domain, qtype) =>
      if qtype =? 1 then
        let '(fake_dns, ip) := Pool.resolve fake_dns domain in
        Some (fake_dns, Some (Wire.build_a_response id domain ip))
      else Some (fake_dns, Some (Wire.build_empty_response id domain qtype))
  end.

(** The [while socket.can_recv()] loop; each round takes a datagram off the
    queue, so one more than their number is enough fuel. *)
Fixpoint dns_loop (fuel : nat) (fake_dns : Pool.FakeDns) (socket : U) : option (Pool.FakeDns * U) :=
  match fuel with
  | O => None
  | Datatypes.S fuel =>
      if udp_can_recv socket then
        match udp_recv_slice socket 1500 with
        | (None, socket) => Some (fake_dns, socket)
        | (Some (data, meta), socket) =>
            '(fake_dns, response) ← respond fake_dns data;
            match response with
            | None => dns_loop fuel fake_dns socket
            | Some response =>
                let socket := if udp_can_send socket then (udp_send_slice socket response meta).2 else socket in
                dns_loop fuel fake_dns socket
            end
        end
      else Some (fake_dns, socket)
  end.

Definition dns_process (self : DnsInterceptor) (sockets : SocketSet S U)
    : option (DnsInterceptor * SocketSet S U) :=
  socket ← get_udp sockets (dns_handle self);
  '(pool, socket) ← dns_loop (Datatypes.S (length (udp_received socket))) (fake_dns self) socket;
  Some (mkDnsInterceptor (dns_handle self) pool, put sockets (dns_handle self) (Udp socket)).

Definition target_for (self : DnsInterceptor) (addr : ipv4) (port : Z) : ProxyTarget :=
  if Pool.is_fake_ip (fake_dns self) addr then
    match Pool.lookup (fake_dns self) addr with
    | Some domain => Domain domain port
    | None => Ip (V4 addr) port
    end
  else Ip (V4 addr) port.

(** ** Invariant *)

Record dns_inv (self : DnsInterceptor) (sockets : SocketSet S U) : Prop := {
  dns_pool : Pool.reachable (fake_dns self);
  dns_socket : is_Some (get_udp sockets (dns_handle self));
}.

(** The name an A query asks for. *)
Definition asked (data : bytes) : option bytes :=
  match Wire.parse_query data with
  | PSome (_, domain, qtype) => if qtype =? 1 then Some domain else None
  | _ => None
  end.

(** *** What a round does

    The datagrams that a round reads: one that is longer than the buffer is lost
    and ends it, and those behind it wait for the next round. *)
Fixpoint readable (queue : list (bytes * endpoint)) : list (bytes * endpoint) :=
  match queue with
  | q :: queue => if blen q.1 <=? 1500 then q :: readable queue else []
  | [] => []
  end.

Definition unread (queue : list (bytes * endpoint)) : list (bytes * endpoint) :=
  drop (Datatypes.S (length (readable queue))) queue.

(** The pool after the datagrams [queue]: the names of the A queries, resolved
    in order. *)
Definition pool_after (pool : Pool.FakeDns) (queue : list (bytes * endpoint)) : Pool.FakeDns :=
  Pool.resolve_all pool (omap (asked ∘ fst) queue).

(** The reply to a datagram, to where it came from: the address of the name in
    the pool, or an empty answer. *)
Definition reply (pool : Pool.FakeDns) (q : bytes * endpoint) : option (bytes * endpoint) :=
  match Wire.parse_query q.1 with
  | PSome (id, domain, qtype) =>
      Some (if qtype =? 1 then Wire.build_a_response id domain (snd (Pool.resolve pool domain))
            else Wire.build_empty_response id domain qtype, q.2)
  | _ => None
  end.

(** Every query has its reply, from the pool that the queries before it left. *)
Definition replies_to (pool : Pool.FakeDns) (queue : list (bytes * endpoint)) : list (bytes * endpoint) :=
  omap id (imap (fun i q => reply (pool_after pool (take i queue)) q) queue).

(** A socket with room for [room u] more replies that satisfy [fits]. *)
Record takes_replies (room : U -> nat) (fits : bytes * endpoint -> Prop) : Prop := {
  takes_send u r : (0 < room u)%nat -> fits r -> udp_can_send u = true /\
    exists u', udp_send_slice u r.1 r.2 = (true, u') /\ (room u <= Datatypes.S (room u'))%nat;
  takes_recv u cap : (room u <= room (udp_recv_slice u cap).2)%nat;
}.

(** ** Lemmas *)

Lemma pool_after_cons pool q queue :
  pool_after pool (q :: queue) = pool_after (pool_after pool [q]) queue.
Proof. unfold pool_after. change (q :: queue) with ([q] ++ queue). by rewrite omap_app, Pool.resolve_all_app. Qed.

Lemma pool_after_reachable pool queue : Pool.reachable pool -> Pool.reachable (pool_after pool queue).
Proof. apply Pool.resolve_all_reachable. Qed.

Lemma replies_to_cons pool q queue :
  replies_to pool (q :: queue) =
  match reply pool q with Some r => [r] | None => [] end ++ replies_to (pool_after pool [q]) queue.
Proof.
  unfold replies_to. cbn [imap omap list_omap take id].
  assert (imap ((fun i q0 => reply (pool_after pool (take i (q :: queue))) q0) ∘ Datatypes.S) queue
    = imap (fun i q0 => reply (pool_after (pool_after pool [q]) (take i queue)) q0) queue) as E.
  { apply imap_ext. intros i x _. unfold compose. by rewrite firstn_cons, pool_after_cons. }
  change (pool_after pool []) with pool. rewrite <- E. by destruct (reply pool q).
Qed.

Lemma replies_to_at pool before q after r : reply (pool_after pool before) q = Some r ->
  r ∈ replies_to pool (before ++ q :: after).
Proof.
  revert pool. induction before as [|b before IH]; intros pool Hr; cbn [app]; rewrite replies_to_cons.
  - change (pool_after pool []) with pool in Hr. rewrite Hr. left.
  - apply elem_of_app. right. apply IH. by rewrite <- pool_after_cons.
Qed.

Lemma respond_spec pool q :
  respond pool q.1 = Some (pool_after pool [q], fst <$> reply pool q) /\
  forall r, reply pool q = Some r -> r.2 = q.2.
Proof.
  unfold respond, reply, pool_after. cbn [omap list_omap]. unfold compose, asked.
  destruct (Wire.parse_query q.1) as [[[id domain] qtype]| |] eqn:E.
  - split; [|by intros r [= <-]]. destruct (qtype =? 1); [|done]. cbn [fmap option_fmap option_map fst].
    by rewrite (surjective_pairing (Pool.resolve pool domain)).
  - split; done.
  - by apply Wire.parse_query_no_panic in E.
Qed.

(** One round of the loop: what is left of the queue, and what was sent. *)
Lemma dns_loop_spec `{!UdpSocketLaws U} fuel pool u : (length (udp_received u) < fuel)%nat ->
  exists u' replies, dns_loop fuel pool u = Some (pool_after pool (readable (udp_received u)), u') /\
    udp_received u' = unread (udp_received u) /\ udp_sent u' = udp_sent u ++ replies /\
    replies `sublist_of` replies_to pool (readable (udp_received u)) /\
    forall room fits, takes_replies room fits -> Forall fits (replies_to pool (readable (udp_received u))) ->
      (length (replies_to pool (readable (udp_received u))) <= room u)%nat ->
      replies = replies_to pool (readable (udp_received u)).
Proof.
  revert pool u. induction fuel as [|fuel IH]; intros pool u Hf; [lia|]. cbn [dns_loop].
  destruct (udp_can_recv u) eqn:Ec.
  2: { assert (udp_received u = []) as E.
       { destruct (udp_received u) eqn:E; [done|]. enough (udp_can_recv u = true) by congruence.
         apply udp_can_recv_spec. by rewrite E. }
       exists u, []. rewrite E, app_nil_r. split_and!; [done..|]. by intros. }
  destruct (udp_recv_slice u 1500) as [[[data m]|] u1] eqn:E.
  2: { apply udp_recv_err in E as [Es [[E _]|(d & m & E & Hd)]].
       - apply udp_can_recv_spec in Ec. done.
       - exists u1, []. rewrite app_nil_r. unfold unread. rewrite E. cbn [readable fst].
         rewrite (proj2 (Z.leb_gt _ _)) by done. split_and!; [done..|]. by intros. }
  assert (u1 = (udp_recv_slice u 1500).2) as E1 by by rewrite E.
  apply udp_recv_ok in E as (Hq & Hs & Hd). unfold unread. rewrite Hq in Hf |- *. cbn [length] in Hf.
  cbn [readable fst]. rewrite (proj2 (Z.leb_le _ _)) by done.
  rewrite pool_after_cons, replies_to_cons.
  destruct (respond_spec pool (data, m)) as [Er Hto]. cbn [fst snd] in Er, Hto. rewrite Er. cbn [mbind option_bind].
  destruct (reply pool (data, m)) as [[resp m']|]; cbn [fmap option_fmap option_map fst app].
  2: { destruct (IH (pool_after pool [(data, m)]) u1) as (u' & replies & -> & Hr & Hs' & Hsub & Hroom); [lia|].
       exists u', replies. rewrite Hs', Hs. split_and!; [done..|]. intros room fits Ht Hall Hlen.
       apply (Hroom room fits Ht Hall). pose proof (takes_recv _ _ Ht u 1500) as G. rewrite <- E1 in G. lia. }
  specialize (Hto _ eq_refl). cbn [snd] in Hto. subst m'.
  set (u2 := if udp_can_send u1 then (udp_send_slice u1 resp m).2 else u1).
  assert (udp_received u2 = udp_received u1 /\ exists b : bool,
    udp_sent u2 = udp_sent u1 ++ (if b then [(resp, m)] else []) /\
    forall room fits, takes_replies room fits -> fits (resp, m) -> (0 < room u1)%nat ->
      b = true /\ (room u1 <= Datatypes.S (room u2))%nat) as (Hr2 & b & Hs2 & Hb).
  { unfold u2. destruct (udp_can_send u1) eqn:Ecs.
    - destruct (udp_send_slice u1 resp m) as [b u3] eqn:Es. pose proof (udp_send_spec _ _ _ _ _ Es) as [Hr2 Hs2].
      split; [done|]. exists b. split; [done|]. intros room fits Ht Hfit Hpos.
      destruct (takes_send _ _ Ht u1 _ Hpos Hfit) as (_ & u4 & G & Hle). cbn [fst snd] in G. rewrite Es in G.
      by injection G as -> ->.
    - split; [done|]. exists false. rewrite app_nil_r. split; [done|]. intros room fits Ht Hfit Hpos.
      destruct (takes_send _ _ Ht u1 _ Hpos Hfit) as (G & _). congruence. }
  destruct (IH (pool_after pool [(data, m)]) u2) as (u' & replies & -> & Hr & Hs' & Hsub & Hroom); [rewrite Hr2; lia|].
  rewrite Hr2 in *. exists u', ((if b then [(resp, m)] else []) ++ replies). split_and!; [done|done| | |].
  - by rewrite Hs', Hs2, Hs, app_assoc.
  - destruct b; [by apply sublist_skip|by apply sublist_cons].
  - intros room fits Ht [Hfit Hall]%Forall_cons_1 Hlen. cbn [length] in Hlen.
    pose proof (takes_recv _ _ Ht u 1500) as G. rewrite <- E1 in G.
    destruct (Hb room fits Ht Hfit) as [-> Hle]; [lia|]. cbn [app]. f_equal. apply (Hroom room fits Ht Hall). lia.
Qed.

(** What an address means: the name it was given for, if there is one. *)
Lemma target_for_lookup self addr port : Pool.reachable (fake_dns self) ->
  target_for self addr port =
  match Pool.lookup (fake_dns self) addr with Some domain => Domain domain port | None => Ip (V4 addr) port end.
Proof.
  intros Hp. unfold target_for. destruct (Pool.is_fake_ip (fake_dns self) addr) eqn:Ha; [done|].
  destruct (Pool.lookup (fake_dns self) addr) eqn:Hl; [|done]. by rewrite (Pool.lookup_fake _ _ _ Hp Hl) in Ha.
Qed.

Lemma dns_process_lemma `{!UdpSocketLaws U} self (ss : SocketSet S U) u : dns_inv self ss ->
  get_udp ss (dns_handle self) = Some u ->
  let queue := readable (udp_received u) in
  let self' := mkDnsInterceptor (dns_handle self) (pool_after (fake_dns self) queue) in
  exists u' replies, dns_process self ss = Some (self', <[dns_handle self := Udp u']> ss) /\
    dns_inv self' (<[dns_handle self := Udp u']> ss) /\ udp_received u' = unread (udp_received u) /\
    udp_sent u' = udp_sent u ++ replies /\ replies `sublist_of` replies_to (fake_dns self) queue /\
    forall room fits, takes_replies room fits -> Forall fits (replies_to (fake_dns self) queue) ->
      (length (replies_to (fake_dns self) queue) <= room u)%nat -> replies = replies_to (fake_dns self) queue.
Proof.
  intros [Hp _] Hu. cbv zeta. unfold dns_process. rewrite Hu. cbn [mbind option_bind].
  destruct (dns_loop_spec (Datatypes.S (length (udp_received u))) (fake_dns self) u)
    as (u' & replies & -> & Hr & Hs & Hsub & Hroom); [lia|]. cbn [mbind option_bind].
  exists u', replies. split_and!; [done| |done..].
  split; [by apply pool_after_reachable|]. unfold get_udp. cbn [dns_handle]. rewrite lookup_insert_eq. by eexists.
Qed.

End Dns.

(** C26. One round of the interceptor, for any queue of datagrams: it never
    panics, always ends and touches no socket but its own.  It reads every
    datagram up to the first that does not fit its buffer, which is lost;
    afterwards its pool is the old one with the names of the A queries among
    them resolved, in order, and the replies it makes are one per query, in
    order, each to the endpoint that the query came from: for an A query the
    address that its name has in the pool at that point, for any other an
    empty answer.  It sends nothing else, and all of them if the socket has
    room for them. *)
Theorem dns_process_spec {S U} `{UdpSocketLaws U} self (ss : SocketSet S U) u : dns_inv self ss ->
  get_udp ss (dns_handle self) = Some u ->
  let queue := readable (udp_received u) in
  let self' := mkDnsInterceptor (dns_handle self) (pool_after (fake_dns self) queue) in
  exists u' replies, dns_process self ss = Some (self', <[dns_handle self := Udp u']> ss) /\
    dns_inv self' (<[dns_handle self := Udp u']> ss) /\ udp_received u' = unread (udp_received u) /\
    udp_sent u' = udp_sent u ++ replies /\ replies `sublist_of` replies_to (fake_dns self) queue /\
    forall room fits, takes_replies room fits -> Forall fits (replies_to (fake_dns self) queue) ->
      (length (replies_to (fake_dns self) queue) <= room u)%nat -> replies = replies_to (fake_dns self) queue.
Proof. apply dns_process_lemma. Qed.

(** ** Witnesses *)

Definition demo_query : bytes :=
  Wire.wire_query 7 0x0100 1 (replicate 6 "000"%byte) [str "example"; str "com"] 1 ["000"%byte; "001"%byte].

(** The simulated socket always has room. *)
Lemma sim_udp_takes : takes_replies (U := sim_udp) (fun _ => 100%nat) (fun _ => True).
Proof. split; [intros u r _ _; split; [done|]; eexists; split; [done|lia]|done]. Qed.

Lemma dns_process_spec_witness :
  exists u', dns_process (mkDnsInterceptor 3 Pool.new)
    ({[3%nat := Udp (mkSimUdp [(demo_query, (1, 5353))] [])]} : SocketSet unit sim_udp)
    = Some (mkDnsInterceptor 3 (fst (Pool.resolve Pool.new (str "example.com"))),
            <[3%nat := Udp u']> ({[3%nat := Udp (mkSimUdp [(demo_query, (1, 5353))] [])]} : SocketSet unit sim_udp)) /\
    udp_sent u' = [(Wire.build_a_response 7 (str "example.com") Pool.POOL_START, (1, 5353))].
Proof.
  destruct (dns_process_spec (mkDnsInterceptor 3 Pool.new)
    ({[3%nat := Udp (mkSimUdp [(demo_query, (1, 5353))] [])]} : SocketSet unit sim_udp)
    (mkSimUdp [(demo_query, (1, 5353))] [])) as (u' & replies & Hp & _ & _ & Hs & _ & Hroom).
  - split; [constructor|by eexists].
  - reflexivity.
  - exists u'. split; [exact Hp|]. rewrite Hs, (Hroom _ _ sim_udp_takes).
    + reflexivity.
    + by apply Forall_true.
    + vm_compute. lia.
Defined.
