(* ===== verification/Relay.v ===== *)
(** * The data path (src/src/event_loop.rs and the shuttles of
      src/src/event_loop/outbound.rs and src/src/event_loop/published.rs)

    Both TCP components move bytes between a socket of the stack and a host
    stream with the same two blocks of code: [relay_recv] offers received data
    to the host stream, [relay_send] hands buffered data to the socket. *)

From S2P Require Import Prelude RustStr RustNet ProxyConfig Stream Tun Smoltcp.

Definition TCP_BUF_SIZE : Z := 65536.

(** Durations in milliseconds. *)
Definition TCP_HANDSHAKE_TIMEOUT : Z := 32000.

(** [created_at.elapsed()]: clocks are monotonic, the difference saturates. *)
Definition elapsed (now created_at : Z) : Z := Z.max 0 (now - created_at).

Section Relay.
Context {T S Cx : Type} `{TcpStreamOps T} `{TcpSocketOps S Cx}.

Definition new_tcp_socket : S :=
  set_nagle_enabled (sock_new TCP_BUF_SIZE TCP_BUF_SIZE) false.

(** [socket.recv(|data| ... stream.try_write(data) ...)]: the write error, if
    there is one, the socket and the stream. *)
Definition relay_recv (socket : S) (stream : T) : option io_error * S * T :=
  match recv_slice_of socket with
  | None => (None, socket, stream)
  | Some data =>
      let '(consumed, error, stream) :=
        match data with
        | [] => (0, None, stream)
        | _ =>
            match try_write stream data with
            | (Ok written, stream) => (written, None, stream)
            | (Err WouldBlock, stream) => (0, None, stream)
            | (Err error, stream) => (0, Some error, stream)
            end
        end in
      (error, recv_consume socket consumed, stream)
  end.

(** Hand as much of [buf] to the socket as its transmit buffer holds: the send
    error, if there is one, the socket and what is left of the buffer.
    [drain(..sent)] panics beyond the end of the buffer. *)
Definition relay_send (socket : S) (buf : bytes) : option (option Z * S * bytes) :=
  if negb (bool_decide (buf = [])) && can_send socket then
    let free_space := Z.max 0 (TCP_BUF_SIZE - send_queue socket) in
    let send_len := Z.min free_space (blen buf) in
    if 0 <? send_len then
      match send_slice socket (take (Z.to_nat send_len) buf) with
      | (Ok sent, socket) =>
          if sent <=? blen buf then Some (None, socket, drop (Z.to_nat sent) buf) else None
      | (Err error, socket) => Some (Some error, socket, buf)
      end
    else Some (None, socket, buf)
  else Some (None, socket, buf).

(** ** Lemmas *)

Context `{!TcpStreamLaws T} `{!TcpSocketLaws S Cx}.

Lemma new_tcp_socket_history : delivered new_tcp_socket = [] /\ accepted new_tcp_socket = [].
Proof.
  unfold new_tcp_socket. destruct (set_nagle_history (sock_new TCP_BUF_SIZE TCP_BUF_SIZE) false) as [-> ->].
  apply sock_new_fresh.
Qed.

(** Whatever leaves the socket enters the stream, in order. *)
Lemma relay_recv_spec s t e s' t' : relay_recv s t = (e, s', t') ->
  exists d, delivered s' = delivered s ++ d /\ sent t' = sent t ++ d /\
    accepted s' = accepted s /\ incoming t' = incoming t /\ ending_of t' = ending_of t /\ endpoint_kept s s'.
Proof.
  unfold relay_recv. destruct (recv_slice_of s) as [data|] eqn:Hr.
  2: { intros [= <- <- <-]. exists []. rewrite !app_nil_r. split_and!; [done..|reflexivity]. }
  assert (forall t1 e1, same_stream t t1 -> (e1, recv_consume s 0, t1) = (e, s', t') ->
    exists d, delivered s' = delivered s ++ d /\ sent t' = sent t ++ d /\
      accepted s' = accepted s /\ incoming t' = incoming t /\ ending_of t' = ending_of t /\ endpoint_kept s s') as Hnone.
  { intros t1 e1 [Hi He Hs] [= <- <- <-]. exists [].
    destruct (recv_consume_history s data 0 Hr) as [-> ->]; [unfold blen; lia|].
    simpl. rewrite !app_nil_r. split_and!; [done..|apply recv_consume_endpoint]. }
  destruct data as [|b data]; [by apply Hnone|].
  destruct (try_write t (b :: data)) as [[n|err] t1] eqn:Hw.
  - intros [= <- <- <-]. apply try_write_ok in Hw as (Hn & Hs & Hi & He).
    destruct (recv_consume_history s _ n Hr Hn) as [-> ->]. eexists. split_and!; [done..|apply recv_consume_endpoint].
  - apply try_write_err in Hw. destruct err; by apply Hnone.
Qed.

(** Whatever leaves the buffer enters the socket, in order. *)
Lemma relay_send_spec s buf : exists e s' buf', relay_send s buf = Some (e, s', buf') /\
  accepted s' ++ buf' = accepted s ++ buf /\ delivered s' = delivered s /\ blen buf' <= blen buf /\ endpoint_kept s s'.
Proof.
  assert (exists e s' buf', Some (None : option Z, s, buf) = Some (e, s', buf') /\
    accepted s' ++ buf' = accepted s ++ buf /\ delivered s' = delivered s /\ blen buf' <= blen buf /\ endpoint_kept s s')
    as Hsame by (eexists _, _, _; split_and!; [done..|reflexivity]).
  unfold relay_send. case_if; [|done]. case_if; [|done].
  match goal with |- context [send_slice s ?d] => pose proof (send_slice_endpoint s d) as Hk end.
  destruct (send_slice s _) as [[n|e] s'] eqn:E; simpl in Hk.
  - apply send_slice_ok in E as (Hn & Ha & Hd). unfold blen in *. rewrite length_take in Hn.
    rewrite (proj2 (Z.leb_le _ _)) by lia. eexists _, _, _. split_and!; [done| |done| |done].
    + rewrite Ha, <- app_assoc. f_equal. rewrite take_take, Nat.min_l by lia. apply take_drop.
    + rewrite length_drop. lia.
  - apply send_slice_err in E as [Ha Hd]. eexists _, _, _. split_and!; [done|by rewrite Ha|done|done|done].
Qed.

End Relay.
