(* ===== verification/Outbound.v ===== *)
(** * Outbound TCP (src/src/event_loop/outbound.rs)

    The state machine of connections the namespace opens.  A SYN seen on the
    TUN creates a listening socket; when the stack completes the handshake the
    route's connect task is spawned; its tunnel is relayed until one side
    closes; a second poll of the stack later the socket is removed.

    [world] is what the methods change: the component, the socket set, and the
    tasks of the runtime.  Hash-map traversals follow [IterOrder]; the clock
    and the outcome of polling a task are arguments. *)

From S2P Require Import Prelude RustStr RustNet FakeDns ProxyConfig Rule Config Stream Socks5 Http Connect.
From S2P Require Import Tun Smoltcp Dns Relay.

Module Out.

Ltac not_conn := intros ? ?; congruence.

(** What a spawned connect task computes: [proxy.connect(&target)]. *)
Definition job : Type := ProxyConfig * ProxyTarget.

Section Outbound.
Context {T S Cx U : Type} `{TcpStreamOps T} `{TcpSocketOps S Cx} `{SocketAlloc S U} `{IterOrder} `{RegexEngine}.

Inductive ProxyReadState : Type := Open | Eof | Failed.

#[global] Instance ProxyReadState_eq_dec : EqDecision ProxyReadState.
Proof. solve_decision. Defined.

Record ForwardContext : Type := mkForwardContext {
  stream : ProxyStream T;
  proxy_to_app : bytes;
  proxy_read_state : ProxyReadState;
}.

Inductive State : Type :=
| Listening (created_at : Z)
| Connecting (task : JoinHandle job)
| Established (context : ForwardContext)
| Closing.

Record OutboundTcp : Type := mkOutboundTcp {
  states : gmap SocketHandle State;
  listening_endpoints : gset EndpointKey;
  handle_to_endpoint : gmap SocketHandle EndpointKey;
}.

Record world : Type := mkWorld {
  self : OutboundTcp;
  sockets : SocketSet S U;
  runtime : Runtime job;
}.

Definition OutboundTcp_new : OutboundTcp := mkOutboundTcp ∅ ∅ ∅.

(** [self.states.insert(handle, state)] *)
Definition set_state (o : OutboundTcp) (h : SocketHandle) (st : State) : OutboundTcp :=
  mkOutboundTcp (<[h := st]> (states o)) (listening_endpoints o) (handle_to_endpoint o).

(** [self.states.remove(&handle)] *)
Definition take_state (o : OutboundTcp) (h : SocketHandle) : OutboundTcp :=
  mkOutboundTcp (delete h (states o)) (listening_endpoints o) (handle_to_endpoint o).

Definition is_connecting (st : State) : bool := match st with Connecting _ => true | _ => false end.
Definition is_established (st : State) : bool := match st with Established _ => true | _ => false end.
Definition is_closing (st : State) : bool := match st with Closing => true | _ => false end.

(** ** [observe_syns] *)

Definition observe_packet (now : Z) (w : world) (packet : bytes) : option world :=
  match parse_tcp_syn packet with
  | PPanic => None
  | PNone => Some w
  | PSome key =>
      let '(_, dst_port) := key in
      if bool_decide (key ∈ listening_endpoints (self w)) then Some w
      else
        match listen new_tcp_socket dst_port with
        | None => Some w
        | Some socket =>
            let '(handle, ss) := socket_add (sockets w) (Tcp socket) in
            let o := self w in
            Some (mkWorld
              (mkOutboundTcp (<[handle := Listening now]> (states o))
                             ({[key]} ∪ listening_endpoints o)
                             (<[handle := key]> (handle_to_endpoint o)))
              ss (runtime w))
        end
  end.

Definition observe_syns (now : Z) (rx_queue : list bytes) (w : world) : option world :=
  foldO (observe_packet now) w rx_queue.

(** ** [log_listener_transitions]: reads every listening socket *)

Definition log_listener_transitions (w : world) : option world :=
  foldO (fun w h =>
    match states (self w) !! h with
    | Some (Listening _) => _ ← get_tcp (sockets w) h; Some w
    | _ => Some w
    end) w (iter_order (dom (states (self w)))).

(** ** [update_listeners] *)

Definition update_listener (now : Z) (dns : DnsInterceptor) (config : Config) (w : world) (handle : SocketHandle)
    : option world :=
  st ← states (self w) !! handle;
  match st with
  | Listening created_at =>
      socket ← get_tcp (sockets w) handle;
      if bool_decide (state socket = tcp.Established \/ state socket = tcp.CloseWait) then
        match local_endpoint socket with
        | None => Some w
        | Some (dst_ip, port) =>
            let target := target_for dns dst_ip port in
            match proxy_for config target with
            | PSome proxy =>
                let '(task, rt) := spawn (runtime w) (proxy, target) in
                Some (mkWorld (set_state (self w) handle (Connecting task)) (sockets w) rt)
            | _ => None
            end
        end
      else if bool_decide (state socket = tcp.Closed \/ state socket = tcp.TimeWait) then
        Some (mkWorld (set_state (self w) handle Closing) (sockets w) (runtime w))
      else if TCP_HANDSHAKE_TIMEOUT <=? elapsed now created_at then
        Some (mkWorld (set_state (self w) handle Closing)
                      (put (sockets w) handle (Tcp (abort socket))) (runtime w))
      else Some w
  | _ => Some w
  end.

Definition update_listeners (now : Z) (dns : DnsInterceptor) (config : Config) (w : world) : option world :=
  foldO (update_listener now dns config) w (iter_order (dom (states (self w)))).

(** ** [poll_connecting] *)

(** Polling a join handle: pending, a panicked task, or the task's result. *)
Inductive task_poll : Type :=
| Pending
| Panicked
| Completed (r : result connect_error (ProxyStream T)).

(** The states in which the application has gone. *)
Definition client_gone (st : tcp.State) : bool :=
  match st with
  | tcp.Closed | tcp.Closing | tcp.TimeWait | tcp.FinWait1 | tcp.FinWait2 | tcp.LastAck => true
  | _ => false
  end.

(** Abort the socket of a connection that cannot be served. *)
Definition abort_connection (w : world) (handle : SocketHandle) (rt : Runtime job) : option world :=
  socket ← get_tcp (sockets w) handle;
  Some (mkWorld (set_state (self w) handle Closing) (put (sockets w) handle (Tcp (abort socket))) rt).

Definition poll_connection (poll : JoinHandle job -> task_poll) (acc : bool * world) (handle : SocketHandle)
    : option (bool * world) :=
  let '(ready, w) := acc in
  st ← states (self w) !! handle;
  match st with
  | Connecting task =>
      let w := mkWorld (take_state (self w) handle) (sockets w) (runtime w) in
      match poll task with
      | Completed (Ok stream) =>
          Some (true, mkWorld (set_state (self w) handle (Established (mkForwardContext stream [] Open)))
                              (sockets w) (task_end (runtime w) task))
      | Completed (Err _) | Panicked =>
          w ← abort_connection w handle (task_end (runtime w) task); Some (true, w)
      | Pending =>
          socket ← get_tcp (sockets w) handle;
          if client_gone (state socket) then
            w ← abort_connection w handle (task_end (runtime w) task); Some (true, w)
          else Some (ready, mkWorld (set_state (self w) handle (Connecting task)) (sockets w) (runtime w))
      end
  | _ => None
  end.

Definition poll_connecting (poll : JoinHandle job -> task_poll) (w : world) : option (bool * world) :=
  foldO (poll_connection poll) (false, w) (handles_where (states (self w)) is_connecting).

(** ** [poll_ready] *)

Definition connection_ready (w : world) (ready : bool) (handle : SocketHandle) : option bool :=
  match states (self w) !! handle with
  | Some (Established context) =>
      socket ← get_tcp (sockets w) handle;
      let ready :=
        if bool_decide (proxy_read_state context = Open) && (blen (proxy_to_app context) <? TCP_BUF_SIZE)
        then ready || ps_poll_read_ready (stream context) else ready in
      Some (if can_recv socket then ready || poll_write_ready (inner (stream context)) else ready)
  | _ => Some ready
  end.

Definition poll_ready (poll : JoinHandle job -> task_poll) (w : world) : option (bool * world) :=
  '(ready, w) ← poll_connecting poll w;
  ready ← foldO (connection_ready w) ready (iter_order (dom (states (self w))));
  Some (ready, w).

(** ** [shuttle_established] *)

Definition set_read_state (c : ForwardContext) (r : ProxyReadState) : ForwardContext :=
  mkForwardContext (stream c) (proxy_to_app c) r.

(** Application to proxy. *)
Definition shuttle_upload (context : ForwardContext) (socket : S) : ForwardContext * S :=
  if may_recv socket && can_recv socket then
    let '(error, socket, t) := relay_recv socket (inner (stream context)) in
    let context := mkForwardContext
      (mkProxyStream t (buffered (stream context)) (position (stream context)))
      (proxy_to_app context) (proxy_read_state context) in
    (context, match error with Some _ => abort socket | None => socket end)
  else (context, socket).

(** Proxy to buffer. *)
Definition shuttle_read (context : ForwardContext) (socket : S) : ForwardContext * S :=
  if bool_decide (proxy_read_state context = Open) && (blen (proxy_to_app context) <? TCP_BUF_SIZE) then
    let space := TCP_BUF_SIZE - blen (proxy_to_app context) in
    let '(r, ps) := ps_try_read (stream context) space in
    let context := mkForwardContext ps (proxy_to_app context) (proxy_read_state context) in
    match r with
    | Ok [] => (set_read_state context Eof, socket)
    | Ok d => (mkForwardContext (stream context) (proxy_to_app context ++ d) (proxy_read_state context), socket)
    | Err WouldBlock => (context, socket)
    | Err _ => (set_read_state context Failed, abort socket)
    end
  else (context, socket).

(** Buffer to application. *)
Definition shuttle_download (context : ForwardContext) (socket : S) : option (ForwardContext * S) :=
  '(error, socket, buf) ← relay_send socket (proxy_to_app context);
  let context := mkForwardContext (stream context) buf (proxy_read_state context) in
  Some (context, match error with Some _ => abort socket | None => socket end).

(** Closing: the last component says whether the connection is closing. *)
Definition shuttle_close (context : ForwardContext) (socket : S) : S * bool :=
  let drained_after_eof :=
    bool_decide (proxy_read_state context = Eof) && bool_decide (proxy_to_app context = []) &&
    (send_queue socket =? 0) && may_send socket in
  let socket := if drained_after_eof then abort socket else socket in
  if negb (may_recv socket) || negb (may_send socket) then (abort socket, true) else (socket, false).

Definition shuttle (context : ForwardContext) (socket : S) : option (ForwardContext * S * bool) :=
  let '(context, socket) := shuttle_upload context socket in
  let '(context, socket) := shuttle_read context socket in
  '(context, socket) ← shuttle_download context socket;
  let '(socket, closing) := shuttle_close context socket in
  Some (context, socket, closing).

Definition shuttle_connection (w : world) (handle : SocketHandle) : option world :=
  st ← states (self w) !! handle;
  match st with
  | Established context =>
      socket ← get_tcp (sockets w) handle;
      '(context, socket, closing) ← shuttle context socket;
      Some (mkWorld (set_state (self w) handle (if closing : bool then Closing else Established context))
                    (put (sockets w) handle (Tcp socket)) (runtime w))
  | _ => Some w
  end.

Definition shuttle_established (w : world) : option world :=
  foldO shuttle_connection w (handles_where (states (self w)) is_established).

(** ** [process], [cleanup], [Drop] *)

Definition process (now : Z) (dns : DnsInterceptor) (config : Config) (w : world) : option world :=
  w ← log_listener_transitions w;
  w ← update_listeners now dns config w;
  shuttle_established w.

Definition cleanup_connection (w : world) (handle : SocketHandle) : option world :=
  let o := self w in
  let o := match handle_to_endpoint o !! handle with
           | Some endpoint => mkOutboundTcp (states o) (listening_endpoints o ∖ {[endpoint]})
                                (delete handle (handle_to_endpoint o))
           | None => o
           end in
  ss ← socket_remove (sockets w) handle;
  Some (mkWorld (take_state o handle) ss (runtime w)).

Definition cleanup (w : world) : option world :=
  foldO cleanup_connection w (handles_where (states (self w)) is_closing).

(** [Drop]: the connect tasks still running are aborted. *)
Definition drop_outbound (w : world) : world :=
  let ids := omap (fun h => match states (self w) !! h with Some (Connecting task) => Some task | _ => None end)
               (iter_order (dom (states (self w)))) in
  mkWorld (mkOutboundTcp ∅ (listening_endpoints (self w)) (handle_to_endpoint (self w)))
          (sockets w) (foldl task_end (runtime w) ids).

(** ** Invariant *)

Context `{!Network T} (cfg : Config).

(** The tunnel [ps0], as it was established, is relayed: the tunnel was sent
    what the application's socket delivered, and what it brings is what the
    socket accepted, then the buffer, then what the tunnel still holds. *)
Definition relayed (ps0 : ProxyStream T) (c : ForwardContext) (s : S) : Prop :=
  sent (inner (stream c)) = sent (inner ps0) ++ delivered s /\
  remaining ps0 = accepted s ++ proxy_to_app c ++ remaining (stream c).

(** The life of a connection: nothing crosses its socket before the tunnel is
    established, by the task spawned for it, through the route of the target;
    then the tunnel is relayed. *)
Definition lifetime (st : State) (s : S) : Prop :=
  match st with
  | Listening _ => delivered s = [] /\ accepted s = []
  | Connecting (_, (route, target)) => (delivered s = [] /\ accepted s = []) /\ proxy_for cfg target = PSome route
  | Established c => exists id route target ps0,
      proxy_for cfg target = PSome route /\ @tunnel T _ (network id) route target ps0 /\ relayed ps0 c s
  | Closing => True
  end.

(** The tunnel is well formed, the buffer within its bound, and the end of the
    stream is recorded only when everything was read. *)
Definition wf_context (c : ForwardContext) : Prop :=
  wf_stream (stream c) /\ blen (proxy_to_app c) <= TCP_BUF_SIZE /\
  (proxy_read_state c = Eof -> remaining (stream c) = []).

Lemma lifetime_history st s s' : delivered s' = delivered s -> accepted s' = accepted s ->
  lifetime st s -> lifetime st s'.
Proof. unfold lifetime, relayed. by intros -> ->. Qed.

(** The endpoint index matches the connections. *)
Record index_inv (o : OutboundTcp) : Prop := {
  ix_dom : dom (handle_to_endpoint o) = dom (states o);
  ix_image k : k ∈ listening_endpoints o <-> exists h, handle_to_endpoint o !! h = Some k;
  ix_inj h h' k : handle_to_endpoint o !! h = Some k -> handle_to_endpoint o !! h' = Some k -> h = h';
}.

(** The running tasks are those of the connecting connections, one each. *)
Record tasks_inv (m : gmap SocketHandle State) (rt : Runtime job) : Prop := {
  ti_wf : wf_runtime rt;
  ti_owned id j : tasks rt !! id = Some j <-> exists h, m !! h = Some (Connecting (id, j));
  ti_inj h h' id j j' : m !! h = Some (Connecting (id, j)) -> m !! h' = Some (Connecting (id, j')) -> h = h';
}.

Record out_inv (w : world) : Prop := {
  oi_index : index_inv (self w);
  oi_sockets h : h ∈ dom (states (self w)) -> is_Some (get_tcp (sockets w) h);
  oi_tasks : tasks_inv (states (self w)) (runtime w);
  oi_contexts h c : states (self w) !! h = Some (Established c) -> wf_context c;
  oi_life h st s : states (self w) !! h = Some st -> get_tcp (sockets w) h = Some s -> lifetime st s;
}.

(** What a step of the component promises to the others. *)
Definition out_step (w w' : world) : Prop :=
  owned_step (dom (states (self w))) (dom (states (self w'))) (sockets w) (sockets w').

(** ** Lemmas: tasks *)

Definition not_connecting (o : option State) : Prop := forall task, o <> Some (Connecting task).

Lemma tasks_insert m rt h st : tasks_inv m rt -> not_connecting (m !! h) -> not_connecting (Some st) ->
  tasks_inv (<[h := st]> m) rt.
Proof.
  intros [Hwf Ho Hi] Hm Hst. split; [done| |].
  - intros id j. rewrite Ho. split; intros [h' Hh']; exists h'.
    + rewrite lookup_insert_ne; [done|]. intros <-. by eapply Hm.
    + apply lookup_insert_Some in Hh' as [[-> ->]|[_ ?]]; [by destruct (Hst (id, j))|done].
  - intros h1 h2 id j j' G1 G2. apply lookup_insert_Some in G1 as [[-> ->]|[_ G1]]; [by destruct (Hst (id, j))|].
    apply lookup_insert_Some in G2 as [[-> ->]|[_ G2]]; [by destruct (Hst (id, j'))|]. eauto.
Qed.

Lemma tasks_spawn m rt h j task rt' : tasks_inv m rt -> not_connecting (m !! h) -> spawn rt j = (task, rt') ->
  tasks_inv (<[h := Connecting task]> m) rt'.
Proof.
  intros [Hwf Ho Hi] Hm Hs. apply spawn_fresh in Hs as (Hj & Hnone & Ht & Hwf'); [|done].
  destruct task as [id j0]. simpl in *. subst j0.
  assert (forall h' j', m !! h' <> Some (Connecting (id, j'))) as Hfresh.
  { intros h' j' Hh'. assert (tasks rt !! id = Some j') by (apply Ho; by eexists). congruence. }
  split; [done| |].
  - intros id' j'. rewrite Ht, lookup_insert_Some, Ho. split.
    + intros [[<- <-]|[Hne [h' Hh']]]; [exists h; by rewrite lookup_insert_eq|].
      exists h'. rewrite lookup_insert_ne; [done|]. intros <-. by eapply Hm.
    + intros [h' Hh']. apply lookup_insert_Some in Hh' as [[_ [= -> ->]]|[_ Hh']]; [by left|right].
      split; [|by eexists]. intros <-. by eapply Hfresh.
  - intros h1 h2 id' j1 j2. rewrite !lookup_insert_Some.
    intros [[-> E1]|[Hn1 G1]] [[-> E2]|[Hn2 G2]]; [done| | |by eauto].
    + injection E1 as -> ->. by destruct (Hfresh h2 j2).
    + injection E2 as -> ->. by destruct (Hfresh h1 j1).
Qed.

Lemma tasks_finish m rt h task st : tasks_inv m rt -> m !! h = Some (Connecting task) -> not_connecting (Some st) ->
  tasks_inv (<[h := st]> m) (task_end rt task).
Proof.
  intros [Hwf Ho Hi] Hm Hst. destruct task as [id j]. split; [by apply task_end_wf| |].
  - intros id' j'. simpl. rewrite lookup_delete_Some, Ho. split.
    + intros [Hne [h' Hh']]. exists h'. rewrite lookup_insert_ne; [done|]. intros <-. congruence.
    + intros [h' Hh']. apply lookup_insert_Some in Hh' as [[_ ->]|[Hn Hh']]; [by destruct (Hst (id', j'))|].
      split; [|by eexists]. intros <-. destruct Hn. by eapply Hi.
  - intros h1 h2 id' j1 j2. rewrite !lookup_insert_Some.
    intros [[_ ->]|[Hn1 G1]]; [by destruct (Hst (id', j1))|].
    intros [[_ ->]|[Hn2 G2]]; [by destruct (Hst (id', j2))|]. eauto.
Qed.

Lemma tasks_delete m rt h : tasks_inv m rt -> not_connecting (m !! h) -> tasks_inv (delete h m) rt.
Proof.
  intros [Hwf Ho Hi] Hm. split; [done| |].
  - intros id j. rewrite Ho. split; intros [h' Hh']; exists h'.
    + rewrite lookup_delete_ne; [done|]. intros <-. by eapply Hm.
    + by apply lookup_delete_Some in Hh' as [_ ?].
  - intros h1 h2 id j j' [_ G1]%lookup_delete_Some [_ G2]%lookup_delete_Some. eauto.
Qed.

(** ** Lemmas: one connection changes state *)

Lemma set_take_state o h st : set_state (take_state o h) h st = set_state o h st.
Proof. unfold set_state, take_state. simpl. by rewrite insert_delete_eq. Qed.

#[global] Instance out_step_preorder : PreOrder out_step.
Proof. split; [intros w; apply owned_step_refl|intros w1 w2 w3; apply owned_step_trans]. Qed.

(** The invariant after the connection [h] moved to [st'], its socket became
    [s'] and the runtime [rt']. *)
Lemma transition w h st st' s s' rt' : out_inv w -> states (self w) !! h = Some st ->
  get_tcp (sockets w) h = Some s -> tasks_inv (<[h := st']> (states (self w))) rt' ->
  (forall c, st' = Established c -> wf_context c) -> lifetime st' s' ->
  let w' := mkWorld (set_state (self w) h st') (put (sockets w) h (Tcp s')) rt' in
  out_inv w' /\ out_step w w' /\ forall h', h' <> h -> states (self w') !! h' = states (self w) !! h'.
Proof.
  intros [[Hd Him Hin] Hs Ht Hc Hlife] Hst Hget Ht' Hwf Hl. simpl.
  assert (dom (<[h := st']> (states (self w))) = dom (states (self w))) as Hdom.
  { apply dom_insert_lookup_L. by eexists. }
  split_and!.
  - split; simpl; [split; simpl; [by rewrite Hd|done|done]| |done| |].
    + intros h' Hh'. rewrite Hdom in Hh'. destruct (decide (h = h')) as [<-|Hne].
      * rewrite get_tcp_put. by eexists.
      * rewrite get_tcp_put_ne by done. by apply Hs.
    + intros h' c. rewrite lookup_insert_Some. intros [[_ E]|[_ E]]; eauto.
    + intros h' st1 s1. rewrite lookup_insert_Some. intros [[<- <-]|[Hne E]].
      * rewrite get_tcp_put. by intros [= <-].
      * rewrite get_tcp_put_ne by done. by apply Hlife.
  - unfold out_step. simpl. rewrite Hdom. apply owned_step_put. rewrite elem_of_dom. by eexists.
  - intros h' Hne. by rewrite lookup_insert_ne.
Qed.

(** The same when the socket is left alone. *)
Lemma transition_state w h st st' s rt' : out_inv w -> states (self w) !! h = Some st ->
  get_tcp (sockets w) h = Some s -> tasks_inv (<[h := st']> (states (self w))) rt' ->
  (forall c, st' = Established c -> wf_context c) -> lifetime st' s ->
  let w' := mkWorld (set_state (self w) h st') (sockets w) rt' in
  out_inv w' /\ out_step w w' /\ forall h', h' <> h -> states (self w') !! h' = states (self w) !! h'.
Proof.
  intros Hinv Hst Hs. pose proof (transition w h st st' s s rt' Hinv Hst Hs) as Ht.
  by rewrite (put_same _ _ _ Hs) in Ht.
Qed.

(** ** Lemmas: the operations *)

Lemma log_transitions_ok w : out_inv w -> log_listener_transitions w = Some w.
Proof.
  intros Hinv. unfold log_listener_transitions.
  destruct (foldO_inv (fun w0 h => match states (self w0) !! h with
    | Some (Listening _) => _ ← get_tcp (sockets w0) h; Some w0 | _ => Some w0 end)
    (fun _ w' => w' = w) (iter_order (dom (states (self w)))) w) as (w' & E & <-); [|done|done].
  intros h l w' ->. exists w. split; [|done]. destruct (states (self w) !! h) as [[]|] eqn:Hh; try done.
  destruct (oi_sockets w Hinv h) as [s ->]; [|done]. rewrite elem_of_dom. by eexists.
Qed.

Lemma update_listener_ok now dns w h st : routes_all cfg -> out_inv w ->
  states (self w) !! h = Some st ->
  exists w', update_listener now dns cfg w h = Some w' /\ out_inv w' /\ out_step w w' /\
    forall h', h' <> h -> states (self w') !! h' = states (self w) !! h'.
Proof.
  intros Hroutes Hinv Hst. unfold update_listener. rewrite Hst. cbn [mbind option_bind].
  assert (exists w', Some w = Some w' /\ out_inv w' /\ out_step w w' /\
    forall h', h' <> h -> states (self w') !! h' = states (self w) !! h') as Hsame
    by (exists w; by split_and!).
  destruct st as [created| | |]; try done.
  destruct (oi_sockets w Hinv h) as [s Hs]; [rewrite elem_of_dom; by eexists|]. rewrite Hs. cbn [mbind option_bind].
  assert (not_connecting (states (self w) !! h)) as Hnc by (rewrite Hst; not_conn).
  pose proof (oi_tasks w Hinv) as Ht. pose proof (oi_life w Hinv h _ s Hst Hs) as Hl.
  case_if.
  - destruct (local_endpoint s) as [[dst port]|] eqn:El; [|done].
    destruct (Hroutes (target_for dns dst port)) as [route Hroute]. rewrite Hroute.
    destruct (spawn (runtime w) (route, target_for dns dst port)) as [task rt] eqn:Esp.
    eexists. split; [done|]. eapply transition_state; [done..|by eapply tasks_spawn|by intros|].
    injection Esp as <- <-. by split.
  - case_if; [|case_if; [|done]].
    + eexists. split; [done|]. eapply transition_state; [done..|by apply tasks_insert; [| |not_conn]|by intros|done].
    + eexists. split; [done|].
      eapply transition; [done..|by apply tasks_insert; [| |not_conn]|by intros|done].
Qed.

(** A completed task holds the result of its [connect]. *)
Definition poll_sound (poll : JoinHandle job -> task_poll) : Prop :=
  forall id route target r, poll (id, (route, target)) = Completed r ->
    exists expired, r = @connect T _ (network id) expired route target.

Lemma poll_connection_ok `{!TcpStreamLaws T} poll ready w h st : poll_sound poll -> out_inv w ->
  states (self w) !! h = Some st -> is_connecting st = true ->
  exists a', poll_connection poll (ready, w) h = Some a' /\ out_inv a'.2 /\ out_step w a'.2 /\
    forall h', h' <> h -> states (self a'.2) !! h' = states (self w) !! h'.
Proof.
  intros Hpoll Hinv Hst Hc. destruct st as [|task| |]; try done. unfold poll_connection. rewrite Hst.
  cbn [mbind option_bind]. cbn [self sockets runtime].
  destruct (oi_sockets w Hinv h) as [s Hs]; [rewrite elem_of_dom; by eexists|].
  pose proof (oi_tasks w Hinv) as Ht. pose proof (oi_life w Hinv h _ s Hst Hs) as Hl.
  assert (exists w', abort_connection (mkWorld (take_state (self w) h) (sockets w) (runtime w)) h
      (task_end (runtime w) task) = Some w' /\ out_inv w' /\ out_step w w' /\
      forall h', h' <> h -> states (self w') !! h' = states (self w) !! h') as (wa & Ea & Hwa).
  { unfold abort_connection. cbn [sockets self]. rewrite Hs. cbn [mbind option_bind]. rewrite set_take_state.
    eexists. split; [done|]. eapply transition; [done..|by eapply tasks_finish; [| |not_conn]|by intros|done]. }
  rewrite Ea. cbn [mbind option_bind].
  destruct (poll task) as [| |[ps|e]] eqn:Ep; rewrite ?set_take_state.
  - rewrite Hs. cbn [mbind option_bind]. case_if; [by eauto|]. eexists. split; [done|]. cbn [snd].
    eapply transition_state; [done..| |by intros|done]. by rewrite insert_id.
  - by eauto.
  - eexists. split; [done|]. cbn [snd]. destruct task as [id [route target]].
    apply Hpoll in Ep as [expired Ep]. symmetry in Ep. apply connect_establishes in Ep as (_ & Htun & Hwf).
    eapply transition_state; [done..|by eapply tasks_finish; [| |not_conn]| |].
    + intros c [= <-]. split_and!; [done|unfold TCP_BUF_SIZE; simpl; rewrite blen_nil; lia|done].
    + destruct Hl as ([Hd Ha] & Hroute). exists id, route, target, ps. split_and!; [done..|].
      split; simpl; [by rewrite Hd, app_nil_r|by rewrite Ha].
  - by eauto.
Qed.

Lemma poll_connecting_ok `{!TcpStreamLaws T} poll w : poll_sound poll -> out_inv w ->
  exists ready w', poll_connecting poll w = Some (ready, w') /\ out_inv w' /\ out_step w w'.
Proof.
  intros Hpoll Hinv. unfold poll_connecting.
  destruct (connections_loop (fun w => states (self w)) out_inv out_step snd (poll_connection poll) is_connecting (false, w)
    (handles_where (states (self w)) is_connecting)) as ([ready w'] & E & Hinv' & Hstep).
  - intros [ready a] h st. simpl. intros. by eapply poll_connection_ok.
  - done.
  - apply handles_where_nodup.
  - intros h. by rewrite handles_where_spec.
  - eauto.
Qed.

Lemma poll_ready_ok `{!TcpStreamLaws T} poll w : poll_sound poll -> out_inv w ->
  exists ready w', poll_ready poll w = Some (ready, w') /\ out_inv w' /\ out_step w w'.
Proof.
  intros Hpoll Hinv. unfold poll_ready.
  destruct (poll_connecting_ok poll w Hpoll Hinv) as (ready & w' & -> & Hinv' & Hstep). cbn [mbind option_bind].
  destruct (foldO_inv (connection_ready w') (fun _ _ => True) (iter_order (dom (states (self w')))) ready)
    as (ready' & -> & _); [|done|by eauto].
  intros h l r _. unfold connection_ready. destruct (states (self w') !! h) as [[]|] eqn:Hh; try by eauto.
  destruct (oi_sockets w' Hinv' h) as [sk ->]; [rewrite elem_of_dom; by eexists|]. simpl. by eauto.
Qed.

(** ** Lemmas: the shuttle *)

(** Bytes are conserved: what the application sent and the socket delivered is
    what the tunnel got; what the tunnel brings is what the socket accepted,
    then the buffer, then what the tunnel still holds. *)
Record conserved (c : ForwardContext) (s : S) (c' : ForwardContext) (s' : S) : Prop := {
  cons_up : exists d, delivered s' = delivered s ++ d /\
    sent (inner (stream c')) = sent (inner (stream c)) ++ d;
  cons_down : accepted s' ++ proxy_to_app c' ++ remaining (stream c')
    = accepted s ++ proxy_to_app c ++ remaining (stream c);
  cons_endpoint : endpoint_kept s s';
}.

Lemma conserved_refl c s : conserved c s c s.
Proof. split; [|done|reflexivity]. exists []. by rewrite !app_nil_r. Qed.

Lemma conserved_trans c1 s1 c2 s2 c3 s3 :
  conserved c1 s1 c2 s2 -> conserved c2 s2 c3 s3 -> conserved c1 s1 c3 s3.
Proof.
  intros [(d & U1 & V1) D1 K1] [(d' & U2 & V2) D2 K2]. split; [|congruence|by etrans].
  exists (d ++ d'). rewrite U2, U1, V2, V1, !app_assoc. done.
Qed.

Context `{!TcpStreamLaws T} `{!TcpSocketLaws S Cx}.

Lemma conserved_abort c s c' s' : conserved c s c' s' -> conserved c s c' (abort s').
Proof.
  intros [U1 D1 K1]. destruct (abort_history s') as [A1 A2]. split; rewrite ?A1, ?A2; [done..|].
  etrans; [exact K1|apply abort_endpoint].
Qed.

Lemma upload_ok c s c' s' : wf_context c -> shuttle_upload c s = (c', s') ->
  wf_context c' /\ conserved c s c' s'.
Proof.
  intros (Hwf & Hb & He). unfold shuttle_upload. case_if.
  2: { intros [= <- <-]. split; [done|apply conserved_refl]. }
  destruct (relay_recv s (inner (stream c))) as [[e s1] t1] eqn:E. intros [= <- <-].
  apply relay_recv_spec in E as (d & Hd & Hs & Ha & Hi & _ & Hk).
  assert (remaining (mkProxyStream t1 (buffered (stream c)) (position (stream c))) = remaining (stream c)) as Hr
    by (unfold remaining, unread; simpl; by rewrite Hi).
  split; [split_and!; [done|done|]; cbn [stream]; by rewrite Hr|].
  assert (conserved c s (mkForwardContext (mkProxyStream t1 (buffered (stream c)) (position (stream c)))
    (proxy_to_app c) (proxy_read_state c)) s1) as Hcons.
  { split; cbn [stream proxy_to_app inner]; [by exists d| |done]. by rewrite Hr, Ha. }
  destruct e; [by apply conserved_abort|done].
Qed.

Lemma read_ok c s c' s' : wf_context c -> shuttle_read c s = (c', s') ->
  wf_context c' /\ conserved c s c' s'.
Proof.
  intros (Hwf & Hb & He). unfold shuttle_read. case_if.
  2: { intros [= <- <-]. split; [done|apply conserved_refl]. }
  bool_prop. destruct (ps_try_read (stream c) _) as [r ps] eqn:E.
  apply ps_try_read_lemma in E as (Hwf' & Hs & _ & Hr); [|done|lia].
  assert (forall p rs, p ++ remaining ps = proxy_to_app c ++ remaining (stream c) ->
    conserved c s (mkForwardContext ps p rs) s) as Hcons.
  { intros p rs Hp. split; simpl; [exists []; by rewrite !app_nil_r|by rewrite Hp|reflexivity]. }
  destruct r as [[|b d]|e].
  - intros [= <- <-]. destruct Hr as (Hr & _ & H0'). destruct H0' as [Hnil _]; [done|]. simpl in Hr.
    split; [split_and!; [done|done|]; simpl; congruence|]. apply Hcons. by rewrite Hr.
  - intros [= <- <-]. destruct Hr as (Hr & Hd & _).
    split; [split_and!; simpl; [done| |congruence]|apply Hcons; by rewrite Hr, <- app_assoc].
    rewrite blen_app. lia.
  - assert (conserved c s (mkForwardContext ps (proxy_to_app c) (proxy_read_state c)) s) as Hc1 by (apply Hcons; by rewrite Hr).
    assert (conserved c s (mkForwardContext ps (proxy_to_app c) Failed) (abort s)) as Hc2
      by (apply conserved_abort, Hcons; by rewrite Hr).
    destruct e; intros [= <- <-]; (split; [split_and!; simpl; [done|done|congruence]|done]).
Qed.

Lemma download_ok c s : wf_context c -> exists c' s', shuttle_download c s = Some (c', s') /\
  wf_context c' /\ conserved c s c' s' /\ proxy_read_state c' = proxy_read_state c.
Proof.
  intros (Hwf & Hb & He). unfold shuttle_download.
  destruct (relay_send_spec s (proxy_to_app c)) as (e & s1 & buf & -> & Ha & Hd & Hl & Hk). cbn [mbind option_bind].
  eexists _, _. split; [done|].
  assert (conserved c s (mkForwardContext (stream c) buf (proxy_read_state c)) s1) as Hcons.
  { split; simpl; [exists []; by rewrite !app_nil_r| |done]. by rewrite !app_assoc, Ha. }
  split_and!; [split_and!; simpl; [done|lia|done]| |done]. destruct e; [by apply conserved_abort|done].
Qed.

Lemma close_ok c s s' closing : shuttle_close c s = (s', closing) ->
  conserved c s c s' /\ (closing = false -> may_recv s' = true /\ may_send s' = true) /\
  (closing = true -> state s' = tcp.Closed).
Proof.
  unfold shuttle_close. set (drained := _ && _ && _ && _).
  assert (conserved c s c (if drained then abort s else s)) as Hc
    by (destruct drained; [apply conserved_abort|]; apply conserved_refl).
  case_if; intros [= <- <-].
  - split_and!; [by apply conserved_abort|done|]. intros _. apply abort_closed.
  - bool_prop. split_and!; [done| |done]. done.
Qed.

Lemma shuttle_ok c s : wf_context c -> exists c' s' closing, shuttle c s = Some (c', s', closing) /\
  wf_context c' /\ conserved c s c' s' /\
  (closing = false -> may_recv s' = true /\ may_send s' = true) /\
  (closing = true -> state s' = tcp.Closed).
Proof.
  intros Hwf. unfold shuttle. destruct (shuttle_upload c s) as [c1 s1] eqn:E1.
  apply upload_ok in E1 as [Hwf1 C1]; [|done]. destruct (shuttle_read c1 s1) as [c2 s2] eqn:E2.
  apply read_ok in E2 as [Hwf2 C2]; [|done].
  destruct (download_ok c2 s2 Hwf2) as (c3 & s3 & -> & Hwf3 & C3 & _). cbn [mbind option_bind].
  destruct (shuttle_close c3 s3) as [s4 closing] eqn:E4. apply close_ok in E4 as (C4 & Hf & Ht).
  exists c3, s4, closing. split_and!; [done..| |done|done]. eauto using conserved_trans.
Qed.

Lemma relayed_step ps0 c s c' s' : relayed ps0 c s -> conserved c s c' s' -> relayed ps0 c' s'.
Proof.
  intros [Hu Hd] [(d & U1 & V1) D1 _]. split; [|by rewrite D1]. by rewrite V1, Hu, U1, app_assoc.
Qed.

Lemma shuttle_connection_ok w h st : out_inv w -> states (self w) !! h = Some st ->
  is_established st = true ->
  exists w', shuttle_connection w h = Some w' /\ out_inv w' /\ out_step w w' /\
    forall h', h' <> h -> states (self w') !! h' = states (self w) !! h'.
Proof.
  intros Hinv Hst Hc. destruct st as [| |c|]; try done. unfold shuttle_connection. rewrite Hst.
  cbn [mbind option_bind]. destruct (oi_sockets w Hinv h) as [s Hs]; [rewrite elem_of_dom; by eexists|].
  rewrite Hs. cbn [mbind option_bind].
  destruct (shuttle_ok c s) as (c' & s' & closing & -> & Hwf & Hcons & _); [by eapply oi_contexts|].
  destruct (oi_life w Hinv h _ s Hst Hs) as (id & route & target & ps0 & Hroute & Htun & Hrel).
  cbn [mbind option_bind]. eexists. split; [done|].
  eapply transition; [done..| | |].
  - apply tasks_insert; [apply Hinv|rewrite Hst; not_conn|destruct closing; not_conn].
  - intros c0. destruct closing; [done|]. by intros [= <-].
  - destruct closing; [done|]. exists id, route, target, ps0. split_and!; [done..|by eapply relayed_step].
Qed.

(** ** Lemmas: creation and removal *)

Lemma states_dom_sockets w : out_inv w -> dom (states (self w)) ⊆ dom (sockets w).
Proof.
  intros Hinv h Hh. destruct (oi_sockets w Hinv h Hh) as [s Hs%get_tcp_Some]. rewrite elem_of_dom. by eexists.
Qed.

Lemma index_insert o h k st : index_inv o -> states o !! h = None -> k ∉ listening_endpoints o ->
  index_inv (mkOutboundTcp (<[h := st]> (states o)) ({[k]} ∪ listening_endpoints o) (<[h := k]> (handle_to_endpoint o))).
Proof.
  intros [Hd Hi Hj] Hh Hk.
  assert (handle_to_endpoint o !! h = None) as Hnone by (rewrite <- not_elem_of_dom, Hd, not_elem_of_dom; done).
  split; simpl.
  - rewrite !dom_insert_L. by rewrite Hd.
  - intros k'. rewrite elem_of_union, elem_of_singleton, Hi. split.
    + intros [-> | [h' Hh']]; [exists h; by rewrite lookup_insert_eq|].
      exists h'. rewrite lookup_insert_ne; [done|]. by intros <-; rewrite Hnone in Hh'.
    + intros [h' [[_ <-]|[_ ?]]%lookup_insert_Some]; [by left|right; by eexists].
  - intros h1 h2 k'. rewrite !lookup_insert_Some. intros [[-> <-]|[Hn1 G1]] [[-> E2]|[Hn2 G2]]; [done| | |by eauto].
    + destruct Hk. apply Hi. by eexists.
    + subst k'. destruct Hk. apply Hi. by eexists.
Qed.

Lemma index_delete o h k : index_inv o -> handle_to_endpoint o !! h = Some k ->
  index_inv (mkOutboundTcp (delete h (states o)) (listening_endpoints o ∖ {[k]}) (delete h (handle_to_endpoint o))).
Proof.
  intros [Hd Hi Hj] Hh. split; simpl.
  - rewrite !dom_delete_L. by rewrite Hd.
  - intros k'. rewrite elem_of_difference, elem_of_singleton, Hi. split.
    + intros [[h' Hh'] Hne]. exists h'. rewrite lookup_delete_ne; [done|]. intros <-. congruence.
    + intros [h' [Hn Hh']%lookup_delete_Some]. split; [by eexists|]. intros ->. by destruct Hn; eapply Hj.
  - intros h1 h2 k' [_ G1]%lookup_delete_Some [_ G2]%lookup_delete_Some. eauto.
Qed.

Lemma observe_packet_ok now w packet : out_inv w ->
  exists w', observe_packet now w packet = Some w' /\ out_inv w' /\ out_step w w'.
Proof.
  intros Hinv. unfold observe_packet.
  assert (exists w', Some w = Some w' /\ out_inv w' /\ out_step w w') as Hsame
    by (exists w; by split_and!).
  destruct (parse_tcp_syn packet) as [[[[src sport] dst] dport]| |] eqn:Ep; [|done|by apply parse_tcp_syn_no_panic in Ep].
  case_bool_decide as Hk; [done|]. destruct (listen new_tcp_socket dport) as [socket|] eqn:El; [|done].
  unfold socket_add. set (h := alloc_handle (sockets w)).
  pose proof (alloc_handle_fresh (sockets w)) as Hf. fold h in Hf. eexists. split; [done|].
  assert (states (self w) !! h = None) as Hh.
  { apply not_elem_of_dom. intros Hin%states_dom_sockets; [|done]. apply elem_of_dom in Hin as [? ?]. congruence. }
  pose proof Hinv as [Hix Hsk Ht Hc Hlife]. split.
  - split; simpl.
    + by apply index_insert.
    + intros h' Hh'. rewrite dom_insert_L in Hh'. unfold get_tcp. destruct (decide (h = h')) as [<-|Hne].
      * rewrite lookup_insert_eq. by eexists.
      * rewrite lookup_insert_ne by done. apply Hsk. set_solver.
    + apply tasks_insert; [done|rewrite Hh; not_conn|not_conn].
    + intros h' c. rewrite lookup_insert_Some. intros [[_ [=]]|[_ E]]. by eapply Hc.
    + intros h' st1 s1. rewrite lookup_insert_Some. intros [[<- <-]|[Hne E]]; unfold get_tcp.
      * rewrite lookup_insert_eq. intros [= <-]. cbn [lifetime]. destruct (listen_history _ _ _ El) as [-> ->].
        apply new_tcp_socket_history.
      * rewrite lookup_insert_ne by done. by apply Hlife.
  - unfold out_step. simpl. rewrite dom_insert_L. split; [|set_solver|set_solver].
    intros h' _ Hn. rewrite lookup_insert_ne; [done|]. set_solver.
Qed.

Lemma observe_syns_ok now queue w : out_inv w ->
  exists w', observe_syns now queue w = Some w' /\ out_inv w' /\ out_step w w'.
Proof.
  intros Hinv. unfold observe_syns.
  destruct (foldO_inv (observe_packet now) (fun _ w' => out_inv w' /\ out_step w w') queue w)
    as (w' & E & ? & ?); [|by split|by eauto].
  intros p l w1 [Hi Hs]. destruct (observe_packet_ok now w1 p Hi) as (w2 & E & Hi2 & Hs2).
  exists w2. split_and!; [done..|by etrans].
Qed.

Lemma cleanup_connection_ok w h st : out_inv w -> states (self w) !! h = Some st -> is_closing st = true ->
  exists w', cleanup_connection w h = Some w' /\ out_inv w' /\ out_step w w' /\
    states (self w') = delete h (states (self w)).
Proof.
  intros Hinv Hst Hcl. destruct st; try done. pose proof Hinv as [Hix Hsk Ht Hc Hlife].
  assert (h ∈ dom (states (self w))) as Hdom by (rewrite elem_of_dom; by eexists).
  unfold cleanup_connection. assert (exists k, handle_to_endpoint (self w) !! h = Some k) as [k Hk].
  { rewrite <- (ix_dom _ Hix), elem_of_dom in Hdom. exact Hdom. }
  rewrite Hk. destruct (Hsk h Hdom) as [sk Hs%get_tcp_Some]. unfold socket_remove. rewrite Hs.
  cbn [mbind option_bind]. eexists. split; [done|]. unfold take_state. simpl. split_and!.
  - split; simpl.
    + by apply index_delete.
    + intros h' Hh'. rewrite dom_delete_L in Hh'. unfold get_tcp.
      rewrite lookup_delete_ne by set_solver. apply Hsk. set_solver.
    + apply tasks_delete; [done|rewrite Hst; not_conn].
    + intros h' c [_ E]%lookup_delete_Some. by eapply Hc.
    + intros h' st1 s1 [Hne E]%lookup_delete_Some. unfold get_tcp. rewrite lookup_delete_ne by done. by apply Hlife.
  - unfold out_step. simpl. rewrite dom_delete_L. split; [|set_solver|].
    + intros h' Hn _. rewrite lookup_delete_ne; [done|]. set_solver.
    + intros h' Hn Hn'. destruct (decide (h' = h)) as [->|]; [apply lookup_delete_eq|set_solver].
  - done.
Qed.

(** [cleanup] removes the closing connections and only them. *)
Lemma cleanup_ok w : out_inv w -> exists w', cleanup w = Some w' /\ out_inv w' /\ out_step w w' /\
  forall h st, states (self w') !! h = Some st <-> states (self w) !! h = Some st /\ st <> Closing.
Proof.
  intros Hinv. destruct (removal_loop (fun w => states (self w)) out_inv out_step cleanup_connection is_closing w)
    as (w' & E & Hi & Hs & Hst); [by apply cleanup_connection_ok|done|].
  exists w'. split_and!; [done..|]. intros h st. rewrite Hst. destruct st; naive_solver.
Qed.

Lemma process_ok now dns w : routes_all cfg -> out_inv w ->
  exists w', process now dns cfg w = Some w' /\ out_inv w' /\ out_step w w'.
Proof.
  intros Hr Hinv. unfold process. rewrite log_transitions_ok by done. cbn [mbind option_bind].
  destruct (connections_loop (fun w => states (self w)) out_inv out_step id (update_listener now dns cfg)
    (fun _ => true) w (iter_order (dom (states (self w)))))
    as (w1 & E1 & Hi1 & Hs1); [|done|apply iter_order_spec|apply all_handles_spec|].
  { intros. by eapply update_listener_ok. }
  unfold update_listeners. unfold id in *. rewrite E1. cbn [mbind option_bind].
  destruct (connections_loop (fun w => states (self w)) out_inv out_step id shuttle_connection is_established w1
    (handles_where (states (self w1)) is_established))
    as (w2 & E2 & Hi2 & Hs2); [|done|apply handles_where_nodup| |].
  - intros. by eapply shuttle_connection_ok.
  - intros h. by rewrite handles_where_spec.
  - exists w2. split_and!; [done..|by etrans].
Qed.

Lemma foldl_task_end_lookup (ids : list (JoinHandle job)) rt id j :
  tasks (foldl task_end rt ids) !! id = Some j <-> tasks rt !! id = Some j /\ id ∉ map fst ids.
Proof.
  revert rt. induction ids as [|t ids IH]; intros rt; simpl; [set_solver|].
  rewrite IH. simpl. rewrite lookup_delete_Some, not_elem_of_cons. naive_solver.
Qed.

Lemma drop_no_tasks w : out_inv w -> tasks (runtime (drop_outbound w)) = ∅.
Proof.
  intros [_ _ [Hwf Ho Hi] _ _]. apply map_empty. intros id.
  destruct (tasks (runtime (drop_outbound w)) !! id) as [j|] eqn:E; [|done]. exfalso.
  simpl in E. apply foldl_task_end_lookup in E as [Ht Hn]. apply Ho in Ht as [h Hh]. apply Hn.
  apply list_elem_of_fmap. exists (id, j). split; [done|]. apply list_elem_of_omap. exists h.
  rewrite Hh. split; [|done]. apply iter_order_spec. rewrite elem_of_dom. by eexists.
Qed.

Lemma out_inv_new (ss : SocketSet S U) : out_inv (mkWorld OutboundTcp_new ss (mkRuntime ∅ 0)).
Proof.
  split; simpl; [|set_solver| |by intros ? ? []%lookup_empty_Some|by intros ? ? ? []%lookup_empty_Some].
  - split; simpl; [set_solver| |by intros ? ? ? []%lookup_empty_Some].
    intros k. split; [set_solver|]. by intros [? []%lookup_empty_Some].
  - split; simpl; [by intros ? ?| |by intros ? ? ? ? ? []%lookup_empty_Some].
    intros id j. split; [by intros []%lookup_empty_Some|by intros [? []%lookup_empty_Some]].
Qed.

End Outbound.

(** ** Properties *)

(** Relaying keeps the byte streams intact: one round of the shuttle hands
    the tunnel exactly the bytes it takes from the application, in order, and
    the application what the tunnel brings, in order, with nothing lost or
    repeated in between; the buffer stays within 64 KiB; when the tunnel's end
    was seen and the buffer is empty, the application's socket has accepted
    everything. *)
Lemma outbound_integrity {T S Cx} `{TcpStreamLaws T} `{TcpSocketLaws S Cx} (c : @ForwardContext T) (s : S) :
  wf_context c -> exists c' s' closing, shuttle c s = Some (c', s', closing) /\
  wf_context c' /\ conserved c s c' s' /\
  (proxy_read_state c' = Eof -> proxy_to_app c' = [] ->
     accepted s' = accepted s ++ proxy_to_app c ++ remaining (stream c)).
Proof.
  intros Hwf. destruct (shuttle_ok c s Hwf) as (c' & s' & closing & E & Hwf' & Hc & _).
  exists c', s', closing. split_and!; [done..|]. intros He Hb. rewrite <- (cons_down _ _ _ _ Hc), Hb.
  destruct Hwf' as (_ & _ & Hr). rewrite (Hr He). simpl. by rewrite app_nil_r.
Qed.

(** ** Witnesses *)

Definition demo_key : EndpointKey := (ipv4_new 172 23 255 255, 40000, ipv4_new 10 1 2 3, 443).

Definition demo_socket : sim_tcp :=
  mkSimTcp tcp.Established (Some (ipv4_new 10 1 2 3, 443)) (str "hello") [] [] [] TCP_BUF_SIZE.

(** One connection, in state [st]. *)
Definition demo_world (st : @State sim) : @world sim sim_tcp sim_udp :=
  mkWorld (mkOutboundTcp {[5%nat := st]} {[demo_key]} {[5%nat := demo_key]})
          {[5%nat := Tcp demo_socket]} (mkRuntime ∅ 0).

(** The same network for every task. *)
Definition demo_network : Network sim := fun _ => demo_net.

Lemma demo_inv created :
  @out_inv sim sim_tcp unit sim_udp sim_ops sim_tcp_ops literal_engine demo_network demo_config
    (demo_world (Listening created)).
Proof.
  split; simpl.
  - split; simpl; [by rewrite !dom_singleton_L| |].
    + intros k. rewrite elem_of_singleton. split; [intros ->; exists 5%nat; apply lookup_singleton_eq|].
      by intros [h [_ <-]%lookup_singleton_Some].
    + by intros h h' k [<- _]%lookup_singleton_Some [<- _]%lookup_singleton_Some.
  - intros h. rewrite dom_singleton_L, elem_of_singleton. intros ->. by exists demo_socket.
  - split; simpl; [by intros ? ?| |].
    + intros id j. split; [by intros []%lookup_empty_Some|]. by intros [h [_ [=]]%lookup_singleton_Some].
    + by intros h h' id j j' [<- _]%lookup_singleton_Some [<- _]%lookup_singleton_Some.
  - by intros h c [_ [=]]%lookup_singleton_Some.
  - intros h st s [<- <-]%lookup_singleton_Some. unfold get_tcp. rewrite lookup_singleton_eq. by intros [= <-].
Qed.

Lemma demo_routes : @routes_all literal_engine demo_config.
Proof.
  exact (@routes_all_from_specs literal_engine literal_engine_laws demo_config demo_specs demo_specs_ok).
Qed.

(** The result of every task, at once. *)
Definition demo_poll (task : JoinHandle job) : @task_poll sim :=
  Completed (@connect sim _ (demo_network (fst task)) false (fst (snd task)) (snd (snd task))).

Lemma demo_poll_sound : @poll_sound sim _ demo_network demo_poll.
Proof. intros id route target r [= <-]. by exists false. Qed.

End Out.
