(* ===== verification/OutboundSteps.v ===== *)
(** * What the operations of outbound TCP make of a connection
      (src/src/event_loop/outbound.rs)

    Every operation of the component runs over all its connections.  Here each
    is seen from one handle: what it makes of the state and the socket of that
    connection, whatever the others do. *)

From S2P Require Import Prelude RustStr RustNet FakeDns ProxyConfig Rule Config Stream Connect.
From S2P Require Import Tun Smoltcp Dns Relay Outbound.

(** ** The outbound component, seen from one handle *)

Section Entry.
Context {T S Cx U : Type} `{TcpStreamOps T} `{TcpSocketOps S Cx} `{SocketAlloc S U} `{IterOrder} `{RegexEngine}.
Implicit Types w : @Out.world T S U.

Definition entry w (h : nat) : option Out.State * option (socket S U) :=
  (Out.states (Out.self w) !! h, Out.sockets w !! h).

(** Each loop body touches its own handle only. *)
Lemma update_listener_local now dns config w x w' h : x <> h ->
  Out.update_listener now dns config w x = Some w' -> entry w' h = entry w h.
Proof.
  intros Hne. unfold Out.update_listener. destruct (Out.states (Out.self w) !! x) as [[]|]; simpl; try by intros [= <-].
  destruct (get_tcp _ x) as [s|]; simpl; [|done].
  repeat case_match; intros [= <-]; unfold entry, put; simpl; by rewrite ?lookup_insert_ne by done.
Qed.

Lemma shuttle_connection_local w x w' h : x <> h -> Out.shuttle_connection w x = Some w' -> entry w' h = entry w h.
Proof.
  intros Hne. unfold Out.shuttle_connection. destruct (Out.states (Out.self w) !! x) as [[]|]; simpl; try by intros [= <-].
  destruct (get_tcp _ x) as [s|]; simpl; [|done]. destruct (Out.shuttle _ s) as [[[c' s'] closing]|]; simpl; [|done].
  intros [= <-]. unfold entry, put. simpl. by rewrite !lookup_insert_ne by done.
Qed.

Lemma cleanup_connection_local w x w' h : x <> h -> Out.cleanup_connection w x = Some w' -> entry w' h = entry w h.
Proof.
  intros Hne. unfold Out.cleanup_connection, socket_remove. destruct (Out.sockets w !! x); simpl; [|done].
  intros [= <-]. unfold entry. case_match; simpl; by rewrite !lookup_delete_ne by done.
Qed.

Lemma poll_connection_local poll a x a' h : x <> h ->
  Out.poll_connection (T := T) poll a x = Some a' -> entry a'.2 h = entry a.2 h.
Proof.
  intros Hne. destruct a as [ready w]. unfold Out.poll_connection, Out.abort_connection.
  destruct (Out.states (Out.self w) !! x) as [[]|]; simpl; try done. destruct (get_tcp _ x) as [s|]; simpl.
  all: repeat case_match; simpl; try done; intros [= <-]; unfold entry, put; simpl;
    by rewrite ?lookup_insert_ne, ?lookup_delete_ne by done.
Qed.

(** A packet may open a connection, with a socket of its own. *)
Lemma observe_syns_local now queue w w' h : is_Some (Out.sockets w !! h) ->
  Out.observe_syns now queue w = Some w' -> entry w' h = entry w h.
Proof.
  unfold Out.observe_syns. revert w. induction queue as [|p queue IH]; intros w Hs; simpl; [by intros [= <-]|].
  destruct (Out.observe_packet now w p) as [w1|] eqn:E; [|done]. cbn [mbind option_bind].
  assert (entry w1 h = entry w h) as Hw1.
  { revert E. unfold Out.observe_packet. destruct (parse_tcp_syn p) as [[key port]| |]; [|by intros [= <-]|done].
    case_match; [by intros [= <-]|]. destruct (listen _ _); [|by intros [= <-]]. unfold socket_add. intros [= <-].
    assert (alloc_handle (Out.sockets w) <> h) as Hne
      by (intros <-; rewrite alloc_handle_fresh in Hs; by destruct Hs).
    unfold entry. simpl. by rewrite !lookup_insert_ne by done. }
  intros E'. rewrite <- Hw1. apply IH; [|done]. injection Hw1 as _ ->. exact Hs.
Qed.

Lemma observe_syns_endpoint now queue w w' h : is_Some (Out.sockets w !! h) ->
  Out.observe_syns now queue w = Some w' ->
  Out.handle_to_endpoint (Out.self w') !! h = Out.handle_to_endpoint (Out.self w) !! h.
Proof.
  unfold Out.observe_syns. revert w. induction queue as [|p queue IH]; intros w Hs; simpl; [by intros [= <-]|].
  destruct (Out.observe_packet now w p) as [w1|] eqn:E; [|done]. cbn [mbind option_bind].
  revert E. unfold Out.observe_packet. destruct (parse_tcp_syn p) as [[key port]| |]; [|intros [= <-]; by apply IH|done].
  case_match; [intros [= <-]; by apply IH|]. destruct (listen _ _); [|intros [= <-]; by apply IH].
  unfold socket_add. intros [= <-]. assert (alloc_handle (Out.sockets w) <> h) as Hne
    by (intros <-; rewrite alloc_handle_fresh in Hs; by destruct Hs).
  intros ->%IH; simpl; [by rewrite lookup_insert_ne|by rewrite lookup_insert_ne].
Qed.

(** The operations: what each makes of the entry of [h]. *)

Lemma log_transitions_same w w' : Out.log_listener_transitions w = Some w' -> w' = w.
Proof.
  unfold Out.log_listener_transitions. generalize (iter_order (dom (Out.states (Out.self w)))).
  intros l. induction l as [|x l IH]; simpl; [by intros [= <-]|].
  destruct (Out.states (Out.self w) !! x) as [[]|]; simpl; try done. by destruct (get_tcp _ x).
Qed.

Lemma entry_state w w1 h : entry w1 h = entry w h ->
  Out.states (Out.self w1) !! h = Out.states (Out.self w) !! h /\ get_tcp (Out.sockets w1) h = get_tcp (Out.sockets w) h.
Proof. unfold entry, get_tcp. by intros [= -> ->]. Qed.

(** A connection that is neither listening nor established is left alone. *)
Lemma update_listeners_entry now dns config w w' h st : Out.update_listeners now dns config w = Some w' ->
  Out.states (Out.self w) !! h = Some st ->
  exists w1 w2, entry w1 h = entry w h /\ Out.update_listener now dns config w1 h = Some w2 /\ entry w' h = entry w2 h.
Proof.
  intros E Hst. eapply (foldO_local (fun w => entry w h) _ h) in E as [_ E].
  - apply E. rewrite (proj2 (iter_order_spec _)), elem_of_dom. by eexists.
  - intros s x s' Hx. by apply update_listener_local.
  - apply iter_order_spec.
Qed.

Lemma shuttle_established_entry w w' h : Out.shuttle_established w = Some w' ->
  match Out.states (Out.self w) !! h with
  | Some (Out.Established c) => exists s c' s' (closing : bool), get_tcp (Out.sockets w) h = Some s /\
      Out.shuttle c s = Some (c', s', closing) /\
      entry w' h = (Some (if closing then Out.Closing else Out.Established c'), Some (Tcp s'))
  | _ => entry w' h = entry w h
  end.
Proof.
  intros E. eapply (foldO_local (fun w => entry w h) _ h) in E as [E1 E2];
    [|intros s x s' Hx; by apply shuttle_connection_local|apply handles_where_nodup].
  rewrite handles_where_spec in E1, E2. destruct (Out.states (Out.self w) !! h) as [st|] eqn:Hst; [|apply E1; naive_solver].
  destruct st as [| |c|]; try (apply E1; naive_solver).
  destruct E2 as (w1 & w2 & Hw1 & E & ->); [by eexists|]. apply entry_state in Hw1 as [Hs1 Hk1]. rewrite Hst in Hs1.
  unfold Out.shuttle_connection in E. rewrite Hs1, Hk1 in E. cbn [mbind option_bind] in E.
  destruct (get_tcp (Out.sockets w) h) as [s|]; [|done]. cbn [mbind option_bind] in E.
  destruct (Out.shuttle c s) as [[[c' s'] closing]|] eqn:Esh; [|done]. cbn [mbind option_bind] in E.
  injection E as <-. exists s, c', s', closing. split_and!; [done..|].
  unfold entry, put. simpl. by rewrite !lookup_insert_eq.
Qed.

Lemma process_entry now dns config w w' h st : Out.process now dns config w = Some w' ->
  Out.states (Out.self w) !! h = Some st ->
  exists w1 w2 w3, entry w1 h = entry w h /\ Out.update_listener now dns config w1 h = Some w2 /\
    entry w3 h = entry w2 h /\ Out.shuttle_established w3 = Some w'.
Proof.
  unfold Out.process. intros E Hst. destruct (Out.log_listener_transitions w) as [w0|] eqn:E0; [|done].
  apply log_transitions_same in E0 as ->. cbn [mbind option_bind] in E.
  destruct (Out.update_listeners now dns config w) as [w3|] eqn:E3; [|done]. cbn [mbind option_bind] in E.
  destruct (update_listeners_entry _ _ _ _ _ _ _ E3 Hst) as (w1 & w2 & H1' & H2' & H3'). by exists w1, w2, w3.
Qed.

Lemma process_present now dns config w w' h st : Out.process now dns config w = Some w' ->
  Out.states (Out.self w) !! h = Some st -> is_Some (Out.states (Out.self w') !! h).
Proof.
  intros E Hst. destruct (process_entry _ _ _ _ _ _ _ E Hst) as (w1 & w2 & w3 & E1 & E2 & E3 & E4).
  assert (is_Some (Out.states (Out.self w2) !! h)) as Hw2.
  { revert E2. unfold Out.update_listener. apply entry_state in E1 as [E1 _]. rewrite Hst in E1. rewrite E1. simpl.
    destruct st; try (intros [= <-]; rewrite E1; by eexists). destruct (get_tcp _ h); simpl; [|done].
    repeat case_match; intros [= <-]; simpl; rewrite ?lookup_insert_eq, ?E1; by eexists. }
  apply entry_state in E3 as [E3 _]. apply (shuttle_established_entry _ _ h) in E4.
  destruct Hw2 as [st2 Hst2]. rewrite E3, Hst2 in E4. destruct st2 as [| |c|].
  3: destruct E4 as (s & c' & s' & closing & _ & _ & [= -> _]); by eexists.
  all: apply entry_state in E4 as [-> _]; rewrite E3, Hst2; by eexists.
Qed.

(** One round of an established connection. *)
Lemma process_established now dns config w w' h c : Out.process now dns config w = Some w' ->
  Out.states (Out.self w) !! h = Some (Out.Established c) ->
  exists s c' s' (closing : bool), get_tcp (Out.sockets w) h = Some s /\ Out.shuttle c s = Some (c', s', closing) /\
    entry w' h = (Some (if closing then Out.Closing else Out.Established c'), Some (Tcp s')).
Proof.
  intros E Hst. destruct (process_entry _ _ _ _ _ _ _ E Hst) as (w1 & w2 & w3 & E1 & E2 & E3 & E4).
  apply entry_state in E1 as E1'. rewrite Hst in E1'. destruct E1' as [Hs1 Hk1].
  unfold Out.update_listener in E2. rewrite Hs1 in E2. cbn [mbind option_bind] in E2. injection E2 as <-.
  apply entry_state in E3 as [Hs3 Hk3]. apply (shuttle_established_entry _ _ h) in E4.
  by rewrite Hs3, Hs1, Hk3, Hk1 in E4.
Qed.

(** A listener whose handshake is over starts the task for its target. *)
Lemma process_listening now dns config w w' h created s ip port route :
  Out.process now dns config w = Some w' -> entry w h = (Some (Out.Listening created), Some (Tcp s)) ->
  state s = tcp.Established -> local_endpoint s = Some (ip, port) ->
  proxy_for config (target_for dns ip port) = PSome route ->
  exists id, entry w' h = (Some (Out.Connecting (id, (route, target_for dns ip port))), Some (Tcp s)).
Proof.
  intros E Hw Hs Hl Hroute. injection Hw as Hst Hk.
  destruct (process_entry _ _ _ _ _ _ _ E Hst) as (w1 & w2 & w3 & E1 & E2 & E3 & E4).
  injection E1 as Hs1 Hk1. rewrite Hst in Hs1. rewrite Hk in Hk1. revert E2. unfold Out.update_listener, get_tcp.
  rewrite Hs1. cbn [mbind option_bind]. rewrite Hk1. cbn [mbind option_bind]. rewrite bool_decide_eq_true_2 by auto.
  rewrite Hl, Hroute. intros [= <-]. exists (next_task (Out.runtime w1)).
  apply entry_state in E3 as E3'. destruct E3' as [Hs3 _]. apply (shuttle_established_entry _ _ h) in E4.
  rewrite Hs3 in E4. simpl in E4. rewrite lookup_insert_eq in E4. rewrite E4, E3. unfold entry. simpl.
  by rewrite lookup_insert_eq, Hk1.
Qed.

(** A connection whose task runs, or that is closing, is left alone. *)
Lemma process_idle now dns config w w' h st : Out.process now dns config w = Some w' ->
  Out.states (Out.self w) !! h = Some st -> Out.is_connecting st || Out.is_closing st = true -> entry w' h = entry w h.
Proof.
  intros E Hst Hidle. destruct (process_entry _ _ _ _ _ _ _ E Hst) as (w1 & w2 & w3 & E1 & E2 & E3 & E4).
  apply entry_state in E1 as E1'. rewrite Hst in E1'. destruct E1' as [Hs1 Hk1].
  unfold Out.update_listener in E2. rewrite Hs1 in E2. cbn [mbind option_bind] in E2.
  assert (w1 = w2) as <- by (destruct st; by simplify_eq).
  apply entry_state in E3 as E3'. destruct E3' as [Hs3 _]. apply (shuttle_established_entry _ _ h) in E4.
  rewrite Hs3, Hs1 in E4. destruct st; [done| |done|]; congruence.
Qed.

(** Removing the closing connections. *)
Lemma cleanup_entry w w' h : Out.cleanup w = Some w' ->
  entry w' h = match Out.states (Out.self w) !! h with Some Out.Closing => (None, None) | _ => entry w h end.
Proof.
  intros E. eapply (foldO_local (fun w => entry w h) _ h) in E as [E1 E2];
    [|intros s x s' Hx; by apply cleanup_connection_local|apply handles_where_nodup].
  rewrite handles_where_spec in E1, E2. destruct (Out.states (Out.self w) !! h) as [st|] eqn:Hst; [|apply E1; naive_solver].
  destruct st as [| |c|]; try (apply E1; naive_solver).
  destruct E2 as (w1 & w2 & Hw1 & E & ->); [by eexists|]. revert E. unfold Out.cleanup_connection, socket_remove.
  destruct (Out.sockets w1 !! h); simpl; [|done]. intros [= <-]. unfold entry. case_match; simpl; by rewrite !lookup_delete_eq.
Qed.

(** Polling the connect tasks. *)
Lemma poll_ready_entry poll w ready w' h : Out.poll_ready poll w = Some (ready, w') ->
  match Out.states (Out.self w) !! h with
  | Some (Out.Connecting task) => exists a a', entry a.2 h = entry w h /\
      Out.poll_connection poll a h = Some a' /\ entry w' h = entry a'.2 h
  | _ => entry w' h = entry w h
  end.
Proof.
  unfold Out.poll_ready. intros E. destruct (Out.poll_connecting poll w) as [[ready1 w1]|] eqn:E1; [|done].
  cbn [mbind option_bind] in E. destruct (foldO _ _ _) as [ready2|]; [|done]. injection E as _ <-.
  eapply (foldO_local (fun a : bool * Out.world => entry a.2 h) _ h) in E1 as [I1 I2];
    [|intros s x s' Hx; by apply poll_connection_local|apply handles_where_nodup].
  rewrite handles_where_spec in I1, I2. destruct (Out.states (Out.self w) !! h) as [st|] eqn:Hst; [|apply I1; naive_solver].
  destruct st as [|task|c|]; try (apply I1; naive_solver).
  destruct I2 as (a & a' & J1 & J2 & J3); [by eexists|]. by exists a, a'.
Qed.

(** Polling a task that has not failed, while the application is there. *)
Lemma poll_connection_outcome poll ready w h a' task s (ps : ProxyStream T) :
  entry w h = (Some (Out.Connecting task), Some (Tcp s)) -> Out.client_gone (state s) = false ->
  poll task = Out.Pending \/ poll task = Out.Completed (Ok ps) ->
  Out.poll_connection poll (ready, w) h = Some a' ->
  entry a'.2 h = entry w h /\ poll task = Out.Pending \/
  entry a'.2 h = (Some (Out.Established (Out.mkForwardContext ps [] Out.Open)), Some (Tcp s)).
Proof.
  intros Hw Hc Hok. injection Hw as Hst Hs. unfold Out.poll_connection. rewrite Hst. cbn [mbind option_bind].
  destruct Hok as [Hp|Hp]; rewrite Hp.
  - unfold get_tcp. simpl. rewrite Hs. simpl. rewrite Hc. intros [= <-]. left. split; [|done]. unfold entry. simpl. by rewrite lookup_insert_eq, Hst.
  - intros [= <-]. right. unfold entry. simpl. by rewrite lookup_insert_eq, Hs.
Qed.

(** A task that fails or panics, or whose application has gone. *)
Definition fails (poll : JoinHandle Out.job -> @Out.task_poll T) (task : JoinHandle Out.job) (s : S) : Prop :=
  (exists e, poll task = Out.Completed (Err e)) \/ poll task = Out.Panicked \/
  poll task = Out.Pending /\ Out.client_gone (state s) = true.

Lemma poll_connection_fails poll a a' h task s : entry a.2 h = (Some (Out.Connecting task), Some (Tcp s)) ->
  fails poll task s -> Out.poll_connection poll a h = Some a' ->
  entry a'.2 h = (Some Out.Closing, Some (Tcp (abort s))) /\ a'.1 = true.
Proof.
  intros Hw Hf. destruct a as [ready w]. injection Hw as Hst Hs%get_tcp_Some. unfold Out.poll_connection, Out.abort_connection.
  rewrite Hst. cbn [mbind option_bind Out.sockets]. rewrite Hs. cbn [mbind option_bind].
  destruct Hf as [[e ->]|[-> |[-> ->]]]; intros [= <-]; (split; [|done]); unfold entry, put; simpl; by rewrite !lookup_insert_eq.
Qed.

Lemma connections_ready_true w l ready : foldO (Out.connection_ready w) true l = Some ready -> ready = true.
Proof.
  induction l as [|x l IH]; simpl; [by intros [= <-]|]. destruct (Out.connection_ready w true x) as [b|] eqn:E; [|done].
  assert (b = true) as ->; [|exact IH]. revert E. unfold Out.connection_ready.
  destruct (Out.states (Out.self w) !! x) as [[| |c|]|]; try by intros [= <-].
  destruct (get_tcp (Out.sockets w) x) as [s|]; cbn [mbind option_bind]; [|done]. intros [= <-].
  by destruct (can_recv s), (_ && _).
Qed.

(** It wakes the loop, and the connection is to be closed. *)
Lemma poll_ready_fails poll w ready w' h task s : Out.poll_ready poll w = Some (ready, w') ->
  entry w h = (Some (Out.Connecting task), Some (Tcp s)) -> fails poll task s ->
  ready = true /\ entry w' h = (Some Out.Closing, Some (Tcp (abort s))).
Proof.
  unfold Out.poll_ready. intros E Hw Hf. destruct (Out.poll_connecting poll w) as [[ready1 w1]|] eqn:E1; [|done].
  cbn [mbind option_bind] in E. destruct (foldO _ _ _) as [ready2|] eqn:E2; [|done]. injection E as <- <-.
  apply (foldO_turns (fun a : bool * Out.world => entry a.2 h = (Some (Out.Connecting task), Some (Tcp s)))
    (fun a => entry a.2 h = (Some Out.Closing, Some (Tcp (abort s))) /\ a.1 = true) _ h) in E1 as [G1 G2].
  - cbn [fst snd] in G1, G2. subst ready1. by apply connections_ready_true in E2.
  - intros a x a' Hx Ex. rewrite (poll_connection_local _ _ _ _ _ Hx Ex). split; [done|]. intros [? G]. split; [done|].
    revert Ex. destruct a as [r v]. simpl in G. subst r. unfold Out.poll_connection, Out.abort_connection.
    destruct (Out.states (Out.self v) !! x) as [[]|]; cbn [mbind option_bind]; try done.
    destruct (get_tcp _ x); cbn [mbind option_bind]; repeat case_match; by intros [= <-].
  - intros a a' Ha Ea. by eapply poll_connection_fails.
  - apply handles_where_nodup.
  - rewrite handles_where_spec. injection Hw as Hst _. by eexists.
  - done.
Qed.

(** A listener that is still listening after [process] is young: the handshake
    is done, the socket is gone, or the timeout has not run out. *)
Lemma process_expires `{!TcpSocketLaws S Cx} now dns config w w' h created : Out.process now dns config w = Some w' ->
  Out.states (Out.self w') !! h = Some (Out.Listening created) -> elapsed now created < TCP_HANDSHAKE_TIMEOUT.
Proof.
  intros E Hl. unfold Out.process in E. destruct (Out.log_listener_transitions w) as [w0|] eqn:E0; [|done].
  apply log_transitions_same in E0 as ->. cbn [mbind option_bind] in E.
  destruct (Out.update_listeners now dns config w) as [w3|] eqn:E3; [|done]. cbn [mbind option_bind] in E.
  assert (Out.states (Out.self w3) !! h = Some (Out.Listening created)) as G3.
  { apply (shuttle_established_entry _ _ h) in E. destruct (Out.states (Out.self w3) !! h) as [[]|] eqn:Hst;
      try (apply entry_state in E as [E _]; congruence).
    destruct E as (s & c' & s' & closing & _ & _ & [= E _]). rewrite Hl in E. by destruct closing. }
  destruct (Out.states (Out.self w) !! h) as [st|] eqn:Hst.
  - destruct (update_listeners_entry _ _ _ _ _ _ _ E3 Hst) as (w1 & w2 & [Hs1 _]%entry_state & E2 & [Hs2 _]%entry_state).
    rewrite Hst in Hs1. rewrite G3 in Hs2. revert E2. unfold Out.update_listener. rewrite Hs1. cbn [mbind option_bind].
    destruct st; try (intros [= <-]; congruence). destruct (get_tcp _ h) as [s|]; cbn [mbind option_bind]; [|done].
    case_bool_decide as Hc; [destruct (connected_endpoint s Hc) as [[] ->]|];
      repeat case_match; intros [= <-]; simpl in Hs2; rewrite ?lookup_insert_eq in Hs2; try congruence.
    rewrite Hs1 in Hs2. injection Hs2 as <-. by bool_prop.
  - eapply (foldO_local (fun w => entry w h) _ h) in E3 as [E3 _];
      [|intros s x s' Hx; by apply update_listener_local|apply iter_order_spec].
    assert (entry w3 h = entry w h) as [G _]%entry_state
      by (apply E3; rewrite (proj2 (iter_order_spec _)), elem_of_dom, Hst; by intros []).
    congruence.
Qed.

(** *** The moves of a connection *)

Definition connection : Type := option (@Out.State T) * option (socket S U).

(** SYNs were seen: a handle that was free may be a listener now, for a SYN of
    the queue. *)
Definition observed (now : Z) (queue : list bytes) w w' (h : nat) : Prop :=
  entry w' h = entry w h \/
  entry w h = (None, None) /\ exists packet key s, packet ∈ queue /\ parse_tcp_syn packet = PSome key /\
    listen new_tcp_socket key.2 = Some s /\ Out.handle_to_endpoint (Out.self w') !! h = Some key /\
    entry w' h = (Some (Out.Listening now), Some (Tcp s)).

(** A listener whose handshake is done has its target and route looked up and a
    task spawned; it is given up when its socket is gone or its time is up; an
    established connection is relayed for one round. *)
Definition processed (now : Z) (dns : DnsInterceptor) (config : Config) (before after : connection) : Prop :=
  match before with
  | (Some (Out.Listening created), Some (Tcp s)) =>
      if bool_decide (state s = tcp.Established \/ state s = tcp.CloseWait) then
        exists ip port route id, local_endpoint s = Some (ip, port) /\
          proxy_for config (target_for dns ip port) = PSome route /\
          after = (Some (Out.Connecting (id, (route, target_for dns ip port))), Some (Tcp s))
      else if bool_decide (state s = tcp.Closed \/ state s = tcp.TimeWait) then
        after = (Some Out.Closing, Some (Tcp s))
      else after = if TCP_HANDSHAKE_TIMEOUT <=? elapsed now created
                   then (Some Out.Closing, Some (Tcp (abort s))) else before
  | (Some (Out.Established c), Some (Tcp s)) => exists c' s' (closing : bool),
      Out.shuttle c s = Some (c', s', closing) /\
      after = (Some (if closing then Out.Closing else Out.Established c'), Some (Tcp s'))
  | _ => after = before
  end.

(** A task's tunnel is relayed from now on; when it failed or its application
    has gone, the connection is reset. *)
Definition task_polled (poll : JoinHandle Out.job -> @Out.task_poll T) (before : connection) : connection :=
  match before with
  | (Some (Out.Connecting task), Some (Tcp s)) =>
      let reset := (Some Out.Closing, Some (Tcp (abort s))) in
      match poll task with
      | Out.Completed (Ok ps) => (Some (Out.Established (Out.mkForwardContext ps [] Out.Open)), Some (Tcp s))
      | Out.Completed (Err _) | Out.Panicked => reset
      | Out.Pending => if Out.client_gone (state s) then reset else before
      end
  | _ => before
  end.

(** A closing connection is removed with its socket. *)
Definition cleaned (before : connection) : connection :=
  match before with (Some Out.Closing, _) => (None, None) | _ => before end.

Lemma entry_socket `{!Network T} config w h st : Out.out_inv config w -> (entry w h).1 = Some st ->
  exists s, entry w h = (Some st, Some (Tcp s)).
Proof.
  intros Hinv Hst. destruct (Out.oi_sockets _ _ Hinv h) as [s Hs%get_tcp_Some]; [apply elem_of_dom; by eexists|].
  exists s. unfold entry in *. simpl in Hst. by rewrite Hst, Hs.
Qed.

Lemma observe_packet_moves now w w' packet h : Out.observe_packet now w packet = Some w' ->
  observed now [packet] w w' h \/ (Out.states (Out.self w) !! h <> None /\ Out.sockets w !! h = None).
Proof.
  unfold Out.observe_packet. destruct (parse_tcp_syn packet) as [[ap port]| |] eqn:Ep; [|intros [= <-]; by left; left|done].
  case_bool_decide; [intros [= <-]; by left; left|].
  destruct (listen new_tcp_socket port) as [s|] eqn:El; [|intros [= <-]; by left; left].
  unfold socket_add. intros [= <-]. unfold observed, entry. simpl.
  destruct (decide (alloc_handle (Out.sockets w) = h)) as [<-|Hne]; [|left; left; by rewrite !lookup_insert_ne].
  rewrite !lookup_insert_eq. pose proof (alloc_handle_fresh (Out.sockets w)) as Hf. rewrite Hf.
  destruct (Out.states (Out.self w) !! _); [by right|]. left. right. split; [done|].
  exists packet, (ap, port), s. split_and!; [left|done..].
Qed.

Lemma observe_syns_moves `{!Network T} `{!TcpStreamLaws T} `{!TcpSocketLaws S Cx} config now queue w w' h :
  Out.out_inv config w -> Out.observe_syns now queue w = Some w' -> observed now queue w w' h.
Proof.
  unfold Out.observe_syns. revert w. induction queue as [|p queue IH]; intros w Hinv; simpl; [intros [= <-]; by left|].
  destruct (Out.observe_packet_ok config now w p Hinv) as (w1 & E & Hi & _). rewrite E. cbn [mbind option_bind].
  intros E'. destruct (IH w1 Hi E') as [Hsame|(Hfree & packet & key & s & Hp & G)].
  - apply (observe_packet_moves _ _ _ _ h) in E as [[E|(E & packet & key & s & ->%list_elem_of_singleton & Hk & Hl & Hh & Hent)]|[Hst Hss]].
    + left. by rewrite Hsame.
    + right. split; [done|]. exists p, key, s. rewrite Hsame. split_and!; [left|done|done| |done].
      rewrite <- Hh. eapply (observe_syns_endpoint now queue); [|exact E']. injection Hent as _ ->. by eexists.
    + exfalso. destruct (Out.states (Out.self w) !! h) as [st|] eqn:Est; [|done].
      destruct (entry_socket config w h st Hinv Est) as [s [= _ Hs]]. congruence.
  - apply (observe_packet_moves _ _ _ _ h) in E as [[E|(_ & packet' & key' & s' & _ & _ & _ & _ & Hent)]|[Hst Hss]].
    + right. rewrite <- E. split; [done|]. exists packet, key, s. split; [by right|done].
    + rewrite Hent in Hfree. done.
    + exfalso. destruct (Out.states (Out.self w) !! h) as [st|] eqn:Est; [|done].
      destruct (entry_socket config w h st Hinv Est) as [s' [= _ Hs]]. congruence.
Qed.

(** A SYN to a port that can be listened on has its listener. *)
Lemma observe_syns_listens now queue w w' packet key : Out.observe_syns now queue w = Some w' -> packet ∈ queue ->
  parse_tcp_syn packet = PSome key -> is_Some (listen (S := S) new_tcp_socket key.2) ->
  key ∈ Out.listening_endpoints (Out.self w').
Proof.
  unfold Out.observe_syns. intros E Hp Hk Hs.
  assert (forall w1 p w2, Out.observe_packet now w1 p = Some w2 ->
    Out.listening_endpoints (Out.self w1) ⊆ Out.listening_endpoints (Out.self w2)) as Hmono.
  { intros w1 p w2. unfold Out.observe_packet. destruct (parse_tcp_syn p) as [[]| |]; [|by intros [= <-]|done].
    case_bool_decide; [by intros [= <-]|]. case_match; [|by intros [= <-]].
    unfold socket_add. intros [= <-]. simpl. set_solver. }
  assert (forall l w1 w2, foldO (Out.observe_packet now) w1 l = Some w2 ->
    Out.listening_endpoints (Out.self w1) ⊆ Out.listening_endpoints (Out.self w2)) as Hmonos.
  { intros l. induction l as [|p l IH]; intros w1 w2; simpl; [by intros [= <-]|].
    destruct (Out.observe_packet now w1 p) as [w3|] eqn:E3; [|done]. cbn [mbind option_bind].
    intros G%IH. by etrans; [eapply Hmono|]. }
  revert w E. induction queue as [|p queue IH]; intros w; simpl; [by apply elem_of_nil in Hp|].
  destruct (Out.observe_packet now w p) as [w1|] eqn:E1; [|done]. cbn [mbind option_bind]. intros E.
  apply elem_of_cons in Hp as [<-|Hp]; [|by eapply IH]. apply (Hmonos _ _ _ E). revert E1.
  unfold Out.observe_packet. rewrite Hk. destruct key as [ap port]. case_bool_decide; [by intros [= <-]|].
  destruct Hs as [s Hs]. simpl in Hs. rewrite Hs. unfold socket_add. intros [= <-]. simpl. set_solver.
Qed.

Lemma update_listeners_absent now dns config w w' h : Out.update_listeners now dns config w = Some w' ->
  Out.states (Out.self w) !! h = None -> entry w' h = entry w h.
Proof.
  intros E Hst. eapply (foldO_local (fun w => entry w h) _ h) in E as [E _];
    [|intros s x s' Hx; by apply update_listener_local|apply iter_order_spec].
  apply E. rewrite (proj2 (iter_order_spec _)), elem_of_dom, Hst. by intros [].
Qed.

Lemma process_moves `{!Network T} `{!TcpSocketLaws S Cx} now dns config w w' h : Out.out_inv config w ->
  Out.process now dns config w = Some w' -> processed now dns config (entry w h) (entry w' h).
Proof.
  intros Hinv E. destruct (Out.states (Out.self w) !! h) as [st|] eqn:Hst.
  2: { unfold processed. rewrite (surjective_pairing (entry w h)). simpl. rewrite Hst.
       unfold Out.process in E. destruct (Out.log_listener_transitions w) as [w0|] eqn:E0; [|done].
       apply log_transitions_same in E0 as ->. cbn [mbind option_bind] in E.
       destruct (Out.update_listeners now dns config w) as [w3|] eqn:E3; [|done]. cbn [mbind option_bind] in E.
       apply (shuttle_established_entry _ _ h) in E. pose proof (update_listeners_absent _ _ _ _ _ _ E3 Hst) as G.
       apply entry_state in G as G'. destruct G' as [G' _]. rewrite G', Hst in E. rewrite E, G. unfold entry. by rewrite Hst. }
  destruct (entry_socket config w h st Hinv Hst) as [s He]. rewrite He.
  destruct (process_entry _ _ _ _ _ _ _ E Hst) as (w1 & w2 & w3 & E1 & E2 & E3 & E4). rewrite He in E1.
  apply (shuttle_established_entry _ _ h) in E4. injection E1 as Hs1 Hk1.
  revert E2. unfold Out.update_listener, get_tcp. rewrite Hs1, Hk1. cbn [mbind option_bind]. simpl.
  assert (forall st2 k2, entry w2 h = (Some st2, k2) -> (forall c, st2 <> Out.Established c) -> entry w' h = (Some st2, k2)) as Hidle.
  { intros st2 k2 G Hn. rewrite <- G, <- E3. rewrite G in E3. injection E3 as G3 _. rewrite G3 in E4.
    destruct st2; [done|done| |done]. by destruct (Hn context). }
  destruct st as [created|task|c|].
  - case_bool_decide as Hc.
    { destruct (connected_endpoint s Hc) as [[ip port] Hl]. rewrite Hl.
      destruct (proxy_for config (target_for dns ip port)) as [route| |] eqn:Hroute; try done. intros [= <-].
      exists ip, port, route, (next_task (Out.runtime w1)). split_and!; [done..|]. apply Hidle; [|done].
      unfold entry. simpl. by rewrite lookup_insert_eq, Hk1. }
    case_bool_decide.
    { intros [= <-]. apply Hidle; [|done]. unfold entry. simpl. by rewrite lookup_insert_eq, Hk1. }
    case_if; intros [= <-]; apply Hidle; try done; unfold entry, put; simpl; by rewrite ?lookup_insert_eq, ?Hs1, ?Hk1.
  - intros [= <-]. apply Hidle; [|done]. unfold entry. by rewrite Hs1, Hk1.
  - intros [= <-]. unfold entry in E3. rewrite Hs1, Hk1 in E3. injection E3 as Hs3 Hk3. rewrite Hs3 in E4.
    destruct E4 as (s0 & c' & s' & closing & G & Hsh & ->). unfold get_tcp in G. rewrite Hk3 in G. injection G as <-.
    by exists c', s', closing.
  - intros [= <-]. apply Hidle; [|done]. unfold entry. by rewrite Hs1, Hk1.
Qed.

Lemma poll_ready_moves `{!Network T} config poll w ready w' h : Out.out_inv config w ->
  Out.poll_ready poll w = Some (ready, w') -> entry w' h = task_polled poll (entry w h).
Proof.
  intros Hinv E. apply (poll_ready_entry _ _ _ _ h) in E. unfold task_polled.
  destruct (Out.states (Out.self w) !! h) as [st|] eqn:Hst.
  2: { rewrite (surjective_pairing (entry w h)). simpl. rewrite Hst, E. unfold entry. by rewrite Hst. }
  destruct (entry_socket config w h st Hinv Hst) as [s He]. rewrite He. destruct st as [|task|c|]; try by rewrite E, He.
  destruct E as ([r w1] & a' & E1 & E2 & ->). simpl in E1. rewrite He in E1. injection E1 as Hs1 Hk1.
  revert E2. unfold Out.poll_connection, Out.abort_connection, get_tcp. rewrite Hs1. cbn [mbind option_bind Out.sockets].
  rewrite Hk1. cbn [mbind option_bind].
  destruct (poll task) as [| |[ps|e]]; [case_if|..]; intros [= <-]; unfold entry, put; simpl;
    by rewrite ?lookup_insert_eq, ?Hk1.
Qed.

End Entry.

(** ** Properties *)

(** C10. The outbound component is safe: it starts consistent, and from every
    consistent state each of its operations runs without panicking, whatever
    packets, clock, task results and traversal order; it leaves the endpoint
    index, the sockets, the tasks and the buffers consistent, and touches no
    socket of others.  A connection comes into being only as the listener for
    a SYN, and each SYN to a port that can be listened on has one; [process]
    gives a listener whose handshake is done the task for what its address
    means at that time, through the route of this target, gives up one whose
    socket has gone or whose time is up, and relays one round of an
    established connection; polling turns a finished task into a tunnel and a
    failed one, or one whose application has gone, into a reset; [cleanup]
    removes the closing connections; otherwise each leaves a connection as it
    is.  No connect task survives the component. *)
Theorem outbound_safe {T S Cx U} `{TcpStreamLaws T} `{TcpSocketLaws S Cx} `{SocketAlloc S U} `{IterOrder}
    `{RegexEngine} `{!Network T} (w : @Out.world T S U) now queue dns config poll :
  let inv := Out.out_inv config in
  routes_all config -> Out.poll_sound poll -> inv w ->
  (forall ss, inv (Out.mkWorld (T := T) Out.OutboundTcp_new (ss : SocketSet S U) (mkRuntime ∅ 0))) /\
  (exists w', Out.observe_syns now queue w = Some w' /\ inv w' /\ Out.out_step w w' /\
     (forall h, observed now queue w w' h) /\
     forall packet key, packet ∈ queue -> parse_tcp_syn packet = PSome key ->
       is_Some (listen (S := S) new_tcp_socket key.2) -> key ∈ Out.listening_endpoints (Out.self w')) /\
  (exists w', Out.process now dns config w = Some w' /\ inv w' /\ Out.out_step w w' /\
     forall h, processed now dns config (entry w h) (entry w' h)) /\
  (exists ready w', Out.poll_ready poll w = Some (ready, w') /\ inv w' /\ Out.out_step w w' /\
     forall h, entry w' h = task_polled poll (entry w h)) /\
  (exists w', Out.cleanup w = Some w' /\ inv w' /\ Out.out_step w w' /\
     forall h, entry w' h = cleaned (entry w h)) /\
  tasks (Out.runtime (Out.drop_outbound w)) = ∅.
Proof.
  intros inv Hr Hp Hinv. split_and!.
  - by apply Out.out_inv_new.
  - destruct (Out.observe_syns_ok config now queue w Hinv) as (w' & E & ? & ?). exists w'. split_and!; [done..| |].
    + intros h. by eapply observe_syns_moves.
    + intros packet key. by apply (observe_syns_listens now queue w).
  - destruct (Out.process_ok config now dns w Hr Hinv) as (w' & E & ? & ?). exists w'. split_and!; [done..|].
    intros h. by eapply process_moves.
  - destruct (Out.poll_ready_ok config poll w Hp Hinv) as (ready & w' & E & ? & ?). exists ready, w'. split_and!; [done..|].
    intros h. by eapply poll_ready_moves.
  - destruct (Out.cleanup_ok config w Hinv) as (w' & E & ? & ? & _). exists w'. split_and!; [done..|].
    intros h. by rewrite (cleanup_entry _ _ h E).
  - by apply (Out.drop_no_tasks config).
Qed.

(** ** Witnesses *)

Lemma outbound_safe_witness :
  exists w', @Out.process sim sim_tcp unit sim_udp sim_ops sim_tcp_ops elements_order literal_engine
    40000 (mkDnsInterceptor 0 Pool.new) demo_config (Out.demo_world (Out.Listening 0)) = Some w' /\
    processed 40000 (mkDnsInterceptor 0 Pool.new) demo_config (entry (Out.demo_world (Out.Listening 0)) 5) (entry w' 5).
Proof.
  destruct (@outbound_safe sim sim_tcp unit sim_udp _ _ _ _ (fresh_alloc sim_tcp sim_udp) elements_order
    literal_engine Out.demo_network (Out.demo_world (Out.Listening 0)) 40000 [] (mkDnsInterceptor 0 Pool.new) demo_config
    Out.demo_poll Out.demo_routes Out.demo_poll_sound) as (_ & _ & (w' & Hw & _ & _ & Hm) & _).
  - apply Out.demo_inv.
  - exists w'. split; [exact Hw|exact (Hm 5%nat)].
Defined.
