(* ===== verification/Published.v ===== *)
(** * Published TCP ports (src/src/event_loop/published.rs)

    [Ports] is the allocator of source ports.  [Pub] is the state machine of
    connections from the host into the namespace: accepted host streams wait in
    a channel, get a source port and a connecting socket, are relayed once the
    namespace accepts, and are removed when either side is done. *)

From S2P Require Import Prelude RustStr RustNet Publish Config Stream Tun Smoltcp Relay.

Module Ports.

Definition PORT_MIN : Z := 49152.
Definition PORT_MAX : Z := 65535.

Record PortAllocator : Type := mkPortAllocator {
  next : Z;
  used : gset Z;
}.

Definition new : PortAllocator := mkPortAllocator PORT_MIN ∅.

(** The number of ports. *)
Definition capacity : Z := PORT_MAX - PORT_MIN + 1.

(** [for _ in 0..n { .. }] of [allocate] *)
Fixpoint allocate_loop (n : nat) (self : PortAllocator) : option Z * PortAllocator :=
  match n with
  | O => (None, self)
  | S n =>
      let candidate := next self in
      let next' := if candidate =? PORT_MAX then PORT_MIN else candidate + 1 in
      if bool_decide (candidate ∈ used self) then allocate_loop n (mkPortAllocator next' (used self))
      else (Some candidate, mkPortAllocator next' ({[candidate]} ∪ used self))
  end.

Definition allocate (self : PortAllocator) : option Z * PortAllocator :=
  allocate_loop (Z.to_nat capacity) self.

Definition release (self : PortAllocator) (port : Z) : PortAllocator :=
  mkPortAllocator (next self) (used self ∖ {[port]}).

(** ** Specification *)

Definition in_pool (port : Z) : Prop := PORT_MIN <= port <= PORT_MAX.

Definition wf (self : PortAllocator) : Prop := in_pool (next self) /\ forall p, p ∈ used self -> in_pool p.

(** The [i]-th port from [start], around the ring. *)
Definition ring (start : Z) (i : nat) : Z := PORT_MIN + (start - PORT_MIN + Z.of_nat i) mod capacity.

Lemma ring_in_pool start i : in_pool (ring start i).
Proof.
  unfold in_pool, ring, capacity, PORT_MIN, PORT_MAX.
  pose proof (Z.mod_pos_bound (start - 49152 + Z.of_nat i) (65535 - 49152 + 1)). lia.
Qed.

Lemma ring_0 start : in_pool start -> ring start 0 = start.
Proof.
  unfold in_pool, ring, capacity, PORT_MIN, PORT_MAX. intros Hs. rewrite Z.mod_small by lia. lia.
Qed.

(** Advancing [next] is one step around the ring. *)
Lemma ring_step start i : in_pool start ->
  ring (if start =? PORT_MAX then PORT_MIN else start + 1) i = ring start (S i).
Proof.
  unfold in_pool, ring, capacity, PORT_MIN, PORT_MAX. intros Hs. case_if; bool_prop.
  - subst. f_equal. replace (65535 - 49152 + Z.of_nat (S i)) with (49152 - 49152 + Z.of_nat i + 1 * (65535 - 49152 + 1)) by lia.
    by rewrite Z.mod_add by lia.
  - f_equal. f_equal. lia.
Qed.

Lemma next_in_pool start : in_pool start -> in_pool (if start =? PORT_MAX then PORT_MIN else start + 1).
Proof. unfold in_pool, PORT_MIN, PORT_MAX. intros Hs. case_if; bool_prop; lia. Qed.

Lemma ring_covers start p : in_pool start -> in_pool p ->
  exists i, (i < Z.to_nat capacity)%nat /\ ring start i = p.
Proof.
  intros Hs Hp. exists (Z.to_nat ((p - start) mod capacity)).
  unfold in_pool, ring, capacity, PORT_MIN, PORT_MAX in *.
  pose proof (Z.mod_pos_bound (p - start) (65535 - 49152 + 1)). split; [lia|].
  rewrite Z2Nat.id by lia. rewrite Zplus_mod_idemp_r. replace (start - 49152 + (p - start)) with (p - 49152) by lia.
  rewrite Z.mod_small by lia. lia.
Qed.

Lemma allocate_loop_spec n self : wf self ->
  match allocate_loop n self with
  | (Some port, self') => wf self' /\ port ∉ used self /\ used self' = {[port]} ∪ used self /\
      exists i, (i < n)%nat /\ port = ring (next self) i /\ forall j, (j < i)%nat -> ring (next self) j ∈ used self
  | (None, self') => wf self' /\ used self' = used self /\
      forall j, (j < n)%nat -> ring (next self) j ∈ used self
  end.
Proof.
  revert self. induction n as [|n IH]; intros self [Hn Hu]; simpl; [split_and!; [done|done|lia]|].
  case_bool_decide as Hin.
  - set (self1 := mkPortAllocator _ _). specialize (IH self1). destruct (allocate_loop n self1) as [[port|] self'].
    + destruct IH as (Hwf & Hnot & Hused & i & Hi & -> & Hj); [split; [by apply next_in_pool|done]|].
      simpl in *. split_and!; [done..|]. exists (S i). rewrite ring_step in * by done. split_and!; [lia|done|].
      intros [|j] Hlt; [by rewrite ring_0|]. rewrite <- ring_step by done. apply Hj. lia.
    + destruct IH as (Hwf & Hused & Hj); [split; [by apply next_in_pool|done]|]. simpl in *.
      split_and!; [done..|]. intros [|j] Hlt; [by rewrite ring_0|]. rewrite <- ring_step by done. apply Hj. lia.
  - split_and!; [|done|done|].
    + split; simpl; [by apply next_in_pool|]. intros p. rewrite elem_of_union, elem_of_singleton. intros [-> | ?]; auto.
    + exists 0%nat. split_and!; [lia|by rewrite ring_0|lia].
Qed.

Lemma allocate_spec self : wf self ->
  match allocate self with
  | (Some port, self') => wf self' /\ in_pool port /\ port ∉ used self /\ used self' = {[port]} ∪ used self /\
      exists i, port = ring (next self) i /\ forall j, (j < i)%nat -> ring (next self) j ∈ used self
  | (None, self') => wf self' /\ used self' = used self /\ forall p, in_pool p -> p ∈ used self
  end.
Proof.
  intros Hwf. pose proof (allocate_loop_spec (Z.to_nat capacity) self Hwf) as Hs. unfold allocate.
  destruct (allocate_loop _ self) as [[port|] self'].
  - destruct Hs as (Hwf' & Hn & Hu & i & _ & Hp & Hj). split_and!; [done| |done|done|by exists i]. rewrite Hp. apply ring_in_pool.
  - destruct Hs as (Hwf' & Hu & Hj). split_and!; [done..|]. intros p Hp.
    destruct (ring_covers (next self) p) as (i & Hi & <-); [exact (proj1 Hwf)|done|by apply Hj].
Qed.

Lemma release_wf self port : wf self -> wf (release self port).
Proof. intros [Hn Hu]. split; simpl; [done|]. intros p. rewrite elem_of_difference. intros [? _]. auto. Qed.

(** C35. Source ports: starting from an empty pool, an allocation always finds
    a free port of the dynamic range if there is one, the first free one
    around the ring, and fails only when all 16384 are in use; a port is never
    handed out twice before it is released, after which it is free again. *)
Theorem port_allocator_spec self : wf self -> wf new /\
  match allocate self with
  | (Some port, self') => wf self' /\ in_pool port /\ port ∉ used self /\ used self' = {[port]} ∪ used self /\
      (exists i, port = ring (next self) i /\ forall j, (j < i)%nat -> ring (next self) j ∈ used self) /\
      used (release self' port) = used self /\ wf (release self' port)
  | (None, self') => wf self' /\ used self' = used self /\ forall p, in_pool p <-> p ∈ used self
  end.
Proof.
  intros Hwf. split.
  { unfold wf, new, in_pool, PORT_MIN, PORT_MAX. simpl. split; [lia|set_solver]. }
  pose proof (allocate_spec self Hwf) as Ha. destruct (allocate self) as [[port|] self'].
  - destruct Ha as (Hwf' & Hp & Hn & Hu & Hi).
    split_and!; [done..| |by apply release_wf]. simpl. rewrite Hu. set_solver.
  - destruct Ha as (Hwf' & Hu & Hall). split_and!; [done..|]. intros p. split; [apply Hall|exact (proj2 Hwf p)].
Qed.

Lemma port_allocator_spec_witness :
  wf (allocate (mkPortAllocator PORT_MAX {[PORT_MAX]})).2 /\ (allocate (mkPortAllocator PORT_MAX {[PORT_MAX]})).1 = Some PORT_MIN.
Proof.
  split; [|vm_compute; reflexivity].
  assert (wf (mkPortAllocator PORT_MAX {[PORT_MAX]})) as Hwf.
  { unfold wf, in_pool, PORT_MAX, PORT_MIN. simpl. split; [lia|]. intros p. rewrite elem_of_singleton. lia. }
  destruct (port_allocator_spec (mkPortAllocator PORT_MAX {[PORT_MAX]}) Hwf) as [_ Ha].
  destruct (allocate _) as [[]]; apply Ha.
Defined.

End Ports.

Module Pub.
Import Ports.

Definition ACCEPT_QUEUE : Z := 128.

(** A host peer, [SocketAddr]. *)
Abbreviation peer := socket_addr.

Section Published.
Context {T S Cx U : Type} `{TcpStreamOps T} `{TcpSocketOps S Cx} `{SocketAlloc S U} `{IterOrder}.

Record AcceptedConnection : Type := mkAccepted {
  acc_stream : T;
  acc_peer : peer;
  acc_spec : PublishSpec;
}.

Record ConnectionContext : Type := mkConnectionContext {
  stream : T;
  peer_addr : peer;
  host_to_namespace : bytes;
  close_after_drain : bool;
}.

Inductive State : Type :=
| Connecting (stream : T) (peer_addr : peer) (created_at : Z)
| Established (context : ConnectionContext)
| Closing.

Record PublishedTcp : Type := mkPublishedTcp {
  states : gmap SocketHandle State;
  handle_to_port : gmap SocketHandle Z;
  ports : PortAllocator;
  (** the channel from the accept tasks, oldest first *)
  accepted_rx : list AcceptedConnection;
  pending : list AcceptedConnection;
  (** the listeners whose accept tasks run *)
  accept_tasks : list PublishSpec;
}.

Record world : Type := mkWorld {
  self : PublishedTcp;
  sockets : SocketSet S U;
  context : Cx;
}.

(** [PublishedTcp::new]: one accept task per registered listener. *)
Definition PublishedTcp_new (publishes : list PublishSpec) : PublishedTcp :=
  mkPublishedTcp ∅ ∅ Ports.new [] [] publishes.

(** One iteration of an accept task: what [accept] returned, and the channel.
    A full channel suspends the task ([None]); an error is logged. *)
Definition accept_iteration (spec : PublishSpec) (r : result io_error (T * peer))
    (rx : list AcceptedConnection) : option (list AcceptedConnection) :=
  match r with
  | Ok (stream, peer_addr) =>
      if blen rx <? ACCEPT_QUEUE then Some (rx ++ [mkAccepted stream peer_addr spec]) else None
  | Err _ => Some rx
  end.

(** The accept task of a listener runs an iteration; a task that finds the
    channel full waits with its connection and has another turn later. *)
Definition accept_step (p : PublishedTcp) (a : PublishSpec * result io_error (T * peer)) : PublishedTcp :=
  if bool_decide (a.1 ∈ accept_tasks p) then
    match accept_iteration a.1 a.2 (accepted_rx p) with
    | Some rx => mkPublishedTcp (states p) (handle_to_port p) (ports p) rx (pending p) (accept_tasks p)
    | None => p
    end
  else p.

Definition set_state (p : PublishedTcp) (h : SocketHandle) (st : State) : PublishedTcp :=
  mkPublishedTcp (<[h := st]> (states p)) (handle_to_port p) (ports p) (accepted_rx p) (pending p) (accept_tasks p).

Definition take_state (p : PublishedTcp) (h : SocketHandle) : PublishedTcp :=
  mkPublishedTcp (delete h (states p)) (handle_to_port p) (ports p) (accepted_rx p) (pending p) (accept_tasks p).

Definition set_ports (p : PublishedTcp) (a : PortAllocator) : PublishedTcp :=
  mkPublishedTcp (states p) (handle_to_port p) a (accepted_rx p) (pending p) (accept_tasks p).

Definition is_connecting (st : State) : bool := match st with Connecting _ _ _ => true | _ => false end.
Definition is_established (st : State) : bool := match st with Established _ => true | _ => false end.
Definition is_closing (st : State) : bool := match st with Closing => true | _ => false end.

(** ** [poll_ready] *)

Definition connection_ready (w : world) (ready : bool) (handle : SocketHandle) : option bool :=
  match states (self w) !! handle with
  | Some (Established context) =>
      let ready :=
        if negb (close_after_drain context) && (blen (host_to_namespace context) <? TCP_BUF_SIZE)
        then ready || poll_read_ready (stream context) else ready in
      socket ← get_tcp (sockets w) handle;
      Some (if can_recv socket then ready || poll_write_ready (stream context) else ready)
  | _ => Some ready
  end.

Definition poll_ready (w : world) : option (bool * world) :=
  let '(ready, p) :=
    match accepted_rx (self w) with
    | a :: rx => (true, mkPublishedTcp (states (self w)) (handle_to_port (self w)) (ports (self w)) rx
                          (pending (self w) ++ [a]) (accept_tasks (self w)))
    | [] => (false, self w)
    end in
  let w := mkWorld p (sockets w) (context w) in
  ready ← foldO (connection_ready w) ready (iter_order (dom (states (self w))));
  Some (ready, w).

(** ** [attach_accepted] *)

Definition attach_one (now : Z) (w : world) (accepted : AcceptedConnection) : world :=
  match allocate (ports (self w)) with
  | (None, a) => mkWorld (set_ports (self w) a) (sockets w) (context w)
  | (Some local_port, a) =>
      let p := set_ports (self w) a in
      let remote := (TUN_ADDR, namespace_port (acc_spec accepted)) in
      let local := (TUN_GW, local_port) in
      match sock_connect new_tcp_socket (context w) remote local with
      | (Err _, cx) => mkWorld (set_ports p (release (ports p) local_port)) (sockets w) cx
      | (Ok socket, cx) =>
          let '(handle, ss) := socket_add (sockets w) (Tcp socket) in
          let p := set_state p handle (Connecting (acc_stream accepted) (acc_peer accepted) now) in
          mkWorld (mkPublishedTcp (states p) (<[handle := local_port]> (handle_to_port p)) (ports p)
                     (accepted_rx p) (pending p) (accept_tasks p)) ss cx
      end
  end.

Definition attach_accepted (now : Z) (w : world) : world :=
  let p := self w in
  let batch := pending p ++ accepted_rx p in
  let p := mkPublishedTcp (states p) (handle_to_port p) (ports p) [] [] (accept_tasks p) in
  foldl (attach_one now) (mkWorld p (sockets w) (context w)) batch.

(** ** [poll_connecting] *)

Definition poll_connection (now : Z) (w : world) (handle : SocketHandle) : option world :=
  st ← states (self w) !! handle;
  match st with
  | Connecting stream peer_addr created_at =>
      let p := take_state (self w) handle in
      socket ← get_tcp (sockets w) handle;
      if bool_decide (state socket = tcp.Established \/ state socket = tcp.CloseWait) then
        Some (mkWorld (set_state p handle (Established (mkConnectionContext stream peer_addr [] false)))
                      (sockets w) (context w))
      else if bool_decide (state socket = tcp.Closed \/ state socket = tcp.TimeWait) then
        Some (mkWorld (set_state p handle Closing) (sockets w) (context w))
      else if TCP_HANDSHAKE_TIMEOUT <=? elapsed now created_at then
        Some (mkWorld (set_state p handle Closing) (put (sockets w) handle (Tcp (abort socket))) (context w))
      else Some (mkWorld (set_state p handle (Connecting stream peer_addr created_at)) (sockets w) (context w))
  | _ => None
  end.

Definition poll_connecting (now : Z) (w : world) : option world :=
  foldO (poll_connection now) w (handles_where (states (self w)) is_connecting).

(** ** [shuttle_established] *)

(** Host to buffer: the context and whether the read failed. *)
Definition shuttle_read (c : ConnectionContext) : ConnectionContext * bool :=
  if negb (close_after_drain c) && (blen (host_to_namespace c) <? TCP_BUF_SIZE) then
    let space := TCP_BUF_SIZE - blen (host_to_namespace c) in
    let '(r, t) := try_read (stream c) space in
    match r with
    | Ok [] => (mkConnectionContext t (peer_addr c) (host_to_namespace c) true, false)
    | Ok d => (mkConnectionContext t (peer_addr c) (host_to_namespace c ++ d) (close_after_drain c), false)
    | Err WouldBlock => (mkConnectionContext t (peer_addr c) (host_to_namespace c) (close_after_drain c), false)
    | Err _ => (mkConnectionContext t (peer_addr c) (host_to_namespace c) (close_after_drain c), true)
    end
  else (c, false).

(** Buffer to namespace. *)
Definition shuttle_download (c : ConnectionContext) (socket : S) : option (ConnectionContext * S * bool) :=
  '(error, socket, buf) ← relay_send socket (host_to_namespace c);
  Some (mkConnectionContext (stream c) (peer_addr c) buf (close_after_drain c), socket,
        bool_decide (is_Some error)).

(** Namespace to host. *)
Definition shuttle_upload (c : ConnectionContext) (socket : S) : ConnectionContext * S * bool :=
  if can_recv socket then
    let '(error, socket, t) := relay_recv socket (stream c) in
    (mkConnectionContext t (peer_addr c) (host_to_namespace c) (close_after_drain c), socket,
     bool_decide (is_Some error))
  else (c, socket, false).

(** Closing. *)
Definition shuttle_close (c : ConnectionContext) (socket : S) (failed : bool) : ConnectionContext * S * bool :=
  let c := if negb (may_recv socket) && (recv_queue socket =? 0)
           then mkConnectionContext (stream c) (peer_addr c) (host_to_namespace c) true else c in
  let namespace_closed := bool_decide (state socket = tcp.Closed \/ state socket = tcp.TimeWait) in
  let drained_after_eof :=
    close_after_drain c && bool_decide (host_to_namespace c = []) &&
    (send_queue socket =? 0) && (recv_queue socket =? 0) in
  if failed || namespace_closed || drained_after_eof then
    (c, if negb namespace_closed then abort socket else socket, true)
  else (c, socket, false).

Definition shuttle (c : ConnectionContext) (socket : S) : option (ConnectionContext * S * bool) :=
  let '(c, failed1) := shuttle_read c in
  '(c, socket, failed2) ← shuttle_download c socket;
  let '(c, socket, failed3) := shuttle_upload c socket in
  Some (shuttle_close c socket (failed1 || failed2 || failed3)).

Definition shuttle_connection (w : world) (handle : SocketHandle) : option world :=
  st ← states (self w) !! handle;
  match st with
  | Established c =>
      socket ← get_tcp (sockets w) handle;
      '(c, socket, closing) ← shuttle c socket;
      Some (mkWorld (set_state (self w) handle (if closing : bool then Closing else Established c))
                    (put (sockets w) handle (Tcp socket)) (context w))
  | _ => Some w
  end.

Definition shuttle_established (w : world) : option world :=
  foldO shuttle_connection w (handles_where (states (self w)) is_established).

(** ** [process], [cleanup], [Drop] *)

Definition process (now : Z) (w : world) : option world :=
  w ← poll_connecting now w; shuttle_established w.

Definition cleanup_connection (w : world) (handle : SocketHandle) : option world :=
  let p := take_state (self w) handle in
  ss ← socket_remove (sockets w) handle;
  let p := match handle_to_port p !! handle with
           | Some port => mkPublishedTcp (states p) (delete handle (handle_to_port p)) (release (ports p) port)
                            (accepted_rx p) (pending p) (accept_tasks p)
           | None => p
           end in
  Some (mkWorld p ss (context w)).

Definition cleanup (w : world) : option world :=
  foldO cleanup_connection w (handles_where (states (self w)) is_closing).

(** [Drop]: the accept tasks are aborted. *)
Definition drop_published (p : PublishedTcp) : PublishedTcp :=
  mkPublishedTcp (states p) (handle_to_port p) (ports p) (accepted_rx p) (pending p) [].

(** ** Specification *)

(** The ports in use are those of the connections, one each. *)
Record ports_inv (p : PublishedTcp) : Prop := {
  pp_dom : dom (handle_to_port p) = dom (states p);
  pp_wf : Ports.wf (ports p);
  pp_used q : q ∈ used (ports p) <-> exists h, handle_to_port p !! h = Some q;
  pp_inj h h' q : handle_to_port p !! h = Some q -> handle_to_port p !! h' = Some q -> h = h';
}.

(** [origin a t]: the stream [t] as it was accepted from the peer [a]. *)
Variable origin : peer -> T -> Prop.

(** The stream [t0], as it was accepted, is relayed. *)
Definition relayed (t0 : T) (c : ConnectionContext) (s : S) : Prop :=
  sent (stream c) = sent t0 ++ delivered s /\
  incoming t0 = accepted s ++ host_to_namespace c ++ incoming (stream c).

(** The life of a connection: nothing crosses its socket before the namespace
    has answered; then the peer's stream is relayed. *)
Definition lifetime (st : State) (s : S) : Prop :=
  match st with
  | Connecting t a _ => (delivered s = [] /\ accepted s = []) /\ origin a t
  | Established c => exists t0, origin (peer_addr c) t0 /\ relayed t0 c s
  | Closing => True
  end.

Lemma pub_lifetime_history st s s' : delivered s' = delivered s -> accepted s' = accepted s -> lifetime st s -> lifetime st s'.
Proof. unfold lifetime, relayed. by intros -> ->. Qed.

(** The connections waiting come from their peers, and the channel is bounded. *)
Record accepted_inv (p : PublishedTcp) : Prop := {
  ac_origin a : a ∈ pending p ++ accepted_rx p -> origin (acc_peer a) (acc_stream a);
  ac_bound : blen (accepted_rx p) <= ACCEPT_QUEUE;
}.

Record pub_inv (w : world) : Prop := {
  pi_ports : ports_inv (self w);
  pi_sockets h : h ∈ dom (states (self w)) -> is_Some (get_tcp (sockets w) h);
  pi_contexts h c : states (self w) !! h = Some (Established c) -> blen (host_to_namespace c) <= TCP_BUF_SIZE;
  pi_life h st s : states (self w) !! h = Some st -> get_tcp (sockets w) h = Some s -> lifetime st s;
  pi_accepted : accepted_inv (self w);
}.

(** What a step of the component promises to the others. *)
Definition pub_step (w w' : world) : Prop :=
  owned_step (dom (states (self w))) (dom (states (self w'))) (sockets w) (sockets w').

(** ** Lemmas: one connection changes state *)

#[global] Instance pub_step_preorder : PreOrder pub_step.
Proof. split; [intros w; apply owned_step_refl|intros w1 w2 w3; apply owned_step_trans]. Qed.

Lemma pub_set_take_state p h st : set_state (take_state p h) h st = set_state p h st.
Proof. unfold set_state, take_state. simpl. by rewrite insert_delete_eq. Qed.

Lemma pub_transition w h st st' s s' : pub_inv w -> states (self w) !! h = Some st ->
  get_tcp (sockets w) h = Some s ->
  (forall c, st' = Established c -> blen (host_to_namespace c) <= TCP_BUF_SIZE) -> lifetime st' s' ->
  let w' := mkWorld (set_state (self w) h st') (put (sockets w) h (Tcp s')) (context w) in
  pub_inv w' /\ pub_step w w' /\ forall h', h' <> h -> states (self w') !! h' = states (self w) !! h'.
Proof.
  intros [[Hd Hwf Hu Hj] Hs Hc Hlife [Ho Hq]] Hst Hget Hb Hl. simpl.
  assert (dom (<[h := st']> (states (self w))) = dom (states (self w))) as Hdom.
  { apply dom_insert_lookup_L. by eexists. }
  split_and!.
  - split; simpl; [split; simpl; [by rewrite Hd|done|done|done]| | | |by split].
    + intros h' Hh'. rewrite Hdom in Hh'. destruct (decide (h = h')) as [<-|Hne].
      * rewrite get_tcp_put. by eexists.
      * rewrite get_tcp_put_ne by done. by apply Hs.
    + intros h' c. rewrite lookup_insert_Some. intros [[_ E]|[_ E]]; eauto.
    + intros h' st1 s1. rewrite lookup_insert_Some. intros [[<- <-]|[Hne E]].
      * rewrite get_tcp_put. by intros [= <-].
      * rewrite get_tcp_put_ne by done. by apply Hlife.
  - unfold pub_step. simpl. rewrite Hdom. apply owned_step_put. rewrite elem_of_dom. by eexists.
  - intros h' Hne. by rewrite lookup_insert_ne.
Qed.

Lemma pub_transition_state w h st st' s : pub_inv w -> states (self w) !! h = Some st ->
  get_tcp (sockets w) h = Some s ->
  (forall c, st' = Established c -> blen (host_to_namespace c) <= TCP_BUF_SIZE) -> lifetime st' s ->
  let w' := mkWorld (set_state (self w) h st') (sockets w) (context w) in
  pub_inv w' /\ pub_step w w' /\ forall h', h' <> h -> states (self w') !! h' = states (self w) !! h'.
Proof.
  intros Hinv Hst Hs. pose proof (pub_transition w h st st' s s Hinv Hst Hs) as Ht.
  by rewrite (put_same _ _ _ Hs) in Ht.
Qed.

(** ** Lemmas: the operations *)

Lemma pub_poll_connection_ok now w h st : pub_inv w -> states (self w) !! h = Some st -> is_connecting st = true ->
  exists w', poll_connection now w h = Some w' /\ pub_inv w' /\ pub_step w w' /\
    forall h', h' <> h -> states (self w') !! h' = states (self w) !! h'.
Proof.
  intros Hinv Hst Hc. destruct st as [t a created| |]; try done. unfold poll_connection. rewrite Hst.
  cbn [mbind option_bind]. destruct (pi_sockets w Hinv h) as [s Hs]; [rewrite elem_of_dom; by eexists|].
  rewrite Hs. cbn [mbind option_bind]. rewrite !pub_set_take_state.
  pose proof (pi_life w Hinv h _ s Hst Hs) as Hl.
  repeat case_if; (eexists; split; [done|]).
  - eapply pub_transition_state; [done..| |]; [intros c [= <-]; by vm_compute|].
    destruct Hl as [[Hd Ha] Ho]. exists t. split; [done|]. split; simpl; [by rewrite Hd, app_nil_r|by rewrite Ha].
  - eapply pub_transition_state; [done..|by intros|done].
  - eapply pub_transition; [done..|by intros|done].
  - by eapply pub_transition_state.
Qed.

Lemma pub_poll_ready_ok w : pub_inv w ->
  exists ready w', poll_ready w = Some (ready, w') /\ pub_inv w' /\ pub_step w w'.
Proof.
  intros Hinv. unfold poll_ready.
  assert (exists ready p, match accepted_rx (self w) with
    | a :: rx => (true, mkPublishedTcp (states (self w)) (handle_to_port (self w)) (ports (self w)) rx
                          (pending (self w) ++ [a]) (accept_tasks (self w)))
    | [] => (false, self w) end = (ready, p) /\ states p = states (self w) /\
    pub_inv (mkWorld p (sockets w) (context w))) as (ready & p & -> & Hst & Hinv').
  { destruct Hinv as [[Hd Hwf Hu Hj] Hs Hc Hlife [Ho Hq]].
    destruct (accepted_rx (self w)) as [|a rx] eqn:Er; eexists _, _; (split; [done|]); (split; [done|]);
      split; try done; split; simpl; [by rewrite Er in *|by rewrite Er|intros b; rewrite <- app_assoc; apply Ho|].
    rewrite blen_cons in Hq. lia. }
  destruct (foldO_inv (connection_ready (mkWorld p (sockets w) (context w))) (fun _ _ => True)
    (iter_order (dom (states p))) ready) as (ready' & E & _); [|done|].
  - intros h l r _. unfold connection_ready. simpl. destruct (states p !! h) as [[]|] eqn:Hh; try by eauto.
    destruct (pi_sockets _ Hinv' h) as [sk Hsk]; [simpl; rewrite elem_of_dom; by eexists|].
    simpl in Hsk. rewrite Hsk. simpl. by eauto.
  - cbn [self]. rewrite E. cbn [mbind option_bind]. eexists _, _. split_and!; [done..|].
    unfold pub_step. simpl. rewrite Hst. apply owned_step_refl.
Qed.

(** ** Lemmas: the shuttle *)

Record conserved (c : ConnectionContext) (s : S) (c' : ConnectionContext) (s' : S) : Prop := {
  cons_up : exists d, delivered s' = delivered s ++ d /\ sent (stream c') = sent (stream c) ++ d;
  cons_down : accepted s' ++ host_to_namespace c' ++ incoming (stream c')
    = accepted s ++ host_to_namespace c ++ incoming (stream c);
  cons_peer : peer_addr c' = peer_addr c;
}.

Lemma pub_conserved_refl c s : conserved c s c s.
Proof. split; [|done|done]. exists []. by rewrite !app_nil_r. Qed.

Lemma pub_conserved_trans c1 s1 c2 s2 c3 s3 :
  conserved c1 s1 c2 s2 -> conserved c2 s2 c3 s3 -> conserved c1 s1 c3 s3.
Proof.
  intros [(d & U1 & V1) D1 P1] [(d' & U2 & V2) D2 P2]. split; [|congruence|congruence].
  exists (d ++ d'). rewrite U2, U1, V2, V1, !app_assoc. done.
Qed.

Context `{!TcpStreamLaws T} `{!TcpSocketLaws S Cx}.

Definition bounded (c : ConnectionContext) : Prop := blen (host_to_namespace c) <= TCP_BUF_SIZE.

Lemma pub_read_ok c s c' failed : bounded c -> shuttle_read c = (c', failed) -> bounded c' /\ conserved c s c' s.
Proof.
  intros Hb. unfold shuttle_read. case_if.
  2: { intros [= <- <-]. split; [done|apply pub_conserved_refl]. }
  bool_prop. destruct (try_read (stream c) _) as [r t] eqn:E.
  assert (forall p b, sent t = sent (stream c) -> p ++ incoming t = host_to_namespace c ++ incoming (stream c) ->
    conserved c s (mkConnectionContext t (peer_addr c) p b) s) as Hcons.
  { intros p b Hs Hp. split; simpl; [exists []; by rewrite !app_nil_r, Hs|by rewrite Hp|done]. }
  destruct r as [d|e].
  - apply try_read_ok in E as (Hi & Hl & _ & Hs & _); [|lia]. destruct d as [|b d]; intros [= <- <-].
    + split; [done|]. apply Hcons; [done|by rewrite Hi].
    + split; [|apply Hcons; [done|by rewrite Hi, <- app_assoc]]. unfold bounded in *. simpl. rewrite blen_app. lia.
  - apply try_read_err in E as [Hi He Hs].
    destruct e; intros [= <- <-]; (split; [done|apply Hcons; [done|by rewrite Hi]]).
Qed.

Lemma pub_download_ok c s : bounded c -> exists c' s' failed, shuttle_download c s = Some (c', s', failed) /\
  bounded c' /\ conserved c s c' s'.
Proof.
  intros Hb. unfold shuttle_download.
  destruct (relay_send_spec s (host_to_namespace c)) as (e & s1 & buf & -> & Ha & Hd & Hl & _). cbn [mbind option_bind].
  eexists _, _, _. split; [done|]. unfold bounded in *. split; [simpl; lia|].
  split; simpl; [exists []; by rewrite !app_nil_r| |done]. by rewrite !app_assoc, Ha.
Qed.

Lemma pub_upload_ok c s c' s' failed : bounded c -> shuttle_upload c s = (c', s', failed) ->
  bounded c' /\ conserved c s c' s'.
Proof.
  intros Hb. unfold shuttle_upload. case_if.
  2: { intros [= <- <- <-]. split; [done|apply pub_conserved_refl]. }
  destruct (relay_recv s (stream c)) as [[e s1] t1] eqn:E. intros [= <- <- <-].
  apply relay_recv_spec in E as (d & Hd & Hs & Ha & Hi & _). split; [done|].
  split; simpl; [by exists d| |done]. by rewrite Ha, Hi.
Qed.

Lemma pub_close_ok c s failed c' s' closing : bounded c -> shuttle_close c s failed = (c', s', closing) ->
  bounded c' /\ conserved c s c' s'.
Proof.
  intros Hb. unfold shuttle_close. set (c1 := if negb (may_recv s) && _ : bool then _ else c).
  assert (bounded c1 /\ conserved c s c1 s) as [Hb1 Hc1]
    by (unfold c1; case_if; [|by eauto using pub_conserved_refl]; split; [done|]; split; [apply (pub_conserved_refl c s)|done|done]).
  case_if; intros [= <- <- <-]; [|done]. split; [done|]. case_if; [|done].
  destruct (abort_history s) as [A1 A2]. destruct Hc1 as [Up Down Peer]. split; by rewrite ?A1, ?A2.
Qed.

(** Relaying a published connection keeps both byte streams intact, even when a
    round ends the connection. *)
Lemma published_integrity c s : bounded c -> exists c' s' closing, shuttle c s = Some (c', s', closing) /\
  bounded c' /\ conserved c s c' s'.
Proof.
  intros Hb. unfold shuttle. destruct (shuttle_read c) as [c1 f1] eqn:E1.
  apply (pub_read_ok _ s) in E1 as [Hb1 C1]; [|done].
  destruct (pub_download_ok c1 s Hb1) as (c2 & s2 & f2 & -> & Hb2 & C2). cbn [mbind option_bind].
  destruct (shuttle_upload c2 s2) as [[c3 s3] f3] eqn:E3. apply pub_upload_ok in E3 as [Hb3 C3]; [|done].
  destruct (shuttle_close c3 s3 _) as [[c4 s4] closing] eqn:E4. apply pub_close_ok in E4 as [Hb4 C4]; [|done].
  exists c4, s4, closing. split_and!; [done..|]. eauto using pub_conserved_trans.
Qed.

Lemma pub_relayed_step t0 c s c' s' : relayed t0 c s -> conserved c s c' s' -> relayed t0 c' s'.
Proof.
  intros [Hu Hd] [(d & U1 & V1) D1 _]. split; [|by rewrite D1]. by rewrite V1, Hu, U1, app_assoc.
Qed.

Lemma pub_shuttle_connection_ok w h st : pub_inv w -> states (self w) !! h = Some st -> is_established st = true ->
  exists w', shuttle_connection w h = Some w' /\ pub_inv w' /\ pub_step w w' /\
    forall h', h' <> h -> states (self w') !! h' = states (self w) !! h'.
Proof.
  intros Hinv Hst Hc. destruct st as [|c|]; try done. unfold shuttle_connection. rewrite Hst.
  cbn [mbind option_bind]. destruct (pi_sockets w Hinv h) as [s Hs]; [rewrite elem_of_dom; by eexists|].
  rewrite Hs. cbn [mbind option_bind].
  destruct (published_integrity c s) as (c' & s' & closing & -> & Hb & Hcons); [by eapply pi_contexts|].
  destruct (pi_life w Hinv h _ s Hst Hs) as (t0 & Ho & Hrel).
  cbn [mbind option_bind]. eexists. split; [done|]. eapply pub_transition; [done..| |].
  - intros c0. destruct closing; [done|]. by intros [= <-].
  - destruct closing; [done|]. exists t0. rewrite (cons_peer _ _ _ _ Hcons). eauto using pub_relayed_step.
Qed.

Lemma pub_process_ok now w : pub_inv w -> exists w', process now w = Some w' /\ pub_inv w' /\ pub_step w w'.
Proof.
  intros Hinv. unfold process, poll_connecting.
  destruct (connections_loop (fun w => states (self w)) pub_inv pub_step id (poll_connection now) is_connecting w
    (handles_where (states (self w)) is_connecting)) as (w1 & E1 & Hi1 & Hs1);
    [|done|apply handles_where_nodup|intros h; by rewrite handles_where_spec|].
  { intros. by eapply pub_poll_connection_ok. }
  unfold id in *. rewrite E1. cbn [mbind option_bind].
  destruct (connections_loop (fun w => states (self w)) pub_inv pub_step id shuttle_connection is_established w1
    (handles_where (states (self w1)) is_established)) as (w2 & E2 & Hi2 & Hs2);
    [|done|apply handles_where_nodup|intros h; by rewrite handles_where_spec|].
  { intros. by eapply pub_shuttle_connection_ok. }
  exists w2. split_and!; [done..|by etrans].
Qed.

(** ** Lemmas: creation and removal *)

Lemma pub_states_dom_sockets w : pub_inv w -> dom (states (self w)) ⊆ dom (sockets w).
Proof.
  intros Hinv h Hh. destruct (pi_sockets w Hinv h Hh) as [s Hs%get_tcp_Some]. rewrite elem_of_dom. by eexists.
Qed.

(** Changing the allocator without changing the ports in use. *)
Lemma same_used w a cx : pub_inv w -> Ports.wf a -> used a = used (ports (self w)) ->
  pub_inv (mkWorld (set_ports (self w) a) (sockets w) cx) /\
  pub_step w (mkWorld (set_ports (self w) a) (sockets w) cx).
Proof.
  intros [[Hd Hwf Hu Hj] Hs Hc Hlife [Ho Hq]] Ha Hused. split; [|apply owned_step_refl].
  split; [|done|done|done|by split]. split; simpl; [done|done| |done]. intros q. by rewrite Hused.
Qed.

Lemma ports_insert p h port st a : ports_inv p -> states p !! h = None -> Ports.wf a -> port ∉ used (ports p) ->
  used a = {[port]} ∪ used (ports p) ->
  ports_inv (mkPublishedTcp (<[h := st]> (states p)) (<[h := port]> (handle_to_port p)) a
    (accepted_rx p) (pending p) (accept_tasks p)).
Proof.
  intros [Hd Hwf Hu Hj] Hh Ha Hp Hused.
  assert (handle_to_port p !! h = None) as Hnone by (rewrite <- not_elem_of_dom, Hd, not_elem_of_dom; done).
  split; simpl; [rewrite !dom_insert_L; by rewrite Hd|done| |].
  - intros q. rewrite Hused, elem_of_union, elem_of_singleton, Hu. split.
    + intros [-> | [h' Hh']]; [exists h; by rewrite lookup_insert_eq|].
      exists h'. rewrite lookup_insert_ne; [done|]. by intros <-; rewrite Hnone in Hh'.
    + intros [h' [[_ <-]|[_ ?]]%lookup_insert_Some]; [by left|right; by eexists].
  - intros h1 h2 q. rewrite !lookup_insert_Some. intros [[-> <-]|[Hn1 G1]] [[-> E2]|[Hn2 G2]]; [done| | |by eauto].
    + destruct Hp. apply Hu. by eexists.
    + subst q. destruct Hp. apply Hu. by eexists.
Qed.

Lemma attach_one_ok now w accepted : pub_inv w -> origin (acc_peer accepted) (acc_stream accepted) ->
  pub_inv (attach_one now w accepted) /\ pub_step w (attach_one now w accepted).
Proof.
  intros Hinv Hor. unfold attach_one.
  pose proof (allocate_spec (ports (self w)) (pp_wf _ (pi_ports _ Hinv))) as Ha.
  destruct (allocate (ports (self w))) as [[port|] a].
  2: { destruct Ha as (Hwf & Hused & _). by apply same_used. }
  destruct Ha as (Hwf & Hpool & Hnew & Hused & _).
  destruct (sock_connect _ _ _ _) as [[socket|e] cx] eqn:Econ.
  2: { apply same_used; [done|by apply release_wf|]. simpl. rewrite Hused. set_solver. }
  unfold socket_add. set (h := alloc_handle (sockets w)).
  pose proof (alloc_handle_fresh (sockets w)) as Hf. fold h in Hf.
  assert (states (self w) !! h = None) as Hh.
  { apply not_elem_of_dom. intros Hin%pub_states_dom_sockets; [|done]. apply elem_of_dom in Hin as [? ?]. congruence. }
  destruct Hinv as [Hp Hs Hc Hlife [Ho Hq]]. split.
  - split; simpl; [| | | |by split].
    + by apply (ports_insert (self w) h port).
    + intros h' Hh'. rewrite dom_insert_L in Hh'. unfold get_tcp. destruct (decide (h = h')) as [<-|Hne].
      * rewrite lookup_insert_eq. by eexists.
      * rewrite lookup_insert_ne by done. apply Hs. set_solver.
    + intros h' c. rewrite lookup_insert_Some. intros [[_ [=]]|[_ E]]. by eapply Hc.
    + intros h' st1 s1. rewrite lookup_insert_Some. intros [[<- <-]|[Hne E]]; unfold get_tcp.
      * rewrite lookup_insert_eq. intros [= <-]. split; [|done].
        destruct (sock_connect_history _ _ _ _ _ _ Econ) as [-> ->]. apply new_tcp_socket_history.
      * rewrite lookup_insert_ne by done. by apply Hlife.
  - unfold pub_step. simpl. rewrite dom_insert_L. split; [|set_solver|set_solver].
    intros h' _ Hn. rewrite lookup_insert_ne; [done|]. set_solver.
Qed.

Lemma attach_accepted_ok now w : pub_inv w ->
  pub_inv (attach_accepted now w) /\ pub_step w (attach_accepted now w).
Proof.
  intros Hinv. unfold attach_accepted. set (w0 := mkWorld _ (sockets w) (context w)).
  assert (pub_inv w0 /\ pub_step w w0) as [Hi Hs].
  { destruct Hinv as [[Hd Hwf Hu Hj] Hs Hc Hl Ha]. split; [|apply owned_step_refl].
    split; try done. split; simpl; [set_solver|by vm_compute]. }
  pose proof (ac_origin _ (pi_accepted _ Hinv)) as Ho.
  clearbody w0. revert w0 Hi Hs. induction (pending (self w) ++ accepted_rx (self w)) as [|a l IH]; intros w0 Hi Hs; [done|].
  simpl. destruct (attach_one_ok now w0 a Hi) as [Hi' Hs']; [apply Ho; left|].
  apply IH; [intros b Hb; apply Ho; by right|done|by etrans].
Qed.

Lemma accept_step_ok w a : pub_inv w -> (forall t peer, a.2 = Ok (t, peer) -> origin peer t) ->
  let w' := mkWorld (accept_step (self w) a) (sockets w) (context w) in pub_inv w' /\ pub_step w w'.
Proof.
  intros Hinv Hor. simpl. unfold accept_step.
  case_bool_decide; [|destruct w; split; [done|reflexivity]].
  destruct Hinv as [Hp Hs Hc Hl [Ho Hq]]. unfold accept_iteration.
  assert (pub_inv (mkWorld (self w) (sockets w) (context w)) /\
          pub_step w (mkWorld (self w) (sockets w) (context w))) as Hsame
    by (split; [split; try done; by split | apply owned_step_refl]).
  assert (forall rx, accepted_inv (mkPublishedTcp (states (self w)) (handle_to_port (self w)) (ports (self w)) rx
            (pending (self w)) (accept_tasks (self w))) ->
    let w' := mkWorld (mkPublishedTcp (states (self w)) (handle_to_port (self w)) (ports (self w)) rx
            (pending (self w)) (accept_tasks (self w))) (sockets w) (context w) in pub_inv w' /\ pub_step w w') as Hrx.
  { intros rx Ha. destruct Hp as [Hd Hwf Hu Hj]. split; [split; try done; by split|].
    apply owned_step_refl. }
  destruct a as [spec [[t peer]|e]]; simpl in *.
  - destruct (blen (accepted_rx (self w)) <? ACCEPT_QUEUE) eqn:E; bool_prop; [|done].
    apply Hrx. split; simpl.
    + intros a Ha. rewrite !elem_of_app in Ha. rewrite list_elem_of_singleton in Ha.
      destruct Ha as [Ha|[Ha| ->]]; [apply Ho; set_solver..|]. by apply Hor.
    + rewrite blen_app, blen_cons, blen_nil. lia.
  - by apply Hrx.
Qed.

Lemma ports_delete p h port : ports_inv p -> handle_to_port p !! h = Some port ->
  ports_inv (mkPublishedTcp (delete h (states p)) (delete h (handle_to_port p)) (release (ports p) port)
    (accepted_rx p) (pending p) (accept_tasks p)).
Proof.
  intros [Hd Hwf Hu Hj] Hh. split; simpl; [rewrite !dom_delete_L; by rewrite Hd|by apply release_wf| |].
  - intros q. rewrite elem_of_difference, elem_of_singleton, Hu. split.
    + intros [[h' Hh'] Hne]. exists h'. rewrite lookup_delete_ne; [done|]. intros <-. congruence.
    + intros [h' [Hn Hh']%lookup_delete_Some]. split; [by eexists|]. intros ->. by destruct Hn; eapply Hj.
  - intros h1 h2 q [_ G1]%lookup_delete_Some [_ G2]%lookup_delete_Some. eauto.
Qed.

Lemma pub_cleanup_connection_ok w h st : pub_inv w -> states (self w) !! h = Some st -> is_closing st = true ->
  exists w', cleanup_connection w h = Some w' /\ pub_inv w' /\ pub_step w w' /\
    states (self w') = delete h (states (self w)).
Proof.
  intros Hinv Hst Hcl. destruct st; try done. pose proof Hinv as [Hp Hsk Hc Hlife [Hor Hbd]].
  assert (h ∈ dom (states (self w))) as Hdom by (rewrite elem_of_dom; by eexists).
  unfold cleanup_connection. assert (exists q, handle_to_port (self w) !! h = Some q) as [q Hq].
  { rewrite <- (pp_dom _ Hp), elem_of_dom in Hdom. exact Hdom. }
  destruct (Hsk h Hdom) as [sk Hs%get_tcp_Some]. unfold socket_remove. rewrite Hs.
  cbn [mbind option_bind take_state handle_to_port]. rewrite Hq. eexists. split; [done|]. simpl. split_and!; [| |done].
  - split; simpl; [| | | |by split].
    + by apply ports_delete.
    + intros h' Hh'. rewrite dom_delete_L in Hh'. unfold get_tcp.
      rewrite lookup_delete_ne by set_solver. apply Hsk. set_solver.
    + intros h' c [_ E]%lookup_delete_Some. by eapply Hc.
    + intros h' st1 s1 [Hne E]%lookup_delete_Some. unfold get_tcp. rewrite lookup_delete_ne by done. by apply Hlife.
  - unfold pub_step. simpl. rewrite dom_delete_L. split; [|set_solver|].
    + intros h' Hn _. rewrite lookup_delete_ne; [done|]. set_solver.
    + intros h' Hn Hn'. destruct (decide (h' = h)) as [->|]; [apply lookup_delete_eq|set_solver].
Qed.

Lemma pub_cleanup_ok w : pub_inv w -> exists w', cleanup w = Some w' /\ pub_inv w' /\ pub_step w w' /\
  forall h st, states (self w') !! h = Some st <-> states (self w) !! h = Some st /\ st <> Closing.
Proof.
  intros Hinv. destruct (removal_loop (fun w => states (self w)) pub_inv pub_step cleanup_connection is_closing w)
    as (w' & E & Hi & Hs & Hst); [by apply pub_cleanup_connection_ok|done|].
  exists w'. split_and!; [done..|]. intros h st. rewrite Hst. destruct st; naive_solver.
Qed.

Lemma pub_inv_new publishes (ss : SocketSet S U) (cx : Cx) : pub_inv (mkWorld (PublishedTcp_new publishes) ss cx).
Proof.
  split; simpl; [|set_solver|by intros ? ? []%lookup_empty_Some|by intros ? ? ? []%lookup_empty_Some|].
  2: { split; simpl; [set_solver|by vm_compute]. }
  split; simpl; [set_solver| | |by intros ? ? ? []%lookup_empty_Some].
  - unfold Ports.wf, Ports.new, in_pool, PORT_MIN, PORT_MAX. simpl. split; [lia|set_solver].
  - intros q. split; [set_solver|]. by intros [? []%lookup_empty_Some].
Qed.

End Published.

(** ** Witnesses *)

Definition demo_socket : sim_tcp := mkSimTcp tcp.Established None (str "hello") [] [] [] TCP_BUF_SIZE.

Definition demo_context : @ConnectionContext sim :=
  mkConnectionContext (mkSim (str "PING") EStall []) (SockV4 0 1) [] false.

Definition demo_world : @world sim sim_tcp unit sim_udp :=
  mkWorld (mkPublishedTcp {[4%nat := Established demo_context]} {[4%nat := 50000]} (mkPortAllocator 50001 {[50000]})
             [mkAccepted (mkSim [] EStall []) (SockV4 0 2) (mkSpec 0 80 8080)] [] [])
          {[4%nat := Tcp demo_socket]} tt.

(** Any stream from any peer. *)
Definition any_origin (_ : peer) (_ : sim) : Prop := True.

Lemma demo_pub_inv : pub_inv any_origin demo_world.
Proof.
  split; simpl.
  - split; simpl; [by rewrite !dom_singleton_L| | |].
    + unfold Ports.wf, in_pool, PORT_MIN, PORT_MAX. simpl. split; [lia|]. intros p. rewrite elem_of_singleton. lia.
    + intros q. rewrite elem_of_singleton. split; [intros ->; exists 4%nat; apply lookup_singleton_eq|].
      by intros [h [_ <-]%lookup_singleton_Some].
    + by intros h h' q [<- _]%lookup_singleton_Some [<- _]%lookup_singleton_Some.
  - intros h. rewrite dom_singleton_L, elem_of_singleton. intros ->. by exists demo_socket.
  - intros h c [_ [= <-]]%lookup_singleton_Some. by vm_compute.
  - intros h st s [<- <-]%lookup_singleton_Some. unfold get_tcp. rewrite lookup_singleton_eq. intros [= <-].
    by exists (stream demo_context).
  - split; simpl; [done|by vm_compute].
Qed.

End Pub.
