(* ===== verification/PublishedSteps.v ===== *)
(** * What the operations of published ports make of a connection
      (src/src/event_loop/published.rs)

    As for the outbound connections: each operation of the component seen from
    one handle. *)

From S2P Require Import Prelude RustStr RustNet FakeDns ProxyConfig Publish Config Stream Connect.
From S2P Require Import Tun Smoltcp Relay Published.

(** ** The published component, seen from one handle *)

Section PubEntry.
Context {T S Cx U : Type} `{TcpStreamOps T} `{TcpSocketOps S Cx} `{SocketAlloc S U} `{IterOrder}.
Implicit Types w : @Pub.world T S Cx U.

Definition pub_connection : Type := option (@Pub.State T) * option (socket S U).

Definition pub_entry w (h : nat) : pub_connection := (Pub.states (Pub.self w) !! h, Pub.sockets w !! h).

(** Each loop body touches its own handle only. *)
Lemma pub_poll_connection_local now w x w' h : x <> h ->
  Pub.poll_connection now w x = Some w' -> pub_entry w' h = pub_entry w h.
Proof.
  intros Hne. unfold Pub.poll_connection, pub_entry. destruct (Pub.states (Pub.self w) !! x) as [[]|]; simpl; try done.
  destruct (get_tcp _ x) as [s|]; simpl; [|done].
  repeat case_match; intros [= <-]; unfold put; simpl; by rewrite ?lookup_insert_ne, ?lookup_delete_ne by done.
Qed.

Lemma pub_shuttle_connection_local w x w' h : x <> h ->
  Pub.shuttle_connection w x = Some w' -> pub_entry w' h = pub_entry w h.
Proof.
  intros Hne. unfold Pub.shuttle_connection, pub_entry. destruct (Pub.states (Pub.self w) !! x) as [[]|]; simpl; try by intros [= <-].
  destruct (get_tcp _ x) as [s|]; simpl; [|done]. destruct (Pub.shuttle _ s) as [[[c' s'] closing]|]; simpl; [|done].
  intros [= <-]. unfold put. simpl. by rewrite !lookup_insert_ne by done.
Qed.

Lemma pub_cleanup_connection_local w x w' h : x <> h ->
  Pub.cleanup_connection w x = Some w' -> pub_entry w' h = pub_entry w h.
Proof.
  intros Hne. unfold Pub.cleanup_connection, socket_remove, pub_entry. destruct (Pub.sockets w !! x); simpl; [|done].
  intros [= <-]. case_match; simpl; by rewrite !lookup_delete_ne by done.
Qed.

(** *** The moves of a connection *)

(** What was accepted becomes a connection into the namespace, from a source port
    of its own, on a handle that was free. *)
Definition attached (now : Z) (batch : list Pub.AcceptedConnection) w w' (h : nat) : Prop :=
  pub_entry w' h = pub_entry w h \/
  pub_entry w h = (None, None) /\ exists a port s cx cx', a ∈ batch /\
    Pub.handle_to_port (Pub.self w') !! h = Some port /\ Ports.in_pool port /\
    sock_connect new_tcp_socket cx (TUN_ADDR, namespace_port (Pub.acc_spec a)) (TUN_GW, port) = (Ok s, cx') /\
    pub_entry w' h = (Some (Pub.Connecting (Pub.acc_stream a) (Pub.acc_peer a) now), Some (Tcp s)).

(** The namespace has answered, or refused, or its time is up. *)
Definition answered (now : Z) (before : pub_connection) : pub_connection :=
  match before with
  | (Some (Pub.Connecting t a created), Some (Tcp s)) =>
      if bool_decide (state s = tcp.Established \/ state s = tcp.CloseWait) then
        (Some (Pub.Established (Pub.mkConnectionContext t a [] false)), Some (Tcp s))
      else if bool_decide (state s = tcp.Closed \/ state s = tcp.TimeWait) then (Some Pub.Closing, Some (Tcp s))
      else if TCP_HANDSHAKE_TIMEOUT <=? elapsed now created then (Some Pub.Closing, Some (Tcp (abort s)))
      else before
  | _ => before
  end.

(** An established connection is relayed for one round. *)
Definition shuttled (before after : pub_connection) : Prop :=
  match before with
  | (Some (Pub.Established c), Some (Tcp s)) => exists c' s' (closing : bool),
      Pub.shuttle c s = Some (c', s', closing) /\
      after = (Some (if closing then Pub.Closing else Pub.Established c'), Some (Tcp s'))
  | _ => after = before
  end.

Definition pub_cleaned (before : pub_connection) : pub_connection :=
  match before with (Some Pub.Closing, _) => (None, None) | _ => before end.

Lemma pub_entry_socket origin w h st : Pub.pub_inv origin w -> (pub_entry w h).1 = Some st ->
  exists s, pub_entry w h = (Some st, Some (Tcp s)).
Proof.
  intros Hinv Hst. destruct (Pub.pi_sockets _ _ Hinv h) as [s Hs%get_tcp_Some]; [apply elem_of_dom; by eexists|].
  exists s. unfold pub_entry in *. simpl in Hst. by rewrite Hst, Hs.
Qed.

Lemma pub_cleanup_entry w w' h : Pub.cleanup w = Some w' -> pub_entry w' h = pub_cleaned (pub_entry w h).
Proof.
  intros E. eapply (foldO_local (fun w => pub_entry w h) _ h) in E as [E1 E2];
    [|intros s x s' Hx; by apply pub_cleanup_connection_local|apply handles_where_nodup].
  rewrite handles_where_spec in E1, E2. unfold pub_cleaned. unfold pub_entry at 2.
  destruct (Pub.states (Pub.self w) !! h) as [st|] eqn:Hst; [|rewrite E1 by naive_solver; unfold pub_entry; by rewrite Hst].
  destruct st; try (rewrite E1 by naive_solver; unfold pub_entry; by rewrite Hst).
  destruct E2 as (w1 & w2 & _ & E & ->); [by eexists|].
  revert E. unfold Pub.cleanup_connection, socket_remove, pub_entry.
  destruct (Pub.sockets w1 !! h); simpl; [|done]. intros [= <-]. case_match; simpl; by rewrite !lookup_delete_eq.
Qed.

Lemma pub_poll_connecting_entry origin now w w' h : Pub.pub_inv origin w -> Pub.poll_connecting now w = Some w' ->
  pub_entry w' h = answered now (pub_entry w h).
Proof.
  intros Hinv E. eapply (foldO_local (fun w => pub_entry w h) _ h) in E as [E1 E2];
    [|intros s x s' Hx; by apply pub_poll_connection_local|apply handles_where_nodup].
  rewrite handles_where_spec in E1, E2. unfold answered.
  destruct (Pub.states (Pub.self w) !! h) as [st|] eqn:Hst.
  2: { rewrite E1 by naive_solver. unfold pub_entry. by rewrite Hst. }
  destruct (pub_entry_socket origin w h st Hinv Hst) as [s He]. rewrite He.
  destruct st as [t a created|c|]; try (rewrite E1 by naive_solver; by rewrite He).
  destruct E2 as (w1 & w2 & Hw1 & E & ->); [by eexists|]. rewrite He in Hw1. injection Hw1 as Hs1 Hk1.
  revert E. unfold Pub.poll_connection, get_tcp. rewrite Hs1, Hk1. cbn [mbind option_bind].
  repeat case_match; intros [= <-]; unfold pub_entry, put; simpl; by rewrite ?lookup_insert_eq, ?Hk1.
Qed.

Lemma pub_shuttle_established_entry w w' h : Pub.shuttle_established w = Some w' ->
  shuttled (pub_entry w h) (pub_entry w' h).
Proof.
  intros E. eapply (foldO_local (fun w => pub_entry w h) _ h) in E as [E1 E2];
    [|intros s x s' Hx; by apply pub_shuttle_connection_local|apply handles_where_nodup].
  rewrite handles_where_spec in E1, E2. unfold shuttled. unfold pub_entry at 1.
  destruct (Pub.states (Pub.self w) !! h) as [st|] eqn:Hst; [|rewrite E1 by naive_solver; unfold pub_entry; by rewrite Hst].
  destruct st as [t a created|c|]; try (rewrite E1 by naive_solver; unfold pub_entry; by rewrite Hst).
  destruct E2 as (w1 & w2 & Hw1 & E & ->); [by eexists|]. injection Hw1 as Hs1 Hk1. rewrite Hst in Hs1.
  revert E. unfold Pub.shuttle_connection, get_tcp. rewrite Hs1, Hk1. cbn [mbind option_bind].
  destruct (Pub.sockets w !! h) as [[s|u]|]; cbn [mbind option_bind]; [|done|done].
  destruct (Pub.shuttle c s) as [[[c' s'] closing]|]; cbn [mbind option_bind]; [|done]. intros [= <-].
  exists c', s', closing. split; [done|]. unfold pub_entry, put. simpl. by rewrite !lookup_insert_eq.
Qed.

Lemma pub_process_moves `{!TcpStreamLaws T} `{!TcpSocketLaws S Cx} origin now w w' h : Pub.pub_inv origin w ->
  Pub.process now w = Some w' -> shuttled (answered now (pub_entry w h)) (pub_entry w' h).
Proof.
  intros Hinv. unfold Pub.process. destruct (Pub.poll_connecting now w) as [w1|] eqn:E1; [|done]. cbn [mbind option_bind].
  intros E. rewrite <- (pub_poll_connecting_entry origin now w w1 h Hinv E1). by apply pub_shuttle_established_entry.
Qed.

(** What is attached stays as it is while more is attached. *)
Definition undisturbed w w' (h : nat) : Prop := is_Some (Pub.sockets w !! h) ->
  pub_entry w' h = pub_entry w h /\ Pub.handle_to_port (Pub.self w') !! h = Pub.handle_to_port (Pub.self w) !! h.

Lemma attach_one_moves `{!TcpStreamLaws T} `{!TcpSocketLaws S Cx} origin now w a h : Pub.pub_inv origin w ->
  origin (Pub.acc_peer a) (Pub.acc_stream a) ->
  attached now [a] w (Pub.attach_one now w a) h /\ undisturbed w (Pub.attach_one now w a) h.
Proof.
  intros Hinv Ha. destruct (Pub.attach_one_ok origin now w a Hinv Ha) as [[[_ [_ Hwf] Hu _] _ _ _ _] _].
  assert (forall q, Pub.handle_to_port (Pub.self (Pub.attach_one now w a)) !! h = Some q -> Ports.in_pool q) as Hpool
    by (intros q Hq; apply Hwf, Hu; by eexists).
  clear Hwf Hu. revert Hpool. unfold Pub.attach_one, attached, undisturbed.
  destruct (Ports.allocate _) as [[port|] al]; [|intros _; split; [left; reflexivity|intros _; split; reflexivity]].
  destruct (sock_connect _ _ _ _) as [[s|e] cx] eqn:Ec; [|intros _; split; [left; reflexivity|intros _; split; reflexivity]].
  unfold socket_add, pub_entry. simpl. pose proof (alloc_handle_fresh (Pub.sockets w)) as Hf.
  destruct (decide (alloc_handle (Pub.sockets w) = h)) as [<-|Hne].
  - rewrite !lookup_insert_eq, Hf. intros Hpool. split; [|by intros []].
    right. split.
    + f_equal. apply not_elem_of_dom. intros Hin%(Pub.pub_states_dom_sockets origin); [|done].
      apply elem_of_dom in Hin as [? ?]. congruence.
    + exists a, port, s, (Pub.context w), cx. split_and!; [left|done|by apply Hpool|done|done].
  - rewrite !lookup_insert_ne by done. intros _. split; [by left|done].
Qed.

Lemma attached_trans now a batch w w1 w2 h : attached now [a] w w1 h /\ undisturbed w w1 h ->
  attached now batch w1 w2 h /\ undisturbed w1 w2 h -> attached now (a :: batch) w w2 h /\ undisturbed w w2 h.
Proof.
  intros [M1 K1] [M2 K2]. split.
  - destruct M1 as [E1|(E1 & a' & port & s & cx & cx' & ->%list_elem_of_singleton & Hp & Hpool & Hc & E2)].
    + destruct M2 as [E2|(E2 & a' & port & s & cx & cx' & Hin & G)]; [left; by rewrite E2|].
      right. rewrite <- E1. split; [done|]. exists a', port, s, cx, cx'. split; [by right|done].
    + right. split; [done|]. injection E2 as Hst Hs. destruct K2 as [K2 K3]; [by rewrite Hs|].
      exists a, port, s, cx, cx'. rewrite K2, K3. split_and!; [left|done|done|done|]. unfold pub_entry. by rewrite Hst, Hs.
  - intros Hs. destruct (K1 Hs) as [K3 K4]. destruct K2 as [K2 K5]; [by injection K3 as _ ->|]. by rewrite K2, K5.
Qed.

Lemma attach_batch_moves `{!TcpStreamLaws T} `{!TcpSocketLaws S Cx} origin now batch w h : Pub.pub_inv origin w ->
  Forall (fun a => origin (Pub.acc_peer a) (Pub.acc_stream a)) batch ->
  attached now batch w (foldl (Pub.attach_one now) w batch) h /\ undisturbed w (foldl (Pub.attach_one now) w batch) h.
Proof.
  intros Hinv Hb. revert w Hinv. induction Hb as [|a batch Ha _ IH]; intros w Hinv; cbn [foldl]; [by split; [left|]|].
  eapply attached_trans; [by eapply attach_one_moves|]. apply IH. by apply (Pub.attach_one_ok origin).
Qed.

Lemma attach_accepted_moves `{!TcpStreamLaws T} `{!TcpSocketLaws S Cx} origin now w h : Pub.pub_inv origin w ->
  attached now (Pub.pending (Pub.self w) ++ Pub.accepted_rx (Pub.self w)) w (Pub.attach_accepted now w) h.
Proof.
  intros Hinv. unfold Pub.attach_accepted. set (w0 := Pub.mkWorld _ (Pub.sockets w) (Pub.context w)).
  pose proof (Pub.ac_origin _ _ (Pub.pi_accepted _ _ Hinv)) as Ho.
  assert (Pub.pub_inv origin w0) as Hi.
  { destruct Hinv as [[Hd Hwf Hu Hj] Hs Hc Hl Ha]. split; try done. split; simpl; [set_solver|by vm_compute]. }
  apply Forall_forall in Ho. exact (proj1 (attach_batch_moves origin now _ w0 h Hi Ho)).
Qed.

(** Attaching empties the channel. *)
Lemma attach_accepted_queue now w : Pub.pending (Pub.self (Pub.attach_accepted now w)) = [] /\
  Pub.accepted_rx (Pub.self (Pub.attach_accepted now w)) = [].
Proof.
  unfold Pub.attach_accepted. set (w0 := Pub.mkWorld _ (Pub.sockets w) (Pub.context w)).
  assert (Pub.pending (Pub.self w0) = [] /\ Pub.accepted_rx (Pub.self w0) = []) as Hw by done. clearbody w0. revert w0 Hw.
  induction (Pub.pending (Pub.self w) ++ Pub.accepted_rx (Pub.self w)) as [|a l IH]; intros w0 Hw; [done|].
  cbn [foldl]. apply IH. unfold Pub.attach_one. destruct (Ports.allocate _) as [[port|] al]; [|done].
  by destruct (sock_connect _ _ _ _) as [[s|e] cx].
Qed.

(** Polling moves what was accepted along, and nothing else. *)
Lemma pub_poll_ready_moves w ready w' : Pub.poll_ready w = Some (ready, w') ->
  (forall h, pub_entry w' h = pub_entry w h) /\
  Pub.pending (Pub.self w') ++ Pub.accepted_rx (Pub.self w') = Pub.pending (Pub.self w) ++ Pub.accepted_rx (Pub.self w).
Proof.
  unfold Pub.poll_ready. destruct (Pub.accepted_rx (Pub.self w)) as [|a rx] eqn:Er;
    (destruct (foldO _ _ _) as [r|]; cbn [mbind option_bind]; [|done]); intros [= _ <-]; simpl.
  - by rewrite Er.
  - by rewrite <- app_assoc.
Qed.

(** A connection that is still waiting for the namespace after [process] is
    young. *)
Lemma pub_process_expires `{!TcpStreamLaws T} `{!TcpSocketLaws S Cx} origin now w w' h stream peer created :
  Pub.pub_inv origin w -> Pub.process now w = Some w' ->
  Pub.states (Pub.self w') !! h = Some (Pub.Connecting stream peer created) -> elapsed now created < TCP_HANDSHAKE_TIMEOUT.
Proof.
  intros Hinv E Hc. pose proof (pub_process_moves origin now w w' h Hinv E) as G.
  rewrite (surjective_pairing (pub_entry w' h)) in G. cbn [fst snd pub_entry] in G. rewrite Hc in G.
  assert ((pub_entry w h).1 = None \/ exists st s, pub_entry w h = (Some st, Some (Tcp s))) as Hw.
  { destruct ((pub_entry w h).1) as [st|] eqn:Hst; [|by left]. right.
    destruct (pub_entry_socket origin w h st Hinv Hst) as [s Hs]. by exists st, s. }
  destruct Hw as [Hn|(st & s & He)].
  - rewrite (surjective_pairing (pub_entry w h)), Hn in G. simpl in G. done.
  - rewrite He in G. unfold answered in G. destruct st as [t a created'|c|]; simpl in G.
    + repeat case_match; simpl in G; simplify_eq; try (destruct G as (? & ? & [] & _ & ?); by simplify_eq).
      by bool_prop.
    + destruct G as (? & ? & [] & _ & ?); by simplify_eq.
    + by simplify_eq.
Qed.

End PubEntry.

(** ** Properties *)

(** C11. The published-ports component is safe: it starts consistent, and from
    every consistent state each of its operations runs without panicking,
    whatever was accepted and in whatever order connections are visited; the
    source ports in use are always exactly those of its connections, its
    sockets exist, its buffers stay within 64 KiB, and no socket of others is
    touched.  A connection comes into being only by attaching one that was
    accepted, from a source port of the pool to the published port in the
    namespace; [process] makes it a relay when the namespace has answered,
    gives it up when it refused or its time is up, and relays one round of an
    established connection; [cleanup] removes the closing connections;
    otherwise each operation leaves a connection as it is, and polling loses
    none of those accepted. *)
Theorem published_safe {T S Cx U} `{TcpStreamLaws T} `{TcpSocketLaws S Cx} `{SocketAlloc S U} `{IterOrder}
    (origin : Pub.peer -> T -> Prop) (w : @Pub.world T S Cx U) now publishes a :
  let inv := Pub.pub_inv origin in
  let waiting w := Pub.pending (Pub.self w) ++ Pub.accepted_rx (Pub.self w) in
  inv w -> (forall t peer, a.2 = Ok (t, peer) -> origin peer t) ->
  (forall (ss : SocketSet S U) (cx : Cx), inv (Pub.mkWorld (Pub.PublishedTcp_new (T := T) publishes) ss cx)) /\
  (exists ready w', Pub.poll_ready w = Some (ready, w') /\ inv w' /\ Pub.pub_step w w' /\
     (forall h, pub_entry w' h = pub_entry w h) /\ waiting w' = waiting w) /\
  (let w' := Pub.mkWorld (Pub.accept_step (Pub.self w) a) (Pub.sockets w) (Pub.context w) in
   inv w' /\ Pub.pub_step w w' /\ forall h, pub_entry w' h = pub_entry w h) /\
  (let w' := Pub.attach_accepted now w in
   inv w' /\ Pub.pub_step w w' /\ waiting w' = [] /\ forall h, attached now (waiting w) w w' h) /\
  (exists w', Pub.process now w = Some w' /\ inv w' /\ Pub.pub_step w w' /\
     forall h, shuttled (answered now (pub_entry w h)) (pub_entry w' h)) /\
  (exists w', Pub.cleanup w = Some w' /\ inv w' /\ Pub.pub_step w w' /\
     forall h, pub_entry w' h = pub_cleaned (pub_entry w h)).
Proof.
  intros inv waiting Hinv Ha. split_and!.
  - by apply Pub.pub_inv_new.
  - destruct (Pub.pub_poll_ready_ok origin w Hinv) as (ready & w' & E & ? & ?). exists ready, w'.
    apply pub_poll_ready_moves in E as E'. destruct E'. by split_and!.
  - destruct (Pub.accept_step_ok origin w a Hinv Ha) as [? ?]. split_and!; [done..|]. intros h.
    unfold pub_entry, Pub.accept_step. simpl. by repeat case_match.
  - cbv zeta. destruct (Pub.attach_accepted_ok origin now w Hinv) as [? ?]. split_and!; [done..| |].
    + unfold waiting. by destruct (attach_accepted_queue now w) as [-> ->].
    + intros h. by apply (attach_accepted_moves origin).
  - destruct (Pub.pub_process_ok origin now w Hinv) as (w' & E & ? & ?). exists w'. split_and!; [done..|].
    intros h. by eapply pub_process_moves.
  - destruct (Pub.pub_cleanup_ok origin w Hinv) as (w' & E & ? & ? & _). exists w'. split_and!; [done..|].
    intros h. by apply pub_cleanup_entry.
Qed.

(** ** Witnesses *)

Lemma published_safe_witness :
  Pub.pub_inv Pub.any_origin
    (@Pub.attach_accepted sim sim_tcp unit sim_udp sim_tcp_ops (fresh_alloc sim_tcp sim_udp) 9 Pub.demo_world).
Proof.
  destruct (@published_safe sim sim_tcp unit sim_udp _ _ _ _ (fresh_alloc sim_tcp sim_udp) elements_order
    Pub.any_origin Pub.demo_world 9 [] (mkSpec 0 80 8080, Err WouldBlock) Pub.demo_pub_inv) as (_ & _ & _ & (Hi & _) & _);
    [done|exact Hi].
Defined.
