(* ===== verification/Progress.v ===== *)
(** * Progress of the relay (src/src/event_loop/outbound.rs,
      src/src/event_loop/published.rs)

    The safety theorems of the two TCP components say that no byte is lost,
    added or reordered.  Here: when the host's side has closed its stream and
    the stack gets the data through, every byte arrives and the connection is
    closed, within a number of rounds that the data bounds. *)

From S2P Require Import Prelude RustStr RustNet ProxyConfig Rule Config Stream Connect.
From S2P Require Import Tun Smoltcp Dns Relay Outbound Published.

(** ** The environment *)

(** Streams on which nothing goes wrong: a read or a write may have to wait, and
    does not fail.  [P] describes them, whatever was read and written. *)
Definition reliable {T} `{TcpStreamOps T} (P : T -> Prop) : Prop := forall t, P t ->
  (forall n r t', try_read t n = (r, t') -> P t' /\ forall e, r = Err e -> e = WouldBlock) /\
  (forall d r t', try_write t d = (r, t') -> P t' /\ forall e, r = Err e -> e = WouldBlock).

(** What the other side has sent, to the end, has arrived: reads do not wait. *)
Definition arrived {T} `{TcpStreamOps T} (P : T -> Prop) : Prop :=
  forall t n, P t -> 0 < n -> exists d t', try_read t n = (Ok d, t').

(** An established socket takes data while it has room, and queues it. *)
Class PromptSocket (S Cx : Type) `{TcpSocketOps S Cx} : Prop := {
  established_open s : state s = tcp.Established -> may_recv s = true /\ may_send s = true;
  consume_state s n : state (recv_consume s n) = state s /\ send_queue (recv_consume s n) = send_queue s /\
    can_send (recv_consume s n) = can_send s;
  send_prompt s d : state s = tcp.Established -> can_send s = true -> d <> [] ->
    exists n s', send_slice s d = (Ok n, s') /\ 0 < n /\ state s' = tcp.Established /\
      send_queue s' = send_queue s + n;
}.

Section Progress.
Context {T S Cx : Type} `{TcpStreamLaws T} `{TcpSocketLaws S Cx} `{!PromptSocket S Cx}.
Context (P : T -> Prop) (Hrel : reliable P).

(** A connection whose data the peer has acknowledged. *)
Definition acknowledged (s : S) : Prop :=
  state s = tcp.Established /\ send_queue s = 0 /\ can_send s = true.

(** What the stack does to an established socket between two rounds: [poll i]
    gets everything acknowledged. *)
Definition gets_through (poll : nat -> S -> S) : Prop :=
  forall i s, state s = tcp.Established ->
    acknowledged (poll i s) /\ accepted (poll i s) = accepted s.

(** ** The shared blocks *)

Lemma relay_recv_open s t e s' t' : P t -> state s = tcp.Established -> relay_recv s t = (e, s', t') ->
  e = None /\ P t' /\ state s' = tcp.Established /\ (acknowledged s -> acknowledged s').
Proof.
  intros Hp Hs. unfold relay_recv, acknowledged. destruct (recv_slice_of s) as [data|]; [|by intros [= <- <- <-]].
  assert (forall n, state (recv_consume s n) = tcp.Established /\
    (state s = tcp.Established /\ send_queue s = 0 /\ can_send s = true ->
     state (recv_consume s n) = tcp.Established /\ send_queue (recv_consume s n) = 0 /\ can_send (recv_consume s n) = true)) as G
    by (intros n; destruct (consume_state s n) as (-> & -> & ->); done).
  destruct data as [|b data]; [intros [= <- <- <-]; (split_and!; [done|done|exact (proj1 (G _))|exact (proj2 (G _))])|].
  destruct (try_write t (b :: data)) as [r t1] eqn:Ew.
  destruct (proj2 (Hrel t Hp) _ _ _ Ew) as [Hp1 He].
  destruct r as [n|err]; [|rewrite (He err eq_refl)]; intros [= <- <- <-]; (split_and!; [done|done|exact (proj1 (G _))|exact (proj2 (G _))]).
Qed.

Lemma relay_send_empty (s : S) : relay_send s [] = Some (None, s, []).
Proof. done. Qed.

(** What is sent is queued, so that a buffer that was not empty is not drained. *)
Lemma relay_send_open s buf : state s = tcp.Established -> buf <> [] ->
  exists s' buf', relay_send s buf = Some (None, s', buf') /\ state s' = tcp.Established /\
    blen buf' <= blen buf /\ (buf' = [] -> 0 < send_queue s') /\
    (acknowledged s -> 0 < send_queue s' /\ blen buf' < blen buf).
Proof.
  intros Hs Hb. assert (0 < blen buf) as Hl by (destruct buf; [done|rewrite blen_cons; pose proof (blen_nonneg buf); lia]).
  unfold relay_send. rewrite bool_decide_eq_false_2 by done. cbn [negb andb].
  destruct (can_send s) eqn:Hc; [|exists s, buf; split_and!; [done..|]; intros (_ & _ & ?); congruence]. case_if.
  2: { exists s, buf. split_and!; [done..|]. intros (_ & Hq & _). rewrite Hq in *. bool_prop. unfold TCP_BUF_SIZE in *. lia. }
  bool_prop. match goal with |- context [send_slice s ?x] => assert (x <> []) as Ht; [|set (d := x) in *] end.
  { intros E. apply (f_equal length) in E. rewrite length_take in E. simpl in E. unfold blen in *. lia. }
  destruct (send_prompt s d Hs Hc Ht) as (n & s' & E & Hn & Hs' & Hq'). rewrite E.
  apply send_slice_ok in E as (Hn' & _). pose proof (send_queue_nonneg s). unfold blen, d in *. rewrite length_take in Hn'.
  rewrite (proj2 (Z.leb_le _ _)) by lia. eexists _, _. split; [done|]. rewrite length_drop. split_and!; [done|lia|lia|lia].
Qed.

(** ** Outbound *)

(** Rounds of the relay, with the stack's work between them, until the
    connection closes. *)
Fixpoint out_rounds (poll : nat -> S -> S) (n : nat) (c : Out.ForwardContext (T := T)) (s : S)
    : option (Out.ForwardContext * S * bool) :=
  match n with
  | O => Some (c, s, false)
  | Datatypes.S n =>
      '(c, s, closing) ← Out.shuttle c s;
      if closing : bool then Some (c, s, true) else out_rounds poll n c (poll n s)
  end.

(** The bytes on their way to the application. *)
Definition pending (c : Out.ForwardContext (T := T)) : bytes := Out.proxy_to_app c ++ remaining (Out.stream c).

(** The other side closes the tunnel at some time, and nothing goes wrong
    before. *)
Definition ending_soon (c : Out.ForwardContext (T := T)) : Prop :=
  Out.wf_context c /\ Out.proxy_read_state c <> Out.Failed /\ ending_of (inner (Out.stream c)) = EEof /\
  P (inner (Out.stream c)).

(** The round has to wait for the tunnel: nothing to hand on, and no end seen. *)
Definition stalls (c : Out.ForwardContext (T := T)) (s : S) : bool :=
  let '(c, s) := Out.shuttle_upload c s in
  let '(c, _) := Out.shuttle_read c s in
  bool_decide (Out.proxy_to_app c = []) && negb (bool_decide (Out.proxy_read_state c = Out.Eof)).

Lemma upload_open c s c' s' : ending_soon c -> state s = tcp.Established -> Out.shuttle_upload c s = (c', s') ->
  ending_soon c' /\ state s' = tcp.Established /\ (acknowledged s -> acknowledged s') /\ pending c' = pending c.
Proof.
  intros ((Hwf & Hb & He) & Hf & Hend & Hp) Ha. unfold Out.shuttle_upload. case_if; [|by intros [= <- <-]].
  destruct (relay_recv s (inner (Out.stream c))) as [[e s1] t1] eqn:E. intros [= <- <-].
  destruct (relay_recv_open _ _ _ _ _ Hp Ha E) as (-> & Hp1 & Hs1 & Ha1).
  apply relay_recv_spec in E as (d & _ & _ & _ & Hi & He' & _).
  assert (remaining (mkProxyStream t1 (buffered (Out.stream c)) (position (Out.stream c))) = remaining (Out.stream c)) as Hr
    by (unfold remaining, unread; simpl; by rewrite Hi).
  split; [|split; [done|split; [done|unfold pending; simpl; by rewrite Hr]]].
  split_and!; [split_and!|..]; simpl; try done; [by rewrite Hr|by rewrite He'].
Qed.

(** Reading through the prefetched bytes. *)
Lemma ps_try_read_reliable (ps : ProxyStream T) n r ps' : P (inner ps) -> ps_try_read ps n = (r, ps') ->
  P (inner ps') /\ forall e, r = Err e -> e = WouldBlock.
Proof.
  intros Hp. unfold ps_try_read. destruct (has_buffered_data ps).
  - destruct (cursor_read ps n) as [d ps1] eqn:E. intros [= <- <-]. split; [|done]. revert E. unfold cursor_read.
    by intros [= _ <-].
  - destruct (try_read (inner ps) n) as [r' t'] eqn:E. intros [= <- <-]. by apply (proj1 (Hrel _ Hp)) in E.
Qed.

(** A read changes nothing but where the bytes are, and sees the end only when
    there are none. *)
Lemma read_open c s c' s' : ending_soon c -> Out.shuttle_read c s = (c', s') ->
  ending_soon c' /\ s' = s /\ pending c' = pending c /\
  (Out.proxy_to_app c' = [] -> Out.proxy_read_state c' = Out.Eof -> pending c = []).
Proof.
  intros ((Hwf & Hb & He) & Hf & Hend & Hp). unfold Out.shuttle_read, pending. case_if.
  - bool_prop. destruct (ps_try_read (Out.stream c) _) as [r ps] eqn:E.
    destruct (ps_try_read_reliable _ _ _ _ Hp E) as [Hp' Herr].
    apply ps_try_read_lemma in E as (Hwf' & _ & He' & Hr); [|done|lia].
    destruct r as [[|b d]|e]; [| |rewrite (Herr e eq_refl)]; intros [= <- <-]; simpl; unfold ending_soon, Out.wf_context; simpl.
    + destruct Hr as (Hr & _ & Hnil). destruct (Hnil eq_refl) as [Hz _]. simpl in Hr. rewrite <- Hr, Hz, He'.
      split_and!; try done. by intros ->.
    + destruct Hr as (Hr & Hd & _). rewrite Hr, He', blen_app, <- app_assoc. split_and!; try done; [lia|congruence|].
      by destruct (Out.proxy_to_app c).
    + rewrite Hr, He'. split_and!; try done. congruence.
  - intros [= <- <-]. split_and!; try done. intros Hn Heof. by rewrite Hn, (He Heof).
Qed.

(** A round of the relay, whether or not it has to wait for the tunnel or the
    application. *)
Lemma shuttle_open c s : ending_soon c -> state s = tcp.Established -> exists c' s' (closing : bool),
  Out.shuttle c s = Some (c', s', closing) /\
  if closing then pending c = [] /\ pending c' = []
  else ending_soon c' /\ state s' = tcp.Established /\ blen (pending c') <= blen (pending c) /\
    (acknowledged s -> stalls c s = false -> blen (pending c') < blen (pending c)).
Proof.
  intros He Hs. unfold Out.shuttle, stalls. destruct (Out.shuttle_upload c s) as [c1 s1] eqn:E1.
  destruct (upload_open _ _ _ _ He Hs E1) as (He1 & Hs1 & Ha1 & P1). destruct (Out.shuttle_read c1 s1) as [c2 s2] eqn:E2.
  destruct (read_open _ _ _ _ He1 E2) as (He2 & -> & P2 & Hempty). unfold Out.shuttle_download.
  destruct (established_open s1 Hs1) as [Hr1 Hm1]. pose proof He2 as ((Hwf & Hb & Hee) & Hf & Hend & Hp).
  destruct (decide (Out.proxy_to_app c2 = [])) as [Hnil|Hne].
  - rewrite Hnil, relay_send_empty. cbn [mbind option_bind].
    assert (forall r, pending (Out.mkForwardContext (Out.stream c2) [] r) = pending c2) as Hpend
      by (intros r; unfold pending; simpl; by rewrite Hnil).
    assert (ending_soon (Out.mkForwardContext (Out.stream c2) [] (Out.proxy_read_state c2))) as He3
      by (unfold ending_soon, Out.wf_context; simpl; by split_and!).
    unfold Out.shuttle_close. simpl. rewrite Hm1. case_bool_decide as Heof; cbn [andb].
    + pose proof (Hempty Hnil Heof) as Hdone. rewrite P1 in Hdone. destruct (Z.eqb_spec (send_queue s1) 0) as [Hq|Hq]; cbn [andb].
      * destruct (abort_closed s1) as [_ ->]. rewrite orb_true_r. eexists _, _, true. split; [done|].
        split; [done|]. by rewrite Hpend, P2, P1.
      * rewrite Hr1, Hm1. eexists _, _, false. split; [done|]. split_and!; [done|done|by rewrite Hpend, P2, P1|].
        intros Ha. by destruct (Ha1 Ha) as (_ & ? & _).
    + rewrite Hr1, Hm1. eexists _, _, false. split; [done|]. split_and!; [done|done|by rewrite Hpend, P2, P1|].
      done.
  - destruct (relay_send_open s1 _ Hs1 Hne) as (s3 & buf & E3 & Hs3 & Hl & Hq & Hstrict). rewrite E3. cbn [mbind option_bind].
    destruct (established_open s3 Hs3) as [Hr Hm]. unfold Out.shuttle_close. simpl.
    assert (bool_decide (buf = []) && (send_queue s3 =? 0) = false) as Hd.
    { apply andb_false_iff. destruct (decide (buf = [])) as [G|G]; [right; apply Z.eqb_neq; specialize (Hq G); lia|left].
      by apply bool_decide_eq_false_2. }
    rewrite <- (andb_assoc _ (bool_decide (buf = []))), Hd, andb_false_r. simpl. rewrite Hr, Hm. simpl.
    eexists _, _, false. split; [done|].
    split; [unfold ending_soon, Out.wf_context; simpl; split_and!; try done; lia|]. split; [done|].
    rewrite <- P1, <- P2. unfold pending. simpl. rewrite !blen_app. split; [lia|]. intros Ha _.
    destruct (Hstrict (Ha1 Ha)) as [_ ?]. lia.
Qed.

(** No round waits for a tunnel whose data has arrived. *)
Lemma stalls_arrived c s : arrived P -> ending_soon c -> state s = tcp.Established -> stalls c s = false.
Proof.
  intros Harr He Hs. unfold stalls. destruct (Out.shuttle_upload c s) as [c1 s1] eqn:E1.
  destruct (upload_open _ _ _ _ He Hs E1) as (((Hwf & Hb & Hee) & Hf & Hend & Hp) & _). unfold Out.shuttle_read. case_if.
  - bool_prop. set (space := TCP_BUF_SIZE - _). assert (0 < space) as Hsp by (unfold space; lia).
    assert (exists d ps, ps_try_read (Out.stream c1) space = (Ok d, ps)) as (d & ps & ->).
    { unfold ps_try_read. destruct (has_buffered_data _); [by destruct (cursor_read _ _); eauto|].
      destruct (Harr _ space Hp Hsp) as (d & t' & ->). eauto. }
    destruct d as [|b d]; simpl; [by rewrite andb_false_r|]. rewrite bool_decide_eq_false_2; [done|].
    by destruct (Out.proxy_to_app c1).
  - apply andb_false_iff in Heqb as [G|G]; bool_prop.
    + rewrite (bool_decide_eq_true_2 (Out.proxy_read_state c1 = Out.Eof)); [by rewrite andb_false_r|].
      by destruct (Out.proxy_read_state c1).
    + rewrite bool_decide_eq_false_2; [done|]. intros E. rewrite E, blen_nil in G. unfold TCP_BUF_SIZE in G. lia.
Qed.

(** ** Published *)

Fixpoint pub_rounds (poll : nat -> S -> S) (n : nat) (c : Pub.ConnectionContext (T := T)) (s : S)
    : option (Pub.ConnectionContext * S * bool) :=
  match n with
  | O => Some (c, s, false)
  | Datatypes.S n =>
      '(c, s, closing) ← Pub.shuttle c s;
      if closing : bool then Some (c, s, true) else pub_rounds poll n c (poll n s)
  end.

(** The bytes on their way into the namespace. *)
Definition pub_pending (c : Pub.ConnectionContext (T := T)) : bytes := Pub.host_to_namespace c ++ incoming (Pub.stream c).

Definition pub_ending_soon (c : Pub.ConnectionContext (T := T)) : Prop :=
  Pub.bounded c /\ ending_of (Pub.stream c) = EEof /\
  (Pub.close_after_drain c = true -> incoming (Pub.stream c) = []) /\ P (Pub.stream c).

(** Nothing comes from the namespace. *)
Definition silent (s : S) : Prop := recv_queue s = 0 /\ can_recv s = false.

(** Sending does not make data arrive. *)
Definition stays_silent : Prop := forall s d, silent s -> silent (send_slice s d).2.

Lemma relay_send_silent s buf e s' buf' : stays_silent -> silent s -> relay_send s buf = Some (e, s', buf') -> silent s'.
Proof.
  intros Hst Hs. unfold relay_send. case_if; [|by intros [= <- <- <-]]. case_if; [|by intros [= <- <- <-]].
  match goal with |- context [send_slice s ?d] => pose proof (Hst s d Hs) as Hk end.
  destruct (send_slice s _) as [[n|err] s1]; [case_if; [|done]|]; by intros [= <- <- <-].
Qed.

Lemma pub_read_prompt c c' failed : arrived P -> pub_ending_soon c -> Pub.shuttle_read c = (c', failed) ->
  pub_ending_soon c' /\ failed = false /\ pub_pending c' = pub_pending c /\
  (Pub.host_to_namespace c' = [] -> pub_pending c = [] /\ Pub.close_after_drain c' = true).
Proof.
  intros Harr (Hb & He & Hd & Hp). unfold Pub.shuttle_read, pub_pending. case_if.
  - bool_prop. set (space := TCP_BUF_SIZE - _). assert (0 < space) as Hsp by (unfold space; lia).
    destruct (Harr _ space Hp Hsp) as (d & t & E). destruct (proj1 (Hrel _ Hp) _ _ _ E) as [Hp' _].
    rewrite E. apply try_read_ok in E as (Hi & Hl & He' & _ & Hnil); [|done].
    destruct d as [|b d]; intros [= <- <-]; unfold pub_ending_soon, Pub.bounded in *; simpl.
    + destruct (Hnil eq_refl) as [Hz _]. simpl in Hi. rewrite <- Hi, Hz, He'. split_and!; try done. by intros ->.
    + rewrite Hi, He', blen_app, <- app_assoc. split_and!; try done; [unfold space in Hl; lia|congruence|].
      by destruct (Pub.host_to_namespace c).
  - intros [= <- <-]. split_and!; try done. intros Hn. rewrite Hn in *. apply andb_false_iff in Heqb as [Hs|Hs]; bool_prop.
    + split; [|done]. by rewrite Hd.
    + rewrite blen_nil in Hs. unfold TCP_BUF_SIZE in Hs. lia.
Qed.

Lemma pub_shuttle_prompt c s : arrived P -> stays_silent -> pub_ending_soon c -> acknowledged s -> silent s -> exists c' s' closing,
  Pub.shuttle c s = Some (c', s', closing) /\
  if closing : bool then pub_pending c = [] /\ pub_pending c' = []
  else pub_ending_soon c' /\ state s' = tcp.Established /\ silent s' /\ blen (pub_pending c') < blen (pub_pending c).
Proof.
  intros Harr Hst He Ha Hsil. unfold Pub.shuttle. destruct (Pub.shuttle_read c) as [c1 failed] eqn:E1.
  destruct (pub_read_prompt _ _ _ Harr He E1) as (He1 & -> & P1 & Hempty). unfold Pub.shuttle_download.
  destruct (decide (Pub.host_to_namespace c1 = [])) as [Hn|Hn].
  - destruct (Hempty Hn) as [Hp Hdrain]. rewrite Hn, relay_send_empty. cbn [mbind option_bind].
    destruct Ha as (Hs & Hq & _). destruct Hsil as [Hrq Hcr]. destruct (established_open s Hs) as [Hr Hm].
    unfold Pub.shuttle_upload, Pub.shuttle_close. rewrite Hcr. simpl. rewrite Hr, Hdrain, Hq, Hrq. simpl.
    rewrite orb_true_r. eexists _, _, true. split; [done|]. split; [done|].
    transitivity (pub_pending c1); [unfold pub_pending; simpl; by rewrite Hn | by rewrite P1].
  - destruct (relay_send_open s _ (proj1 Ha) Hn) as (s3 & buf & E3 & Hs3 & _ & _ & Hstrict).
    destruct (Hstrict Ha) as [Hq3 Hl]. rewrite E3. cbn [mbind option_bind].
    apply relay_send_silent in E3 as [Hrq Hcr]; [|done..]. destruct (established_open s3 Hs3) as [Hr Hm].
    unfold Pub.shuttle_upload, Pub.shuttle_close. rewrite Hcr. simpl. rewrite Hr, Hs3. simpl.
    assert ((send_queue s3 =? 0) = false) as -> by (apply Z.eqb_neq; lia). rewrite !andb_false_r. simpl.
    eexists _, _, false. split; [done|]. destruct He1 as (Hb & Hend & Hd & Hp').
    split; [unfold pub_ending_soon, Pub.bounded in *; simpl; split_and!; try done; lia|]. do 2 (split; [done|]).
    rewrite <- P1. unfold pub_pending. simpl. rewrite !blen_app. lia.
Qed.

(** *** Until the connection closes *)

Lemma out_rounds_deliver poll n c s : arrived P ->
  gets_through poll -> ending_soon c -> acknowledged s -> blen (pending c) < Z.of_nat n ->
  exists c' s', out_rounds poll n c s = Some (c', s', true) /\ accepted s' = accepted s ++ pending c /\ state s' = tcp.Closed.
Proof.
  intros Harr Hpoll. revert c s. induction n as [|n IH]; intros c s He Ha Hn; [pose proof (blen_nonneg (pending c)); lia|].
  cbn [out_rounds]. destruct (shuttle_open c s He (proj1 Ha)) as (c1 & s1 & closing & E & G).
  destruct (Out.shuttle_ok c s (proj1 He)) as (c2 & s2 & closing2 & E2 & _ & [_ Hdown _] & _ & Hclosed).
  rewrite E in E2. injection E2 as <- <- <-. rewrite E. cbn [mbind option_bind]. unfold pending in *.
  destruct closing.
  - destruct G as [G G']. exists c1, s1. split; [done|]. split; [|by apply Hclosed].
    by rewrite G', G, !app_nil_r in Hdown; rewrite G, app_nil_r.
  - destruct G as (He1 & Hs1 & _ & Hl). specialize (Hl Ha (stalls_arrived c s Harr He (proj1 Ha))).
    destruct (Hpoll n s1 Hs1) as [Ha1 Hacc].
    destruct (IH c1 (poll n s1) He1 Ha1) as (c' & s' & E' & G & Hc); [lia|].
    exists c', s'. split; [done|]. split; [|done]. by rewrite G, Hacc.
Qed.

Lemma pub_rounds_deliver poll n c s : arrived P ->
  gets_through poll -> (forall i s, silent s -> silent (poll i s)) -> stays_silent ->
  pub_ending_soon c -> acknowledged s -> silent s -> blen (pub_pending c) < Z.of_nat n ->
  exists c' s', pub_rounds poll n c s = Some (c', s', true) /\ accepted s' = accepted s ++ pub_pending c.
Proof.
  intros Harr Hpoll Hquiet Hst. revert c s.
  induction n as [|n IH]; intros c s He Ha Hsil Hn; [pose proof (blen_nonneg (pub_pending c)); lia|].
  cbn [pub_rounds]. destruct (pub_shuttle_prompt c s Harr Hst He Ha Hsil) as (c1 & s1 & closing & E & G).
  destruct (Pub.published_integrity c s (proj1 He)) as (c2 & s2 & closing2 & E2 & _ & [_ Hdown _]).
  rewrite E in E2. injection E2 as <- <- <-. rewrite E. cbn [mbind option_bind]. unfold pub_pending in *.
  destruct closing.
  - destruct G as [G G']. exists c1, s1. split; [done|].
    by rewrite G', G, !app_nil_r in Hdown; rewrite G, app_nil_r.
  - destruct G as (He1 & Hs1 & Hsil1 & Hl). destruct (Hpoll n s1 Hs1) as [Ha1 Hacc].
    destruct (IH c1 (poll n s1) He1 Ha1 (Hquiet n s1 Hsil1)) as (c' & s' & E' & G); [lia|].
    exists c', s'. split; [done|]. by rewrite G, Hacc.
Qed.
End Progress.

(** ** Properties *)


(** ** Witnesses *)

(** Simulated streams that end. *)
Definition sim_closed (t : sim) : Prop := sim_end t = EEof.

Lemma sim_reliable : reliable sim_closed.
Proof.
  intros t Ht. unfold sim_closed in *. split.
  - intros n r t' E. simpl in E. rewrite Ht in E. destruct (sim_in t); by injection E as <- <-.
  - intros d r t' E. by injection E as <- <-.
Qed.

Lemma sim_arrived : arrived sim_closed.
Proof. intros t n Ht Hn. unfold sim_closed in Ht. simpl. rewrite Ht. destruct (sim_in t); eauto. Qed.

Lemma sim_tcp_on_prompt Cx : @PromptSocket sim_tcp Cx (sim_tcp_on Cx).
Proof.
  split; simpl.
  - intros s E. unfold sim_may_recv, sim_may_send. by rewrite E.
  - intros s n. done.
  - intros s d E Hc Hd. unfold sim_may_send in *. rewrite E in *. simpl in Hc. bool_prop. eexists _, _. split; [done|].
    simpl. rewrite blen_app. unfold blen in *. rewrite length_take. destruct d; [done|]. simpl. split_and!; [lia|done|lia].
Qed.

#[global] Instance sim_tcp_prompt : PromptSocket sim_tcp unit := sim_tcp_on_prompt unit.

(** The peer acknowledges everything. *)
Definition ack_all (i : nat) (s : sim_tcp) : sim_tcp :=
  mkSimTcp (sk_state s) (sk_local s) (sk_rx s) [] (sk_delivered s) (sk_accepted s) 65536.

Definition open_socket : sim_tcp := mkSimTcp tcp.Established None [] [] [] [] 65536.

Definition closing_tunnel : Out.ForwardContext (T := sim) :=
  Out.mkForwardContext (ProxyStream_new (mkSim (str "world") EEof []) (str "hello, ")) [] Out.Open.


(** An application that has shut down its sending side and waits for the answer:
    the outbound connection is reset at once. *)
Example half_close_resets :
  let waiting := Out.mkForwardContext (ProxyStream_new (mkSim [] EStall (str "request")) []) [] Out.Open in
  let socket := mkSimTcp tcp.CloseWait None [] [] (str "request") [] 65536 in
  exists c' s', Out.shuttle waiting socket = Some (c', s', true) /\ sk_state s' = tcp.Closed.
Proof. eexists _, _. split; reflexivity. Qed.
