(* ===== verification/EventLoop.v ===== *)
(** * The event loop (src/src/event_loop.rs)

    One [tick] drives the TUN device, the network stack, and the DNS, outbound
    and published components; [wait_for_work] decides when to run it, while the
    accept tasks run beside it.  Every
    socket of the set belongs to exactly one component: the ownership invariant
    is what makes their composition safe. *)

From S2P Require Import Prelude RustStr RustNet FakeDns ProxyConfig Rule Publish Config Stream Connect.
From S2P Require Import Tun Smoltcp Dns Relay Outbound Published.

(** Durations in milliseconds. *)
Definition MAX_POLL_DELAY : Z := 100.
Definition DEFAULT_POLL_DELAY : Z := 50.

Section EventLoop.
Context {T S U I F : Type} `{TcpStreamOps T} `{TcpSocketOps S I} `{UdpSocketOps U} `{SocketAlloc S U}
  `{IterOrder} `{RegexEngine} `{TunFd F} `{InterfaceOps I F S U}.

Record EventLoop : Type := mkEventLoop {
  config : Config;
  device : TunDevice F;
  interface : I;
  sockets : SocketSet S U;
  dns : DnsInterceptor;
  outbound : @Out.OutboundTcp T;
  published : @Pub.PublishedTcp T;
  (** the runtime's connect tasks *)
  runtime : Runtime Out.job;
}.

(** ** [EventLoop::new] *)

Inductive loop_error : Type := TunDeviceNew | AsyncFdNew.

(** [rand_seed], [nanos] after the epoch. *)
Definition rand_seed (nanos : Z) : Z := Z.lxor (nanos mod 2 ^ 64) 0xdeadbeefcafebabe.

(** [async_fd] tells whether the descriptor could be registered with the
    runtime.  The outer [None] is a panic. *)
Definition EventLoop_new (nanos : Z) (async_fd : bool) (tun_fd : F) (config : Config)
    (registered_publishes : list PublishSpec) : option (result loop_error EventLoop) :=
  match TunDevice_new tun_fd with
  | None => Some (Err TunDeviceNew)
  | Some device =>
      let interface := iface_new (rand_seed nanos) in
      interface ← push_addr interface (TUN_GW, TUN_PREFIX);
      interface ← add_default_ipv4_route interface TUN_GW;
      let interface := set_any_ip interface true in
      if negb async_fd then Some (Err AsyncFdNew)
      else
        '(dns, sockets) ← DnsInterceptor_new ∅;
        Some (Ok (mkEventLoop config device interface sockets dns Out.OutboundTcp_new
                    (Pub.PublishedTcp_new registered_publishes) (mkRuntime ∅ 0)))
  end.

(** ** The phases of [tick] *)

Definition out_world (l : EventLoop) : @Out.world T S U :=
  Out.mkWorld (outbound l) (sockets l) (runtime l).

Definition pub_world (l : EventLoop) : @Pub.world T S I U :=
  Pub.mkWorld (published l) (sockets l) (interface l).

Definition with_out (l : EventLoop) (w : @Out.world T S U) : EventLoop :=
  mkEventLoop (config l) (device l) (interface l) (Out.sockets w) (dns l) (Out.self w) (published l) (Out.runtime w).

Definition with_pub (l : EventLoop) (w : @Pub.world T S I U) : EventLoop :=
  mkEventLoop (config l) (device l) (Pub.context w) (Pub.sockets w) (dns l) (outbound l) (Pub.self w) (runtime l).

(** [while self.device.poll_read() {}] *)
Definition read_device (l : EventLoop) : EventLoop :=
  mkEventLoop (config l) (tun_drain_all (device l)) (interface l) (sockets l) (dns l) (outbound l)
    (published l) (runtime l).

Definition poll_interface (now : Z) (l : EventLoop) : EventLoop :=
  let '(i, d, ss) := iface_poll (interface l) now (device l) (sockets l) in
  mkEventLoop (config l) d i ss (dns l) (outbound l) (published l) (runtime l).

Definition process_dns (l : EventLoop) : option EventLoop :=
  '(d, ss) ← dns_process (dns l) (sockets l);
  Some (mkEventLoop (config l) (device l) (interface l) ss d (outbound l) (published l) (runtime l)).

(** [now] is the clock: its [i]-th reading during the tick. *)
Definition tick (now : nat -> Z) (l : EventLoop) : option EventLoop :=
  let l := read_device l in
  w ← Out.observe_syns (now 0%nat) (rx_queue (device l)) (out_world l);
  let l := with_out l w in
  let l := with_pub l (Pub.attach_accepted (now 1%nat) (pub_world l)) in
  let l := poll_interface (now 2%nat) l in
  l ← process_dns l;
  w ← Out.process (now 3%nat) (dns l) (config l) (out_world l);
  let l := with_out l w in
  w ← Pub.process (now 4%nat) (pub_world l);
  let l := with_pub l w in
  let l := poll_interface (now 5%nat) l in
  w ← Out.cleanup (out_world l);
  let l := with_out l w in
  w ← Pub.cleanup (pub_world l);
  Some (with_pub l w).

(** ** The accept tasks

    They run beside the loop and touch nothing but their channel, which the loop
    reads in [poll_ready] and at the start of a tick: what [accept] returned to
    which task since then. *)
Definition arrival : Type := PublishSpec * result io_error (T * Pub.peer).

Definition accept_arrivals (arrivals : list arrival) (l : EventLoop) : EventLoop :=
  mkEventLoop (config l) (device l) (interface l) (sockets l) (dns l) (outbound l)
    (foldl Pub.accept_step (published l) arrivals) (runtime l).

(** ** [wait_for_work] *)

(** The timer: the stack's own delay, at least 1 ms and at most 100 ms. *)
Definition wait_timeout (now : Z) (l : EventLoop) : Z :=
  Z.min (Z.max (default DEFAULT_POLL_DELAY (poll_delay (interface l) now (sockets l))) 1) MAX_POLL_DELAY.

(** One round of polling the [select!]: what the accept tasks did before it,
    whether the shutdown flag changed, what polling each connect task finds,
    whether the TUN is readable, whether the timer fired. *)
Record round : Type := mkRound {
  arrivals : list arrival;
  changed : bool;
  poll_task : JoinHandle Out.job -> @Out.task_poll T;
  readable : bool;
  timer : bool;
}.

(** The branches in their order; the result tells whether one completed. *)
Definition select_round (r : round) (l : EventLoop) : option (bool * EventLoop) :=
  let l := accept_arrivals (arrivals r) l in
  if changed r then Some (true, l)
  else
    '(out_ready, w) ← Out.poll_ready (poll_task r) (out_world l);
    let l := with_out l w in
    '(pub_ready, w) ← Pub.poll_ready (pub_world l);
    let l := with_pub l w in
    if (out_ready || pub_ready) : bool then Some (true, l)
    else Some (readable r || timer r, l).

(** Rounds until a branch completes: [false] while the wait is still suspended. *)
Fixpoint select (rounds : list round) (l : EventLoop) : option (bool * EventLoop) :=
  match rounds with
  | [] => Some (false, l)
  | r :: rounds =>
      '(finished, l) ← select_round r l;
      if finished : bool then Some (true, l) else select rounds l
  end.

Inductive wait_result : Type := Suspended | Work | Shutdown.

(** [shutdown] is the flag on entry, [shutdown'] the flag after the wait; the
    method returns [true] for [Work] and [false] for [Shutdown]. *)
Definition wait_for_work (shutdown shutdown' : bool) (rounds : list round) (l : EventLoop)
    : option (wait_result * EventLoop) :=
  if shutdown then Some (Shutdown, l)
  else
    '(finished, l) ← select rounds l;
    Some (if (finished : bool) then if shutdown' : bool then Shutdown else Work else Suspended, l).

(** What the outside world does during one turn of the loop. *)
Record turn : Type := mkTurn {
  shutdown_before : bool;
  shutdown_after : bool;
  rounds : list round;
  late_arrivals : list arrival;
  clock : nat -> Z;
}.

(** [EventLoop::run]: the result tells whether the loop has ended. *)
Fixpoint run (turns : list turn) (l : EventLoop) : option (bool * EventLoop) :=
  match turns with
  | [] => Some (false, l)
  | t :: turns =>
      '(waited, l) ← wait_for_work (shutdown_before t) (shutdown_after t) (rounds t) l;
      match waited with
      | Work => l ← tick (clock t) (accept_arrivals (late_arrivals t) l); run turns l
      | Shutdown => Some (true, l)
      | Suspended => Some (false, l)
      end
  end.

(** Dropping the loop: the connect tasks and the accept tasks are aborted. *)
Definition drop_loop (l : EventLoop) : EventLoop :=
  let w := Out.drop_outbound (out_world l) in
  mkEventLoop (config l) (device l) (interface l) (sockets l) (dns l) (Out.self w)
    (Pub.drop_published (published l)) (Out.runtime w).

(** [event_loop::run]: an error of [EventLoop::new], or whether the loop has
    ended, and what it leaves behind. *)
Definition event_loop_run (nanos : Z) (async_fd : bool) (tun_fd : F) (config : Config)
    (registered_publishes : list PublishSpec) (turns : list turn) : option (result loop_error (bool * EventLoop)) :=
  r ← EventLoop_new nanos async_fd tun_fd config registered_publishes;
  match r with
  | Err e => Some (Err e)
  | Ok l => '(ended, l) ← run turns l; Some (Ok (ended, if ended : bool then drop_loop l else l))
  end.

(** ** Invariant *)

Context `{!Network T}.

(** [origin a t]: the stream [t] as it was accepted from the peer [a]. *)
Variable origin : Pub.peer -> T -> Prop.

Definition out_handles (l : EventLoop) : gset nat := dom (Out.states (outbound l)).
Definition pub_handles (l : EventLoop) : gset nat := dom (Pub.states (published l)).

(** Every socket has exactly one owner. *)
Record owned (d : nat) (X Y : gset nat) (ss : SocketSet S U) : Prop := {
  ow_dom : dom ss = {[d]} ∪ X ∪ Y;
  ow_dns_out : d ∉ X;
  ow_dns_pub : d ∉ Y;
  ow_disjoint : X ## Y;
}.

Record loop_inv (l : EventLoop) : Prop := {
  li_routes : routes_all (config l);
  li_dns : dns_inv (dns l) (sockets l);
  li_out : Out.out_inv (config l) (out_world l);
  li_pub : Pub.pub_inv origin (pub_world l);
  li_owned : owned (dns_handle (dns l)) (out_handles l) (pub_handles l) (sockets l);
}.

(** ** Lemmas: ownership *)

Lemma owned_out d X X' Y (ss ss' : SocketSet S U) : owned d X Y ss -> owned_step X X' ss ss' -> X' ⊆ dom ss' ->
  owned d X' Y ss' /\ ss' !! d = ss !! d /\ forall h, h ∈ Y -> ss' !! h = ss !! h.
Proof.
  intros [Hd J1 J2 Hxy] Hs Hx. pose proof (owned_step_dom _ _ _ _ Hs Hx) as Hdom.
  destruct (owned_step_other _ _ ({[d]} ∪ Y) _ _ Hs) as [Hdis Hsame]; [set_solver|set_solver|].
  split_and!; [|apply Hsame; set_solver|intros h Hh; apply Hsame; set_solver].
  split; [|set_solver|done|set_solver]. rewrite Hdom, Hd. set_solver.
Qed.

Lemma owned_pub d X Y Y' (ss ss' : SocketSet S U) : owned d X Y ss -> owned_step Y Y' ss ss' -> Y' ⊆ dom ss' ->
  owned d X Y' ss' /\ ss' !! d = ss !! d /\ forall h, h ∈ X -> ss' !! h = ss !! h.
Proof.
  intros [Hd J1 J2 Hxy] Hs Hx. pose proof (owned_step_dom _ _ _ _ Hs Hx) as Hdom.
  destruct (owned_step_other _ _ ({[d]} ∪ X) _ _ Hs) as [Hdis Hsame]; [set_solver|set_solver|].
  split_and!; [|apply Hsame; set_solver|intros h Hh; apply Hsame; set_solver].
  split; [|done|set_solver|set_solver]. rewrite Hdom, Hd. set_solver.
Qed.

(** The components' invariants depend on the socket set only through their own
    sockets. *)
Lemma out_inv_sockets c (o : @Out.OutboundTcp T) (ss ss' : SocketSet S U) rt :
  Out.out_inv c (Out.mkWorld o ss rt) ->
  (forall h, h ∈ dom (Out.states o) -> same_history (get_tcp ss h) (get_tcp ss' h)) ->
  Out.out_inv c (Out.mkWorld o ss' rt).
Proof.
  intros [Hi Hs Ht Hc Hl] Hss. split; [done| |done|done|].
  - intros h Hh. destruct (Hs h Hh) as [s E]. destruct (Hss h Hh s E) as (s' & ? & _). by eexists.
  - intros h st s' Hst E'. assert (h ∈ dom (Out.states o)) as Hh by (rewrite elem_of_dom; by eexists).
    destruct (Hs h Hh) as [s E]. destruct (Hss h Hh s E) as (s1 & E1 & Hd & Ha & Hk).
    simpl in E'. rewrite E1 in E'. injection E' as <-. eapply Out.lifetime_history; [done..|by eapply Hl].
Qed.

Lemma pub_inv_sockets (p : @Pub.PublishedTcp T) (ss ss' : SocketSet S U) (i i' : I) :
  Pub.pub_inv origin (Pub.mkWorld p ss i) ->
  (forall h, h ∈ dom (Pub.states p) -> same_history (get_tcp ss h) (get_tcp ss' h)) ->
  Pub.pub_inv origin (Pub.mkWorld p ss' i').
Proof.
  intros [Hi Hs Hc Hl Hacc] Hss. split; [done| |done| |done].
  - intros h Hh. destruct (Hs h Hh) as [s E]. destruct (Hss h Hh s E) as (s' & ? & _). by eexists.
  - intros h st s' Hst E'. assert (h ∈ dom (Pub.states p)) as Hh by (rewrite elem_of_dom; by eexists).
    destruct (Hs h Hh) as [s E]. destruct (Hss h Hh s E) as (s1 & E1 & Hd & Ha & Hk).
    simpl in E'. rewrite E1 in E'. injection E' as <-. eapply Pub.pub_lifetime_history; [done..|by eapply Hl].
Qed.

(** What the steps of the loop keep: the configuration, and the names of the
    pool, which changes only by resolving. *)
Record loop_step (l l' : EventLoop) : Prop := {
  ls_config : config l' = config l;
  ls_names : exists ds, fake_dns (dns l') = Pool.resolve_all (fake_dns (dns l)) ds;
}.

#[global] Instance loop_step_preorder : PreOrder loop_step.
Proof.
  split.
  - intros l. split; [done|]. by exists [].
  - intros l1 l2 l3 [C1 [d1 N1]] [C2 [d2 N2]]. split; [by rewrite C2|]. exists (d1 ++ d2).
    by rewrite N2, N1, Pool.resolve_all_app.
Qed.

Lemma loop_step_same l l' : config l' = config l -> dns l' = dns l -> loop_step l l'.
Proof. intros Hc Hd. split; [done|]. exists []. by rewrite Hd. Qed.

(** A step of the outbound component, in the loop. *)
Lemma out_phase l w : loop_inv l -> Out.out_inv (config l) w -> Out.out_step (out_world l) w ->
  loop_inv (with_out l w) /\ loop_step l (with_out l w).
Proof.
  intros [Hr Hd Ho Hp Hown] Hi Hst.
  destruct (owned_out _ _ _ _ _ _ Hown Hst) as (Hown' & Hdns & Hsame); [by eapply Out.states_dom_sockets|].
  split; [|by apply loop_step_same]. split; simpl; [done| | | |done].
  - destruct Hd as [Hpool [u Hu]]. split; [done|]. simpl. unfold get_udp in *. rewrite Hdns, Hu. by eexists.
  - by destruct w.
  - eapply pub_inv_sockets; [exact Hp|]. intros h Hh. apply same_lookup_history, Hsame. exact Hh.
Qed.

(** A step of the published component, in the loop. *)
Lemma pub_phase l w : loop_inv l -> Pub.pub_inv origin w -> Pub.pub_step (pub_world l) w ->
  loop_inv (with_pub l w) /\ loop_step l (with_pub l w).
Proof.
  intros [Hr Hd Ho Hp Hown] Hi Hst.
  destruct (owned_pub _ _ _ _ _ _ Hown Hst) as (Hown' & Hdns & Hsame); [by eapply Pub.pub_states_dom_sockets|].
  split; [|by apply loop_step_same]. split; simpl; [done| | | |done].
  - destruct Hd as [Hpool [u Hu]]. split; [done|]. simpl. unfold get_udp in *. rewrite Hdns, Hu. by eexists.
  - eapply out_inv_sockets; [exact Ho|]. intros h Hh. apply same_lookup_history, Hsame. exact Hh.
  - by destruct w.
Qed.

(** A phase that only drives sockets, without adding or removing any. *)
Lemma handles_phase l d' i' ss' : loop_inv l -> same_handles (sockets l) ss' -> same_histories (sockets l) ss' ->
  loop_inv (mkEventLoop (config l) d' i' ss' (dns l) (outbound l) (published l) (runtime l)).
Proof.
  intros [Hr Hd Ho Hp [Hdom Hdo Hdp Hdis]] Hsame Hhist. split; simpl; [done| | | |].
  - destruct Hd as [Hpool Hu]. split; [done|]. by eapply same_handles_udp.
  - eapply out_inv_sockets; [exact Ho|]. intros h _. by apply same_handles_history.
  - eapply pub_inv_sockets; [exact Hp|]. intros h _. by apply same_handles_history.
  - split; [|done|done|done]. by rewrite (same_handles_dom _ _ Hsame).
Qed.

Context `{!TcpStreamLaws T} `{!TcpSocketLaws S I} `{!UdpSocketLaws U} `{!InterfaceLaws I F S U}.

Lemma poll_interface_ok now l : loop_inv l -> loop_inv (poll_interface now l) /\ loop_step l (poll_interface now l).
Proof.
  intros Hinv. unfold poll_interface. destruct (iface_poll _ _ _ _) as [[i d] ss] eqn:E.
  split; [|by apply loop_step_same].
  apply handles_phase; [done|by eapply iface_poll_handles|by eapply iface_poll_histories].
Qed.

(** The interceptor touches its own socket only. *)
Lemma dns_socket_phase l u u' : loop_inv l -> get_udp (sockets l) (dns_handle (dns l)) = Some u ->
  same_handles (sockets l) (<[dns_handle (dns l) := Udp u']> (sockets l)) /\
  same_histories (sockets l) (<[dns_handle (dns l) := Udp u']> (sockets l)).
Proof.
  intros Hinv Hu. split.
  - intros h. destruct (decide (h = dns_handle (dns l))) as [->|Hne].
    + apply get_udp_Some in Hu. rewrite Hu. by rewrite lookup_insert_eq.
    + rewrite lookup_insert_ne by done. apply same_handles_refl.
  - intros h s s' E E'. unfold get_tcp in *.
    destruct (decide (h = dns_handle (dns l))) as [->|Hne]; [by rewrite lookup_insert_eq in E'|].
    rewrite lookup_insert_ne in E' by done. simplify_option_eq. split_and!; [done|done|reflexivity].
Qed.

(** What [process_dns] answers, and the pool it leaves. *)
Lemma process_dns_answers l u : loop_inv l -> get_udp (sockets l) (dns_handle (dns l)) = Some u ->
  let queue := Dns.readable (udp_received u) in
  exists l' u' replies, process_dns l = Some l' /\ sockets l' = <[dns_handle (dns l) := Udp u']> (sockets l) /\
    dns l' = mkDnsInterceptor (dns_handle (dns l)) (pool_after (fake_dns (dns l)) queue) /\
    config l' = config l /\ outbound l' = outbound l /\ loop_inv l' /\ udp_sent u' = udp_sent u ++ replies /\
    forall room fits, takes_replies room fits -> Forall fits (replies_to (fake_dns (dns l)) queue) ->
      (length (replies_to (fake_dns (dns l)) queue) <= room u)%nat -> replies = replies_to (fake_dns (dns l)) queue.
Proof.
  intros Hinv Hu. cbv zeta. pose proof Hinv as [Hr Hd Ho Hp Hown]. unfold process_dns.
  destruct (dns_process_lemma (dns l) (sockets l) u Hd Hu) as (u' & replies & -> & Hd' & _ & Hs & _ & Hroom).
  cbn [mbind option_bind]. eexists _, u', replies. split_and!; [done..| |done|done].
  destruct (dns_socket_phase l u u' Hinv Hu) as [Hsame Hhist].
  pose proof (handles_phase l (device l) (interface l) _ Hinv Hsame Hhist) as [Hr' _ Ho' Hp' Hown']. by split.
Qed.

Lemma process_dns_ok l : loop_inv l -> exists l', process_dns l = Some l' /\ loop_inv l' /\ loop_step l l'.
Proof.
  intros Hinv. destruct (dns_socket _ _ (li_dns _ Hinv)) as [u Hu].
  destruct (process_dns_answers l u Hinv Hu) as (l' & u' & replies & E & _ & Hd & Hc & _ & Hi & _).
  exists l'. split_and!; [done..|]. split; [done|]. rewrite Hd. by eexists.
Qed.

Lemma read_device_ok l : loop_inv l -> loop_inv (read_device l) /\ loop_step l (read_device l).
Proof. intros [Hr Hd Ho Hp Hown]. split; [by split|by apply loop_step_same]. Qed.

(** The phases before the stack runs, and the processing between its two runs. *)
Lemma tick_front_ok now l : loop_inv l -> exists w l', Out.observe_syns (now 0%nat) (rx_queue (device (read_device l)))
    (out_world (read_device l)) = Some w /\
  l' = poll_interface (now 2%nat) (let l1 := with_out (read_device l) w in
         with_pub l1 (Pub.attach_accepted (now 1%nat) (pub_world l1))) /\ loop_inv l' /\ loop_step l l'.
Proof.
  intros Hinv. destruct (read_device_ok l Hinv) as [J0 S0]. set (l0 := read_device l) in *. clearbody l0.
  destruct (Out.observe_syns_ok (config l0) (now 0%nat) (rx_queue (device l0)) (out_world l0) (li_out _ J0))
    as (w1 & E & Hi1 & Hs1).
  destruct (out_phase l0 w1 J0 Hi1 Hs1) as [J1 S1]. exists w1. eexists. split_and!; [exact E|done|..].
  all: set (l1 := with_out l0 w1) in *; clearbody l1; simpl.
  all: destruct (Pub.attach_accepted_ok origin (now 1%nat) (pub_world l1) (li_pub _ J1)) as [Hi2 Hs2].
  all: destruct (pub_phase l1 _ J1 Hi2 Hs2) as [J2 S2].
  all: destruct (poll_interface_ok (now 2%nat) _ J2) as [J3 S3].
  { done. }
  etrans; [exact S0|]. etrans; [exact S1|]. by etrans.
Qed.

Lemma tick_ok now l : loop_inv l -> exists l', tick now l = Some l' /\ loop_inv l' /\ loop_step l l' /\
  (forall h, Out.states (outbound l') !! h <> Some Out.Closing) /\
  (forall h, Pub.states (published l') !! h <> Some Pub.Closing).
Proof.
  intros Hinv. unfold tick. destruct (tick_front_ok now l Hinv) as (w1 & l3 & E & El3 & J3 & S3).
  rewrite E. cbn [mbind option_bind]. cbv zeta in El3 |- *. rewrite <- El3. clear E El3.
  destruct (process_dns_ok l3 J3) as (l4 & -> & J4 & S4). cbn [mbind option_bind].
  destruct (Out.process_ok (config l4) (now 3%nat) (dns l4) (out_world l4) (li_routes _ J4) (li_out _ J4))
    as (w5 & -> & Hi5 & Hs5). cbn [mbind option_bind].
  destruct (out_phase l4 w5 J4 Hi5 Hs5) as [J5 S5]. set (l5 := with_out l4 w5) in *. clearbody l5.
  destruct (Pub.pub_process_ok origin (now 4%nat) (pub_world l5) (li_pub _ J5)) as (w6 & -> & Hi6 & Hs6).
  cbn [mbind option_bind].
  destruct (pub_phase l5 w6 J5 Hi6 Hs6) as [J6 S6]. set (l6 := with_pub l5 w6) in *. clearbody l6.
  destruct (poll_interface_ok (now 5%nat) _ J6) as [J7 S7].
  set (l7 := poll_interface (now 5%nat) l6) in *. clearbody l7.
  destruct (Out.cleanup_ok (config l7) (out_world l7) (li_out _ J7)) as (w8 & -> & Hi8 & Hs8 & Hc8).
  cbn [mbind option_bind]. destruct (out_phase l7 w8 J7 Hi8 Hs8) as [J8 S8].
  destruct (Pub.pub_cleanup_ok origin (pub_world (with_out l7 w8)) (li_pub _ J8)) as (w9 & -> & Hi9 & Hs9 & Hc9).
  destruct (pub_phase _ w9 J8 Hi9 Hs9) as [J9 S9].
  cbn [mbind option_bind]. eexists. split_and!; [done|done| | |].
  - do 6 (etrans; [eassumption|]). done.
  - intros h Hh. by apply Hc8 in Hh as [_ ?].
  - intros h Hh. by apply Hc9 in Hh as [_ ?].
Qed.

(** ** Lemmas: the world outside *)

(** The accept tasks deliver streams of the peers they come from. *)
Definition sound_arrivals (l : list arrival) : Prop :=
  Forall (fun a => forall t peer, a.2 = Ok (t, peer) -> origin peer t) l.

(** Task results are those of [connect], in every round. *)
Definition sound_round (r : round) : Prop := sound_arrivals (arrivals r) /\ Out.poll_sound (poll_task r).

Definition sound_turn (t : turn) : Prop := Forall sound_round (rounds t) /\ sound_arrivals (late_arrivals t).

Lemma accept_arrivals_ok a l : sound_arrivals a -> loop_inv l ->
  loop_inv (accept_arrivals a l) /\ loop_step l (accept_arrivals a l).
Proof.
  intros Ha. revert l. induction Ha as [|x a Hx _ IH]; intros l Hinv.
  - destruct l. split; [done|by apply loop_step_same].
  - destruct (Pub.accept_step_ok origin (pub_world l) x (li_pub _ Hinv) Hx) as [Hi Hs].
    destruct (pub_phase l _ Hinv Hi Hs) as [J1 S1]. destruct (IH _ J1) as [J2 S2].
    split; [exact J2|]. etrans; [exact S1|exact S2].
Qed.

Lemma select_round_ok r l : sound_round r -> loop_inv l ->
  exists finished l', select_round r l = Some (finished, l') /\ loop_inv l' /\ loop_step l l'.
Proof.
  intros [Ha Hp] Hinv. unfold select_round. destruct (accept_arrivals_ok _ l Ha Hinv) as [J0 S0].
  set (l0 := accept_arrivals (arrivals r) l) in *. clearbody l0. cbv zeta.
  destruct (changed r); [by eauto|].
  destruct (Out.poll_ready_ok (config l0) (poll_task r) (out_world l0) Hp (li_out _ J0)) as (b1 & w1 & -> & Hi1 & Hs1).
  cbn [mbind option_bind]. destruct (out_phase l0 w1 J0 Hi1 Hs1) as [J1 S1].
  destruct (Pub.pub_poll_ready_ok origin (pub_world (with_out l0 w1)) (li_pub _ J1)) as (b2 & w2 & -> & Hi2 & Hs2).
  cbn [mbind option_bind]. destruct (pub_phase _ w2 J1 Hi2 Hs2) as [J2 S2].
  assert (loop_step l (with_pub (with_out l0 w1) w2)) by (etrans; [exact S0|]; etrans; [exact S1|exact S2]).
  case_if; by eauto.
Qed.

Lemma select_ok rs l : Forall sound_round rs -> loop_inv l ->
  exists finished l', select rs l = Some (finished, l') /\ loop_inv l' /\ loop_step l l'.
Proof.
  intros Hrs. revert l. induction Hrs as [|r rs Hr _ IH]; intros l Hinv; cbn [select].
  { exists false, l. by split_and!. }
  destruct (select_round_ok r l Hr Hinv) as (b & l1 & -> & J1 & S1). cbn [mbind option_bind].
  case_if; [by eauto|]. destruct (IH l1 J1) as (b2 & l2 & -> & J2 & S2).
  exists b2, l2. split_and!; [done..|by etrans].
Qed.

Lemma run_ok turns l : Forall sound_turn turns -> loop_inv l ->
  exists ended l', run turns l = Some (ended, l') /\ loop_inv l' /\ loop_step l l'.
Proof.
  intros Ht. revert l. induction Ht as [|t turns [Hs Hl] _ IH]; intros l Hinv; cbn [run].
  { exists false, l. by split_and!. }
  unfold wait_for_work. destruct (shutdown_before t); cbn [mbind option_bind].
  { exists true, l. by split_and!. }
  destruct (select_ok (rounds t) l Hs Hinv) as (finished & l1 & -> & J1 & S1). cbn [mbind option_bind].
  destruct finished; [|by eauto]. destruct (shutdown_after t); [by eauto|].
  destruct (accept_arrivals_ok _ l1 Hl J1) as [J2 S2].
  destruct (tick_ok (clock t) _ J2) as (l3 & -> & J3 & S3 & _). cbn [mbind option_bind].
  destruct (IH l3 J3) as (b & l4 & -> & J4 & S4). exists b, l4. split_and!; [done..|].
  etrans; [exact S1|]. etrans; [exact S2|]. by etrans.
Qed.

(** The interface answers for every address, and routes through the gateway. *)
Definition interface_ready (i : I) : Prop :=
  iface_addrs i = [(TUN_GW, TUN_PREFIX)] /\ iface_gateway i = Some TUN_GW /\ iface_any_ip i = true.

Lemma EventLoop_new_ok nanos async_fd tun_fd config0 publishes : routes_all config0 ->
  exists r, EventLoop_new nanos async_fd tun_fd config0 publishes = Some r /\
    match r with
    | Ok l => loop_inv l /\ config l = config0 /\ fake_dns (dns l) = Pool.new /\ interface_ready (interface l) /\
        Pub.accept_tasks (published l) = publishes
    | Err TunDeviceNew => TunDevice_new tun_fd = None
    | Err AsyncFdNew => async_fd = false
    end.
Proof.
  intros Hr. unfold EventLoop_new. destruct (TunDevice_new tun_fd) as [device|]; [|by eexists].
  destruct (iface_new_fresh (rand_seed nanos)) as [Ha0 Hg0].
  destruct (push_addr_room (iface_new (rand_seed nanos)) (TUN_GW, TUN_PREFIX) Ha0) as (i1 & -> & Ha1 & Hg1).
  cbn [mbind option_bind]. rewrite Hg0 in Hg1.
  destruct (add_route_room i1 TUN_GW Hg1) as (i2 & -> & Hg2 & Ha2). cbn [mbind option_bind].
  destruct async_fd; [|by eexists]. cbn [negb].
  destruct (udp_bind_new (UDP_META_COUNT, UDP_BUF_SIZE) (UDP_META_COUNT, UDP_BUF_SIZE) DNS_ADDR DNS_PORT)
    as (u & Hu & _); [done|]. unfold DnsInterceptor_new. rewrite Hu. cbn [mbind option_bind].
  eexists. split; [done|]. set (h := alloc_handle ∅). split_and!; [|done|done| |done].
  - split; simpl; [done| |by apply Out.out_inv_new|by apply Pub.pub_inv_new|].
    + split; simpl; [constructor|]. exists u. apply get_udp_Some. by rewrite lookup_insert_eq.
    + split; [|set_solver|set_solver|set_solver]. rewrite dom_insert_L. set_solver.
  - destruct (set_any_ip_spec i2 true) as (Hany & Haddr & Hgw). unfold interface_ready. simpl.
    by rewrite Hany, Haddr, Hgw, Ha2, Ha1, Hg2.
Qed.

End EventLoop.

(** ** Properties *)

(** C1. The event loop never panics: whatever the TUN delivers, whatever the
    peers, the clock and the tasks do, and however often it turns, a loop
    built from accepted rules starts with a configured interface (or reports
    which descriptor failed), every turn of it completes, and all its
    components stay consistent: every socket belongs to exactly one of them. *)
Theorem event_loop_safe {T S U I F} `{TcpStreamLaws T} `{TcpSocketOps S I} `{!TcpSocketLaws S I} `{UdpSocketLaws U}
    `{SocketAlloc S U} `{IterOrder} `{RegexEngine} `{!RegexLaws} `{TunFd F} `{InterfaceOps I F S U}
    `{!InterfaceLaws I F S U} `{!Network T} (origin : Pub.peer -> T -> Prop)
    nanos async_fd (tun_fd : F) config0 specs publishes (turns : list (@turn T)) :
  from_specs specs = Ok (rules config0) -> Forall (sound_turn origin) turns ->
  exists r, EventLoop_new (T := T) (S := S) (U := U) nanos async_fd tun_fd config0 publishes = Some r /\
    match r with
    | Ok l => interface_ready (interface l) /\
        exists ended l', run turns l = Some (ended, l') /\ loop_inv origin l' /\ config l' = config0
    | Err TunDeviceNew => TunDevice_new tun_fd = None
    | Err AsyncFdNew => async_fd = false
    end.
Proof.
  intros Hspecs Hturns. apply routes_all_from_specs in Hspecs.
  destruct (EventLoop_new_ok origin nanos async_fd tun_fd config0 publishes Hspecs) as (r & Hr & Hinv).
  exists r. split; [done|]. destruct r as [l|e]; [|done]. destruct Hinv as (Hinv & Hc & _ & Hi & _).
  split; [done|]. destruct (run_ok origin turns l Hturns Hinv) as (ended & l' & E & Hinv' & [Hc' _]).
  exists ended, l'. split_and!; [done..|congruence].
Qed.

(** C14. A tick leaks nothing: from a consistent loop it always completes, no
    closing connection outlives it, and afterwards the socket set holds the
    DNS socket and one socket per live connection, nothing else. *)
Theorem tick_no_leak {T S U I F} `{TcpStreamLaws T} `{TcpSocketOps S I} `{!TcpSocketLaws S I} `{UdpSocketLaws U}
    `{SocketAlloc S U} `{IterOrder} `{RegexEngine} `{TunFd F} `{InterfaceOps I F S U}
    `{!InterfaceLaws I F S U} `{!Network T} (origin : Pub.peer -> T -> Prop)
    (l : @EventLoop T S U I F _) now : loop_inv origin l ->
  exists l', tick now l = Some l' /\ loop_inv origin l' /\
    (forall h, Out.states (outbound l') !! h <> Some Out.Closing) /\
    (forall h, Pub.states (published l') !! h <> Some Pub.Closing) /\
    size (sockets l') = (1 + size (Out.states (outbound l')) + size (Pub.states (published l')))%nat.
Proof.
  intros Hinv. destruct (tick_ok origin now l Hinv) as (l' & E & Hinv' & _ & Ho & Hp).
  exists l'. split_and!; [done..|]. destruct (li_owned _ _ Hinv') as [Hdom Hdo Hdp Hdis].
  rewrite <- !size_dom. rewrite Hdom. rewrite !size_union, size_singleton by set_solver. done.
Qed.

(** ** Witnesses *)

Definition demo_turn : @turn sim :=
  mkTurn false false [mkRound [] false Out.demo_poll true false]
    [(mkSpec 0 80 8080, Ok (mkSim [] EStall [], SockV4 0 1))] (fun _ => 0).

Lemma demo_turn_sound : Forall (@sound_turn sim sim_ops Out.demo_network Pub.any_origin) [demo_turn].
Proof.
  constructor; [|constructor]. split; (constructor; [|constructor]); [|done].
  split; [constructor|exact Out.demo_poll_sound].
Qed.

Lemma event_loop_safe_witness :
  exists r, @EventLoop_new sim sim_tcp sim_udp sim_iface (list bytes) sim_udp_ops (fresh_alloc sim_tcp sim_udp)
    literal_engine queue_fd (idle_iface _ _) 5 true [str "packet"] demo_config [mkSpec 0 80 8080] = Some r.
Proof.
  destruct (@event_loop_safe sim sim_tcp sim_udp sim_iface (list bytes) sim_ops sim_laws (sim_tcp_on _)
    (sim_tcp_on_laws _) sim_udp_ops sim_udp_laws (fresh_alloc sim_tcp sim_udp) elements_order literal_engine
    literal_engine_laws queue_fd (idle_iface _ _) (idle_iface_laws _ _) Out.demo_network Pub.any_origin 5 true
    [str "packet"] demo_config demo_specs [mkSpec 0 80 8080] [demo_turn]) as (r & Hr & _).
  - exact demo_specs_ok.
  - exact demo_turn_sound.
  - exists r. exact Hr.
Defined.

Definition demo_loop (pool : Pool.FakeDns) : @EventLoop sim sim_tcp sim_udp sim_iface (list bytes) literal_engine :=
  mkEventLoop demo_config (mkTunDevice [str "packet"] []) (mkSimIface [] None true) {[3%nat := Udp (mkSimUdp [] [])]}
    (mkDnsInterceptor 3 pool) Out.OutboundTcp_new (Pub.PublishedTcp_new []) (mkRuntime ∅ 0).

Lemma demo_loop_inv pool : Pool.reachable pool ->
  @loop_inv sim sim_tcp sim_udp sim_iface (list bytes) sim_ops (sim_tcp_on _) literal_engine
    Out.demo_network Pub.any_origin (demo_loop pool).
Proof.
  intros Hpool. split; simpl.
  - exact Out.demo_routes.
  - split; [exact Hpool|by eexists].
  - apply Out.out_inv_new; [exact sim_laws|exact (sim_tcp_on_laws _)].
  - apply Pub.pub_inv_new; [exact sim_laws|exact (sim_tcp_on_laws _)].
  - split; simpl; [|set_solver|set_solver|set_solver]. rewrite dom_singleton_L. set_solver.
Qed.

Lemma tick_no_leak_witness :
  exists l', @tick sim sim_tcp sim_udp sim_iface (list bytes) sim_ops (sim_tcp_on _) sim_udp_ops
    (fresh_alloc sim_tcp sim_udp) elements_order literal_engine queue_fd (idle_iface _ _) (fun _ => 0)
    (demo_loop Pool.new) = Some l'.
Proof.
  destruct (@tick_no_leak sim sim_tcp sim_udp sim_iface (list bytes) sim_ops sim_laws (sim_tcp_on _)
    (sim_tcp_on_laws _) sim_udp_ops sim_udp_laws (fresh_alloc sim_tcp sim_udp) elements_order literal_engine
    queue_fd (idle_iface _ _) (idle_iface_laws _ _) Out.demo_network Pub.any_origin (demo_loop Pool.new) (fun _ => 0)
    (demo_loop_inv _ Pool.reach_new)) as (l' & Hl & _).
  exists l'. exact Hl.
Defined.
