(* ===== verification/EndToEnd.v ===== *)
(** * The proxy as a whole (src/src/event_loop.rs with its components)

    What the components guarantee together, over any number of turns of the
    loop: published connections relay their peers' streams, an address that was
    answered keeps its name, buffers, ports and timers stay within their
    bounds, and the shutdown flag ends the loop. *)

From S2P Require Import Prelude RustStr RustNet FakeDns ProxyConfig Rule Publish Config Stream Connect.
From S2P Require Import Tun Smoltcp Dns Relay Outbound Published EventLoop.

Section EndToEnd.
Context {T S U I F : Type} `{TcpStreamOps T} `{TcpSocketOps S I} `{UdpSocketOps U} `{SocketAlloc S U}
  `{IterOrder} `{RegexEngine} `{TunFd F} `{InterfaceOps I F S U} `{!Network T}.
Variable origin : Pub.peer -> T -> Prop.
Implicit Types l : @EventLoop T S U I F _.

(** ** What the loop's state means *)

(** Every established published connection relays the stream of its peer. *)
Definition published_relayed l : Prop :=
  forall h ctx, Pub.states (published l) !! h = Some (Pub.Established ctx) ->
  exists s t0, get_tcp (sockets l) h = Some s /\ origin (Pub.peer_addr ctx) t0 /\
    sent (Pub.stream ctx) = sent t0 ++ delivered s /\
    incoming t0 = accepted s ++ Pub.host_to_namespace ctx ++ incoming (Pub.stream ctx).

Lemma loop_published_relayed l : loop_inv origin l -> published_relayed l.
Proof.
  intros Hinv h ctx Hh. pose proof (li_pub _ _ Hinv) as Hp.
  destruct (Pub.pi_sockets _ _ Hp h) as [s Hs]; [simpl; rewrite elem_of_dom; by eexists|].
  destruct (Pub.pi_life _ _ Hp h _ s Hh Hs) as (t0 & Ho & Hu & Hd). by exists s, t0.
Qed.

(** ** Bounds *)

Record within_bounds l : Prop := {
  wb_outbound h ctx : Out.states (outbound l) !! h = Some (Out.Established ctx) ->
    blen (Out.proxy_to_app ctx) <= TCP_BUF_SIZE;
  wb_published h ctx : Pub.states (published l) !! h = Some (Pub.Established ctx) ->
    blen (Pub.host_to_namespace ctx) <= TCP_BUF_SIZE;
  wb_queue : blen (Pub.accepted_rx (published l)) <= Pub.ACCEPT_QUEUE;
  wb_ports h p : Pub.handle_to_port (published l) !! h = Some p -> Ports.in_pool p;
  wb_connections : Z.of_nat (size (Pub.states (published l))) <= Ports.capacity;
  wb_timer now : 1 <= wait_timeout now l <= MAX_POLL_DELAY;
}.

(** Distinct ports of the pool: no more connections than ports. *)
Lemma connections_bound (p : @Pub.PublishedTcp T) : Pub.ports_inv p ->
  Z.of_nat (size (Pub.states p)) <= Ports.capacity.
Proof.
  intros [Hd [_ Hwf] Hu Hj]. rewrite <- size_dom, <- Hd, size_dom.
  set (m := Pub.handle_to_port p) in *. rewrite <- length_map_to_list.
  assert (NoDup ((map_to_list m).*2)) as Hnd.
  { apply NoDup_fmap_2_strong; [|apply NoDup_map_to_list]. intros [h q] [h' q'] G1 G2 E. simpl in E. subst q'.
    apply elem_of_map_to_list in G1, G2. f_equal. by eapply Hj. }
  assert (forall q, q ∈ (map_to_list m).*2 -> q ∈ seqZ Ports.PORT_MIN Ports.capacity) as Hin.
  { intros q ([h q'] & -> & Hq%elem_of_map_to_list)%list_elem_of_fmap. apply elem_of_seqZ.
    specialize (Hwf q'). unfold Ports.in_pool, Ports.capacity in *. simpl. enough (Ports.PORT_MIN <= q' <= Ports.PORT_MAX) by lia.
    apply Hwf, Hu. by eexists. }
  pose proof (NoDup_submseteq _ _ Hnd Hin) as Hs%submseteq_length.
  rewrite length_fmap, length_seqZ in Hs. unfold Ports.capacity, Ports.PORT_MAX, Ports.PORT_MIN in *. lia.
Qed.

Lemma loop_within_bounds l : loop_inv origin l -> within_bounds l.
Proof.
  intros Hinv. pose proof (li_out _ _ Hinv) as Ho. pose proof (li_pub _ _ Hinv) as Hp. split.
  - intros h ctx Hh. by destruct (Out.oi_contexts _ _ Ho h ctx Hh) as (_ & ? & _).
  - intros h ctx Hh. by eapply (Pub.pi_contexts _ _ Hp).
  - apply (Pub.pi_accepted _ _ Hp).
  - intros h p Hh. pose proof (Pub.pi_ports _ _ Hp) as [_ [_ Hwf] Hu _]. apply Hwf, Hu. by eexists.
  - apply connections_bound, (Pub.pi_ports _ _ Hp).
  - intros now. unfold wait_timeout, MAX_POLL_DELAY. lia.
Qed.

(** ** Shutdown *)

(** The wait of a turn ends: some branch of the [select!] completes.  The timer
    sees to it, at most [MAX_POLL_DELAY] after the wait began. *)
Definition wakes (t : @turn T) : Prop := exists r, r ∈ rounds t /\ (changed r || readable r || timer r) = true.

(** The shutdown flag is seen during the turn. *)
Definition shuts_down (t : @turn T) : bool := shutdown_before t || shutdown_after t.

Context `{!TcpStreamLaws T} `{!TcpSocketLaws S I} `{!UdpSocketLaws U} `{!InterfaceLaws I F S U}.

Lemma select_round_wakes r l finished l' : (changed r || readable r || timer r) = true ->
  select_round r l = Some (finished, l') -> finished = true.
Proof.
  intros Hw. unfold select_round. destruct (changed r); [by intros [= <- _]|]. simpl in Hw.
  destruct (Out.poll_ready _ _) as [[b1 w1]|]; [|done]. cbn [mbind option_bind].
  destruct (Pub.poll_ready _) as [[b2 w2]|]; [|done]. cbn [mbind option_bind].
  case_if; intros [= <- _]; [done|exact Hw].
Qed.

Lemma select_wakes rs l : (exists r, r ∈ rs /\ (changed r || readable r || timer r) = true) ->
  Forall (sound_round origin) rs -> loop_inv origin l -> exists l', select rs l = Some (true, l') /\ loop_inv origin l'.
Proof.
  intros (r & Hr & Hw) Hrs. revert l. induction Hrs as [|x rs Hx _ IH]; intros l Hinv; [by apply elem_of_nil in Hr|].
  cbn [select]. destruct (select_round_ok origin x l Hx Hinv) as (b & l1 & E & Hinv1 & _). rewrite E.
  cbn [mbind option_bind]. destruct b; [by eexists|].
  apply IH; [|done]. apply elem_of_cons in Hr as [-> | Hr]; [|done].
  by apply select_round_wakes in E.
Qed.

(** A turn that wakes either shuts the loop down or makes a tick. *)
Lemma run_turn t l : sound_turn origin t -> wakes t -> loop_inv origin l ->
  exists l', loop_inv origin l' /\
    forall turns, run (t :: turns) l = if shuts_down t then Some (true, l') else run turns l'.
Proof.
  intros [Hs Hl] Hw Hinv. cbn [run]. unfold wait_for_work, shuts_down.
  destruct (shutdown_before t); cbn [mbind option_bind orb]; [by exists l|].
  destruct (select_wakes (rounds t) l Hw Hs Hinv) as (l1 & -> & Hinv1). cbn [mbind option_bind].
  destruct (shutdown_after t); [by exists l1|].
  destruct (accept_arrivals_ok origin _ l1 Hl Hinv1) as [Hinv2 _].
  destruct (tick_ok origin (clock t) _ Hinv2) as (l3 & -> & Hinv3 & _). by exists l3.
Qed.

Lemma run_shuts_down turns t later l : Forall (sound_turn origin) (turns ++ [t]) -> Forall wakes (turns ++ [t]) ->
  Forall (fun x => shuts_down x = false) turns -> shuts_down t = true -> loop_inv origin l ->
  exists l', run (turns ++ t :: later) l = Some (true, l') /\ loop_inv origin l'.
Proof.
  intros Hs Hw Hn Ht. revert l. induction turns as [|x turns IH]; intros l Hinv; cbn [app] in *; inversion Hs; inversion Hw; subst.
  - destruct (run_turn t l) as (l' & Hi & E); [done..|]. rewrite E, Ht. by exists l'.
  - inversion Hn; subst. destruct (run_turn x l) as (l1 & Hi & E); [done..|].
    rewrite E. case_match; [congruence|]. by apply IH.
Qed.

(** The loop ends only for the shutdown flag. *)
Lemma run_ended turns l l' : run turns l = Some (true, l') -> exists t, t ∈ turns /\ shuts_down t = true.
Proof.
  revert l. induction turns as [|t turns IH]; intros l; cbn [run]; [done|]. unfold wait_for_work, shuts_down at 1.
  destruct (shutdown_before t) eqn:E1.
  { intros _. exists t. split; [left|]. unfold shuts_down. by rewrite E1. }
  destruct (select (rounds t) l) as [[b l1]|]; [|done]. cbn [mbind option_bind]. destruct b; [|done].
  destruct (shutdown_after t) eqn:E2.
  { intros _. exists t. split; [left|]. unfold shuts_down. by rewrite E2, orb_true_r. }
  destruct (tick _ _) as [l2|]; [|done]. cbn [mbind option_bind]. intros (t' & Hin & Ht')%IH.
  exists t'. split; [by right|done].
Qed.

Lemma drop_loop_tasks l : loop_inv origin l ->
  tasks (runtime (drop_loop l)) = ∅ /\ Pub.accept_tasks (published (drop_loop l)) = [].
Proof. intros Hinv. split; [|done]. exact (Out.drop_no_tasks _ (out_world l) (li_out _ _ Hinv)). Qed.

(** ** Names *)

(** A name that was answered keeps its address while the pool has room. *)
Lemma target_stable p0 d ip ds h port : Pool.reachable p0 -> Pool.domain_to_ip p0 !! d = None ->
  blen ds < Pool.POOL_SIZE -> snd (Pool.resolve p0 d) = ip ->
  target_for (mkDnsInterceptor h (Pool.resolve_all (fst (Pool.resolve p0 d)) ds)) ip port = Domain d port.
Proof.
  intros Hp Hnew Hlen Hip. destruct (Pool.resolve_stable p0 d ds ip Hp Hnew Hip Hlen) as [Hl _].
  unfold target_for. cbn [fake_dns]. rewrite Hl.
  rewrite (Pool.lookup_fake _ _ d); [done| |exact Hl]. by apply Pool.resolve_all_reachable; constructor.
Qed.

End EndToEnd.

(** ** Properties *)

(** C15. Shutdown: a loop whose waits end (its timer sees to it) stops in the
    very turn in which the shutdown flag is seen, whatever would follow, and
    not before; it leaves no connect task and no accept task behind. *)
Theorem shutdown_terminates {T S U I F} `{TcpStreamLaws T} `{TcpSocketOps S I} `{!TcpSocketLaws S I} `{UdpSocketLaws U}
    `{SocketAlloc S U} `{IterOrder} `{RegexEngine} `{!RegexLaws} `{TunFd F} `{InterfaceOps I F S U}
    `{!InterfaceLaws I F S U} `{!Network T} (origin : Pub.peer -> T -> Prop)
    nanos (tun_fd : F) config0 specs publishes (turns : list (@turn T)) t later :
  from_specs specs = Ok (rules config0) -> Forall (sound_turn origin) (turns ++ [t]) ->
  Forall wakes (turns ++ [t]) -> Forall (fun x => shuts_down x = false) turns -> shuts_down t = true ->
  TunDevice_new tun_fd <> None ->
  (exists l', event_loop_run (T := T) (S := S) (U := U) nanos true tun_fd config0 publishes (turns ++ t :: later)
     = Some (Ok (true, l')) /\
   tasks (runtime l') = ∅ /\ Pub.accept_tasks (published l') = []) /\
  forall r, event_loop_run (T := T) (S := S) (U := U) nanos true tun_fd config0 publishes turns = Some r ->
    exists l', r = Ok (false, l').
Proof.
  intros Hspecs Hs Hw Hn Ht Htun. apply routes_all_from_specs in Hspecs. unfold event_loop_run.
  destruct (EventLoop_new_ok origin nanos true tun_fd config0 publishes Hspecs) as (r & -> & Hinv).
  cbn [mbind option_bind]. destruct r as [l|[]]; [|done|done]. destruct Hinv as [Hinv _]. split.
  - destruct (run_shuts_down origin turns t later l) as (l' & -> & Hinv'); [done..|].
    cbn [mbind option_bind]. eexists. split; [done|]. by apply (drop_loop_tasks origin).
  - intros r Hr. destruct (run turns l) as [[ended l']|] eqn:E; [|done]. cbn [mbind option_bind] in Hr.
    injection Hr as <-. destruct ended; [|by eexists]. apply run_ended in E as (t' & Hin & Ht').
    rewrite Forall_forall in Hn. rewrite (Hn t' Hin) in Ht'. done.
Qed.

(** C16. Bounds: however long the loop runs, no connection buffers more than
    64 KiB, no more than 128 accepted connections wait in the channel, source
    ports are dynamic ports and there are at most as many published
    connections as such ports, and every wait ends within 1 to 100 ms; the
    seed of the stack is a 64-bit number. *)
Theorem resources_bounded {T S U I F} `{TcpStreamLaws T} `{TcpSocketOps S I} `{!TcpSocketLaws S I} `{UdpSocketLaws U}
    `{SocketAlloc S U} `{IterOrder} `{RegexEngine} `{!RegexLaws} `{TunFd F} `{InterfaceOps I F S U}
    `{!InterfaceLaws I F S U} `{!Network T} (origin : Pub.peer -> T -> Prop)
    nanos async_fd (tun_fd : F) config0 specs publishes (turns : list (@turn T)) l ended l' :
  from_specs specs = Ok (rules config0) -> Forall (sound_turn origin) turns ->
  EventLoop_new (T := T) (S := S) (U := U) nanos async_fd tun_fd config0 publishes = Some (Ok l) ->
  run turns l = Some (ended, l') -> within_bounds l' /\ 0 <= rand_seed nanos < 2 ^ 64.
Proof.
  intros Hspecs Hturns Hnew Hrun. apply routes_all_from_specs in Hspecs.
  destruct (EventLoop_new_ok origin nanos async_fd tun_fd config0 publishes Hspecs) as (r & Hr & Hinv).
  rewrite Hnew in Hr. injection Hr as <-. destruct Hinv as (Hinv & _).
  destruct (run_ok origin turns l Hturns Hinv) as (ended' & l1 & E & Hinv' & _). rewrite Hrun in E.
  injection E as <- <-. split; [by apply (loop_within_bounds origin)|].
  apply lxor_bounds; [lia|apply Z.mod_pos_bound; lia|lia].
Qed.

(** ** Witnesses

    A run of the whole loop: a SYN for 10.1.2.3:443 arrives on the TUN, the
    stack completes the handshake, the rule for 10.0.0.0/8 connects directly to
    a server that greets first, and the application's bytes go out; at the same
    time a host client of the published port 8080 is relayed. *)

Definition demo_endpoint : endpoint := (ipv4_new 10 1 2 3, 443).

Definition demo_syn : bytes :=
  ["069"; "000"; "000"; "040"; "000"; "000"; "000"; "000"; "064"; "006"; "000"; "000";
   "172"; "023"; "255"; "255"; "010"; "001"; "002"; "003"; "156"; "064"; "001"; "187";
   "000"; "000"; "000"; "000"; "000"; "000"; "000"; "000"; "080"; "002"; "000"; "000";
   "000"; "000"; "000"; "000"]%byte.

Definition demo_server : sim := mkSim (str "WELCOME") EStall [].

Definition greeting_net : Network sim := fun _ addr =>
  match addr with ToIp _ _ => Ready (Ok demo_server) | _ => Ready (Err (OtherIo 111)) end.

Definition greeting_poll (task : JoinHandle Out.job) : @Out.task_poll sim :=
  Out.Completed (@connect sim _ (greeting_net (fst task)) false (fst (snd task)) (snd (snd task))).

Lemma greeting_poll_sound : @Out.poll_sound sim _ greeting_net greeting_poll.
Proof. intros id route target r [= <-]. by exists false. Qed.

Definition demo_client : sim := mkSim (str "PING") EStall [].

Definition quiet_round : @round sim := mkRound [] false greeting_poll true false.

(** Three turns, then the shutdown flag. *)
Definition demo_turns : list (@turn sim) :=
  [mkTurn false false [quiet_round] [(mkSpec 0 8080 80, Ok (demo_client, SockV4 0 7))] (fun _ => 0);
   mkTurn false false [quiet_round] [] (fun _ => 1);
   mkTurn false false [quiet_round] [] (fun _ => 2)].

Definition last_turn : @turn sim := mkTurn false true [quiet_round] [] (fun _ => 3).

Definition demo_origin (_ : Pub.peer) (t : sim) : Prop := t = demo_client.

Lemma quiet_round_sound : @sound_round sim sim_ops greeting_net demo_origin quiet_round.
Proof. split; [constructor|exact greeting_poll_sound]. Qed.

Lemma demo_turns_sound : Forall (@sound_turn sim sim_ops greeting_net demo_origin) (demo_turns ++ [last_turn]).
Proof.
  assert (Forall (@sound_round sim sim_ops greeting_net demo_origin) [quiet_round]) as Hq
    by (constructor; [exact quiet_round_sound|constructor]).
  repeat (constructor; [split; [exact Hq|]|]); [|constructor..].
  constructor; [|constructor]. intros t peer E. by injection E.
Qed.

Definition demo_iface : InterfaceOps sim_iface (list bytes) sim_tcp sim_udp :=
  answering_iface demo_endpoint (str "GET /") _ _.
#[local] Existing Instance demo_iface.

Definition demo_new : option (result loop_error (@EventLoop sim sim_tcp sim_udp sim_iface (list bytes) literal_engine)) :=
  @EventLoop_new sim sim_tcp sim_udp sim_iface (list bytes) sim_udp_ops (fresh_alloc sim_tcp sim_udp)
    literal_engine queue_fd demo_iface 5 true [demo_syn] demo_config [mkSpec 0 8080 80].

Definition demo_run turns l : option (bool * @EventLoop sim sim_tcp sim_udp sim_iface (list bytes) literal_engine) :=
  @run sim sim_tcp sim_udp sim_iface (list bytes) sim_ops (sim_tcp_on _) sim_udp_ops (fresh_alloc sim_tcp sim_udp)
    elements_order literal_engine queue_fd demo_iface turns l.

(** What the outbound connections have relayed. *)
Definition outbound_traffic (l : @EventLoop sim sim_tcp sim_udp sim_iface (list bytes) literal_engine) :=
  omap (fun hst => match hst.2 with
                   | Out.Established c => Some (hst.1, sim_sent (inner (Out.stream c)), sk_accepted <$> get_tcp (sockets l) hst.1)
                   | _ => None
                   end) (map_to_list (Out.states (outbound l))).

Lemma demo_ran : exists l l', demo_new = Some (Ok l) /\ demo_run demo_turns l = Some (false, l') /\
  outbound_traffic l' = [(1%nat, str "GET /", Some (str "WELCOME"))].
Proof.
  assert (match demo_new with
          | Some (Ok l) => match demo_run demo_turns l with
                           | Some (b, l') => Some (b, outbound_traffic l') | None => None end
          | _ => None
          end = Some (false, [(1%nat, str "GET /", Some (str "WELCOME"))])) as Hb by (vm_compute; reflexivity).
  destruct demo_new as [[l|e]|]; [|discriminate..]. exists l.
  destruct (demo_run demo_turns l) as [[b l']|]; [|discriminate]. exists l'. by injection Hb as -> ->.
Qed.

Lemma shutdown_terminates_witness : exists l',
  @event_loop_run sim sim_tcp sim_udp sim_iface (list bytes) sim_ops (sim_tcp_on _) sim_udp_ops
    (fresh_alloc sim_tcp sim_udp) elements_order literal_engine queue_fd demo_iface
    5 true [demo_syn] demo_config [mkSpec 0 8080 80] (demo_turns ++ last_turn :: demo_turns) = Some (Ok (true, l')).
Proof.
  destruct (@shutdown_terminates sim sim_tcp sim_udp sim_iface (list bytes) sim_ops sim_laws (sim_tcp_on _)
    (sim_tcp_on_laws _) sim_udp_ops sim_udp_laws (fresh_alloc sim_tcp sim_udp) elements_order literal_engine
    literal_engine_laws queue_fd demo_iface (answering_iface_laws _ _ _ _) greeting_net demo_origin 5 [demo_syn]
    demo_config demo_specs [mkSpec 0 8080 80] demo_turns last_turn demo_turns) as [(l' & Hl & _) _].
  - exact demo_specs_ok.
  - exact demo_turns_sound.
  - repeat (constructor; [exists quiet_round; split; [left|reflexivity]|]). constructor.
  - repeat constructor.
  - reflexivity.
  - discriminate.
  - exists l'. exact Hl.
Defined.

Lemma resources_bounded_witness : exists l l', demo_new = Some (Ok l) /\ demo_run demo_turns l = Some (false, l') /\
  within_bounds (F := list bytes) l'.
Proof.
  destruct demo_ran as (l & l' & Hnew & Hrun & _). exists l, l'. split; [exact Hnew|]. split; [exact Hrun|].
  apply (@resources_bounded sim sim_tcp sim_udp sim_iface (list bytes) sim_ops sim_laws (sim_tcp_on _)
    (sim_tcp_on_laws _) sim_udp_ops sim_udp_laws (fresh_alloc sim_tcp sim_udp) elements_order literal_engine
    literal_engine_laws queue_fd demo_iface (answering_iface_laws _ _ _ _) greeting_net demo_origin 5 true [demo_syn]
    demo_config demo_specs [mkSpec 0 8080 80] demo_turns l false l');
    [exact demo_specs_ok|exact (proj1 (proj1 (Forall_app _ _ _) demo_turns_sound))|exact Hnew|exact Hrun].
Defined.
