(* ===== verification/Lifecycle.v ===== *)
(** * The life of one connection in the loop (src/src/event_loop.rs with
      src/src/event_loop/outbound.rs)

    [Progress.v] follows a connection through rounds of the relay.  Here the
    rounds are those of the event loop: a connection is followed through whole
    ticks and waits, among all the others, from the state that the loop keeps
    for it, with the stack, the tasks and the accept tasks at work in between:
    until it has been served, could not be made, or took too long to open. *)

From S2P Require Import Prelude RustStr RustNet FakeDns ProxyConfig Rule Publish Config Stream Connect.
From S2P Require Import Tun Smoltcp Dns Relay Outbound OutboundSteps Published PublishedSteps Progress EventLoop EndToEnd.

Definition acknowledgedb {S Cx} `{TcpSocketOps S Cx} (s : S) : bool :=
  bool_decide (state s = tcp.Established) && (send_queue s =? 0) && can_send s.

Lemma acknowledgedb_spec {S Cx} `{TcpSocketOps S Cx} (s : S) : acknowledgedb s = true <-> acknowledged s.
Proof.
  unfold acknowledgedb, acknowledged. rewrite !andb_true_iff, bool_decide_eq_true, Z.eqb_eq. tauto.
Qed.

(** ** The loop, seen from one handle *)

Section Loop.
Context {T S U I F : Type} `{TcpStreamOps T} `{TcpSocketOps S I} `{UdpSocketOps U} `{SocketAlloc S U}
  `{IterOrder} `{RegexEngine} `{TunFd F} `{InterfaceOps I F S U} `{!Network T}.
Variable origin : Pub.peer -> T -> Prop.
Context `{!TcpStreamLaws T} `{!TcpSocketLaws S I} `{!UdpSocketLaws U} `{!InterfaceLaws I F S U}.
Implicit Types l : @EventLoop T S U I F _.

Definition seen l (h : nat) : option Out.State * option (socket S U) := entry (out_world l) h.

(** What polling a task that has not failed makes of its connection, while the
    application is there. *)
Definition task_ok (poll : Out.task_poll (T := T)) (ps : ProxyStream T) : Prop :=
  poll = Out.Pending \/ poll = Out.Completed (Ok ps).

(** What one run of the stack may make of the socket [h]. *)
Definition polled (h : nat) (x y : option (socket S U)) : Prop :=
  exists (i : I) now (d : TunDevice F) ss i' d' ss', iface_poll i now d ss = (i', d', ss') /\ ss !! h = x /\ ss' !! h = y.

Lemma out_handles_seen l h st : (seen l h).1 = Some st -> h ∈ out_handles l.
Proof. intros E. apply elem_of_dom. by exists st. Qed.

(** Every connection has its socket. *)
Lemma seen_socket l h st : loop_inv origin l -> (seen l h).1 = Some st ->
  exists s, seen l h = (Some st, Some (Tcp s)).
Proof.
  intros Hinv E. destruct (Out.oi_sockets _ _ (li_out _ _ Hinv) h) as [s Hs%get_tcp_Some].
  { by eapply out_handles_seen. }
  exists s. unfold seen, entry in *. simpl in *. by rewrite E, Hs.
Qed.

Lemma pub_phase_seen l w h : loop_inv origin l -> Pub.pub_inv origin w -> Pub.pub_step (pub_world l) w ->
  h ∈ out_handles l -> seen (with_pub l w) h = seen l h.
Proof.
  intros Hinv Hi Hst Hh. destruct (owned_pub _ _ _ _ _ _ (li_owned _ _ Hinv) Hst) as (_ & _ & Hsame);
    [by eapply Pub.pub_states_dom_sockets|]. unfold seen, entry. simpl. by rewrite Hsame.
Qed.

Lemma poll_interface_seen now l h : (seen (poll_interface now l) h).1 = (seen l h).1 /\
  polled h (seen l h).2 (seen (poll_interface now l) h).2.
Proof.
  unfold poll_interface. destruct (iface_poll _ _ _ _) as [[i d] ss] eqn:E. split; [done|].
  by exists (interface l), now, (device l), (sockets l), i, d, ss.
Qed.

(** The stack moves no byte in or out of a socket on its own. *)
Lemma polled_history h s y : polled h (Some (Tcp s)) y ->
  exists s', y = Some (Tcp s') /\ delivered s' = delivered s /\ accepted s' = accepted s.
Proof.
  intros (i & now & d & ss & i' & d' & ss' & E & Hx & Hy).
  pose proof (iface_poll_handles _ _ _ _ _ _ _ E h) as Hh. rewrite Hx, Hy in Hh. destruct y as [[s'|u]|]; [|done|done].
  exists s'. split; [done|]. apply get_tcp_Some in Hx, Hy.
  by destruct (iface_poll_histories _ _ _ _ _ _ _ E h s s' Hx Hy) as (? & ? & _).
Qed.

Lemma process_dns_seen l l' h : loop_inv origin l -> process_dns l = Some l' -> h ∈ out_handles l ->
  seen l' h = seen l h.
Proof.
  intros Hinv E Hh. destruct (dns_socket _ _ (li_dns _ _ Hinv)) as [u Hu].
  destruct (process_dns_answers origin l u Hinv Hu) as (l1 & u' & replies & E' & Hss & _ & _ & Ho & _).
  rewrite E' in E. injection E as <-. unfold seen, entry. simpl. rewrite Hss, Ho.
  rewrite lookup_insert_ne; [done|]. intros <-. by apply (ow_dns_out _ _ _ _ (li_owned _ _ Hinv)).
Qed.

Lemma process_dns_states l l' h : process_dns l = Some l' -> (seen l' h).1 = (seen l h).1.
Proof. unfold process_dns. destruct (dns_process _ _) as [[d ss]|]; [|done]. by intros [= <-]. Qed.

(** [tick] up to the first run of the stack, and from the DNS replies on. *)
Definition tick_front (now : nat -> Z) l : option EventLoop :=
  let l := read_device l in
  w ← Out.observe_syns (now 0%nat) (rx_queue (device l)) (out_world l);
  let l := with_out l w in
  let l := with_pub l (Pub.attach_accepted (now 1%nat) (pub_world l)) in
  Some (poll_interface (now 2%nat) l).

Definition tick_back (now : nat -> Z) l : option EventLoop :=
  w ← Out.process (now 3%nat) (dns l) (config l) (out_world l);
  let l := with_out l w in
  w ← Pub.process (now 4%nat) (pub_world l);
  let l := with_pub l w in
  let l := poll_interface (now 5%nat) l in
  w ← Out.cleanup (out_world l);
  let l := with_out l w in
  w ← Pub.cleanup (pub_world l);
  Some (with_pub l w).

Lemma tick_split now l : tick now l = (l ← tick_front now l; l ← process_dns l; tick_back now l).
Proof. unfold tick, tick_front. cbv zeta. by destruct (Out.observe_syns _ _ _). Qed.

Lemma tick_front_inv now l : loop_inv origin l -> exists l', tick_front now l = Some l' /\ loop_inv origin l' /\ loop_step l l'.
Proof.
  intros Hinv. destruct (tick_front_ok origin now l Hinv) as (w & l' & E & El' & J & S').
  exists l'. unfold tick_front. rewrite E. by subst l'.
Qed.

Lemma tick_front_seen now l l' h st : loop_inv origin l -> tick_front now l = Some l' -> (seen l h).1 = Some st ->
  (seen l' h).1 = Some st /\ polled h (seen l h).2 (seen l' h).2.
Proof.
  intros Hinv El' Hst. destruct (read_device_ok origin l Hinv) as [J0 _]. unfold tick_front in El'.
  set (l0 := read_device l) in *. cbv zeta in El'.
  destruct (Out.observe_syns_ok (config l0) (now 0%nat) (rx_queue (device l0)) (out_world l0)
    (li_out _ _ J0)) as (w & E & Hi1 & Hs1). rewrite E in El'. cbn [mbind option_bind] in El'.
  destruct (out_phase origin l0 w J0 Hi1 Hs1) as [J1 _]. set (l1 := with_out l0 w) in *.
  destruct (Pub.attach_accepted_ok origin (now 1%nat) (pub_world l1) (li_pub _ _ J1)) as [Hi2 Hs2].
  destruct (seen_socket l h st Hinv Hst) as [s Hs].
  assert (seen l1 h = seen l h) as G1.
  { change (entry w h = entry (out_world l0) h). eapply observe_syns_local; [|exact E].
    exists (Tcp s). by injection Hs. }
  assert (seen (with_pub l1 (Pub.attach_accepted (now 1%nat) (pub_world l1))) h = seen l h) as G2.
  { rewrite <- G1. apply pub_phase_seen; [done..|]. eapply out_handles_seen. by rewrite G1. }
  injection El' as <-.
  destruct (poll_interface_seen (now 2%nat) (with_pub l1 (Pub.attach_accepted (now 1%nat) (pub_world l1))) h) as [G3 G4].
  rewrite G2 in G3, G4. by rewrite G3.
Qed.

(** A handle that was free may be a listener now. *)
Lemma tick_front_free now l l' h : loop_inv origin l -> tick_front now l = Some l' -> (seen l h).1 = None ->
  (seen l' h).1 = None \/ exists created, (seen l' h).1 = Some (Out.Listening created).
Proof.
  intros Hinv El' Hst. destruct (read_device_ok origin l Hinv) as [J0 _]. unfold tick_front in El'.
  set (l0 := read_device l) in *. cbv zeta in El'.
  destruct (Out.observe_syns _ _ _) as [w|] eqn:E; [|done]. cbn [mbind option_bind] in El'. injection El' as <-.
  assert ((seen (poll_interface (now 2%nat) (with_pub (with_out l0 w)
    (Pub.attach_accepted (now 1%nat) (pub_world (with_out l0 w))))) h).1 = (entry w h).1) as ->
    by (by destruct (poll_interface_seen (now 2%nat) (with_pub (with_out l0 w)
          (Pub.attach_accepted (now 1%nat) (pub_world (with_out l0 w)))) h) as [-> _]).
  destruct (observe_syns_moves (config l0) _ _ _ _ h (li_out _ _ J0) E) as [->|(_ & packet & key & s & _ & _ & _ & _ & ->)].
  - left. exact Hst.
  - right. by eexists.
Qed.

(** What the outbound component has removed stays away while the published one
    removes its own. *)
Lemma closed_seen l w w' h : loop_inv origin l -> h ∈ out_handles l ->
  Pub.pub_step (pub_world (with_out l w)) w' ->
  (forall h st, Pub.states (Pub.self w') !! h = Some st <->
     Pub.states (Pub.self (pub_world (with_out l w))) !! h = Some st /\ st <> Pub.Closing) ->
  entry w h = (None, None) -> seen (with_pub (with_out l w) w') h = (None, None).
Proof.
  intros Hinv Hh [Hframe _ _] Hst [= H1' H2']. unfold seen, entry. simpl. f_equal; [exact H1'|].
  assert (h ∉ pub_handles l) as Hp by (intros Hp; by apply (ow_disjoint _ _ _ _ (li_owned _ _ Hinv) h)).
  rewrite Hframe; [exact H2'|exact Hp|]. intros [st [Hst' _]%Hst]%elem_of_dom. apply Hp, elem_of_dom. by exists st.
Qed.

(** The components, the second run of the stack, the removal of what is closing. *)
Lemma tick_back_seen now l : loop_inv origin l -> exists w l',
  Out.process (now 3%nat) (dns l) (config l) (out_world l) = Some w /\
  tick_back now l = Some l' /\ loop_inv origin l' /\
  forall h, match Out.states (Out.self w) !! h with
  | Some Out.Closing => seen l' h = (None, None)
  | Some st => (seen l' h).1 = Some st /\ polled h (Out.sockets w !! h) (seen l' h).2
  | None => (seen l' h).1 = None
  end.
Proof.
  intros J. destruct (Out.process_ok (config l) (now 3%nat) (dns l) (out_world l) (li_routes _ _ J)
    (li_out _ _ J)) as (w & Ew & Hiw & Hsw).
  destruct (out_phase origin l w J Hiw Hsw) as [J5 _].
  destruct (Pub.pub_process_ok origin (now 4%nat) (pub_world (with_out l w)) (li_pub _ _ J5)) as (w6 & E6 & Hi6 & Hs6).
  destruct (pub_phase origin _ w6 J5 Hi6 Hs6) as [J6 _]. set (l6 := with_pub (with_out l w) w6) in *.
  destruct (poll_interface_ok origin (now 5%nat) l6 J6) as [J7 _]. set (l7 := poll_interface (now 5%nat) l6) in *.
  destruct (Out.cleanup_ok (config l7) (out_world l7) (li_out _ _ J7)) as (w8 & E8 & Hi8 & Hs8 & _).
  destruct (out_phase origin l7 w8 J7 Hi8 Hs8) as [J8 _].
  destruct (Pub.pub_cleanup_ok origin (pub_world (with_out l7 w8)) (li_pub _ _ J8)) as (w9 & E9 & Hi9 & Hs9 & Hst9).
  destruct (pub_phase origin _ w9 J8 Hi9 Hs9) as [J9 _].
  exists w, (with_pub (with_out l7 w8) w9). split; [done|]. split.
  { unfold tick_back. rewrite Ew. cbn [mbind option_bind]. rewrite E6. cbn [mbind option_bind]. fold l6 l7.
    rewrite E8. cbn [mbind option_bind]. by rewrite E9. }
  split; [done|]. intros h. pose proof (cleanup_entry _ _ h E8) as G8.
  destruct (poll_interface_seen (now 5%nat) l6 h) as [G7 P7]. fold l7 in G7, P7.
  change (Out.states (Out.self (out_world l7)) !! h) with (seen l7 h).1 in G8. rewrite G7 in G8.
  change (seen l6 h).1 with (Out.states (Out.self w) !! h) in G8, G7.
  destruct (Out.states (Out.self w) !! h) as [st|] eqn:Hst.
  2: { change (seen (with_pub (with_out l7 w8) w9) h).1 with (entry w8 h).1. rewrite G8. exact G7. }
  assert (seen l6 h = entry w h) as G6.
  { change (entry w h) with (seen (with_out l w) h). apply pub_phase_seen; [done..|]. by eapply out_handles_seen. }
  rewrite G6 in P7. simpl in P7.
  assert (st <> Out.Closing -> seen (with_pub (with_out l7 w8) w9) h = seen l7 h) as G9.
  { intros Hn. assert (entry w8 h = seen l7 h) as G by (by destruct st).
    rewrite <- G. change (entry w8 h) with (seen (with_out l7 w8) h). apply pub_phase_seen; [done..|].
    eapply out_handles_seen. change (seen (with_out l7 w8) h) with (entry w8 h). by rewrite G. }
  destruct st; try (rewrite G9 by done; split; [exact G7|exact P7]).
  eapply closed_seen; [exact J7|by eapply out_handles_seen|exact Hs9|exact Hst9|exact G8].
Qed.

(** A whole tick with the connection [h]. *)
Lemma tick_seen now l h st : loop_inv origin l -> (seen l h).1 = Some st ->
  exists lf la w l', tick_front now l = Some lf /\ process_dns lf = Some la /\ tick now l = Some l' /\ loop_inv origin l' /\
    (seen lf h).1 = Some st /\ polled h (seen l h).2 (seen lf h).2 /\
    loop_inv origin la /\ loop_step l la /\ seen la h = seen lf h /\
    Out.process (now 3%nat) (dns la) (config la) (out_world la) = Some w /\
    match Out.states (Out.self w) !! h with
    | Some Out.Closing => seen l' h = (None, None)
    | Some st' => (seen l' h).1 = Some st' /\ polled h (Out.sockets w !! h) (seen l' h).2
    | None => (seen l' h).1 = None
    end.
Proof.
  intros Hinv Hst. destruct (tick_front_inv now l Hinv) as (lf & Ef & Jf & Sf).
  destruct (tick_front_seen now l lf h st Hinv Ef Hst) as [Hf Pf].
  destruct (process_dns_ok origin lf Jf) as (la & Ea & Ja & Sa).
  pose proof (process_dns_seen _ _ h Jf Ea (out_handles_seen _ _ _ Hf)) as Ha.
  destruct (tick_back_seen now la Ja) as (w & l' & Ew & Eb & J' & Hend). exists lf, la, w, l'.
  split_and!; [done|done|by rewrite tick_split, Ef; cbn [mbind option_bind]; rewrite Ea|done|exact Hf|exact Pf|done|by etrans|done|done|].
  exact (Hend h).
Qed.

(** Handshakes that take too long do not survive the tick. *)
Lemma tick_expires now l l' : loop_inv origin l -> tick now l = Some l' ->
  (forall h created, Out.states (outbound l') !! h = Some (Out.Listening created) ->
     elapsed (now 3%nat) created < TCP_HANDSHAKE_TIMEOUT) /\
  (forall h stream peer created, Pub.states (published l') !! h = Some (Pub.Connecting stream peer created) ->
     elapsed (now 4%nat) created < TCP_HANDSHAKE_TIMEOUT).
Proof.
  intros Hinv. rewrite tick_split. destruct (tick_front_inv now l Hinv) as (lf & -> & Jf & _). cbn [mbind option_bind].
  destruct (process_dns_ok origin lf Jf) as (la & -> & Ja & _). cbn [mbind option_bind]. unfold tick_back.
  destruct (Out.process_ok (config la) (now 3%nat) (dns la) (out_world la) (li_routes _ _ Ja)
    (li_out _ _ Ja)) as (w5 & E5 & Hi5 & Hs5). rewrite E5. cbn [mbind option_bind].
  destruct (out_phase origin la w5 Ja Hi5 Hs5) as [J5 _].
  destruct (Pub.process _ _) as [w6|] eqn:E6; [|done]. cbn [mbind option_bind].
  destruct (Out.cleanup _) as [w8|] eqn:E8; [|done]. cbn [mbind option_bind].
  destruct (Pub.cleanup _) as [w9|] eqn:E9; [|done]. cbn [mbind option_bind]. intros [= <-].
  revert E8 E9. unfold poll_interface. destruct (iface_poll _ _ _ _) as [[i d] ss]. intros E8 E9. split.
  - intros h created Hst. cbn in Hst. apply (cleanup_entry _ _ h) in E8. unfold entry in E8. cbn in E8.
    apply (process_expires _ _ _ _ _ h _ E5). rewrite Hst in E8.
    destruct (Out.states (Out.self w5) !! h) as [[]|]; by simplify_eq.
  - intros h stream peer created Hst. cbn in Hst. apply (pub_cleanup_entry _ _ h) in E9. unfold pub_entry in E9.
    cbn in E9. apply (pub_process_expires origin _ _ _ h stream peer _ (li_pub _ _ J5) E6). rewrite Hst in E9.
    unfold pub_cleaned in E9. destruct (Pub.states (Pub.self w6) !! h) as [[]|]; by simplify_eq.
Qed.

(** *** The turns of the loop *)

(** A turn that goes on with a tick: the loop as the interceptor finds it, as
    [process] finds it, and afterwards. *)
Definition before_dns (t : @turn T) l : option EventLoop :=
  match wait_for_work (shutdown_before t) (shutdown_after t) (rounds t) l with
  | Some (Work, l) => tick_front (clock t) (accept_arrivals (late_arrivals t) l)
  | _ => None
  end.

Definition at_process (t : @turn T) l : option EventLoop := l ← before_dns t l; process_dns l.

Definition work_turn (t : @turn T) l : option EventLoop := l ← at_process t l; tick_back (clock t) l.

Fixpoint work_turns (turns : list (@turn T)) l : option EventLoop :=
  match turns with
  | [] => Some l
  | t :: turns => l ← work_turn t l; work_turns turns l
  end.

Lemma work_turn_run t turns l l' : work_turn t l = Some l' -> run (t :: turns) l = run turns l'.
Proof.
  unfold work_turn, at_process, before_dns. cbn [run].
  destruct (wait_for_work _ _ _ _) as [[[] l1]|]; cbn [mbind option_bind]; try done. rewrite tick_split.
  destruct (tick_front _ _) as [l2|]; cbn [mbind option_bind]; [|done].
  destruct (process_dns l2) as [l3|]; cbn [mbind option_bind]; [|done]. by intros ->.
Qed.

(** In the turn [t] the listener [h] is found with its handshake done: its
    application has connected to [ip] and [port].  The name that [ip] was given
    for, if there is one, is the target, and the task [id] is spawned to
    connect to it through its route. *)
Definition promoted (t : @turn T) l (h id : nat) (ip : ipv4) (port : Z) (route : ProxyConfig) (target : ProxyTarget) : Prop :=
  exists la l' created s, at_process t l = Some la /\ seen la h = (Some (Out.Listening created), Some (Tcp s)) /\
    (state s = tcp.Established \/ state s = tcp.CloseWait) /\ local_endpoint s = Some (ip, port) /\
    target = match Pool.lookup (fake_dns (dns la)) ip with Some d => Domain d port | None => Ip (V4 ip) port end /\
    proxy_for (config l) target = PSome route /\
    work_turn t l = Some l' /\ (seen l' h).1 = Some (Out.Connecting (id, (route, target))).

(** *** Waiting *)

Lemma select_round_seen r l finished l' h st : loop_inv origin l -> sound_round origin r ->
  select_round r l = Some (finished, l') -> (seen l h).1 = Some st -> Out.is_connecting st = false ->
  loop_inv origin l' /\ seen l' h = seen l h.
Proof.
  intros Hinv Hr E Hst Hc. destruct (select_round_ok origin r l Hr Hinv) as (b & l1 & E' & J & _).
  rewrite E in E'. injection E' as <- <-. split; [done|]. revert E. unfold select_round. destruct Hr as [Ha Hp].
  destruct (accept_arrivals_ok origin _ l Ha Hinv) as [J0 _].
  change (seen l h) with (seen (accept_arrivals (arrivals r) l) h) in *.
  set (l0 := accept_arrivals (arrivals r) l) in *. cbv zeta. destruct (changed r); [by intros [= _ <-]|].
  destruct (Out.poll_ready_ok (config l0) (poll_task r) (out_world l0) Hp (li_out _ _ J0))
    as (b1 & w1 & E1 & Hi1 & Hs1). rewrite E1. cbn [mbind option_bind].
  destruct (out_phase origin l0 w1 J0 Hi1 Hs1) as [J1 _].
  assert (seen (with_out l0 w1) h = seen l0 h) as G1.
  { apply (poll_ready_entry _ _ _ _ h) in E1. change (Out.states (Out.self (out_world l0)) !! h) with (seen l0 h).1 in E1.
    rewrite Hst in E1. by destruct st. }
  destruct (Pub.pub_poll_ready_ok origin (pub_world (with_out l0 w1)) (li_pub _ _ J1)) as (b2 & w2 & -> & Hi2 & Hs2).
  cbn [mbind option_bind]. rewrite <- G1, <- (pub_phase_seen (with_out l0 w1) w2 h J1 Hi2 Hs2).
  - case_if; by intros [= _ <-].
  - eapply out_handles_seen. by rewrite G1.
Qed.

Lemma select_seen rs l h st : loop_inv origin l -> Forall (sound_round origin) rs ->
  (exists r, r ∈ rs /\ (changed r || readable r || timer r) = true) ->
  (seen l h).1 = Some st -> Out.is_connecting st = false ->
  exists l', select rs l = Some (true, l') /\ loop_inv origin l' /\ seen l' h = seen l h.
Proof.
  intros Hinv Hrs (r & Hr & Hw) Hst Hc. revert l Hinv Hst. induction Hrs as [|x rs Hx _ IH]; intros l Hinv Hst; [by apply elem_of_nil in Hr|].
  cbn [select]. destruct (select_round_ok origin x l Hx Hinv) as (b & l1 & E & _). rewrite E. cbn [mbind option_bind].
  destruct (select_round_seen _ _ _ _ _ _ Hinv Hx E Hst Hc) as [J1 G1]. destruct b; [by eauto|].
  apply elem_of_cons in Hr as [-> |Hr]; [by apply select_round_wakes in E|].
  rewrite <- G1 in Hst. destruct (IH Hr l1 J1 Hst) as (l2 & E2 & J2 & G2). exists l2. by rewrite G2.
Qed.

(** A round that polls the task of [h]. *)
Lemma select_round_connecting r l finished l' h task s ps : loop_inv origin l -> sound_round origin r ->
  select_round r l = Some (finished, l') -> seen l h = (Some (Out.Connecting task), Some (Tcp s)) ->
  Out.client_gone (state s) = false -> task_ok (poll_task r task) ps ->
  loop_inv origin l' /\
  (seen l' h = seen l h /\ (changed r = true \/ poll_task r task = Out.Pending) \/
   seen l' h = (Some (Out.Established (Out.mkForwardContext ps [] Out.Open)), Some (Tcp s))).
Proof.
  intros Hinv Hr E Hst Hc Hok. destruct (select_round_ok origin r l Hr Hinv) as (b & l1 & E' & J & _).
  rewrite E in E'. injection E' as <- <-. split; [done|]. revert E. unfold select_round. destruct Hr as [Ha Hp].
  destruct (accept_arrivals_ok origin _ l Ha Hinv) as [J0 _].
  change (seen l h) with (seen (accept_arrivals (arrivals r) l) h) in *.
  set (l0 := accept_arrivals (arrivals r) l) in *. cbv zeta. destruct (changed r); [intros [= _ <-]; by left; split; [|left]|].
  destruct (Out.poll_ready_ok (config l0) (poll_task r) (out_world l0) Hp (li_out _ _ J0))
    as (b1 & w1 & E1 & Hi1 & Hs1). rewrite E1. cbn [mbind option_bind].
  destruct (out_phase origin l0 w1 J0 Hi1 Hs1) as [J1 _].
  assert (exists st, (seen (with_out l0 w1) h).1 = Some st /\
    (seen (with_out l0 w1) h = seen l0 h /\ poll_task r task = Out.Pending \/
     seen (with_out l0 w1) h = (Some (Out.Established (Out.mkForwardContext ps [] Out.Open)), Some (Tcp s)))) as (st & Hst1 & G1).
  { apply (poll_ready_entry _ _ _ _ h) in E1. change (Out.states (Out.self (out_world l0)) !! h) with (seen l0 h).1 in E1.
    rewrite Hst in E1. cbn [fst] in E1. destruct E1 as ([ready w] & a' & Hw & E1 & Hw1).
    change (entry w h = seen l0 h) in Hw. change (seen (with_out l0 w1) h) with (entry w1 h). rewrite Hw1.
    apply (poll_connection_outcome _ _ _ _ _ task s ps) in E1; [|by rewrite Hw|done|exact Hok].
    destruct E1 as [[-> Hp']| ->]; eexists; (split; [by rewrite ?Hw, ?Hst|]); [left|by right]. by rewrite Hw. }
  destruct (Pub.pub_poll_ready_ok origin (pub_world (with_out l0 w1)) (li_pub _ _ J1)) as (b2 & w2 & -> & Hi2 & Hs2).
  cbn [mbind option_bind].
  assert (seen (with_pub (with_out l0 w1) w2) h = seen (with_out l0 w1) h) as G2
    by (apply pub_phase_seen; [done..|]; by eapply out_handles_seen).
  intros E. assert (l' = with_pub (with_out l0 w1) w2) as -> by (revert E; case_if; by intros [= _ <-]).
  rewrite G2. destruct G1 as [[? ?]|?]; [left|by right]. by split; [|right].
Qed.

Lemma select_connecting rs l h task s ps : loop_inv origin l -> Forall (sound_round origin) rs ->
  (exists r, r ∈ rs /\ (changed r || readable r || timer r) = true) ->
  seen l h = (Some (Out.Connecting task), Some (Tcp s)) -> Out.client_gone (state s) = false ->
  Forall (fun r => task_ok (poll_task r task) ps) rs ->
  exists l', select rs l = Some (true, l') /\ loop_inv origin l' /\
    (seen l' h = seen l h /\ (exists r, r ∈ rs /\ (changed r = true \/ poll_task r task = Out.Pending)) \/
     seen l' h = (Some (Out.Established (Out.mkForwardContext ps [] Out.Open)), Some (Tcp s))).
Proof.
  intros Hinv Hrs Hw Hst Hc Hok. revert l Hinv Hst. induction Hrs as [|x rs Hx Hrs IH]; intros l Hinv Hst.
  { destruct Hw as (r & Hr%elem_of_nil & _). done. }
  apply Forall_cons in Hok as [Hokx Hok].
  cbn [select]. destruct (select_round_ok origin x l Hx Hinv) as (b & l1 & E & _). rewrite E. cbn [mbind option_bind].
  destruct (select_round_connecting _ _ _ _ _ _ _ _ Hinv Hx E Hst Hc Hokx) as [J1 G1].
  destruct b.
  { exists l1. do 2 (split; [done|]). destruct G1 as [[? ?]|?]; [left|by right]. split; [done|]. exists x. by split; [left|]. }
  assert (exists r, r ∈ rs /\ (changed r || readable r || timer r) = true) as Hw'.
  { destruct Hw as (r & [-> |Hr]%elem_of_cons & Hw); [by apply select_round_wakes in E|by exists r]. }
  destruct G1 as [[G1 _]|G1].
  - destruct (IH Hw' Hok l1 J1) as (l2 & E2 & J2 & G2); [by rewrite G1|]. exists l2. rewrite <- G1.
    do 2 (split; [done|]). destruct G2 as [(? & r & ? & ?)|?]; [left|by right]. split; [done|]. exists r. by split; [right|].
  - destruct (select_seen rs l1 h _ J1 Hrs Hw' (f_equal fst G1) eq_refl) as (l2 & E2 & J2 & G2).
    exists l2. do 2 (split; [done|]). right. by rewrite G2.
Qed.

(** *** A connection that cannot be made *)

Lemma round_fails r l h task s : loop_inv origin l -> sound_round origin r -> changed r = false ->
  seen l h = (Some (Out.Connecting task), Some (Tcp s)) -> fails (poll_task r) task s ->
  exists l', select_round r l = Some (true, l') /\ loop_inv origin l' /\
    seen l' h = (Some Out.Closing, Some (Tcp (abort s))).
Proof.
  intros Hinv Hr Hch Hst Hf. destruct (select_round_ok origin r l Hr Hinv) as (b & l' & E & J & _).
  exists l'. revert E. unfold select_round. destruct Hr as [Ha Hp]. rewrite Hch.
  destruct (accept_arrivals_ok origin _ l Ha Hinv) as [J0 _].
  change (seen l h) with (seen (accept_arrivals (arrivals r) l) h) in *.
  set (l0 := accept_arrivals (arrivals r) l) in *. cbv zeta.
  destruct (Out.poll_ready_ok (config l0) (poll_task r) (out_world l0) Hp (li_out _ _ J0))
    as (b1 & w1 & E1 & Hi1 & Hs1). rewrite E1. cbn [mbind option_bind].
  destruct (out_phase origin l0 w1 J0 Hi1 Hs1) as [J1 _].
  destruct (poll_ready_fails _ _ _ _ _ _ _ E1 Hst Hf) as [-> G1].
  destruct (Pub.pub_poll_ready_ok origin (pub_world (with_out l0 w1)) (li_pub _ _ J1)) as (b2 & w2 & -> & Hi2 & Hs2).
  cbn [mbind option_bind orb]. intros [= <- <-]. split_and!; [done|done|]. rewrite <- G1.
  change (entry w1 h) with (seen (with_out l0 w1) h). apply pub_phase_seen; [done..|].
  eapply out_handles_seen. change (seen (with_out l0 w1) h) with (entry w1 h). by rewrite G1.
Qed.

Lemma tick_removes now l h : loop_inv origin l -> (seen l h).1 = Some Out.Closing ->
  exists l', tick now l = Some l' /\ loop_inv origin l' /\ seen l' h = (None, None).
Proof.
  intros Hinv Hst. destruct (tick_seen now l h _ Hinv Hst) as (lf & la & w & l' & _ & _ & Et & J' & Hf & _ & _ & _ & Ha & Ew & Hend).
  exists l'. do 2 (split; [done|]). rewrite <- Ha in Hf. pose proof (process_idle _ _ _ _ _ h _ Ew Hf eq_refl) as G.
  apply entry_state in G as [G _]. change (Out.states (Out.self (out_world la)) !! h) with (seen la h).1 in G.
  by rewrite G, Hf in Hend.
Qed.

(** *** Serving a connection *)

Context `{!PromptSocket S I} (P : T -> Prop) (Hrel : reliable P).

(** The application at the other end of [h] stays: the stack keeps an
    established connection established, at its endpoint. *)
Definition stays_open (h : nat) : Prop :=
  forall s y, polled h (Some (Tcp s)) y -> state s = tcp.Established ->
    exists s', y = Some (Tcp s') /\ state s' = tcp.Established /\ local_endpoint s' = local_endpoint s.

(** [h] relays the tunnel of [c], which the other side has closed. *)
Definition serving l (h : nat) (c : Out.ForwardContext (T := T)) (s : S) : Prop :=
  seen l h = (Some (Out.Established c), Some (Tcp s)) /\ ending_soon P c /\ state s = tcp.Established.

(** The relay of [h] can move on, if it is being served: the application has
    acknowledged everything it was sent, and there is something to hand it, or
    the end of the tunnel was seen. *)
Definition ready_in l (h : nat) : bool :=
  match seen l h with (Some (Out.Established c), Some (Tcp s)) => acknowledgedb s && negb (stalls c s) | _ => true end.

Lemma polled_accepted h s s' : polled h (Some (Tcp s)) (Some (Tcp s')) -> accepted s' = accepted s.
Proof.
  intros (i & now & d & ss & i' & d' & ss' & E & Hx%get_tcp_Some & Hy%get_tcp_Some).
  by destruct (iface_poll_histories _ _ _ _ _ _ _ E h s s' Hx Hy) as (_ & ? & _).
Qed.

(** A tick with a served connection: it is done, or nearer to it. *)
Lemma tick_serving now l h c s : stays_open h -> loop_inv origin l -> serving l h c s ->
  exists lf l', tick_front now l = Some lf /\ tick now l = Some l' /\ loop_inv origin l' /\
    (pending c = [] /\ seen l' h = (None, None) \/
     exists c' s', serving l' h c' s' /\ accepted s' ++ pending c' = accepted s ++ pending c /\
       blen (pending c') <= blen (pending c) /\ (ready_in lf h = true -> blen (pending c') < blen (pending c))).
Proof.
  intros Hopen Hinv (Hseen & He & Hs).
  destruct (tick_seen now l h (Out.Established c) Hinv) as (lf & la & w & l' & Ef & Ea & Et & J' & Hf & Pf & _ & _ & Ha & Ew & Hend);
    [by rewrite Hseen|]. exists lf, l'. do 3 (split; [done|]).
  rewrite Hseen in Pf. cbn [snd] in Pf. destruct (Hopen _ _ Pf Hs) as (s1 & Hs1 & Hst1 & _). rewrite Hs1 in Pf.
  destruct (process_established _ _ _ _ _ h c Ew) as (s1' & c' & s2 & closing & Hg & Esh & Hw); [by rewrite <- Hf, <- Ha|].
  change (Out.sockets (out_world la)) with (sockets la) in Hg. apply get_tcp_Some in Hg.
  change (sockets la !! h) with (seen la h).2 in Hg. rewrite Ha, Hs1 in Hg. injection Hg as <-.
  assert (ready_in lf h = acknowledgedb s1 && negb (stalls c s1)) as Hack by (unfold ready_in; by rewrite (surjective_pairing (seen lf h)), Hf, Hs1).
  destruct (shuttle_open P Hrel c s1 He Hst1) as (c1 & s3 & closing1 & E1 & G). rewrite Esh in E1. injection E1 as <- <- <-.
  injection Hw as Hw1 Hw2. rewrite Hw1, Hw2 in Hend. destruct closing; [left; by destruct G|].
  destruct G as (He' & Hst2 & Hle & Hlt). destruct Hend as [Hst' Pb].
  destruct (Hopen _ _ Pb Hst2) as (s4 & Hs4 & Hst4 & _). right. exists c', s4.
  rewrite Hs4 in Pb. apply polled_accepted in Pb, Pf.
  destruct (Out.shuttle_ok c s1 (proj1 He)) as (c2 & s5 & cl & E5 & _ & [_ Hdown _] & _). rewrite Esh in E5. injection E5 as <- <- _.
  split; [|split; [|split]].
  - split; [|done]. by rewrite (surjective_pairing (seen l' h)), Hst', Hs4.
  - unfold pending. by rewrite Pb, Hdown, Pf.
  - done.
  - rewrite Hack. intros [Ha1%acknowledgedb_spec Ha2%negb_true_iff]%andb_true_iff. by apply Hlt.
Qed.

(** *** Turns *)

(** Whether the relay of [h] can move on when it runs in the turn [t]. *)
Definition ready_turn (h : nat) (t : @turn T) l : bool :=
  match before_dns t l with Some l => ready_in l h | None => false end.

(** In how many of the turns it can. *)
Fixpoint ready_turns (h : nat) (turns : list (@turn T)) l : nat :=
  match turns with
  | [] => 0
  | t :: turns =>
      (if ready_turn h t l then 1 else 0) + match run [t] l with Some (_, l) => ready_turns h turns l | None => 0 end
  end.

(** Turns that go on with a tick. *)
Definition working (t : @turn T) : Prop := sound_turn origin t /\ wakes t /\ shuts_down t = false.

Lemma turn_serving t l h c s : stays_open h -> working t -> loop_inv origin l -> serving l h c s ->
  exists l', (forall turns, run (t :: turns) l = run turns l') /\ loop_inv origin l' /\
    (pending c = [] /\ seen l' h = (None, None) \/
     exists c' s', serving l' h c' s' /\ accepted s' ++ pending c' = accepted s ++ pending c /\
       blen (pending c') <= blen (pending c) /\ (ready_turn h t l = true -> blen (pending c') < blen (pending c))).
Proof.
  intros Hopen ([Hr Hl] & Hw & Hn) Hinv Hs. unfold shuts_down in Hn. apply orb_false_iff in Hn as [Hn1 Hn2].
  destruct (select_seen (rounds t) l h (Out.Established c) Hinv Hr Hw) as (l1 & E1 & J1 & G1); [by rewrite (proj1 Hs)|done|].
  destruct (accept_arrivals_ok origin _ l1 Hl J1) as [J2 _].
  assert (serving (accept_arrivals (late_arrivals t) l1) h c s) as Hs1.
  { destruct Hs as [Hs Hrest]. split; [|done]. by rewrite <- Hs, <- G1. }
  destruct (tick_serving (clock t) _ h c s Hopen J2 Hs1) as (lf & l' & Ef & Et & J' & G). exists l'. split; [|split; [done|]].
  - intros turns. cbn [run]. unfold wait_for_work. rewrite Hn1, E1. cbn [mbind option_bind]. rewrite Hn2. by rewrite Et.
  - assert (ready_turn h t l = ready_in lf h) as ->; [|done].
    unfold ready_turn, before_dns, wait_for_work. rewrite Hn1, E1. cbn [mbind option_bind]. by rewrite Hn2, Ef.
Qed.

Lemma run_serving turns l h c s : stays_open h -> Forall working turns -> loop_inv origin l -> serving l h c s ->
  blen (pending c) < Z.of_nat (ready_turns h turns l) ->
  exists before t after l1 l2 c1 s1, turns = before ++ t :: after /\ run before l = Some (false, l1) /\
    loop_inv origin l1 /\ serving l1 h c1 s1 /\ pending c1 = [] /\ accepted s1 = accepted s ++ pending c /\
    run (before ++ [t]) l = Some (false, l2) /\ seen l2 h = (None, None).
Proof.
  intros Hopen Hw. revert l c s. induction Hw as [|t turns Ht _ IH]; intros l c s Hinv Hs Hn; cbn [ready_turns] in Hn.
  { pose proof (blen_nonneg (pending c)). lia. }
  destruct (turn_serving t l h c s Hopen Ht Hinv Hs) as (l' & Erun & J' & [[Hp Hgone]|G]).
  { exists [], t, turns, l, l', c, s. rewrite Hp, app_nil_r. cbn [app]. rewrite Erun. by split_and!. }
  destruct G as (c' & s' & Hs' & Hacc & Hle & Hlt). rewrite Erun in Hn. cbn [run] in Hn.
  destruct (IH l' c' s' J' Hs') as (before & t' & after & l1 & l2 & c1 & s1 & -> & E1 & J1 & Hs1 & Hp1 & Ha1 & E2 & Hg2).
  { destruct (ready_turn h t l); [specialize (Hlt eq_refl)|]; lia. }
  exists (t :: before), t', after, l1, l2, c1, s1. cbn [app]. rewrite !Erun.
  split_and!; try done. by rewrite Ha1.
Qed.

(** *** From the connect task to the end *)

(** The task of a connection has not failed, whenever a turn polls it; and it
    is done in all the rounds of a turn, none of which looks away. *)
Definition awaits (task : JoinHandle Out.job) (ps : ProxyStream T) (t : @turn T) : Prop :=
  Forall (fun r => task_ok (poll_task r task) ps) (rounds t).

Definition completes (task : JoinHandle Out.job) (ps : ProxyStream T) (t : @turn T) : Prop :=
  Forall (fun r => changed r = false /\ poll_task r task = Out.Completed (Ok ps)) (rounds t).

(** A tick leaves a connection that waits for its task as it is. *)
Lemma tick_connecting now l h task s : stays_open h -> loop_inv origin l ->
  seen l h = (Some (Out.Connecting task), Some (Tcp s)) -> state s = tcp.Established ->
  exists l' s', tick now l = Some l' /\ loop_inv origin l' /\
    seen l' h = (Some (Out.Connecting task), Some (Tcp s')) /\ state s' = tcp.Established.
Proof.
  intros Hopen Hinv Hseen Hs.
  destruct (tick_seen now l h (Out.Connecting task) Hinv) as (lf & la & w & l' & Ef & Ea & Et & J' & Hf & Pf & _ & _ & Ha & Ew & Hend);
    [by rewrite Hseen|]. exists l'. rewrite Hseen in Pf. destruct (Hopen _ _ Pf Hs) as (s1 & Hs1 & Hst1 & _).
  apply (process_idle _ _ _ _ _ h (Out.Connecting task)) in Ew; [|by rewrite <- Hf, <- Ha|done].
  change (entry (out_world la) h) with (seen la h) in Ew. rewrite Ha, (surjective_pairing (seen lf h)), Hf, Hs1 in Ew.
  injection Ew as E1 E2. rewrite E1, E2 in Hend. destruct Hend as [Hst' Pb].
  destruct (Hopen _ _ Pb Hst1) as (s2 & Hs2 & Hst2 & _). exists s2. do 2 (split; [done|]). split; [|done].
  by rewrite (surjective_pairing (seen l' h)), Hst', Hs2.
Qed.

(** The turn in which a listener is found with its handshake over. *)
Lemma turn_listening t l h created s ip port : stays_open h -> working t -> loop_inv origin l ->
  seen l h = (Some (Out.Listening created), Some (Tcp s)) -> state s = tcp.Established ->
  local_endpoint s = Some (ip, port) ->
  exists l' id route target s', run [t] l = Some (false, l') /\ promoted t l h id ip port route target /\
    seen l' h = (Some (Out.Connecting (id, (route, target))), Some (Tcp s')) /\ state s' = tcp.Established.
Proof.
  intros Hopen ([Hr Hl] & Hw & Hn) Hinv Hseen Hs Hep. unfold shuts_down in Hn. apply orb_false_iff in Hn as [Hn1 Hn2].
  destruct (select_ok origin (rounds t) l Hr Hinv) as (b & l1' & E1' & _ & S1).
  destruct (select_seen (rounds t) l h (Out.Listening created) Hinv Hr Hw) as (l1 & E1 & J1 & G1); [by rewrite Hseen|done|].
  rewrite E1 in E1'. injection E1' as <- <-. destruct (accept_arrivals_ok origin _ l1 Hl J1) as [J2 S2].
  rewrite Hseen in G1. change (seen l1 h) with (seen (accept_arrivals (late_arrivals t) l1) h) in G1.
  set (l2 := accept_arrivals (late_arrivals t) l1) in *.
  destruct (tick_seen (clock t) l2 h (Out.Listening created) J2) as (lf & la & w & l' & Ef & Ea & Et & J' & Hf & Pf & Ja & Sa & Ha & Ew & Hend);
    [by rewrite G1|]. assert (loop_step l la) as [Hc _] by (etrans; [exact S1|]; by etrans).
  rewrite G1 in Pf. destruct (Hopen _ _ Pf Hs) as (s1 & Hs1 & Hst1 & Hep1). rewrite Hep in Hep1.
  destruct (li_routes _ _ Ja (target_for (dns la) ip port)) as [route Hroute].
  destruct (process_listening _ _ _ _ _ h created s1 ip port route Ew) as [id Hid]; [|done..|].
  { change (entry (out_world la) h) with (seen la h). by rewrite Ha, (surjective_pairing (seen lf h)), Hf, Hs1. }
  injection Hid as E2 E3. rewrite E2, E3 in Hend. destruct Hend as [Hst' Pb].
  destruct (Hopen _ _ Pb Hst1) as (s2 & Hs2 & Hst2 & _). rewrite Hc in Hroute.
  assert (at_process t l = Some la /\ work_turn t l = Some l') as [Eat Ewt].
  { assert (at_process t l = Some la) as Eat.
    { unfold at_process, before_dns, wait_for_work. rewrite Hn1, E1. cbn [mbind option_bind]. rewrite Hn2. fold l2.
      rewrite Ef. cbn [mbind option_bind]. exact Ea. }
    split; [done|]. unfold work_turn. rewrite Eat. cbn [mbind option_bind]. rewrite tick_split, Ef in Et.
    cbn [mbind option_bind] in Et. by rewrite Ea in Et. }
  exists l', id, route, (target_for (dns la) ip port), s2. split_and!; try done.
  - by rewrite (work_turn_run _ _ _ _ Ewt).
  - exists la, l', created, s1. split_and!; try done.
    + by rewrite Ha, (surjective_pairing (seen lf h)), Hf, Hs1.
    + by left.
    + apply target_for_lookup. apply (dns_pool _ _ (li_dns _ _ Ja)).
  - by rewrite (surjective_pairing (seen l' h)), Hst', Hs2.
Qed.

Lemma turn_connecting t l h task s ps : stays_open h -> working t -> awaits task ps t -> loop_inv origin l ->
  seen l h = (Some (Out.Connecting task), Some (Tcp s)) -> state s = tcp.Established ->
  ending_of (inner ps) = EEof -> P (inner ps) -> accepted s = [] ->
  exists l', (forall turns, run (t :: turns) l = run turns l') /\ loop_inv origin l' /\
    ((~ completes task ps t /\ exists s', seen l' h = (Some (Out.Connecting task), Some (Tcp s')) /\
        state s' = tcp.Established) \/
     remaining ps = [] /\ seen l' h = (None, None) \/
     exists c' s', serving l' h c' s' /\ accepted s' ++ pending c' = remaining ps /\
       blen (pending c') <= blen (remaining ps)).
Proof.
  intros Hopen ([Hr Hl] & Hw & Hn) Hok Hinv Hseen Hs Hend HP Hacc. unfold shuts_down in Hn. apply orb_false_iff in Hn as [Hn1 Hn2].
  destruct (select_connecting (rounds t) l h task s ps Hinv Hr Hw Hseen) as (l1 & E1 & J1 & G1); [by rewrite Hs|done|].
  destruct (accept_arrivals_ok origin _ l1 Hl J1) as [J2 _].
  change (seen l1 h) with (seen (accept_arrivals (late_arrivals t) l1) h) in G1.
  set (l2 := accept_arrivals (late_arrivals t) l1) in *.
  assert (forall l' turns, tick (clock t) l2 = Some l' -> run (t :: turns) l = run turns l') as Hrun.
  { intros l' turns Et. cbn [run]. unfold wait_for_work. rewrite Hn1, E1. cbn [mbind option_bind]. rewrite Hn2.
    fold l2. by rewrite Et. }
  destruct G1 as [(G1 & r & Hr' & Hp)|G1].
  - destruct (tick_connecting (clock t) l2 h task s Hopen J2) as (l' & s' & Et & J' & G'); [by rewrite G1|done|].
    exists l'. split; [by intros turns; apply Hrun|]. split; [done|]. left. split; [|by exists s'].
    intros Hc. unfold completes in Hc. rewrite Forall_forall in Hc. destruct (Hc r Hr') as [? ?]. destruct Hp; congruence.
  - assert (serving l2 h (Out.mkForwardContext ps [] Out.Open) s) as Hserv.
    { split; [done|]. split; [|done]. split; [|done]. by eapply (Out.oi_contexts _ _ (li_out _ _ J2)), (f_equal fst G1). }
    destruct (tick_serving (clock t) l2 h _ s Hopen J2 Hserv) as (lf & l' & _ & Et & J' & G).
    exists l'. split; [by intros turns; apply Hrun|]. split; [done|]. right.
    destruct G as [G|(c' & s' & Hs' & Ha & Hle & _)]; [by left|right]. exists c', s'. rewrite Hacc in Ha. done.
Qed.

Lemma ready_turns_app h xs ys l : Forall working xs -> loop_inv origin l ->
  exists l', run xs l = Some (false, l') /\ (ready_turns h ys l' <= ready_turns h (xs ++ ys) l)%nat.
Proof.
  intros Hw. revert l. induction Hw as [|x xs (Hs & Hk & Hn) _ IH]; intros l Hinv; [by exists l|].
  destruct (run_turn origin x l Hs Hk Hinv) as (l1 & J1 & E). rewrite Hn in E.
  destruct (IH l1 J1) as (l' & E' & Hle). exists l'. split; [by rewrite E|].
  cbn [app ready_turns]. rewrite E. cbn [run]. lia.
Qed.

Lemma connecting_accepted l h task s : loop_inv origin l ->
  seen l h = (Some (Out.Connecting task), Some (Tcp s)) -> accepted s = [].
Proof.
  intros Hinv [= Hst Hs%get_tcp_Some]. pose proof (Out.oi_life _ _ (li_out _ _ Hinv) h _ s Hst Hs) as Hl.
  destruct task as [id [route target]]. by destruct Hl as ((_ & ?) & _).
Qed.

(** [h] has been handed all of [data] and was then removed with its socket, in
    the course of [turns]. *)
Definition delivered_all (h : nat) (data : bytes) (turns : list (@turn T)) l : Prop :=
  exists before t after l1 l2 s, turns = before ++ t :: after /\ run before l = Some (false, l1) /\
    get_tcp (sockets l1) h = Some s /\ accepted s = data /\
    run (before ++ [t]) l = Some (false, l2) /\ seen l2 h = (None, None).

Lemma delivered_all_cons h data t turns l l' : (forall turns, run (t :: turns) l = run turns l') ->
  delivered_all h data turns l' -> delivered_all h data (t :: turns) l.
Proof.
  intros E (before & t' & after & l1 & l2 & s & -> & E1 & Hs & Hd & E2 & Hg).
  exists (t :: before), t', after, l1, l2, s. cbn [app]. by rewrite !E.
Qed.

Lemma serving_delivered turns l h c s : stays_open h -> Forall working turns -> loop_inv origin l -> serving l h c s ->
  blen (pending c) < Z.of_nat (ready_turns h turns l) -> delivered_all h (accepted s ++ pending c) turns l.
Proof.
  intros Hopen Hw Hinv Hs Hn.
  destruct (run_serving turns l h c s Hopen Hw Hinv Hs Hn) as (before & t & after & l1 & l2 & c1 & s1 & -> & E1 & _ & [Hs1 _] & _ & Ha & E2 & Hg).
  exists before, t, after, l1, l2, s1. split_and!; [done|done| |done|done|done].
  apply get_tcp_Some. by injection Hs1.
Qed.

Lemma connecting_delivered ts t us l h task s ps : stays_open h -> Forall working (ts ++ t :: us) ->
  Forall (awaits task ps) ts -> completes task ps t -> loop_inv origin l ->
  seen l h = (Some (Out.Connecting task), Some (Tcp s)) -> state s = tcp.Established -> ending_of (inner ps) = EEof -> P (inner ps) ->
  (forall l', run (ts ++ [t]) l = Some (false, l') -> blen (remaining ps) < Z.of_nat (ready_turns h us l')) ->
  delivered_all h (remaining ps) (ts ++ t :: us) l.
Proof.
  intros Hopen Hw Haw Hc Hinv Hseen Hs Hend HP Hfair.
  assert (awaits task ps t) as Hawt by (eapply Forall_impl; [exact Hc|]; intros r [_ ?]; by right).
  revert l s Hinv Hseen Hs Hfair. induction Haw as [|x ts Hx _ IH]; intros l s Hinv Hseen Hs Hfair; cbn [app] in *.
  all: pose proof (connecting_accepted _ _ _ _ Hinv Hseen) as Hacc.
  all: apply Forall_cons in Hw as [Hwx Hw].
  - destruct (turn_connecting t l h task s ps Hopen Hwx Hawt Hinv Hseen Hs Hend HP Hacc) as (l' & E & J' & [[G _]|[[Hnil G]|(c' & s' & Hs' & Ha & Hle)]]).
    + done.
    + exists [], t, us, l, l', s. cbn [app]. rewrite E, Hnil. split_and!; try done. apply get_tcp_Some. by injection Hseen.
    + apply (delivered_all_cons _ _ _ _ _ _ E). rewrite <- Ha. apply serving_delivered; [done..|].
      specialize (Hfair l'). rewrite E in Hfair. specialize (Hfair eq_refl). lia.
  - destruct (turn_connecting x l h task s ps Hopen Hwx Hx Hinv Hseen Hs Hend HP Hacc) as (l' & E & J' & G).
    assert (forall l2, run (ts ++ [t]) l' = Some (false, l2) -> blen (remaining ps) < Z.of_nat (ready_turns h us l2)) as Hfair'.
    { intros l2 E2. apply Hfair. by rewrite E. }
    destruct G as [(_ & s' & G & Hst)|[[Hnil G]|(c' & s' & Hs' & Ha & Hle)]].
    + apply (delivered_all_cons _ _ _ _ _ _ E). by eapply IH.
    + exists [], x, (ts ++ t :: us), l, l', s. cbn [app]. rewrite E, Hnil. split_and!; try done. apply get_tcp_Some. by injection Hseen.
    + apply (delivered_all_cons _ _ _ _ _ _ E). rewrite <- Ha. apply serving_delivered; [done..|].
      rewrite cons_middle, (assoc_L (++)) in Hw |- *. destruct (ready_turns_app h (ts ++ [t]) us l') as (l2 & E2 & Hge);
        [by apply Forall_app in Hw as [? _]|done|]. specialize (Hfair' l2 E2). lia.
Qed.

End Loop.

(** ** Properties *)

(** C3. A connection from its handshake to its end, among all the others: while
    its application stays connected, a listener whose handshake is over starts,
    in the next turn of the loop, the task that connects to what its address
    stands for in the pool at that time, through the route of this target.
    When that task succeeds, with a tunnel on which no read or write fails and
    whose other side closes it at some time, and in enough of the turns that
    follow (one per byte the tunnel brings, and one more) the application has
    acknowledged what it was sent and the tunnel has something to hand on or
    has ended, then the application is handed everything the tunnel brings and
    the connection is removed. *)
Theorem connection_served {T S U I F} `{TcpStreamLaws T} `{TcpSocketOps S I} `{!TcpSocketLaws S I} `{UdpSocketLaws U}
    `{SocketAlloc S U} `{IterOrder} `{RegexEngine} `{TunFd F} `{InterfaceOps I F S U}
    `{!InterfaceLaws I F S U} `{!Network T} `{!PromptSocket S I}
    (origin : Pub.peer -> T -> Prop) (P : T -> Prop) (l : @EventLoop T S U I F _) h :
  loop_inv origin l -> stays_open (F := F) (S := S) (U := U) (I := I) h -> reliable P ->
  (forall t created s ip port, working origin t -> seen l h = (Some (Out.Listening created), Some (Tcp s)) ->
     state s = tcp.Established -> local_endpoint s = Some (ip, port) ->
     exists l' id route target s', run [t] l = Some (false, l') /\ promoted t l h id ip port route target /\
       seen l' h = (Some (Out.Connecting (id, (route, target))), Some (Tcp s')) /\ state s' = tcp.Established) /\
  (forall id route target s ps ts t us, seen l h = (Some (Out.Connecting (id, (route, target))), Some (Tcp s)) ->
     state s = tcp.Established -> ending_of (inner ps) = EEof -> P (inner ps) -> Forall (working origin) (ts ++ t :: us) ->
     Forall (awaits (id, (route, target)) ps) ts -> completes (id, (route, target)) ps t ->
     (forall l', run (ts ++ [t]) l = Some (false, l') -> blen (remaining ps) < Z.of_nat (ready_turns h us l')) ->
     @tunnel T _ (network id) route target ps /\ delivered_all h (remaining ps) (ts ++ t :: us) l).
Proof.
  intros Hinv Hopen Hrel. split.
  - intros t created s ip port Hw Hseen Hs Hep. by eapply (turn_listening origin).
  - intros id route target s ps ts t us Hseen Hs Hend HP Hw Haw Hc Hfair.
    split; [|by eapply (connecting_delivered origin P)].
    apply Forall_app in Hw as [_ [((Hr & _) & (r & Hin & _) & _) _]%Forall_cons].
    unfold completes in Hc. rewrite Forall_forall in Hr, Hc. destruct (Hr r Hin) as [_ Hp], (Hc r Hin) as [_ Hd].
    apply Hp in Hd as [expired Hd]. symmetry in Hd. by apply connect_establishes in Hd as (_ & ? & _).
Qed.

(** C17. A connection that cannot be made is reset: when the task that connects
    it fails, panics or times out, or its application has gone in the meantime,
    the round that finds out aborts the socket and wakes the loop, and the next
    tick removes the connection with its socket, whatever else it does. *)
Theorem failed_connection_removed {T S U I F} `{TcpStreamLaws T} `{TcpSocketOps S I} `{!TcpSocketLaws S I}
    `{UdpSocketLaws U} `{SocketAlloc S U} `{IterOrder} `{RegexEngine} `{TunFd F} `{InterfaceOps I F S U}
    `{!InterfaceLaws I F S U} `{!Network T} (origin : Pub.peer -> T -> Prop)
    (l : @EventLoop T S U I F _) r h task s :
  loop_inv origin l -> sound_round origin r -> changed r = false ->
  seen l h = (Some (Out.Connecting task), Some (Tcp s)) -> fails (poll_task r) task s ->
  exists l1, select_round r l = Some (true, l1) /\ loop_inv origin l1 /\
    seen l1 h = (Some Out.Closing, Some (Tcp (abort s))) /\ state (abort s) = tcp.Closed /\
    forall now, exists l2, tick now l1 = Some l2 /\ seen l2 h = (None, None).
Proof.
  intros Hinv Hr Hch Hst Hf. destruct (round_fails origin r l h task s Hinv Hr Hch Hst Hf) as (l1 & E1 & J1 & G1).
  exists l1. split_and!; [done|done|done|apply abort_closed|]. intros now.
  destruct (tick_removes origin now l1 h J1) as (l2 & E2 & _ & G2); [by rewrite G1|]. by exists l2.
Qed.

(** C18. Handshakes are bounded in time: after every tick, which always ends, no
    listener still waits for an application that sent its SYN 32 seconds
    or more before the tick, and no accepted connection still waits for a
    program in the namespace to answer after that time. *)
Theorem handshakes_expire {T S U I F} `{TcpStreamLaws T} `{TcpSocketOps S I} `{!TcpSocketLaws S I} `{UdpSocketLaws U}
    `{SocketAlloc S U} `{IterOrder} `{RegexEngine} `{TunFd F} `{InterfaceOps I F S U}
    `{!InterfaceLaws I F S U} `{!Network T} (origin : Pub.peer -> T -> Prop)
    (l : @EventLoop T S U I F _) now : loop_inv origin l ->
  exists l', tick now l = Some l' /\
    (forall h created, Out.states (outbound l') !! h = Some (Out.Listening created) -> now 3%nat - created < 32000) /\
    (forall h stream peer created, Pub.states (published l') !! h = Some (Pub.Connecting stream peer created) ->
       now 4%nat - created < 32000).
Proof.
  intros Hinv. destruct (tick_ok origin now l Hinv) as (l' & E & _). exists l'. split; [done|].
  destruct (tick_expires origin now l l' Hinv E) as [E1 E2].
  unfold TCP_HANDSHAKE_TIMEOUT, elapsed in *. split.
  - intros h created G. specialize (E1 h created G). lia.
  - intros h stream peer created G. specialize (E2 h stream peer created G). lia.
Qed.

(** ** Witnesses *)

(** A stack that completes every handshake at the endpoint [at_] and gets
    everything acknowledged. *)
Definition sim_serve (at_ : endpoint) {U} (s : socket sim_tcp U) : socket sim_tcp U :=
  match s with
  | Tcp s => if bool_decide (sk_state s = tcp.Listen \/ sk_state s = tcp.SynSent)
             then Tcp (mkSimTcp tcp.Established (Some at_) [] [] (sk_delivered s) (sk_accepted s) 65536)
             else Tcp (mkSimTcp (sk_state s) (sk_local s) (sk_rx s) [] (sk_delivered s) (sk_accepted s) 65536)
  | Udp u => Udp u
  end.

Definition serving_iface (at_ : endpoint) F U : InterfaceOps sim_iface F sim_tcp U :=
  sim_iface_ops (fun d ss => (mkTunDevice (fd d) [], sim_serve at_ <$> ss)).

Lemma serving_iface_laws at_ F U :
  @InterfaceLaws sim_iface F sim_tcp U (sim_tcp_on sim_iface) (serving_iface at_ F U).
Proof.
  apply sim_iface_laws. intros d ss. cbn [snd]. split.
  - intros h. rewrite lookup_fmap. destruct (ss !! h) as [[s|u]|]; simpl; [|done|done]. by case_bool_decide.
  - intros h s s'. unfold get_tcp. rewrite lookup_fmap. destruct (ss !! h) as [[s0|u]|]; simpl; try done.
    intros [= ->]. case_bool_decide as Hst; intros [= <-]; (split_and!; [done|done|]).
    + intros Hp. simpl in Hp. by destruct Hst as [E|E]; rewrite E in Hp.
    + intros Hp. split; [done|by left].
Qed.

#[local] Instance served_iface : InterfaceOps sim_iface (list bytes) sim_tcp sim_udp := serving_iface demo_endpoint _ _.

Lemma served_stays_open h : @stays_open sim_tcp sim_udp sim_iface (list bytes) (sim_tcp_on _) served_iface h.
Proof.
  intros s y (i & now & d & ss & i' & d' & ss' & E & Hx & Hy) Hs. injection E as <- <- <-.
  rewrite lookup_fmap, Hx in Hy. simpl in Hy, Hs. rewrite Hs in Hy. rewrite bool_decide_eq_false_2 in Hy by naive_solver.
  subst y. eexists. split; [done|]. split; [done|]. cbn. unfold sim_endpoint. cbn. by rewrite Hs.
Qed.

(** A SYN for 10.1.2.3:443 arrives, and the server behind the direct route
    greets and closes. *)
Definition closing_net : Network sim := fun _ addr =>
  match addr with ToIp _ _ => Ready (Ok (mkSim (str "WELCOME") EEof [])) | _ => Ready (Err (OtherIo 111)) end.

Definition closing_poll (task : JoinHandle Out.job) : @Out.task_poll sim :=
  Out.Completed (@connect sim _ (closing_net (fst task)) false (fst (snd task)) (snd (snd task))).

Definition busy_turn : @turn sim := mkTurn false false [mkRound [] false closing_poll true false] [] (fun _ => 0).

Abbreviation served_loop := (@EventLoop sim sim_tcp sim_udp sim_iface (list bytes) literal_engine) (only parsing).

Definition served_run (turns : list (@turn sim)) (l : served_loop) : option (bool * served_loop) :=
  @run sim sim_tcp sim_udp sim_iface (list bytes) sim_ops (sim_tcp_on _) sim_udp_ops (fresh_alloc sim_tcp sim_udp)
    elements_order literal_engine queue_fd served_iface turns l.

(** The loop on a stack, after its first turn. *)
Definition started (io : InterfaceOps sim_iface (list bytes) sim_tcp sim_udp) : served_loop :=
  match @EventLoop_new sim sim_tcp sim_udp sim_iface (list bytes) sim_udp_ops (fresh_alloc sim_tcp sim_udp)
    literal_engine queue_fd io 5 true [demo_syn] demo_config [] with
  | Some (Ok l) =>
      match @run sim sim_tcp sim_udp sim_iface (list bytes) sim_ops (sim_tcp_on _) sim_udp_ops
        (fresh_alloc sim_tcp sim_udp) elements_order literal_engine queue_fd io [busy_turn] l with
      | Some (_, l) => l
      | None => demo_loop Pool.new
      end
  | _ => demo_loop Pool.new
  end.

Definition served_start : served_loop := started served_iface.

Definition served_task : JoinHandle Out.job := (0%nat, (Direct, Ip (V4 (ipv4_new 10 1 2 3)) 443)).

Lemma busy_working : @working sim sim_ops closing_net Pub.any_origin busy_turn.
Proof.
  split; [split; [|constructor]|split; [|reflexivity]].
  - constructor; [|constructor]. split; [constructor|]. intros id route target r [= <-]. by exists false.
  - eexists. split; [left|reflexivity].
Qed.

Lemma started_inv io : @InterfaceLaws sim_iface (list bytes) sim_tcp sim_udp (sim_tcp_on sim_iface) io ->
  @loop_inv sim sim_tcp sim_udp sim_iface (list bytes) sim_ops (sim_tcp_on _) literal_engine
    closing_net Pub.any_origin (started io).
Proof.
  intros Hio. pose proof (sim_tcp_on_laws sim_iface).
  destruct (@EventLoop_new_ok sim sim_tcp sim_udp sim_iface (list bytes) sim_ops (sim_tcp_on _) sim_udp_ops
    (fresh_alloc sim_tcp sim_udp) literal_engine queue_fd io closing_net Pub.any_origin _ _ _ _ 5 true
    [demo_syn] demo_config []) as (r & E & Hr).
  { exact Out.demo_routes. }
  unfold started. rewrite E. destruct r as [l|[]]; [|by exfalso|by exfalso].
  destruct Hr as [Hinv _].
  destruct (@run_ok sim sim_tcp sim_udp sim_iface (list bytes) sim_ops (sim_tcp_on _) sim_udp_ops
    (fresh_alloc sim_tcp sim_udp) elements_order literal_engine queue_fd io closing_net Pub.any_origin _ _ _ _
    [busy_turn] l) as (b & l' & E' & Hinv' & _); [|done|].
  { constructor; [apply busy_working|constructor]. }
  by rewrite E'.
Qed.

(** The application takes what it gets in nine turns. *)
Lemma served_ready l' : served_run [busy_turn] served_start = Some (false, l') ->
  @ready_turns sim sim_tcp sim_udp sim_iface (list bytes) sim_ops (sim_tcp_on _) sim_udp_ops (fresh_alloc sim_tcp sim_udp)
    elements_order literal_engine queue_fd served_iface 1 (repeat busy_turn 8) l' = 8%nat.
Proof.
  assert (match served_run [busy_turn] served_start with
    | Some (b, l') => @ready_turns sim sim_tcp sim_udp sim_iface (list bytes) sim_ops (sim_tcp_on _) sim_udp_ops
        (fresh_alloc sim_tcp sim_udp) elements_order literal_engine queue_fd served_iface 1 (repeat busy_turn 8) l'
    | None => 0%nat end = 8%nat) as E by (vm_compute; reflexivity).
  intros E'. by rewrite E' in E.
Qed.

Lemma connection_served_witness :
  @delivered_all sim sim_tcp sim_udp sim_iface (list bytes) sim_ops (sim_tcp_on _) sim_udp_ops
    (fresh_alloc sim_tcp sim_udp) elements_order literal_engine queue_fd served_iface 1 (str "WELCOME")
    ([] ++ busy_turn :: repeat busy_turn 8) served_start.
Proof.
  assert (exists s, seen served_start 1 = (Some (Out.Connecting served_task), Some (Tcp s)) /\ sk_state s = tcp.Established)
    as (s & Hseen & Hs) by (eexists; vm_compute; split; reflexivity).
  destruct (@connection_served sim sim_tcp sim_udp sim_iface (list bytes) sim_ops sim_laws (sim_tcp_on _)
    (sim_tcp_on_laws _) sim_udp_ops sim_udp_laws (fresh_alloc sim_tcp sim_udp) elements_order literal_engine
    queue_fd served_iface (serving_iface_laws _ _ _) closing_net (sim_tcp_on_prompt _) Pub.any_origin sim_closed
    served_start 1 (started_inv _ (serving_iface_laws _ _ _)) (served_stays_open 1) sim_reliable) as [_ Hserved].
  apply (Hserved 0%nat Direct (Ip (V4 (ipv4_new 10 1 2 3)) 443) s (ProxyStream_new (mkSim (str "WELCOME") EEof []) [])
    [] busy_turn (repeat busy_turn 8)).
  - exact Hseen.
  - exact Hs.
  - reflexivity.
  - reflexivity.
  - cbn [app repeat]. repeat (constructor; [exact busy_working|]). constructor.
  - constructor.
  - constructor; [|constructor]. split; reflexivity.
  - intros l' E. change (served_run [busy_turn] served_start = Some (false, l')) in E.
    rewrite (served_ready l' E). vm_compute. reflexivity.
Defined.

(** The handshake of a SYN never goes on: 40 seconds later, its listener is gone. *)
Lemma handshakes_expire_witness : exists created l',
  Out.states (outbound (started (idle_iface _ _))) !! 1%nat = Some (Out.Listening created) /\
  @tick sim sim_tcp sim_udp sim_iface (list bytes) sim_ops (sim_tcp_on _) sim_udp_ops
    (fresh_alloc sim_tcp sim_udp) elements_order literal_engine queue_fd (idle_iface _ _) (fun _ => created + 40000)
    (started (idle_iface _ _)) = Some l' /\
  Out.states (outbound l') !! 1%nat <> Some (Out.Listening created).
Proof.
  exists 0.
  destruct (@handshakes_expire sim sim_tcp sim_udp sim_iface (list bytes) sim_ops sim_laws (sim_tcp_on _)
    (sim_tcp_on_laws _) sim_udp_ops sim_udp_laws (fresh_alloc sim_tcp sim_udp) elements_order literal_engine
    queue_fd (idle_iface _ _) (idle_iface_laws _ _) closing_net Pub.any_origin (started (idle_iface _ _))
    (fun _ => 0 + 40000) (started_inv _ (idle_iface_laws _ _))) as (l' & E & Hout & _).
  exists l'. split; [vm_compute; reflexivity|]. split; [exact E|]. intros G. specialize (Hout _ _ G). lia.
Defined.

(** The task runs into its timeout: the socket is reset, and gone a tick later. *)
Definition late_round : @round sim :=
  mkRound [] false (fun task => Out.Completed (@connect sim _ (closing_net (fst task)) true (fst (snd task)) (snd (snd task)))) false false.

Lemma failed_connection_removed_witness : exists s l1 l2,
  @select_round sim sim_tcp sim_udp sim_iface (list bytes) sim_ops (sim_tcp_on _) elements_order literal_engine
    late_round served_start = Some (true, l1) /\
  seen l1 1 = (Some Out.Closing, Some (Tcp (sim_set_state s tcp.Closed (sk_local s)))) /\
  @tick sim sim_tcp sim_udp sim_iface (list bytes) sim_ops (sim_tcp_on _) sim_udp_ops
    (fresh_alloc sim_tcp sim_udp) elements_order literal_engine queue_fd served_iface (fun _ => 0) l1 = Some l2 /\
  seen l2 1 = (None, None).
Proof.
  assert (exists s, seen served_start 1 = (Some (Out.Connecting served_task), Some (Tcp s)))
    as (s & Hseen) by (eexists; vm_compute; reflexivity).
  destruct (@failed_connection_removed sim sim_tcp sim_udp sim_iface (list bytes) sim_ops sim_laws (sim_tcp_on _)
    (sim_tcp_on_laws _) sim_udp_ops sim_udp_laws (fresh_alloc sim_tcp sim_udp) elements_order literal_engine
    queue_fd served_iface (serving_iface_laws _ _ _) closing_net Pub.any_origin served_start late_round 1
    served_task s (started_inv _ (serving_iface_laws _ _ _))) as (l1 & E1 & _ & G1 & _ & Ht).
  - split; [constructor|]. intros id route target r [= <-]. by exists true.
  - reflexivity.
  - exact Hseen.
  - left. eexists. vm_compute. reflexivity.
  - destruct (Ht (fun _ => 0)) as (l2 & E2 & G2). exists s, l1, l2. split; [exact E1|]. split; [exact G1|].
    split; [exact E2|exact G2].
Defined.
