(* ===== verification/Relaying.v ===== *)
(** * Connections from end to end (src/src/event_loop.rs with its components)

    The history of every connection of the loop, turn by turn: it was promoted
    in one turn, to the target that its address stood for in this turn, and has
    been served ever since by the task that this turn spawned and by the tunnel
    which that task brought.  And the history of a name: it is asked for in a
    datagram, answered with an address, and a connection to this address in any
    later turn goes to the name. *)

From S2P Require Import Prelude RustStr RustNet FakeDns ProxyConfig Rule Publish Config Stream Connect.
From S2P Require Import Tun Smoltcp Dns Relay Outbound OutboundSteps Published PublishedSteps EventLoop EndToEnd Lifecycle.

Section Relaying.
Context {T S U I F : Type} `{TcpStreamOps T} `{TcpSocketOps S I} `{UdpSocketOps U} `{SocketAlloc S U}
  `{IterOrder} `{RegexEngine} `{TunFd F} `{InterfaceOps I F S U} `{!Network T}.
Variable origin : Pub.peer -> T -> Prop.
Context `{!TcpStreamLaws T} `{!TcpSocketLaws S I} `{!UdpSocketLaws U} `{!InterfaceLaws I F S U}.
Implicit Types l : @EventLoop T S U I F _.
Implicit Types x y z : option (@Out.State T) * option (socket S U).

(** ** The names and the configuration between the DNS rounds *)

Definition kept l l' : Prop := config l' = config l /\ dns l' = dns l.

Lemma select_round_kept r l finished l' : select_round r l = Some (finished, l') -> kept l l'.
Proof.
  unfold select_round. destruct (changed r); [by intros [= _ <-]|].
  destruct (Out.poll_ready _ _) as [[b1 w1]|]; [|done]. cbn [mbind option_bind].
  destruct (Pub.poll_ready _) as [[b2 w2]|]; [|done]. cbn [mbind option_bind]. case_if; by intros [= _ <-].
Qed.

Lemma select_kept rs l finished l' : select rs l = Some (finished, l') -> kept l l'.
Proof.
  revert l. induction rs as [|r rs IH]; intros l; cbn [select]; [by intros [= _ <-]|].
  destruct (select_round r l) as [[b l1]|] eqn:E; [|done]. cbn [mbind option_bind].
  apply select_round_kept in E as [Ec Ed]. destruct b; [by intros [= _ <-]|]. intros [Gc Gd]%IH.
  unfold kept. by rewrite Gc, Gd.
Qed.

Lemma poll_interface_kept now l : kept l (poll_interface now l).
Proof. unfold poll_interface. by destruct (iface_poll _ _ _ _) as [[i d] ss]. Qed.

Lemma before_dns_kept t l l' : before_dns t l = Some l' -> kept l l'.
Proof.
  unfold before_dns, wait_for_work, tick_front. destruct (shutdown_before t); [done|].
  destruct (select _ _) as [[b l1]|] eqn:E; [|done]. cbn [mbind option_bind]. apply select_kept in E as [Ec Ed].
  destruct b; [|done]. destruct (shutdown_after t); [done|]. cbv zeta.
  destruct (Out.observe_syns _ _ _) as [w|]; [|done]. cbn [mbind option_bind]. intros [= <-].
  destruct (poll_interface_kept (clock t 2%nat) (let l0 := with_out (read_device (accept_arrivals (late_arrivals t) l1)) w in
    with_pub l0 (Pub.attach_accepted (clock t 1%nat) (pub_world l0)))) as [Gc Gd].
  split; [etrans; [exact Gc|exact Ec]|etrans; [exact Gd|exact Ed]].
Qed.

Lemma process_dns_config l l' : process_dns l = Some l' -> config l' = config l.
Proof. unfold process_dns. destruct (dns_process _ _) as [[d ss]|]; [|done]. by intros [= <-]. Qed.

Lemma at_process_config t l l' : at_process t l = Some l' -> config l' = config l.
Proof.
  unfold at_process. destruct (before_dns t l) as [lf|] eqn:E; [|done]. cbn [mbind option_bind].
  apply before_dns_kept in E as [<- _]. apply process_dns_config.
Qed.

Lemma tick_back_kept now l l' : tick_back now l = Some l' -> kept l l'.
Proof.
  unfold tick_back. destruct (Out.process _ _ _ _) as [w5|]; [|done]. cbn [mbind option_bind].
  destruct (Pub.process _ _) as [w6|]; [|done]. cbn [mbind option_bind].
  destruct (Out.cleanup _) as [w8|]; [|done]. cbn [mbind option_bind].
  destruct (Pub.cleanup _) as [w9|]; [|done]. cbn [mbind option_bind]. intros [= <-].
  exact (poll_interface_kept (now 5%nat) (with_pub (with_out l w5) w6)).
Qed.

(** ** What becomes of a connection *)

(** The task [task] is on its way, or the tunnel [ps0] is being relayed. *)
Definition serves (task : JoinHandle Out.job) (ps0 : ProxyStream T) x : Prop :=
  match x with
  | (Some (Out.Connecting task'), _) => task' = task
  | (Some (Out.Established c), Some (Tcp s)) => Out.relayed ps0 c s
  | _ => False
  end.

(** A connection with a task has had it before; one with a tunnel has had it
    before, and has relayed it since, or has had the task whose result it is. *)
Definition continues x y : Prop :=
  match y with
  | (Some (Out.Connecting task), _) => x.1 = Some (Out.Connecting task)
  | (Some (Out.Established c), Some (Tcp s)) =>
      (exists id route target ps0, x.1 = Some (Out.Connecting (id, (route, target))) /\
         @connect T _ (network id) false route target = Ok ps0 /\ Out.relayed ps0 c s) \/
      (exists c0 s0, x = (Some (Out.Established c0), Some (Tcp s0)) /\
         forall ps0, Out.relayed ps0 c0 s0 -> Out.relayed ps0 c s)
  | _ => True
  end.

#[local] Instance continues_preorder : PreOrder continues.
Proof.
  split.
  - intros [[[]|] [[]|]]; simpl; try done. right. by eauto.
  - intros x y z Hxy. unfold continues at 1 2.
    destruct z as [[[|task|c|]|] k]; try done.
    + destruct y as [sy ky]. simpl. by intros ->.
    + destruct k as [[s|]|]; try done. intros [(id & route & target & ps0 & Hy & G)|(c0 & s0 & -> & G)].
      * left. exists id, route, target, ps0. split; [|done]. destruct y as [sy ky]. simpl in Hy. by subst sy.
      * destruct Hxy as [(id & route & target & ps0 & Hx & Hc & Hr)|(c1 & s1 & -> & G1)]; [left|right; by eauto 10].
        exists id, route, target, ps0. by split_and!; [|done|apply G].
Qed.

(** The same state, on a socket that no byte has crossed meanwhile. *)
Lemma continues_history st s s' : delivered s' = delivered s -> accepted s' = accepted s ->
  continues (Some st, Some (Tcp s)) (Some st, Some (Tcp s')).
Proof.
  intros Hd Ha. destruct st as [|task|c|]; simpl; try done. right. exists c, s. split; [done|].
  unfold Out.relayed. by rewrite Hd, Ha.
Qed.

Lemma continues_absent x y : y.1 = None \/ (exists created, y.1 = Some (Out.Listening created)) -> continues x y.
Proof. destruct y as [st k]. simpl. by intros [->|[created ->]]. Qed.

(** ** Waits *)

(** Polling the tasks. *)
Lemma polled_continues l poll h : loop_inv origin l -> Out.poll_sound poll ->
  continues (seen l h) (task_polled poll (seen l h)).
Proof.
  intros Hinv Hp. destruct (seen l h) as [[st|] k] eqn:Hseen; [|by destruct k as [[]|]].
  destruct (seen_socket origin l h st Hinv) as [s Hs]; [by rewrite Hseen|]. rewrite Hseen in Hs. injection Hs as ->.
  destruct st as [created|[id [route target]]|c|]; try by apply (reflexivity (R := continues)).
  injection Hseen as Hst Hs%get_tcp_Some. destruct (Out.oi_life _ _ (li_out _ _ Hinv) h _ s Hst Hs) as [[Hd Ha] _].
  simpl. destruct (poll _) as [| |[ps|e]] eqn:Ep; [by case_if|done| |done].
  apply Hp in Ep as [expired Ep]. symmetry in Ep. pose proof Ep as Hexp. apply connect_establishes in Hexp as (-> & _ & _).
  left. exists id, route, target, ps. split_and!; [done..|]. split; simpl; [by rewrite Hd, app_nil_r|by rewrite Ha].
Qed.

Lemma select_round_continues r l finished l' h : loop_inv origin l -> sound_round origin r ->
  select_round r l = Some (finished, l') -> loop_inv origin l' /\ continues (seen l h) (seen l' h).
Proof.
  intros Hinv Hr E. destruct (select_round_ok origin r l Hr Hinv) as (b & l1 & E' & J & _).
  rewrite E in E'. injection E' as <- <-. split; [done|]. revert E. unfold select_round. destruct Hr as [Ha Hp].
  destruct (accept_arrivals_ok origin _ l Ha Hinv) as [J0 _].
  change (seen l h) with (seen (accept_arrivals (arrivals r) l) h).
  set (l0 := accept_arrivals (arrivals r) l) in *. cbv zeta. destruct (changed r); [by intros [= _ <-]|].
  destruct (Out.poll_ready_ok (config l0) (poll_task r) (out_world l0) Hp (li_out _ _ J0))
    as (b1 & w1 & E1 & Hi1 & Hs1). rewrite E1. cbn [mbind option_bind].
  destruct (out_phase origin l0 w1 J0 Hi1 Hs1) as [J1 _].
  destruct (Pub.pub_poll_ready_ok origin (pub_world (with_out l0 w1)) (li_pub _ _ J1)) as (b2 & w2 & -> & Hi2 & Hs2).
  cbn [mbind option_bind]. intros E. assert (l' = with_pub (with_out l0 w1) w2) as -> by (revert E; case_if; by intros [= _ <-]).
  pose proof (poll_ready_moves _ _ _ _ _ h (li_out _ _ J0) E1) as G1.
  change (seen (with_out l0 w1) h = task_polled (poll_task r) (seen l0 h)) in G1.
  destruct (seen (with_out l0 w1) h).1 as [st|] eqn:Hst.
  - rewrite (pub_phase_seen origin (with_out l0 w1) w2 h J1 Hi2 Hs2) by (by eapply out_handles_seen).
    rewrite G1. by apply polled_continues.
  - apply continues_absent. by left.
Qed.

Lemma select_continues rs l finished l' h : loop_inv origin l -> Forall (sound_round origin) rs ->
  select rs l = Some (finished, l') -> loop_inv origin l' /\ continues (seen l h) (seen l' h).
Proof.
  intros Hinv Hrs. revert l Hinv. induction Hrs as [|r rs Hr _ IH]; intros l Hinv; cbn [select].
  { intros [= _ <-]. by split. }
  destruct (select_round r l) as [[b l1]|] eqn:E1; [|done]. cbn [mbind option_bind].
  destruct (select_round_continues _ _ _ _ h Hinv Hr E1) as [J1 C1].
  destruct b; [by intros [= _ <-]|]. intros E2. destruct (IH l1 J1 E2) as [J2 C2]. split; [done|by etrans].
Qed.

Lemma wait_continues before after rs l r l' h : loop_inv origin l -> Forall (sound_round origin) rs ->
  wait_for_work before after rs l = Some (r, l') -> loop_inv origin l' /\ continues (seen l h) (seen l' h).
Proof.
  intros Hinv Hrs. unfold wait_for_work. destruct before; [by intros [= _ <-]|].
  destruct (select rs l) as [[b l1]|] eqn:E; [|done]. cbn [mbind option_bind]. intros [= _ <-]. by eapply select_continues.
Qed.

(** ** Turns *)

(** What one run of the stack makes of a connection. *)
Lemma iface_continues h x y st : x.1 = Some st -> y.1 = Some st -> (exists s, x.2 = Some (Tcp s)) ->
  polled h x.2 y.2 -> continues x y.
Proof.
  destruct x as [sx kx], y as [sy ky]. cbn [fst snd]. intros -> -> [s ->] Hp.
  destruct (polled_history _ _ _ Hp) as (s' & -> & Hd & Ha). by apply continues_history.
Qed.

Lemma tick_front_continues now l l' h : loop_inv origin l -> tick_front now l = Some l' -> continues (seen l h) (seen l' h).
Proof.
  intros Hinv E. destruct (seen l h).1 as [st|] eqn:Hst.
  - destruct (tick_front_seen origin now l l' h st Hinv E Hst) as [Hst' Hp].
    destruct (seen_socket origin l h st Hinv Hst) as [s Hs]. eapply iface_continues; [done..| |done]. exists s. by rewrite Hs.
  - apply continues_absent. by eapply (tick_front_free origin).
Qed.

Lemma process_dns_continues l l' h : loop_inv origin l -> process_dns l = Some l' -> continues (seen l h) (seen l' h).
Proof.
  intros Hinv E. destruct (seen l h).1 as [st|] eqn:Hst.
  - rewrite (process_dns_seen origin l l' h Hinv E) by (by eapply out_handles_seen). done.
  - apply continues_absent. left. by rewrite (process_dns_states _ _ h E).
Qed.

(** What [process] makes of a connection: it goes on, or it is promoted. *)
Lemma processed_continues l now d s st y h : loop_inv origin l -> seen l h = (Some st, Some (Tcp s)) ->
  processed now d (config l) (seen l h) y ->
  continues (seen l h) y \/
  exists created id ip port route, st = Out.Listening created /\ (state s = tcp.Established \/ state s = tcp.CloseWait) /\
    local_endpoint s = Some (ip, port) /\ proxy_for (config l) (target_for d ip port) = PSome route /\
    y.1 = Some (Out.Connecting (id, (route, target_for d ip port))).
Proof.
  intros Hinv Hseen. rewrite Hseen. destruct st as [created|task|c|]; unfold processed.
  - case_bool_decide as Hc.
    { intros (ip & port & route & id & Hl & Hr & ->). right. by exists created, id, ip, port, route. }
    intros G. left. revert G. case_bool_decide; [by intros ->|]. case_if; by intros ->.
  - intros ->. by left.
  - intros (c' & s' & closing & E & ->). left. destruct closing; [done|]. right. exists c, s. split; [done|].
    injection Hseen as Hst _. destruct (Out.shuttle_ok c s) as (c1 & s1 & b & E1 & _ & Hcons & _).
    { by eapply (Out.oi_contexts _ _ (li_out _ _ Hinv)). }
    rewrite E in E1. injection E1 as <- <- _. intros ps0 Hr. by eapply Out.relayed_step.
  - intros ->. by left.
Qed.

(** From the DNS replies on: a connection goes on, or it is promoted. *)
Lemma tick_back_continues now l l' h : loop_inv origin l -> tick_back now l = Some l' ->
  continues (seen l h) (seen l' h) \/
  exists created s id ip port route, seen l h = (Some (Out.Listening created), Some (Tcp s)) /\
    (state s = tcp.Established \/ state s = tcp.CloseWait) /\ local_endpoint s = Some (ip, port) /\
    proxy_for (config l) (target_for (dns l) ip port) = PSome route /\
    (seen l' h).1 = Some (Out.Connecting (id, (route, target_for (dns l) ip port))).
Proof.
  intros Hinv E. destruct (tick_back_seen origin now l Hinv) as (w & l1 & Ew & E1 & _ & Hend). rewrite E in E1.
  injection E1 as <-. specialize (Hend h).
  destruct (Out.process_ok (config l) (now 3%nat) (dns l) (out_world l) (li_routes _ _ Hinv) (li_out _ _ Hinv)) as (w' & Ew' & Hi & _).
  rewrite Ew in Ew'. injection Ew' as <-.
  pose proof (process_moves (now 3%nat) (dns l) (config l) (out_world l) w h (li_out _ _ Hinv) Ew) as Hm.
  change (entry (out_world l) h) with (seen l h) in Hm.
  destruct (Out.states (Out.self w) !! h) as [st'|] eqn:Hst'; [|left; apply continues_absent; by left].
  assert (seen l' h = (None, None) \/ (seen l' h).1 = Some st' /\ polled h (Out.sockets w !! h) (seen l' h).2)
    as [Hnone|[Hst2 Hp]] by (destruct st'; by eauto); [left; apply continues_absent; rewrite Hnone; by left|].
  destruct (entry_socket _ w h st' Hi Hst') as [s' Hs'].
  assert (continues (entry w h) (seen l' h)) as Hc.
  { eapply iface_continues; [exact Hst'|exact Hst2| |exact Hp]. exists s'. by rewrite Hs'. }
  destruct (seen l h).1 as [st|] eqn:Hst.
  2: { left. rewrite (surjective_pairing (seen l h)), Hst in Hm. simpl in Hm. rewrite Hm in Hs'. done. }
  destruct (seen_socket origin l h st Hinv Hst) as [s Hs].
  destruct (processed_continues l _ _ s st _ h Hinv Hs Hm) as [G|(created & id & ip & port & route & -> & G & Hl & Hr & Hw)].
  - left. by etrans.
  - right. exists created, s, id, ip, port, route. split_and!; try done. rewrite Hst2, <- Hst'. exact Hw.
Qed.

Lemma before_dns_continues t l l' h : loop_inv origin l -> sound_turn origin t -> before_dns t l = Some l' ->
  loop_inv origin l' /\ continues (seen l h) (seen l' h).
Proof.
  intros Hinv [Hr Hl]. unfold before_dns. destruct (wait_for_work _ _ _ l) as [[[] l1]|] eqn:E; try done.
  destruct (wait_continues _ _ _ _ _ _ h Hinv Hr E) as [J1 C1]. destruct (accept_arrivals_ok origin _ l1 Hl J1) as [J2 _].
  intros E2. destruct (tick_front_inv origin (clock t) _ J2) as (l2 & E2' & J & _). rewrite E2 in E2'. injection E2' as <-.
  split; [done|]. etrans; [exact C1|]. exact (tick_front_continues _ _ _ h J2 E2).
Qed.

Lemma work_turn_continues t l l' h : loop_inv origin l -> sound_turn origin t -> work_turn t l = Some l' ->
  loop_inv origin l' /\
  (continues (seen l h) (seen l' h) \/
   exists id ip port route target, promoted t l h id ip port route target /\
     (seen l' h).1 = Some (Out.Connecting (id, (route, target)))).
Proof.
  intros Hinv Ht E. pose proof E as E0. unfold work_turn, at_process in E.
  destruct (before_dns t l) as [lf|] eqn:Ef; [|done]. cbn [mbind option_bind] in E.
  destruct (process_dns lf) as [la|] eqn:Ea; [|done]. cbn [mbind option_bind] in E.
  destruct (before_dns_continues t l lf h Hinv Ht Ef) as [Jf Cf].
  destruct (process_dns_ok origin lf Jf) as (la' & Ea' & Ja & _). rewrite Ea in Ea'. injection Ea' as <-.
  destruct (tick_back_seen origin (clock t) la Ja) as (w & l1 & _ & E1 & J' & _). rewrite E in E1. injection E1 as <-.
  split; [done|]. destruct (tick_back_continues (clock t) la l' h Ja E) as [C|(created & s & id & ip & port & route & G)].
  - left. etrans; [exact Cf|]. etrans; [exact (process_dns_continues _ _ h Jf Ea)|exact C].
  - right. exists id, ip, port, route, (target_for (dns la) ip port). destruct G as (Hs & Hst & Hl & Hr & Hc).
    split; [|done]. exists la, l', created, s. split_and!; try done.
    + unfold at_process. by rewrite Ef.
    + by apply target_for_lookup, (dns_pool _ _ (li_dns _ _ Ja)).
    + rewrite <- Hr, (process_dns_config _ _ Ea). by destruct (before_dns_kept _ _ _ Ef) as [-> _].
Qed.

(** *** Histories *)

(** The connection [h] was promoted in one of the turns, with the task
    [(id, (route, target))], and has been served by it and its tunnel [ps0] ever
    since. *)
Definition served_since (turns : list (@turn T)) l (h id : nat) (route : ProxyConfig) (target : ProxyTarget)
    (ps0 : ProxyStream T) : Prop :=
  exists before t after l1 ip port, turns = before ++ t :: after /\ work_turns before l = Some l1 /\
    promoted t l1 h id ip port route target /\
    forall mid rest lm, after = mid ++ rest -> work_turns (before ++ t :: mid) l = Some lm ->
      serves (id, (route, target)) ps0 (seen lm h).

Lemma work_turns_app ts ts' l : work_turns (ts ++ ts') l = (l ← work_turns ts l; work_turns ts' l).
Proof.
  revert l. induction ts as [|t ts IH]; intros l; [done|]. cbn [app work_turns].
  destruct (work_turn t l); cbn [mbind option_bind]; [apply IH|done].
Qed.

Lemma served_since_snoc turns t l l' h id route target ps0 : work_turns (turns ++ [t]) l = Some l' ->
  served_since turns l h id route target ps0 -> serves (id, (route, target)) ps0 (seen l' h) ->
  served_since (turns ++ [t]) l h id route target ps0.
Proof.
  intros E (before & t1 & after & l1 & ip & port & -> & E1 & Hp & Hs) Hnow.
  exists before, t1, (after ++ [t]), l1, ip, port. rewrite <- app_assoc in E |- *. cbn [app] in E |- *.
  split_and!; [done..|]. intros mid rest lm Hsplit Em. destruct rest as [|r rest _] using rev_ind.
  - rewrite app_nil_r in Hsplit. subst mid. rewrite E in Em. by injection Em as <-.
  - rewrite app_assoc in Hsplit. apply app_inj_tail in Hsplit as [-> _]. by eapply Hs.
Qed.

(** Turns that are not made leave the history as it is. *)
Lemma served_since_rest turns rest l l' h id route target ps0 : work_turns turns l = Some l' ->
  (forall xs ys, rest = xs ++ ys -> is_Some (work_turns xs l') -> xs = []) ->
  served_since turns l h id route target ps0 -> served_since (turns ++ rest) l h id route target ps0.
Proof.
  intros E Hrest (before & t1 & after & l1 & ip & port & -> & E1 & Hp & Hs).
  exists before, t1, (after ++ rest), l1, ip, port. rewrite <- app_assoc. split_and!; [done..|].
  intros mid more lm Hsplit Em. apply app_eq_inv in Hsplit as [(k & -> & ->)|(k & -> & Hk)]; [by eapply Hs|].
  assert (k = []) as ->.
  { apply (Hrest _ _ Hk). rewrite cons_middle, !app_assoc, work_turns_app in Em.
    rewrite cons_middle, !app_assoc in E. rewrite <- (app_assoc _ [t1]) in E, Em. cbn [app] in E, Em.
    rewrite E in Em. cbn [mbind option_bind] in Em. by eexists. }
  rewrite app_nil_r in *. by apply (Hs after [] lm); [rewrite app_nil_r|].
Qed.

(** Every connection that has a task or a tunnel has a history. *)
Definition accounted (turns : list (@turn T)) l (h : nat) x : Prop :=
  match x with
  | (Some (Out.Connecting (id, (route, target))), _) => forall ps0, served_since turns l h id route target ps0
  | (Some (Out.Established c), Some (Tcp s)) => exists id route target ps0,
      @connect T _ (network id) false route target = Ok ps0 /\ Out.relayed ps0 c s /\
      served_since turns l h id route target ps0
  | _ => True
  end.

Lemma accounted_continues turns l h x y : accounted turns l h x -> continues x y -> accounted turns l h y.
Proof.
  destruct y as [[[|[id [route target]]|c|]|] ky]; try done.
  - destruct x as [sx kx]. cbn [continues fst]. by intros G ->.
  - destruct ky as [[s|]|]; try done. intros G [(id & route & target & ps0 & Hx & Hc & Hr)|(c0 & s0 & -> & Hr)].
    + destruct x as [sx kx]. cbn [fst] in Hx. subst sx. by exists id, route, target, ps0.
    + destruct G as (id & route & target & ps0 & Hc & Hr0 & Hs). exists id, route, target, ps0. by split_and!; [|apply Hr|].
Qed.

Lemma work_turns_accounted turns l h : loop_inv origin l -> (seen l h).1 = None -> Forall (sound_turn origin) turns ->
  forall l', work_turns turns l = Some l' -> loop_inv origin l' /\ accounted turns l h (seen l' h).
Proof.
  intros Hinv Hfree. induction turns as [|t turns IH] using rev_ind; intros Hts l' E.
  { injection E as <-. split; [done|]. destruct (seen l h) as [st k]. simpl in Hfree. by subst st. }
  apply Forall_app in Hts as [Hts [Ht _]%Forall_cons]. pose proof E as E0. rewrite work_turns_app in E.
  destruct (work_turns turns l) as [l1|] eqn:E1; [|done]. cbn [mbind option_bind work_turns] in E.
  destruct (work_turn t l1) as [l2|] eqn:E2; [|done]. cbn [mbind option_bind] in E. injection E as ->.
  destruct (IH Hts l1 eq_refl) as [J1 G1]. destruct (work_turn_continues t l1 l' h J1 Ht E2) as [J' [C|(id & ip & port & route & target & Hp & Hst)]].
  - split; [done|]. pose proof (accounted_continues _ _ _ _ _ G1 C) as G.
    destruct (seen l' h) as [[[|[id [route target]]|c|]|] k] eqn:Hs; try done.
    + intros ps0. eapply served_since_snoc; [done|apply G|]. by rewrite Hs.
    + destruct k as [[s|]|]; try done. destruct G as (id & route & target & ps0 & Hc & Hr & G). exists id, route, target, ps0.
      split_and!; [done..|]. eapply served_since_snoc; [done..|]. by rewrite Hs.
  - split; [done|]. destruct (seen l' h) as [sx k] eqn:Hs. cbn [fst] in Hst. subst sx. intros ps0.
    exists turns, t, [], l1, ip, port. split_and!; [done..|]. intros mid rest lm Hnil Em.
    symmetry in Hnil. apply app_eq_nil in Hnil as [-> ->]. rewrite E0 in Em. injection Em as <-. by rewrite Hs.
Qed.

Lemma EventLoop_new_seen nanos async_fd tun_fd config0 publishes l h :
  EventLoop_new nanos async_fd tun_fd config0 publishes = Some (Ok l) -> (seen l h).1 = None.
Proof.
  unfold EventLoop_new. destruct (TunDevice_new tun_fd) as [device|]; [|done].
  destruct (push_addr _ _) as [i1|]; [|done]. cbn [mbind option_bind].
  destruct (add_default_ipv4_route _ _) as [i2|]; [|done]. cbn [mbind option_bind]. destruct (negb async_fd); [done|].
  destruct (DnsInterceptor_new ∅) as [[d ss]|]; [|done]. cbn [mbind option_bind]. by intros [= <-].
Qed.

(** [run] makes its turns up to the wait that has not ended, or that ended with
    the shutdown. *)
Lemma run_split turns l ended l' : loop_inv origin l -> Forall (sound_turn origin) turns ->
  run turns l = Some (ended, l') ->
  exists made rest l1, turns = made ++ rest /\ work_turns made l = Some l1 /\ loop_inv origin l1 /\
    (forall xs ys, rest = xs ++ ys -> is_Some (work_turns xs l1) -> xs = []) /\
    loop_inv origin l' /\ forall h, continues (seen l1 h) (seen l' h).
Proof.
  intros Hinv Hts. revert l Hinv. induction Hts as [|t turns Ht Hts IH]; intros l Hinv.
  { intros [= _ <-]. exists [], [], l. do 3 (split; [done|]). split; [|done]. intros xs ys Hx _. by apply eq_sym, app_eq_nil in Hx as [-> _]. }
  intros E. destruct (work_turn t l) as [l1|] eqn:E1.
  - rewrite (work_turn_run _ _ _ _ E1) in E. destruct (work_turn_continues t l l1 0%nat Hinv Ht E1) as [J1 _].
    destruct (IH l1 J1 E) as (made & rest & l2 & -> & E2 & G). exists (t :: made), rest, l2. split; [done|].
    split; [|done]. cbn [work_turns]. by rewrite E1.
  - exists [], (t :: turns), l. do 3 (split; [done|]). split.
    { intros [|x xs] ys Hx [l2 E2]; [done|]. injection Hx as <- _. cbn [work_turns] in E2. by rewrite E1 in E2. }
    cbn [run] in E. destruct (wait_for_work _ _ _ l) as [[r l2]|] eqn:Ew; [|done]. cbn [mbind option_bind] in E.
    assert (forall h, loop_inv origin l2 /\ continues (seen l h) (seen l2 h)) as G
      by (intros h; eapply wait_continues; [done|apply Ht|done]).
    assert (r <> Work) as Hr.
    { intros ->. destruct Ht as [_ Hl]. destruct (accept_arrivals_ok origin _ l2 Hl (proj1 (G 0%nat))) as [J2 _].
      destruct (tick_ok origin (clock t) _ J2) as (l3 & E3 & _). rewrite tick_split in E3.
      unfold work_turn, at_process, before_dns in E1. rewrite Ew in E1. destruct (tick_front _ _) as [lf|]; [|done].
      cbn [mbind option_bind] in E1, E3. destruct (process_dns lf); [|done]. cbn [mbind option_bind] in E1, E3. congruence. }
    destruct r; [|done|]; injection E as _ <-; split; [apply (G 0%nat)|apply G|apply (G 0%nat)|apply G].
Qed.

(** ** Names *)

(** The names that the A queries ask for which a turn reads, and several. *)
Definition names_in (t : @turn T) l : list bytes :=
  match before_dns t l with
  | Some l => match get_udp (sockets l) (dns_handle (dns l)) with
              | Some u => omap (asked ∘ fst) (Dns.readable (udp_received u))
              | None => []
              end
  | None => []
  end.

Fixpoint names_asked (turns : list (@turn T)) l : list bytes :=
  match turns with
  | [] => []
  | t :: turns => names_in t l ++ match work_turn t l with Some l => names_asked turns l | None => [] end
  end.

Lemma at_process_pool t l la : loop_inv origin l -> sound_turn origin t -> at_process t l = Some la ->
  fake_dns (dns la) = Pool.resolve_all (fake_dns (dns l)) (names_in t l).
Proof.
  intros Hinv Ht. unfold at_process, names_in. destruct (before_dns t l) as [lf|] eqn:Ef; [|done]. cbn [mbind option_bind].
  destruct (before_dns_continues t l lf 0%nat Hinv Ht Ef) as [Jf _]. apply before_dns_kept in Ef as [_ <-].
  destruct (dns_socket _ _ (li_dns _ _ Jf)) as [u Hu]. rewrite Hu.
  destruct (process_dns_answers origin lf u Jf Hu) as (l1 & u' & replies & -> & _ & Hd & _).
  intros [= <-]. by rewrite Hd.
Qed.

Lemma work_turns_inv turns l l' : loop_inv origin l -> Forall (sound_turn origin) turns -> work_turns turns l = Some l' ->
  loop_inv origin l'.
Proof.
  intros Hinv Hts. revert l Hinv. induction Hts as [|t turns Ht _ IH]; intros l Hinv; cbn [work_turns]; [by intros [= <-]|].
  destruct (work_turn t l) as [l1|] eqn:E; [|done]. cbn [mbind option_bind]. apply IH.
  by destruct (work_turn_continues t l l1 0%nat Hinv Ht E) as [? _].
Qed.

Lemma work_turns_kept turns l l' : loop_inv origin l -> Forall (sound_turn origin) turns -> work_turns turns l = Some l' ->
  config l' = config l /\ fake_dns (dns l') = Pool.resolve_all (fake_dns (dns l)) (names_asked turns l).
Proof.
  intros Hinv Hts. revert l Hinv. induction Hts as [|t turns Ht _ IH]; intros l Hinv; cbn [work_turns names_asked]; [by intros [= <-]|].
  destruct (work_turn t l) as [l1|] eqn:E; [|done]. cbn [mbind option_bind]. intros E'.
  destruct (work_turn_continues t l l1 0%nat Hinv Ht E) as [J1 _]. destruct (IH l1 J1 E') as [-> ->].
  rewrite Pool.resolve_all_app. unfold work_turn in E. destruct (at_process t l) as [la|] eqn:Ea; [|done].
  cbn [mbind option_bind] in E. apply tick_back_kept in E as [-> ->].
  by rewrite (at_process_pool t l la Hinv Ht Ea), (at_process_config _ _ _ Ea).
Qed.

Lemma names_asked_app ts ts' l l' : work_turns ts l = Some l' -> names_asked (ts ++ ts') l = names_asked ts l ++ names_asked ts' l'.
Proof.
  revert l. induction ts as [|t ts IH]; intros l; cbn [app names_asked work_turns]; [by intros [= <-]|].
  destruct (work_turn t l); [|done]. cbn [mbind option_bind]. intros E%IH. by rewrite E, app_assoc.
Qed.

(** The pool as [process] finds it after several turns. *)
Lemma turns_pool ts t l l2 la : loop_inv origin l -> Forall (sound_turn origin) (ts ++ [t]) ->
  work_turns ts l = Some l2 -> at_process t l2 = Some la ->
  fake_dns (dns la) = Pool.resolve_all (fake_dns (dns l)) (names_asked (ts ++ [t]) l).
Proof.
  intros Hinv [Hts [Ht _]%Forall_cons]%Forall_app E Ea. pose proof (work_turns_inv ts l l2 Hinv Hts E) as J2.
  rewrite (at_process_pool t l2 la J2 Ht Ea), (names_asked_app _ _ _ _ E), Pool.resolve_all_app.
  destruct (work_turns_kept ts l l2 Hinv Hts E) as [_ ->]. cbn [names_asked]. f_equal.
  destruct (work_turn t l2); by rewrite app_nil_r.
Qed.

(** A name that is asked for among others. *)
Lemma asked_target self p0 before d after port : fake_dns self = Pool.resolve_all p0 (before ++ d :: after) ->
  Pool.reachable p0 -> Pool.domain_to_ip (Pool.resolve_all p0 before) !! d = None ->
  blen (before ++ d :: after) <= Pool.POOL_SIZE ->
  target_for self (snd (Pool.resolve (Pool.resolve_all p0 before) d)) port = Domain d port.
Proof.
  intros Hpool Hr Hnew Hlen. destruct self as [hd pool]. cbn [fake_dns] in Hpool. subst pool.
  rewrite Pool.resolve_all_app. change (d :: after) with ([d] ++ after). rewrite Pool.resolve_all_app.
  apply (target_stable _ d _ after); [by apply Pool.resolve_all_reachable|done| |done].
  rewrite blen_app, blen_cons in Hlen. pose proof (blen_nonneg before). lia.
Qed.

End Relaying.

(** ** Properties *)

(** C2. Relaying end to end: however the loop is started and however long it
    runs, each connection that is established in the end was promoted in one of
    the turns, in which its application had connected to some address: its
    target is the name that the pool had given this address to at that time,
    or the address itself if there is none, and its route the one that the rules
    give this target.  After every turn since then, the connection has been
    waiting for the task that this turn spawned, or relaying the one tunnel
    that this task brought.  The tunnel is what the route means for the target;
    it was sent, after its handshake, exactly what was taken from the
    application, and everything it brought after the handshake has gone to the
    application, is in the buffer, or is still to be read, in this order.  Each
    established published connection relays its peer's stream in the same
    way. *)
Theorem relay_end_to_end {T S U I F} `{TcpStreamLaws T} `{TcpSocketOps S I} `{!TcpSocketLaws S I} `{UdpSocketLaws U}
    `{SocketAlloc S U} `{IterOrder} `{RegexEngine} `{!RegexLaws} `{TunFd F} `{InterfaceOps I F S U}
    `{!InterfaceLaws I F S U} `{!Network T} (origin : Pub.peer -> T -> Prop)
    nanos async_fd (tun_fd : F) config0 specs publishes (turns : list (@turn T)) l ended l' :
  from_specs specs = Ok (rules config0) -> Forall (sound_turn origin) turns ->
  EventLoop_new (T := T) (S := S) (U := U) nanos async_fd tun_fd config0 publishes = Some (Ok l) ->
  run turns l = Some (ended, l') ->
  (forall h c, Out.states (outbound l') !! h = Some (Out.Established c) ->
     exists before t after l1 id ip port route target ps0 s,
       turns = before ++ t :: after /\ work_turns before l = Some l1 /\ promoted t l1 h id ip port route target /\
       (forall mid rest lm, after = mid ++ rest -> work_turns (before ++ t :: mid) l = Some lm ->
          serves (id, (route, target)) ps0 (seen lm h)) /\
       @connect T _ (network id) false route target = Ok ps0 /\ @tunnel T _ (network id) route target ps0 /\
       get_tcp (sockets l') h = Some s /\ sent (inner (Out.stream c)) = sent (inner ps0) ++ delivered s /\
       remaining ps0 = accepted s ++ Out.proxy_to_app c ++ remaining (Out.stream c)) /\
  published_relayed origin l'.
Proof.
  intros Hspecs Hturns Hnew Hrun. apply routes_all_from_specs in Hspecs.
  destruct (EventLoop_new_ok origin nanos async_fd tun_fd config0 publishes Hspecs) as (r & Hr & Hinv).
  rewrite Hnew in Hr. injection Hr as <-. destruct Hinv as (Hinv & _).
  destruct (run_split origin turns l ended l' Hinv Hturns Hrun) as (made & rest & l1 & -> & E1 & J1 & Hrest & J' & Hc).
  split; [|by apply loop_published_relayed]. intros h c Hst.
  destruct (seen_socket origin l' h (Out.Established c) J' Hst) as [s Hs]. apply Forall_app in Hturns as [Hmade _].
  pose proof (EventLoop_new_seen _ _ _ _ _ _ h Hnew) as Hfree.
  destruct (work_turns_accounted origin made l h Hinv Hfree Hmade l1 E1) as [_ G].
  apply (accounted_continues _ _ _ _ _ G) in Hc. rewrite Hs in Hc. destruct Hc as (id & route & target & ps0 & Hcon & [Hu Hd] & Hsv).
  apply (served_since_rest _ rest _ _ _ _ _ _ _ E1 Hrest) in Hsv as (before & t & after & l2 & ip & port & Hts & E2 & Hp & Hsv).
  exists before, t, after, l2, id, ip, port, route, target, ps0, s. split_and!; try done.
  - by apply connect_establishes in Hcon as (_ & ? & _).
  - injection Hs as _ Hs. by apply get_tcp_Some.
Qed.

(** C4. Names end to end: when, in any turn of a running loop, a query for a
    name that has no address yet is among the datagrams that the interceptor
    reads, the round takes an address for it from the pool, and the answer with
    this address is sent back to where the query came from, provided the
    socket has room for the round's replies.  From this turn on, as long as no
    more names have been asked for than the pool has addresses, every connection
    to this address is promoted to the name, through the route that the rules
    give the name. *)
Theorem names_end_to_end {T S U I F} `{TcpStreamLaws T} `{TcpSocketOps S I} `{!TcpSocketLaws S I} `{UdpSocketLaws U}
    `{SocketAlloc S U} `{IterOrder} `{RegexEngine} `{!RegexLaws} `{TunFd F} `{InterfaceOps I F S U}
    `{!InterfaceLaws I F S U} `{!Network T} (origin : Pub.peer -> T -> Prop)
    nanos async_fd (tun_fd : F) config0 specs publishes (turns : list (@turn T)) l l0 t0 lf u before query from after qid d :
  from_specs specs = Ok (rules config0) -> Forall (sound_turn origin) (turns ++ [t0]) ->
  EventLoop_new (T := T) (S := S) (U := U) nanos async_fd tun_fd config0 publishes = Some (Ok l) ->
  work_turns turns l = Some l0 -> before_dns t0 l0 = Some lf -> get_udp (sockets lf) (dns_handle (dns lf)) = Some u ->
  Dns.readable (udp_received u) = before ++ (query, from) :: after -> Wire.parse_query query = PSome (qid, d, 1) ->
  Pool.domain_to_ip (pool_after (fake_dns (dns lf)) before) !! d = None ->
  let ip := snd (Pool.resolve (pool_after (fake_dns (dns lf)) before) d) in
  let replies := replies_to (fake_dns (dns lf)) (Dns.readable (udp_received u)) in
  (exists la u' out, at_process t0 l0 = Some la /\ get_udp (sockets la) (dns_handle (dns la)) = Some u' /\
     udp_sent u' = udp_sent u ++ out /\
     forall room fits, takes_replies room fits -> Forall fits replies -> (length replies <= room u)%nat ->
       (Wire.build_a_response qid d ip, from) ∈ out) /\
  forall ts t later l2 h id port route target, ts ++ [t] = t0 :: later -> Forall (sound_turn origin) later ->
    work_turns ts l0 = Some l2 -> blen (names_asked (ts ++ [t]) l0) <= Pool.POOL_SIZE ->
    promoted t l2 h id ip port route target ->
    target = Domain d port /\ proxy_for config0 (Domain d port) = PSome route.
Proof.
  intros Hspecs [Hturns [Ht0 _]%Forall_cons]%Forall_app Hnew E0 Ef Hu Hq Hquery Hfresh ip replies.
  apply routes_all_from_specs in Hspecs.
  destruct (EventLoop_new_ok origin nanos async_fd tun_fd config0 publishes Hspecs) as (r & Hr & Hinv).
  rewrite Hnew in Hr. injection Hr as <-. destruct Hinv as (Hinv & Hc & _).
  pose proof (work_turns_inv origin turns l l0 Hinv Hturns E0) as J0.
  destruct (work_turns_kept origin turns l l0 Hinv Hturns E0) as [Hc0 _]. rewrite Hc in Hc0.
  destruct (before_dns_continues origin t0 l0 lf 0%nat J0 Ht0 Ef) as [Jf _]. split.
  - destruct (process_dns_answers origin lf u Jf Hu) as (la & u' & out & Ea & Hss & Hd & _ & _ & _ & Hs & Hroom).
    exists la, u', out. split_and!; [by unfold at_process; rewrite Ef|by rewrite Hss, Hd; apply get_udp_Some, lookup_insert_eq|done|].
    intros room fits Ht Hall Hlen. rewrite (Hroom room fits Ht Hall Hlen), Hq. apply replies_to_at.
    unfold reply. cbn [fst snd]. by rewrite Hquery.
  - intros ts t later l2 h id port route target Hts Hlater E2 Hlen (la & l' & created & s & Ea & _ & _ & _ & Htarget & Hroute & _).
    assert (Forall (sound_turn origin) (ts ++ [t])) as Hsound by (rewrite Hts; by constructor).
    assert (config l2 = config0) as Hc2.
    { apply Forall_app in Hsound as [Hsound _]. by destruct (work_turns_kept origin ts l0 l2 J0 Hsound E2) as [-> _]. }
    pose proof (turns_pool origin ts t l0 l2 la J0 Hsound E2 Ea) as Hpool. rewrite Hts in Hpool, Hlen.
    cbn [names_asked] in Hpool, Hlen. unfold names_in at 1 in Hpool. unfold names_in at 1 in Hlen.
    rewrite Ef, Hu, Hq, omap_app in Hpool, Hlen. cbn [omap list_omap] in Hpool, Hlen.
    assert ((asked ∘ fst) (query, from) = Some d) as Hd by (unfold compose, asked; cbn [fst]; by rewrite Hquery).
    rewrite Hd, <- app_assoc in Hpool, Hlen. cbn [app] in Hpool, Hlen.
    pose proof (before_dns_kept _ _ _ Ef) as [_ Hdns]. rewrite <- Hdns in Hpool.
    pose proof (asked_target (dns la) _ _ d _ port Hpool (dns_pool _ _ (li_dns _ _ Jf)) Hfresh Hlen) as Htf.
    rewrite target_for_lookup in Htf by (rewrite Hpool; apply Pool.resolve_all_reachable, (dns_pool _ _ (li_dns _ _ Jf))).
    change (Pool.resolve_all (fake_dns (dns lf)) (omap (asked ∘ fst) before)) with (pool_after (fake_dns (dns lf)) before) in Htf.
    fold ip in Htf. rewrite Htf in Htarget. by rewrite <- Htarget, <- Hc2.
Qed.

(** ** Witnesses *)

Lemma outbound_traffic_established (l : @EventLoop sim sim_tcp sim_udp sim_iface (list bytes) literal_engine) h up down :
  (h, up, down) ∈ outbound_traffic l -> exists c, Out.states (outbound l) !! h = Some (Out.Established c).
Proof.
  unfold outbound_traffic. rewrite list_elem_of_omap. intros ([h' st] & Hin%elem_of_map_to_list & Hst).
  cbn [fst snd] in Hst. destruct st; try done. injection Hst as -> _ _. by eexists.
Qed.

(** The run of [EndToEnd.v]: the connection of the SYN, promoted to the address
    itself, since no name was asked for. *)
Lemma relay_end_to_end_witness : exists l l' c before t after l1 id ip port route target,
  demo_new = Some (Ok l) /\ demo_run demo_turns l = Some (false, l') /\
  Out.states (outbound l') !! 1%nat = Some (Out.Established c) /\ demo_turns = before ++ t :: after /\
  @promoted sim sim_tcp sim_udp sim_iface (list bytes) sim_ops (sim_tcp_on _) sim_udp_ops (fresh_alloc sim_tcp sim_udp)
    elements_order literal_engine queue_fd demo_iface t l1 1 id ip port route target.
Proof.
  destruct demo_ran as (l & l' & Hnew & Hrun & Htraffic).
  assert (exists c, Out.states (outbound l') !! 1%nat = Some (Out.Established c)) as [c Hc].
  { eapply outbound_traffic_established. rewrite Htraffic. left. }
  destruct (@relay_end_to_end sim sim_tcp sim_udp sim_iface (list bytes) sim_ops sim_laws (sim_tcp_on _)
    (sim_tcp_on_laws _) sim_udp_ops sim_udp_laws (fresh_alloc sim_tcp sim_udp) elements_order literal_engine
    literal_engine_laws queue_fd demo_iface (answering_iface_laws _ _ _ _) greeting_net demo_origin 5 true [demo_syn]
    demo_config demo_specs [mkSpec 0 8080 80] demo_turns l false l') as [Hout _];
    [exact demo_specs_ok|exact (proj1 (proj1 (Forall_app _ _ _) demo_turns_sound))|exact Hnew|exact Hrun|].
  destruct (Hout 1%nat c Hc) as (before & t & after & l1 & id & ip & port & route & target & ps0 & s & Hts & _ & Hp & _).
  exists l, l', c, before, t, after, l1, id, ip, port, route, target.
  split; [exact Hnew|]. split; [exact Hrun|]. split; [exact Hc|]. split; [exact Hts|exact Hp].
Defined.

(** A stack that first brings a query for example.com, and, once this was
    answered, completes the handshake of a connection to the address it was
    answered with. *)
Definition sim_ask (s : socket sim_tcp sim_udp) : socket sim_tcp sim_udp :=
  match s with
  | Udp u => Udp (if bool_decide (su_rx u = [] /\ su_tx u = []) then mkSimUdp [(demo_query, (1, 5353))] [] else u)
  | Tcp s => Tcp s
  end.

Definition answered_yet (ss : SocketSet sim_tcp sim_udp) : bool :=
  existsb (fun hs => match hs.2 with Udp u => negb (bool_decide (su_tx u = [])) | Tcp _ => false end) (map_to_list ss).

Definition asking_iface : InterfaceOps sim_iface (list bytes) sim_tcp sim_udp :=
  sim_iface_ops (fun d ss =>
    (d, (if answered_yet ss then sim_answer (Pool.POOL_START, 443) [] else sim_ask) <$> ss)).

Lemma asking_iface_laws :
  @InterfaceLaws sim_iface (list bytes) sim_tcp sim_udp (sim_tcp_on sim_iface) asking_iface.
Proof.
  apply sim_iface_laws. intros d ss. cbn [snd]. destruct (answered_yet ss).
  - pose proof (answering_iface_laws (Pool.POOL_START, 443) [] (list bytes) sim_udp) as Hl.
    split; [exact (@iface_poll_handles _ _ _ _ _ _ Hl (mkSimIface [] None false) 0 d ss _ _ _ eq_refl)|].
    exact (@iface_poll_histories _ _ _ _ _ _ Hl (mkSimIface [] None false) 0 d ss _ _ _ eq_refl).
  - split.
    + intros h. rewrite lookup_fmap. by destruct (ss !! h) as [[s|u]|].
    + intros h s s'. unfold get_tcp. rewrite lookup_fmap. destruct (ss !! h) as [[s0|u]|]; simpl; try done.
      intros [= ->] [= <-]. split_and!; [done|done|]. intros Hp. split; [done|by left].
Qed.

Abbreviation asking_loop := (@EventLoop sim sim_tcp sim_udp sim_iface (list bytes) literal_engine) (only parsing).

Definition asking_new : option (result loop_error asking_loop) :=
  @EventLoop_new sim sim_tcp sim_udp sim_iface (list bytes) sim_udp_ops (fresh_alloc sim_tcp sim_udp)
    literal_engine queue_fd asking_iface 5 true [demo_syn] demo_config [].

Definition quiet_turn : @turn sim := mkTurn false false [quiet_round] [] (fun _ => 0).

Definition asking_before (l : asking_loop) : option asking_loop :=
  @before_dns sim sim_tcp sim_udp sim_iface (list bytes) sim_ops (sim_tcp_on _) (fresh_alloc sim_tcp sim_udp)
    elements_order literal_engine queue_fd asking_iface quiet_turn l.

Definition asking_turn (l : asking_loop) : option asking_loop :=
  @work_turn sim sim_tcp sim_udp sim_iface (list bytes) sim_ops (sim_tcp_on _) sim_udp_ops (fresh_alloc sim_tcp sim_udp)
    elements_order literal_engine queue_fd asking_iface quiet_turn l.

Definition asking_at (l : asking_loop) : option asking_loop :=
  @at_process sim sim_tcp sim_udp sim_iface (list bytes) sim_ops (sim_tcp_on _) sim_udp_ops (fresh_alloc sim_tcp sim_udp)
    elements_order literal_engine queue_fd asking_iface quiet_turn l.

Definition asking_names (l : asking_loop) : list bytes :=
  @names_asked sim sim_tcp sim_udp sim_iface (list bytes) sim_ops (sim_tcp_on _) sim_udp_ops (fresh_alloc sim_tcp sim_udp)
    elements_order literal_engine queue_fd asking_iface [quiet_turn; quiet_turn] l.

Definition example_com : bytes := str "example.com".

(** The query is read in the first turn, and in the second the handshake with
    its address is done. *)
Lemma asking_ran : exists l lf l2 la l3 s, asking_new = Some (Ok l) /\ asking_before l = Some lf /\ asking_turn l = Some l2 /\
  asking_at l2 = Some la /\ asking_turn l2 = Some l3 /\
  get_udp (sockets lf) (dns_handle (dns lf)) = Some (mkSimUdp [(demo_query, (1, 5353))] []) /\
  Pool.domain_to_ip (fake_dns (dns lf)) !! example_com = None /\
  snd (Pool.resolve (fake_dns (dns lf)) example_com) = Pool.POOL_START /\
  seen la 1 = (Some (Out.Listening 0), Some (Tcp s)) /\ sk_state s = tcp.Established /\
  sk_local s = Some (Pool.POOL_START, 443) /\
  Pool.lookup (fake_dns (dns la)) Pool.POOL_START = Some example_com /\
  @proxy_for literal_engine (config l2) (Domain example_com 443) = PSome (Socks5 (str "p:1") None) /\
  (seen l3 1).1 = Some (Out.Connecting (0%nat, (Socks5 (str "p:1") None, Domain example_com 443))) /\
  asking_names l = [example_com].
Proof.
  assert (match asking_new with
    | Some (Ok l) =>
        lf ← asking_before l; l2 ← asking_turn l; la ← asking_at l2; l3 ← asking_turn l2;
        s ← get_tcp (sockets la) 1;
        Some (get_udp (sockets lf) (dns_handle (dns lf)), Pool.domain_to_ip (fake_dns (dns lf)) !! example_com,
              snd (Pool.resolve (fake_dns (dns lf)) example_com),
              (seen la 1, s), Pool.lookup (fake_dns (dns la)) Pool.POOL_START,
              @proxy_for literal_engine (config l2) (Domain example_com 443), (seen l3 1).1, asking_names l)
    | _ => None
    end =
    let s := mkSimTcp tcp.Established (Some (Pool.POOL_START, 443)) [] [] [] [] 65536 in
    Some (Some (mkSimUdp [(demo_query, (1, 5353))] []), None, Pool.POOL_START,
          ((Some (Out.Listening 0), Some (Tcp s)), s), Some example_com, PSome (Socks5 (str "p:1") None),
          Some (Out.Connecting (0%nat, (Socks5 (str "p:1") None, Domain example_com 443))), [example_com])) as Hb
    by (vm_compute; reflexivity).
  destruct asking_new as [[l|e]|]; [|discriminate..]. destruct (asking_before l) as [lf|] eqn:Ef; [|discriminate].
  cbn [mbind option_bind] in Hb. destruct (asking_turn l) as [l2|] eqn:E2; [|discriminate]. cbn [mbind option_bind] in Hb.
  destruct (asking_at l2) as [la|] eqn:Ea; [|discriminate]. cbn [mbind option_bind] in Hb.
  destruct (asking_turn l2) as [l3|] eqn:E3; [|discriminate]. cbn [mbind option_bind] in Hb.
  destruct (get_tcp (sockets la) 1) as [s|]; [|discriminate]. cbn [mbind option_bind] in Hb.
  exists l, lf, l2, la, l3, s. injection Hb as B1 B2 B3 B4 B5 Es B6 B7 B8 B9.
  split_and!; try done; [by rewrite (surjective_pairing (seen la 1)); f_equal; [exact B4|rewrite Es; exact B5]|by rewrite Es..].
Qed.

Lemma quiet_turn_sound : @sound_turn sim sim_ops greeting_net demo_origin quiet_turn.
Proof. split; [constructor; [exact quiet_round_sound|constructor]|constructor]. Qed.

Lemma names_end_to_end_witness : exists l l2 target, asking_new = Some (Ok l) /\ asking_turn l = Some l2 /\
  @promoted sim sim_tcp sim_udp sim_iface (list bytes) sim_ops (sim_tcp_on _) sim_udp_ops (fresh_alloc sim_tcp sim_udp)
    elements_order literal_engine queue_fd asking_iface quiet_turn l2 1 0 Pool.POOL_START 443
    (Socks5 (str "p:1") None) target /\ target = Domain example_com 443.
Proof.
  destruct asking_ran as (l & lf & l2 & la & l3 & s & Hnew & Ef & E2 & Ea & E3 & Hu & Hfresh & Hip & Hseen & Hst & Hl
    & Hlook & Hroute & Hend & Hnames).
  destruct (@names_end_to_end sim sim_tcp sim_udp sim_iface (list bytes) sim_ops sim_laws (sim_tcp_on _)
    (sim_tcp_on_laws _) sim_udp_ops sim_udp_laws (fresh_alloc sim_tcp sim_udp) elements_order literal_engine
    literal_engine_laws queue_fd asking_iface asking_iface_laws greeting_net demo_origin 5 true [demo_syn]
    demo_config demo_specs [] [] l l quiet_turn lf (mkSimUdp [(demo_query, (1, 5353))] []) [] demo_query (1, 5353) []
    7 example_com) as [_ Hnamed].
  - exact demo_specs_ok.
  - constructor; [exact quiet_turn_sound|constructor].
  - exact Hnew.
  - reflexivity.
  - exact Ef.
  - exact Hu.
  - reflexivity.
  - vm_compute. reflexivity.
  - exact Hfresh.
  - change (snd (Pool.resolve (pool_after (fake_dns (dns lf)) []) example_com))
      with (snd (Pool.resolve (fake_dns (dns lf)) example_com)) in Hnamed. rewrite Hip in Hnamed.
    exists l, l2, (Domain example_com 443). split; [exact Hnew|]. split; [exact E2|].
    assert (@promoted sim sim_tcp sim_udp sim_iface (list bytes) sim_ops (sim_tcp_on _) sim_udp_ops
      (fresh_alloc sim_tcp sim_udp) elements_order literal_engine queue_fd asking_iface quiet_turn l2 1 0
      Pool.POOL_START 443 (Socks5 (str "p:1") None) (Domain example_com 443)) as Hp.
    { exists la, l3, 0, s. split_and!; [exact Ea|exact Hseen|left; exact Hst| |by rewrite Hlook|exact Hroute|exact E3|exact Hend].
      cbn. unfold sim_endpoint. by rewrite Hl. }
    split; [exact Hp|].
    destruct (Hnamed [quiet_turn] quiet_turn [quiet_turn] l2 1%nat 0%nat 443 (Socks5 (str "p:1") None) (Domain example_com 443) eq_refl) as [Ht _];
      [constructor; [exact quiet_turn_sound|constructor]| | |exact Hp|exact Ht].
    + cbn [work_turns]. change ((asking_turn l ≫= fun l => Some l) = Some l2). by rewrite E2.
    + change (blen (asking_names l) <= Pool.POOL_SIZE). rewrite Hnames. vm_compute. discriminate.
Defined.
