(* ===== verification/Os.v ===== *)
(** * System calls

    The setup code talks to the kernel.  A computation is a function of the
    calls made so far; each call is answered by the kernel [os], an arbitrary
    function of the history, and is recorded with its answer.  [open_fds] reads
    the open file descriptors off a history. *)

From S2P Require Import Prelude RustStr RustNet.

(** [ioctl] requests with the structure they pass. *)
Inductive ioctl : Type :=
| TUNSETIFF (name : bytes) (flags : Z)
| SIOCSIFMTU (name : bytes) (mtu : Z)
| SIOCSIFADDR (name : bytes) (addr : bytes)
| SIOCSIFNETMASK (name : bytes) (mask : bytes)
| SIOCSIFFLAGS (name : bytes) (flags : Z)
| SIOCADDRT (dst gateway genmask : bytes) (flags : Z) (dev : bytes).

Inductive clone_flag : Type := CLONE_NEWNET | CLONE_NEWUSER | CLONE_NEWNS.
Inductive mount_flag : Type := MS_REC | MS_PRIVATE | MS_BIND.

Inductive syscall : Type :=
| SysOpen (path : bytes)
| SysSocket
| SysClose (fd : Z)
| SysIoctl (fd : Z) (request : ioctl)
| SysUnshare (flags : list clone_flag)
| SysMount (source : option bytes) (target : bytes) (fstype : option bytes) (flags : list mount_flag)
| SysOpenTree (path : bytes)
| SysMoveMount (fd : Z) (target : bytes)
| SysMkstemp (template : bytes)
| SysWrite (fd : Z) (data : bytes)
| SysRecvmsg (fd : Z)
| SysChmod (fd : Z) (mode : Z)
| SysUnlink (path : bytes).

(** The result of a call: an error number, or a number and bytes (the path
    [mkstemp] chose). *)
Definition answer : Type := result Z (Z * bytes).

Definition history : Type := list (syscall * answer).

(** The kernel. *)
Class Kernel : Type := os : history -> syscall -> answer.

(** Error numbers. *)
Definition EPERM : Z := 1.
Definition EINTR : Z := 4.
Definition ENOSYS : Z := 38.

(** ** Computations *)

Definition sys (E A : Type) : Type := history -> result E A * history.

#[global] Instance sys_ret E : MRet (sys E) := fun A a h => (Ok a, h).
#[global] Instance sys_bind E : MBind (sys E) := fun A B f m h =>
  let '(r, h) := m h in
  match r with Ok a => f a h | Err e => (Err e, h) end.

(** [bail!] *)
Definition bail {E A} (e : E) : sys E A := fun h => (Err e, h).

(** [.context(..)?] on a call *)
Definition sys_map_err {E F A} (f : E -> F) (m : sys E A) : sys F A := fun h =>
  let '(r, h) := m h in (map_err f r, h).

(** The result of a computation as a value, for code that inspects it. *)
Definition attempt {E F A} (m : sys E A) : sys F (result E A) := fun h =>
  let '(r, h) := m h in (Ok r, h).

Section Sys.
Context `{Kernel}.

Definition call (c : syscall) : sys Z (Z * bytes) := fun h =>
  let a := os h c in (a, h ++ [(c, a)]).

(** A call whose result is a number. *)
Definition call_z (c : syscall) : sys Z Z := v ← call c; mret v.1.

(** A call whose result is ignored. *)
Definition call_ {E} (c : syscall) : sys E unit := _ ← attempt (call c); mret ().

(** How computations run. *)
Lemma run_ret {E A} (a : A) h : (mret a : sys E A) h = (Ok a, h).
Proof. done. Qed.

Lemma run_bind {E A B} (m : sys E A) (f : A -> sys E B) h :
  (m ≫= f) h = match m h with (Ok a, h1) => f a h1 | (Err e, h1) => (Err e, h1) end.
Proof. unfold mbind, sys_bind. by destruct (m h) as [[]]. Qed.

(** [write_all]: [write] until nothing is left; a write of no byte is an error.
    Each write takes at least one byte, so the length of the data is enough
    fuel.  A write that a signal interrupts is made again and not recorded. *)
Inductive io_error : Type := IoErrno (e : Z) | WriteZero.

Fixpoint write_loop (fuel : nat) (fd : Z) (data : bytes) : sys io_error unit :=
  match data, fuel with
  | [], _ => mret ()
  | _, O => bail WriteZero
  | _, S fuel =>
      n ← sys_map_err IoErrno (call_z (SysWrite fd data));
      if n =? 0 then bail WriteZero else write_loop fuel fd (drop (Z.to_nat n) data)
  end.

Definition write_all (fd : Z) (data : bytes) : sys io_error unit := write_loop (length data) fd data.

Lemma run_call_z c h : call_z c h =
  (match os h c with Ok v => Ok v.1 | Err e => Err e end, h ++ [(c, os h c)]).
Proof. unfold call_z. rewrite run_bind. unfold call. by destruct (os h c). Qed.

Lemma run_call_ {E} c h : (call_ c : sys E unit) h = (Ok (), h ++ [(c, os h c)]).
Proof. done. Qed.

End Sys.

(** ** Descriptors *)

(** The open descriptors, each with the call that opened it: the kernel uses the
    number of a closed descriptor again, for something else. *)
Definition table_effect (t : nat * gmap Z nat) (e : syscall * answer) : nat * gmap Z nat :=
  (S t.1,
   match e with
   | ((SysOpen _ | SysSocket | SysOpenTree _ | SysMkstemp _ | SysRecvmsg _), Ok (fd, _)) => <[fd := t.1]> t.2
   | (SysClose fd, _) => delete fd t.2
   | _ => t.2
   end).

Definition fd_table (h : history) : gmap Z nat := (foldl table_effect (0%nat, ∅) h).2.

Definition open_fds (h : history) : gset Z := dom (fd_table h).

(** ** Temporary files *)

Definition tmp_effect (paths : gset bytes) (e : syscall * answer) : gset bytes :=
  match e with
  | (SysMkstemp _, Ok (_, path)) => {[path]} ∪ paths
  | (SysUnlink path, Ok _) => paths ∖ {[path]}
  | _ => paths
  end.

Definition tmp_files (h : history) : gset bytes := foldl tmp_effect ∅ h.

(** The files that the kernel refused to remove. *)
Definition refusal (e : syscall * answer) : option bytes :=
  match e with (SysUnlink path, Err _) => Some path | _ => None end.

Definition refused (h : history) : gset bytes := list_to_set (omap refusal h).

Lemma refused_app h k : refused (h ++ k) = refused h ∪ refused k.
Proof. unfold refused. by rewrite omap_app, list_to_set_app_L. Qed.

(** The kernel hands out descriptors that are not open and names that do not
    exist, and writes no more than it is given. *)
Class KernelLaws `{Kernel} : Prop := {
  fresh_fd h c fd p : os h c = Ok (fd, p) ->
    match c with
    | SysOpen _ | SysSocket | SysOpenTree _ | SysMkstemp _ => fd ∉ open_fds h
    | _ => True
    end;
  fresh_tmp h t fd p : os h (SysMkstemp t) = Ok (fd, p) -> p ∉ tmp_files h;
  write_count h fd d n p : os h (SysWrite fd d) = Ok (n, p) -> 0 <= n <= blen d;
}.

Lemma fd_table_snoc h e : fd_table (h ++ [e]) = (table_effect (length h, fd_table h) e).2.
Proof.
  unfold fd_table. rewrite foldl_app. simpl.
  assert (forall n t, (foldl table_effect (n, t) h).1 = (n + length h)%nat) as G.
  { induction h as [|x h IH]; intros n t; simpl; [lia|]. destruct (table_effect (n, t) x) as [n' t'] eqn:E.
    rewrite IH. injection E as <- _. simpl. lia. }
  specialize (G 0%nat ∅). simpl in G. by rewrite G.
Qed.

(** A descriptor was opened by a call of the history. *)
Lemma fd_table_bound h fd n : fd_table h !! fd = Some n -> (n < length h)%nat.
Proof.
  induction h as [|e h IH] using rev_ind; [done|]. rewrite fd_table_snoc, length_app. simpl.
  destruct e as [c a]. intros G. enough (n = length h \/ fd_table h !! fd = Some n) as [->|?%IH] by lia.
  destruct c, a as [[]|]; simpl in G; try (by right); try (apply lookup_delete_Some in G as []; by right).
  all: apply lookup_insert_Some in G as [[_ <-]|[_ G]]; auto.
Qed.

(** The effect of a call on the set of open descriptors. *)
Definition fd_effect (fds : gset Z) (e : syscall * answer) : gset Z :=
  match e with
  | ((SysOpen _ | SysSocket | SysOpenTree _ | SysMkstemp _ | SysRecvmsg _), Ok (fd, _)) => {[fd]} ∪ fds
  | (SysClose fd, _) => fds ∖ {[fd]}
  | _ => fds
  end.

Lemma open_fds_snoc h e : open_fds (h ++ [e]) = fd_effect (open_fds h) e.
Proof.
  unfold open_fds. rewrite fd_table_snoc. destruct e as [[] [[fd p]|err]]; simpl;
    rewrite ?dom_insert_L, ?dom_delete_L; done.
Qed.

Lemma open_fds_table h h' : fd_table h' = fd_table h -> open_fds h' = open_fds h.
Proof. unfold open_fds. by intros ->. Qed.

(** A descriptor that is not open is not in the table. *)
Lemma not_open h fd : fd ∉ open_fds h -> fd_table h !! fd = None.
Proof. apply not_elem_of_dom_1. Qed.

Lemma tmp_files_snoc h e : tmp_files (h ++ [e]) = tmp_effect (tmp_files h) e.
Proof. unfold tmp_files. by rewrite foldl_app. Qed.

(** The calls of a computation, without their answers. *)
Definition calls (h : history) : list syscall := map fst h.

Lemma calls_snoc h e : calls (h ++ [e]) = calls h ++ [e.1].
Proof. unfold calls. by rewrite map_app. Qed.

(** ** Computations that leave no resource behind *)

(** [relates R m]: whatever the outcome, the histories before and after [m] are
    related. *)
Definition relates {E A} (R : relation history) (m : sys E A) : Prop := forall h r h', m h = (r, h') -> R h h'.

Section Relates.
Context {E A : Type} (R : relation history) `{!PreOrder R}.

Lemma relates_ret (a : A) : relates R (mret a : sys E A).
Proof. by intros h r h' [= <- <-]. Qed.

Lemma relates_bail (e : E) : relates R (bail e : sys E A).
Proof. by intros h r h' [= <- <-]. Qed.

Lemma relates_bind {B} (m : sys E A) (k : A -> sys E B) :
  relates R m -> (forall a, relates R (k a)) -> relates R (m ≫= k).
Proof.
  intros Hm Hk h r h' E'. unfold mbind, sys_bind in E'. destruct (m h) as [[a|e] h1] eqn:Em.
  - etrans; [by eapply Hm | by eapply Hk].
  - injection E' as <- <-. by eapply Hm.
Qed.

Lemma relates_map_err {F} (g : E -> F) (m : sys E A) : relates R m -> relates R (sys_map_err g m).
Proof.
  intros Hm h r h' E'. unfold sys_map_err in E'. destruct (m h) eqn:Em. injection E' as <- <-. by eapply Hm.
Qed.

Lemma relates_attempt {F} (m : sys E A) : relates R m -> relates R (attempt m : sys F _).
Proof. intros Hm h r h' E'. unfold attempt in E'. destruct (m h) eqn:Em. injection E' as <- <-. by eapply Hm. Qed.
End Relates.

#[export] Hint Resolve relates_ret relates_bail relates_map_err relates_attempt : tidy.

(** Computations only add to the history. *)
Lemma extends_call `{Kernel} c : relates prefix (call c).
Proof. intros h r h' [= <- <-]. by apply prefix_app_r. Qed.

Lemma extends_call_z `{Kernel} c : relates prefix (call_z c).
Proof. apply relates_bind; [apply _|apply extends_call|intros; by apply relates_ret, _]. Qed.

Lemma extends_call_ `{Kernel} {E} c : relates prefix (call_ c : sys E unit).
Proof. intros h r h' [= <- <-]. by apply prefix_app_r. Qed.

#[export] Hint Resolve extends_call extends_call_z extends_call_ : tidy.

(** What a computation leaves as it was. *)
Definition same {X} (f : history -> X) (h h' : history) : Prop := f h' = f h.

#[global] Instance same_preorder {X} (f : history -> X) : PreOrder (same f).
Proof. split; [by intros h|]. unfold same. intros h1 h2 h3. congruence. Qed.

Notation preserves f := (relates (same f)).

(** The resources held after a history. *)
Definition held (h : history) : gmap Z nat * gset bytes := (fd_table h, tmp_files h).

(** Code that leaves open exactly what was open, and no temporary file. *)
Notation tidy := (preserves held).

(** Calls that neither open nor close anything. *)
Definition neutral (c : syscall) : Prop :=
  match c with
  | SysIoctl _ _ | SysUnshare _ | SysMount _ _ _ _ | SysMoveMount _ _ | SysWrite _ _ | SysChmod _ _ => True
  | _ => False
  end.

Lemma tidy_call `{Kernel} c : neutral c -> tidy (call c).
Proof.
  intros Hc h r h' [= <- <-]. unfold same, held. rewrite fd_table_snoc, tmp_files_snoc. by destruct c.
Qed.

Lemma tidy_call_ `{Kernel} {E} c : neutral c -> tidy (call_ c : sys E unit).
Proof. intros Hc. unfold call_. apply relates_bind; [apply _|by apply relates_attempt, tidy_call|intros ?; by apply relates_ret, _]. Qed.

Lemma tidy_call_z `{Kernel} c : neutral c -> tidy (call_z c).
Proof. intros Hc. apply relates_bind; [apply _|by apply tidy_call|intros ?; by apply relates_ret, _]. Qed.

#[export] Hint Resolve tidy_call_ tidy_call tidy_call_z : tidy.
#[export] Hint Extern 1 (PreOrder _) => apply _ : tidy.
#[export] Hint Extern 1 (neutral _) => exact I : tidy.

Lemma tidy_write_loop `{Kernel} fuel fd data : tidy (write_loop fuel fd data).
Proof.
  revert data. induction fuel as [|fuel IH]; intros [|b data]; cbn [write_loop]; try (by apply relates_ret, _); try (by apply relates_bail, _).
  apply relates_bind; [apply _|apply relates_map_err, tidy_call_z; done|].
  intros n. case_if; [by apply relates_bail, _ | apply IH].
Qed.

Lemma tidy_write_all `{Kernel} fd data : tidy (write_all fd data).
Proof. apply tidy_write_loop. Qed.

#[export] Hint Resolve tidy_write_all : tidy.

Lemma extends_write_all `{Kernel} fd data : relates prefix (write_all fd data).
Proof.
  unfold write_all. generalize (length data). intros fuel. revert data.
  induction fuel as [|fuel IH]; intros [|b data]; cbn [write_loop]; try (by apply relates_ret, _); try (by apply relates_bail, _).
  apply relates_bind; [apply _|apply relates_map_err, extends_call_z|].
  intros n. case_if; [by apply relates_bail, _ | apply IH].
Qed.

#[export] Hint Resolve extends_write_all : tidy.

(** Tidiness of straight-line code. *)
Ltac tidy :=
  repeat first
    [ match goal with |- relates _ (mbind _ _) => apply relates_bind; [apply _| |intros ?] end
    | match goal with |- relates _ (match ?x with _ => _ end) => destruct x end
    | solve [eauto with tidy]
    | match goal with |- relates _ (attempt _) => apply relates_attempt end
    | match goal with |- relates _ (sys_map_err _ _) => apply relates_map_err end
    | apply tidy_call; exact I ].

(** Code that leaves open exactly what was open, and no temporary file but those
    that the kernel refuses to remove. *)
Definition tidied (h h' : history) : Prop :=
  exists new, h' = h ++ new /\ fd_table h' = fd_table h /\
    tmp_files h ⊆ tmp_files h' /\ tmp_files h' ⊆ tmp_files h ∪ refused new.

#[global] Instance tidied_preorder : PreOrder tidied.
Proof.
  split.
  - intros h. exists []. rewrite app_nil_r. set_solver.
  - intros h1 h2 h3 (k1 & -> & F1 & S1 & T1) (k2 & -> & F2 & S2 & T2). exists (k1 ++ k2).
    rewrite app_assoc, refused_app. split_and!; [done|congruence|set_solver|set_solver].
Qed.

Lemma tidy_tidied {E A} (m : sys E A) : relates (same held) m -> relates prefix m -> relates tidied m.
Proof.
  intros Hm Hp h r h' Hr. destruct (Hp _ _ _ Hr) as [k ->]. apply Hm in Hr. injection Hr as Hf Ht.
  exists k. rewrite Hf, Ht. set_solver.
Qed.

Lemma tidy_then {E A} (m : sys E A) h r h' : tidy m -> m h = (r, h') ->
  fd_table h' = fd_table h /\ tmp_files h' = tmp_files h.
Proof. intros Hm Hr. apply Hm in Hr. by injection Hr. Qed.
