(* ===== verification/Namespace.v ===== *)
(** * Namespace setup (src/src/namespace.rs)

    Entering the namespaces, the id maps, the mount namespace with its DNS
    configuration and bind mounts, the loopback and the TUN device, as
    computations over the system calls of [Os]. *)

From S2P Require Import Prelude RustStr RustNet Config BindMount Os.

(** ** Constants *)

Definition IFF_TUN : Z := 0x0001.
Definition IFF_NO_PI : Z := 0x1000.
Definition IFF_UP : Z := 0x1.
Definition IFF_RUNNING : Z := 0x40.
Definition RTF_UP : Z := 0x1.
Definition RTF_GATEWAY : Z := 0x2.
Definition IF_NAMESIZE : Z := 16.

(** One constructor per [bail!] and per [context] or [with_context]; the
    number is the system's error. *)
Inductive namespace_error : Type :=
| UnshareUserNet (e : Z)
| ProcOpen (path : bytes) (e : Z)
| ProcWrite (path : bytes) (e : io_error)
| UnshareMount (e : Z)
| MakePrivate (e : Z)
| Mkstemp (e : Z)
| WriteTmp (e : io_error)
| ChmodTmp (e : Z)
| TmpPathUtf8
| BindTmp (target : bytes) (e : Z)
| SourceNul (path : bytes)
| TargetNul (path : bytes)
| OpenTreeUnavailable
| OpenTree (path : bytes) (e : Z)
| MoveMountUnavailable
| MoveMount (path : bytes) (e : Z)
| LoopbackSocket (e : Z)
| LoopbackUp (hint : bool) (e : Z)
| TunNameTooLong
| OpenTun (e : Z)
| TunSetIff (e : Z)
| TunSocket (e : Z)
| TunMtu (e : Z)
| TunAddr (e : Z)
| TunNetmask (e : Z)
| TunUp (e : Z)
| TunRoute (e : Z).

(** ** Data passed to the kernel *)

(** A buffer of [n] bytes that starts with [d], zero-filled. *)
Definition zero_pad (n : nat) (d : bytes) : bytes := take n d ++ replicate (n - length d) "000"%byte.

(** [ifreq_for]: the interface name, at most [IF_NAMESIZE - 1] bytes of it. *)
Definition ifreq_for (name : bytes) : bytes :=
  zero_pad (Z.to_nat IF_NAMESIZE) (take (Z.to_nat (IF_NAMESIZE - 1)) name).

Definition netmask_octets (prefix : Z) : bytes :=
  let mask := if prefix =? 0 then 0 else Z.shiftl u32_max (32 - prefix) mod 4294967296 in
  be32 mask.

(** [CString::new]: fails on a NUL byte. *)
Definition cstring (s : bytes) : option bytes := if bool_decide ("000"%byte ∈ s) then None else Some s.

Section Namespace.
Context `{Kernel}.

(** ** Network namespace *)

Definition create_namespace : sys namespace_error bool :=
  r ← attempt (call (SysUnshare [CLONE_NEWNET]));
  match r with
  | Ok _ => mret false
  | Err _ =>
      _ ← sys_map_err UnshareUserNet (call (SysUnshare [CLONE_NEWUSER; CLONE_NEWNET]));
      mret true
  end.

(** Open, write, and close (on every path) a file. *)
Definition proc_write (path data : bytes) : sys namespace_error unit :=
  f ← sys_map_err (ProcOpen path) (call_z (SysOpen path));
  r ← attempt (write_all f data);
  _ ← call_ (SysClose f);
  match r with
  | Ok _ => mret ()
  | Err e => bail (ProcWrite path e)
  end.

Definition write_id_maps (child_pid uid gid : Z) : sys namespace_error unit :=
  let proc name := str "/proc/" ++ dec child_pid ++ name in
  _ ← proc_write (proc (str "/setgroups")) (str "deny");
  _ ← proc_write (proc (str "/uid_map")) (dec uid ++ str " " ++ dec uid ++ str " 1" ++ ["010"%byte]);
  proc_write (proc (str "/gid_map")) (dec gid ++ str " " ++ dec gid ++ str " 1" ++ ["010"%byte]).

(** ** Mount namespace *)

(** [UnlinkOnDrop]: the guard runs on every way out of the scope. *)
Definition with_unlink {A} (path : bytes) (m : sys namespace_error A) : sys namespace_error A :=
  r ← attempt m;
  _ ← call_ (SysUnlink path);
  match r with Ok a => mret a | Err e => bail e end.

(** The file is closed on every way out of the scope that writes it. *)
Definition with_close {A} (fd : Z) (m : sys namespace_error A) : sys namespace_error A :=
  r ← attempt m;
  _ ← call_ (SysClose fd);
  match r with Ok a => mret a | Err e => bail e end.

Definition bind_mount_tmpfile (content target : bytes) : sys namespace_error unit :=
  '(fd, path) ← sys_map_err Mkstemp (call (SysMkstemp (str "/tmp/nsproxy-XXXXXX")));
  with_unlink path (
    _ ← with_close fd (
      _ ← sys_map_err WriteTmp (write_all fd content);
      sys_map_err ChmodTmp (call (SysChmod fd 420)));
    if negb (utf8_valid path) then bail TmpPathUtf8
    else
      _ ← sys_map_err (BindTmp target) (call (SysMount (Some path) target None [MS_BIND]));
      mret ()).

Definition bind_mount_nofollow (bind : BindMount) : sys namespace_error unit :=
  match cstring (source bind), cstring (target bind) with
  | None, _ => bail (SourceNul (source bind))
  | _, None => bail (TargetNul (target bind))
  | Some src, Some dst =>
      mount_fd ← sys_map_err (fun e => if e =? ENOSYS then OpenTreeUnavailable else OpenTree src e)
                   (call_z (SysOpenTree src));
      with_close mount_fd (
        _ ← sys_map_err (fun e => if e =? ENOSYS then MoveMountUnavailable else MoveMount dst e)
              (call (SysMoveMount mount_fd dst));
        mret ())
  end.

Fixpoint bind_all (binds : list BindMount) : sys namespace_error unit :=
  match binds with
  | [] => mret ()
  | b :: binds => _ ← bind_mount_nofollow b; bind_all binds
  end.

Definition setup_mount_namespace (bind_mounts : list BindMount) : sys namespace_error unit :=
  _ ← sys_map_err UnshareMount (call (SysUnshare [CLONE_NEWNS]));
  _ ← sys_map_err MakePrivate (call (SysMount None (str "/") None [MS_REC; MS_PRIVATE]));
  let resolv_conf := str "nameserver " ++ display_ipv4 DNS_ADDR ++ ["010"%byte] in
  _ ← bind_mount_tmpfile resolv_conf (str "/etc/resolv.conf");
  _ ← bind_mount_tmpfile (str "hosts: files dns" ++ ["010"%byte]) (str "/etc/nsswitch.conf");
  _ ← bind_all bind_mounts;
  call_ (SysMount (Some (str "tmpfs")) (str "/etc/ssh/ssh_config.d") (Some (str "tmpfs")) []).

(** ** Loopback *)

Definition bringup_loopback : sys namespace_error unit :=
  sock ← sys_map_err LoopbackSocket (call_z SysSocket);
  r ← attempt (call (SysIoctl sock (SIOCSIFFLAGS (zero_pad 16 (str "lo")) (Z.lor IFF_UP IFF_RUNNING))));
  _ ← call_ (SysClose sock);
  match r with
  | Ok _ => mret ()
  | Err e => bail (LoopbackUp (e =? EPERM) e)
  end.

(** ** The TUN device *)

(** An [ioctl] of the configuration: on failure both descriptors are closed. *)
Definition tun_ioctl (sock fd : Z) (request : ioctl) (error : Z -> namespace_error) : sys namespace_error unit :=
  r ← attempt (call (SysIoctl sock request));
  match r with
  | Ok _ => mret ()
  | Err e => _ ← call_ (SysClose sock); _ ← call_ (SysClose fd); bail (error e)
  end.

Definition create_tun : sys namespace_error Z :=
  if IF_NAMESIZE <=? blen TUN_NAME then bail TunNameTooLong
  else
    let name_buf := zero_pad (Z.to_nat IF_NAMESIZE) TUN_NAME in
    fd ← sys_map_err OpenTun (call_z (SysOpen (str "/dev/net/tun")));
    r ← attempt (call (SysIoctl fd (TUNSETIFF (ifreq_for TUN_NAME) (Z.lor IFF_TUN IFF_NO_PI))));
    match r with
    | Err e => _ ← call_ (SysClose fd); bail (TunSetIff e)
    | Ok _ =>
        r ← attempt (call_z SysSocket);
        match r with
        | Err e => _ ← call_ (SysClose fd); bail (TunSocket e)
        | Ok sock =>
            _ ← tun_ioctl sock fd (SIOCSIFMTU name_buf TUN_MTU) TunMtu;
            _ ← tun_ioctl sock fd (SIOCSIFADDR name_buf (ipv4_octets TUN_ADDR)) TunAddr;
            _ ← tun_ioctl sock fd (SIOCSIFNETMASK name_buf (netmask_octets TUN_PREFIX)) TunNetmask;
            _ ← tun_ioctl sock fd (SIOCSIFFLAGS name_buf (Z.lor IFF_UP IFF_RUNNING)) TunUp;
            _ ← tun_ioctl sock fd (SIOCADDRT (be32 0) (ipv4_octets TUN_GW) (be32 0)
                                     (Z.lor RTF_UP RTF_GATEWAY) name_buf) TunRoute;
            _ ← call_ (SysClose sock);
            mret fd
        end
    end.

(** ** Lemmas: brackets *)

(** A scope that closes a descriptor on every way out. *)
Lemma with_close_spec {A} fd (m : sys namespace_error A) h r h' : tidy m -> with_close fd m h = (r, h') ->
  fd_table h' = delete fd (fd_table h) /\ tmp_files h' = tmp_files h.
Proof.
  intros Hm. unfold with_close. rewrite run_bind. unfold attempt. destruct (m h) as [r1 h1] eqn:Em.
  apply tidy_then in Em as [Ho Ht]; [|done]. rewrite run_bind, run_call_.
  intros Hr. assert (h' = h1 ++ [(SysClose fd, os h1 (SysClose fd))]) as -> by (destruct r1; by injection Hr).
  rewrite fd_table_snoc, tmp_files_snoc. simpl. by rewrite Ho, Ht.
Qed.

(** Acquire a descriptor, use it, close it. *)
Lemma tidy_bracket `{!KernelLaws} {A} c (err : Z -> namespace_error) (m : Z -> sys namespace_error A) :
  match c with SysOpen _ | SysSocket | SysOpenTree _ => True | _ => False end ->
  (forall fd, tidy (m fd)) -> tidy (fd ← sys_map_err err (call_z c); with_close fd (m fd)).
Proof.
  intros Hc Hm h r h'. rewrite run_bind. unfold sys_map_err. rewrite run_call_z.
  destruct (os h c) as [[fd p]|e] eqn:E; cbn [map_err fst].
  - intros Hr. apply with_close_spec in Hr as [Ho Ht]; [|done]. apply fresh_fd in E as Hf.
    unfold same, held. rewrite Ho, Ht, fd_table_snoc, tmp_files_snoc.
    destruct c; try done; simpl; by rewrite delete_insert_id by by apply not_open.
  - intros [= <- <-]. unfold same, held. rewrite fd_table_snoc, tmp_files_snoc. by destruct c.
Qed.

(** Code that closes the descriptor by hand, on both outcomes of one operation. *)
Lemma tidy_open_call_close `{!KernelLaws} {E A} c (err : Z -> namespace_error) (request : Z -> sys E A)
    (fail : E -> namespace_error) :
  match c with SysOpen _ | SysSocket | SysOpenTree _ => True | _ => False end ->
  (forall fd, tidy (request fd)) ->
  tidy (fd ← sys_map_err err (call_z c);
        r ← attempt (request fd);
        _ ← call_ (SysClose fd);
        match r with Ok _ => mret () | Err e => bail (fail e) end).
Proof.
  intros Hc Hn. pose proof (tidy_bracket c err (fun fd => _ ← sys_map_err fail (request fd); mret ())) as Hb.
  intros h r h' Er. eapply (Hb Hc); [intros fd; tidy; by eauto with tidy|]. revert Er.
  rewrite !run_bind. destruct (sys_map_err err (call_z c) h) as [[fd|e] h1]; [|done].
  unfold with_close. rewrite !run_bind. unfold attempt, sys_map_err. rewrite !run_bind.
  destruct (request fd h1) as [[]]; done.
Qed.

Lemma create_namespace_tidy : tidy create_namespace.
Proof. unfold create_namespace. tidy. Qed.

Lemma proc_write_tidy `{!KernelLaws} path data : tidy (proc_write path data).
Proof.
  apply (tidy_open_call_close (SysOpen path) (ProcOpen path) (fun f => write_all f data)); [done|].
  eauto with tidy.
Qed.

Lemma bringup_loopback_tidy `{!KernelLaws} : tidy bringup_loopback.
Proof.
  apply (tidy_open_call_close SysSocket LoopbackSocket (fun s => call (SysIoctl s _))); [done|].
  eauto with tidy.
Qed.

Lemma write_id_maps_tidy `{!KernelLaws} pid uid gid : tidy (write_id_maps pid uid gid).
Proof. unfold write_id_maps. tidy; apply proc_write_tidy. Qed.

Lemma bind_mount_nofollow_tidy `{!KernelLaws} b : tidy (bind_mount_nofollow b).
Proof.
  unfold bind_mount_nofollow. destruct (cstring (source b)), (cstring (target b)); try (by apply relates_bail, _).
  apply tidy_bracket; [done|]. intros fd. tidy.
Qed.

Lemma bind_all_tidy `{!KernelLaws} binds : tidy (bind_all binds).
Proof. induction binds as [|b binds IH]; cbn [bind_all]; tidy. apply bind_mount_nofollow_tidy. Qed.

(** The setup only adds to the history. *)
Lemma create_namespace_extends : relates prefix create_namespace.
Proof. unfold create_namespace. tidy. Qed.

Lemma bringup_loopback_extends : relates prefix bringup_loopback.
Proof. unfold bringup_loopback. tidy. Qed.

Lemma bind_mount_tmpfile_extends content target : relates prefix (bind_mount_tmpfile content target).
Proof.
  unfold bind_mount_tmpfile, with_unlink, with_close. tidy.
Qed.

Lemma bind_all_extends binds : relates prefix (bind_all binds).
Proof.
  induction binds as [|b binds IH]; cbn [bind_all]; tidy. unfold bind_mount_nofollow, with_close. tidy.
Qed.

Lemma setup_mount_namespace_extends binds : relates prefix (setup_mount_namespace binds).
Proof. unfold setup_mount_namespace. tidy; auto using bind_mount_tmpfile_extends, bind_all_extends. Qed.

(** The temporary file is gone afterwards, unless its removal is refused. *)
Lemma bind_mount_tmpfile_tidied `{!KernelLaws} content target : relates tidied (bind_mount_tmpfile content target).
Proof.
  intros h r h' Hall. destruct (bind_mount_tmpfile_extends _ _ _ _ _ Hall) as [new Enew]. exists new. split; [done|].
  revert Hall. unfold bind_mount_tmpfile. rewrite run_bind. unfold sys_map_err at 1, call at 1.
  destruct (os h (SysMkstemp _)) as [[fd path]|e] eqn:E; cbn [map_err].
  2: { intros [= <- G]. rewrite <- G, fd_table_snoc, tmp_files_snoc. simpl. set_solver. }
  pose proof (fresh_fd _ _ _ _ E) as Hfd. pose proof (fresh_tmp _ _ _ _ E) as Hpath. simpl in Hfd.
  unfold with_unlink. rewrite run_bind. unfold attempt at 1.
  set (body := with_close fd _ ≫= _). set (h1 := h ++ _).
  assert (forall r1 h2, body h1 = (r1, h2) ->
    (fd_table h2 = fd_table h /\ tmp_files h2 = {[path]} ∪ tmp_files h) /\ h1 `prefix_of` h2) as Hbody.
  { intros r1 h2. unfold body. intros Hr. split.
    2: { assert (relates prefix body) as Hp by (unfold body, with_close; tidy). by eapply Hp. }
    revert Hr. rewrite run_bind. destruct (with_close fd _ h1) as [r3 h3] eqn:Ec.
    apply with_close_spec in Ec as [Ho Ht]; [|tidy].
    assert (fd_table h3 = fd_table h /\ tmp_files h3 = {[path]} ∪ tmp_files h) as [Ho3 Ht3].
    { rewrite Ho, Ht. unfold h1. rewrite fd_table_snoc, tmp_files_snoc. simpl.
      by rewrite delete_insert_id by by apply not_open. }
    destruct r3 as [a|e]; [|by intros [= <- <-]]. intros Hr. eapply tidy_then in Hr as [Ho4 Ht4].
    - by rewrite Ho4, Ht4.
    - tidy. }
  destruct (body h1) as [r1 h2] eqn:Eb. destruct (Hbody _ _ eq_refl) as [[Ho Ht] [k Hk]]. rewrite run_bind, run_call_.
  intros Hr. assert (h' = h2 ++ [(SysUnlink path, os h2 (SysUnlink path))]) as Eh by (destruct r1; by injection Hr).
  assert (refused new = refused (drop (length h) h2) ∪ refused [(SysUnlink path, os h2 (SysUnlink path))]) as Hnew.
  { rewrite <- refused_app. f_equal. rewrite Enew, Hk in Eh. unfold h1 in *.
    rewrite <- !app_assoc in Eh. apply app_inv_head in Eh. rewrite Hk, <- app_assoc, drop_app_length. by rewrite Eh, <- app_assoc. }
  rewrite Eh, Hnew, fd_table_snoc, tmp_files_snoc. simpl. rewrite Ho, Ht.
  destruct (os h2 (SysUnlink path)); unfold refused at 2; simpl; set_solver.
Qed.

Lemma setup_mount_namespace_tidied `{!KernelLaws} binds : relates tidied (setup_mount_namespace binds).
Proof.
  unfold setup_mount_namespace. cbv zeta.
  assert (forall E c, neutral c -> relates tidied (call_ c : sys E unit)) as Hc
    by (intros; apply tidy_tidied; eauto with tidy).
  assert (forall c, neutral c -> relates tidied (call c)) as Hc'
    by (intros; apply tidy_tidied; eauto with tidy).
  repeat match goal with |- relates _ (mbind _ _) => apply relates_bind; [apply _| |intros ?] end;
    try apply bind_mount_tmpfile_tidied.
  - by apply relates_map_err, Hc'.
  - by apply relates_map_err, Hc'.
  - apply tidy_tidied; [apply bind_all_tidy|apply bind_all_extends].
  - by apply Hc.
Qed.

(** ** Lemmas: the TUN device *)

Lemma tun_ioctl_spec sock fd request error h r h' : tun_ioctl sock fd request error h = (r, h') ->
  tmp_files h' = tmp_files h /\
  match r with
  | Ok _ => fd_table h' = fd_table h /\ exists v, h' = h ++ [(SysIoctl sock request, Ok v)]
  | Err _ => fd_table h' = delete fd (delete sock (fd_table h)) /\
      exists e a b, h' = h ++ [(SysIoctl sock request, Err e); (SysClose sock, a); (SysClose fd, b)]
  end.
Proof.
  unfold tun_ioctl. rewrite run_bind. unfold attempt, call. destruct (os h _) as [v|e].
  - intros [= <- <-]. rewrite tmp_files_snoc, fd_table_snoc. eauto.
  - rewrite !run_bind, !run_call_. rewrite run_bind, run_call_. intros [= <- <-].
    rewrite !tmp_files_snoc, !fd_table_snoc. do 2 (split; [done|]). eexists e, _, _. by rewrite <- !app_assoc.
Qed.

(** The calls that open and configure the device, and the last one, which closes
    the socket that the configuration went through. *)
Definition tun_setup (fd sock : Z) : list syscall :=
  let name := zero_pad 16 (str "eth0") in
  [SysOpen (str "/dev/net/tun"); SysIoctl fd (TUNSETIFF name 0x1001); SysSocket;
   SysIoctl sock (SIOCSIFMTU name 65000);
   SysIoctl sock (SIOCSIFADDR name ["172"; "023"; "255"; "255"]%byte);
   SysIoctl sock (SIOCSIFNETMASK name ["255"; "255"; "255"; "254"]%byte);
   SysIoctl sock (SIOCSIFFLAGS name 0x41);
   SysIoctl sock (SIOCADDRT ["000"; "000"; "000"; "000"]%byte ["172"; "023"; "255"; "254"]%byte
                            ["000"; "000"; "000"; "000"]%byte 0x3 name)].

(** The kernel granted a call. *)
Definition granted (e : syscall * answer) : Prop := is_ok e.2 = true.

(** [log] configured the device [fd]: the kernel granted every call. *)
Definition tun_configured (fd sock : Z) (log : history) : Prop :=
  exists oks a, log = oks ++ [(SysClose sock, a)] /\ calls oks = tun_setup fd sock /\ Forall granted oks /\
    (exists p, oks !! 0%nat = Some (SysOpen (str "/dev/net/tun"), Ok (fd, p))) /\
    (exists q, oks !! 2%nat = Some (SysSocket, Ok (sock, q))).

(** [log] stopped at the first call that the kernel refused, and closed what was
    open by then. *)
Definition tun_refused (log : history) : Prop :=
  exists fd sock oks c e closes, log = oks ++ (c, Err e) :: closes /\
    calls oks ++ [c] `prefix_of` tun_setup fd sock /\ Forall granted oks /\
    Forall (fun x => x.1 = SysClose fd \/ x.1 = SysClose sock) closes.

(** A chain of configuration steps. *)
Fixpoint ioctl_chain {A} (sock fd : Z) (l : list (ioctl * (Z -> namespace_error))) (k : sys namespace_error A)
    : sys namespace_error A :=
  match l with
  | [] => k
  | (request, error) :: l => _ ← tun_ioctl sock fd request error; ioctl_chain sock fd l k
  end.

Lemma ioctl_chain_spec {A} sock fd l (k : sys namespace_error A) h r h' F i j :
  fd_table h = <[sock := j]> (<[fd := i]> F) -> <[fd := i]> F !! sock = None -> F !! fd = None ->
  ioctl_chain sock fd l k h = (r, h') ->
  (is_err r = true /\ fd_table h' = F /\ tmp_files h' = tmp_files h /\
     exists oks c e closes, h' = h ++ oks ++ (c, Err e) :: closes /\
       calls oks ++ [c] `prefix_of` map (fun q => SysIoctl sock q.1) l /\ Forall granted oks /\
       Forall (fun x => x.1 = SysClose fd \/ x.1 = SysClose sock) closes) \/
  exists oks, k (h ++ oks) = (r, h') /\ fd_table (h ++ oks) = fd_table h /\ tmp_files (h ++ oks) = tmp_files h /\
    calls oks = map (fun q => SysIoctl sock q.1) l /\ Forall granted oks.
Proof.
  intros Ho Hs Hf. revert h Ho. induction l as [|[request error] l IH]; intros h Ho Hr; cbn [ioctl_chain] in Hr.
  - right. exists []. by rewrite app_nil_r.
  - rewrite run_bind in Hr. destruct (tun_ioctl sock fd request error h) as [[u|err] h1] eqn:E;
      apply tun_ioctl_spec in E as [Ht E].
    + destruct E as [Ho1 [v ->]].
      destruct (IH (h ++ [(SysIoctl sock request, Ok v)]))
        as [(He & Ho' & Ht' & oks & c & e & closes & -> & Hpre & Hok & Hcl)|(oks & Hk & Ho2 & Ht2 & Hc & Hok)]; [congruence|done| |].
      * left. split_and!; [done..|congruence|]. exists ((SysIoctl sock request, Ok v) :: oks), c, e, closes.
        split_and!; [by rewrite <- !app_assoc| |by constructor|done]. by apply prefix_cons.
      * right. exists ((SysIoctl sock request, Ok v) :: oks). rewrite <- app_assoc in Hk, Ho2, Ht2. simpl in Hk, Ho2, Ht2.
        split_and!; [done|by etrans|by etrans|simpl; by f_equal|by constructor].
    + destruct E as (E & e & a & b & ->). left. injection Hr as <- <-. split_and!; [done| |done|].
      * by rewrite E, Ho, !delete_insert_id.
      * exists [], (SysIoctl sock request), e, [(SysClose sock, a); (SysClose fd, b)].
        split_and!; [done|simpl; by apply prefix_cons, prefix_nil|constructor|constructor; [by right|constructor; [by left|done]]].
Qed.

Lemma create_tun_lemma `{!KernelLaws} h r h' : create_tun h = (r, h') ->
  tmp_files h' = tmp_files h /\
  match r with
  | Ok fd => fd ∉ open_fds h /\ fd_table h' = <[fd := length h]> (fd_table h) /\
             exists sock log, h' = h ++ log /\ tun_configured fd sock log
  | Err _ => fd_table h' = fd_table h /\ exists log, h' = h ++ log /\ tun_refused log
  end.
Proof.
  unfold create_tun. change (IF_NAMESIZE <=? blen TUN_NAME) with false. cbv iota.
  rewrite run_bind. unfold sys_map_err. rewrite run_call_z.
  set (c1 := SysOpen (str "/dev/net/tun")). destruct (os h c1) as [[fd p]|e] eqn:Eo; cbn [map_err fst].
  2: { intros [= <- <-]. rewrite tmp_files_snoc, fd_table_snoc. do 2 (split; [done|]). eexists. split; [done|].
       exists 0, 0, [], c1, e, []. split_and!; [done|apply prefix_cons, prefix_nil|done|done]. }
  apply fresh_fd in Eo as Hfd. apply not_open in Hfd as Hn. set (h1 := h ++ _).
  assert (fd_table h1 = <[fd := length h]> (fd_table h) /\ tmp_files h1 = tmp_files h) as (Ho1 & Ht1)
    by (unfold h1; by rewrite fd_table_snoc, tmp_files_snoc).
  rewrite run_bind. unfold attempt at 1, call at 1.
  set (c2 := SysIoctl fd _). destruct (os h1 c2) as [v|e] eqn:Ei.
  2: { rewrite run_bind, run_call_. intros [= <- <-]. rewrite !tmp_files_snoc, !fd_table_snoc. simpl.
       split; [done|]. split; [by rewrite Ho1, delete_insert_id|].
       unfold h1. rewrite <- !app_assoc. eexists. split; [done|].
       exists fd, 0, [(c1, Ok (fd, p))], c2, e. eexists. split_and!; [done|by eexists|by repeat constructor|].
       by constructor; [left|]. }
  set (h2 := h1 ++ _).
  assert (fd_table h2 = <[fd := length h]> (fd_table h) /\ tmp_files h2 = tmp_files h) as (Ho2 & Ht2)
    by (unfold h2; by rewrite fd_table_snoc, tmp_files_snoc).
  rewrite run_bind. unfold attempt at 1. rewrite run_call_z.
  destruct (os h2 SysSocket) as [[sock q]|e] eqn:Es; cbn [fst].
  2: { rewrite run_bind, run_call_. intros [= <- <-]. rewrite !tmp_files_snoc, !fd_table_snoc. simpl.
       split; [done|]. split; [by rewrite Ho2, delete_insert_id|].
       unfold h2, h1. rewrite <- !app_assoc. eexists. split; [done|].
       exists fd, 0, [(c1, Ok (fd, p)); (c2, Ok v)], SysSocket, e. eexists. split_and!; [done|by eexists|by repeat constructor|].
       by constructor; [left|]. }
  apply fresh_fd, not_open in Es as Hs. rewrite Ho2 in Hs. set (h3 := h2 ++ _).
  assert (fd_table h3 = <[sock := length h2]> (<[fd := length h]> (fd_table h)) /\ tmp_files h3 = tmp_files h) as (Ho3 & Ht3).
  { unfold h3. rewrite fd_table_snoc, tmp_files_snoc. simpl. by rewrite Ho2. }
  intros Hr. set (front := [(c1, Ok (fd, p) : answer); (c2, Ok v); (SysSocket, Ok (sock, q))]).
  assert (h3 = h ++ front) as Hfront by (unfold h3, h2, h1; by rewrite <- !app_assoc).
  match type of Hr with ?m h3 = _ =>
    change m with (ioctl_chain sock fd
      [(SIOCSIFMTU (zero_pad 16 TUN_NAME) TUN_MTU, TunMtu);
       (SIOCSIFADDR (zero_pad 16 TUN_NAME) (ipv4_octets TUN_ADDR), TunAddr);
       (SIOCSIFNETMASK (zero_pad 16 TUN_NAME) (netmask_octets TUN_PREFIX), TunNetmask);
       (SIOCSIFFLAGS (zero_pad 16 TUN_NAME) (Z.lor IFF_UP IFF_RUNNING), TunUp);
       (SIOCADDRT (be32 0) (ipv4_octets TUN_GW) (be32 0) (Z.lor RTF_UP RTF_GATEWAY) (zero_pad 16 TUN_NAME), TunRoute)]
      (_ ← call_ (SysClose sock); mret fd)) in Hr end.
  destruct (ioctl_chain_spec _ _ _ _ _ _ _ _ _ _ Ho3 Hs Hn Hr)
    as [(He & Ho & Ht & oks & c & e & closes & Eh & Hpre & Hok & Hcl)|(oks & Hk & Ho4 & Ht4 & Hc & Hok)].
  { destruct r; [done|]. rewrite Ho, Ht. do 2 (split; [done|]). rewrite Hfront, <- app_assoc in Eh. eexists. split; [exact Eh|].
    exists fd, sock, (front ++ oks), c, e, closes. split_and!; [by rewrite <- app_assoc| |by repeat constructor|done].
    unfold calls. rewrite map_app. exact (prefix_app (map fst front) _ _ Hpre). }
  rewrite run_bind, run_call_ in Hk. injection Hk as <- <-. rewrite fd_table_snoc, tmp_files_snoc. simpl.
  rewrite Ho4, Ho3, Ht4, delete_insert_id by done. split_and!; [done..|]. rewrite Hfront, <- !app_assoc.
  exists sock. eexists. split; [done|]. exists (front ++ oks). eexists.
  split_and!; [by rewrite <- app_assoc| |by repeat constructor|by eexists|by eexists].
  unfold calls in *. rewrite map_app, Hc. done.
Qed.
End Namespace.

(** The mask of a prefix length: exactly its leading bits are set. *)
Lemma netmask_bits prefix i : 0 <= prefix <= 32 -> 0 <= i < 32 ->
  exists mask, netmask_octets prefix = be32 mask /\ is_u32 mask /\ Z.testbit mask (31 - i) = (i <? prefix).
Proof.
  intros Hp Hi. unfold netmask_octets. eexists. split; [done|]. destruct (prefix =? 0) eqn:E; bool_prop.
  - subst. split; [done|]. rewrite Z.bits_0. symmetry. apply Z.ltb_ge. lia.
  - split; [apply Z.mod_pos_bound; lia|]. change 4294967296 with (2 ^ 32).
    rewrite Z.mod_pow2_bits_low by lia. rewrite Z.shiftl_spec by lia. change u32_max with (Z.ones 32).
    rewrite Z.testbit_ones by lia. apply Bool.eq_iff_eq_true.
    rewrite andb_true_iff, Z.leb_le, !Z.ltb_lt. lia.
Qed.

(** ** Properties *)

(** C32. Namespace setup leaks nothing, on any path: whatever the kernel
    answers, entering the namespaces, writing the id maps, mounting the DNS
    configuration and the bind mounts, and bringing up the loopback leave open
    exactly the descriptors that were open; mounting leaves no temporary file
    behind but one whose removal the kernel refuses, and the others touch none. *)
Theorem namespace_setup_tidy `{KernelLaws} pid uid gid binds :
  tidy create_namespace /\ tidy (write_id_maps pid uid gid) /\
  relates tidied (setup_mount_namespace binds) /\ tidy bringup_loopback.
Proof.
  split_and!; [apply create_namespace_tidy|apply write_id_maps_tidy|apply setup_mount_namespace_tidied|
    apply bringup_loopback_tidy].
Qed.

(** C34. The TUN device: [create_tun] returns a new descriptor, the only one it
    leaves open, when the kernel has granted the full sequence of calls that
    configures [eth0] (MTU, address, the netmask of the prefix, up, default
    route through the gateway); otherwise it has stopped at the first call of
    this sequence that the kernel refused, and has closed whatever it opened. *)
Theorem create_tun_spec `{KernelLaws} h r h' : create_tun h = (r, h') ->
  tmp_files h' = tmp_files h /\
  match r with
  | Ok fd => fd ∉ open_fds h /\ open_fds h' = {[fd]} ∪ open_fds h /\
             exists sock log, h' = h ++ log /\ tun_configured fd sock log
  | Err _ => open_fds h' = open_fds h /\ exists log, h' = h ++ log /\ tun_refused log
  end.
Proof.
  intros [Ht Hr]%create_tun_lemma. split; [done|].
  destruct r as [fd|e]; [|destruct Hr; split; [by apply open_fds_table|done]].
  destruct Hr as (Hf & Ho & Hc). split_and!; [done| |done]. unfold open_fds. by rewrite Ho, dom_insert_L.
Qed.

(** ** Witnesses *)

(** A kernel that grants everything: descriptors above the open ones, temporary
    names longer than the existing ones, writes of up to eight bytes. *)
Definition kind_kernel : Kernel := fun h c =>
  let fd := 1 + foldr Z.max 0 (elements (open_fds h)) in
  match c with
  | SysWrite _ d => Ok (Z.min 8 (blen d), [])
  | SysMkstemp t => Ok (fd, replicate (S (foldr Nat.max 0%nat (length <$> elements (tmp_files h)))) "x"%byte)
  | _ => Ok (fd, [])
  end.

Lemma foldr_max_Z l x : x ∈ l -> x <= foldr Z.max 0 l.
Proof. induction 1; simpl; lia. Qed.

Lemma foldr_max_nat l x : x ∈ l -> (x <= foldr Nat.max 0 l)%nat.
Proof. induction 1; simpl; lia. Qed.

Lemma kind_kernel_laws : @KernelLaws kind_kernel.
Proof.
  split.
  - intros h c fd p E. destruct c; try done.
    all: injection E as <- _; intros Hin%elem_of_elements%foldr_max_Z; lia.
  - intros h t fd p E. unfold os, kind_kernel in E. injection E as _ <-. intros Hin.
    apply elem_of_elements in Hin. apply (list_elem_of_fmap_2 length), foldr_max_nat in Hin.
    rewrite length_cons, length_replicate in Hin. lia.
  - intros h fd d n p E. unfold os, kind_kernel in E. injection E as <- _. pose proof (blen_nonneg d). lia.
Qed.

Lemma namespace_setup_tidy_witness : tidy (@bringup_loopback kind_kernel).
Proof.
  destruct (@namespace_setup_tidy kind_kernel kind_kernel_laws 1 0 0 []) as (_ & _ & _ & Hb). exact Hb.
Defined.

Lemma create_tun_spec_witness :
  open_fds (snd (@create_tun kind_kernel [])) = {[1]} ∪ open_fds [].
Proof.
  destruct (@create_tun_spec kind_kernel kind_kernel_laws [] (Ok 1) (snd (@create_tun kind_kernel []))) as (_ & _ & Ho & _).
  - vm_compute. reflexivity.
  - exact Ho.
Defined.
