(* ===== verification/Mounts.v ===== *)
(** * What the command sees of the mount namespace (src/src/namespace.rs)

    A reading of the history of system calls as a file system: the temporary
    files with their contents and modes, and what is mounted over which file.
    The DNS configuration that [setup_mount_namespace] mounts is shown to be
    what the command finds, also when the kernel writes it in several pieces
    and when a configuration file is a symbolic link. *)

From S2P Require Import Prelude RustStr RustNet BindMount Config Os Namespace.

(** ** The files of a history *)

(** A file: its contents and its mode. *)
Notation file := (bytes * Z)%type (only parsing).

Record files : Type := mkFiles {
  (** the temporary file behind a descriptor *)
  opened : gmap Z bytes;
  (** the temporary files by name *)
  named : gmap bytes file;
  (** what covers a file, by the identity of the file: a temporary file, or
      something else *)
  covered : gmap (Z * Z) (option file);
}.

Definition with_opened (f : gmap Z bytes -> gmap Z bytes) (s : files) : files :=
  mkFiles (f (opened s)) (named s) (covered s).
Definition with_named (f : gmap bytes file -> gmap bytes file) (s : files) : files :=
  mkFiles (opened s) (f (named s)) (covered s).

(** Change the file behind a descriptor. *)
Definition alter_fd (f : file -> file) (fd : Z) (s : files) : files :=
  match opened s !! fd with Some p => with_named (alter f p) s | None => s end.

Section Mounts.
(** [lstat] is the file system before anything is mounted; [follow] is the path
    that a path leads to when its final symbolic link is followed. *)
Variable lstat : bytes -> option metadata.
Variable follow : bytes -> bytes.

(** The file that a path names directly. *)
Definition place (path : bytes) : option (Z * Z) := meta ← lstat path; Some (dev meta, ino meta).

Definition cover (at_ : option (Z * Z)) (x : option file) (s : files) : files :=
  match at_ with Some id => mkFiles (opened s) (named s) (<[id := x]> (covered s)) | None => s end.

(** [mount] follows the symbolic link that its target names, unless something
    covers the link. *)
Definition landing (s : files) (path : bytes) : option (Z * Z) :=
  id ← place path;
  match covered s !! id with Some _ => Some id | None => place (follow path) end.

(** A mount keeps the file alive when its name is unlinked; [move_mount] covers
    the file that the target names directly. *)
Definition file_effect (s : files) (e : syscall * answer) : files :=
  match e with
  | (SysMkstemp _, Ok (fd, p)) => with_opened <[fd := p]> (with_named <[p := ([], 384)]> s)
  | ((SysOpen _ | SysSocket | SysOpenTree _ | SysRecvmsg _), Ok (fd, _)) => with_opened (delete fd) s
  | (SysClose fd, _) => with_opened (delete fd) s
  | (SysWrite fd d, Ok (n, _)) => alter_fd (fun x => (x.1 ++ take (Z.to_nat n) d, x.2)) fd s
  | (SysChmod fd mode, Ok _) => alter_fd (fun x => (x.1, mode)) fd s
  | (SysUnlink p, Ok _) => with_named (delete p) s
  | (SysMount (Some p) target None [MS_BIND], Ok _) => cover (landing s target) (named s !! p) s
  | (SysMount (Some _) target _ _, Ok _) => cover (landing s target) None s
  | (SysMoveMount _ target, Ok _) => cover (place target) None s
  | _ => s
  end.

Definition files_of (h : history) : files := foldl file_effect (mkFiles ∅ ∅ ∅) h.

(** The temporary file that opening a path gives. *)
Definition shows (h : history) (path : bytes) : option file :=
  id ← landing (files_of h) path;
  match covered (files_of h) !! id with Some x => x | None => None end.

(** ** Lemmas *)

Lemma files_of_snoc h e : files_of (h ++ [e]) = file_effect (files_of h) e.
Proof. unfold files_of. by rewrite foldl_app. Qed.

(** Where a mount lands depends on what is covered only. *)
Lemma covered_cover s s' path x : covered s = covered s' ->
  covered (cover (landing s path) x s) = covered (cover (landing s' path) x s').
Proof.
  intros E. assert (landing s path = landing s' path) as -> by (unfold landing; by rewrite E).
  unfold cover. by destruct (landing s' path); simpl; rewrite E.
Qed.

(** Removing a name, or failing to, leaves the mounts. *)
Lemma covered_unlink s path r : covered (file_effect s (SysUnlink path, r)) = covered s.
Proof. by destruct r. Qed.

Context `{Kernel} `{!KernelLaws}.

(** A file behind a descriptor takes all the data, in as many writes as the
    kernel needs. *)
Lemma write_loop_ok fuel (fd : Z) data path (x : file) h u h' :
  (length data <= fuel)%nat -> opened (files_of h) !! fd = Some path -> named (files_of h) !! path = Some x ->
  write_loop fuel fd data h = (Ok u, h') ->
  opened (files_of h') = opened (files_of h) /\ covered (files_of h') = covered (files_of h) /\
  named (files_of h') !! path = Some (x.1 ++ data, x.2).
Proof.
  revert data x h. induction fuel as [|fuel IH]; intros [|b data] x h Hl Ho Hn; cbn [write_loop length] in *;
    try lia; try (intros [= <- <-]; rewrite app_nil_r; by destruct x).
  rewrite run_bind. unfold sys_map_err. rewrite run_call_z.
  destruct (os h _) as [[n p]|e] eqn:E; cbn [map_err fst]; [|done].
  pose proof (write_count _ _ _ _ _ E) as Hc. case_if; [done|]. intros Hr.
  set (h1 := h ++ _) in Hr. assert (files_of h1 = file_effect (files_of h) (SysWrite fd (b :: data), Ok (n, p))) as E1
    by apply files_of_snoc.
  cbn [file_effect] in E1. unfold alter_fd in E1. rewrite Ho in E1.
  apply (IH _ (x.1 ++ take (Z.to_nat n) (b :: data), x.2)) in Hr.
  - destruct Hr as (G1 & G2 & G3). rewrite E1 in G1, G2. split_and!; [done..|].
    rewrite G3. simpl. by rewrite <- app_assoc, take_drop.
  - rewrite length_drop. simpl. lia.
  - by rewrite E1.
  - rewrite E1. cbn [with_named named]. by rewrite lookup_alter_eq, Hn. 
Qed.

Lemma bind_mount_tmpfile_covers content target h u h' : bind_mount_tmpfile content target h = (Ok u, h') ->
  covered (files_of h') = covered (cover (landing (files_of h) target) (Some (content, 420)) (files_of h)).
Proof.
  unfold bind_mount_tmpfile. rewrite run_bind. unfold sys_map_err at 1, call at 1.
  destruct (os h (SysMkstemp _)) as [[fd path]|e] eqn:E; cbn [map_err]; [|done].
  set (h1 := h ++ _). assert (files_of h1 = file_effect (files_of h) (SysMkstemp _, Ok (fd, path))) as E1
    by apply files_of_snoc.
  clearbody h1. unfold with_unlink, with_close. rewrite run_bind. unfold attempt at 1.
  rewrite !run_bind. unfold attempt at 1. rewrite !run_bind. unfold sys_map_err at 1.
  destruct (write_all fd content h1) as [[u1|e] h2] eqn:Ew; cbn [map_err]; [|by rewrite run_bind, run_call_].
  apply (write_loop_ok _ _ _ path (([], 384))) in Ew as (G1 & G2 & G3); [|done|by rewrite E1; apply lookup_insert_eq..].
  unfold sys_map_err at 1, call at 1. destruct (os h2 _) as [v|e] eqn:Ec; cbn [map_err];
    [|by rewrite run_bind, run_call_].
  rewrite run_bind, run_call_. set (h3 := h2 ++ _). set (h4 := h3 ++ _).
  assert (files_of h3 = alter_fd (fun x => (x.1, 420)) fd (files_of h2)) as E3
    by (unfold h3; by rewrite files_of_snoc).
  assert (files_of h4 = with_opened (delete fd) (files_of h3)) as E4 by (unfold h4; by rewrite files_of_snoc).
  clearbody h3 h4. unfold alter_fd in E3. rewrite G1, E1 in E3. simpl in E3. rewrite lookup_insert_eq in E3.
  rewrite run_ret.
  destruct (negb (utf8_valid path)); [by unfold bail at 1; rewrite run_bind, run_call_|].
  rewrite run_bind. unfold sys_map_err, call. destruct (os h4 _) as [v4|e] eqn:Em; cbn [map_err].
  2: by rewrite run_bind, run_call_.
  rewrite run_ret, run_bind, run_call_. intros [= _ <-]. rewrite !files_of_snoc, covered_unlink.
  cbn [file_effect]. assert (named (files_of h4) !! path = Some (content, 420)) as ->.
  { rewrite E4, E3. cbn [with_opened with_named named]. by rewrite lookup_alter_eq, G3. }
  apply covered_cover. rewrite E4, E3. simpl. by rewrite G2, E1.
Qed.

Lemma bind_all_covers binds h u h' id : bind_all binds h = (Ok u, h') ->
  Forall (fun b => place (target b) <> Some id) binds -> covered (files_of h') !! id = covered (files_of h) !! id.
Proof.
  revert h. induction binds as [|b binds IH]; intros h; cbn [bind_all map]; [by intros [= _ <-]|].
  rewrite run_bind. destruct (bind_mount_nofollow b h) as [[u1|e] h1] eqn:E; [|done].
  intros Hr [Hp Hall]%Forall_cons_1. rewrite (IH _ Hr Hall). clear IH Hr. revert E.
  unfold bind_mount_nofollow. destruct (cstring (source b)) as [src|], (cstring (target b)) as [dst|] eqn:Ed; try done.
  assert (dst = target b) as -> by (unfold cstring in Ed; case_bool_decide; by simplify_eq).
  rewrite run_bind. unfold sys_map_err at 1. rewrite run_call_z.
  destruct (os h _) as [[fd p]|e] eqn:Eo; cbn [map_err fst]; [|done].
  unfold with_close. rewrite run_bind. unfold attempt, sys_map_err, call. rewrite !run_bind.
  destruct (os _ (SysMoveMount fd (target b))) as [v|e] eqn:Em; cbn [map_err].
  2: { rewrite run_bind, run_call_. done. }
  rewrite run_ret, run_bind, run_call_. intros [= _ <-].
  rewrite !files_of_snoc. cbn. unfold cover. destruct (place (target b)) as [id'|]; [|done].
  cbn. apply lookup_insert_ne. congruence.
Qed.

(** Code that mounts nothing. *)
Definition mountless (c : syscall) : Prop :=
  match c with SysMount _ _ _ _ | SysMoveMount _ _ => False | _ => True end.

Definition covered_of (h : history) : gmap (Z * Z) (option file) := covered (files_of h).

Lemma alter_fd_covered f fd s : covered (alter_fd f fd s) = covered s.
Proof. unfold alter_fd. by case_match. Qed.

Lemma mountless_call c : mountless c -> preserves covered_of (call c).
Proof.
  intros Hc h r h' [= <- <-]. unfold same, covered_of. rewrite files_of_snoc.
  destruct c; try done; destruct (os h _) as [[]|]; simpl; rewrite ?alter_fd_covered; done.
Qed.

Lemma mountless_call_z c : mountless c -> preserves covered_of (call_z c).
Proof. intros Hc. apply relates_bind; [apply _|by apply mountless_call|intros; by apply relates_ret, _]. Qed.

Lemma mountless_call_ {E} c : mountless c -> preserves covered_of (call_ c : sys E unit).
Proof.
  intros Hc. apply relates_bind; [apply _|by apply relates_attempt, mountless_call|intros; by apply relates_ret, _].
Qed.

#[local] Hint Resolve mountless_call mountless_call_z mountless_call_ : tidy.
#[local] Hint Extern 1 (mountless _) => exact I : tidy.

Lemma create_namespace_mountless : preserves covered_of create_namespace.
Proof. unfold create_namespace. tidy. Qed.

Lemma bringup_loopback_mountless : preserves covered_of bringup_loopback.
Proof. unfold bringup_loopback. tidy. Qed.

Lemma create_tun_mountless : preserves covered_of create_tun.
Proof. unfold create_tun, tun_ioctl. tidy. Qed.

(** ** The DNS configuration *)

Definition resolv_conf : bytes := str "/etc/resolv.conf".
Definition nsswitch_conf : bytes := str "/etc/nsswitch.conf".
Definition ssh_config_d : bytes := str "/etc/ssh/ssh_config.d".

(** The files behind a path: the one it names, and the one it leads to. *)
Definition behind (path : bytes) (id : Z * Z) : Prop := place path = Some id \/ place (follow path) = Some id.

(** Nothing is behind both paths. *)
Definition apart (p q : bytes) : Prop := forall id, behind p id -> behind q id -> False.

Lemma landing_behind s path id : landing s path = Some id -> behind path id.
Proof.
  unfold landing, behind. destruct (place path) as [a|]; cbn [mbind option_bind]; [|done].
  case_match; intros [= ->]; auto.
Qed.

(** A mount that lands elsewhere. *)
Lemma cover_elsewhere s path x id : ~ behind path id -> covered (cover (landing s path) x s) !! id = covered s !! id.
Proof.
  intros G. unfold cover. destruct (landing s path) as [id'|] eqn:E; [|done]. simpl.
  apply lookup_insert_ne. intros ->. by apply landing_behind in E.
Qed.

Lemma landing_ext s s' path : (forall id, place path = Some id -> covered s !! id = covered s' !! id) ->
  landing s path = landing s' path.
Proof. intros G. unfold landing. destruct (place path) as [id|]; cbn [mbind option_bind]; [|done]. by rewrite G. Qed.

(** A path of which nothing was covered shows what was mounted there. *)
Lemma shows_mounted s h path x :
  is_Some (place path) -> is_Some (place (follow path)) -> (forall id, behind path id -> covered s !! id = None) ->
  (forall id, behind path id -> covered (files_of h) !! id = covered (cover (landing s path) (Some x) s) !! id) ->
  shows h path = Some x.
Proof.
  intros [a Ha] [b Hb] Hs Hh. assert (landing s path = Some b) as El.
  { unfold landing. rewrite Ha. cbn [mbind option_bind]. rewrite Hs by by left. done. }
  rewrite El in Hh. cbn [cover covered] in Hh. unfold shows.
  assert (covered (files_of h) !! b = Some (Some x)) as Eb by (rewrite Hh by (by right); apply lookup_insert_eq).
  assert (landing (files_of h) path = Some b) as ->.
  { unfold landing. rewrite Ha. cbn [mbind option_bind]. destruct (decide (a = b)) as [->|Hne]; [by rewrite Eb|].
    rewrite Hh by by left. by rewrite lookup_insert_ne, Hs by (done || by left). }
  cbn [mbind option_bind]. by rewrite Eb.
Qed.

(** The DNS configuration can be mounted and no other mount gets in its way. *)
Record dns_mountable (binds : list BindMount) : Prop := {
  dm_exist p : p ∈ INTERNAL_BIND_TARGETS -> is_Some (place p) /\ is_Some (place (follow p));
  dm_two : apart resolv_conf nsswitch_conf;
  dm_ssh_resolv : apart ssh_config_d resolv_conf;
  dm_ssh_nsswitch : apart ssh_config_d nsswitch_conf;
  dm_binds : Forall (fun b => forall p id, p ∈ INTERNAL_BIND_TARGETS -> behind p id -> place (target b) <> Some id) binds;
}.

(** What the command is meant to find; 420 is the mode 0o644. *)
Definition shows_dns (h : history) : Prop :=
  shows h resolv_conf = Some (str "nameserver 172.23.255.254" ++ ["010"%byte], 420) /\
  shows h nsswitch_conf = Some (str "hosts: files dns" ++ ["010"%byte], 420).

Lemma shows_dns_covered h h' : covered_of h' = covered_of h -> shows_dns h -> shows_dns h'.
Proof. unfold shows_dns, shows, landing, covered_of. by intros ->. Qed.

Lemma setup_mount_namespace_shows binds h u h' :
  covered (files_of h) = ∅ -> dns_mountable binds -> setup_mount_namespace binds h = (Ok u, h') -> shows_dns h'.
Proof.
  intros Hh [Hin Hrn Hsr Hsn Hb]. unfold setup_mount_namespace.
  rewrite run_bind. unfold sys_map_err at 1, call at 1. destruct (os h _) as [v1|e]; cbn [map_err]; [|done].
  rewrite run_bind. unfold sys_map_err at 1, call at 1. destruct (os _ (SysMount None _ _ _)) as [v2|e]; cbn [map_err]; [|done].
  set (h2 := (h ++ _) ++ _). assert (covered (files_of h2) = ∅) as H2 by (unfold h2; by rewrite !files_of_snoc).
  clearbody h2. cbv zeta. rewrite run_bind. destruct (bind_mount_tmpfile _ _ h2) as [[u3|e] h3] eqn:E3; [|done].
  apply bind_mount_tmpfile_covers in E3. rewrite run_bind.
  destruct (bind_mount_tmpfile _ _ h3) as [[u4|e] h4] eqn:E4; [|done]. apply bind_mount_tmpfile_covers in E4.
  rewrite run_bind. destruct (bind_all binds h4) as [[u5|e] h5] eqn:E5; [|done]. rewrite run_call_. intros [= _ <-].
  assert (forall p id, p ∈ INTERNAL_BIND_TARGETS -> behind p id ->
    covered (files_of (h5 ++ [(SysMount (Some (str "tmpfs")) ssh_config_d (Some (str "tmpfs")) [],
      os h5 (SysMount (Some (str "tmpfs")) ssh_config_d (Some (str "tmpfs")) []))])) !! id
    = covered (files_of h4) !! id) as Hlast.
  { intros p id Hp Hid. rewrite <- (bind_all_covers _ _ _ _ id E5).
    - rewrite files_of_snoc. destruct (os h5 _) as [v|e]; [|done]. cbn [file_effect]. apply cover_elsewhere.
      intros G. unfold INTERNAL_BIND_TARGETS in Hp. set_solver.
    - eapply Forall_impl; [exact Hb|]. intros b G. by eapply G. }
  split.
  - apply (shows_mounted (files_of h2)).
    1-2: apply Hin; set_solver.
    + intros id _. by rewrite H2.
    + intros id Hid. rewrite (Hlast resolv_conf) by (done || set_solver). rewrite E4, cover_elsewhere, E3; [done|].
      intros G. by apply (Hrn id).
  - apply (shows_mounted (files_of h3)).
    1-2: apply Hin; set_solver.
    + intros id Hid. rewrite E3, cover_elsewhere, H2; [done|]. intros G. by apply (Hrn id).
    + intros id Hid. rewrite (Hlast nsswitch_conf) by (done || set_solver). by rewrite E4.
Qed.
End Mounts.

(** The identities that validation rejects are those of the directly named
    files. *)
Lemma internal_ids_place lstat internal p id :
  internal_ids lstat = Ok internal -> p ∈ INTERNAL_BIND_TARGETS -> place lstat p = Some id -> id ∈ internal.
Proof.
  unfold internal_ids. destruct (mapM_result _ _) as [ids|] eqn:E; cbn [mbind result_bind]; [|done].
  intros [= <-] Hp Hid. apply mapM_result_Ok in E. apply list_elem_of_lookup in Hp as [i Hi].
  destruct (Forall2_lookup_l _ _ _ _ _ E Hi) as (y & Hy & Ey). apply elem_of_list_to_set.
  apply list_elem_of_lookup_2 with i. rewrite Hy. f_equal. unfold place in Hid.
  destruct (lstat p); cbn [mbind option_bind] in Hid; [|done]. by simplify_eq/=.
Qed.

(** ** Properties *)

(** C33. What the command finds as its DNS configuration: when the mount
    namespace is set up, however many writes the kernel needs and whatever the
    validated bind mounts are, [/etc/resolv.conf] names the address at which
    nsproxy intercepts DNS and [/etc/nsswitch.conf] sends names there, both
    readable by all users (mode 0o644 = 420); provided that no bind mount covers the file to which
    one of the two is a symbolic link, which validation does not look at. *)
Theorem dns_configuration_visible `{KernelLaws} lstat follow internal binds h u h' :
  covered (files_of lstat follow h) = ∅ ->
  (forall p, p ∈ INTERNAL_BIND_TARGETS -> is_Some (place lstat (follow p))) ->
  apart lstat follow resolv_conf nsswitch_conf -> apart lstat follow ssh_config_d resolv_conf ->
  apart lstat follow ssh_config_d nsswitch_conf ->
  internal_ids lstat = Ok internal -> Forall (valid_mount lstat internal) binds ->
  Forall (fun b => forall p, p ∈ INTERNAL_BIND_TARGETS -> target_id lstat b <> place lstat (follow p)) binds ->
  setup_mount_namespace binds h = (Ok u, h') ->
  shows lstat follow h' resolv_conf = Some (str "nameserver 172.23.255.254" ++ ["010"%byte], 420) /\
  shows lstat follow h' nsswitch_conf = Some (str "hosts: files dns" ++ ["010"%byte], 420).
Proof.
  intros Hh Hin Hrn Hsr Hsn Hids Hv Hf Es. refine (setup_mount_namespace_shows _ _ binds h u h' Hh _ Es). split; try done.
  - intros p Hp. split; [|by apply Hin]. unfold internal_ids in Hids.
    destruct (mapM_result _ _) as [ids|] eqn:E; cbn [mbind result_bind] in Hids; [|done].
    apply mapM_result_Ok in E. apply list_elem_of_lookup in Hp as [i Hi].
    destruct (Forall2_lookup_l _ _ _ _ _ E Hi) as (y & _ & Ey).
    unfold place. by destruct (lstat p).
  - apply Forall_forall. intros b Hb p id Hp [Hid|Hid] Ht.
    + rewrite Forall_forall in Hv. destruct (Hv b Hb) as (_ & _ & _ & _ & id' & Hid' & Hn).
      apply Hn. replace id' with id; [by eapply internal_ids_place|]. unfold target_id in Hid'. unfold place in Ht. congruence.
    + rewrite Forall_forall in Hf. apply (Hf b Hb p Hp). unfold target_id. unfold place in Ht. by rewrite Ht, <- Hid.
Qed.

(** ** Witnesses *)

(** The directory of the ssh configuration beside the files of [demo_lstat]. *)
Definition mount_lstat (p : bytes) : option metadata :=
  if bool_decide (p = ssh_config_d) then Some (mkMeta OtherFile 1 9) else demo_lstat p.

Definition demo_binds : list BindMount := [mkBind (str "/home/a") (str "/home/b")].

Lemma dns_configuration_visible_witness :
  shows mount_lstat id (snd (@setup_mount_namespace kind_kernel demo_binds [])) resolv_conf
  = Some (str "nameserver 172.23.255.254" ++ ["010"%byte], 420).
Proof.
  assert (forall p q, place mount_lstat p <> place mount_lstat q -> apart mount_lstat id p q) as Hap
    by (intros p q Hne i [E1|E1] [E2|E2]; unfold id in *; congruence).
  destruct (@dns_configuration_visible kind_kernel kind_kernel_laws mount_lstat id (list_to_set [(1, 1); (1, 2)])
    demo_binds [] () (snd (@setup_mount_namespace kind_kernel demo_binds []))) as [Hr _].
  - reflexivity.
  - intros p Hp. unfold INTERNAL_BIND_TARGETS in Hp. apply list_elem_of_In in Hp as [<-|[<-|[]]]; by eexists.
  - apply Hap. vm_compute. discriminate.
  - apply Hap. vm_compute. discriminate.
  - apply Hap. vm_compute. discriminate.
  - vm_compute. reflexivity.
  - constructor; [|constructor]. split_and!; [reflexivity | reflexivity | | |].
    + by exists (mkMeta RegularFile 1 3).
    + by exists (mkMeta Symlink 1 4).
    + exists (1, 4). split; [reflexivity|]. by_decide.
  - repeat constructor. intros p Hp. unfold INTERNAL_BIND_TARGETS in Hp.
    apply list_elem_of_In in Hp as [<-|[<-|[]]]; vm_compute; discriminate.
  - vm_compute. reflexivity.
  - exact Hr.
Defined.

(** The check of the internal targets does not follow symbolic links, the
    internal mounts do: where [/etc/resolv.conf] leads to the file [b], a bind
    mount over [b] is accepted and replaces the DNS configuration. *)
Example symlinked_resolv_conf_covered :
  let follow p := if bool_decide (p = resolv_conf) then str "/home/b" else p in
  parse_bind_mounts mount_lstat (str "/home") [str "a:b"] (str "/home") = Ok demo_binds /\
  is_ok (fst (@setup_mount_namespace kind_kernel demo_binds [])) = true /\
  shows mount_lstat follow (snd (@setup_mount_namespace kind_kernel [] [])) resolv_conf
    = Some (str "nameserver 172.23.255.254" ++ ["010"%byte], 420) /\
  shows mount_lstat follow (snd (@setup_mount_namespace kind_kernel demo_binds [])) resolv_conf = None.
Proof. by vm_compute. Qed.
