(* ===== verification/Process.v ===== *)
(** * The managed command tree (src/src/process.rs)

    The reaper that runs the user's command: how the command is executed, how
    the exit status of the tree is collected and how termination signals reach
    every descendant.  [/proc] and [kill] are parameters, read at most once per
    process in a pass; [waitpid] and [sigtimedwait] are given by the answers
    they return, round by round, and [start_answers] those of the calls that
    start the command. *)

From S2P Require Import Prelude RustStr.

(** ** Signals, errors and time *)

Definition SIGHUP : Z := 1.
Definition SIGINT : Z := 2.
Definition SIGKILL : Z := 9.
Definition SIGTERM : Z := 15.
Definition SIGCHLD : Z := 17.

Definition ESRCH : Z := 3.
Definition ECHILD : Z := 10.

(** Durations and instants in nanoseconds. *)
Definition TERMINATION_GRACE : Z := 2000000000.
Definition KILL_INTERVAL : Z := 100000000.

Inductive io_error : Type := NotFound | OtherIo (code : Z).

Inductive process_error : Type :=
| NoCommand
| NulInArgument (i : nat)
| Execvp (errno : Z)
| ListThreads (e : io_error)
| ReadEntry (e : io_error)
| ListChildren (e : io_error)
| ParsePid
| SendSignal (pid errno : Z)
| NoStatus
| WaitPid (errno : Z)
| WaitSignal (errno : Z)
| BadSignal (number : Z)
| SubReaper (errno : Z)
| SignalMask (errno : Z)
| ForkCommand (errno : Z).

(** ** Executing the command *)

(** [CString::new]: no interior NUL. *)
Definition cstring (s : bytes) : option bytes :=
  if bool_decide (Byte.x00 ∈ s) then None else Some s.

Fixpoint cstrings (i : nat) (args : list bytes) : result process_error (list bytes) :=
  match args with
  | [] => Ok []
  | a :: args =>
      c ← ok_or (cstring a) (NulInArgument i);
      cs ← cstrings (S i) args;
      Ok (c :: cs)
  end.

(** [execvp] returns only on failure, with an error number; [None]: the process
    is the program now. *)
Inductive exec_result : Type :=
| Replaced (prog : bytes) (args : list bytes)
| ExecFailed (e : process_error).

Definition exec_command (execvp : bytes -> list bytes -> option Z) (command : list bytes) : exec_result :=
  match command with
  | [] => ExecFailed NoCommand
  | prog :: _ =>
      match prog ← ok_or (cstring prog) (NulInArgument 0); args ← cstrings 0 command; Ok (prog, args) with
      | Ok (prog, args) =>
          match execvp prog args with None => Replaced prog args | Some errno => ExecFailed (Execvp errno) end
      | Err e => ExecFailed e
      end
  end.

Lemma cstrings_ok i args cs : cstrings i args = Ok cs <-> cs = args /\ Forall (fun a => Byte.x00 ∉ a) args.
Proof.
  revert i cs. induction args as [|a args IH]; intros i cs; cbn [cstrings]; [naive_solver|].
  rewrite Forall_cons. unfold cstring. case_bool_decide as Ha; cbn [ok_or mbind result_bind]; [naive_solver|].
  destruct (cstrings (S i) args) as [cs'|e] eqn:E; cbn [mbind result_bind].
  - apply IH in E as [-> Hall]. naive_solver.
  - split; [done|]. intros (-> & _ & Hall). by rewrite (proj2 (IH (S i) args) (conj eq_refl Hall)) in E.
Qed.

(** ** Descendants *)

(** [/proc]: the threads of a process and the [children] file of a thread. *)
Class ProcFs : Type := {
  read_dir : Z -> result io_error (list (result io_error Z));
  read_to_string : Z -> Z -> result io_error (list Z);
}.

(** [pending] with its top first, [descendants] in the order of discovery. *)
Record search : Type := mkSearch {
  pending : list Z;
  descendants : list Z;
  seen : gset Z;
}.

Definition add_child (st : search) (word : list Z) : result process_error search :=
  child ← ok_or (parse_i32_chars word) ParsePid;
  if bool_decide (child ∈ seen st) then Ok st
  else Ok (mkSearch (child :: pending st) (descendants st ++ [child]) ({[child]} ∪ seen st)).

Section Proc.
Context `{ProcFs}.

Definition scan_task (pid : Z) (st : search) (task : result io_error Z) : result process_error search :=
  tid ← map_err ReadEntry task;
  match read_to_string pid tid with
  | Ok children => foldM add_child st (split_whitespace children)
  | Err NotFound => Ok st
  | Err e => Err (ListChildren e)
  end.

Definition scan_process (pid : Z) (st : search) : result process_error search :=
  match read_dir pid with
  | Ok tasks => foldM (scan_task pid) st tasks
  | Err NotFound => Ok st
  | Err e => Err (ListThreads e)
  end.

(** The [while let Some(pid) = pending.pop()] loop; [None] when the fuel runs
    out. *)
Fixpoint collect (fuel : nat) (st : search) : option (result process_error (list Z)) :=
  match pending st with
  | [] => Some (Ok (descendants st))
  | pid :: rest =>
      match fuel with
      | O => None
      | S fuel =>
          match scan_process pid (mkSearch rest (descendants st) (seen st)) with
          | Ok st => collect fuel st
          | Err e => Some (Err e)
          end
      end
  end.

Definition forward_signal (kill : Z -> Z -> option Z) (pid signal : Z) : result process_error unit :=
  match kill pid signal with
  | None => Ok ()
  | Some errno => if errno =? ESRCH then Ok () else Err (SendSignal pid errno)
  end.

(** The signals sent, in order, and the result; the first failure ends it. *)
Fixpoint signal_all (kill : Z -> Z -> option Z) (signal : Z) (pids : list Z)
    : list Z * result process_error unit :=
  match pids with
  | [] => ([], Ok ())
  | pid :: pids =>
      match forward_signal kill pid signal with
      | Ok _ => let '(sent, r) := signal_all kill signal pids in (pid :: sent, r)
      | Err e => ([pid], Err e)
      end
  end.

Definition signal_descendants (fuel : nat) (kill : Z -> Z -> option Z) (root signal : Z)
    : option (list Z * result process_error unit) :=
  r ← collect fuel (mkSearch [root] [] {[root]});
  Some (match r with
        | Ok ds => signal_all kill signal (reverse ds)
        | Err e => ([], Err e)
        end).

(** [c] is listed as a child of [pid]. *)
Definition listed (pid c : Z) : Prop :=
  exists tasks tid children word,
    read_dir pid = Ok tasks /\ Ok tid ∈ tasks /\ read_to_string pid tid = Ok children /\
    word ∈ split_whitespace children /\ parse_i32_chars word = Some c.

(** Why reading the children of [pid] fails: a process or thread that has gone
    is no failure. *)
Inductive scan_error (pid : Z) : process_error -> Prop :=
| no_threads e : read_dir pid = Err e -> e <> NotFound -> scan_error pid (ListThreads e)
| no_entry tasks e : read_dir pid = Ok tasks -> Err e ∈ tasks -> scan_error pid (ReadEntry e)
| no_children tasks tid e : read_dir pid = Ok tasks -> Ok tid ∈ tasks ->
    read_to_string pid tid = Err e -> e <> NotFound -> scan_error pid (ListChildren e)
| no_pid tasks tid children word : read_dir pid = Ok tasks -> Ok tid ∈ tasks ->
    read_to_string pid tid = Ok children -> word ∈ split_whitespace children ->
    parse_i32_chars word = None -> scan_error pid ParsePid.

(** *** The search finds what is reachable *)

(** [st'] adds to [st] newly seen processes that satisfy [P]. *)
Definition grows (P : Z -> Prop) (st st' : search) : Prop :=
  exists new, pending st' = reverse new ++ pending st /\ descendants st' = descendants st ++ new /\
    seen st' = seen st ∪ list_to_set new /\ NoDup new /\ (forall c, c ∈ new -> c ∉ seen st /\ P c).

Lemma grows_refl P st : grows P st st.
Proof. exists []. split_and!; simpl; [done | by rewrite app_nil_r | set_solver | constructor | set_solver]. Qed.

Lemma grows_trans P st1 st2 st3 : grows P st1 st2 -> grows P st2 st3 -> grows P st1 st3.
Proof.
  intros (n1 & E1 & E2 & E3 & D1 & F1) (n2 & G1 & G2 & G3 & D2 & F2). exists (n1 ++ n2). split_and!.
  - by rewrite G1, E1, reverse_app, app_assoc.
  - by rewrite G2, E2, app_assoc.
  - rewrite G3, E3. set_solver.
  - apply NoDup_app. split_and!; [done| |done]. intros c G D%F2. set_solver.
  - intros c [G|G]%elem_of_app; [by apply F1|]. apply F2 in G as [G G']. set_solver.
Qed.

Lemma grows_seen P st st' : grows P st st' -> seen st ⊆ seen st'.
Proof. intros (new & _ & _ & -> & _). set_solver. Qed.

(** A loop of growing steps grows, and what each step covers stays covered. *)
Lemma foldM_grows {A} (f : search -> A -> result process_error search) (P : Z -> Prop)
    (covers : A -> Z -> Prop) l st st' :
  (forall st x st', x ∈ l -> f st x = Ok st' -> grows P st st' /\ (forall c, covers x c -> c ∈ seen st')) ->
  foldM f st l = Ok st' ->
  grows P st st' /\ (forall x c, x ∈ l -> covers x c -> c ∈ seen st').
Proof.
  revert st. induction l as [|x l IH]; intros st Hf; simpl.
  - intros [= <-]. split; [apply grows_refl | set_solver].
  - destruct (f st x) as [st1|] eqn:E1; simpl; [|done]. intros E2.
    destruct (Hf st x st1) as [G1 C1]; [set_solver | done |].
    destruct (IH st1) as [G2 C2]; [intros; apply Hf; set_solver | done |].
    split; [by eapply grows_trans|]. intros y c [->|G]%elem_of_cons Hc; [|by eapply C2].
    apply C1 in Hc. by apply (grows_seen _ _ _ G2).
Qed.

Lemma add_child_grows (P : Z -> Prop) st word st' :
  add_child st word = Ok st' -> (forall c, parse_i32_chars word = Some c -> P c) ->
  grows P st st' /\ (forall c, parse_i32_chars word = Some c -> c ∈ seen st').
Proof.
  unfold add_child. destruct (parse_i32_chars word) as [c|]; simpl; [|done].
  case_bool_decide as Hc; intros [= <-] HP; (split; [|intros ? [= <-]; set_solver]).
  - apply grows_refl.
  - exists [c]. split_and!; simpl; [done.. | set_solver | by apply NoDup_singleton |].
    intros ? ->%list_elem_of_singleton. auto.
Qed.

Lemma scan_process_grows pid st st' :
  scan_process pid st = Ok st' ->
  grows (listed pid) st st' /\ (forall c, listed pid c -> c ∈ seen st').
Proof.
  unfold scan_process. destruct (read_dir pid) as [tasks|[]] eqn:Ed; try done.
  2: { intros [= <-]. split; [apply grows_refl|]. intros c (? & ? & ? & ? & G & _). congruence. }
  intros E.
  destruct (foldM_grows (scan_task pid) (listed pid)
    (fun task c => exists tid children word, task = Ok tid /\ read_to_string pid tid = Ok children /\
       word ∈ split_whitespace children /\ parse_i32_chars word = Some c) tasks st st') as [G C]; [|done|].
  - clear E. intros st1 task st2 Ht E. unfold scan_task in E. destruct task as [tid|]; simpl in E; [|done].
    destruct (read_to_string pid tid) as [children|[]] eqn:Er; try done.
    + destruct (foldM_grows add_child (listed pid) (fun w c => parse_i32_chars w = Some c)
        (split_whitespace children) st1 st2) as [G C]; [|done|].
      * intros st3 w st4 Hw E'. apply add_child_grows; [done|]. intros c Hc. by exists tasks, tid, children, w.
      * split; [done|]. intros c (tid' & children' & w & [= <-] & Er' & Hw & Hc).
        rewrite Er in Er'. injection Er' as <-. by apply (C w).
    + simplify_eq. split; [apply grows_refl|]. intros c (tid' & ? & ? & [= <-] & G & _). congruence.
  - split; [done|]. intros c (tasks' & tid & children & w & E' & Ht & Hr & Hw & Hc).
    rewrite Ed in E'. injection E' as <-. apply (C (Ok tid)); [done|]. by exists tid, children, w.
Qed.

Lemma scan_process_err pid st e : scan_process pid st = Err e -> scan_error pid e.
Proof.
  unfold scan_process. destruct (read_dir pid) as [tasks|err] eqn:Ed.
  2: { destruct err; [done|]. intros [= <-]. by constructor. }
  intros (task & st1 & Ht & E)%foldM_err. unfold scan_task in E.
  destruct task as [tid|err]; cbn [map_err mbind result_bind] in E; [|injection E as <-; by eapply no_entry].
  destruct (read_to_string pid tid) as [children|err] eqn:Er.
  - apply foldM_err in E as (word & st2 & Hw & E). unfold add_child in E.
    destruct (parse_i32_chars word) eqn:Ep; cbn in E; [by case_bool_decide|]. injection E as <-. by eapply no_pid.
  - destruct err; [done|]. injection E as <-. by eapply no_children.
Qed.

Lemma scan_process_clean pid st st' e : scan_process pid st = Ok st' -> scan_error pid e -> False.
Proof.
  unfold scan_process. intros E Hs. assert (forall tasks task, read_dir pid = Ok tasks -> task ∈ tasks ->
    exists st1 st2, scan_task pid st1 task = Ok st2) as Hall.
  { intros tasks task Ed. rewrite Ed in E. by eapply foldM_all. }
  destruct Hs as [err Ed Hn|tasks err Ed Ht|tasks tid err Ed Ht Er Hn|tasks tid children word Ed Ht Er Hw Hp].
  - rewrite Ed in E. by destruct err.
  - by destruct (Hall _ _ Ed Ht) as (? & ? & ?).
  - destruct (Hall _ _ Ed Ht) as (st1 & st2 & G). unfold scan_task in G. cbn in G. rewrite Er in G. by destruct err.
  - destruct (Hall _ _ Ed Ht) as (st1 & st2 & G). unfold scan_task in G. cbn in G. rewrite Er in G.
    destruct (foldM_all _ _ _ _ G word Hw) as (st3 & st4 & G'). unfold add_child in G'. by rewrite Hp in G'.
Qed.

(** The state of the search from [root]: everything seen is reachable,
    everything listed by a process that is no longer pending is seen, and
    nothing was in the way of reading it. *)
Record search_inv (root : Z) (st : search) : Prop := {
  si_seen : seen st = {[root]} ∪ list_to_set (descendants st);
  si_nodup : NoDup (descendants st);
  si_root : root ∉ descendants st;
  si_pending : forall p, p ∈ pending st -> p ∈ seen st;
  si_pending_nodup : NoDup (pending st);
  si_closed : forall p c, p ∈ seen st -> p ∉ pending st -> listed p c -> c ∈ seen st;
  si_clean : forall p e, p ∈ seen st -> p ∉ pending st -> scan_error p e -> False;
  si_order : forall l1 p l2, descendants st = l1 ++ p :: l2 ->
               exists q, (q = root \/ q ∈ l1) /\ listed q p;
}.

Lemma search_inv_initial root : search_inv root (mkSearch [root] [] {[root]}).
Proof.
  split; simpl; try set_solver; try apply NoDup_nil_2; [by apply NoDup_singleton|].
  intros [] ? ? ?; simplify_list_eq.
Qed.

(** Where an element of an appended list sits. *)
Lemma app_split_cases {A} (l k l1 l2 : list A) x :
  l ++ k = l1 ++ x :: l2 ->
  (exists l2', l = l1 ++ x :: l2') \/ (exists l1', k = l1' ++ x :: l2 /\ l1 = l ++ l1').
Proof.
  intros E. apply app_eq_inv in E as [(m & -> & E)|(m & -> & E)].
  - destruct m as [|y m]; simplify_eq/=; [right | left; by exists m].
    exists []. split; [done | by rewrite !app_nil_r].
  - right. by exists m.
Qed.

Lemma search_inv_step root pid rest ds sn st' :
  search_inv root (mkSearch (pid :: rest) ds sn) ->
  grows (listed pid) (mkSearch rest ds sn) st' -> (forall c, listed pid c -> c ∈ seen st') ->
  (forall e, scan_error pid e -> False) -> search_inv root st'.
Proof.
  intros [S1 S2 S3 S4 S5 S6 S8 S7] (new & E1 & E2 & E3 & D & F) C Hc. simpl in *.
  apply NoDup_cons in S5 as [Np S5].
  assert (Hpid : pid = root \/ pid ∈ ds) by (specialize (S4 pid); set_solver).
  split; rewrite ?E1, ?E2, ?E3.
  - rewrite S1. set_solver.
  - apply NoDup_app. split_and!; [done| |done]. intros c G G'%F. set_solver.
  - rewrite elem_of_app. intros [G|G%F]; set_solver.
  - intros p [G|G]%elem_of_app; [rewrite elem_of_reverse in G; set_solver|]. specialize (S4 p). set_solver.
  - apply NoDup_app. split_and!; [by rewrite reverse_Permutation| |done].
    intros c G G'. rewrite elem_of_reverse in G. apply F in G as [G _]. specialize (S4 c). set_solver.
  - intros p c Hp Hn Hl. rewrite E3 in C.
    destruct (decide (p = pid)) as [->|Hne]; [by apply C|].
    rewrite elem_of_app, elem_of_reverse in Hn. apply elem_of_union_l. apply (S6 p); [|set_solver|done].
    apply elem_of_union in Hp as [Hp|Hp]; [done|]. set_solver.
  - intros p e Hp Hn Hl. destruct (decide (p = pid)) as [->|Hne]; [by eapply Hc|].
    rewrite elem_of_app, elem_of_reverse in Hn. apply (S8 p e); [|set_solver|done].
    apply elem_of_union in Hp as [Hp|Hp]; [done|]. set_solver.
  - intros l1 p l2 [(l2' & E)|(l1' & -> & ->)]%app_split_cases; [by eapply S7|].
    exists pid. split; [|apply F; set_solver]. set_solver.
Qed.

(** Everything seen is reachable. *)
Lemma search_sound root st :
  search_inv root st -> forall p, p ∈ descendants st -> p <> root /\ rtc listed root p.
Proof.
  intros I p Hp. split; [intros ->; by apply (si_root _ _ I)|].
  apply list_elem_of_split in Hp as (l1 & l2 & E). remember (length l1) as n eqn:En. revert l1 p l2 En E.
  induction (lt_wf n) as [n _ IH]. intros l1 p l2 -> E.
  destruct (si_order _ _ I _ _ _ E) as (q & [->|Hq] & Hl); [by apply rtc_once|].
  apply list_elem_of_split in Hq as (a & b & ->).
  eapply rtc_r; [|exact Hl]. apply (IH (length a)) with (l1 := a) (l2 := b ++ p :: l2); [|done|].
  - rewrite length_app. simpl. lia.
  - by rewrite E, <- app_assoc.
Qed.

Lemma search_reaches root st p : search_inv root st -> p ∈ seen st -> rtc listed root p.
Proof.
  intros I. rewrite (si_seen _ _ I). intros [->%elem_of_singleton|Hp]%elem_of_union; [done|].
  apply elem_of_list_to_set in Hp. by apply (search_sound _ _ I).
Qed.

(** The processes that can be listed, and how many passes that allows. *)
Definition measure (U : gset Z) (st : search) : nat := size U - size (seen st) + length (pending st).

Lemma collect_spec U root fuel st :
  (forall p c, listed p c -> c ∈ U) -> root ∈ U ->
  search_inv root st -> (measure U st <= fuel)%nat ->
  exists r, collect fuel st = Some r /\
    match r with
    | Ok ds => search_inv root (mkSearch [] ds ({[root]} ∪ list_to_set ds))
    | Err e => exists p, rtc listed root p /\ scan_error p e
    end.
Proof.
  intros HU Hr. revert st. induction fuel as [|fuel IH]; intros st I Hm;
    destruct st as [[|pid rest] ds sn]; simpl in *.
  1, 3: exists (Ok ds); split; [done|]; pose proof (si_seen _ _ I) as E; simpl in E; by rewrite <- E.
  - unfold measure in Hm. simpl in Hm. lia.
  - destruct (scan_process pid (mkSearch rest ds sn)) as [st'|e] eqn:Es.
    2: { exists (Err e). split; [done|]. exists pid. split; [|by eapply scan_process_err].
         eapply search_reaches; [done|]. eapply (si_pending _ _ I). simpl. set_solver. }
    destruct (scan_process_grows _ _ _ Es) as [G C].
    apply IH; [eapply search_inv_step; [done..|intros e; by eapply scan_process_clean]|].
    destruct G as (new & E1 & E2 & E3 & D & F). unfold measure in *. simpl in *. rewrite E1, E3.
    rewrite size_union by set_solver. rewrite size_list_to_set by done.
    rewrite length_app, length_reverse.
    assert (size (sn ∪ list_to_set new) <= size U)%nat as Hsz.
    { apply subseteq_size. pose proof (si_seen _ _ I) as E. simpl in E.
      intros p [Hp|Hp]%elem_of_union.
      - rewrite E in Hp. apply elem_of_union in Hp as [->%elem_of_singleton|Hp]; [done|].
        apply elem_of_list_to_set, list_elem_of_split in Hp as (l1 & l2 & Hd).
        destruct (si_order _ _ I l1 p l2 Hd) as (q & _ & Hl). by eapply HU.
      - apply elem_of_list_to_set, F in Hp as [_ Hp]. by eapply HU. }
    rewrite size_union, size_list_to_set in Hsz by (done || set_solver). lia.
Qed.

(** What a finished search found is what is reachable. *)
Lemma search_closed root ds sn p : search_inv root (mkSearch [] ds sn) -> rtc listed root p -> p ∈ sn.
Proof.
  intros I G. assert (forall q, rtc listed q p -> q ∈ sn -> p ∈ sn) as C.
  { clear G. induction 1 as [|x y z Hl _ IH]; [done|]. intros Hq. apply IH.
    apply (si_closed _ _ I x); [done | set_solver | done]. }
  pose proof (si_seen _ _ I) as E. simpl in E. apply C in G; set_solver.
Qed.

Lemma search_complete root ds sn p :
  search_inv root (mkSearch [] ds sn) -> rtc listed root p -> p <> root -> p ∈ ds.
Proof.
  intros I G%(search_closed root ds sn) Hne; [|done]. pose proof (si_seen _ _ I) as E. simpl in E. set_solver.
Qed.

(** [kill] was called for the processes [sent] of [order]: a process that has
    gone is passed over, and any other failure ends the pass. *)
Definition passed (kill : Z -> Z -> option Z) (signal pid : Z) : Prop :=
  kill pid signal = None \/ kill pid signal = Some ESRCH.

Inductive delivered (kill : Z -> Z -> option Z) (signal : Z)
    : list Z -> list Z -> result process_error unit -> Prop :=
| delivered_all order : Forall (passed kill signal) order -> delivered kill signal order order (Ok ())
| delivered_until l1 pid l2 errno : Forall (passed kill signal) l1 ->
    kill pid signal = Some errno -> errno <> ESRCH ->
    delivered kill signal (l1 ++ pid :: l2) (l1 ++ [pid]) (Err (SendSignal pid errno)).

Lemma delivered_cons kill signal pid order sent r :
  passed kill signal pid -> delivered kill signal order sent r ->
  delivered kill signal (pid :: order) (pid :: sent) r.
Proof.
  intros Hp [order' Hall|l1 pid' l2 errno Hall Hk Hne]; [by constructor; constructor|].
  rewrite !app_comm_cons. by constructor; [constructor|..].
Qed.

Lemma signal_all_spec kill signal pids sent r :
  signal_all kill signal pids = (sent, r) -> delivered kill signal pids sent r.
Proof.
  revert sent r. induction pids as [|pid pids IH]; simpl; intros sent r.
  - intros [= <- <-]. by constructor.
  - unfold forward_signal. destruct (kill pid signal) as [errno|] eqn:Ek; simpl.
    1: destruct (Z.eqb_spec errno ESRCH) as [->|Hne].
    2: { intros [= <- <-]. by apply (delivered_until _ _ [] pid pids errno). }
    all: destruct (signal_all kill signal pids) as [sent' r'] eqn:Es; intros [= <- <-].
    all: apply delivered_cons; [by unfold passed; rewrite Ek; auto|by apply IH].
Qed.

(** The process ids that [parse::<i32>] can return: [fuel] is enough when it is
    at least their number. *)
Lemma listed_i32 p c : listed p c -> -2147483648 <= c <= 2147483647.
Proof.
  intros (? & ? & ? & w & _ & _ & _ & _ & G). unfold parse_i32_chars in G.
  destruct (forallb _ w); [by apply parse_i32_range in G | done].
Qed.

(** C29. Forwarding a signal to the command tree ends (the ids a search can meet
    are finitely many).  If the children of some process below the reaper, or
    of the reaper, cannot be read, for another reason than that the process or
    thread has gone, the pass fails with such an error and signals nothing.
    Otherwise it calls [kill] for the processes below the reaper, found through
    every thread's children, in an order that has each exactly once, not the
    reaper itself, and each before a process that lists it as a child: for all
    of them, a process that has gone being passed over, or up to the first for
    which [kill] fails otherwise, which is the error it returns. *)
Theorem signal_descendants_spec (U : gset Z) fuel kill root signal :
  (forall p c, listed p c -> c ∈ U) -> root ∈ U -> (size U <= fuel)%nat ->
  exists sent r, signal_descendants fuel kill root signal = Some (sent, r) /\
    ((exists p e, rtc listed root p /\ scan_error p e /\ sent = [] /\ r = Err e) \/
     ((forall p e, rtc listed root p -> scan_error p e -> False) /\
      exists order, NoDup order /\ (forall p, p ∈ order <-> p <> root /\ rtc listed root p) /\
        (forall l1 p l2, order = l1 ++ p :: l2 -> exists q, (q = root \/ q ∈ l2) /\ listed q p) /\
        delivered kill signal order sent r)).
Proof.
  intros HU Hr Hf.
  destruct (collect_spec U root fuel (mkSearch [root] [] {[root]})) as (r & E & G);
    [done | done | apply search_inv_initial | |].
  { unfold measure. cbn [seen pending length]. rewrite size_singleton.
    assert (size U <> 0)%nat by (apply size_non_empty_iff; set_solver). lia. }
  unfold signal_descendants. rewrite E. simpl. destruct r as [ds|e].
  2: { destruct G as (p & Hp & Hs). exists [], (Err e). split; [done|]. left. by exists p, e. }
  destruct (signal_all kill signal (reverse ds)) as [sent r] eqn:Es.
  exists sent, r. split; [done|]. right. split.
  { intros p e Hp Hs. apply (si_clean _ _ G p e); [by eapply search_closed|simpl; set_solver|done]. }
  exists (reverse ds). split_and!; [rewrite reverse_Permutation; apply G| | |by apply signal_all_spec].
  - intros p. rewrite elem_of_reverse. split; [apply (search_sound root _ G)|]. intros []. by eapply search_complete.
  - intros l1 p l2 Er. apply (f_equal reverse) in Er.
    rewrite reverse_involutive, reverse_app, reverse_cons, <- app_assoc in Er.
    destruct (si_order _ _ G (reverse l2) p (reverse l1) Er) as (q & Hq & Hl).
    exists q. by rewrite elem_of_reverse in Hq.
Qed.

End Proc.

(** A reaper 1 whose threads 1 and 9 forked 5, and 6 and 7; 5 forked 6 too, and
    8 has gone. *)
#[export] Instance demo_proc : ProcFs := {
  read_dir := fun pid => if pid =? 1 then Ok [Ok 1; Ok 9] else if pid =? 5 then Ok [Ok 5] else Err NotFound;
  read_to_string := fun pid tid =>
    if tid =? 1 then Ok [53; 32] else if tid =? 9 then Ok [55; 32] else if tid =? 5 then Ok [54; 32; 56; 10] else Err NotFound;
}.

Example demo_sent : signal_descendants 10 (fun p _ => if p =? 8 then Some ESRCH else None) 1 15 = Some ([8; 6; 7; 5], Ok ()).
Proof. vm_compute. reflexivity. Qed.

Lemma demo_listed p c : listed p c -> c ∈ ({[5; 6; 7; 8; 1]} : gset Z).
Proof.
  intros (tasks & tid & cs & w & Ed & Ht & Er & Hw & Hc).
  assert (w ∈ ([[53]; [55]; [54]; [56]] : list (list Z))) as G.
  { simpl in Er. repeat case_match; simplify_eq; vm_compute in Hw; set_solver. }
  repeat (apply elem_of_cons in G as [->|G]; [vm_compute in Hc; simplify_eq; set_solver|]). set_solver.
Qed.

Lemma signal_descendants_spec_witness :
  exists sent r, signal_descendants 10 (fun p _ => if p =? 8 then Some ESRCH else None) 1 SIGTERM = Some (sent, r) /\
    (((exists p e, rtc listed 1 p /\ scan_error p e /\ sent = [] /\ r = Err e)) \/
     exists order, NoDup order /\
       delivered (fun p _ => if p =? 8 then Some ESRCH else None) SIGTERM order sent r).
Proof.
  destruct (signal_descendants_spec {[5; 6; 7; 8; 1]} 10 (fun p _ => if p =? 8 then Some ESRCH else None) 1 SIGTERM)
    as (sent & r & E & G).
  - exact demo_listed.
  - set_solver.
  - vm_compute. lia.
  - exists sent, r. split; [exact E|]. destruct G as [G|(_ & order & D & _ & _ & G)]; [by left|right].
    by exists order.
Defined.

(** ** Waiting for the tree *)

(** What [waitpid(-1, WNOHANG)] answers. *)
Inductive wait_answer : Type :=
| Exited (pid code : Z)
| Signaled (pid signal : Z)
| StillAlive
| OtherStatus
| WaitInterrupted
| NoChildren
| WaitFailed (errno : Z).

(** What [sigtimedwait] answers; [Woken] is [EINTR] or [EAGAIN]. *)
Inductive sig_answer : Type :=
| Received (number : Z)
| Woken
| SigFailed (errno : Z).

(** [Signal::try_from] *)
Definition signal_of (number : Z) : option Z :=
  if (1 <=? number) && (number <=? 31) then Some number else None.

(** The locals of [wait_for_command_tree]. *)
Record waiting : Type := mkWaiting {
  command_exit_code : option Z;
  termination : option (Z * Z);
}.

(** The inner loop: it returns, or breaks when a child is still alive.
    [None]: the answers given do not end it. *)
Fixpoint reap (command_pid : Z) (code : option Z) (answers : list wait_answer)
    : option (result (result process_error Z) (option Z)) :=
  match answers with
  | [] => None
  | Exited pid c :: answers => reap command_pid (if pid =? command_pid then Some c else code) answers
  | Signaled pid s :: answers => reap command_pid (if pid =? command_pid then Some (128 + s) else code) answers
  | StillAlive :: _ => Some (Ok code)
  | (OtherStatus | WaitInterrupted) :: answers => reap command_pid code answers
  | NoChildren :: _ => Some (Err (ok_or code NoStatus))
  | WaitFailed errno :: _ => Some (Err (Err (WaitPid errno)))
  end.

(** One turn of the outer loop as the kernel shapes it. *)
Record round : Type := mkRound {
  r_waits : list wait_answer;
  r_now : Z;
  r_proc : ProcFs;
  r_kill : Z -> Z -> option Z;
  r_signal : sig_answer;
  r_received_at : Z;
}.

(** What a turn does: the signal it forwards, the processes it reached, the
    timeout it sleeps with, and how it goes on. *)
Record turn : Type := mkTurn {
  t_forwarded : option Z;
  t_sent : list Z;
  t_timeout : option Z;
  t_next : result (result process_error Z) waiting;
}.

(** [deadline.saturating_duration_since(now)] *)
Definition remaining_of (deadline now : Z) : Z := Z.max 0 (deadline - now).

Definition on_signal (code : option Z) (term : option (Z * Z)) (r : round) : result (result process_error Z) waiting :=
  match r_signal r with
  | Woken => Ok (mkWaiting code term)
  | SigFailed errno => Err (Err (WaitSignal errno))
  | Received number =>
      match signal_of number with
      | None => Err (Err (BadSignal number))
      | Some signal =>
          if signal =? SIGCHLD then Ok (mkWaiting code term)
          else Ok (mkWaiting code (Some (match term with
                                         | Some (_, deadline) => (signal, deadline)
                                         | None => (signal, r_received_at r + TERMINATION_GRACE)
                                         end)))
      end
  end.

Definition wait_turn (fuel : nat) (command_pid self : Z) (st : waiting) (r : round) : option turn :=
  reaped ← reap command_pid (command_exit_code st) (r_waits r);
  match reaped with
  | Err returned => Some (mkTurn None [] None (Err returned))
  | Ok code =>
      match termination st with
      | None => Some (mkTurn None [] None (on_signal code None r))
      | Some (signal, deadline) =>
          let remaining := remaining_of deadline (r_now r) in
          let signal' := if remaining =? 0 then SIGKILL else signal in
          '(sent, res) ← signal_descendants (H := r_proc r) fuel (r_kill r) self signal';
          Some (match res with
                | Err e => mkTurn (Some signal') sent None (Err (Err e))
                | Ok _ => mkTurn (Some signal') sent (Some (if remaining =? 0 then KILL_INTERVAL else remaining))
                            (on_signal code (Some (signal, deadline)) r)
                end)
      end
  end.

(** The loop over the turns given: it returned, or is still waiting. *)
Fixpoint wait_loop (fuel : nat) (command_pid self : Z) (st : waiting) (rounds : list round)
    : option (result (result process_error Z) waiting) :=
  match rounds with
  | [] => Some (Ok st)
  | r :: rounds =>
      t ← wait_turn fuel command_pid self st r;
      match t_next t with
      | Ok st => wait_loop fuel command_pid self st rounds
      | Err returned => Some (Err returned)
      end
  end.

Definition wait_for_command_tree (fuel : nat) (command_pid self : Z) (rounds : list round)
    : option (result (result process_error Z) waiting) :=
  wait_loop fuel command_pid self (mkWaiting None None) rounds.

(** *** Specification *)

(** The exit status an answer reports for the command. *)
Definition status (command_pid : Z) (a : wait_answer) : option Z :=
  match a with
  | Exited pid c => if pid =? command_pid then Some c else None
  | Signaled pid s => if pid =? command_pid then Some (128 + s) else None
  | _ => None
  end.

(** The answers a turn asks for: up to the first that ends the inner loop. *)
Fixpoint asked (answers : list wait_answer) : list wait_answer :=
  match answers with
  | [] => []
  | ((StillAlive | NoChildren | WaitFailed _) as a) :: _ => [a]
  | a :: answers => a :: asked answers
  end.

Definition statuses (command_pid : Z) (rounds : list round) : list Z :=
  flat_map (fun r => omap (status command_pid) (asked (r_waits r))) rounds.

(** The termination signals received, with the times they arrived. *)
Definition signals (rounds : list round) : list (Z * Z) :=
  omap (fun r => match r_signal r with
                 | Received n => if n =? SIGCHLD then None else Some (n, r_received_at r)
                 | _ => None
                 end) rounds.

(** The last signal to forward, and the deadline set by the first. *)
Definition termination_of (sigs : list (Z * Z)) : option (Z * Z) :=
  match sigs with
  | [] => None
  | (_, t0) :: _ => (fun s => (s.1, t0 + TERMINATION_GRACE)) <$> last sigs
  end.

(** The signal due at [now], and how long to sleep after it. *)
Definition due (term : option (Z * Z)) (now : Z) : option (Z * Z) :=
  (fun '(signal, deadline) =>
     if deadline <=? now then (SIGKILL, KILL_INTERVAL) else (signal, deadline - now)) <$> term.

Definition or_else {A} (o d : option A) : option A := match o with Some a => Some a | None => d end.

Lemma last_app_or {A} (l k : list A) : last (l ++ k) = or_else (last k) (last l).
Proof. rewrite last_app. by destruct (last k). Qed.

Lemma last_cons_or {A} (x : A) l d : or_else (last (x :: l)) d = or_else (last l) (Some x).
Proof. rewrite last_cons. by destruct (last l). Qed.

Lemma reap_spec command_pid code answers res :
  reap command_pid code answers = Some res ->
  let code' := or_else (last (omap (status command_pid) (asked answers))) code in
  match res with
  | Ok c => c = code' /\ last (asked answers) = Some StillAlive
  | Err (Ok c) => Some c = code' /\ last (asked answers) = Some NoChildren
  | Err (Err _) => True
  end.
Proof.
  revert code. induction answers as [|a answers IH]; intros code; simpl; [done|].
  assert (forall c1, asked answers <> [] -> last (c1 :: asked answers) = last (asked answers)) as Hl.
  { intros c1. by destruct (asked answers). }
  assert (forall c, reap command_pid c answers <> None -> asked answers <> []) as Hn.
  { intros c. by destruct answers as [|[]]. }
  destruct a; simpl; intros E; simplify_eq/=.
  all: try (rewrite Hl by (eapply Hn; by rewrite E); by apply IH).
  - rewrite Hl by (eapply Hn; by rewrite E). apply IH in E.
    destruct (pid =? command_pid); [|done]. by rewrite last_cons_or.
  - rewrite Hl by (eapply Hn; by rewrite E). apply IH in E.
    destruct (pid =? command_pid); [|done]. by rewrite last_cons_or.
  - done.
  - by destruct code.
  - done.
Qed.

Lemma termination_of_snoc sigs n t :
  termination_of (sigs ++ [(n, t)]) =
  Some (match termination_of sigs with Some (_, d) => (n, d) | None => (n, t + TERMINATION_GRACE) end).
Proof.
  destruct sigs as [|[s0 t0] sigs]; [done|].
  unfold termination_of. rewrite <- app_comm_cons. rewrite app_comm_cons, last_snoc. simpl.
  by destruct (last ((s0, t0) :: sigs)) eqn:E; [|apply last_None in E].
Qed.

Section Wait.
Variables (fuel : nat) (command_pid self : Z).

(** What a waiting reaper knows after [rounds]. *)
Definition knows (rounds : list round) (st : waiting) : Prop :=
  command_exit_code st = last (statuses command_pid rounds) /\
  termination st = termination_of (signals rounds).

Lemma statuses_snoc rounds r :
  last (statuses command_pid (rounds ++ [r])) =
  or_else (last (omap (status command_pid) (asked (r_waits r)))) (last (statuses command_pid rounds)).
Proof. unfold statuses. rewrite flat_map_app, last_app_or. simpl. by rewrite app_nil_r. Qed.

Lemma signals_snoc rounds r :
  signals (rounds ++ [r]) = signals rounds ++ signals [r].
Proof. unfold signals. by rewrite omap_app. Qed.

Lemma on_signal_knows code term r st' rounds :
  term = termination_of (signals rounds) -> on_signal code term r = Ok st' ->
  command_exit_code st' = code /\ termination st' = termination_of (signals (rounds ++ [r])).
Proof.
  intros -> . unfold on_signal. rewrite signals_snoc. unfold signals at 3. simpl.
  destruct (r_signal r) as [n| |]; [|intros [= <-]; by rewrite app_nil_r | done].
  unfold signal_of. destruct ((1 <=? n) && (n <=? 31)); [|done].
  destruct (n =? SIGCHLD); intros [= <-]; [by rewrite app_nil_r|].
  by rewrite termination_of_snoc.
Qed.

Lemma remaining_zero d now : (remaining_of d now =? 0) = (d <=? now).
Proof. unfold remaining_of. destruct (Z.leb_spec d now), (Z.eqb_spec (Z.max 0 (d - now)) 0); lia. Qed.

Lemma wait_turn_spec rounds st r t :
  knows rounds st -> wait_turn fuel command_pid self st r = Some t ->
  (forall code, t_next t = Err (Ok code) ->
     last (asked (r_waits r)) = Some NoChildren /\ last (statuses command_pid (rounds ++ [r])) = Some code) /\
  (forall st', t_next t = Ok st' -> knows (rounds ++ [r]) st' /\ last (asked (r_waits r)) = Some StillAlive /\
     t_forwarded t = fst <$> due (termination_of (signals rounds)) (r_now r) /\
     t_timeout t = snd <$> due (termination_of (signals rounds)) (r_now r)).
Proof.
  intros [K1 K2] E. unfold wait_turn in E.
  destruct (reap _ _ _) as [res|] eqn:Er; simpl in E; [|done].
  apply reap_spec in Er. rewrite K1 in Er. rewrite <- statuses_snoc in Er.
  assert (forall code term c, on_signal code term r <> Err (Ok c)) as No.
  { intros code term c. unfold on_signal. repeat case_match; discriminate. }
  destruct res as [code|returned]; [destruct Er as [-> Ha] | simplify_eq; split; simpl].
  2: { intros code [= ->]. by destruct Er. }
  2: done.
  rewrite K2 in E. destruct (termination_of (signals rounds)) as [[signal deadline]|] eqn:Et; simpl in E.
  - destruct (signal_descendants _ _ _ _) as [[sent res]|]; simpl in E; [|done].
    rewrite remaining_zero in E. destruct res as [u|e]; simplify_eq; simpl.
    2: by split; intros ? [=].
    split; [intros code G; by apply No in G|]. intros st' G.
    destruct (on_signal_knows _ _ _ _ rounds (eq_sym Et) G) as [G1 G2].
    split_and!; [by split | done | by destruct (deadline <=? r_now r) |].
    destruct (Z.leb_spec deadline (r_now r)); [done|]. unfold remaining_of. simpl. do 2 f_equal. lia.
  - simplify_eq; simpl. split; [intros code G; by apply No in G|]. intros st' G.
    destruct (on_signal_knows _ _ _ _ rounds (eq_sym Et) G) as [G1 G2]. by split_and!.
Qed.

Lemma wait_loop_knows rounds0 rounds st st' :
  knows rounds0 st -> wait_loop fuel command_pid self st rounds = Some (Ok st') -> knows (rounds0 ++ rounds) st'.
Proof.
  revert rounds0 st. induction rounds as [|r rounds IH]; intros rounds0 st K; simpl.
  - intros [= <-]. by rewrite app_nil_r.
  - destruct (wait_turn _ _ _ _ _) as [t|] eqn:Et; simpl; [|done].
    destruct (t_next t) as [st1|] eqn:En; [|done]. intros E.
    destruct (wait_turn_spec _ _ _ _ K Et) as [_ G]. destruct (G _ En) as [K1 _].
    rewrite cons_middle, app_assoc. by eapply IH.
Qed.

(** A reaper that has returned found no child left, and reports the last status
    of the command. *)
Lemma wait_loop_returned rounds0 rounds st code :
  knows rounds0 st -> wait_loop fuel command_pid self st rounds = Some (Err (Ok code)) ->
  exists rs r later, rounds = rs ++ r :: later /\ last (asked (r_waits r)) = Some NoChildren /\
    last (statuses command_pid (rounds0 ++ rs ++ [r])) = Some code.
Proof.
  revert rounds0 st. induction rounds as [|r rounds IH]; intros rounds0 st K; simpl; [done|].
  destruct (wait_turn _ _ _ _ _) as [t|] eqn:Et; simpl; [|done].
  destruct (wait_turn_spec _ _ _ _ K Et) as [G1 G2]. destruct (t_next t) as [st1|] eqn:En; intros E.
  - destruct (G2 _ eq_refl) as [K1 _].
    destruct (IH _ _ K1 E) as (rs & r' & later & -> & Hn & Hl). exists (r :: rs), r', later.
    split_and!; [done..|]. by rewrite <- app_assoc in Hl.
  - injection E as ->. destruct (G1 _ eq_refl) as [Hn Hl]. by exists [], r, rounds.
Qed.

(** C27. The reaper after any history of exits and signals.  It returns a
    status only once [waitpid] finds no child left, and then the status is the
    last one reported for the command: its exit code, or 128 and the number of
    the signal that killed it.  While children are alive it forwards the last
    termination signal it received at every turn until two seconds after the
    first one, and [SIGKILL] from then on, sleeping no longer than that
    deadline. *)
Theorem wait_for_command_tree_spec rounds st r t :
  wait_for_command_tree fuel command_pid self rounds = Some (Ok st) ->
  wait_turn fuel command_pid self st r = Some t ->
  (forall code, t_next t = Err (Ok code) ->
     last (asked (r_waits r)) = Some NoChildren /\ last (statuses command_pid (rounds ++ [r])) = Some code) /\
  (forall st', t_next t = Ok st' -> last (asked (r_waits r)) = Some StillAlive /\
     t_forwarded t = fst <$> due (termination_of (signals rounds)) (r_now r) /\
     t_timeout t = snd <$> due (termination_of (signals rounds)) (r_now r)).
Proof.
  intros E Et. assert (K : knows rounds st) by (by apply (wait_loop_knows [] rounds (mkWaiting None None))).
  destruct (wait_turn_spec _ _ _ _ K Et) as [G1 G2]. split; [done|]. intros st' G. by destruct (G2 _ G) as [_ G3].
Qed.

End Wait.

(** The command 5 is told to terminate at 1 s and interrupted at 2 s; at 3 s it
    is killed. *)
Definition demo_rounds : list round :=
  [mkRound [StillAlive] 0 demo_proc (fun _ _ => None) (Received SIGTERM) 1000000000;
   mkRound [OtherStatus; StillAlive] 1000000001 demo_proc (fun _ _ => None) (Received SIGINT) 2000000000].

Definition demo_round : round :=
  mkRound [WaitInterrupted; Exited 7 0; StillAlive] 3000000000 demo_proc (fun _ _ => None) (Received SIGCHLD) 3000000005.

Lemma wait_for_command_tree_spec_witness :
  exists t, wait_turn 10 5 1 (mkWaiting None (Some (SIGINT, 3000000000))) demo_round = Some t /\
    t_forwarded t = Some SIGKILL.
Proof.
  eexists. split; [vm_compute; reflexivity|].
  eapply (wait_for_command_tree_spec 10 5 1 demo_rounds (mkWaiting None (Some (SIGINT, 3000000000))) demo_round);
    vm_compute; reflexivity.
Defined.

(** ** Running the command *)

(** What a thread inherits and hands on: whether it adopts orphaned
    descendants, and the signals it blocks. *)
Record thread : Type := mkThread {
  subreaper : bool;
  blocked : gset Z;
}.

(** The answers of the kernel: error numbers of [prctl] and of changing the
    mask, the process [fork] makes, and what [execvp] does. *)
Record start_answers : Type := mkStartAnswers {
  a_prctl : option Z;
  a_block : option Z;
  a_fork : result Z Z;
  a_restore : option Z;
  a_execvp : bytes -> list bytes -> option Z;
}.

(** The calls of [run_command_tree], in order; [fork] copies the thread as it is
    at that point. *)
Inductive start_call : Type :=
| Prctl
| SwapMask (signals : gset Z)
| Fork (forking : thread).

(** The reaper: its thread and the calls it has made. *)
Record reaper : Type := mkReaper {
  self_thread : thread;
  made : list start_call;
}.

Definition set_child_subreaper (k : start_answers) (r : reaper) : result process_error unit * reaper :=
  let t := self_thread r in
  let made := made r ++ [Prctl] in
  match a_prctl k with
  | None => (Ok (), mkReaper (mkThread true (blocked t)) made)
  | Some errno => (Err (SubReaper errno), mkReaper t made)
  end.

(** [thread_swap_mask(SIG_BLOCK)]: the previous mask. *)
Definition block_signals (k : start_answers) (signals : gset Z) (r : reaper) : result process_error (gset Z) * reaper :=
  let t := self_thread r in
  let made := made r ++ [SwapMask signals] in
  match a_block k with
  | None => (Ok (blocked t), mkReaper (mkThread (subreaper t) (blocked t ∪ signals)) made)
  | Some errno => (Err (SignalMask errno), mkReaper t made)
  end.

(** [fork]: the new process has the mask of its parent, and adopts no orphans. *)
Definition fork (k : start_answers) (r : reaper) : result process_error (Z * thread) * reaper :=
  let t := self_thread r in
  (match a_fork k with
   | Ok pid => Ok (pid, mkThread false (blocked t))
   | Err errno => Err (ForkCommand errno)
   end, mkReaper t (made r ++ [Fork t])).

(** [thread_set_mask] *)
Definition restore_mask (k : start_answers) (mask : gset Z) (t : thread) : result process_error thread :=
  match a_restore k with
  | None => Ok (mkThread (subreaper t) mask)
  | Some errno => Err (SignalMask errno)
  end.

Definition tree_signals : gset Z := {[SIGCHLD; SIGTERM; SIGINT; SIGHUP]}.

(** How the forked process goes on: as the program, or it exits with a code. *)
Inductive command_process : Type :=
| CommandRuns (t : thread) (prog : bytes) (args : list bytes)
| CommandExits (code : Z) (e : process_error).

(** The error of [thread_set_mask] leaves through [main], which exits with 1. *)
Definition command_main (k : start_answers) (previous_mask : gset Z) (command : list bytes) (t : thread)
    : command_process :=
  match restore_mask k previous_mask t with
  | Err e => CommandExits 1 e
  | Ok t =>
      match exec_command (a_execvp k) command with
      | Replaced prog args => CommandRuns t prog args
      | ExecFailed e => CommandExits 1 e
      end
  end.

(** Up to [fork]: the command's process and what it does, in the reaper. *)
Definition start_command (k : start_answers) (command : list bytes) (r : reaper)
    : result process_error (Z * command_process) * reaper :=
  match set_child_subreaper k r with
  | (Err e, r) => (Err e, r)
  | (Ok _, r) =>
      match block_signals k tree_signals r with
      | (Err e, r) => (Err e, r)
      | (Ok previous_mask, r) =>
          match fork k r with
          | (Err e, r) => (Err e, r)
          | (Ok (command_pid, t), r) => (Ok (command_pid, command_main k previous_mask command t), r)
          end
      end
  end.

(** [run_command_tree] in the reaper. *)
Definition run_command_tree (fuel : nat) (k : start_answers) (command : list bytes) (t : thread) (self : Z)
    (rounds : list round) : option (result (result process_error Z) waiting) :=
  match start_command k command (mkReaper t []) with
  | (Err e, _) => Some (Err (Err e))
  | (Ok (command_pid, _), _) => wait_for_command_tree fuel command_pid self rounds
  end.

(** What [waitpid] can answer: exit codes are bytes, signals below 128. *)
Definition kernel_answer (a : wait_answer) : Prop :=
  match a with
  | Exited _ code => 0 <= code < 256
  | Signaled _ signal => 1 <= signal < 128
  | _ => True
  end.

Lemma asked_subset answers a : a ∈ asked answers -> a ∈ answers.
Proof. induction answers as [|x answers IH]; simpl; [done|]. destruct x; set_solver. Qed.

Lemma statuses_range pid rounds code :
  Forall (fun r => Forall kernel_answer (r_waits r)) rounds -> code ∈ statuses pid rounds -> 0 <= code < 256.
Proof.
  intros Hall Hin. unfold statuses in Hin.
  apply list_elem_of_In, in_flat_map in Hin as (r & Hr & Hin%list_elem_of_In). apply list_elem_of_In in Hr.
  apply list_elem_of_omap in Hin as (a & Ha%asked_subset & Hs).
  rewrite Forall_forall in Hall. specialize (Hall r Hr). rewrite Forall_forall in Hall. specialize (Hall a Ha).
  unfold status in Hs. destruct a; try done; case_if; simplify_eq; simpl in Hall; lia.
Qed.

Lemma cstrings_err i args e : cstrings i args = Err e ->
  exists j a, e = NulInArgument (i + j) /\ args !! j = Some a /\ Byte.x00 ∈ a.
Proof.
  revert i. induction args as [|a args IH]; intros i; cbn [cstrings]; [done|].
  unfold cstring. case_bool_decide as Ha; cbn [ok_or mbind result_bind].
  - intros [= <-]. exists 0%nat, a. split_and!; [f_equal; lia|done..].
  - destruct (cstrings (S i) args) as [cs'|e'] eqn:E; cbn [mbind result_bind]; [done|]. intros [= ->].
    destruct (IH _ E) as (j & b & -> & Hj & Hb). exists (S j), b. split_and!; [f_equal; lia|done..].
Qed.

(** [exec_command] becomes the program, or fails for one of these reasons. *)
Lemma exec_command_spec execvp command :
  match exec_command execvp command with
  | Replaced prog args => args = command /\ head command = Some prog /\
      Forall (fun a => Byte.x00 ∉ a) command /\ execvp prog args = None
  | ExecFailed e =>
      match e with
      | NoCommand => command = []
      | NulInArgument i => exists a, command !! i = Some a /\ Byte.x00 ∈ a
      | Execvp n => exists prog, head command = Some prog /\ execvp prog command = Some n
      | _ => False
      end
  end.
Proof.
  destruct command as [|p command]; cbn [exec_command]; [done|].
  destruct (cstring p) as [p'|] eqn:Ec; unfold cstring in Ec; case_bool_decide as Hp; try done;
    cbn [ok_or mbind result_bind]; [|by exists p].
  injection Ec as <-. destruct (cstrings 0 (p :: command)) as [cs|e] eqn:Es; cbn [mbind result_bind].
  - apply cstrings_ok in Es as [-> Hall]. destruct (execvp p (p :: command)) as [n|] eqn:Ex; [by exists p|].
    by split_and!.
  - apply cstrings_err in Es as (j & a & -> & G). by exists a.
Qed.

(** C30. Starting the command: [fork] is called after [prctl] and the change of
    the signal mask, and both have succeeded, so that the thread that forks
    adopts every orphaned descendant and has blocked all the signals that it
    waits for, and none is lost; when one of them fails, [fork] is not called.
    The forked process becomes the requested program with the requested
    arguments, NUL bytes excepted, under the signal mask that nsproxy was
    started with; otherwise, for one of the reasons given, it exits with code
    1. *)
Theorem start_command_spec k command t :
  match start_command k command (mkReaper t []) with
  | (Ok (command_pid, c), r) =>
      a_fork k = Ok command_pid /\ made r = [Prctl; SwapMask tree_signals; Fork (self_thread r)] /\
      subreaper (self_thread r) = true /\ tree_signals ⊆ blocked (self_thread r) /\
      match c with
      | CommandRuns ct prog args =>
          blocked ct = blocked t /\ args = command /\ head command = Some prog /\
          Forall (fun a => Byte.x00 ∉ a) command /\ a_execvp k prog args = None
      | CommandExits code e => code = 1 /\
          match e with
          | SignalMask n => a_restore k = Some n
          | NoCommand => command = []
          | NulInArgument i => exists a, command !! i = Some a /\ Byte.x00 ∈ a
          | Execvp n => exists prog, head command = Some prog /\ a_execvp k prog command = Some n
          | _ => False
          end
      end
  | (Err e, r) =>
      match e with
      | SubReaper n => a_prctl k = Some n /\ made r = [Prctl]
      | SignalMask n => a_block k = Some n /\ made r = [Prctl; SwapMask tree_signals]
      | ForkCommand n => a_fork k = Err n /\ made r = [Prctl; SwapMask tree_signals; Fork (self_thread r)]
      | _ => False
      end
  end.
Proof.
  unfold start_command, set_child_subreaper, block_signals, fork.
  destruct (a_prctl k) eqn:Ep; [done|]. destruct (a_block k) eqn:Eb; [done|].
  destruct (a_fork k) as [pid|n] eqn:Ef; [|done]. cbn [self_thread made subreaper blocked].
  split_and!; [done|done|done|set_solver|]. unfold command_main, restore_mask.
  destruct (a_restore k) as [n|] eqn:Er; [done|]. pose proof (exec_command_spec (a_execvp k) command) as Hx.
  destruct (exec_command (a_execvp k) command) as [prog args|e]; cbn [blocked]; [tauto|]. split; [done|].
  destruct e; done.
Qed.
