(* ===== verification/Reaper.v ===== *)
(** * How long a command tree survives (src/src/process.rs)

    [wait_for_command_tree] in real time: the clock readings of the turns are
    related to the time [sigtimedwait] sleeps and to how late the reaper is
    scheduled, and the passes of [SIGKILL] are placed on that clock. *)

From S2P Require Import Prelude RustStr Process.

Section Timed.
Variables (fuel : nat) (command_pid self : Z).

Local Abbreviation turn_of := (wait_turn fuel command_pid self).
Local Abbreviation loop := (wait_loop fuel command_pid self).

(** [sigtimedwait] returns when its timeout has passed at the latest, and all
    else that a turn does takes no longer than [delay] on either side of it. *)
Definition prompt (delay : Z) (r : round) (t : turn) : Prop :=
  r_now r <= r_received_at r /\ forall d, t_timeout t = Some d -> r_received_at r <= r_now r + d + delay.

Fixpoint on_time (delay : Z) (st : waiting) (rounds : list round) : Prop :=
  match rounds with
  | [] => True
  | r :: rounds =>
      forall t, turn_of st r = Some t ->
        prompt delay r t /\
        (forall r', head rounds = Some r' -> r_now r' <= r_received_at r + delay) /\
        forall st', t_next t = Ok st' -> on_time delay st' rounds
  end.

(** A turn that goes on after it sent [SIGKILL] to every process it found. *)
Definition kills (st : waiting) (r : round) : Prop :=
  exists t st', turn_of st r = Some t /\ t_next t = Ok st' /\ t_forwarded t = Some SIGKILL /\
    signal_descendants (H := r_proc r) fuel (r_kill r) self SIGKILL = Some (t_sent t, Ok ()).

(** A run has such a turn, at a time from [lo] to [hi]. *)
Definition killed (st : waiting) (rounds : list round) (lo hi : Z) : Prop :=
  exists before r later st', rounds = before ++ r :: later /\ loop st before = Some (Ok st') /\
    kills st' r /\ lo <= r_now r <= hi.

(** The turns of a run that is still waiting. *)
Lemma loop_cons st r rounds st2 : loop st (r :: rounds) = Some (Ok st2) ->
  exists t st1, turn_of st r = Some t /\ t_next t = Ok st1 /\ loop st1 rounds = Some (Ok st2).
Proof.
  simpl. destruct (turn_of st r) as [t|]; simpl; [|done]. destruct (t_next t) as [st1|] eqn:En; [|done]. eauto.
Qed.

Lemma killed_cons st r t st1 rounds lo hi : turn_of st r = Some t -> t_next t = Ok st1 ->
  killed st1 rounds lo hi -> killed st (r :: rounds) lo hi.
Proof.
  intros Et En (before & r' & later & st' & -> & El & Hk & Hlo & Hhi). exists (r :: before), r', later, st'.
  split_and!; [done| |done..]. cbn [wait_loop mbind option_bind]. rewrite Et. cbn [mbind option_bind]. by rewrite En.
Qed.

Lemma loop_alive st rounds st2 : loop st rounds = Some (Ok st2) ->
  Forall (fun r => last (asked (r_waits r)) = Some StillAlive) rounds.
Proof.
  revert st. induction rounds as [|r rounds IH]; intros st El; [done|].
  destruct (loop_cons _ _ _ _ El) as (t & st1 & Et & En & El1). constructor; [|by eapply IH].
  unfold wait_turn in Et. destruct (reap _ _ _) as [[c|e]|] eqn:Er; simpl in Et; [|simplify_eq/=|done].
  by destruct (reap_spec _ _ _ _ Er).
Qed.

(** A turn that goes on after a termination signal: what it sends, how long it
    sleeps, and that it keeps the deadline. *)
Lemma turn_terminating code s d r t st' : turn_of (mkWaiting code (Some (s, d))) r = Some t -> t_next t = Ok st' ->
  (d <= r_now r -> kills (mkWaiting code (Some (s, d))) r) /\
  t_timeout t = Some (if d <=? r_now r then KILL_INTERVAL else d - r_now r) /\
  exists s', termination st' = Some (s', d).
Proof.
  intros Et En. pose proof Et as E. unfold wait_turn in E. simpl in E.
  destruct (reap _ _ _) as [[c|e]|]; simpl in E; [|simplify_eq/=|done].
  rewrite remaining_zero in E. destruct (signal_descendants _ _ _ _) as [[sent res]|] eqn:Es; simpl in E; [|done].
  destruct res as [[]|e]; simplify_eq/=. split_and!.
  - intros Hd%Z.leb_le. rewrite Hd in Es. eexists _, st'. split_and!; [exact Et|done|simpl; by rewrite Hd|exact Es].
  - destruct (Z.leb_spec d (r_now r)); [done|]. unfold remaining_of. do 2 f_equal. lia.
  - revert En. unfold on_signal. repeat case_match; intros [= <-]; simpl; eauto.
Qed.

(** A turn before the first termination signal. *)
Lemma turn_idle code r t st' : turn_of (mkWaiting code None) r = Some t -> t_next t = Ok st' ->
  termination st' = termination_of (signals [r]).
Proof.
  unfold wait_turn. simpl. destruct (reap _ _ _) as [[c|e]|]; simpl; [|intros [= <-]; done|done].
  intros [= <-] En. simpl in En. by destruct (on_signal_knows c None r st' [] eq_refl En) as [_ E].
Qed.

(** From the deadline on the passes follow each other closely. *)
Lemma killed_after_deadline delay T K d s code rounds st2 r :
  0 <= delay -> 0 <= K -> d <= T -> (d < T -> KILL_INTERVAL <= K) ->
  loop (mkWaiting code (Some (s, d))) rounds = Some (Ok st2) -> on_time delay (mkWaiting code (Some (s, d))) rounds ->
  (forall r0, head rounds = Some r0 -> r_now r0 <= T + K + 2 * delay) ->
  last rounds = Some r -> T <= r_now r ->
  killed (mkWaiting code (Some (s, d))) rounds T (T + K + 2 * delay).
Proof.
  intros Hdelay HK HdT HKI. revert s code. induction rounds as [|r0 rounds IH]; intros s code El Ho Hh Hl Hr; [done|].
  destruct (loop_cons _ _ _ _ El) as (t & st1 & Et & En & El1).
  destruct (turn_terminating _ _ _ _ _ _ Et En) as (Hk & Hto & s' & Hs').
  destruct (decide (T <= r_now r0)) as [HT|HT].
  { eexists [], r0, rounds, _. split_and!; [done|done|apply Hk; lia|done|by apply Hh]. }
  destruct (Ho t Et) as ((_ & Hsleep) & Hnext & Ho1). destruct rounds as [|r1 rounds]; [simplify_eq/=; lia|].
  destruct st1 as [code1 term1]; simpl in Hs'; subst term1. apply (killed_cons _ _ _ _ _ _ _ Et En).
  apply IH; [done|exact (Ho1 _ En)| |done|done]. intros r2 [= <-]. specialize (Hnext r1 eq_refl). specialize (Hsleep _ Hto).
  destruct (Z.leb_spec d (r_now r0)); [specialize (HKI ltac:(lia))|]; lia.
Qed.

(** The first termination signal of a turn. *)
Lemma signals_one r n t0 k : signals [r] = (n, t0) :: k -> t0 = r_received_at r /\ k = [].
Proof. unfold signals. simpl. repeat case_match; naive_solver. Qed.

Lemma killed_in_time delay T K rounds code st2 n t0 sigs r :
  0 <= delay -> 0 <= K -> (t0 + TERMINATION_GRACE < T -> KILL_INTERVAL <= K) -> t0 + TERMINATION_GRACE <= T ->
  loop (mkWaiting code None) rounds = Some (Ok st2) -> on_time delay (mkWaiting code None) rounds ->
  signals rounds = (n, t0) :: sigs -> last rounds = Some r -> T <= r_now r ->
  killed (mkWaiting code None) rounds T (T + K + 2 * delay).
Proof.
  intros Hdelay HK HKI HdT. revert code. induction rounds as [|r0 rounds IH]; intros code El Ho Hs Hl Hr; [done|].
  destruct (loop_cons _ _ _ _ El) as (t & st1 & Et & En & El1). pose proof (turn_idle _ _ _ _ Et En) as Hterm.
  destruct (Ho t Et) as ((Hrecv & _) & Hnext & Ho1). specialize (Ho1 _ En). destruct st1 as [code1 term1]. cbn [termination] in Hterm.
  subst term1. apply (killed_cons _ _ _ _ _ _ _ Et En). change (r0 :: rounds) with ([r0] ++ rounds) in Hs.
  rewrite (omap_app _ [r0] rounds : signals ([r0] ++ rounds) = signals [r0] ++ signals rounds) in Hs.
  destruct rounds as [|r1 rounds].
  - injection Hl as ->. rewrite app_nil_r in Hs. apply signals_one in Hs as [-> ->]. unfold TERMINATION_GRACE in HdT. lia.
  - destruct (signals [r0]) as [|[n0 t1] k] eqn:Es; [by apply IH|]. injection Hs as -> -> _.
    apply signals_one in Es as [-> ->]. eapply killed_after_deadline; try done.
    intros r2 [= <-]. specialize (Hnext r1 eq_refl). unfold TERMINATION_GRACE in HdT. lia.
Qed.

(** C28. A tree does not survive its termination: when the reaper is never more
    than [delay] late, the whole tree is sent [SIGKILL] two seconds after the
    first termination signal, at most twice [delay] later, whatever other
    signals arrive, and from then on at least every 100 ms (and twice [delay]);
    so if a killed tree is gone [linger] later the reaper waits no longer than
    two seconds, [linger] and twice [delay]. *)
Theorem tree_killed_in_time delay rounds st n t0 sigs r :
  0 <= delay -> wait_for_command_tree fuel command_pid self rounds = Some (Ok st) ->
  on_time delay (mkWaiting None None) rounds -> signals rounds = (n, t0) :: sigs -> last rounds = Some r ->
  let deadline := t0 + TERMINATION_GRACE in
  (deadline <= r_now r -> killed (mkWaiting None None) rounds deadline (deadline + 2 * delay)) /\
  (forall T, deadline < T <= r_now r -> killed (mkWaiting None None) rounds T (T + KILL_INTERVAL + 2 * delay)) /\
  (forall linger, 0 <= linger ->
     (forall before r1 mid r2 later st1, rounds = before ++ r1 :: mid ++ r2 :: later ->
        wait_for_command_tree fuel command_pid self before = Some (Ok st1) -> kills st1 r1 ->
        r_now r1 + linger <= r_now r2 -> last (asked (r_waits r2)) <> Some StillAlive) ->
     r_now r <= deadline + linger + 2 * delay).
Proof.
  intros Hd El Ho Hs Hl deadline. unfold wait_for_command_tree in *.
  assert (deadline <= r_now r -> killed (mkWaiting None None) rounds deadline (deadline + 2 * delay)) as Hfirst.
  { intros Hr. rewrite <- (Z.add_0_r deadline) at 2. eapply killed_in_time; unfold deadline in *; try done; lia. }
  split_and!; [done| |].
  - intros T [HT Hr]. eapply killed_in_time; unfold deadline, KILL_INTERVAL in *; try done; lia.
  - intros linger Hlinger Hgone. destruct (decide (r_now r <= deadline + linger + 2 * delay)) as [|Hlate]; [done|].
    destruct Hfirst as (before & r1 & later & st1 & -> & Eb & Hk & Hin); [lia|].
    destruct later as [|r2 later _] using rev_ind; [rewrite last_snoc in Hl; simplify_eq; lia|].
    assert (last (before ++ r1 :: later ++ [r2]) = Some r2) as E by (by rewrite app_comm_cons, app_assoc, last_snoc).
    rewrite E in Hl. injection Hl as ->. destruct (Hgone before r1 later r [] st1 eq_refl Eb Hk); [lia|].
    apply loop_alive in El. rewrite Forall_forall in El. apply El. set_solver.
Qed.

End Timed.

(** ** Witness *)

(** Told to terminate at 1 s, the tree is killed at 3 s and, still there, again
    100 ms later. *)
Definition stubborn : list round :=
  let wakes now signal at_ := mkRound [StillAlive] now demo_proc (fun _ _ => None) signal at_ in
  [wakes 0 (Received SIGTERM) 1000000000; wakes 1000000000 Woken 3000000000;
   wakes 3000000000 Woken 3100000000; wakes 3100000000 Woken 3200000000].

Lemma tree_killed_in_time_witness :
  killed 10 5 1 (mkWaiting None None) stubborn 3000000000 (3000000000 + 2 * 5).
Proof.
  refine (proj1 (tree_killed_in_time 10 5 1 5 stubborn (mkWaiting None (Some (SIGTERM, 3000000000))) SIGTERM 1000000000 []
    (mkRound [StillAlive] 3100000000 demo_proc (fun _ _ => None) Woken 3200000000) _ _ _ _ _) _).
  - lia.
  - vm_compute. reflexivity.
  - unfold stubborn. cbn [on_time].
    repeat (intros ? Et; vm_compute in Et; injection Et as <-; split_and!;
      [split; [vm_compute; discriminate | intros ? G; vm_compute in G; simplify_eq; vm_compute; discriminate]
      | intros ? G; simplify_eq/=; vm_compute; discriminate
      | intros ? G; vm_compute in G; simplify_eq]).
    exact I.
  - vm_compute. reflexivity.
  - reflexivity.
  - vm_compute. discriminate.
Defined.
