(* ===== verification/Main.v ===== *)
(** * Startup (src/src/main.rs, src/src/fd_passing.rs)

    The configuration built from the command line, and the handshake between
    the parent and the forked child: two processes joined by a stream socket,
    each a program counter that a step moves on.  Any operation that can fail
    may fail; a process that fails exits and closes its end.  This is the
    specification of the programs of [Startup.v], whose system calls and
    interrupted reads it leaves out. *)

From S2P Require Import Prelude RustStr RustNet ProxyConfig Rule Publish BindMount Config Process.

(** ** Configuration *)

Record Cli : Type := mkCli {
  cli_proxy : bytes;
  cli_rules : list bytes;
  cli_binds : list bytes;
  cli_publishes : list bytes;
  cli_verbose : Z;
  cli_command : list bytes;
}.

Inductive log_level : Type := LevelDebug | LevelTrace.

Definition log_level_of (verbose : Z) : option log_level :=
  if verbose =? 0 then None else Some (if verbose =? 1 then LevelDebug else LevelTrace).

Inductive main_error : Type :=
| ParseProxy (e : proxy_error)
| ParseRule (e : rule_error)
| CurrentDir
| ParseBind (e : bind_error)
| ParsePublish (e : publish_error)
| SocketPair (errno : Z)
| Fork (errno : Z).

(** [build Config] of [main]; [lstat] is the file system, [cwd] the result of
    [current_dir]. *)
Definition build_config `{RegexEngine} (lstat : bytes -> option metadata) (cwd : option bytes) (cli : Cli)
    : result main_error Config :=
  default_proxy ← map_err ParseProxy (parse (cli_proxy cli));
  rules ← map_err ParseRule (from_specs (cli_rules cli));
  cwd ← ok_or cwd CurrentDir;
  bind_mounts ← map_err ParseBind (parse_bind_mounts lstat cwd (cli_binds cli) cwd);
  publishes ← map_err ParsePublish (parse_publish_specs (cli_publishes cli));
  Ok (mkConfig default_proxy bind_mounts publishes (cli_command cli) rules).

(** [main] up to [fork]: the answers of [socketpair] and [fork], [None] being
    success.  Both processes go on with the same configuration; an error ends
    nsproxy with code 1 before there is a second process. *)
Definition main_start `{RegexEngine} (lstat : bytes -> option metadata) (cwd : option bytes)
    (socketpair fork : option Z) (cli : Cli) : result main_error Config :=
  config ← build_config lstat cwd cli;
  match socketpair with
  | Some errno => Err (SocketPair errno)
  | None => match fork with Some errno => Err (Fork errno) | None => Ok config end
  end.

(** A configuration the rest of the program can rely on. *)
Record wf_config `{RegexEngine} (lstat : bytes -> option metadata) (c : Config) : Prop := {
  wc_routes : routes_all c;
  wc_ports : Forall (fun p => 1 <= host_port p <= 65535 /\ 1 <= namespace_port p <= 65535 /\ is_u32 (host_ip p))
               (publishes c);
  wc_endpoints : NoDup (map host_addr (publishes c));
  wc_mounts : bind_mounts c = [] \/ exists internal, internal_ids lstat = Ok internal /\
                Forall (valid_mount lstat internal) (bind_mounts c) /\ NoDup (map (target_id lstat) (bind_mounts c));
}.

Lemma publish_ports p raw : publish_text p raw ->
  1 <= host_port p <= 65535 /\ 1 <= namespace_port p <= 65535 /\ is_u32 (host_ip p).
Proof.
  assert (forall t n, port_text t n -> 1 <= n <= 65535) as Hport.
  { intros t n [Ht Hn]. apply parse_u16_range in Ht. unfold is_u16 in Ht. lia. }
  intros (a & Ha & _). destruct Ha as [hp np p q Hp Hq|ip hp np i p q Hi Hp Hq]; simpl;
    (split_and!; [by eapply Hport..|]).
  - by vm_compute.
  - by eapply parse_ipv4_range.
Qed.

Lemma build_config_wf `{RegexEngine} `{!RegexLaws} lstat cwd cli c :
  is_absolute cwd = true -> build_config lstat (Some cwd) cli = Ok c ->
  wf_config lstat c /\ parse (cli_proxy cli) = Ok (default_proxy c) /\
  from_specs (cli_rules cli) = Ok (rules c) /\ command c = cli_command cli /\
  length (publishes c) = length (cli_publishes cli) /\ length (bind_mounts c) = length (cli_binds cli).
Proof.
  intros Hcwd. unfold build_config.
  destruct (parse (cli_proxy cli)) as [proxy|] eqn:Ep; cbn [map_err mbind result_bind]; [|done].
  destruct (from_specs (cli_rules cli)) as [rs|] eqn:Er; cbn [map_err mbind result_bind ok_or]; [|done].
  destruct (parse_bind_mounts _ _ _ _) as [mounts|] eqn:Eb; cbn [map_err mbind result_bind]; [|done].
  destruct (parse_publish_specs _) as [pubs|] eqn:Es; cbn [map_err mbind result_bind]; [|done].
  intros [= <-]. apply publish_fold in Es as [Hf Hnd].
  assert (mounts = [] /\ cli_binds cli = [] \/ length mounts = length (cli_binds cli) /\
    exists internal, internal_ids lstat = Ok internal /\
      Forall (valid_mount lstat internal) mounts /\ NoDup (map (target_id lstat) mounts)) as Hm.
  { destruct (cli_binds cli) as [|b bs] eqn:Ebs; [left; by simplify_eq/=|right].
    by eapply parse_bind_mounts_lemma. }
  split_and!; [|done|done|done|by symmetry; eapply Forall2_length|].
  2: { destruct Hm as [[-> ->]|[? _]]; done. }
  split; simpl; [by eapply routes_all_from_specs| |done|].
  - apply Forall_forall. intros p [i Hi]%list_elem_of_lookup.
    destruct (Forall2_lookup_r _ _ _ _ _ Hf Hi) as (raw & _ & Hp).
    by apply parse_publish_spec_iff, publish_ports in Hp.
  - destruct Hm as [[? _]|[_ ?]]; auto.
Qed.

(** ** The setup channel *)

(** A message of the stream: a byte, or the byte that carries a descriptor. *)
Inductive message : Type := MByte (b : Z) | MFd (fd : Z).

Definition byte_of (m : message) : Z := match m with MByte b => b | MFd _ => 0 end.

(** [fd_passing::recv_fd]: the descriptor in the ancillary data, if any. *)
Definition fd_of (m : message) : option Z := match m with MFd fd => Some fd | MByte _ => None end.

(** What a read finds: data, the end of the stream, or nothing yet. *)
Inductive readable : Type := Data (m : message) | EndOfStream | Blocked.

Definition read_channel (sent : list message) (seen : nat) (peer_alive : bool) : readable :=
  match sent !! seen with
  | Some m => Data m
  | None => if peer_alive then Blocked else EndOfStream
  end.

(** ** The two processes *)

Inductive child_pc : Type :=
| CCreateNamespace
| CSignal (needs_maps : bool)
| CAwaitMaps
| CLoopback
| CCreateTun
| CMount (tun_fd : Z)
| CSendFd (tun_fd : Z)
| CAwaitReady
| CRunCommand
| CFailed.

Inductive parent_pc : Type :=
| PAwaitUnshare
| PWriteMaps
| PAckMaps
| PRecvFd
| PBind
| PRuntime
| PRegister
| PSendReady
| PReady
| PFailed.

Record system : Type := mkSystem {
  child : child_pc;
  parent : parent_pc;
  (** everything the child has written, and how much the parent has read *)
  to_parent : list message;
  parent_seen : nat;
  to_child : list message;
  child_seen : nat;
  (** what the parent has done *)
  maps_written : bool;
  ports_bound : bool;
  ports_registered : bool;
}.

Definition child_alive (s : system) : bool := match child s with CFailed => false | _ => true end.
Definition parent_alive (s : system) : bool := match parent s with PFailed => false | _ => true end.

Definition set_child (s : system) (c : child_pc) : system :=
  mkSystem c (parent s) (to_parent s) (parent_seen s) (to_child s) (child_seen s)
    (maps_written s) (ports_bound s) (ports_registered s).

Definition child_write (s : system) (m : message) (c : child_pc) : system :=
  mkSystem c (parent s) (to_parent s ++ [m]) (parent_seen s) (to_child s) (child_seen s)
    (maps_written s) (ports_bound s) (ports_registered s).

Definition child_read (s : system) (c : child_pc) : system :=
  mkSystem c (parent s) (to_parent s) (parent_seen s) (to_child s) (S (child_seen s))
    (maps_written s) (ports_bound s) (ports_registered s).

Definition set_parent (s : system) (p : parent_pc) : system :=
  mkSystem (child s) p (to_parent s) (parent_seen s) (to_child s) (child_seen s)
    (maps_written s) (ports_bound s) (ports_registered s).

Definition parent_write (s : system) (m : message) (p : parent_pc) : system :=
  mkSystem (child s) p (to_parent s) (parent_seen s) (to_child s ++ [m]) (child_seen s)
    (maps_written s) (ports_bound s) (ports_registered s).

Definition parent_read (s : system) (p : parent_pc) : system :=
  mkSystem (child s) p (to_parent s) (S (parent_seen s)) (to_child s) (child_seen s)
    (maps_written s) (ports_bound s) (ports_registered s).

Definition parent_did (s : system) (p : parent_pc) (maps bound registered : bool) : system :=
  mkSystem (child s) p (to_parent s) (parent_seen s) (to_child s) (child_seen s)
    (maps_written s || maps) (ports_bound s || bound) (ports_registered s || registered).

(** [read_control_byte] in the child, which must find the byte 1: the end of
    the stream, any other byte and a read that fails are errors. *)
Definition await_one (ok : bool) (s : system) (next : child_pc) : option system :=
  if ok then
    match read_channel (to_child s) (child_seen s) (parent_alive s) with
    | Data m => Some (if byte_of m =? 1 then child_read s next else child_read s CFailed)
    | EndOfStream => Some (set_child s CFailed)
    | Blocked => None
    end
  else Some (set_child s CFailed).

(** [read_control_byte] and [recv_fd] in the parent, which goes on as [next]
    says of the message. *)
Definition parent_await (ok : bool) (s : system) (next : message -> parent_pc) : option system :=
  if ok then
    match read_channel (to_parent s) (parent_seen s) (child_alive s) with
    | Data m => Some (parent_read s (next m))
    | EndOfStream => Some (set_parent s PFailed)
    | Blocked => None
    end
  else Some (set_parent s PFailed).

(** One step of [child_main]: [ok] says whether the operation succeeds,
    [needs_maps] what [create_namespace] returns, [fd] what [create_tun]
    returns.  [None]: the process waits or has left the handshake. *)
Definition child_step (ok needs_maps : bool) (fd : Z) (s : system) : option system :=
  match child s with
  | CCreateNamespace => Some (set_child s (if ok then CSignal needs_maps else CFailed))
  | CSignal needs =>
      Some (if ok then child_write s (MByte (if needs then 1 else 0)) (if needs then CAwaitMaps else CLoopback)
            else set_child s CFailed)
  | CAwaitMaps => await_one ok s CLoopback
  | CLoopback => Some (set_child s (if ok then CCreateTun else CFailed))
  | CCreateTun => Some (set_child s (if ok then CMount fd else CFailed))
  | CMount tun_fd => Some (set_child s (if ok then CSendFd tun_fd else CFailed))
  | CSendFd tun_fd => Some (if ok then child_write s (MFd tun_fd) CAwaitReady else set_child s CFailed)
  | CAwaitReady => await_one ok s CRunCommand
  | CRunCommand | CFailed => None
  end.

(** One step of [parent_main], up to the ready signal: [block_on] and the event
    loop come after it. *)
Definition parent_step (ok : bool) (s : system) : option system :=
  match parent s with
  | PAwaitUnshare =>
      parent_await ok s (fun m => if byte_of m =? 0 then PRecvFd
                                  else if byte_of m =? 1 then PWriteMaps else PFailed)
  | PWriteMaps => Some (if ok then parent_did s PAckMaps true false false else set_parent s PFailed)
  | PAckMaps => Some (if ok then parent_write s (MByte 1) PRecvFd else set_parent s PFailed)
  | PRecvFd => parent_await ok s (fun m => match fd_of m with Some _ => PBind | None => PFailed end)
  | PBind => Some (if ok then parent_did s PRuntime false true false else set_parent s PFailed)
  | PRuntime => Some (set_parent s (if ok then PRegister else PFailed))
  | PRegister => Some (if ok then parent_did s PSendReady false false true else set_parent s PFailed)
  | PSendReady => Some (if ok then parent_write s (MByte 1) PReady else set_parent s PFailed)
  | PReady | PFailed => None
  end.

(** After [fork]. *)
Definition initial : system := mkSystem CCreateNamespace PAwaitUnshare [] 0 [] 0 false false false.

Inductive step : system -> system -> Prop :=
| step_child ok needs fd s s' : child_step ok needs fd s = Some s' -> step s s'
| step_parent ok s s' : parent_step ok s = Some s' -> step s s'.

Definition reachable (s : system) : Prop := rtc step initial s.

(** ** Specification *)

(** Both processes have left the handshake. *)
Definition final (s : system) : bool :=
  match child s, parent s with
  | (CRunCommand | CFailed), (PReady | PFailed) => true
  | _, _ => false
  end.

(** How far a process has come. *)
Definition child_rank (c : child_pc) : nat :=
  match c with
  | CCreateNamespace => 0 | CSignal _ => 1 | CAwaitMaps => 2 | CLoopback => 3 | CCreateTun => 4
  | CMount _ => 5 | CSendFd _ => 6 | CAwaitReady => 7 | CRunCommand => 8 | CFailed => 9
  end.

Definition parent_rank (p : parent_pc) : nat :=
  match p with
  | PAwaitUnshare => 0 | PWriteMaps => 1 | PAckMaps => 2 | PRecvFd => 3 | PBind => 4 | PRuntime => 5
  | PRegister => 6 | PSendReady => 7 | PReady => 8 | PFailed => 9
  end.

Definition rank (s : system) : nat := child_rank (child s) + parent_rank (parent s).

(** ** Invariant *)

(** What was said so far: [hello n] announces whether maps are needed. *)
Definition hello (n : bool) : message := MByte (if n then 1 else 0).

Definition acks (n : bool) : list message := if n then [MByte 1] else [].

(** What each process has read so far. *)
Definition child_heard (s : system) : list message := take (child_seen s) (to_child s).
Definition parent_heard (s : system) : list message := take (parent_seen s) (to_parent s).

Definition child_inv (s : system) : Prop :=
  match child s with
  | CCreateNamespace | CSignal _ => to_parent s = [] /\ child_heard s = []
  | CAwaitMaps => to_parent s = [hello true] /\ child_heard s = []
  | CLoopback | CCreateTun | CMount _ | CSendFd _ =>
      exists n, to_parent s = [hello n] /\ child_heard s = acks n
  | CAwaitReady => exists n fd, to_parent s = [hello n; MFd fd] /\ child_heard s = acks n
  | CRunCommand => exists n fd, to_parent s = [hello n; MFd fd] /\ child_heard s = acks n ++ [MByte 1]
  | CFailed => exists n fd, to_parent s `prefix_of` [hello n; MFd fd]
  end.

Definition parent_inv (s : system) : Prop :=
  match parent s with
  | PAwaitUnshare => parent_heard s = [] /\ to_child s = []
  | PWriteMaps => parent_heard s = [hello true] /\ to_child s = []
  | PAckMaps => parent_heard s = [hello true] /\ to_child s = [] /\ maps_written s = true
  | PRecvFd => exists n, parent_heard s = [hello n] /\ to_child s = acks n /\ (n = true -> maps_written s = true)
  | PBind | PRuntime | PRegister | PSendReady | PReady =>
      (exists n fd, parent_heard s = [hello n; MFd fd] /\ (n = true -> maps_written s = true) /\
         to_child s = match parent s with PReady => acks n ++ [MByte 1] | _ => acks n end) /\
      match parent s with
      | PBind => True
      | PSendReady | PReady => ports_bound s = true /\ ports_registered s = true
      | _ => ports_bound s = true
      end
  | PFailed => to_child s = [] \/
               (to_child s = [MByte 1] /\ head (parent_heard s) = Some (hello true) /\ maps_written s = true)
  end.

Record handshake_inv (s : system) : Prop := {
  hi_child : child_inv s;
  hi_parent : parent_inv s;
  hi_ones : Forall (eq (MByte 1)) (to_child s);
  hi_parent_seen : (parent_seen s <= length (to_parent s))%nat;
  hi_child_seen : (child_seen s <= length (to_child s))%nat;
}.

Lemma handshake_inv_initial : handshake_inv initial.
Proof. by repeat split; simpl. Qed.

(** The parent's part depends on what it has heard and said, not on the child. *)
Lemma parent_inv_frame s s' :
  parent s' = parent s -> parent_heard s' = parent_heard s -> to_child s' = to_child s ->
  maps_written s' = maps_written s -> ports_bound s' = ports_bound s ->
  ports_registered s' = ports_registered s -> parent_inv s -> parent_inv s'.
Proof. unfold parent_inv. by intros -> -> -> -> -> ->. Qed.

Lemma child_inv_frame s s' :
  child s' = child s -> child_heard s' = child_heard s -> to_parent s' = to_parent s ->
  child_inv s -> child_inv s'.
Proof. unfold child_inv. by intros -> -> ->. Qed.

(** A process that stops has said a prefix of its part. *)
Lemma child_inv_failed s : child_inv s -> exists n fd, to_parent s `prefix_of` [hello n; MFd fd].
Proof.
  unfold child_inv. destruct (child s); intros G; simpl in G.
  1, 2: exists true, 0; destruct G as [-> _]; apply prefix_nil.
  1: exists true, 0; destruct G as [-> _]; by exists [MFd 0].
  1-4: destruct G as (n & -> & _); exists n, 0; by exists [MFd 0].
  1, 2: destruct G as (n & fd & -> & _); by exists n, fd.
  done.
Qed.

Lemma set_child_preserves s c :
  handshake_inv s -> (child_inv s -> child_inv (set_child s c)) -> handshake_inv (set_child s c).
Proof. intros [Hc Hp Ho Hs Hs'] G. split; auto. Qed.

Lemma child_fails s : handshake_inv s -> handshake_inv (set_child s CFailed).
Proof. intros G. apply set_child_preserves; [done | apply child_inv_failed]. Qed.

Lemma child_write_preserves s m c :
  handshake_inv s -> (child_inv s -> child_inv (child_write s m c)) -> handshake_inv (child_write s m c).
Proof.
  intros [Hc Hp Ho Hs Hs'] G. split; simpl; auto.
  - apply (parent_inv_frame s); try done. unfold parent_heard. simpl. by rewrite take_app_le.
  - rewrite length_app. lia.
Qed.

(** A byte the child waits for is the next acknowledgement, or it stops. *)
Lemma await_one_preserves ok s next s' :
  await_one ok s next = Some s' -> handshake_inv s ->
  (child_inv s -> to_parent (child_read s next) = to_parent s ->
   child_heard (child_read s next) = child_heard s ++ [MByte 1] -> child_inv (child_read s next)) ->
  handshake_inv s'.
Proof.
  unfold await_one, read_channel. intros E I G.
  destruct ok; [|simplify_eq; by apply child_fails].
  destruct (to_child s !! child_seen s) as [m|] eqn:El.
  2: destruct (parent_alive s); simplify_eq; by apply child_fails.
  destruct I as [Hc Hp Ho Hs Hs'].
  assert (m = MByte 1) as -> by (symmetry; exact (proj1 (Forall_lookup _ _) Ho _ _ El)).
  simplify_eq/=. split; try done.
  - apply G; try done. unfold child_heard. simpl. by apply take_S_r.
  - simpl. apply lookup_lt_Some in El. lia.
Qed.

Lemma child_preserves ok needs fd s s' :
  child_step ok needs fd s = Some s' -> handshake_inv s -> handshake_inv s'.
Proof.
  unfold child_step. intros E I. destruct (child s) as [|n| | | |tfd|tfd| | |] eqn:Ec; try discriminate E.
  3, 8: eapply await_one_preserves; [exact E | done |]; intros G1 _ G2;
        unfold child_inv in G1 |- *; rewrite Ec in G1; simpl; rewrite G2.
  3: { destruct G1 as [G1 ->]. by exists true. }
  3: { destruct G1 as (n & fd' & G1 & ->). by exists n, fd'. }
  all: destruct ok; simplify_eq/=; [|by apply child_fails].
  1, 3-5: apply set_child_preserves; [done | unfold child_inv; by rewrite Ec].
  all: apply child_write_preserves; [done|]; unfold child_inv; rewrite Ec; simpl; unfold child_heard; simpl.
  - intros [-> G]. destruct n; [done | by exists false].
  - intros (n & -> & G). by exists n, tfd.
Qed.

Lemma parent_keeps s s' :
  handshake_inv s -> child s' = child s -> to_parent s' = to_parent s -> to_child s' = to_child s ->
  child_seen s' = child_seen s -> (parent_seen s' <= length (to_parent s))%nat ->
  parent_inv s' -> handshake_inv s'.
Proof.
  intros [Hc Hp Ho Hs Hs'] E1 E2 E3 E4 G Hp'. split; try done; rewrite ?E2, ?E3, ?E4; try done.
  apply (child_inv_frame s); try done. unfold child_heard. by rewrite E3, E4.
Qed.

Lemma parent_inv_failed s s' :
  parent_inv s -> match parent s with PReady => False | _ => True end ->
  parent s' = PFailed -> to_child s' = to_child s -> maps_written s' = maps_written s ->
  (parent_heard s <> [] -> head (parent_heard s') = head (parent_heard s)) -> parent_inv s'.
Proof.
  unfold parent_inv. intros G Hr -> -> -> Hh. destruct (parent s); try done.
  1-3: left; apply G.
  1: destruct G as (n & G1 & G2 & G3).
  2-5: destruct G as [(n & fd & G1 & G3 & G2) _].
  6: { destruct G as [G | (G1 & G2 & G3)]; [by left | right]. rewrite Hh; [done|].
       intros G. by rewrite G in G2. }
  all: destruct n; [right | by left]; rewrite G1 in Hh; rewrite Hh by done; auto.
Qed.

Lemma parent_fails s :
  handshake_inv s -> match parent s with PReady => False | _ => True end -> handshake_inv (set_parent s PFailed).
Proof.
  intros I G. apply (parent_keeps s); try done; [apply I|]. by apply (parent_inv_failed s); try apply I.
Qed.

Lemma parent_write_preserves s p :
  handshake_inv s -> parent_inv (parent_write s (MByte 1) p) -> handshake_inv (parent_write s (MByte 1) p).
Proof.
  intros [Hc Hp Ho Hs Hs'] G. split; simpl; try done.
  - apply (child_inv_frame s); try done. unfold child_heard. simpl. by rewrite take_app_le.
  - apply Forall_app. by rewrite Forall_singleton.
  - rewrite length_app. lia.
Qed.

(** What the parent reads next is the next message of the child's part. *)
Lemma parent_next_message s m :
  handshake_inv s -> to_parent s !! parent_seen s = Some m ->
  take (S (parent_seen s)) (to_parent s) = parent_heard s ++ [m] /\
  exists n fd, parent_heard s ++ [m] `prefix_of` [hello n; MFd fd].
Proof.
  intros I El.
  assert (Eh : take (S (parent_seen s)) (to_parent s) = parent_heard s ++ [m]) by (by apply take_S_r).
  destruct (child_inv_failed s (hi_child _ I)) as (n & fd & Hpre).
  split; [done|]. exists n, fd. rewrite <- Eh. etrans; [apply prefix_take | exact Hpre].
Qed.

Lemma second_message n x m fd : [x; m] `prefix_of` [hello n; MFd fd] -> m = MFd fd.
Proof. intros G. apply prefix_cons_inv_2 in G. by apply prefix_cons_inv_1 in G. Qed.

Lemma parent_await_preserves ok s next s' :
  parent_await ok s next = Some s' -> handshake_inv s ->
  match parent s with PReady => False | _ => True end ->
  (forall m n fd, parent_heard s ++ [m] `prefix_of` [hello n; MFd fd] ->
     parent_heard (parent_read s (next m)) = parent_heard s ++ [m] -> parent_inv (parent_read s (next m))) ->
  handshake_inv s'.
Proof.
  unfold parent_await, read_channel. intros E I R G.
  destruct ok; [|simplify_eq; by apply parent_fails].
  destruct (to_parent s !! parent_seen s) as [m|] eqn:El.
  2: destruct (child_alive s); simplify_eq; by apply parent_fails.
  simplify_eq/=.
  destruct (parent_next_message s m I El) as (Eh & n & fd & Hpre).
  apply (parent_keeps s); try done; [apply lookup_lt_Some in El; simpl; lia|].
  by apply (G m n fd).
Qed.

Lemma parent_preserves ok s s' :
  parent_step ok s = Some s' -> handshake_inv s -> handshake_inv s'.
Proof.
  unfold parent_step. intros E I. pose proof (hi_parent _ I) as Hp. unfold parent_inv in Hp.
  destruct (parent s) eqn:Ec; try discriminate E.
  1, 4: eapply parent_await_preserves; [exact E | done | by rewrite Ec |].
  1: { intros m n fd Hpre Eh. destruct Hp as [G1 G2]. rewrite G1 in Hpre, Eh.
       apply prefix_cons_inv_1 in Hpre as ->. unfold parent_inv. rewrite Eh. simpl.
       destruct n; simpl; [done | by exists false]. }
  1: { intros m n fd Hpre Eh. destruct Hp as (n' & G1 & G2 & G3). rewrite G1 in Hpre, Eh.
       apply second_message in Hpre as ->.
       unfold parent_inv. rewrite Eh. simpl. split; [|done]. by exists n', fd. }
  all: destruct ok; simplify_eq/=; [|by apply parent_fails; rewrite ?Ec].
  1, 3-5: apply (parent_keeps s); try done; try apply I; unfold parent_inv; simpl;
          rewrite ?orb_true_r, ?orb_false_r; unfold parent_heard in *; simpl; try naive_solver.
  all: apply parent_write_preserves; [done|]; unfold parent_inv, parent_heard in *; simpl.
  - destruct Hp as (-> & -> & G). by exists true.
  - destruct Hp as [(n & fd & G1 & G2 & G3) G]. split; [|done]. exists n, fd. by rewrite G3.
Qed.

Lemma step_preserves s s' : step s s' -> handshake_inv s -> handshake_inv s'.
Proof. intros [ok needs fd s1 s2 E | ok s1 s2 E]; [by eapply child_preserves | by eapply parent_preserves]. Qed.

Lemma handshake_inv_steps s s' : rtc step s s' -> handshake_inv s -> handshake_inv s'.
Proof. induction 1; eauto using step_preserves. Qed.

Lemma handshake_inv_reachable s : reachable s -> handshake_inv s.
Proof. intros G. by eapply handshake_inv_steps, handshake_inv_initial. Qed.

(** ** What the handshake guarantees *)

Lemma heard_prefix s : parent_heard s `prefix_of` to_parent s.
Proof. apply prefix_take. Qed.

Lemma hello_inj m n : hello m = hello n -> m = n.
Proof. by destruct m, n. Qed.

(** Both sides agree on whether maps are needed. *)
Lemma announced_agree s m n l l' : parent_heard s = hello m :: l -> to_parent s = hello n :: l' -> m = n.
Proof.
  intros E1 E2. pose proof (heard_prefix s) as G. rewrite E1, E2 in G.
  apply prefix_cons_inv_1 in G. by apply hello_inj.
Qed.

(** An acknowledged child is one whose maps are written. *)
Lemma acked_maps s l :
  handshake_inv s -> to_parent s = hello true :: l -> to_child s <> [] -> maps_written s = true.
Proof.
  intros I E G. pose proof (hi_parent _ I) as Hp. unfold parent_inv in Hp.
  assert (forall n l', parent_heard s = hello n :: l' -> n = true) as Ha by (intros; by eapply announced_agree).
  destruct (parent s); naive_solver.
Qed.

(** Before it is ready the parent has acknowledged the maps at most. *)
Lemma said_before_ready s n l :
  handshake_inv s -> to_parent s = hello n :: l -> parent s <> PReady ->
  (length (to_child s) <= length (acks n))%nat.
Proof.
  intros I E G. pose proof (hi_parent _ I) as Hp. unfold parent_inv in Hp.
  assert (forall m l', parent_heard s = hello m :: l' -> m = n) as Ha by (intros; by eapply announced_agree).
  destruct (parent s); try done.
  1-3: destruct Hp as [_ Hp]; assert (to_child s = []) as -> by naive_solver; simpl; lia.
  1: destruct Hp as (m & G1 & -> & _); by rewrite (Ha _ _ G1).
  1-4: destruct Hp as [(m & fd & G1 & _ & ->) _]; by rewrite (Ha _ _ G1).
  destruct Hp as [-> | (-> & G1 & _)]; [simpl; lia|].
  destruct (parent_heard s) as [|x l'] eqn:Eh; simplify_eq/=. by rewrite <- (Ha true l').
Qed.

Lemma run_command_released s :
  handshake_inv s -> child s = CRunCommand ->
  parent s = PReady /\ ports_bound s = true /\ ports_registered s = true.
Proof.
  intros I E. pose proof (hi_child _ I) as Hc. pose proof (hi_parent _ I) as Hp.
  unfold child_inv in Hc. rewrite E in Hc. destruct Hc as (n & fd & E1 & E2).
  assert (parent s = PReady) as Er.
  { destruct (decide (length (to_child s) <= length (acks n))%nat) as [G|G].
    - apply (f_equal length) in E2. unfold child_heard in E2.
      rewrite length_take, length_app in E2. simpl in E2. lia.
    - pose proof (said_before_ready s n [MFd fd] I E1). destruct (parent s); done || (exfalso; auto). }
  unfold parent_inv in Hp. rewrite Er in Hp. naive_solver.
Qed.

(** ** Progress *)

(** A step in which no operation fails. *)
Inductive good_step : system -> system -> Prop :=
| good_child needs fd s s' : child_step true needs fd s = Some s' -> good_step s s'
| good_parent s s' : parent_step true s = Some s' -> good_step s s'.

(** A child that waits has an answer coming: the parent waits for nothing, or
    for a message the child has already sent. *)
Lemma child_blocked s next :
  handshake_inv s -> await_one true s next = None ->
  to_child s = child_heard s /\ parent_alive s = true.
Proof.
  intros I. unfold await_one, read_channel. destruct (to_child s !! child_seen s) eqn:El; [done|].
  destruct (parent_alive s); [intros _; split; [|done] | done].
  unfold child_heard. by rewrite take_ge by by apply lookup_ge_None.
Qed.

Lemma parent_blocked s next :
  handshake_inv s -> parent_await true s next = None ->
  to_parent s = parent_heard s /\ child_alive s = true.
Proof.
  intros I. unfold parent_await, read_channel. destruct (to_parent s !! parent_seen s) eqn:El; [done|].
  destruct (child_alive s); [intros _; split; [|done] | done].
  unfold parent_heard. by rewrite take_ge by by apply lookup_ge_None.
Qed.

Lemma handshake_progress s : handshake_inv s -> final s = false -> exists s', good_step s s'.
Proof.
  intros I F.
  destruct (child_step true true 0 s) as [s'|] eqn:Ec; [by exists s'; eapply good_child|].
  destruct (parent_step true s) as [s'|] eqn:Ep; [by exists s'; eapply good_parent|].
  exfalso. pose proof (hi_child _ I) as Hc. pose proof (hi_parent _ I) as Hp.
  unfold child_step in Ec. unfold parent_step in Ep. unfold final in F. unfold child_inv in Hc.
  unfold parent_inv in Hp.
  destruct (child s) eqn:Esc; try discriminate Ec; destruct (parent s) eqn:Esp; try discriminate Ep; try discriminate F.
  all: try (apply child_blocked in Ec as [Ec Ha]; [|done]; unfold parent_alive in Ha; rewrite Esp in Ha).
  all: try (apply parent_blocked in Ep as [Ep Hb]; [|done]; unfold child_alive in Hb; rewrite Esc in Hb).
  all: try discriminate.
  all: try (destruct (run_command_released s I Esc); congruence).
  all: pose proof (heard_prefix s) as Hh.
  - destruct Hp as [Hp _]. destruct Hc as [Hc _]. congruence.
  - destruct Hp as (n & G1 & G2 & _). destruct Hc as [Hc G3].
    assert (n = true) as -> by by eapply announced_agree. simpl in G2. congruence.
  - destruct Hp as [(n & fd & G1 & _ & _) _]. destruct Hc as [Hc _]. rewrite G1, Hc in Hh.
    apply prefix_length in Hh. simpl in Hh. lia.
  - destruct Hc as (n & fd & Hc & _). destruct Hp as [Hp _]. congruence.
  - destruct Hc as (n & fd & Hc & _). destruct Hp as (m & Hp & _). congruence.
  - destruct Hc as (n & fd & Hc & G1). destruct Hp as [(m & fd' & Hp & _ & G2) _].
    assert (m = n) as -> by by eapply announced_agree.
    rewrite Ec, G1 in G2. apply (f_equal length) in G2. rewrite length_app in G2. simpl in G2. lia.
Qed.

(** When no operation fails no process stops early. *)
Lemma await_one_good s next s' :
  handshake_inv s -> parent_alive s = true -> await_one true s next = Some s' -> s' = child_read s next.
Proof.
  intros I Ap G. unfold await_one, read_channel in G. rewrite Ap in G.
  destruct (to_child s !! child_seen s) as [m|] eqn:El; [|done].
  assert (MByte 1 = m) as <- by exact (proj1 (Forall_lookup _ _) (hi_ones _ I) _ _ El). by simplify_eq/=.
Qed.

Lemma parent_await_good s next s' :
  handshake_inv s -> child_alive s = true -> parent_await true s next = Some s' ->
  exists m n fd, parent_heard s ++ [m] `prefix_of` [hello n; MFd fd] /\ s' = parent_read s (next m).
Proof.
  intros I Ac G. unfold parent_await, read_channel in G. rewrite Ac in G.
  destruct (to_parent s !! parent_seen s) as [m|] eqn:El; [|done]. simplify_eq.
  destruct (parent_next_message s m I El) as (_ & n & fd & Hpre). by exists m, n, fd.
Qed.

Lemma good_step_alive s s' :
  handshake_inv s -> good_step s s' ->
  child_alive s = true -> parent_alive s = true -> child_alive s' = true /\ parent_alive s' = true.
Proof.
  intros I G Ac Ap. destruct G as [needs fd s s' E | s s' E].
  - unfold child_step in E. destruct (child s) eqn:Es; try discriminate.
    3, 8: apply await_one_good in E as ->; done.
    all: simplify_eq/=; split; done || by destruct needs_maps.
  - unfold parent_step in E. pose proof (hi_parent _ I) as Hp. unfold parent_inv in Hp.
    destruct (parent s) eqn:Es; try discriminate.
    1, 4: apply parent_await_good in E as (m & n & fd & Hpre & ->); [|done..]; split; [done|].
    3-8: by simplify_eq/=.
    + destruct Hp as [G _]. rewrite G in Hpre. apply prefix_cons_inv_1 in Hpre as ->. by destruct n.
    + destruct Hp as (n' & G & _). rewrite G in Hpre. by apply second_message in Hpre as ->.
Qed.

Lemma good_steps_alive s s' :
  rtc good_step s s' -> handshake_inv s -> child_alive s = true -> parent_alive s = true ->
  child_alive s' = true /\ parent_alive s' = true.
Proof.
  induction 1 as [|s1 s2 s3 G _ IH]; [done|]. intros I Ac Ap.
  destruct (good_step_alive _ _ I G Ac Ap). apply IH; try done.
  destruct G; [by eapply child_preserves | by eapply parent_preserves].
Qed.

Lemma step_rank s s' : step s s' -> (rank s < rank s')%nat /\ (rank s' <= 18)%nat.
Proof.
  assert (forall c, child_rank c <= 9)%nat as Rc by (intros []; simpl; lia).
  assert (forall p, parent_rank p <= 9)%nat as Rp by (intros []; simpl; lia).
  intros G. split; [|pose proof (Rc (child s')); pose proof (Rp (parent s')); unfold rank; lia].
  unfold rank. destruct G as [ok needs fd s s' E | ok s s' E].
  - unfold child_step, await_one in E. destruct (child s); repeat case_match; simplify_eq/=; lia.
  - unfold parent_step, parent_await in E. destruct (parent s); repeat case_match; simplify_eq/=; lia.
Qed.

(** ** Properties *)

(** The child is past the acknowledgement of its maps. *)
Definition configuring (c : child_pc) : bool :=
  match c with
  | CLoopback | CCreateTun | CMount _ | CSendFd _ | CAwaitReady | CRunCommand => true
  | _ => false
  end.

Lemma configuring_maps s :
  handshake_inv s -> configuring (child s) = true -> head (to_parent s) = Some (hello true) ->
  maps_written s = true.
Proof.
  intros I E Eh. pose proof (hi_child _ I) as Hc. unfold child_inv in Hc.
  destruct (to_parent s) as [|x l] eqn:Et; simplify_eq/=.
  apply (acked_maps s l); try done. intros G. unfold child_heard in Hc. rewrite G, take_nil in Hc.
  destruct (child s); try discriminate E.
  1-4: destruct Hc as (n & En & Hc).
  5-6: destruct Hc as (n & fd & En & Hc).
  all: simplify_eq/=; destruct n; discriminate.
Qed.

(** C9. Whatever fails on either side and however the two processes are
    interleaved after [fork]: the user's command is run only once the parent
    has bound and registered every published port and sent the ready signal
    (the event loop starts after that); the child configures
    its network only once the parent has written the id maps it asked for; and
    the parent gets there only with the TUN descriptor that the child sent
    it. *)
Theorem handshake_safe s :
  reachable s ->
  (child s = CRunCommand -> parent s = PReady /\ ports_bound s = true /\ ports_registered s = true) /\
  (configuring (child s) = true -> head (to_parent s) = Some (hello true) -> maps_written s = true) /\
  (parent s = PReady -> exists n fd, parent_heard s = [hello n; MFd fd]).
Proof.
  intros I%handshake_inv_reachable. split_and!.
  - by apply run_command_released.
  - by apply configuring_maps.
  - intros E. pose proof (hi_parent _ I) as Hp. unfold parent_inv in Hp. rewrite E in Hp.
    destruct Hp as [(n & fd & G & _) _]. by exists n, fd.
Qed.

(** The handshake ends: every step moves one of the processes on, so there
    are at most 18; while a process is still in it one of the two can move,
    even if no operation fails, so they never wait for each other; and when
    nothing fails it ends with the command started and the parent ready. *)
Lemma handshake_completes s :
  reachable s ->
  (forall s', step s s' -> (rank s < rank s')%nat /\ (rank s' <= 18)%nat) /\
  (final s = false -> exists s', good_step s s') /\
  (rtc good_step initial s -> final s = true -> child s = CRunCommand /\ parent s = PReady).
Proof.
  intros I%handshake_inv_reachable. split_and!.
  - apply step_rank.
  - by apply handshake_progress.
  - intros G F. destruct (good_steps_alive _ _ G handshake_inv_initial eq_refl eq_refl) as [Ac Ap].
    unfold child_alive, parent_alive, final in *. by destruct (child s), (parent s).
Qed.

(** C19. The configuration is well typed: when the command line is accepted,
    every target has a route (no lookup can panic), published ports are non-zero
    16-bit ports with distinct host endpoints, every bind mount joins existing
    files at absolute paths, no two onto the same file nor onto the internal DNS
    files, and nothing the user asked for is dropped: the default route, the
    rules, the command, one publication and one mount per argument. *)
Theorem config_well_typed `{RegexEngine} `{!RegexLaws} lstat cwd cli socketpair fork c :
  is_absolute cwd = true -> main_start lstat (Some cwd) socketpair fork cli = Ok c ->
  wf_config lstat c /\ parse (cli_proxy cli) = Ok (default_proxy c) /\
  from_specs (cli_rules cli) = Ok (rules c) /\ command c = cli_command cli /\
  length (publishes c) = length (cli_publishes cli) /\ length (bind_mounts c) = length (cli_binds cli).
Proof.
  intros Hcwd. unfold main_start. destruct (build_config lstat (Some cwd) cli) as [c'|] eqn:E; cbn [mbind result_bind]; [|done].
  destruct socketpair; [done|]. destruct fork; [done|]. intros [= <-]. by apply build_config_wf in E.
Qed.

(** ** Witnesses *)

(** A scheduler: the parent first, the child when the parent waits. *)
Fixpoint run_good (fuel : nat) (s : system) : system :=
  match fuel with
  | O => s
  | S fuel =>
      match parent_step true s with
      | Some s' => run_good fuel s'
      | None => match child_step true true 7 s with Some s' => run_good fuel s' | None => s end
      end
  end.

Lemma run_good_steps fuel s : rtc good_step s (run_good fuel s).
Proof.
  revert s. induction fuel as [|fuel IH]; intros s; simpl; [done|].
  destruct (parent_step true s) eqn:Ep; [by eapply rtc_l; [apply good_parent|]|].
  destruct (child_step true true 7 s) eqn:Ec; [by eapply rtc_l; [eapply good_child|] | done].
Qed.

Lemma good_reachable s : rtc good_step initial s -> reachable s.
Proof. apply (rtc_congruence id). intros s1 s2 G; destruct G; by econstructor. Qed.

Example run_good_result :
  run_good 20 initial = mkSystem CRunCommand PReady [MByte 1; MFd 7] 2 [MByte 1; MByte 1] 2 true true true.
Proof. reflexivity. Qed.

Lemma handshake_safe_witness :
  reachable (run_good 20 initial) /\ child (run_good 20 initial) = CRunCommand /\
  parent (run_good 20 initial) = PReady /\ ports_bound (run_good 20 initial) = true /\
  ports_registered (run_good 20 initial) = true.
Proof.
  assert (R : reachable (run_good 20 initial)) by exact (good_reachable _ (run_good_steps 20 initial)).
  split; [exact R | split; [reflexivity|]]. by apply (handshake_safe (run_good 20 initial) R).
Defined.

Definition demo_cli : Cli :=
  mkCli (str "socks5://p:1") demo_specs [str "./a:b"] [str "8080:80"; str "127.0.0.1:8443:443/tcp"] 0 [str "curl"].

Lemma config_well_typed_witness : exists c, @wf_config literal_engine demo_lstat c /\
  @command literal_engine c = [str "curl"] /\ length (@publishes literal_engine c) = 2%nat.
Proof.
  assert (is_ok (@main_start literal_engine demo_lstat (Some (str "/home")) None None demo_cli) = true) as Hok
    by (vm_compute; reflexivity).
  destruct (@main_start literal_engine demo_lstat (Some (str "/home")) None None demo_cli) as [c|] eqn:E;
    [|discriminate Hok].
  destruct (@config_well_typed literal_engine literal_engine_laws demo_lstat (str "/home") demo_cli None None c eq_refl E)
    as (Hwf & _ & _ & Hc & Hl & _).
  exists c. split; [exact Hwf|]. split; [exact Hc|exact Hl].
Defined.
