(* ===== verification/Startup.v ===== *)
(** * Startup as two interleaved programs (src/src/main.rs, src/src/fd_passing.rs)

    [child_main] and [parent_main] up to the point where the command and the
    event loop run, statement by statement: local computations over the system
    calls of [Os], and operations on the socket that joins the two processes.
    A world is the two processes and the two directions of the socket; any
    operation may fail, reads are interrupted and made again, and a read sees
    the end of the stream once no process holds the other end. *)

From S2P Require Import Prelude RustStr RustNet ProxyConfig Rule Publish BindMount Config.
From S2P Require Import Os Namespace Mounts Process Main.

(** ** Programs *)

(** What [read_control_byte] waits for. *)
Inductive label : Type := UnshareSignal | MapsDone | ReadySignal.

(** One constructor per [bail!] and per [context]. *)
Inductive startup_error : Type :=
| ChannelClosed (l : label)
| ReadFailed (l : label) (errno : Z)
| LongRead
| CreateNamespace (e : namespace_error)
| SignalAfterUnshare (errno : Z)
| BadMapsDone (byte : Z)
| BringupLoopback (e : namespace_error)
| CreateTun (e : namespace_error)
| SetupMountNamespace (e : namespace_error)
| SendFd (errno : Z)
| BadReady (byte : Z)
| BadUnshareSignal (byte : Z)
| WriteIdMaps (e : namespace_error)
| SignalMapsDone (errno : Z)
| RecvMsg (errno : Z)
| NoFd
| BindPublish (e : listen_error Z)
| BuildRuntime (errno : Z)
| RegisterPublish (e : listen_error Z)
| ListenFor (signal : Z) (errno : Z)
| WriteReady (errno : Z).

(** A control message: descriptors, by their numbers here, or something else. *)
Inductive cmsg : Type := ScmRights (fds : list Z) | OtherCmsg.

(** A program: a result, a local computation, or an operation on a socket and
    what follows each answer.  [ReadLoop] is a loop around [read] with a buffer
    of one byte: its body says how to go on, [None] being [continue]. *)
Inductive prog (A : Type) : Type :=
| Ret (a : A)
| Fail (e : startup_error)
| Run (m : history -> result startup_error (prog A) * history)
| Write (sock byte : Z) (k : result Z unit -> prog A)
| Sendmsg (sock fd : Z) (k : result Z unit -> prog A)
| ReadLoop (sock : Z) (body : result Z (list Z) -> option (prog A))
| Recvmsg (sock : Z) (k : result Z (list cmsg) -> prog A).
Arguments Ret {A}.
Arguments Fail {A}.
Arguments Run {A}.
Arguments Write {A}.
Arguments Sendmsg {A}.
Arguments ReadLoop {A}.
Arguments Recvmsg {A}.

#[global] Instance prog_ret : MRet prog := fun A a => Ret a.
#[global] Instance prog_bind : MBind prog := fun A B f =>
  fix go p :=
    match p with
    | Ret a => f a
    | Fail e => Fail e
    | Run m => Run (fun h => let '(r, h) := m h in
                             (match r with Ok p => Ok (go p) | Err e => Err e end, h))
    | Write sock byte k => Write sock byte (fun r => go (k r))
    | Sendmsg sock fd k => Sendmsg sock fd (fun r => go (k r))
    | ReadLoop sock body => ReadLoop sock (fun r => match body r with Some p => Some (go p) | None => None end)
    | Recvmsg sock k => Recvmsg sock (fun r => go (k r))
    end.

(** A local computation with its [context]. *)
Definition local {E A} (context : E -> startup_error) (m : sys E A) : prog A :=
  Run (fun h => let '(r, h) := m h in (match r with Ok a => Ok (Ret a) | Err e => Err (context e) end, h)).

(** An operation outside the system calls of [Os], given its result. *)
Definition given {E A} (context : E -> startup_error) (r : result E A) : prog A := local context (fun h => (r, h)).

Definition ensure (b : bool) (e : startup_error) : prog unit := if b then mret () else Fail e.

(** [let _ = close(fd)] *)
Definition close `{Kernel} (fd : Z) : prog unit := local (fun e : startup_error => e) (call_ (SysClose fd)).

(** [write(sock, &[byte])] *)
Definition write_byte (sock byte : Z) (context : Z -> startup_error) : prog unit :=
  Write sock byte (fun r => match r with Ok _ => mret () | Err e => Fail (context e) end).

Definition read_control_byte (sock : Z) (l : label) : prog Z :=
  ReadLoop sock (fun r =>
    match r with
    | Ok [byte] => Some (mret byte)
    | Ok [] => Some (Fail (ChannelClosed l))
    | Ok _ => Some (Fail LongRead)
    | Err errno => if errno =? EINTR then None else Some (Fail (ReadFailed l errno))
    end).

(** [fd_passing::send_fd] *)
Definition send_fd (sock fd : Z) : prog unit :=
  Sendmsg sock fd (fun r => match r with Ok _ => mret () | Err e => Fail (SendFd e) end).

(** The first descriptor of the control messages. *)
Fixpoint first_fd (cmsgs : list cmsg) : option Z :=
  match cmsgs with
  | [] => None
  | ScmRights (fd :: _) :: _ => Some fd
  | _ :: cmsgs => first_fd cmsgs
  end.

(** [fd_passing::recv_fd].  There is room for the one descriptor that is sent,
    so the control data is never cut off. *)
Definition recv_fd (sock : Z) : prog Z :=
  Recvmsg sock (fun r =>
    match r with
    | Err e => Fail (RecvMsg e)
    | Ok cmsgs => match first_fd cmsgs with Some fd => mret fd | None => Fail NoFd end
    end).

(** ** The child *)

Section Child.
Context `{Kernel} `{RegexEngine}.

(** [child_main], up to [run_command_tree]. *)
Definition child_main (sock : Z) (config : Config) : prog unit :=
  needs_maps ← local CreateNamespace create_namespace;
  _ ← write_byte sock (if needs_maps : bool then 1 else 0) SignalAfterUnshare;
  _ ← (if needs_maps : bool then
         ack ← read_control_byte sock MapsDone;
         ensure (ack =? 1) (BadMapsDone ack)
       else mret ());
  _ ← local BringupLoopback bringup_loopback;
  tun_fd ← local CreateTun create_tun;
  _ ← local SetupMountNamespace (setup_mount_namespace (bind_mounts config));
  _ ← send_fd sock tun_fd;
  ready ← read_control_byte sock ReadySignal;
  _ ← ensure (ready =? 1) (BadReady ready);
  _ ← close sock;
  _ ← close tun_fd;
  mret ().

(** The child's branch of [main]. *)
Definition child_branch (parent_sock child_sock : Z) (config : Config) : prog unit :=
  _ ← close parent_sock;
  child_main child_sock config.
End Child.

(** ** The parent *)

(** What the event loop is started with. *)
Record ready (L : Type) : Type := mkReady { tun_fd : Z; published : list (BoundPublish L) }.
Arguments mkReady {L}.
Arguments tun_fd {L}.
Arguments published {L}.

(** What the parent asks the system and the runtime for, besides system calls:
    the user and group, the listeners, the runtime, the signal streams. *)
Record host (S L : Type) : Type := mkHost {
  uid : Z;
  gid : Z;
  tcp_bind : ipv4 * Z -> result Z S;
  set_nonblocking : S -> result Z S;
  from_std : S -> result Z L;
  runtime : result Z unit;
  listen_for : Z -> result Z unit;
}.
Arguments mkHost {S L}.
Arguments uid {S L}.
Arguments gid {S L}.
Arguments tcp_bind {S L}.
Arguments set_nonblocking {S L}.
Arguments from_std {S L}.
Arguments runtime {S L}.
Arguments listen_for {S L}.

Section Parent.
Context `{Kernel} `{RegexEngine} {S L : Type} (host0 : host S L).

(** [parent_main], up to [block_on]. *)
Definition parent_main (sock child : Z) (config : Config) : prog (ready L) :=
  unshare_signal ← read_control_byte sock UnshareSignal;
  needs_maps ← (if unshare_signal =? 0 then mret false
                else if unshare_signal =? 1 then mret true
                else Fail (BadUnshareSignal unshare_signal));
  _ ← (if needs_maps : bool then
         _ ← local WriteIdMaps (write_id_maps child (uid host0) (gid host0));
         write_byte sock 1 SignalMapsDone
       else mret ());
  tun_fd ← recv_fd sock;
  bound_publishes ← given BindPublish (bind_publish_specs (tcp_bind host0) (set_nonblocking host0) (publishes config));
  _ ← given BuildRuntime (runtime host0);
  registered_publishes ← given RegisterPublish (register_publish_specs (from_std host0) bound_publishes);
  _ ← given (ListenFor SIGTERM) (listen_for host0 SIGTERM);
  _ ← given (ListenFor SIGINT) (listen_for host0 SIGINT);
  _ ← given (ListenFor SIGHUP) (listen_for host0 SIGHUP);
  _ ← write_byte sock 1 WriteReady;
  mret (mkReady tun_fd registered_publishes).

(** The parent's branch of [main]. *)
Definition parent_branch (parent_sock child_sock child : Z) (config : Config) : prog (ready L) :=
  _ ← close child_sock;
  parent_main parent_sock child config.
End Parent.

(** ** Processes and the world *)

Definition proc (A : Type) : Type := prog A * history.

(** What happens to a process: its local computation runs; its operation on the
    socket fails, sends, receives a message (the descriptor it may carry gets
    the number [fd]), or finds the end of the stream. *)
Inductive event : Type :=
| EvRun
| EvError (errno : Z)
| EvSend
| EvReceive (m : message) (fd : Z)
| EvEof.

(** What [recvmsg] finds in the ancillary data. *)
Definition cmsgs_of (m : message) (fd : Z) : list cmsg := match m with MFd _ => [ScmRights [fd]] | MByte _ => [] end.

(** One step of a process whose end of the socket is [own], and the messages it
    sends.  [recvmsg] opens the descriptor that it receives. *)
Definition pstep {A} (own : Z) (ev : event) (p : proc A) : option (proc A * list message) :=
  match p.1, ev with
  | Run m, EvRun => let '(r, h) := m p.2 in
                    Some ((match r with Ok q => q | Err e => Fail e end, h), [])
  | Write sock byte k, EvSend => if sock =? own then Some ((k (Ok ()), p.2), [MByte byte]) else None
  | Write _ _ k, EvError e => Some ((k (Err e), p.2), [])
  | Sendmsg sock fd k, EvSend => if sock =? own then Some ((k (Ok ()), p.2), [MFd fd]) else None
  | Sendmsg _ _ k, EvError e => Some ((k (Err e), p.2), [])
  | ReadLoop sock body, EvReceive m _ =>
      if sock =? own then Some ((default p.1 (body (Ok [byte_of m])), p.2), []) else None
  | ReadLoop sock body, EvEof => if sock =? own then Some ((default p.1 (body (Ok [])), p.2), []) else None
  | ReadLoop _ body, EvError e => Some ((default p.1 (body (Err e)), p.2), [])
  | Recvmsg sock k, EvReceive m fd =>
      if sock =? own
      then Some ((k (Ok (cmsgs_of m fd)),
                  match m with MFd _ => p.2 ++ [(SysRecvmsg sock, Ok (fd, []))] | MByte _ => p.2 end), [])
      else None
  | Recvmsg sock k, EvEof => if sock =? own then Some ((k (Ok []), p.2), []) else None
  | Recvmsg _ k, EvError e => Some ((k (Err e), p.2), [])
  | _, _ => None
  end.

(** How the building blocks of the programs step. *)
Section Blocks.
Context {A B : Type}.

Lemma pstep_bind own ev (p : prog A) (f : A -> prog B) h p' out :
  (forall a, p <> Ret a) -> pstep own ev (x ← p; f x, h) = Some (p', out) ->
  exists q, pstep own ev (p, h) = Some (q, out) /\ p' = (x ← q.1; f x, q.2).
Proof.
  intros Hp. destruct p as [a|e|m|sock byte k|sock fd k|sock body|sock k]; [by destruct (Hp a)|done|..];
    destruct ev as [|n| |msg fd'|]; try discriminate; cbn.
  all: try (destruct (m h) as [[q|e] h']); try (destruct (sock =? own); [|discriminate]);
    try destruct (body _) as [q|]; intros E; simplify_eq/=; eexists; split; done.
Qed.

Lemma pstep_local own ev {E} (context : E -> startup_error) (m : sys E A) (f : A -> prog B) h p' out :
  pstep own ev (x ← local context m; f x, h) = Some (p', out) ->
  ev = EvRun /\ out = [] /\ exists r h', m h = (r, h') /\
    p' = (match r with Ok a => f a | Err e => Fail (context e) end, h').
Proof.
  destruct ev; try discriminate. intros E'. split_and!; [done|..].
  all: cbn in E'; destruct (m h) as [[a|e] h'] eqn:Em; simplify_eq/=; eauto.
Qed.

Lemma pstep_write own ev byte context (f : prog B) h p' out :
  pstep own ev (_ ← write_byte own byte context; f, h) = Some (p', out) ->
  (ev = EvSend /\ p' = (f, h) /\ out = [MByte byte]) \/
  exists e, ev = EvError e /\ p' = (Fail (context e), h) /\ out = [].
Proof. destruct ev; try discriminate; cbn; [|rewrite Z.eqb_refl]; intros E; simplify_eq/=; eauto 6. Qed.

Lemma pstep_send_fd own ev fd (f : prog B) h p' out :
  pstep own ev (_ ← send_fd own fd; f, h) = Some (p', out) ->
  (ev = EvSend /\ p' = (f, h) /\ out = [MFd fd]) \/
  exists e, ev = EvError e /\ p' = (Fail (SendFd e), h) /\ out = [].
Proof. destruct ev; try discriminate; cbn; [|rewrite Z.eqb_refl]; intros E; simplify_eq/=; eauto 6. Qed.

Lemma pstep_read own ev l (f : Z -> prog B) h p' out :
  pstep own ev (x ← read_control_byte own l; f x, h) = Some (p', out) ->
  out = [] /\
  ((ev = EvError EINTR /\ p' = (x ← read_control_byte own l; f x, h)) \/
   (exists m fd, ev = EvReceive m fd /\ p' = (f (byte_of m), h)) \/
   exists e, (ev = EvEof \/ exists n, ev = EvError n) /\ p' = (Fail e, h)).
Proof.
  destruct ev as [|n| |m fd|]; try discriminate; cbn; try rewrite Z.eqb_refl.
  - destruct (n =? EINTR) eqn:En; intros E; simplify_eq/=; split; [done| |done|].
    + left. by apply Z.eqb_eq in En as ->.
    + right. right. eauto.
  - intros E. simplify_eq/=. split; [done|]. right. left. eauto.
  - intros E. simplify_eq/=. split; [done|]. right. right. eauto.
Qed.

Lemma pstep_recv_fd own ev (f : Z -> prog B) h p' out :
  pstep own ev (x ← recv_fd own; f x, h) = Some (p', out) ->
  out = [] /\
  ((exists n fd, ev = EvReceive (MFd n) fd /\ p' = (f fd, h ++ [(SysRecvmsg own, Ok (fd, []))])) \/
   (exists b fd, ev = EvReceive (MByte b) fd /\ p' = (Fail NoFd, h)) \/
   exists e, (ev = EvEof \/ exists n, ev = EvError n) /\ p' = (Fail e, h)).
Proof.
  destruct ev as [|n| |m fd|]; try discriminate; cbn; try rewrite Z.eqb_refl; [| |].
  - intros E. simplify_eq/=. split; [done|]. right. right. eauto.
  - destruct m; intros E; simplify_eq/=; split; [done|right; left; eauto|done|left; eauto].
  - intros E. simplify_eq/=. split; [done|]. right. right. eauto.
Qed.
End Blocks.

(** The descriptors a process holds: none once it has exited with an error. *)
Definition fds_of {A} (p : proc A) : gset Z := match p.1 with Fail _ => ∅ | _ => open_fds p.2 end.

#[global] Instance message_eq_dec : EqDecision message.
Proof. solve_decision. Defined.

(** Whether an event can happen on a direction of the socket, and how much of it
    is read then.  A new descriptor gets a number that is not in use. *)
Definition deliver (ev : event) (sent : list message) (seen : nat) (hung_up : bool) (fds : gset Z) : option nat :=
  match ev with
  | EvReceive m fd =>
      if bool_decide (sent !! seen = Some m /\ fd ∉ fds) then Some (S seen) else None
  | EvEof => if bool_decide (sent !! seen = None) && hung_up then Some seen else None
  | _ => Some seen
  end.

Section World.
Context {L : Type}.

Record world : Type := mkWorld {
  w_child : proc unit;
  w_parent : proc (ready L);
  w_to_parent : list message;
  w_parent_seen : nat;
  w_to_child : list message;
  w_child_seen : nat;
}.

(** The history at the fork, and the two ends of the socket. *)
Variable h0 : history.
Variables parent_sock child_sock : Z.

(** A process holds what was open as [fd] at the fork, until it closes it or
    exits; a later descriptor with the same number is another one. *)
Definition holds_end {A} (fd : Z) (p : proc A) : bool :=
  match p.1 with Fail _ => false | _ => bool_decide (fd_table p.2 !! fd = fd_table h0 !! fd) end.

(** No process holds the end [fd] any more. *)
Definition hung_up (fd : Z) (w : world) : bool := negb (holds_end fd (w_child w) || holds_end fd (w_parent w)).

Definition child_moves (ev : event) (w : world) : option world :=
  seen ← deliver ev (w_to_child w) (w_child_seen w) (hung_up parent_sock w) (fds_of (w_child w));
  '(p, out) ← pstep child_sock ev (w_child w);
  Some (mkWorld p (w_parent w) (w_to_parent w ++ out) (w_parent_seen w) (w_to_child w) seen).

Definition parent_moves (ev : event) (w : world) : option world :=
  seen ← deliver ev (w_to_parent w) (w_parent_seen w) (hung_up child_sock w) (fds_of (w_parent w));
  '(p, out) ← pstep parent_sock ev (w_parent w);
  Some (mkWorld (w_child w) p (w_to_parent w) seen (w_to_child w ++ out) (w_child_seen w)).

Inductive wstep : world -> world -> Prop :=
| wstep_child ev w w' : child_moves ev w = Some w' -> wstep w w'
| wstep_parent ev w w' : parent_moves ev w = Some w' -> wstep w w'.

(** Both processes have left the handshake. *)
Definition left {A} (p : proc A) : bool := match p.1 with Ret _ | Fail _ => true | _ => false end.
End World.
Arguments world : clear implicits.
