(* ===== verification/StartupProof.v ===== *)
(** * The startup programs refine the handshake (src/src/main.rs)

    A simulation between the two programs of [Startup] and the handshake of
    [Main]: the stages of each program, one step of a program against one step
    of the handshake, and what follows for the world: refinement, progress, and
    the state in which the command starts. *)

From S2P Require Import Prelude RustStr RustNet ProxyConfig Rule Publish BindMount Config.
From S2P Require Import Os Namespace Mounts Process Main Startup.

(** ** The stages of the two programs *)

Section Stages.
Context `{RegexEngine} {S L : Type} (host0 : host S L).
(** The kernel as each process sees it, the two ends of the socket, the child's
    process id, the configuration, and the history at the fork. *)
Context (Kc Kp : Kernel) (parent_sock child_sock child_pid : Z) (config : Config) (h0 : history).

Notation close_c := (@close Kc).
Notation close_p := (@close Kp).

(** What is left of [child_main] at each point of the handshake. *)
Definition c_close (tun : Z) : prog unit := _ ← close_c tun; mret ().
Definition c_run (tun : Z) : prog unit := _ ← close_c child_sock; c_close tun.
Definition c_ready (tun : Z) : prog unit :=
  ready ← read_control_byte child_sock ReadySignal; _ ← ensure (ready =? 1) (BadReady ready); c_run tun.
Definition c_send (tun : Z) : prog unit := _ ← send_fd child_sock tun; c_ready tun.
Definition c_mount (tun : Z) : prog unit :=
  _ ← local SetupMountNamespace (@setup_mount_namespace Kc (bind_mounts config)); c_send tun.
Definition c_tun : prog unit := tun ← local CreateTun (@create_tun Kc); c_mount tun.
Definition c_loop : prog unit := _ ← local BringupLoopback (@bringup_loopback Kc); c_tun.
Definition c_await (needs : bool) : prog unit :=
  _ ← (if needs then ack ← read_control_byte child_sock MapsDone; ensure (ack =? 1) (BadMapsDone ack) else mret ());
  c_loop.
Definition c_signal (needs : bool) : prog unit :=
  _ ← write_byte child_sock (if needs then 1 else 0) SignalAfterUnshare; c_await needs.
Definition c_create : prog unit := needs ← local CreateNamespace (@create_namespace Kc); c_signal needs.

(** The same for [parent_main]. *)
Definition p_ready (r : ready L) : prog (ready L) := _ ← write_byte parent_sock 1 WriteReady; mret r.
Definition p_listen (signals : list Z) (r : ready L) : prog (ready L) :=
  foldr (fun signal k => _ ← given (ListenFor signal) (listen_for host0 signal); k) (p_ready r) signals.
Definition p_register (tun : Z) (bound : list (BoundPublish S)) : prog (ready L) :=
  registered ← given RegisterPublish (register_publish_specs (from_std host0) bound);
  p_listen [SIGTERM; SIGINT; SIGHUP] (mkReady tun registered).
Definition p_runtime (tun : Z) (bound : list (BoundPublish S)) : prog (ready L) :=
  _ ← given BuildRuntime (runtime host0); p_register tun bound.
Definition p_bind (tun : Z) : prog (ready L) :=
  bound ← given BindPublish (bind_publish_specs (tcp_bind host0) (set_nonblocking host0) (publishes config));
  p_runtime tun bound.
Definition p_recv : prog (ready L) := tun ← recv_fd parent_sock; p_bind tun.
Definition p_ack : prog (ready L) := _ ← write_byte parent_sock 1 SignalMapsDone; p_recv.
Definition p_maps (needs : bool) : prog (ready L) :=
  _ ← (if needs then
         _ ← local WriteIdMaps (@write_id_maps Kp child_pid (uid host0) (gid host0));
         write_byte parent_sock 1 SignalMapsDone
       else mret ());
  p_recv.
Definition p_unshare : prog (ready L) :=
  signal ← read_control_byte parent_sock UnshareSignal;
  needs ← (if signal =? 0 then mret false else if signal =? 1 then mret true else Fail (BadUnshareSignal signal));
  p_maps needs.

(** What the child has done to reach a stage. *)
Definition closed (K : Kernel) (fd : Z) (h : history) : history := h ++ [(SysClose fd, @os K h (SysClose fd))].

Definition entered (h : history) : Prop := exists needs, @create_namespace Kc (closed Kc parent_sock h0) = (Ok needs, h).
Definition looped (h : history) : Prop := exists h1, entered h1 /\ @bringup_loopback Kc h1 = (Ok (), h).
Definition has_tun (tun : Z) (h : history) : Prop := exists h1, looped h1 /\ @create_tun Kc h1 = (Ok tun, h).
Definition prepared (tun : Z) (h : history) : Prop :=
  exists h1, has_tun tun h1 /\ @setup_mount_namespace Kc (bind_mounts config) h1 = (Ok (), h).

(** A child process, its place in the handshake, and how far it has come. *)
Inductive child_at (sent : list message) : nat -> proc unit -> child_pc -> Prop :=
| at_start : child_at sent 0 (@child_branch Kc _ parent_sock child_sock config, h0) CCreateNamespace
| at_create : child_at sent 1 (c_create, closed Kc parent_sock h0) CCreateNamespace
| at_signal needs h : @create_namespace Kc (closed Kc parent_sock h0) = (Ok needs, h) ->
    child_at sent 2 (c_signal needs, h) (CSignal needs)
| at_maps h : entered h -> child_at sent 3 (c_await true, h) CAwaitMaps
| at_loop h : entered h -> child_at sent 4 (c_loop, h) CLoopback
| at_tun h : looped h -> child_at sent 5 (c_tun, h) CCreateTun
| at_mount tun h : has_tun tun h -> child_at sent 6 (c_mount tun, h) (CMount tun)
| at_send tun h : prepared tun h -> child_at sent 7 (c_send tun, h) (CSendFd tun)
| at_ready tun h : prepared tun h -> MFd tun ∈ sent -> child_at sent 8 (c_ready tun, h) CAwaitReady
| at_run tun h : prepared tun h -> MFd tun ∈ sent -> child_at sent 9 (c_run tun, h) CRunCommand
| at_close tun h : prepared tun h -> MFd tun ∈ sent ->
    child_at sent 10 (c_close tun, closed Kc child_sock h) CRunCommand
| at_done tun h : prepared tun h -> MFd tun ∈ sent ->
    child_at sent 11 (Ret (), closed Kc tun (closed Kc child_sock h)) CRunCommand
| at_failed e h : child_at sent 12 (Fail e, h) CFailed.

(** The parent holds what it held at the fork less the child's end; once it has
    received the TUN device it holds that too, under a number of its own. *)
Definition parent_fds : gmap Z nat := delete child_sock (fd_table h0).

Definition holds_tun (tun : Z) (h : history) : Prop :=
  parent_fds !! tun = None /\ exists i, fd_table h = <[tun := i]> parent_fds.

(** The listeners of the parent. *)
Definition bound_for (bound : list (BoundPublish S)) : Prop :=
  bind_publish_specs (tcp_bind host0) (set_nonblocking host0) (publishes config) = Ok bound.
Definition ready_for (r : ready L) : Prop :=
  exists bound, bound_for bound /\ register_publish_specs (from_std host0) bound = Ok (published r).

Inductive parent_at : nat -> proc (ready L) -> parent_pc -> Prop :=
| pt_start : parent_at 0 (@parent_branch Kp _ S L host0 parent_sock child_sock child_pid config, h0) PAwaitUnshare
| pt_unshare h : fd_table h = parent_fds -> parent_at 1 (p_unshare, h) PAwaitUnshare
| pt_maps h : fd_table h = parent_fds -> parent_at 2 (p_maps true, h) PWriteMaps
| pt_ack h : fd_table h = parent_fds -> parent_at 3 (p_ack, h) PAckMaps
| pt_recv h : fd_table h = parent_fds -> parent_at 4 (p_recv, h) PRecvFd
| pt_bind tun h : holds_tun tun h -> parent_at 5 (p_bind tun, h) PBind
| pt_runtime tun bound h : holds_tun tun h -> bound_for bound -> parent_at 6 (p_runtime tun bound, h) PRuntime
| pt_register tun bound h : holds_tun tun h -> bound_for bound -> parent_at 7 (p_register tun bound, h) PRegister
| pt_term r h : holds_tun (tun_fd r) h -> ready_for r -> parent_at 8 (p_listen [SIGTERM; SIGINT; SIGHUP] r, h) PRegister
| pt_int r h : holds_tun (tun_fd r) h -> ready_for r -> parent_at 9 (p_listen [SIGINT; SIGHUP] r, h) PRegister
| pt_hup r h : holds_tun (tun_fd r) h -> ready_for r -> parent_at 10 (p_listen [SIGHUP] r, h) PRegister
| pt_ready r h : holds_tun (tun_fd r) h -> ready_for r -> parent_at 11 (p_ready r, h) PSendReady
| pt_done r h : holds_tun (tun_fd r) h -> ready_for r -> parent_at 12 (Ret r, h) PReady
| pt_failed e h : parent_at 13 (Fail e, h) PFailed.

(** A world implements a state of the handshake. *)
Record implements (k : nat) (w : world L) (s : system) : Prop := {
  im_to_parent : to_parent s = w_to_parent w;
  im_parent_seen : parent_seen s = w_parent_seen w;
  im_to_child : to_child s = w_to_child w;
  im_child_seen : child_seen s = w_child_seen w;
  im_at : exists i j, k = (i + j)%nat /\ child_at (w_to_parent w) i (w_child w) (child s) /\
                      parent_at j (w_parent w) (parent s);
}.

(** After [fork]: both processes hold both ends. *)
Definition w_initial : world L :=
  mkWorld (@child_branch Kc _ parent_sock child_sock config, h0)
          (@parent_branch Kp _ S L host0 parent_sock child_sock child_pid config, h0) [] 0 [] 0.

Lemma implements_initial : implements 0 w_initial initial.
Proof. split; try done. exists 0%nat, 0%nat. split; [done|]. split; constructor. Qed.

(** *** Simulation, the child *)

(** A silent step of the child. *)
Definition child_goes (sent : list message) (i : nat) (p : proc unit) (s : system) : Prop :=
  exists i' pc, (i < i')%nat /\ child_at sent i' p pc /\
    (pc = child s \/ exists ok needs fd, child_step ok needs fd s = Some (set_child s pc)).

Lemma child_goes_on sent i i' p s pc ok needs fd :
  child_at sent i' p pc -> (i < i')%nat -> child_step ok needs fd s = Some (set_child s pc) -> child_goes sent i p s.
Proof. intros Hat Hi E. exists i', pc. eauto 10. Qed.

Lemma child_goes_failed sent i e h s :
  (i < 12)%nat -> child_step false true 0 s = Some (set_child s CFailed) -> child_goes sent i (Fail e, h) s.
Proof. intros Hi E. eapply child_goes_on; [apply at_failed|done|done]. Qed.

Ltac local_step E :=
  let r := fresh "r" in let h := fresh "h" in let Em := fresh "Em" in
  apply pstep_local in E as (-> & -> & r & h & Em & ->); split; [done|]; right; rename Em into E.
Ltac failed := apply child_goes_failed; [lia | match goal with G : forall ok needs fd, _ |- _ => by rewrite G end].
Ltac await_step E :=
  let m := fresh "m" in let fd := fresh "fd" in let e := fresh "e" in
  apply pstep_read in E as (-> & [(-> & ->)|[(m & fd & -> & ->)|(e & Hev & ->)]]);
    [by split; [|left] | split; [done|] |
     destruct Hev as [->|[n ->]]; (split; [done|]); [exists 12%nat; eexists | right; failed]].

(** One step of the child's program, against one step of the handshake. *)
Lemma child_pstep sent i p ev p' out s :
  child_at sent i p (child s) -> pstep child_sock ev p = Some (p', out) ->
  match ev with
  | EvRun | EvError _ => out = [] /\ (p' = p \/ child_goes sent i p' s)
  | EvSend =>
      exists m i' pc', out = [m] /\ (i < i')%nat /\ child_at (sent ++ [m]) i' p' pc' /\
        child_step true true 0 s = Some (child_write s m pc')
  | EvReceive m _ =>
      out = [] /\ exists i' next, (i < i')%nat /\
        child_at sent i' p' (if byte_of m =? 1 then next else CFailed) /\
        child_step true true 0 s = await_one true s next
  | EvEof =>
      out = [] /\ exists i' next, (i < i')%nat /\ child_at sent i' p' CFailed /\
        child_step true true 0 s = await_one true s next
  end.
Proof.
  intros Hat E. remember (child s) as pc eqn:Hs. symmetry in Hs.
  assert (forall ok needs fd, child_step ok needs fd s = child_step ok needs fd (set_child s pc)) as Hstep
    by (intros; rewrite <- Hs; by destruct s).
  destruct Hat; try discriminate E.
  - local_step E. injection E as <- <-. exists 1%nat, CCreateNamespace. split; [lia|]. split; [apply at_create|by left].
  - local_step E. destruct r as [needs|e]; [|failed].
    by eapply (child_goes_on _ _ _ _ _ _ true needs 0); [apply at_signal, E|lia|rewrite Hstep].
  - apply pstep_write in E as [(-> & -> & ->)|(e & -> & -> & ->)]; [|split; [done|right; failed]].
    eexists _, (if needs then 3 else 4)%nat, (if needs then CAwaitMaps else CLoopback).
    split_and!; [done|destruct needs; lia| |by rewrite Hstep].
    destruct needs; constructor; by eexists.
  - apply pstep_bind in E as (q & E & ->); [|done]. await_step E; [|split_and!; [lia|apply at_failed|by rewrite Hstep]].
    exists (if (byte_of m =? 1)%Z then 4 else 12)%nat, CLoopback.
    split_and!; [destruct (byte_of m =? 1); lia| |by rewrite Hstep].
    unfold ensure. destruct (byte_of m =? 1); by constructor.
  - local_step E. destruct r as [[]|e]; [|failed].
    eapply (child_goes_on _ _ _ _ _ _ true true 0); [apply at_tun; by eexists|lia|by rewrite Hstep].
  - local_step E. destruct r as [tun|e]; [|failed].
    eapply (child_goes_on _ _ _ _ _ _ true true tun); [apply at_mount; by eexists|lia|by rewrite Hstep].
  - local_step E. destruct r as [[]|e]; [|failed].
    eapply (child_goes_on _ _ _ _ _ _ true true 0); [apply at_send; by eexists|lia|by rewrite Hstep].
  - apply pstep_send_fd in E as [(-> & -> & ->)|(e & -> & -> & ->)]; [|split; [done|right; failed]].
    eexists _, 8%nat, CAwaitReady. split_and!; [done|lia| |by rewrite Hstep]. apply at_ready; [done|set_solver].
  - await_step E; [|split_and!; [lia|apply at_failed|by rewrite Hstep]].
    exists (if (byte_of m =? 1)%Z then 9 else 12)%nat, CRunCommand.
    split_and!; [destruct (byte_of m =? 1); lia| |by rewrite Hstep].
    unfold ensure. destruct (byte_of m =? 1); by constructor.
  - local_step E. injection E as <- <-. exists 10%nat, CRunCommand. split; [lia|]. split; [by apply at_close|by left].
  - local_step E. injection E as <- <-. exists 11%nat, CRunCommand. split; [lia|]. split; [by apply at_done|by left].
Qed.

(** *** Simulation, the parent *)

(** A step of the handshake that sends and receives nothing. *)
Definition silently (s s' : system) (pc : parent_pc) : Prop :=
  s' = set_parent s pc \/ exists a b c, s' = parent_did s pc a b c.

Definition parent_goes (j : nat) (p : proc (ready L)) (s : system) : Prop :=
  exists j' pc, (j < j')%nat /\ parent_at j' p pc /\
    (pc = parent s \/ exists ok s', parent_step ok s = Some s' /\ silently s s' pc).

Lemma parent_goes_stays j j' p s : parent_at j' p (parent s) -> (j < j')%nat -> parent_goes j p s.
Proof. intros Hat Hj. exists j', (parent s). auto. Qed.

Lemma parent_goes_on j j' p s s' pc :
  parent_at j' p pc -> (j < j')%nat -> parent_step true s = Some s' -> silently s s' pc -> parent_goes j p s.
Proof. intros Hat Hj E Hs. exists j', pc. eauto 10. Qed.

Lemma parent_goes_failed j e h s :
  (j < 13)%nat -> parent_step false s = Some (set_parent s PFailed) -> parent_goes j (Fail e, h) s.
Proof. intros Hj E. exists 13%nat, PFailed. split; [done|]. split; [constructor|]. right. eexists _, _. split; [done|by left]. Qed.

Lemma closed_holds : fd_table (closed Kp child_sock h0) = parent_fds.
Proof. unfold closed. by rewrite fd_table_snoc. Qed.

Lemma received_holds fd h :
  fd_table h = parent_fds -> fd ∉ open_fds h -> holds_tun fd (h ++ [(SysRecvmsg parent_sock, Ok (fd, []))]).
Proof.
  intros Hh Hfd%not_open. rewrite Hh in Hfd. split; [done|]. rewrite fd_table_snoc. simpl. rewrite Hh. by eexists.
Qed.

Ltac plocal E :=
  let r := fresh "r" in let h := fresh "h" in let Em := fresh "Em" in
  apply pstep_local in E as (-> & -> & r & h & Em & ->); split; [done|]; right; rename Em into E.
Ltac pfailed := apply parent_goes_failed; [lia | match goal with G : forall ok, _ |- _ => by rewrite G end].

Lemma parent_pstep `{!@KernelLaws Kp} j p ev p' out s :
  parent_at j p (parent s) -> pstep parent_sock ev p = Some (p', out) ->
  match ev with
  | EvRun | EvError _ => out = [] /\ (p' = p \/ parent_goes j p' s)
  | EvSend =>
      exists m j' pc', out = [m] /\ (j < j')%nat /\ parent_at j' p' pc' /\
        parent_step true s = Some (parent_write s m pc')
  | EvReceive m fd => fd ∉ fds_of p ->
      out = [] /\ exists j' next, (j < j')%nat /\ parent_at j' p' (next m) /\
        parent_step true s = parent_await true s next
  | EvEof =>
      out = [] /\ exists j' next, (j < j')%nat /\ parent_at j' p' PFailed /\
        parent_step true s = parent_await true s next
  end.
Proof.
  intros Hat E. remember (parent s) as pc eqn:Hs. symmetry in Hs.
  assert (forall ok, parent_step ok s = parent_step ok (set_parent s pc)) as Hstep
    by (intros; rewrite <- Hs; by destruct s).
  destruct Hat as [|h Hh|h Hh|h Hh|h Hh|tun h Hh|tun bound h Hh Hb|tun bound h Hh Hb|r0 h Hh Hb|r0 h Hh Hb|r0 h Hh Hb|
    r0 h Hh Hb| |]; try discriminate E.
  - plocal E. injection E as <- <-. eapply (parent_goes_stays _ 1); [|lia]. rewrite Hs. apply pt_unshare, closed_holds.
  - apply pstep_read in E as (-> & [(-> & ->)|[(m & fd & -> & ->)|(e & Hev & ->)]]).
    + split; [done|by left].
    + intros _. split; [done|].
      exists (if (byte_of m =? 0)%Z then 4 else if (byte_of m =? 1)%Z then 2 else 13)%nat; eexists.
      split_and!; [destruct (byte_of m =? 0), (byte_of m =? 1); lia| |by rewrite Hstep].
      cbv beta. destruct (byte_of m =? 0); [by apply pt_recv|].
      destruct (byte_of m =? 1); [by apply pt_maps|by apply pt_failed].
    + destruct Hev as [->|[n ->]]; (split; [done|]); [|right; pfailed].
      exists 13%nat; eexists. split_and!; [lia|apply pt_failed|by rewrite Hstep].
  - apply pstep_bind in E as (q & E & ->); [|done]. plocal E.
    apply tidy_then in E as [Ho _]; [|apply (@write_id_maps_tidy Kp _)]. rewrite Hh in Ho.
    destruct r as [[]|e]; [|pfailed].
    eapply (parent_goes_on _ 3); [by apply pt_ack|lia|by rewrite Hstep|right; by eexists _, _, _].
  - apply pstep_write in E as [(-> & -> & ->)|(e & -> & -> & ->)]; [|split; [done|right; pfailed]].
    eexists _, 4%nat, PRecvFd. split_and!; [done|lia|by apply pt_recv|by rewrite Hstep].
  - apply pstep_recv_fd in E as (-> & [(n & fd & -> & ->)|[(b & fd & -> & ->)|(e & Hev & ->)]]).
    + intros Hfd. split; [done|]. exists 5%nat; eexists. split_and!; [lia| |by rewrite Hstep].
      apply pt_bind, received_holds; done.
    + intros _. split; [done|]. exists 13%nat; eexists. split_and!; [lia| |by rewrite Hstep]. apply pt_failed.
    + destruct Hev as [->|[n ->]]; (split; [done|]); [|right; pfailed].
      exists 13%nat; eexists. split_and!; [lia|apply pt_failed|by rewrite Hstep].
  - plocal E. injection E as <- <-. destruct (bind_publish_specs _ _ _) as [bound|e] eqn:Eb; [|pfailed].
    eapply (parent_goes_on _ 6); [by apply pt_runtime|lia|by rewrite Hstep|right; by eexists _, _, _].
  - plocal E. injection E as <- <-. destruct (runtime host0) as [[]|e]; [|pfailed].
    eapply (parent_goes_on _ 7); [by apply pt_register|lia|by rewrite Hstep|by left].
  - plocal E. injection E as <- <-. destruct (register_publish_specs _ _) as [registered|e] eqn:Er; [|pfailed].
    eapply (parent_goes_stays _ 8); [|lia]. rewrite Hs. apply (pt_term (mkReady tun registered)); [done|by exists bound].
  - plocal E. injection E as <- <-. destruct (listen_for host0 _) as [[]|e]; [|pfailed].
    eapply (parent_goes_stays _ 9); [|lia]. rewrite Hs. by apply pt_int.
  - plocal E. injection E as <- <-. destruct (listen_for host0 _) as [[]|e]; [|pfailed].
    eapply (parent_goes_stays _ 10); [|lia]. rewrite Hs. by apply pt_hup.
  - plocal E. injection E as <- <-. destruct (listen_for host0 _) as [[]|e]; [|pfailed].
    eapply (parent_goes_on _ 11); [by apply pt_ready|lia|by rewrite Hstep|right; by eexists _, _, _].
  - apply pstep_write in E as [(-> & -> & ->)|(e & -> & -> & ->)]; [|split; [done|right; pfailed]].
    eexists _, 12%nat, PReady. split_and!; [done|lia|by apply pt_done|by rewrite Hstep].
Qed.

(** *** Simulation, the world *)

Context `{!@KernelLaws Kc} `{!@KernelLaws Kp}.
Hypothesis parent_end : parent_sock ∈ open_fds h0.
Hypothesis child_end : child_sock ∈ open_fds h0.
Hypothesis two_ends : parent_sock <> child_sock.

(** What the child holds besides the TUN device. *)
Definition child_fds : gmap Z nat := delete parent_sock (fd_table h0).

Lemma entered_fds h : entered h -> held h = (child_fds, tmp_files h0).
Proof.
  intros [needs E]. apply (@create_namespace_tidy Kc) in E. rewrite E. unfold held, closed.
  by rewrite fd_table_snoc, tmp_files_snoc.
Qed.

Lemma looped_fds h : looped h -> held h = (child_fds, tmp_files h0).
Proof. intros (h1 & G & E). apply (@bringup_loopback_tidy Kc _) in E. rewrite E. by apply entered_fds. Qed.

(** The TUN device is opened after the fork. *)
Definition tun_held (tun : Z) (h : history) : Prop :=
  child_fds !! tun = None /\ exists i, (length h0 <= i)%nat /\ fd_table h = <[tun := i]> child_fds.

Lemma looped_extends h : looped h -> h0 `prefix_of` h.
Proof.
  intros (h1 & [needs E1] & E2). apply (@create_namespace_extends Kc) in E1. apply (@bringup_loopback_extends Kc) in E2.
  etrans; [|done]. etrans; [|done]. by apply prefix_app_r.
Qed.

Lemma has_tun_fds tun h : has_tun tun h -> tun_held tun h /\ tmp_files h = tmp_files h0.
Proof.
  intros (h1 & G & E). pose proof (prefix_length _ _ (looped_extends _ G)) as Hl. apply looped_fds in G. injection G as Ho Ht.
  apply (@create_tun_lemma Kc _) in E as (Ht' & Hn & Ho' & _). apply not_open in Hn. rewrite Ho in Hn, Ho'.
  split; [|by rewrite Ht', Ht]. split; [done|]. by exists (length h1).
Qed.

Lemma prepared_fds tun h : prepared tun h -> tun_held tun h.
Proof.
  intros (h1 & G & E). apply (@setup_mount_namespace_tidied Kc _) in E as (new & -> & E & _).
  apply has_tun_fds in G as ((Hn & i & Hi & G) & _). split; [done|]. exists i. by rewrite E.
Qed.

(** The child's socket is open until the command is about to run. *)
Lemma child_sock_held tun h : tun_held tun h -> fd_table h !! child_sock = fd_table h0 !! child_sock.
Proof.
  intros (Hn & i & _ & ->). pose proof (proj1 (elem_of_dom (fd_table h0) _) child_end) as [n Hc].
  assert (child_fds !! child_sock = fd_table h0 !! child_sock) as Hs by by apply lookup_delete_ne.
  rewrite lookup_insert_ne; [done|]. intros ->. congruence.
Qed.

Lemma child_sock_plain h : held h = (child_fds, tmp_files h0) -> fd_table h !! child_sock = fd_table h0 !! child_sock.
Proof. intros G. injection G as -> _. by apply lookup_delete_ne. Qed.

Lemma child_holds sent i p pc :
  child_at sent i p pc -> pc <> CRunCommand -> pc <> CFailed -> holds_end h0 child_sock p = true.
Proof.
  intros Hat Hr Hf.
  destruct Hat as [| |needs h G|h G|h G|h G|tun h G|tun h G|tun h G| | | |]; try done; apply bool_decide_eq_true; simpl.
  - done.
  - unfold closed. rewrite fd_table_snoc. by apply lookup_delete_ne.
  - apply child_sock_plain, entered_fds. by eexists.
  - by apply child_sock_plain, entered_fds.
  - by apply child_sock_plain, entered_fds.
  - by apply child_sock_plain, looped_fds.
  - by eapply child_sock_held, has_tun_fds.
  - by eapply child_sock_held, prepared_fds.
  - by eapply child_sock_held, prepared_fds.
Qed.

Lemma parent_holds j p pc : parent_at j p pc -> pc <> PFailed -> holds_end h0 parent_sock p = true.
Proof.
  intros Hat Hf. assert (parent_fds !! parent_sock = fd_table h0 !! parent_sock) as Hs by by apply lookup_delete_ne.
  pose proof (proj1 (elem_of_dom (fd_table h0) _) parent_end) as [n Hp].
  assert (forall tun h, holds_tun tun h -> fd_table h !! parent_sock = fd_table h0 !! parent_sock) as Ht.
  { intros tun h (Hn & i & ->). rewrite lookup_insert_ne; [done|]. intros ->. congruence. }
  destruct Hat; try done; apply bool_decide_eq_true; simpl; try by eapply Ht.
  all: done || congruence.
Qed.

Lemma set_child_same s : set_child s (child s) = s.
Proof. by destruct s. Qed.

(** A step of the world is matched by the handshake: a read that was
    interrupted changes nothing, every other step is progress. *)
Definition matched (k : nat) (w : world L) (s : system) (w' : world L) : Prop :=
  exists k' s', implements k' w' s' /\ rtc step s s' /\ (w' = w \/ (k < k')%nat).

Lemma child_matched k w s s' i i' j p out seen :
  implements k w s -> k = (i + j)%nat -> parent_at j (w_parent w) (parent s) ->
  (i < i')%nat -> rtc step s s' -> child_at (w_to_parent w ++ out) i' p (child s') ->
  to_parent s' = to_parent s ++ out -> parent_seen s' = parent_seen s -> to_child s' = to_child s ->
  child_seen s' = seen -> parent s' = parent s ->
  matched k w s (mkWorld p (w_parent w) (w_to_parent w ++ out) (w_parent_seen w) (w_to_child w) seen).
Proof.
  intros [E1 E2 E3 E4 _] -> Hp Hi Hr Hat G1 G2 G3 G4 G5. exists (i' + j)%nat, s'. split; [|split; [done|right; lia]].
  split; simpl; try congruence. exists i', j. by rewrite G5.
Qed.

Lemma child_simulates k w s ev w' :
  handshake_inv s -> implements k w s -> child_moves h0 parent_sock child_sock ev w = Some w' -> matched k w s w'.
Proof.
  intros I Im. destruct (im_at _ _ _ Im) as (i & j & Hk & Hc & Hp). unfold child_moves.
  destruct (deliver ev _ _ _ _) as [seen|] eqn:Ed; cbn [mbind option_bind]; [|done].
  destruct (pstep child_sock ev (w_child w)) as [[p out]|] eqn:Es; cbn [mbind option_bind]; [|done].
  intros [= <-]. pose proof (child_pstep _ _ _ _ _ _ _ Hc Es) as Hstep.
  assert (out = [] -> seen = w_child_seen w -> p = w_child w \/ child_goes (w_to_parent w) i p s ->
    matched k w s (mkWorld p (w_parent w) (w_to_parent w ++ out) (w_parent_seen w) (w_to_child w) seen)) as Hsilent.
  { intros -> -> [->|(i' & pc & Hi & Hat & G)].
    - exists k, s. rewrite app_nil_r. destruct w. by auto using rtc_refl.
    - eapply (child_matched _ _ _ (set_child s pc)); rewrite ?app_nil_r; try done; [|by simpl; apply (im_child_seen _ _ _ Im)].
      destruct G as [->|(ok & needs & fd & G)]; [by rewrite set_child_same|]. by eapply rtc_once, step_child. }
  destruct ev as [|n| |m fd|]; cbn [deliver] in Ed.
  - injection Ed as <-. by apply Hsilent; destruct Hstep.
  - injection Ed as <-. by apply Hsilent; destruct Hstep.
  - injection Ed as <-. destruct Hstep as (m & i' & pc & -> & Hi & Hat & G).
    eapply (child_matched _ _ _ (child_write s m pc)); try done; [by eapply rtc_once, step_child|by apply (im_child_seen _ _ _ Im)].
  - case_bool_decide as Hd; [|done]. injection Ed as <-. destruct Hd as [Hd _].
    destruct Hstep as (-> & i' & next & Hi & Hat & G).
    rewrite <- (im_to_child _ _ _ Im), <- (im_child_seen _ _ _ Im) in Hd.
    unfold await_one, read_channel in G. rewrite Hd in G.
    eapply (child_matched _ _ _ (child_read s (if byte_of m =? 1 then next else CFailed))); rewrite ?app_nil_r; try done.
    + eapply rtc_once, step_child. rewrite G. by destruct (byte_of m =? 1).
    + simpl. by rewrite (im_child_seen _ _ _ Im).
  - destruct (bool_decide _ && _) eqn:Eb; [|done]. injection Ed as <-. apply andb_true_iff in Eb as [Hd Hh].
    apply bool_decide_eq_true in Hd. apply negb_true_iff, orb_false_iff in Hh as [Hhc Hhp]. destruct Hstep as (-> & i' & next & Hi & Hat & G).
    rewrite <- (im_to_child _ _ _ Im), <- (im_child_seen _ _ _ Im) in Hd.
    assert (parent_alive s = false) as Hdead.
    { destruct (parent_alive s) eqn:Ea; [|done]. rewrite <- Hhp. symmetry. eapply parent_holds; [done|].
      intros Ef. unfold parent_alive in Ea. by rewrite Ef in Ea. }
    unfold await_one, read_channel in G. rewrite Hd, Hdead in G.
    eapply (child_matched _ _ _ (set_child s CFailed)); rewrite ?app_nil_r; try done.
    + by eapply rtc_once, step_child.
    + by apply (im_child_seen _ _ _ Im).
Qed.

Lemma parent_matched k w s s' i j j' p out seen :
  implements k w s -> k = (i + j)%nat -> child_at (w_to_parent w) i (w_child w) (child s) ->
  (j < j')%nat -> rtc step s s' -> parent_at j' p (parent s') ->
  to_parent s' = to_parent s -> parent_seen s' = seen -> to_child s' = to_child s ++ out ->
  child_seen s' = child_seen s -> child s' = child s ->
  matched k w s (mkWorld (w_child w) p (w_to_parent w) seen (w_to_child w ++ out) (w_child_seen w)).
Proof.
  intros [E1 E2 E3 E4 _] -> Hc Hj Hr Hat G1 G2 G3 G4 G5. exists (i + j')%nat, s'. split; [|split; [done|right; lia]].
  split; simpl; try congruence. exists i, j'. by rewrite G5.
Qed.

(** While the parent reads, the child has not closed its end unless it failed. *)
Lemma parent_reading k w s ev q :
  handshake_inv s -> implements k w s -> pstep parent_sock ev (w_parent w) = Some q ->
  child_alive s = true -> holds_end h0 child_sock (w_child w) = true.
Proof.
  intros I Im Es Ha. destruct (im_at _ _ _ Im) as (i & j & Hk & Hc & Hp). eapply child_holds; [done|..].
  - intros Er. destruct (run_command_released s I Er) as (Ep & _). rewrite Ep in Hp. inversion Hp.
    match goal with Eq : _ = w_parent w |- _ => by rewrite <- Eq in Es end.
  - intros Ef. unfold child_alive in Ha. by rewrite Ef in Ha.
Qed.

Lemma parent_simulates k w s ev w' :
  handshake_inv s -> implements k w s -> parent_moves h0 parent_sock child_sock ev w = Some w' -> matched k w s w'.
Proof.
  intros I Im. destruct (im_at _ _ _ Im) as (i & j & Hk & Hc & Hp). unfold parent_moves.
  destruct (deliver ev _ _ _ _) as [seen|] eqn:Ed; cbn [mbind option_bind]; [|done].
  destruct (pstep parent_sock ev (w_parent w)) as [[p out]|] eqn:Es; cbn [mbind option_bind]; [|done].
  intros [= <-]. pose proof (parent_pstep _ _ _ _ _ _ Hp Es) as Hstep.
  assert (out = [] -> seen = w_parent_seen w -> p = w_parent w \/ parent_goes j p s ->
    matched k w s (mkWorld (w_child w) p (w_to_parent w) seen (w_to_child w ++ out) (w_child_seen w))) as Hsilent.
  { intros -> -> [->|(j' & pc & Hj & Hat & G)].
    - exists k, s. rewrite app_nil_r. destruct w. by auto using rtc_refl.
    - destruct G as [->|(ok & s' & G & Hs)].
      + eapply (parent_matched _ _ _ s); rewrite ?app_nil_r; try done. by apply (im_parent_seen _ _ _ Im).
      + assert (rtc step s s') as Hr by by eapply rtc_once, step_parent. pose proof (im_parent_seen _ _ _ Im).
        by destruct Hs as [->|(a & b & c & ->)]; eapply parent_matched; rewrite ?app_nil_r. }
  destruct ev as [|n| |m fd|]; cbn [deliver] in Ed.
  - injection Ed as <-. by apply Hsilent; destruct Hstep.
  - injection Ed as <-. by apply Hsilent; destruct Hstep.
  - injection Ed as <-. destruct Hstep as (m & j' & pc & -> & Hj & Hat & G).
    eapply (parent_matched _ _ _ (parent_write s m pc)); try done; [by eapply rtc_once, step_parent|by apply (im_parent_seen _ _ _ Im)].
  - case_bool_decide as Hd; [|done]. injection Ed as <-. destruct Hd as [Hd Hfd].
    destruct (Hstep Hfd) as (-> & j' & next & Hj & Hat & G).
    rewrite <- (im_to_parent _ _ _ Im), <- (im_parent_seen _ _ _ Im) in Hd.
    unfold parent_await, read_channel in G. rewrite Hd in G.
    eapply (parent_matched _ _ _ (parent_read s (next m))); rewrite ?app_nil_r; try done.
    + by eapply rtc_once, step_parent.
    + simpl. by rewrite (im_parent_seen _ _ _ Im).
  - destruct (bool_decide _ && _) eqn:Eb; [|done]. injection Ed as <-. apply andb_true_iff in Eb as [Hd Hh].
    apply bool_decide_eq_true in Hd. apply negb_true_iff, orb_false_iff in Hh as [Hhc Hhp]. destruct Hstep as (-> & j' & next & Hj & Hat & G).
    rewrite <- (im_to_parent _ _ _ Im), <- (im_parent_seen _ _ _ Im) in Hd.
    assert (child_alive s = false) as Hdead.
    { destruct (child_alive s) eqn:Ea; [|done]. rewrite <- Hhc. symmetry. by eapply parent_reading. }
    unfold parent_await, read_channel in G. rewrite Hd, Hdead in G.
    eapply (parent_matched _ _ _ (set_parent s PFailed)); rewrite ?app_nil_r; try done.
    + by eapply rtc_once, step_parent.
    + by apply (im_parent_seen _ _ _ Im).
Qed.

Notation wsteps := (rtc (wstep h0 parent_sock child_sock)).

Lemma wstep_simulates k w s w' :
  handshake_inv s -> implements k w s -> wstep h0 parent_sock child_sock w w' -> matched k w s w'.
Proof. intros I Im Hw. destruct Hw; [by eapply child_simulates | by eapply parent_simulates]. Qed.

Lemma wsteps_simulate k w s w' :
  handshake_inv s -> implements k w s -> wsteps w w' ->
  exists k' s', implements k' w' s' /\ rtc step s s'.
Proof.
  intros I Im Hw. revert k s I Im. induction Hw as [w|w1 w2 w3 Hs _ IH]; intros k s I Im; [by eexists _, _|].
  destruct (wstep_simulates k w1 s w2 I Im Hs) as (k' & s' & Im' & Hr & _).
  destruct (IH k' s') as (k'' & s'' & Im'' & Hr'); [by eapply handshake_inv_steps|done|].
  exists k'', s''. split; [done|]. by etrans.
Qed.

Lemma startup_implements w : wsteps w_initial w -> exists k s, implements k w s /\ reachable s.
Proof.
  intros Hw. destruct (wsteps_simulate 0 _ _ _ handshake_inv_initial implements_initial Hw) as (k & s & Im & Hr).
  by exists k, s.
Qed.

(** *** Progress *)

(** What a process can do next: it has left the handshake, it can go on by
    itself, or it waits for the other one. *)
Lemma run_can {A} own (m : history -> result startup_error (prog A) * history) h : is_Some (pstep own EvRun (Run m, h)).
Proof. unfold pstep. simpl. destruct (m h). by eexists. Qed.

Definition can_go {A} (own : Z) (p : proc A) : Prop :=
  exists ev, (ev = EvRun \/ ev = EvSend) /\ is_Some (pstep own ev p).

Definition waits {A} (own other : Z) (p : proc A) : Prop :=
  (forall m fd, is_Some (pstep own (EvReceive m fd) p)) /\ is_Some (pstep own EvEof p) /\ holds_end h0 other p = false.

Lemma child_can sent i p pc : child_at sent i p pc ->
  left p = true \/ can_go child_sock p \/ ((pc = CAwaitMaps \/ pc = CAwaitReady) /\ waits child_sock parent_sock p).
Proof.
  intros Hat. pose proof (proj1 (elem_of_dom (fd_table h0) _) parent_end) as [n Hn].
  destruct Hat as [| |needs h G|h G|h G|h G|tun h G|tun h G|tun h G _|tun h G _|tun h G _| |]; try by left.
  all: try (right; left; exists EvRun; split; [by left|apply run_can]).
  - right. left. exists EvSend. split; [by right|]. cbn. rewrite Z.eqb_refl. by eexists.
  - right. right. split; [by left|]. split_and!; [intros m fd| |]; cbn; rewrite ?Z.eqb_refl; try by eexists.
    apply bool_decide_eq_false_2. simpl. pose proof (entered_fds _ G) as Eh. injection Eh as -> _.
    unfold child_fds. by rewrite lookup_delete_eq, Hn.
  - right. left. exists EvSend. split; [by right|]. cbn. rewrite Z.eqb_refl. by eexists.
  - right. right. split; [by right|]. split_and!; [intros m fd| |]; cbn; rewrite ?Z.eqb_refl; try by eexists.
    apply bool_decide_eq_false_2. simpl. destruct (prepared_fds _ _ G) as (_ & j & Hj & ->).
    rewrite Hn. destruct (decide (tun = parent_sock)) as [->|Hne].
    + rewrite lookup_insert_eq. intros [= ->]. apply fd_table_bound in Hn. lia.
    + rewrite lookup_insert_ne by done. unfold child_fds. by rewrite lookup_delete_eq.
Qed.

Lemma parent_can j p pc : parent_at j p pc ->
  left p = true \/ can_go parent_sock p \/ ((pc = PAwaitUnshare \/ pc = PRecvFd) /\ waits parent_sock child_sock p).
Proof.
  intros Hat. pose proof (proj1 (elem_of_dom (fd_table h0) _) child_end) as [n Hn].
  assert (parent_fds !! child_sock <> fd_table h0 !! child_sock) as Hc
    by (unfold parent_fds; by rewrite lookup_delete_eq, Hn).
  destruct Hat; try by left.
  all: try (right; left; exists EvRun; split; [by left|apply run_can]).
  all: try (right; left; exists EvSend; split; [by right|cbn; rewrite Z.eqb_refl; by eexists]).
  - right. right. split; [by left|]. split_and!; [intros m fd| |]; cbn; rewrite ?Z.eqb_refl; try by eexists.
    apply bool_decide_eq_false_2. simpl. congruence.
  - right. right. split; [by right|]. split_and!; [intros m fd| |]; cbn; rewrite ?Z.eqb_refl; try by eexists.
    apply bool_decide_eq_false_2. simpl. congruence.
Qed.

Lemma moves_alone (w : world L) :
  (can_go child_sock (w_child w) -> exists ev w', (ev = EvRun \/ ev = EvSend) /\ child_moves h0 parent_sock child_sock ev w = Some w') /\
  (can_go parent_sock (w_parent w) -> exists ev w', (ev = EvRun \/ ev = EvSend) /\ parent_moves h0 parent_sock child_sock ev w = Some w').
Proof.
  split; intros (ev & Hev & [[p out] E]); exists ev; eexists; (split; [done|]);
    unfold child_moves, parent_moves; destruct Hev as [-> | ->]; cbn [deliver mbind option_bind]; by rewrite E.
Qed.

(** A read that finds something. *)
Lemma deliver_some {A} own other (p : proc A) sent seen hup :
  waits own other p -> (sent !! seen <> None \/ hup = true) ->
  exists ev n q, (forall e, ev <> EvError e) /\ deliver ev sent seen hup (fds_of p) = Some n /\ pstep own ev p = Some q.
Proof.
  intros (Hr & [q He] & _) G. destruct (sent !! seen) as [m|] eqn:Es.
  - destruct (Hr m (fresh (fds_of p))) as [q' Hq]. exists (EvReceive m (fresh (fds_of p))), (Datatypes.S seen), q'.
    split_and!; [done| |done]. cbn [deliver]. rewrite bool_decide_eq_true_2; [done|]. split; [done|apply is_fresh].
  - destruct G as [G| ->]; [done|]. exists EvEof, seen, q. split_and!; [done| |done]. cbn [deliver].
    by rewrite bool_decide_eq_true_2.
Qed.

Lemma parent_dead j p s : parent_at j p (parent s) -> parent_alive s = false -> holds_end h0 parent_sock p = false.
Proof. unfold parent_alive. intros Hp Ha. by destruct Hp. Qed.

Lemma child_dead sent i p s : child_at sent i p (child s) -> child_alive s = false -> holds_end h0 child_sock p = false.
Proof. unfold child_alive. intros Hp Ha. by destruct Hp. Qed.

Lemma child_wakes k w s next s' : implements k w s -> waits child_sock parent_sock (w_child w) ->
  await_one true s next = Some s' ->
  exists ev w', (forall e, ev <> EvError e) /\ child_moves h0 parent_sock child_sock ev w = Some w'.
Proof.
  intros Im Hw G. destruct (im_at _ _ _ Im) as (i & j & _ & _ & Hp).
  destruct (deliver_some _ _ _ (w_to_child w) (w_child_seen w) (hung_up h0 parent_sock w) Hw) as (ev & n & [p out] & Hev & Hd & Hs).
  { rewrite <- (im_to_child _ _ _ Im), <- (im_child_seen _ _ _ Im). unfold await_one, read_channel in G.
    destruct (to_child s !! child_seen s); [by left|]. right. destruct (parent_alive s) eqn:Ea; [done|].
    unfold hung_up. destruct Hw as (_ & _ & ->). by rewrite (parent_dead _ _ _ Hp Ea). }
  exists ev. eexists. split; [done|]. unfold child_moves. rewrite Hd. cbn [mbind option_bind]. by rewrite Hs.
Qed.

Lemma parent_wakes k w s next s' : implements k w s -> waits parent_sock child_sock (w_parent w) ->
  parent_await true s next = Some s' ->
  exists ev w', (forall e, ev <> EvError e) /\ parent_moves h0 parent_sock child_sock ev w = Some w'.
Proof.
  intros Im Hw G. destruct (im_at _ _ _ Im) as (i & j & _ & Hc & _).
  destruct (deliver_some _ _ _ (w_to_parent w) (w_parent_seen w) (hung_up h0 child_sock w) Hw) as (ev & n & [p out] & Hev & Hd & Hs).
  { rewrite <- (im_to_parent _ _ _ Im), <- (im_parent_seen _ _ _ Im). unfold parent_await, read_channel in G.
    destruct (to_parent s !! parent_seen s); [by left|]. right. destruct (child_alive s) eqn:Ea; [done|].
    unfold hung_up. destruct Hw as (_ & _ & ->). by rewrite (child_dead _ _ _ _ Hc Ea). }
  exists ev. eexists. split; [done|]. unfold parent_moves. rewrite Hd. cbn [mbind option_bind]. by rewrite Hs.
Qed.

(** What the handshake says of a process that waits, or has left. *)
Lemma waiting_child needs fd s s' : child s = CAwaitMaps \/ child s = CAwaitReady ->
  child_step true needs fd s = Some s' -> exists next, await_one true s next = Some s'.
Proof. unfold child_step. intros [-> | ->]; eauto. Qed.

Lemma waiting_parent s s' : parent s = PAwaitUnshare \/ parent s = PRecvFd ->
  parent_step true s = Some s' -> exists next, parent_await true s next = Some s'.
Proof. unfold parent_step. intros [-> | ->]; eauto. Qed.

Lemma child_left sent i p s : child_at sent i p (child s) -> left p = true ->
  forall needs fd, child_step true needs fd s = None.
Proof. intros Hat Hl needs fd. unfold child_step. by destruct Hat. Qed.

Lemma parent_left j p s : parent_at j p (parent s) -> left p = true -> parent_step true s = None.
Proof. intros Hat Hl. unfold parent_step. by destruct Hat. Qed.

Lemma good_step_inv s s' : good_step s s' ->
  (exists needs fd, child_step true needs fd s = Some s') \/ parent_step true s = Some s'.
Proof. intros []; eauto. Qed.

(** Some process can move, without a failure, until both have left the
    handshake. *)
Definition can_move (w : world L) : Prop := exists ev w', (forall e, ev <> EvError e) /\
  (child_moves h0 parent_sock child_sock ev w = Some w' \/ parent_moves h0 parent_sock child_sock ev w = Some w').

Lemma world_progress k w s :
  handshake_inv s -> implements k w s -> left (w_child w) && left (w_parent w) = false -> can_move w.
Proof.
  intros I Im Hl. destruct (im_at _ _ _ Im) as (i & j & _ & Hc & Hp). destruct (moves_alone w) as [Mc Mp].
  destruct (child_can _ _ _ _ Hc) as [Lc|[Gc|[Wc Hwc]]].
  2: { destruct (Mc Gc) as (ev & w' & Hev & E). exists ev, w'. split; [by destruct Hev as [-> | ->]|by left]. }
  all: destruct (parent_can _ _ _ Hp) as [Lp|[Gp|[Wp Hwp]]].
  2, 5: destruct (Mp Gp) as (ev & w' & Hev & E); exists ev, w'; split; [by destruct Hev as [-> | ->]|by right].
  1: by rewrite Lc, Lp in Hl.
  all: assert (exists s', good_step s s') as [s' G]
    by (apply handshake_progress; [done|]; unfold final; destruct (child s), (parent s); naive_solver).
  all: apply good_step_inv in G as [(needs & fd & G)|G].
  all: try (by rewrite (child_left _ _ _ _ Hc Lc) in G); try (by rewrite (parent_left _ _ _ Hp Lp) in G).
  all: first [apply waiting_child in G as (next & G); [|done] | apply waiting_parent in G as (next & G); [|done]].
  all: first [apply (child_wakes _ _ _ _ _ Im Hwc) in G | apply (parent_wakes _ _ _ _ _ Im Hwp) in G].
  all: destruct G as (ev & w' & Hev & E); exists ev, w'; auto.
Qed.

(** *** The number of steps *)

Lemma child_at_bound sent i p pc : child_at sent i p pc -> (i <= 12)%nat.
Proof. intros []; lia. Qed.

Lemma parent_at_bound j p pc : parent_at j p pc -> (j <= 13)%nat.
Proof. intros []; lia. Qed.

(** A step that is not an interrupted read made again. *)
Definition moves (w w' : world L) : Prop := wstep h0 parent_sock child_sock w w' /\ w' <> w.

Lemma moves_bound n w k s w' : nsteps moves n w w' -> handshake_inv s -> implements k w s -> (n + k <= 25)%nat.
Proof.
  intros Hn. revert k s. induction Hn as [w|n w1 w2 w3 [Hs Hne] _ IH]; intros k s I Im.
  - destruct (im_at _ _ _ Im) as (i & j & -> & Hc%child_at_bound & Hp%parent_at_bound). lia.
  - destruct (wstep_simulates k w1 s w2 I Im Hs) as (k' & s' & Im' & Hr & [->|Hk]); [done|].
    pose proof (IH k' s' (handshake_inv_steps _ _ Hr I) Im'). lia.
Qed.

(** *** The end *)

Lemma child_done_at sent i p pc : child_at sent i p pc -> p.1 = Ret () ->
  pc = CRunCommand /\ exists tun h, prepared tun h /\ MFd tun ∈ sent /\ p.2 = closed Kc tun (closed Kc child_sock h).
Proof. intros [] E; try discriminate E. eauto 10. Qed.

Lemma parent_done_at j p : parent_at j p PReady -> exists r, p.1 = Ret r /\ holds_tun (tun_fd r) p.2 /\ ready_for r.
Proof. inversion 1; subst; simpl; eauto. Qed.

(** What the child has done: it configured the TUN device, and then mounted. *)
Lemma prepared_history tun h : prepared tun h -> exists sock before log after,
  h = h0 ++ before ++ log ++ after /\ tun_configured tun sock log /\
  tmp_files h0 ⊆ tmp_files h /\ tmp_files h ⊆ tmp_files h0 ∪ refused after.
Proof.
  intros (h1 & Gt & Em). apply has_tun_fds in Gt as Ht. destruct Ht as [_ Ht]. destruct Gt as (h2 & Gl & Et).
  destruct (looped_extends _ Gl) as [before ->].
  apply (@create_tun_lemma Kc _) in Et as (_ & _ & _ & sock & log & -> & Et).
  apply (@setup_mount_namespace_tidied Kc _) in Em as (after & -> & _ & Hs & Hr).
  exists sock, before, log, after. rewrite <- !app_assoc in *. rewrite Ht in Hs, Hr. by split_and!.
Qed.

Lemma prepared_dns lstat follow tun h :
  covered_of lstat follow h0 = ∅ -> dns_mountable lstat follow (bind_mounts config) -> prepared tun h ->
  shows_dns lstat follow h.
Proof.
  intros G0 Hd (h1 & (h2 & (h3 & [needs E3] & E2) & E1) & Em). eapply (@setup_mount_namespace_shows _ _ Kc); [apply _| |exact Hd|exact Em].
  apply (@create_tun_mountless lstat follow Kc) in E1. apply (@bringup_loopback_mountless lstat follow Kc) in E2.
  apply (@create_namespace_mountless lstat follow Kc) in E3. change (covered_of lstat follow h1 = ∅).
  rewrite E1, E2, E3, <- G0. unfold covered_of, closed. by rewrite files_of_snoc.
Qed.

Lemma closed_fds tun h : tun_held tun h ->
  open_fds (closed Kc tun (closed Kc child_sock h)) = open_fds h0 ∖ {[parent_sock; child_sock]} /\
  tmp_files (closed Kc tun (closed Kc child_sock h)) = tmp_files h.
Proof.
  intros (Hn & i & _ & Ho). unfold closed. rewrite !open_fds_snoc, !tmp_files_snoc. simpl.
  split; [|done]. unfold open_fds. rewrite Ho, dom_insert_L. apply not_elem_of_dom in Hn.
  unfold child_fds in *. rewrite dom_delete_L in *. set_solver.
Qed.

Lemma closed_shows lstat follow fd h : shows_dns lstat follow h -> shows_dns lstat follow (closed Kc fd h).
Proof. apply shows_dns_covered. unfold covered_of, closed. by rewrite files_of_snoc. Qed.

(** ** Properties *)

(** C8. Startup implements its protocol: however the two processes are
    interleaved and whatever fails, every state that the programs of
    [child_main] and [parent_main] reach after the fork is one of the handshake,
    message for message, so that what the handshake guarantees holds of the
    programs; in particular an acknowledgement is never read from a closed
    channel, nor a descriptor taken for one. *)
Theorem startup_refines_handshake w :
  wsteps w_initial w -> exists k s, reachable s /\ implements k w s.
Proof. intros Hw. destruct (startup_implements w Hw) as (k & s & Im & Hr). by exists k, s. Qed.

(** C20. Startup ends: until both processes have left the handshake one of them
    can move without a failure, so that they never wait for each other, and when
    one dies the other one sees the end of the stream, also if the number of the
    socket it closed is in use again; and apart from interrupted reads, which
    change nothing, there are at most 25 steps. *)
Theorem startup_completes w :
  wsteps w_initial w ->
  (left (w_child w) && left (w_parent w) = false -> can_move w) /\
  (forall n, nsteps moves n w_initial w -> (n <= 25)%nat).
Proof.
  intros Hw. split.
  - intros Hl. destruct (startup_implements w Hw) as (k & s & Im & Hr).
    by eapply world_progress; [apply handshake_inv_reachable|..].
  - intros n Hn. pose proof (moves_bound _ _ _ _ _ Hn handshake_inv_initial implements_initial). lia.
Qed.


End Stages.

(** ** Witnesses *)

(** A scheduler: the child as far as it gets, then the parent. *)
Definition next_event {A} (sent : list message) (seen : nat) (p : proc A) : event :=
  match p.1 with
  | Write _ _ _ | Sendmsg _ _ _ => EvSend
  | ReadLoop _ _ | Recvmsg _ _ =>
      match sent !! seen with
      | Some m => EvReceive m (1 + foldr Z.max 0 (elements (fds_of p)))
      | None => EvEof
      end
  | _ => EvRun
  end.

Fixpoint run_world {L} (h0 : history) (ps cs : Z) (fuel : nat) (w : world L) : world L :=
  match fuel with
  | O => w
  | S fuel =>
      match child_moves h0 ps cs (next_event (w_to_child w) (w_child_seen w) (w_child w)) w with
      | Some w' => run_world h0 ps cs fuel w'
      | None =>
          match parent_moves h0 ps cs (next_event (w_to_parent w) (w_parent_seen w) (w_parent w)) w with
          | Some w' => run_world h0 ps cs fuel w'
          | None => w
          end
      end
  end.

Lemma run_world_steps {L} h0 ps cs fuel (w : world L) : rtc (wstep h0 ps cs) w (run_world h0 ps cs fuel w).
Proof.
  revert w. induction fuel as [|fuel IH]; intros w; simpl; [done|].
  destruct (child_moves _ _ _ _ w) eqn:Ec; [by eapply rtc_l; [eapply wstep_child|]|].
  destruct (parent_moves _ _ _ _ w) eqn:Ep; [by eapply rtc_l; [eapply wstep_parent|] | done].
Qed.

(** The descriptors 3 and 4 are the two ends of the socket. *)
Definition fork_history : history := [(SysSocket, Ok (3, [])); (SysSocket, Ok (4, []))].

Definition startup_config : @Config literal_engine :=
  mkConfig Direct demo_binds [mkSpec 0 8080 80] [str "curl"] (mkMatcher None [] Trie.empty).

Definition kind_host : host Z Z := mkHost 1000 1000 (fun addr => Ok addr.2) Ok Ok (Ok ()) (fun _ => Ok ()).
Definition busy_host : host Z Z := mkHost 1000 1000 (fun addr => Err 98) Ok Ok (Ok ()) (fun _ => Ok ()).

(** A kernel that lets only the superuser have a network namespace without a
    user namespace. *)
Definition user_kernel : Kernel := fun h c =>
  match c with SysUnshare [CLONE_NEWNET] => Err EPERM | _ => kind_kernel h c end.

Lemma user_kernel_laws : @KernelLaws user_kernel.
Proof.
  destruct kind_kernel_laws as [Hf Ht Hw]. split.
  - intros h c fd p E. destruct c; try done; exact (Hf h _ fd p E).
  - exact Ht.
  - exact Hw.
Qed.

Definition forked (host0 : host Z Z) : world Z :=
  @w_initial literal_engine Z Z host0 user_kernel kind_kernel 3 4 42 startup_config fork_history.
Definition started (host0 : host Z Z) : world Z := run_world fork_history 3 4 30 (forked host0).

(** How the processes end. *)
Definition outcome {A} (p : proc A) : option (result startup_error A) :=
  match p.1 with Ret a => Some (Ok a) | Fail e => Some (Err e) | _ => None end.

(** The parent knows the TUN device as descriptor 4, the number of the end of
    the socket that it has closed. *)
Example started_ok :
  (outcome (w_child (started kind_host)), outcome (w_parent (started kind_host)))
  = (Some (Ok ()), Some (Ok (mkReady 4 [mkBound (mkSpec 0 8080 80) 8080]))).
Proof. vm_compute. reflexivity. Qed.

(** A published port that is in use: the parent exits, the child sees it. *)
Example started_busy :
  (outcome (w_child (started busy_host)), outcome (w_parent (started busy_host)))
  = (Some (Err (ChannelClosed ReadySignal)), Some (Err (BindPublish (BindError (0, 8080) 98)))).
Proof. vm_compute. reflexivity. Qed.

Lemma startup_refines_handshake_witness :
  exists k s, reachable s /\ implements kind_host user_kernel kind_kernel 3 4 42 startup_config fork_history k (started kind_host) s.
Proof.
  apply (@startup_refines_handshake literal_engine Z Z kind_host user_kernel kind_kernel 3 4 42 startup_config fork_history
    user_kernel_laws kind_kernel_laws ltac:(by_decide) ltac:(by_decide) ltac:(done)).
  exact (run_world_steps fork_history 3 4 30 (forked kind_host)).
Defined.

Lemma startup_completes_witness :
  let w := run_world fork_history 3 4 10 (forked busy_host) in
  left (w_child w) && left (w_parent w) = false /\ @can_move Z 3 4 fork_history w.
Proof.
  intros w. assert (left (w_child w) && left (w_parent w) = false) as Hl by (vm_compute; reflexivity).
  split; [exact Hl|].
  apply (@startup_completes literal_engine Z Z busy_host user_kernel kind_kernel 3 4 42 startup_config fork_history
    user_kernel_laws kind_kernel_laws ltac:(by_decide) ltac:(by_decide) ltac:(done) w).
  - exact (run_world_steps fork_history 3 4 10 (forked busy_host)).
  - exact Hl.
Defined.

