(* ===== verification/Shutdown.v ===== *)
(** * Supervision and exit (src/src/main.rs)

    The end of [parent_main]: the blocking task that waits for the child, the
    loop that forwards signals meanwhile, the shutdown of the event loop within
    its time limit, and the exit code; and how [main]'s child branch turns the
    reaper's result into the status that the parent sees. *)

From S2P Require Import Prelude RustStr RustNet FakeDns ProxyConfig Rule Publish Config Stream Connect.
From S2P Require Import Tun Smoltcp Dns Relay Outbound Published EventLoop EndToEnd.
From S2P Require Import Process.

(** ** Waiting for the child *)

(** The blocking task of [parent_main], given the answers of [waitpid]. *)
Fixpoint child_wait (answers : list wait_answer) : option (result Z Z) :=
  match answers with
  | [] => None
  | Exited _ code :: _ => Some (Ok code)
  | Signaled _ sig :: _ => Some (Ok (128 + sig))
  | (OtherStatus | StillAlive | WaitInterrupted) :: answers => child_wait answers
  | NoChildren :: _ => Some (Err ECHILD)
  | WaitFailed errno :: _ => Some (Err errno)
  end.

(** What wakes the [select!]: the task has ended, with its result or because it
    could not be joined, or a signal has arrived. *)
Inductive wakeup : Type := TaskDone (r : option (result Z Z)) | GotSignal (signal : Z).

(** The loop of [parent_main]: the signals it forwards to the child, and the
    exit code; a failure to forward is only logged. *)
Fixpoint supervise (wakeups : list wakeup) : list Z * option Z :=
  match wakeups with
  | [] => ([], None)
  | TaskDone r :: _ => ([], Some (match r with Some (Ok code) => code | _ => 1 end))
  | GotSignal signal :: wakeups => let '(sent, code) := supervise wakeups in (signal :: sent, code)
  end.

(** What the child's exit shows [waitpid]: [exit(code)], or [exit(1)] on an
    error; the kernel keeps the low byte. *)
Definition child_exit (r : result process_error Z) : Z :=
  match r with Ok code => code mod 256 | Err _ => 1 end.

(** ** Shutting down *)

(** How the two seconds that the event loop has after the shutdown flag end. *)
Inductive loop_outcome : Type :=
| LoopClean
| LoopFailed (e : loop_error)
| LoopPanicked
| LoopTimedOut.

(** [timeout(2s, event_loop_handle)], given what the loop does in that time. *)
Definition await_event_loop {L} (r : option (result loop_error (bool * L))) : loop_outcome :=
  match r with
  | None => LoopPanicked
  | Some (Err e) => LoopFailed e
  | Some (Ok (true, _)) => LoopClean
  | Some (Ok (false, _)) => LoopTimedOut
  end.

(** What [parent_main] does once the event loop runs, in order. *)
Inductive parent_action : Type :=
| ForwardSignal (signal : Z)
| SendShutdown
| EventLoopEnded (o : loop_outcome)
| CloseFd (fd : Z)
| ExitWith (code : Z).

(** [None]: the child has not ended yet. *)
Definition parent_tail (tun_fd sock : Z) (wakeups : list wakeup) (loop : loop_outcome) : option (list parent_action) :=
  let '(forwarded, code) := supervise wakeups in
  exit_code ← code;
  Some (map ForwardSignal forwarded ++
        [SendShutdown; EventLoopEnded loop; CloseFd tun_fd; CloseFd sock; ExitWith exit_code]).

(** ** Lemmas *)

(** What the blocking task makes of the child's end. *)
Definition end_code (a : wait_answer) : option (result Z Z) :=
  match a with
  | Exited _ code => Some (Ok code)
  | Signaled _ signal => Some (Ok (128 + signal))
  | NoChildren => Some (Err ECHILD)
  | WaitFailed errno => Some (Err errno)
  | _ => None
  end.

Lemma child_wait_spec answers a :
  Forall (fun a => end_code a = None) answers -> end_code a <> None -> child_wait (answers ++ [a]) = end_code a.
Proof.
  intros Ha Hend. induction Ha as [|x answers Hx _ IH]; simpl; [by destruct a|]. by destruct x.
Qed.

Lemma supervise_spec signals r wakeups :
  supervise (map GotSignal signals ++ TaskDone r :: wakeups)
  = (signals, Some (match r with Some (Ok code) => code | _ => 1 end)).
Proof. induction signals as [|x signals IH]; simpl; [done|]. by rewrite IH. Qed.

Lemma parent_tail_spec tun_fd sock signals answers a wakeups loop :
  Forall (fun a => end_code a = None) answers -> end_code a <> None ->
  parent_tail tun_fd sock (map GotSignal signals ++ TaskDone (child_wait (answers ++ [a])) :: wakeups) loop
  = Some (map ForwardSignal signals ++
      [SendShutdown; EventLoopEnded loop; CloseFd tun_fd; CloseFd sock;
       ExitWith (match end_code a with Some (Ok code) => code | _ => 1 end)]).
Proof. intros Ha Hend. unfold parent_tail. rewrite child_wait_spec by done. by rewrite supervise_spec. Qed.

(** The status the reaper returns is a byte. *)
Lemma run_command_tree_returned fuel k command t self rounds code :
  run_command_tree fuel k command t self rounds = Some (Err (Ok code)) ->
  exists pid rs r later, a_fork k = Ok pid /\ rounds = rs ++ r :: later /\
    last (asked (r_waits r)) = Some NoChildren /\ last (statuses pid (rs ++ [r])) = Some code.
Proof.
  unfold run_command_tree, start_command. intros E.
  destruct (set_child_subreaper k _) as [[u|] r1]; [|done].
  destruct (block_signals k tree_signals r1) as [[m|] r2]; [|done].
  unfold fork in E. destruct (a_fork k) as [pid|]; [|done].
  apply (wait_loop_returned fuel pid self [] rounds (mkWaiting None None)) in E
    as (rs & r & later & -> & Hn & Hl); [|done].
  by exists pid, rs, r, later.
Qed.

(** ** Properties *)

(** C13. The exit status: when the reaper has collected the whole command tree,
    nsproxy exits with the command's own status, its exit code or 128 and the
    number of the signal that killed it, after forwarding every signal that
    arrived before, shutting the event loop down and closing the TUN device and
    the setup socket; when the reaper fails, or is killed itself, the code is 1
    or 128 and that signal.  The event loop, whose waits end, is down cleanly
    within the turn that sees the flag. *)
Theorem exit_status_end_to_end {T S U I F} `{TcpStreamLaws T} `{TcpSocketOps S I} `{!TcpSocketLaws S I} `{UdpSocketLaws U}
    `{SocketAlloc S U} `{IterOrder} `{RegexEngine} `{!RegexLaws} `{TunFd F} `{InterfaceOps I F S U}
    `{!InterfaceLaws I F S U} `{!Network T} (origin : Pub.peer -> T -> Prop)
    nanos (tun : F) config0 specs publishes (turns : list (@EventLoop.turn T)) t
    fuel k command thread self rounds result tun_fd sock signals answers child wakeups :
  from_specs specs = Ok (rules config0) -> Forall (sound_turn origin) (turns ++ [t]) ->
  Forall wakes (turns ++ [t]) -> Forall (fun x => shuts_down x = false) turns -> shuts_down t = true ->
  TunDevice_new tun <> None ->
  run_command_tree fuel k command thread self rounds = Some (Err result) ->
  Forall (fun r => Forall kernel_answer (r_waits r)) rounds ->
  Forall (fun a => end_code a = None) answers ->
  let loop := await_event_loop (event_loop_run (T := T) (S := S) (U := U) nanos true tun config0 publishes (turns ++ [t])) in
  let run a := parent_tail tun_fd sock (map GotSignal signals ++ TaskDone (child_wait (answers ++ [a])) :: wakeups) loop in
  let finish code := map ForwardSignal signals ++
    [SendShutdown; EventLoopEnded LoopClean; CloseFd tun_fd; CloseFd sock; ExitWith code] in
  match result with
  | Ok code => run (Exited child (child_exit result)) = Some (finish code) /\
      exists pid rs r later, a_fork k = Ok pid /\ rounds = rs ++ r :: later /\
        last (asked (r_waits r)) = Some NoChildren /\ last (statuses pid (rs ++ [r])) = Some code
  | Err _ => run (Exited child (child_exit result)) = Some (finish 1)
  end /\ forall signal, run (Signaled child signal) = Some (finish (128 + signal)).
Proof.
  intros Hspecs Hs Hw Hn Ht Htun Hrun Hk Ha. apply routes_all_from_specs in Hspecs.
  set (loop := await_event_loop _). assert (loop = LoopClean) as ->.
  { unfold loop, event_loop_run.
    destruct (EventLoop_new_ok origin nanos true tun config0 publishes Hspecs) as (r & -> & Hinv).
    cbn [mbind option_bind]. destruct r as [l|[]]; [|done|done]. destruct Hinv as [Hinv _].
    by destruct (run_shuts_down origin turns t [] l) as (l' & -> & _). }
  cbv zeta. split; [|intros signal; by rewrite parent_tail_spec].
  destruct result as [code|e]; [|by rewrite parent_tail_spec].
  destruct (run_command_tree_returned _ _ _ _ _ _ _ Hrun) as (pid & rs & r & later & Hf & -> & Hlast & Hstat).
  split; [|by exists pid, rs, r, later]. rewrite parent_tail_spec by done. simpl. rewrite Z.mod_small; [done|].
  apply (statuses_range pid (rs ++ [r])); [|by apply last_Some_elem_of].
  rewrite cons_middle, app_assoc in Hk. by apply Forall_app in Hk as [? _].
Qed.

(** ** Witnesses *)

(** The command 5 is told to terminate and exits with code 3. *)
Definition demo_start : start_answers := mkStartAnswers None None (Ok 5) None (fun _ _ => None).

Definition demo_history : list Process.round :=
  [Process.mkRound [StillAlive] 0 demo_proc (fun _ _ => None) (Received SIGTERM) 1000000000;
   Process.mkRound [Exited 5 3; Exited 7 0; NoChildren] 1000000001 demo_proc (fun _ _ => None) Woken 1000000002].

Lemma exit_status_end_to_end_witness :
  parent_tail 7 4 [GotSignal SIGTERM; TaskDone (child_wait [OtherStatus; Exited 42 (child_exit (Ok 3))])] LoopClean
  = Some [ForwardSignal SIGTERM; SendShutdown; EventLoopEnded LoopClean; CloseFd 7; CloseFd 4; ExitWith 3].
Proof.
  pose proof (@exit_status_end_to_end sim sim_tcp sim_udp sim_iface (list bytes) sim_ops sim_laws (sim_tcp_on _)
    (sim_tcp_on_laws _) sim_udp_ops sim_udp_laws (fresh_alloc sim_tcp sim_udp) elements_order literal_engine
    literal_engine_laws queue_fd demo_iface (answering_iface_laws _ _ _ _) greeting_net demo_origin 5 [demo_syn]
    demo_config demo_specs [mkSpec 0 8080 80] demo_turns last_turn 10 demo_start [str "curl"] (mkThread false ∅) 1
    demo_history (Ok 3) 7 4 [SIGTERM] [OtherStatus] 42 [] demo_specs_ok demo_turns_sound) as Hexit.
  destruct Hexit as [[He _] _].
  - repeat (constructor; [exists quiet_round; split; [left|reflexivity]|]). constructor.
  - repeat constructor.
  - reflexivity.
  - discriminate.
  - vm_compute. reflexivity.
  - repeat constructor; discriminate.
  - repeat constructor.
  - assert (await_event_loop (@event_loop_run sim sim_tcp sim_udp sim_iface (list bytes) sim_ops (sim_tcp_on _)
      sim_udp_ops (fresh_alloc sim_tcp sim_udp) elements_order literal_engine queue_fd demo_iface
      5 true [demo_syn] demo_config [mkSpec 0 8080 80] (demo_turns ++ [last_turn])) = LoopClean) as Hl
      by (vm_compute; reflexivity).
    rewrite Hl in He. exact He.
Defined.
